(* ===== verification/_CoqProject ===== *)
-Q . S2P
Prelude.v
Sys.v
UtilTools.v
Log.v
Config.v
Heap.v
SplayTree.v
SplayHeap.v
SplayRefine.v
SplayRank.v
SplayCost.v
Buffer.v
MqDef.v
MqClient.v
MqServer.v
MqStream.v
JobQueue.v
QueueDrain.v
WorkerPool.v
Poller.v
AsyncLog.v
LogDrain.v
Receiver.v
Stage.v
StageSetup.v
StageRun.v
StageHop.v
HttpRequest.v
Acceptor.v
HttpPieces.v
EventLoop.v
ConnTask.v
RequestRun.v
Rearm.v
Net.v
Broker.v
BrokerOrder.v
BrokerAnswers.v
Cache.v
Seda.v
Pipeline.v
StageProcess.v
MainRun.v
Daemon.v
Programs.v
