(* ===== verification/Prelude.v ===== *)
(** * SEDA-framework: a verification development

    The repository is a C++ framework for staged event-driven servers.  A
    _stage_ (src/stage.cpp) is a pool of worker threads around a task queue; it
    receives messages from the stages before it over ZeroMQ, runs the user's
    handler on each and sends the result on.  Next to it stand a message broker
    with its client (src/message_queue/), an HTTP front end on epoll
    (src/acceptor.cpp, src/http_server.cpp) and the utilities they use: a splay
    tree as cache, a byte buffer, a string hash, a logger, a configuration
    reader and a redis client.

    This library translates the core of that code into Gallina, function by
    function with the names of the source, and proves what the functions do.
    The definitions are executable: every theorem with hypotheses has a witness
    (named after it) that evaluates them on a concrete input.  Where the code
    does something else than it means to, the theorem says what it does.

    ** How the parts interact

<<
     clients --> epoll_loop, read_conn        stage::init
                      |                          |
        HTTP machine, buffer, splay cache     receiver --> stage_handler --> sender
                      |                          |               |
                      +-----> worker_pool <------+---------------+
                                  |
                            mutex_task_queue
                                  |
       broker poller --> recv_msg, accept_conn <--> mq_client frames
>>

    All servers hand tasks to a [worker_pool], which pops them from a
    [mutex_task_queue].  The worker pool is therefore proved against the class
    [JobQueue.AtomicQueue] (a linearizable bounded queue), and job_queue.cpp is
    proved to be an instance of it.  The two servers that poll, acceptor and
    broker, are machines around the pool (EventLoop.v, Broker.v) that share
    Poller.v; a stage is another one (StageRun.v), which adds the queue of the
    receiver.  Programs that only make system calls are written in a monad of
    such calls (Sys.v).  The splay tree, the buffer and the message encoding are
    sequential components with functional contracts.

    ** The files

    - Prelude.v (below): outcomes of C++ code, 32-bit integers, bytes and C
      arrays, reachability, runs of machines ([machine_run], [machine_reach]),
      the hint databases [total] and [reach] and the tactic [ok_inv].
    - Sys.v: programs of system calls: the calls that are made, in order, for
      the results that the system gives.
    - UtilTools.v: src/utiltools.cpp, the string hash (equal to the sdbm
      polynomial modulo 2^32, cut to 31 bits) and [split_string], whose loop
      does not end.
    - Log.v: src/log.cpp: [debug], [write_log], the record that the logger
      writes.  Its line buffer of 128 bytes bounds every text that the other
      parts log, so that their definitions call [log_debug] where the code
      does (texts that always fit are left out).
    - Config.v: src/config.cpp, the configuration parser, which never runs.
    - Heap.v: a state monad over a heap of C structs with faults, and rules of
      total correctness for it ([hwp]).
    - SplayTree.v: the functional top-down splay tree: in-order sequence, key
      at the root, insertion, deletion.
    - SplayHeap.v: src/splaytree.c and src/splaytree.h, the pointer code
      statement by statement, with [int] overflow as a fault.
    - SplayRefine.v: the pointer code computes the functional tree, keeps every
      size field right, leaves the rest of the heap alone, and terminates; its
      effect on the ordered entries; which keys are safe for [compare].
    - SplayRank.v: [find_rank], the client of the size fields.
    - SplayCost.v: how many rounds the loops take: a logarithm of the number of
      nodes per call, on average over a sequence of calls.
    - Buffer.v: src/buffer.cpp, the byte buffer, whose length never grows.
    - MqDef.v: src/mq_def.cpp, the encoding of a message through the buffer.
    - MqClient.v: src/message_queue/message_queue_client.cpp, the frames that a
      client writes and the messages it reads.
    - MqServer.v: src/message_queue/message_queue_server.cpp, the broker: the
      task [recv_msg] with every kind of message, [accept_conn], the checksum,
      and src/message_queue/mq_conn.cpp.  End-to-end theorems start from the
      client's calls.
    - MqStream.v: what [recv_msg] makes of messages that TCP joins or cuts.
    - JobQueue.v: src/job_queue.cpp (and src/stage_queue.cpp, a renaming): the
      threads around mutex, condition variables and flags as a transition
      system; linearizability, safety, liveness with one consumer, the lost
      wake-up with two.
    - QueueDrain.v: how long these threads go on, and what is left when they
      come to rest; the lost wake-up with two producers.
    - WorkerPool.v: src/worker_pool.cpp and src/function.h: the workers as a
      transition system over an [AtomicQueue]; tasks are conserved, the counter
      counts, the pool never stops.
    - Poller.v: what acceptor and broker share: the kernel's registrations and
      [epoll_wait], the pool with the variables of the tasks it runs, and the
      invariant that ties events to tasks.
    - AsyncLog.v: the logger's thread, [stop] and [set_async] of src/log.cpp as a
      transition system over an [AtomicQueue]: order of the records, [stop].
    - LogDrain.v: the same on the queue of JobQueue.v itself: moves counted, and
      what the logger has written when nothing can go on.
    - Receiver.v: src/IElement.h, src/receiver.cpp, src/sender.cpp: elements,
      [receiver::run]'s round, the queue to [fetchOne] as a transition system,
      [sendMsg].
    - Stage.v: src/stage_handler.cpp, src/stage.cpp, src/stage_control.cpp: the
      handler and its task, one hop of a message, [init] on the pool.
    - StageSetup.v: [sender::init], the set-up of [receiver::run],
      [stage_control::run] and [stage::init] as programs of system calls.
    - StageRun.v: what runs after [stage::init]: the main thread, the pool, the
      loops of receiver and handler and the tasks [handlerFunc] as one machine.
    - StageHop.v: that machine against the function [hop] of Stage.v.
    - HttpRequest.v: src/http_request.cpp, the parser of src/http_server.cpp,
      src/struct.h, src/connect.cpp: the byte machine, the form parser, the
      user info.
    - Acceptor.v: src/acceptor.cpp, src/connect.h: the tasks of a connection,
      its registration with EPOLLONESHOT as a transition system, from request
      to file, and the response without [sendfile].
    - HttpPieces.v: requests that arrive in pieces, in one task or in several.
    - EventLoop.v: [epoll_loop] of src/acceptor.cpp, the pool and its tasks on a
      shared heap of connections as one machine, in which two tasks at work on
      one request are a data race; src/acceptor_stage.cpp.
    - ConnTask.v: a task of that machine, among the others, against the function
      [read_conn] of Acceptor.v.
    - RequestRun.v: a request, in pieces, through that machine, to its file.
    - Rearm.v: EPOLLONESHOT in that machine: who arms a connection again.
    - Net.v: src/socket.cpp, src/loop.cpp, src/tcp_server.cpp, the set-up of the
      broker, [connect], [loop] and [wait] of the client.
    - Broker.v: the broker's poller, pool and tasks as one machine, in which
      unlocked work on the shared maps is a data race.
    - BrokerOrder.v: the tasks of that machine that do not race commute.
    - BrokerAnswers.v: to whom that machine writes.
    - Cache.v: the cache lookup of src/http_server.cpp on the heap of the splay
      tree.
    - Seda.v: src/seda.cpp, src/seda_object.cpp, src/redis_client.cpp: the
      container of stages, reference counts, the handles of the redis client.
    - Pipeline.v: src/main.cpp: the handlers, the forked processes, and a
      message on its way through both stages.
    - StageProcess.v: [runStage] of src/main.cpp, from the log to [stage::run], as
      a program of system calls.
    - MainRun.v: the two stages of src/main.cpp as running machines, joined by a
      ZeroMQ that keeps the order of messages and may drop some.
    - Daemon.v: [daemonize] of src/main.cpp.
    - Programs.v: the mains of src/test_mq_client.cpp,
      src/test/src/test_splaytree.cpp and src/test/src/test_redis_client.cpp.

    ** Conventions

    A function that may be undefined, throw or abort returns [outcome]: [Ok],
    [Err] with the fault, or [Timeout].  [int] is [Z] with overflow a fault
    ([int_of]); [unsigned] and [size_t] wrap ([uint], [size_t]); [char] is
    signed, as on x86-64.  A [char] array is a list of bytes whose length is
    the size of the object, so that a [memcpy] or [strlen] that leaves it is
    [OutOfBounds].  An uninitialised field is [Indeterminate], and reading it is
    a fault.  Results of system calls and of ZeroMQ are arguments; what a
    function asks of the kernel is a list it returns.  Threads are program
    counters and the schedule is a list of moves; a theorem about all lists is
    one about all interleavings at the grain of the moves: everything that
    happens under a mutex, reads and writes of shared fields outside of one,
    spurious wake-ups and the choice of the thread that a signal wakes.  In
    the machines of acceptor, broker and stage a task is cut at its system
    calls and where it touches what others share.
    The address of a new object is the machine's choice among those where
    nothing lives; a dead one may be used again.

    Fuel: the loops of splaytree.c run on fuel at least the number of nodes,
    which the theorems show to be enough (SplayCost.v has the exact number);
    the byte machine on the number of bytes, since every round moves [i]
    forward ([machine_terminates]); [LogUtil::debug] needs two rounds; the
    configuration parser one round per line. [split_string] and [stage::run]
    are the loops that do not end: they give [Timeout] for every fuel.

    ** What the theorems show

    - Splay tree: refinement (C1), insertion and deletion on the ordered
      entries with the frame untouched (C2, C3), the key or its neighbour at
      the root (C36), the amortised running time (C4); the cache lookup, which
      loses the entry it serves (C35).
    - Task queue and pool: linearizability (C5), mutual exclusion and flags
      (C7), everything delivered with one consumer (C29), tasks that starve
      with the twenty of a stage (C31); no task lost or run twice (C6), the
      counter (C8).
    - HTTP: requests in pieces (C9), forms (C10), termination on any bytes
      (C40), the response by writes (C12).
    - The running acceptor: a request from its bytes to its file (C11), events
      become tasks (C13), no connection is forgotten (C14), a task among
      others is the function [read_conn] (C16), no pointer dangles while
      nobody hangs up (C15), the types of the shared memory (C17).
    - The running broker: events become tasks (C19), tasks that do not race
      commute (C21), the cache stays empty (C18), only publishers are answered
      (C20); checksum between client and server (C37), encoding (C38),
      publications by the reads that deliver them (C39).
    - The running stage: messages become tasks (C23), once and in order if
      they come slowly (C24), and then the stage sends what the function [hop]
      says (C25); the two stages of main.cpp together (C26).
    - Messages one by one: from one end of main.cpp's pipeline to the other
      (C27), a hop through a stage (C28), the receiver's queue (C30), how the
      processes of main.cpp begin (C32).
    - Utilities: the asynchronous log (C33) and why nothing logged is lost
      while it runs (C34), and how [stop] loses records or hangs (C22).

    Theorems without a number state further behaviour of the same definitions,
    among it the ways in which fixed buffers overflow, connections are used
    after their deletion or forgotten, and threads race.

    ** What is not modelled

    src/event_core.cpp calls [Config::getListenPort] and a constructor of [Loop]
    that exist nowhere; [start] and [loop] of src/tcp_server.cpp start a pool and
    an acceptor that is made with a constructor that exists nowhere; the part of
    src/socket.cpp behind its set-up is a comment.
    [Loop] in src/loop.cpp reads an epoll descriptor that nothing sets, so that
    only what it does with the answers of the system is modelled.  [LogUtil]'s
    [info], [error] and [make_message], [SEDA::init] and [SEDA::stop],
    [stage::getPersistData] and the class [_log] of the broker have no definition
    in the repository.  Allocation is taken to succeed, and destructors that only
    free are left out, as is printing.  The headers without code
    (src/http_module.h, src/http_response.h, src/slab_system.h and others) are
    left out.  Of the test programs those in Programs.v are modelled; the others
    end in functions that exist nowhere (test_seda_framework, test_server), push
    objects that the pool takes for tasks (test_work_pool), measure times
    (test_async_logger), or try system calls without using the repository. *)

From Stdlib Require Export ZArith Lia Ascii.
From stdpp Require Export base list gmap strings relations.

(** ** Outcomes of C++ code

    A call either returns a value, runs into one of the faults below, or, for
    a loop that the model runs on fuel, has used its fuel up. *)

Inductive fault :=
  | OutOfBounds      (* read or write outside an object *)
  | NullDeref        (* dereference of NULL *)
  | IntOverflow      (* signed 32-bit overflow *)
  | Uninitialised    (* read of an indeterminate value *)
  | BadIterator      (* [erase(end())] and the like *)
  | UseAfterFree     (* access to, or release of, a dead object *)
  | BadFormat        (* conversion directive without a matching argument *)
  | DataRace         (* conflicting accesses of two threads *)
  | LibThrow         (* exception thrown by the C++ library *)
  | Aborted.         (* failed [assert], [exit] *)

#[export] Instance fault_eq_dec : EqDecision fault.
Proof. solve_decision. Defined.

Inductive outcome (A : Type) :=
  | Ok (a : A)
  | Err (f : fault)
  | Timeout.
Arguments Ok {A} a.
Arguments Err {A} f.
Arguments Timeout {A}.

#[export] Instance outcome_ret : MRet outcome := λ A a, Ok a.
#[export] Instance outcome_bind : MBind outcome := λ A B k m,
  match m with Ok a => k a | Err f => Err f | Timeout => Timeout end.
#[export] Instance outcome_fmap : FMap outcome := λ A B g m,
  match m with Ok a => Ok (g a) | Err f => Err f | Timeout => Timeout end.

Definition is_ok {A} (m : outcome A) : bool :=
  match m with Ok _ => true | _ => false end.

Section outcome.
Context {A B : Type}.

Lemma bind_ok (a : A) (k : A → outcome B) : (Ok a ≫= k) = k a.
Proof. reflexivity. Qed.
Lemma bind_err f (k : A → outcome B) : (Err f ≫= k) = Err f.
Proof. reflexivity. Qed.
Lemma bind_ok_inv (m : outcome A) (k : A → outcome B) b :
  m ≫= k = Ok b → ∃ a, m = Ok a ∧ k a = Ok b.
Proof. destruct m; [eauto | discriminate..]. Qed.
Lemma bind_cong (m : outcome A) (k k' : A → outcome B) :
  (∀ a, k a = k' a) → m ≫= k = m ≫= k'.
Proof. intros H. destruct m; simpl; [apply H|done..]. Qed.
Lemma bind_total (m : outcome A) (k : A → outcome B) :
  m ≠ Timeout → (∀ a, k a ≠ Timeout) → m ≫= k ≠ Timeout.
Proof. intros Hm Hk. destruct m; simpl; [apply Hk|done..]. Qed.
Lemma bind_is_ok (m : outcome A) (k : A → outcome B) :
  is_ok (m ≫= k) → is_ok m.
Proof. by destruct m. Qed.
End outcome.


(** Calls that use no fuel: the hints of [total] are closed under bind. *)
Create HintDb total.
#[export] Hint Resolve bind_total : total.

(** Decompose every successful bind in the context. *)
Ltac ok_inv :=
  repeat match goal with
  | H : _ ≫= _ = Ok _ |- _ =>
      let a := fresh "v" in let H1 := fresh H in
      apply bind_ok_inv in H as (a & H1 & H)
  | H : Ok _ = Ok _ |- _ => injection H as H; subst
  | H : Err _ = Ok _ |- _ => discriminate H
  | H : Timeout = Ok _ |- _ => discriminate H
  end.

(** ** Machines

    The programs with several threads are machines: [next] makes one move of
    one part, if it is possible, and reports what it did, or is a fault. *)

Section machine.
Context {S M E : Type} (next : S → M → option (outcome (S * E))).

(** A run ends with its moves, or with the first fault. *)
Fixpoint machine_run (s : S) (ms : list M) : option (outcome (S * list E)) :=
  match ms with
  | [] => Some (Ok (s, []))
  | m :: ms =>
      r ← next s m;
      match r with
      | Ok (s, e) => r ← machine_run s ms; Some ('(s, es) ← r; Ok (s, e :: es))
      | Err f => match ms with [] => Some (Err f) | _ => None end
      | Timeout => None
      end
  end.

Inductive machine_reach (s0 : S) : list M → S → list E → Prop :=
  | reach_nil : machine_reach s0 [] s0 []
  | reach_snoc ms s es m s' e :
      machine_reach s0 ms s es → next s m = Some (Ok (s', e)) → machine_reach s0 (ms ++ [m]) s' (es ++ [e]).

Lemma machine_reach_run s0 ms1 s1 es1 ms2 s2 es2 :
  machine_reach s0 ms1 s1 es1 → machine_run s1 ms2 = Some (Ok (s2, es2)) →
  machine_reach s0 (ms1 ++ ms2) s2 (es1 ++ es2).
Proof.
  revert ms1 s1 es1 es2; induction ms2 as [|m ms2 IH]; intros ms1 s1 es1 es2 Hr He; simpl in He; simplify_eq.
  { by rewrite !app_nil_r. }
  apply bind_Some in He as ([[s e]| |] & Hn & He); [|by case_match|done].
  apply bind_Some in He as ([[s3 es3]| |] & Hrun & He); simplify_eq/=.
  rewrite (cons_middle m), (cons_middle e), !app_assoc. eapply IH; [by econstructor|done].
Qed.

Lemma machine_run_reach s0 ms s es : machine_run s0 ms = Some (Ok (s, es)) → machine_reach s0 ms s es.
Proof. intros H. by apply (machine_reach_run s0 [] s0 [] ms s es (reach_nil s0)). Qed.
Lemma machine_run_snoc s0 ms s es m s' e :
  machine_run s0 ms = Some (Ok (s, es)) → next s m = Some (Ok (s', e)) →
  machine_run s0 (ms ++ [m]) = Some (Ok (s', es ++ [e])).
Proof.
  revert s0 es; induction ms as [|m0 ms IH]; intros s0 es Hr Hn; simpl in *; simplify_eq; [by rewrite Hn|].
  apply bind_Some in Hr as ([[s1 e0]| |] & -> & Hr); [|by case_match|done].
  apply bind_Some in Hr as ([[s2 es2]| |] & Hr & Hq); simplify_eq/=. by rewrite (IH _ _ Hr Hn).
Qed.

Lemma machine_run_snoc_inv s0 ms m s' es' :
  machine_run s0 (ms ++ [m]) = Some (Ok (s', es')) →
  ∃ s es e, machine_run s0 ms = Some (Ok (s, es)) ∧ next s m = Some (Ok (s', e)) ∧ es' = es ++ [e].
Proof.
  revert s0 es'; induction ms as [|m0 ms IH]; intros s0 es' Hr; simpl in Hr;
    apply bind_Some in Hr as ([[s1 e0]| |] & Hn & Hr); try done; [simplify_eq/=; by exists s0, [], e0| |by case_match].
  apply bind_Some in Hr as ([[s2 es2]| |] & Hr & Hq); simplify_eq/=.
  destruct (IH _ _ Hr) as (s & es & e & Hr' & Hm & ->). exists s, (e0 :: es), e. split_and!; [|done..]. simpl. by rewrite Hn; simpl; rewrite Hr'.
Qed.
Lemma machine_reach_is_run s0 ms s es : machine_reach s0 ms s es → machine_run s0 ms = Some (Ok (s, es)).
Proof. induction 1; [done|]. by eapply machine_run_snoc. Qed.
End machine.

(** ** Machine integers *)

Section int32.
Local Open Scope Z_scope.

Definition int_min : Z := - 2 ^ 31.
Definition int_max : Z := 2 ^ 31 - 1.

Definition in_int (z : Z) : Prop := int_min ≤ z ≤ int_max.
#[global] Instance in_int_dec z : Decision (in_int z).
Proof. unfold in_int. apply _. Defined.

(** The result of a signed 32-bit operation whose exact value is [z]:
    overflow is undefined behaviour. *)
Definition int_of (z : Z) : outcome Z :=
  if decide (in_int z) then Ok z else Err IntOverflow.

Lemma int_of_ok z : in_int z → int_of z = Ok z.
Proof. intros H. unfold int_of. by rewrite decide_True. Qed.

Lemma int_of_small z : 0 ≤ z < 2 ^ 31 → int_of z = Ok z.
Proof. intros H. apply int_of_ok. unfold in_int, int_min, int_max. lia. Qed.

Lemma int_of_overflow z : ¬ in_int z → int_of z = Err IntOverflow.
Proof. intros H. unfold int_of. by rewrite decide_False. Qed.

(** [unsigned int] arithmetic wraps around. *)
Definition uint (z : Z) : Z := z mod 2 ^ 32.
(** Conversion of an [int] to [size_t]. *)
Definition size_t (z : Z) : Z := z mod 2 ^ 64.
(** Conversion of a wider integer to [int]: modulo 2^32. *)
Definition to_int (z : Z) : Z := (z + 2 ^ 31) mod 2 ^ 32 - 2 ^ 31.

Lemma to_int_small z : in_int z → to_int z = z.
Proof. unfold in_int, int_min, int_max, to_int. intros. rewrite Z.mod_small; lia. Qed.
End int32.

(** A mask of one bit. *)
Lemma land_bit (x n : Z) : (0 ≤ n → (Z.land x (2 ^ n) =? 0) = negb (Z.testbit x n))%Z.
Proof.
  intros Hn. apply eq_true_iff_eq. rewrite Z.eqb_eq, negb_true_iff. split; intros H.
  - apply (f_equal (λ z, Z.testbit z n)) in H. by rewrite Z.land_spec, Z.pow2_bits_true, andb_true_r, Z.bits_0 in H by done.
  - apply Z.bits_inj'. intros m Hm. rewrite Z.land_spec, Z.bits_0. destruct (decide (m = n)) as [->|Hne]; [by rewrite H|].
    by rewrite Z.pow2_bits_false, andb_false_r by done.
Qed.

(** ** Bytes and C arrays *)

Abbreviation bytes := (list ascii).

(** [bs "text"] is a byte string literal; [NUL] the terminator. *)
Definition bs (s : string) : bytes := String.list_ascii_of_string s.
Definition NUL : ascii := "000"%char.

(** The value of a byte, and the value of the same byte read as the (signed)
    [char] of the x86-64 ABI. *)
Definition byte_val (c : ascii) : Z := Z.of_N (N_of_ascii c).
Definition char_val (c : ascii) : Z :=
  if (byte_val c <? 128)%Z then byte_val c else (byte_val c - 256)%Z.
(** Conversion of an integer to [char]: modulo 256. *)
Definition to_char (z : Z) : ascii := ascii_of_N (Z.to_N (z mod 256)).

Lemma byte_val_range c : (0 ≤ byte_val c < 256)%Z.
Proof. unfold byte_val. pose proof (N_ascii_bounded c). lia. Qed.

Lemma byte_val_to_char z : byte_val (to_char z) = (z mod 256)%Z.
Proof.
  unfold byte_val, to_char. pose proof (Z.mod_pos_bound z 256 ltac:(lia)).
  rewrite N_ascii_embedding; lia.
Qed.

Lemma to_char_byte_val c : to_char (byte_val c) = c.
Proof.
  unfold to_char. rewrite Z.mod_small by apply byte_val_range.
  unfold byte_val. by rewrite N2Z.id, ascii_N_embedding.
Qed.

Lemma byte_val_inj c d : byte_val c = byte_val d → c = d.
Proof. intros H. by rewrite <-(to_char_byte_val c), H, to_char_byte_val. Qed.

Lemma char_val_mod c : (char_val c mod 256 = byte_val c)%Z.
Proof.
  unfold char_val. pose proof (byte_val_range c). case_match.
  - by rewrite Z.mod_small.
  - replace (byte_val c - 256)%Z with (byte_val c + (-1) * 256)%Z by lia.
    rewrite Z.mod_add by lia. by rewrite Z.mod_small.
Qed.

Lemma char_val_range c : (-128 ≤ char_val c < 128)%Z.
Proof.
  pose proof (byte_val_range c). unfold char_val.
  destruct (Z.ltb_spec (byte_val c) 128); lia.
Qed.

(** Array access: reads and writes outside the array are faults. *)
Definition get (a : bytes) (i : nat) : outcome ascii :=
  match a !! i with Some c => Ok c | None => Err OutOfBounds end.
Definition put (a : bytes) (i : nat) (c : ascii) : outcome bytes :=
  if decide (i < length a) then Ok (<[i := c]> a) else Err OutOfBounds.

(** [memcpy(dst + d, src + s, n)]. *)
Definition memcpy (dst : bytes) (d : nat) (src : bytes) (s : nat) (n : Z) : outcome bytes :=
  if decide (0 ≤ n ∧ Z.of_nat d + n ≤ Z.of_nat (length dst)
             ∧ Z.of_nat s + n ≤ Z.of_nat (length src))%Z
  then let n := Z.to_nat n in
       Ok (take d dst ++ take n (drop s src) ++ drop (d + n) dst)
  else Err OutOfBounds.

(** [memcmp(a + off, lit, strlen(lit)) == 0]; all the bytes must exist. *)
Definition memcmp_eq (a : bytes) (off : nat) (lit : bytes) : outcome bool :=
  if decide (off + length lit ≤ length a)
  then Ok (bool_decide (take (length lit) (drop off a) = lit))
  else Err OutOfBounds.

(** The C string at the start of an array: the bytes before the first NUL. *)
Fixpoint to_nul (a : bytes) : option bytes :=
  match a with
  | [] => None
  | c :: a => if decide (c = NUL) then Some [] else (c ::.) <$> to_nul a
  end.
Definition cstr (a : bytes) (off : nat) : outcome bytes :=
  match to_nul (drop off a) with Some s => Ok s | None => Err OutOfBounds end.

(** The C string that [s.c_str()] of a [std::string] denotes. *)
Definition c_str (s : bytes) : bytes := s ++ [NUL].

Definition no_nul (s : bytes) : Prop := NUL ∉ s.

(** A way to compute that a literal has no NUL. *)
Lemma no_nul_dec s : bool_decide (NUL ∈ s) = false → no_nul s.
Proof. intros H. by apply bool_decide_eq_false in H. Qed.

Lemma no_nul_app s t : no_nul s → no_nul t → no_nul (s ++ t).
Proof. unfold no_nul. intros Hs Ht [?|?]%elem_of_app; done. Qed.

Lemma no_nul_take n s : no_nul s → no_nul (take n s).
Proof. unfold no_nul. intros Hs ?%subseteq_take. done. Qed.

(** Texts put together from literals and parts known to have no NUL. *)
Ltac no_nul := repeat apply no_nul_app; first [done | by apply no_nul_dec; vm_compute].

Lemma to_nul_app s a : no_nul s → to_nul (s ++ NUL :: a) = Some s.
Proof.
  unfold no_nul. induction s as [|c s IH]; intros H; simpl; [done|].
  apply not_elem_of_cons in H as [Hc Hs].
  rewrite decide_False by congruence. by rewrite IH.
Qed.

Lemma to_nul_spec a s : to_nul a = Some s → no_nul s ∧ ∃ t, a = s ++ NUL :: t.
Proof.
  unfold no_nul. revert s; induction a as [|c a IH]; intros s H; simpl in H; [done|].
  case_decide; simplify_eq; [split; [set_solver|by exists a]|].
  destruct (to_nul a) as [s'|]; simplify_eq/=.
  destruct (IH s' eq_refl) as (? & t & ->). split; [|by exists t].
  apply not_elem_of_cons; split; congruence.
Qed.

Lemma to_nul_length a s : to_nul a = Some s → length s < length a.
Proof.
  intros (_ & t & ->)%to_nul_spec. rewrite length_app. simpl. lia.
Qed.

Lemma to_nul_is_Some a : NUL ∈ a → is_Some (to_nul a).
Proof.
  induction a as [|c a IH]; intros H; simpl; [set_solver|].
  case_decide; [eauto|].
  apply elem_of_cons in H as [H|H]; [congruence|].
  destruct (IH H) as [s ->]. eauto.
Qed.

Lemma no_nul_to_nul s : no_nul s → to_nul s = None.
Proof.
  unfold no_nul. induction s as [|c s IH]; intros H; [done|]. apply not_elem_of_cons in H as [Hc Hs].
  simpl. rewrite decide_False by congruence. by rewrite IH.
Qed.

Lemma get_total a i : get a i ≠ Timeout.
Proof. unfold get. by case_match. Qed.
Lemma memcpy_total dst d src s n : memcpy dst d src s n ≠ Timeout.
Proof. unfold memcpy. by case_decide. Qed.
Lemma memcmp_total a off lit : memcmp_eq a off lit ≠ Timeout.
Proof. unfold memcmp_eq. by case_decide. Qed.
Lemma cstr_total a off : cstr a off ≠ Timeout.
Proof. unfold cstr. by case_match. Qed.
#[export] Hint Resolve get_total memcpy_total memcmp_total cstr_total : total.

Lemma get_ok a i c : a !! i = Some c → get a i = Ok c.
Proof. unfold get. by intros ->. Qed.

Lemma put_ok a i c : i < length a → put a i c = Ok (<[i:=c]> a).
Proof. intros. unfold put. by rewrite decide_True. Qed.

Lemma memcpy_ok dst d src s (n : nat) :
  d + n ≤ length dst → s + n ≤ length src →
  memcpy dst d src s (Z.of_nat n) = Ok (take d dst ++ take n (drop s src) ++ drop (d + n) dst).
Proof. intros. unfold memcpy. rewrite decide_True by lia. by rewrite Nat2Z.id. Qed.

Lemma memcpy_oob dst d src s (n : Z) :
  (n < 0 ∨ Z.of_nat (length dst) < Z.of_nat d + n ∨ Z.of_nat (length src) < Z.of_nat s + n)%Z →
  memcpy dst d src s n = Err OutOfBounds.
Proof. intros. unfold memcpy. rewrite decide_False by lia. done. Qed.

Lemma memcpy_length dst d src s n a :
  memcpy dst d src s n = Ok a → length a = length dst.
Proof.
  unfold memcpy. case_decide as H; [|discriminate]. intros [= <-].
  rewrite !length_app, !length_take, !length_drop. lia.
Qed.

Lemma memcmp_eq_hit pre lit post :
  memcmp_eq (pre ++ lit ++ post) (length pre) lit = Ok true.
Proof.
  unfold memcmp_eq. rewrite !length_app, decide_True by lia.
  rewrite drop_app_length, take_app_length. by rewrite bool_decide_eq_true_2.
Qed.

(** ** Reachability

    [reach step init s]: state [s] is reached from an initial state. *)
Section reach.
Context {S : Type} (init : S → Prop) (step : S → S → Prop).

Definition reach (s : S) : Prop := ∃ s0, init s0 ∧ rtc step s0 s.

Definition inductive_inv (I : S → Prop) : Prop :=
  (∀ s, init s → I s) ∧ (∀ s s', I s → step s s' → I s').

Lemma reach_inv I : inductive_inv I → ∀ s, reach s → I s.
Proof.
  intros [Hi Hs] s (s0 & H0 & Hr). apply Hi in H0. clear Hi.
  induction Hr; eauto.
Qed.

Lemma reach_init s : init s → reach s.
Proof. intros. exists s. split; [done|apply rtc_refl]. Qed.
Lemma reach_step s s' : reach s → step s s' → reach s'.
Proof. intros (s0 & ? & ?) ?. exists s0. split; [done|]. by eapply rtc_r. Qed.

(** Invariants may use invariants proved before. *)
Lemma reach_inv_strong (I : S → Prop) :
  (∀ s, init s → I s) → (∀ s s', reach s → I s → step s s' → I s') →
  ∀ s, reach s → I s.
Proof.
  intros Hi Hs s Hr. apply (reach_inv (λ s, reach s ∧ I s)); [|done].
  split; [intros; split; eauto using reach_init|].
  intros ?? [??] ?. eauto using reach_step.
Qed.
End reach.

Create HintDb reach.
#[export] Hint Resolve reach_init reach_step : reach.

(** ** What the elements of a list hold, when one of them changes *)

Lemma omap_perm {T U} (g : T → option U) (l : list T) t p p' :
  l !! t = Some p →
  option_list (g p) ++ omap g (<[t := p']> l) ≡ₚ option_list (g p') ++ omap g l.
Proof.
  revert t; induction l as [|x l IH]; intros [|t] Ht; simplify_eq/=.
  - destruct (g p), (g p'); simpl; [constructor|done..].
  - destruct (g x); simpl; [|by apply IH].
    rewrite <-!Permutation_middle. by rewrite IH.
Qed.

Lemma omap_same {T U} (g : T → option U) (l : list T) t p p' :
  l !! t = Some p → g p' = g p → omap g (<[t := p']> l) ≡ₚ omap g l.
Proof.
  intros Ht Hg. pose proof (omap_perm g _ _ _ p' Ht) as H. rewrite Hg in H.
  by apply Permutation_app_inv_l in H.
Qed.

Lemma omap_gain {T U} (g : T → option U) (l : list T) t p p' x :
  l !! t = Some p → g p = None → g p' = Some x → omap g (<[t := p']> l) ≡ₚ x :: omap g l.
Proof. intros Ht Hg Hg'. pose proof (omap_perm g _ _ _ p' Ht) as H. by rewrite Hg, Hg' in H. Qed.

Lemma omap_lose {T U} (g : T → option U) (l : list T) t p p' x :
  l !! t = Some p → g p = Some x → g p' = None → x :: omap g (<[t := p']> l) ≡ₚ omap g l.
Proof. intros Ht Hg Hg'. pose proof (omap_perm g _ _ _ p' Ht) as H. by rewrite Hg, Hg' in H. Qed.
