(* ===== verification/Sys.v ===== *)
(** * Programs that call the system

    The set-up code of the servers is a sequence of system calls, some of whose
    results are tested.  [sys_prog A] is such a program: it is given the results
    of its calls in order, and gives the calls it makes (also if it ends in a
    fault) with its own result.  [Timeout] stands for a call that does not
    return. *)

From S2P Require Import Prelude.
Open Scope Z_scope.

(** ** The calls *)

(** An address of [struct sockaddr_in]: the text of the IP address, and the
    port in network byte order. *)
Record inet_addr := Inet { ip_text : bytes; port_net : Z }.

Inductive call :=
  | Socket_
  | FcntlNonblock (fd : Z)          (* [fcntl(fd, F_SETFL, SOCK_NONBLOCK)] *)
  | ReuseAddr (fd : Z)              (* [setsockopt(fd, SOL_SOCKET, SO_REUSEADDR, ...)] *)
  | Bind (fd : Z) (addr : inet_addr)
  | Listen (fd backlog : Z)
  | Connect (fd : Z) (addr : inet_addr)
  | EpollCreate
  | EpollAddListen (epfd fd : Z)    (* [epoll_ctl(epfd, EPOLL_CTL_ADD, fd, EPOLLIN | EPOLLET)] *)
  | EpollAddPeer (epfd fd : Z)      (* the same with EPOLLONESHOT *)
  | EpollDelPeer (epfd fd : Z)
  | Close_ (fd : Z)
  | Umask (m : Z) | Getrlimit | Fork | Setsid | IgnoreHup | Chdir (dir : bytes)
  | Open_ (path : bytes) | Dup (fd : Z) | Openlog | Syslog
  | ZmqCtxNew | ZmqSocket (publish : bool) | ZmqBind (addr : bytes) | ZmqConnect (addr : bytes)
  | ZmqSubscribe | Sleep (seconds : Z)
  | PthreadCreate | PthreadJoin (pid : Z)
  | Exit (code : Z).

(** ** The monad *)

Definition sys_prog (A : Type) : Type := list Z → list call * outcome (A * list Z).

#[export] Instance sys_ret : MRet sys_prog := λ A a rs, ([], Ok (a, rs)).
#[export] Instance sys_bind : MBind sys_prog := λ A B k m rs,
  match m rs with
  | (cs, Ok (a, rs)) => let '(cs', o) := k a rs in (cs ++ cs', o)
  | (cs, Err f) => (cs, Err f)
  | (cs, Timeout) => (cs, Timeout)
  end.

Definition sys (c : call) : sys_prog Z :=
  λ rs, match rs with r :: rs => ([c], Ok (r, rs)) | [] => ([c], Timeout) end.
(** A call whose result is not looked at. *)
Definition sys_ (c : call) : sys_prog unit := sys c ≫= λ _, mret ().
(** [exit] and a failed [assert]; a computation that may be undefined. *)
Definition exit_ {A} (code : Z) : sys_prog A := λ rs, ([Exit code], Err Aborted).
Definition assert_ (b : bool) : sys_prog unit := λ rs, ([], if b then Ok ((), rs) else Err Aborted).
Definition sys_lift {A} (m : outcome A) : sys_prog A := λ rs, ([], a ← m; Ok (a, rs)).

(** The calls of a run, and its result. *)
Definition calls_of {A} (m : sys_prog A) (rs : list Z) : list call := (m rs).1.
Definition result_of {A} (m : sys_prog A) (rs : list Z) : outcome A := '(a, _) ← (m rs).2; Ok a.

(** A run that comes after some calls. *)
Definition after {R} (cs : list call) (p : list call * R) : list call * R := (cs ++ p.1, p.2).

Section laws.
Context {A B : Type}.

Lemma sys_ret_bind (a : A) (k : A → sys_prog B) rs : (mret a ≫= k) rs = k a rs.
Proof. unfold mbind, sys_bind, mret, sys_ret. by destruct (k a rs). Qed.

Lemma sys_call_bind c (k : Z → sys_prog B) r rs :
  (sys c ≫= k) (r :: rs) = after [c] (k r rs).
Proof. unfold mbind, sys_bind, sys. by destruct (k r rs). Qed.

Lemma sys_call_bind_nil c (k : Z → sys_prog B) : (sys c ≫= k) [] = ([c], Timeout).
Proof. done. Qed.

Lemma sys_call_bind_ c (k : () → sys_prog B) r rs :
  (sys_ c ≫= k) (r :: rs) = after [c] (k () rs).
Proof. unfold sys_, mbind, sys_bind, sys. cbn. by destruct (k () rs). Qed.

Lemma sys_call_bind_nil_ c (k : () → sys_prog B) : (sys_ c ≫= k) [] = ([c], Timeout).
Proof. done. Qed.

(** A program that is run twice on the same results does the same twice: the
    equality of programs on every list of results. *)
Lemma sys_bind_cong (m m' : sys_prog A) (k k' : A → sys_prog B) rs :
  (∀ rs, m rs = m' rs) → (∀ a rs, k a rs = k' a rs) → (m ≫= k) rs = (m' ≫= k') rs.
Proof.
  intros Hm Hk. unfold mbind, sys_bind. rewrite Hm. destruct (m' rs) as [cs [[a rs']| |]]; [|done..]. by rewrite Hk.
Qed.

(** What comes after a program that has returned. *)
Lemma sys_bind_done (m : sys_prog A) (k : A → sys_prog B) rs cs a rs' :
  m rs = (cs, Ok (a, rs')) → (m ≫= k) rs = after cs (k a rs').
Proof. intros Hm. unfold mbind, sys_bind. rewrite Hm. by destruct (k a rs'). Qed.

Lemma sys_assert b (k : () → sys_prog B) rs :
  (assert_ b ≫= k) rs = if b then k () rs else ([], Err Aborted).
Proof. unfold assert_, mbind, sys_bind. destruct b; [|done]. by destruct (k () rs). Qed.

(** Where a call of a sequence comes from. *)
Lemma calls_of_bind (m : sys_prog A) (k : A → sys_prog B) rs c :
  c ∈ calls_of (m ≫= k) rs →
  c ∈ calls_of m rs ∨ ∃ a rs', (m rs).2 = Ok (a, rs') ∧ c ∈ calls_of (k a) rs'.
Proof.
  unfold calls_of, mbind, sys_bind. destruct (m rs) as [cs [[a rs']| |]]; cbn; [|by left..].
  destruct (k a rs') as [cs' o] eqn:Hk. cbn. intros [?|?]%elem_of_app; [by left|].
  right. exists a, rs'. by rewrite Hk.
Qed.

Lemma result_of_bind (m : sys_prog A) (k : A → sys_prog B) rs b :
  result_of (m ≫= k) rs = Ok b → ∃ a rs', (m rs).2 = Ok (a, rs') ∧ result_of (k a) rs' = Ok b.
Proof.
  unfold result_of, mbind at 1 2, sys_bind. destruct (m rs) as [cs [[a rs']| |]]; cbn; [|done..].
  intros H. exists a, rs'. split; [done|]. by destruct (k a rs').
Qed.

Lemma lift_result (m : outcome A) rs a rs' : (sys_lift m rs).2 = Ok (a, rs') → m = Ok a ∧ rs' = rs.
Proof. unfold sys_lift. cbn. destruct m; intros [= <- <-]; done. Qed.
End laws.

Lemma calls_of_lift {A} (m : outcome A) rs : calls_of (sys_lift m) rs = [].
Proof. done. Qed.
Lemma calls_of_sys c rs : calls_of (sys c) rs = [c].
Proof. by destruct rs. Qed.
Lemma calls_of_sys_ c rs : calls_of (sys_ c) rs = [c].
Proof. by destruct rs. Qed.

(** ** Ports *)

(** [htons]: the low 16 bits with their bytes swapped, on a little-endian
    machine. *)
Definition htons (p : Z) : Z :=
  let p := p mod 2 ^ 16 in p mod 256 * 256 + p / 256.

Lemma htons_htons p : htons (htons p) = p mod 2 ^ 16.
Proof.
  unfold htons. pose proof (Z.mod_pos_bound p (2 ^ 16) ltac:(lia)). set (q := p mod 2 ^ 16) in *.
  Z.to_euclidean_division_equations. lia.
Qed.

(** Two ports are the same on the wire exactly if they agree modulo 65536. *)
Lemma htons_inj p q : htons p = htons q ↔ p mod 2 ^ 16 = q mod 2 ^ 16.
Proof.
  split; [|unfold htons; by intros ->]. intros H. by rewrite <-!htons_htons, H.
Qed.
