(* ===== verification/UtilTools.v ===== *)
(** * utiltools.cpp: the string hash and [split_string]

    [utiltool::hash] is the sdbm hash on 32-bit unsigned arithmetic; its
    result is meant to be a key of the splay-tree cache (main.cpp), which is
    why its range matters to the tree.  [split_string] is the unfinished
    tokenizer of the same file. *)

From S2P Require Import Prelude.

Local Open Scope Z_scope.

(** ** Data and operations *)

(** [hash = ( *str++) + (hash << 6) + (hash << 16) - hash]: the character is
    a signed [char] converted to [unsigned]; every operation wraps. *)
Definition hash_step (h : Z) (c : ascii) : Z :=
  uint (uint (uint (uint (char_val c) + uint (Z.shiftl h 6)) + uint (Z.shiftl h 16)) - h).

(** [while (len--)]: also a negative [len] enters the loop. *)
Fixpoint hash_loop (str : bytes) (len : Z) (h : Z) : outcome Z :=
  if len =? 0 then Ok h
  else match str with
       | [] => Err OutOfBounds
       | c :: str => hash_loop str (len - 1) (hash_step h c)
       end.

Definition hash (str : bytes) (len : Z) : outcome Z :=
  h ← hash_loop str len 0;
  Ok (Z.land h 0x7FFFFFFF).

(** [while (t_src != tail) { if ( *t_src == token) { } }]: the body reads the
    character and changes nothing. *)
Fixpoint split_loop (fuel : nat) (a : bytes) (t_src tail : nat) (token : ascii) : outcome (list bytes) :=
  match fuel with
  | O => Timeout
  | S fuel =>
      if decide (t_src = tail) then Ok []
      else c ← get a t_src;
           if decide (c = token)
           then split_loop fuel a t_src tail token
           else split_loop fuel a t_src tail token
  end.
Definition split_string (fuel : nat) (a : bytes) (src tail : nat) (token : ascii) : outcome (list bytes) :=
  split_loop fuel a src tail token.

(** ** The reference: base-65599 value of the string *)

Definition sdbm (s : bytes) : Z := foldl (λ h c, 65599 * h + char_val c) 0 s.

(** ** Lemmas *)

Lemma hash_step_spec h c : hash_step h c = (65599 * h + char_val c) mod 2 ^ 32.
Proof.
  unfold hash_step, uint. rewrite !Z.shiftl_mul_pow2 by lia.
  rewrite Zminus_mod_idemp_l, Zplus_mod_idemp_l, Zplus_mod_idemp_r.
  rewrite Zminus_mod, Zplus_mod_idemp_l, Zplus_mod_idemp_r, <-Zminus_mod.
  f_equal. lia.
Qed.

Lemma hash_loop_spec str n h v :
  (n ≤ length str)%nat → h = v mod 2 ^ 32 →
  hash_loop str (Z.of_nat n) h
  = Ok (foldl (λ h c, 65599 * h + char_val c) v (take n str) mod 2 ^ 32).
Proof.
  revert n h v; induction str as [|c str IH]; intros [|n] h v Hn ->; simpl in *;
    [done|lia|done|].
  replace (Z.of_nat (S n) - 1) with (Z.of_nat n) by lia.
  apply IH; [lia|]. rewrite hash_step_spec.
  rewrite Zplus_mod, Zmult_mod_idemp_r, <-Zplus_mod. done.
Qed.

Lemma land_mod_31 z : Z.land (z mod 2 ^ 32) 0x7FFFFFFF = z mod 2 ^ 31.
Proof.
  change 0x7FFFFFFF with (Z.ones 31). rewrite Z.land_ones by lia.
  apply Z.mod_mod_divide. exists 2. reflexivity.
Qed.

Lemma hash_value str n :
  (n ≤ length str)%nat → hash str (Z.of_nat n) = Ok (sdbm (take n str) mod 2 ^ 31).
Proof.
  intros Hn. unfold hash. rewrite (hash_loop_spec _ _ _ 0); [|done..].
  rewrite bind_ok. by rewrite land_mod_31.
Qed.

Lemma hash_loop_oob str n h :
  (n < 0 ∨ Z.of_nat (length str) < n) → hash_loop str n h = Err OutOfBounds.
Proof.
  revert n h; induction str as [|c str IH]; intros n h Hn; simpl in *.
  - destruct (Z.eqb_spec n 0); [lia|done].
  - destruct (Z.eqb_spec n 0); [lia|]. apply IH. lia.
Qed.

Lemma hash_range str n v : hash str n = Ok v → 0 ≤ v < 2 ^ 31.
Proof.
  intros H. destruct (decide (n < 0 ∨ Z.of_nat (length str) < n)) as [Ho|Hi].
  - unfold hash in H. by rewrite hash_loop_oob in H.
  - replace n with (Z.of_nat (Z.to_nat n)) in H by lia.
    rewrite hash_value in H by lia. injection H as <-. apply Z.mod_pos_bound. lia.
Qed.

(** ** Properties *)

(** [utiltool::hash], with its shifts and 32-bit wrap-around, computes the
    base-65599 polynomial of the first [len] (signed) characters modulo 2^31,
    as the comment in the loop says, and faults exactly when [len] is not
    within the string. *)
Theorem hash_correct str len :
  hash str len =
    if decide (0 ≤ len ≤ Z.of_nat (length str))
    then Ok (sdbm (take (Z.to_nat len) str) mod 2 ^ 31)
    else Err OutOfBounds.
Proof.
  case_decide as H.
  - rewrite <-(hash_value str (Z.to_nat len)) by lia. by rewrite Z2Nat.id by lia.
  - unfold hash. by rewrite hash_loop_oob by lia.
Qed.

(** [split_string] never returns on a non-empty range: whatever the fuel,
    the loop is still running, because [t_src] is never advanced. *)
Theorem split_string_diverges fuel a src tail token :
  src ≠ tail → (src < length a)%nat →
  split_string fuel a src tail token = Timeout.
Proof.
  intros Hne Hlt. unfold split_string.
  destruct (lookup_lt_is_Some_2 a src Hlt) as [c Hc].
  induction fuel as [|fuel IH]; simpl; [done|].
  rewrite decide_False by done. rewrite (get_ok _ _ _ Hc), bind_ok.
  by case_decide.
Qed.

Lemma split_string_diverges_witness :
  split_string 100 (bs "a:b") 0 3 ":"%char = Timeout.
Proof. apply split_string_diverges; [lia|simpl; lia]. Defined.

Example hash_get : hash (bs "GET") 3 = Ok ((71 * 65599 + 69) * 65599 + 84 - 142 * 2 ^ 31).
Proof. vm_compute. reflexivity. Qed.
