(* ===== verification/Log.v ===== *)
(** * Logging: log.h, log.cpp ([LogUtil])

    [LogUtil::debug] formats its message with [vsnprintf] into a buffer that it
    grows, and copies the text to a buffer of 128 bytes; [write_log] writes it,
    or queues a record of 256 bytes that [log_from_queue] writes.  The formatted
    text is an argument.  Callers use [log_debug], which is what a call of
    [debug] means to them: nothing, or an overflow. *)

From stdpp Require Import pretty.
From S2P Require Import Prelude Sys.
Open Scope Z_scope.

Definition LOG_LEN : nat := 256.
Definition newline : ascii := "010"%char.

(** ** [LogUtil] *)

Inductive log_io :=
  | LogWrite (data : bytes)       (* write(output_fd, ...) *)
  | LogPush (content : bytes).    (* tq->push, the record's [log_content] *)

(** [memcpy(alc->log_content, log.c_str(), log.length())], or [write]. *)
Definition write_log (is_async : bool) (log : bytes) : outcome log_io :=
  if is_async then
    content ← memcpy (replicate LOG_LEN NUL) 0 (c_str log) 0 (Z.of_nat (length log));
    Ok (LogPush content)
  else Ok (LogWrite log).

(** [sprintf(buf, "DEBUG : %s\n", p)] into [char buf[128]], and [write_log]. *)
Definition emit (is_async : bool) (p : bytes) : outcome log_io :=
  s ← cstr p 0;
  let buf := bs "DEBUG : " ++ s ++ [newline] in
  if decide (length buf < 128)%nat then write_log is_async buf else Err OutOfBounds.

(** The [while (1)] of [debug]: [vsnprintf] returns the length of the text,
    whatever the size it is given; [None]: it fails. *)
Fixpoint debug_loop (fuel : nat) (is_async : bool) (size : Z) (m : option bytes) : outcome (option log_io) :=
  match fuel with
  | O => Timeout
  | S fuel =>
      match m with
      | None => Ok None
      | Some text =>
          let n := Z.of_nat (length text) in
          if n <? size then r ← emit is_async (c_str text); Ok (Some r)
          else size ← int_of (n + 1); debug_loop fuel is_async size m
      end
  end.
Definition debug (fuel : nat) (is_async : bool) (m : option bytes) : outcome (option log_io) :=
  debug_loop fuel is_async 100 m.

(** [LogUtil::debug(fmt, ...)] as a statement of its callers, for the formatted
    text [text]: what is logged does not matter to them. *)
Definition log_debug (text : bytes) : outcome () := _ ← debug 2 true (Some text); Ok ().

(** [%d] *)
Definition dec (z : Z) : bytes := bs (pretty z).

(** One round of [log_from_queue]. *)
Definition log_from_queue (content : bytes) : outcome log_io :=
  data ← memcpy (replicate LOG_LEN NUL) 0 content 0 (Z.of_nat LOG_LEN); Ok (LogWrite data).

(** [init]: [fd] and [ret] are the results of [open] and [pthread_create]. *)
Definition init (is_async : bool) (fd ret : Z) : Z :=
  if fd =? -1 then -1 else if is_async then (if ret =? 0 then 1 else 0) else 0.

(** The same with its calls, for the process [pid]; [log_output] is
    "./log/server". *)
Definition LogUtil_init (pid : Z) (is_async : bool) : sys_prog Z :=
  let out := bs "./log/server" ++ bs "_" ++ dec pid ++ bs ".log" in
  sys_lift (if decide (length out < 128)%nat then Ok () else Err OutOfBounds);;
  output_fd ← sys (Open_ out);
  if output_fd =? -1 then mret (-1)
  else if is_async then ret ← sys PthreadCreate; mret (if ret =? 0 then 1 else 0)
  else mret 0.

(** ** Lemmas *)

Lemma emit_short is_async m :
  no_nul m → (length m ≤ 118)%nat → emit is_async (c_str m) = write_log is_async (bs "DEBUG : " ++ m ++ [newline]).
Proof.
  intros Hm Hl. unfold emit, cstr, c_str. rewrite drop_0, to_nul_app, bind_ok by done.
  rewrite decide_True; [done|]. rewrite !length_app. change (length (bs "DEBUG : ")) with 8%nat. simpl. lia.
Qed.

Lemma emit_long is_async m : no_nul m → (119 ≤ length m)%nat → emit is_async (c_str m) = Err OutOfBounds.
Proof.
  intros Hm Hl. unfold emit, cstr, c_str. rewrite drop_0, to_nul_app, bind_ok by done.
  rewrite decide_False; [done|]. rewrite !length_app. change (length (bs "DEBUG : ")) with 8%nat. simpl. lia.
Qed.

(** Two rounds are enough. *)
Lemma debug_rounds fuel is_async m :
  (2 ≤ fuel)%nat → Z.of_nat (length m) < int_max →
  debug fuel is_async (Some m) = r ← emit is_async (c_str m); Ok (Some r).
Proof.
  intros Hf Hm. unfold int_max in Hm. destruct fuel as [|[|fuel]]; [lia..|]. unfold debug. cbn [debug_loop].
  destruct (Z.ltb_spec (Z.of_nat (length m)) 100); [done|].
  rewrite int_of_small, bind_ok by lia.
  destruct (Z.ltb_spec (Z.of_nat (length m)) (Z.of_nat (length m) + 1)); [done|lia].
Qed.

(** The text has 118 bytes of room, whatever [is_async]. *)
Lemma log_debug_short text : no_nul text → (length text ≤ 118)%nat → log_debug text = Ok ().
Proof.
  intros Hn Hl. unfold log_debug. rewrite debug_rounds by (unfold int_max; lia).
  rewrite emit_short by done. unfold write_log. rewrite memcpy_ok; [done| |].
  - rewrite length_replicate, !length_app. unfold LOG_LEN. change (length (bs "DEBUG : ")) with 8%nat. simpl. lia.
  - unfold c_str. rewrite (length_app _ [NUL]). lia.
Qed.

Lemma log_debug_long text :
  no_nul text → (119 ≤ length text)%nat → Z.of_nat (length text) < int_max → log_debug text = Err OutOfBounds.
Proof. intros Hn Hl Hm. unfold log_debug. rewrite debug_rounds by (done || lia). by rewrite emit_long. Qed.

Lemma log_debug_async b text :
  Z.of_nat (length text) < int_max → (_ ← debug 2 b (Some text); Ok ()) = log_debug text.
Proof.
  intros Hm. unfold log_debug. rewrite !debug_rounds by (done || lia). unfold emit.
  destruct (cstr (c_str text) 0) as [s| |]; [|done..]. rewrite !bind_ok. case_decide as Hd; [|done].
  destruct b; [done|]. unfold write_log. rewrite memcpy_ok; [done| |].
  - rewrite length_replicate. unfold LOG_LEN. lia.
  - unfold c_str. rewrite (length_app _ [NUL]). lia.
Qed.

(** The lengths of an element in decimal. *)
Lemma dec_small z : 0 ≤ z ≤ 999 → no_nul (dec z) ∧ (1 ≤ length (dec z) ≤ 3)%nat.
Proof.
  intros Hz. assert (forallb (λ n, negb (bool_decide (NUL ∈ dec (Z.of_nat n))) && (1 <=? length (dec (Z.of_nat n)))%nat
    && (length (dec (Z.of_nat n)) <=? 3)%nat) (seq 0 1000) = true) as H by (vm_compute; done).
  rewrite forallb_forall in H. specialize (H (Z.to_nat z)). rewrite in_seq in H.
  specialize (H ltac:(lia)). rewrite Z2Nat.id in H by lia.
  apply andb_prop in H as [[H H1]%andb_prop H2]. apply Nat.leb_le in H1, H2.
  split; [|lia]. apply no_nul_dec. by apply negb_true_iff in H.
Qed.

(** A log line that fits, in a program of system calls. *)
Lemma sys_log {B} text (k : () → sys_prog B) rs :
  no_nul text → (length text ≤ 118)%nat → (sys_lift (log_debug text) ≫= k) rs = k () rs.
Proof.
  intros Hn Hl. unfold sys_lift, mbind, sys_bind. rewrite log_debug_short by done. cbn. by destruct (k () rs).
Qed.

(** An [int] has at most ten digits. *)
Lemma dec_length z : 0 ≤ z < 2 ^ 31 → (length (dec z) ≤ 10)%nat.
Proof.
  intros Hz.
  assert (∀ k x s, (x < 10 ^ N.of_nat k)%N → (String.length (pretty_N_go x s) ≤ k + String.length s)%nat) as Hgo.
  { induction k as [|k IH]; intros x s Hx.
    - assert (x = 0%N) as -> by (simpl in Hx; lia). done.
    - destruct (decide (0 < x)%N) as [Hp|Hp]; [|assert (x = 0%N) as -> by lia; rewrite pretty_N_go_0; lia].
      rewrite pretty_N_go_step by done. etrans; [apply IH|simpl; lia].
      apply N.Div0.div_lt_upper_bound. rewrite <-N.pow_succ_r'. by replace (N.succ (N.of_nat k)) with (N.of_nat (S k)) by lia. }
  assert (∀ s : string, length (bs s) = String.length s) as Hlen by (intros s; induction s; cbn; auto).
  unfold dec. rewrite Hlen. destruct z as [|q|q]; [cbn; lia| |lia]. change (pretty (Zpos q)) with (pretty (Npos q)).
  unfold pretty, pretty_N. case_decide; [cbn; lia|]. apply (Hgo 10%nat). change (10 ^ N.of_nat 10)%N with 10000000000%N. lia.
Qed.

(** ** Properties *)

(** Logging. Two rounds of the loop are enough for every text; a text of at
    most 118 bytes is written as one line, or queued as a record of 256 bytes
    that [log_from_queue] writes with all its padding; a longer text overflows
    the buffer of 128 bytes, although the loop has made room for it before. *)
Theorem debug_output fuel is_async m :
  (2 ≤ fuel)%nat → no_nul m → Z.of_nat (length m) < int_max →
  let line := bs "DEBUG : " ++ m ++ [newline] in
  let record := line ++ replicate (LOG_LEN - length line) NUL in
  debug fuel is_async (Some m)
  = (if decide (length m ≤ 118)%nat then Ok (Some (if is_async then LogPush record else LogWrite line))
     else Err OutOfBounds)
  ∧ ((length m ≤ 118)%nat → log_from_queue record = Ok (LogWrite record)).
Proof.
  intros Hf Hm Hl line record. rewrite debug_rounds by done.
  assert ((length m ≤ 118)%nat → (length line ≤ 127)%nat) as Hll.
  { unfold line. rewrite !length_app. change (length (bs "DEBUG : ")) with 8%nat. simpl. lia. }
  split.
  - case_decide as Hs; [|by rewrite emit_long by (done || lia)].
    rewrite emit_short by done. fold line. specialize (Hll Hs). unfold write_log. destruct is_async; [|done].
    rewrite memcpy_ok, bind_ok, bind_ok; [|rewrite length_replicate; unfold LOG_LEN; lia|unfold c_str; rewrite length_app; lia].
    do 3 f_equal. unfold record, c_str. rewrite take_0, drop_0, take_app_length, drop_replicate. done.
  - intros Hs. specialize (Hll Hs). unfold log_from_queue.
    assert (length record = LOG_LEN) as Hlr by (unfold record; rewrite length_app, length_replicate; unfold LOG_LEN in *; lia).
    rewrite memcpy_ok, bind_ok by (rewrite ?length_replicate; lia).
    rewrite take_0, drop_0, take_ge by lia. rewrite drop_ge by (by rewrite length_replicate). by rewrite app_nil_r.
Qed.

(** ** Witnesses *)

Lemma debug_output_witness :
  debug 2 true (Some (bs "hello"))
  = Ok (Some (LogPush (bs "DEBUG : hello" ++ newline :: replicate 242 NUL)))
  ∧ debug 2 true (Some (replicate 119 "x"%char)) = Err OutOfBounds.
Proof.
  split.
  - destruct (debug_output 2 true (bs "hello")) as [H _];
      [lia|no_nul|vm_compute; reflexivity|]. exact H.
  - destruct (debug_output 2 true (replicate 119 "x"%char)) as [H _];
      [lia|no_nul|vm_compute; reflexivity|]. exact H.
Defined.
