(* ===== verification/Config.v ===== *)
(** * The configuration file: config.h, config.cpp

    The parser of the configuration file stands behind a [return] at the start
    of the constructor, so that it is never run.  It reads the file line by line
    with [fgets], fuel being the number of its bytes. *)

From S2P Require Import Prelude.
Open Scope Z_scope.

Definition newline : ascii := "010"%char.

(** ** Operations *)

(** [fgets(buf, 256, fp)]: up to 255 bytes, to the end of the line. *)
Fixpoint fgets_from (n : nat) (s : bytes) : bytes * bytes :=
  match n, s with
  | S n, c :: s => if decide (c = newline) then ([c], s)
                   else let '(l, r) := fgets_from n s in (c :: l, r)
  | _, _ => ([], s)
  end.
Definition fgets (s : bytes) : option (bytes * bytes) :=
  match s with [] => None | _ => Some (fgets_from 255 s) end.

Fixpoint strchr (c : ascii) (s : bytes) : option (bytes * bytes) :=
  match s with
  | [] => None
  | d :: s => if decide (d = c) then Some ([], s)
              else match strchr c s with Some (a, b) => Some (d :: a, b) | None => None end
  end.

(** The class: its constructor with arguments, and its getters.  The one without
    makes another object, and leaves two empty strings. *)
Record stage_config := stage_config_of { getResource : bytes; getDestination : bytes }.
Definition stage_config_default : stage_config := stage_config_of [] [].

Record parser := Parser { res : bytes; des : bytes; configs : list stage_config }.

(** config.cpp:46-66, one line of the file. *)
Definition parse_line (line : bytes) (p : parser) : outcome parser :=
  let buf := line ++ replicate (256 - length line) NUL in
  c ← get buf 0;
  if decide (c = NUL ∨ c = "#"%char) then Ok p
  else
    s ← cstr buf 0;
    match strchr "=" s with
    | None => Err NullDeref
    | Some (key, value) =>
        buf ← put buf (length key) NUL;
        is_res ← memcmp_eq buf 0 (bs "resource");
        is_des ← memcmp_eq buf 0 (bs "destination");
        if negb is_res && negb is_des then Err Aborted
        else
          let p := if is_res : bool then Parser value (des p) (configs p) else Parser (res p) value (configs p) in
          Ok (match res p, des p with
              | _ :: _, _ :: _ => Parser [] [] (configs p ++ [stage_config_of (res p) (des p)])
              | _, _ => p
              end)
    end.

Fixpoint parse_file (fuel : nat) (file : bytes) (p : parser) : outcome (list stage_config) :=
  match fgets file with
  | None => match res p, des p with [], [] => Ok (configs p) | _, _ => Err Aborted end
  | Some (line, file) =>
      match fuel with
      | O => Timeout
      | S fuel => p ← parse_line line p; parse_file fuel file p
      end
  end.

(** The constructor returns before its parser, which fills a local vector of
    the member's name. *)
Definition Config (config_file : bytes) : list stage_config := [].
Definition getConfigs (config : list stage_config) : list stage_config := config.
Definition dead_parser (config_file : bytes) : outcome (list stage_config) :=
  parse_file (length config_file) config_file (Parser [] [] []).

(** ** Lemmas *)

(** The lines of one stage. *)
Definition stage_lines (c : stage_config) : bytes :=
  bs "resource=" ++ getResource c ++ newline :: bs "destination=" ++ getDestination c ++ [newline].
Definition config_ok (c : stage_config) : Prop :=
  no_nul (getResource c) ∧ no_nul (getDestination c) ∧ (newline ∉ getResource c) ∧ (newline ∉ getDestination c)
  ∧ (length (getResource c) ≤ 200)%nat ∧ (length (getDestination c) ≤ 200)%nat.

Lemma fgets_line n l rest :
  (newline ∉ l) → (length l < n)%nat → fgets_from n (l ++ newline :: rest) = (l ++ [newline], rest).
Proof.
  revert n; induction l as [|c l IH]; intros [|n] Hl Hn; simpl in *; try lia.
  - done.
  - apply not_elem_of_cons in Hl as [Hc Hl]. rewrite decide_False by congruence.
    by rewrite IH by (done || lia).
Qed.

Lemma strchr_at c k v : (c ∉ k) → strchr c (k ++ c :: v) = Some (k, v).
Proof.
  induction k as [|d k IH]; intros Hk; simpl; [by rewrite decide_True|].
  apply not_elem_of_cons in Hk as [Hd Hk]. rewrite decide_False by congruence. by rewrite IH.
Qed.

Lemma memcmp_is_ok a lit : (length lit ≤ length a)%nat → memcmp_eq a 0 lit = Ok (bool_decide (take (length lit) a = lit)).
Proof. intros H. unfold memcmp_eq. by rewrite decide_True by lia. Qed.

(** A line [key=value] of at most 254 characters. *)
Lemma parse_key key v p :
  key ≠ [] → head key ≠ Some "#"%char → no_nul key → ("="%char ∉ key) → no_nul v → (length key + length v ≤ 240)%nat →
  let buf := key ++ NUL :: v ++ newline :: replicate (256 - length (key ++ "="%char :: v ++ [newline])) NUL in
  parse_line (key ++ "="%char :: v ++ [newline]) p
  = let is_res := bool_decide (take 8 buf = bs "resource") in
    let is_des := bool_decide (take 11 buf = bs "destination") in
    if negb is_res && negb is_des then Err Aborted
    else
      let value := v ++ [newline] in
      let p := if is_res : bool then Parser value (des p) (configs p) else Parser (res p) value (configs p) in
      Ok (match res p, des p with
          | _ :: _, _ :: _ => Parser [] [] (configs p ++ [stage_config_of (res p) (des p)])
          | _, _ => p
          end).
Proof.
  intros Hk Hh Hnk Heq Hnv Hl buf. unfold parse_line.
  set (line := key ++ "="%char :: v ++ [newline]) in *.
  set (pad := replicate (256 - length line) NUL) in *.
  assert (length line = length key + length v + 2)%nat as Hll
    by (unfold line; rewrite length_app; cbn; rewrite length_app; cbn; lia).
  assert (∃ q, pad = NUL :: q) as [q Hq].
  { unfold pad. destruct (256 - length line)%nat eqn:E; [lia|]. by eexists. }
  assert (no_nul line) as Hnl.
  { unfold line, no_nul in *. rewrite elem_of_app, elem_of_cons, elem_of_app, list_elem_of_singleton.
    intros [?|[?|[?|?]]]; done. }
  assert (∃ c key', key = c :: key' ∧ c ≠ NUL ∧ c ≠ "#"%char) as (c & key' & Hck & Hc0 & Hch).
  { destruct key as [|c key']; [done|]. exists c, key'. split; [done|]. split.
    - intros ->. apply Hnk. by apply elem_of_cons; left.
    - intros ->. done. }
  rewrite (get_ok _ 0 c), bind_ok by (unfold line; by rewrite Hck). rewrite decide_False by (intros [?|?]; done).
  assert (cstr (line ++ pad) 0 = Ok line) as ->
    by (unfold cstr; rewrite drop_0, Hq; by rewrite to_nul_app).
  rewrite bind_ok. unfold line at 1. rewrite strchr_at by done.
  assert (<[length key := NUL]> (line ++ pad) = buf) as Hput.
  { unfold line, buf. rewrite <-!app_assoc. cbn. rewrite <-app_assoc.
    rewrite insert_app_r_alt by lia. by rewrite Nat.sub_diag. }
  assert (length buf = 256)%nat as Hlb.
  { rewrite <-Hput, length_insert, length_app. unfold pad. rewrite length_replicate. lia. }
  rewrite put_ok, bind_ok, Hput by (rewrite length_app; lia).
  rewrite !memcmp_is_ok by (rewrite Hlb; simpl; lia).
  done.
Qed.

Lemma parse_stage c p file :
  config_ok c → res p = [] → des p = [] →
  ∃ l1 l2, fgets (stage_lines c ++ file) = Some (l1, l2 ++ file) ∧ fgets (l2 ++ file) = Some (l2, file)
    ∧ (p' ← parse_line l1 p; parse_line l2 p')
      = Ok (Parser [] [] (configs p ++ [stage_config_of (getResource c ++ [newline]) (getDestination c ++ [newline])])).
Proof.
  intros (H1 & H2 & H3 & H4 & H5 & H6) Hr Hd. destruct c as [r d]. cbn [getResource getDestination] in *.
  exists (bs "resource=" ++ r ++ [newline]), (bs "destination=" ++ d ++ [newline]).
  assert (∀ k v t, (newline ∉ k) → (newline ∉ v) → (length k + length v ≤ 240)%nat → k ≠ [] →
    fgets ((k ++ v ++ [newline]) ++ t) = Some (k ++ v ++ [newline], t)) as Hf.
  { intros k v t Hk Hv Hl Hne. unfold fgets. destruct ((k ++ v ++ [newline]) ++ t) as [|x xs] eqn:E.
    - by destruct k.
    - rewrite <-E. replace ((k ++ v ++ [newline]) ++ t) with ((k ++ v) ++ newline :: t)
        by (by rewrite <-!app_assoc).
      rewrite fgets_line; [by rewrite <-app_assoc| |rewrite length_app; lia].
      intros [?|?]%elem_of_app; done. }
  split_and!.
  - assert (stage_lines (stage_config_of r d) ++ file
            = (bs "resource=" ++ r ++ [newline]) ++ ((bs "destination=" ++ d ++ [newline]) ++ file)) as ->.
    { unfold stage_lines. cbn [getResource getDestination]. rewrite <-!app_assoc. cbn [app]. by rewrite <-!app_assoc. }
    apply (Hf (bs "resource=") r); [vm_compute; set_solver|done|simpl; lia|done].
  - apply (Hf (bs "destination=") d); [vm_compute; set_solver|done|simpl; lia|done].
  - change (bs "resource=" ++ r ++ [newline]) with (bs "resource" ++ "="%char :: r ++ [newline]).
    change (bs "destination=" ++ d ++ [newline]) with (bs "destination" ++ "="%char :: d ++ [newline]).
    rewrite parse_key;
      [|done|done|no_nul|vm_compute; set_solver|done|simpl; lia].
    cbv zeta. rewrite bool_decide_eq_true_2 by done. cbn [negb andb].
    destruct p as [pr pd pc]. cbn in Hr, Hd. subst pr pd. cbn [res des configs].
    assert (∃ x xs, r ++ [newline] = x :: xs) as (x & xs & Hx) by (destruct r; eauto).
    assert (∃ y ys, d ++ [newline] = y :: ys) as (y & ys & Hy) by (destruct d; eauto).
    rewrite Hx, bind_ok. rewrite parse_key;
      [|done|done|no_nul|vm_compute; set_solver|done|simpl; lia].
    cbv zeta. rewrite (bool_decide_eq_false_2 (take 8 _ = _)) by done.
    rewrite bool_decide_eq_true_2 by done. cbn [negb andb res des configs]. by rewrite Hy.
Qed.

Definition with_newline (c : stage_config) : stage_config :=
  stage_config_of (getResource c ++ [newline]) (getDestination c ++ [newline]).

Lemma parse_stages cs : ∀ fuel acc,
  Forall config_ok cs → (2 * length cs ≤ fuel)%nat →
  parse_file fuel (concat (stage_lines <$> cs)) (Parser [] [] acc) = Ok (acc ++ (with_newline <$> cs)).
Proof.
  induction cs as [|c cs IH]; intros fuel acc Hok Hf.
  { simpl. rewrite app_nil_r. by destruct fuel. }
  apply Forall_cons in Hok as [Hc Hok]. cbn [length] in Hf. destruct fuel as [|[|fuel]]; [lia..|].
  destruct (parse_stage c (Parser [] [] acc) (concat (stage_lines <$> cs)) Hc eq_refl eq_refl)
    as (l1 & l2 & H1 & H2 & H3).
  apply bind_ok_inv in H3 as (p' & Hp1 & Hp2).
  cbn [fmap list_fmap concat parse_file]. rewrite H1, Hp1, bind_ok. cbn [parse_file]. rewrite H2, Hp2, bind_ok.
  cbn [configs]. rewrite IH by (done || lia). by rewrite <-app_assoc.
Qed.

Lemma stage_lines_length c : (2 ≤ length (stage_lines c))%nat.
Proof. unfold stage_lines. rewrite length_app. change (length (bs "resource=")) with 9%nat. lia. Qed.

Lemma stages_length cs : (2 * length cs ≤ length (concat (stage_lines <$> cs)))%nat.
Proof.
  induction cs as [|c cs IH]; [simpl; lia|]. rewrite fmap_cons. cbn [concat length]. rewrite length_app.
  pose proof (stage_lines_length c). lia.
Qed.

(** The file config/stage_config.ini of the repository. *)
Definition shipped_config : bytes :=
  bs "# stage 1" ++ newline :: bs "resource=tcp://localhost:5667" ++ newline
  :: bs "destination=tcp://localhost:5668" ++ newline :: newline
  :: bs "# stage 2" ++ newline :: bs "resource=tcp://localhost:5668" ++ newline
  :: bs "destination=null" ++ newline :: newline
  :: bs "# stage 3" ++ newline :: bs "resource=tcp://localhost:5668" ++ newline
  :: bs "destination=null" ++ newline :: [newline].

(** The configuration. The constructor reads nothing. The parser behind its
    [return] would read a file of resource and destination lines, each value
    with the end of its line; but on the file of the repository it dereferences
    NULL at the first empty line, which it does not take for empty. *)
Theorem config_parser cs :
  Forall config_ok cs →
  (∀ file, getConfigs (Config file) = [])
  ∧ dead_parser (concat (stage_lines <$> cs)) = Ok (with_newline <$> cs)
  ∧ dead_parser shipped_config = Err NullDeref.
Proof.
  intros Hok. split_and!; [done| |vm_compute; done].
  unfold dead_parser. rewrite parse_stages; [done|done|apply stages_length].
Qed.

(** ** Witnesses *)

Lemma config_parser_witness :
  let cs := [stage_config_of (bs "tcp://localhost:5666") (bs "tcp://*:5667")] in
  (∀ file, getConfigs (Config file) = [])
  ∧ dead_parser (concat (stage_lines <$> cs)) = Ok (with_newline <$> cs)
  ∧ dead_parser shipped_config = Err NullDeref.
Proof.
  apply (config_parser [stage_config_of (bs "tcp://localhost:5666") (bs "tcp://*:5667")]). constructor; [|constructor].
  split_and!; [no_nul|no_nul
              |vm_compute; set_solver|vm_compute; set_solver|vm_compute; lia|vm_compute; lia].
Defined.
