(* ===== verification/Heap.v ===== *)
(** * Heaps of C structs: a small monad with total-correctness rules

    The pointer code of splaytree.c runs in [HM V]: a state monad over a
    finite map from locations to structs, with faults.  [owns h L F] splits a
    heap into the structs [L] a function works on and the rest [F], which the
    function must leave as it is; [hwp] is total correctness against such a
    split, and the rules below are its proof rules.  The list [L] counts up to
    permutation ([hwp] is [Proper] for it). *)

From S2P Require Import Prelude.

Abbreviation loc := positive.
(** A pointer: [None] is NULL. *)
Abbreviation ptr := (option positive).

Definition HM (V A : Type) : Type := gmap loc V → outcome (A * gmap loc V).

#[export] Instance hm_ret V : MRet (HM V) := λ A a h, Ok (a, h).
#[export] Instance hm_bind V : MBind (HM V) := λ A B k m h,
  '(a, h) ← m h; k a h.

Section ops.
Context {V : Type}.

Definition lift {A} (m : outcome A) : HM V A := λ h, a ← m; Ok (a, h).

Definition load (p : ptr) : HM V V := λ h,
  match p with
  | None => Err NullDeref
  | Some l => match h !! l with Some v => Ok (v, h) | None => Err UseAfterFree end
  end.

Definition store (p : ptr) (v : V) : HM V () := λ h,
  match p with
  | None => Err NullDeref
  | Some l => match h !! l with
              | Some _ => Ok ((), <[l := v]> h)
              | None => Err UseAfterFree
              end
  end.

(** A fresh struct: [malloc], or the frame of a local variable whose address
    is taken. *)
Definition alloc (v : V) : HM V ptr := λ h,
  let l := fresh (dom h) in Ok (Some l, <[l := v]> h).

Definition free (p : ptr) : HM V () := λ h,
  match p with
  | None => Ok ((), h)
  | Some l => match h !! l with
              | Some _ => Ok ((), delete l h)
              | None => Err UseAfterFree
              end
  end.
(** Running a program step by step. *)
Lemma hm_bind_ok {A B} (m : HM V A) (k : A → HM V B) h a h' : m h = Ok (a, h') → (m ≫= k) h = k a h'.
Proof. intros H. unfold mbind, hm_bind. by rewrite H. Qed.
Lemma lift_ok {A} (m : outcome A) a h : m = Ok a → lift m h = Ok (a, h).
Proof. by intros ->. Qed.
Lemma load_ok l v h : h !! l = Some v → load (Some l) h = Ok (v, h).
Proof. intros H. unfold load. by rewrite H. Qed.
End ops.

Section logic.
Context {V : Type}.
Implicit Types (L : list (loc * V)) (F h : gmap loc V).

(** [h] consists of the structs [L], at distinct locations, and of [F]. *)
Definition owns h L F : Prop :=
  NoDup L.*1 ∧ (∀ p, p ∈ L.*1 → F !! p = None) ∧ h = list_to_map L ∪ F.

Definition hwp {A} (m : HM V A) L F (Q : A → list (loc * V) → Prop) : Prop :=
  ∀ h, owns h L F → ∃ a h' L', m h = Ok (a, h') ∧ owns h' L' F ∧ Q a L'.

#[global] Instance owns_proper h : Proper ((≡ₚ) ==> (=) ==> iff) (owns h).
Proof.
  assert (∀ L1 L2 F, L1 ≡ₚ L2 → owns h L1 F → owns h L2 F) as Hm.
  { intros L1 L2 F HL (Hn & HF & ->). split_and!.
    - by rewrite <-HL.
    - intros p. rewrite <-HL. apply HF.
    - f_equal. by apply list_to_map_proper. }
  intros L1 L2 HL F1 F2 <-. split; apply Hm; [done|by symmetry].
Qed.

Lemma owns_lookup h L F p v : owns h L F → (p, v) ∈ L → h !! p = Some v.
Proof.
  intros (Hn & _ & ->) Hin. apply lookup_union_Some_l.
  by apply elem_of_list_to_map_1.
Qed.

Lemma owns_frame h L F p : owns h L F → p ∉ L.*1 → h !! p = F !! p.
Proof.
  intros (_ & _ & ->) Hp. apply lookup_union_r.
  by apply not_elem_of_list_to_map_1.
Qed.

Lemma owns_store h p v w L F :
  owns h ((p, v) :: L) F → owns (<[p := w]> h) ((p, w) :: L) F.
Proof.
  intros (Hn & HF & ->). split_and!; [done..|]. simpl.
  by rewrite <-!insert_union_l, insert_insert_eq.
Qed.

Lemma owns_alloc h p v L F :
  h !! p = None → owns h L F → owns (<[p := v]> h) ((p, v) :: L) F.
Proof.
  intros Hp (Hn & HF & ->). apply lookup_union_None in Hp as [HpL HpF]. split_and!; simpl.
  - constructor; [|done]. by apply not_elem_of_list_to_map_2.
  - intros q Hq. apply elem_of_cons in Hq as [->|Hq]; auto.
  - by rewrite insert_union_l.
Qed.

Lemma owns_free h p v L F :
  owns h ((p, v) :: L) F → owns (delete p h) L F.
Proof.
  intros (Hn & HF & ->). apply NoDup_cons in Hn as [Hp Hn]. split_and!; [done| |].
  - intros q Hq. apply HF. by apply elem_of_cons; right.
  - simpl. rewrite <-insert_union_l. rewrite delete_insert_id; [done|].
    apply lookup_union_None. split; [by apply not_elem_of_list_to_map_1|].
    apply HF. set_solver.
Qed.

Lemma hwp_perm {A} (m : HM V A) L1 L2 F Q :
  L1 ≡ₚ L2 → hwp m L2 F Q → hwp m L1 F Q.
Proof. intros HL Hm h Hh. apply Hm. by rewrite <-HL. Qed.

Lemma hwp_mono {A} (m : HM V A) L F (Q Q' : A → list (loc * V) → Prop) :
  (∀ a L', Q a L' → Q' a L') → hwp m L F Q → hwp m L F Q'.
Proof. intros HQ Hm h Hh. destruct (Hm h Hh) as (a & h' & L' & ? & ? & ?). eauto 10. Qed.

Lemma hwp_ret {A} (a : A) L F (Q : A → list (loc * V) → Prop) :
  Q a L → hwp (mret a) L F Q.
Proof. intros HQ h Hh. exists a, h, L. done. Qed.

Lemma hwp_bind {A B} (m : HM V A) (k : A → HM V B) L F Q :
  hwp m L F (λ a L', hwp (k a) L' F Q) → hwp (m ≫= k) L F Q.
Proof.
  intros Hm h Hh. destruct (Hm h Hh) as (a & h' & L' & E & Hh' & Hk).
  destruct (Hk h' Hh') as (b & h'' & L'' & E' & Hh'' & HQ).
  exists b, h'', L''. split; [|done]. cbv [mbind hm_bind]. by rewrite E.
Qed.

Lemma hwp_lift {A} (m : outcome A) a L F (Q : A → list (loc * V) → Prop) :
  m = Ok a → Q a L → hwp (lift m) L F Q.
Proof. intros -> HQ h Hh. by exists a, h, L. Qed.

Lemma hwp_load p v L F (Q : V → list (loc * V) → Prop) :
  (p, v) ∈ L → Q v L → hwp (load (Some p)) L F Q.
Proof.
  intros Hp HQ h Hh. exists v, h, L. split; [|done].
  unfold load. by rewrite (owns_lookup _ _ _ _ _ Hh Hp).
Qed.

Lemma hwp_store p v w L L' F (Q : () → list (loc * V) → Prop) :
  L ≡ₚ (p, v) :: L' → Q () ((p, w) :: L') → hwp (store (Some p) w) L F Q.
Proof.
  intros HL HQ h Hh. rewrite HL in Hh. exists (), (<[p := w]> h), ((p, w) :: L').
  split_and!; [|by eapply owns_store|done].
  unfold store. by rewrite (owns_lookup _ _ _ _ v Hh) by set_solver.
Qed.

Lemma hwp_alloc v L F (Q : ptr → list (loc * V) → Prop) :
  (∀ p, p ∉ L.*1 → Q (Some p) ((p, v) :: L)) → hwp (alloc v) L F Q.
Proof.
  intros HQ h Hh. pose proof (is_fresh (dom h)) as Hf. apply not_elem_of_dom in Hf.
  pose proof (owns_alloc _ _ v _ _ Hf Hh) as Ho.
  eexists _, _, _. split; [done|]. split; [done|]. apply HQ.
  destruct Ho as [Hn _]. by apply NoDup_cons in Hn as [? _].
Qed.

Lemma hwp_free p v L L' F (Q : () → list (loc * V) → Prop) :
  L ≡ₚ (p, v) :: L' → Q () L' → hwp (free (Some p)) L F Q.
Proof.
  intros HL HQ h Hh. rewrite HL in Hh. exists (), (delete p h), L'.
  split_and!; [|by eapply owns_free|done].
  unfold free. by rewrite (owns_lookup _ _ _ _ v Hh) by set_solver.
Qed.

(** The frame rule: structs of the own part that a call does not touch. *)
Lemma owns_split h L R F :
  owns h (L ++ R) F ↔
  owns h L (list_to_map R ∪ F) ∧ NoDup R.*1 ∧ (∀ p, p ∈ R.*1 → F !! p = None).
Proof.
  unfold owns. rewrite fmap_app, list_to_map_app. setoid_rewrite elem_of_app. split.
  - intros (Hn & HF & ->). apply NoDup_app in Hn as (HnL & Hd & HnR). split_and!; auto.
    + intros p Hp. apply lookup_union_None. split; [|auto].
      apply not_elem_of_list_to_map_1. auto.
    + by rewrite assoc_L by apply _.
  - intros ((HnL & HF & ->) & HnR & HFR). split_and!.
    + apply NoDup_app. split_and!; [done| |done]. intros p Hp.
      apply HF, lookup_union_None in Hp as [Hp _]. by apply not_elem_of_list_to_map_2.
    + intros p [Hp|Hp]; [|auto]. by apply HF, lookup_union_None in Hp as [_ ?].
    + by rewrite assoc_L by apply _.
Qed.

Lemma hwp_frame {A} (m : HM V A) L R F (Q : A → list (loc * V) → Prop) :
  hwp m L (list_to_map R ∪ F) (λ a L', Q a (L' ++ R)) → hwp m (L ++ R) F Q.
Proof.
  intros Hm h Hh. apply owns_split in Hh as (Hh & HR). apply Hm in Hh as (a & h' & L' & E & Hh' & HQ).
  exists a, h', (L' ++ R). split_and!; [done| |done]. apply owns_split. split; done.
Qed.
End logic.

Create HintDb heap.
#[export] Hint Resolve hwp_ret : heap.

(** ** Proof automation *)

(** [remove_entry p L k] calls [k v R] where [L ≡ₚ (p, v) :: R]. *)
Ltac remove_entry p L k :=
  lazymatch L with
  | (p, ?v) :: ?R => k v R
  | ?x :: ?R => remove_entry p R ltac:(fun v R' => k v (x :: R'))
  | ?L1 ++ ?L2 =>
      first [ remove_entry p L1 ltac:(fun v R => k v (R ++ L2))
            | remove_entry p L2 ltac:(fun v R => k v (L1 ++ R)) ]
  end.

Ltac in_entries :=
  repeat first [ apply list_elem_of_here | apply list_elem_of_further
               | apply elem_of_app; left; solve [in_entries]
               | apply elem_of_app; right; solve [in_entries] ].

(** One step of symbolic execution. *)
Ltac hwp_step :=
  lazymatch goal with
  | |- hwp (mret _) _ _ _ => apply hwp_ret
  | |- hwp (_ ≫= _) _ _ _ => apply hwp_bind
  | |- hwp (load (Some ?p)) ?L _ _ =>
      remove_entry p L ltac:(fun v R =>
        apply (hwp_load p v); [in_entries|])
  | |- hwp (store (Some ?p) _) ?L _ _ =>
      remove_entry p L ltac:(fun v R =>
        apply (hwp_store p v _ _ R); [solve_Permutation|])
  | |- hwp (free (Some ?p)) ?L _ _ =>
      remove_entry p L ltac:(fun v R =>
        apply (hwp_free p v _ R); [solve_Permutation|])
  end; cbn beta.
