(* ===== verification/SplayTree.v ===== *)
(** * Top-down splaying on pure trees

    The functional algorithm that splaytree.c implements with pointers: the
    tree under the loop is split into the frames linked to the left tree and
    to the right tree ([splay_down]), then put together again ([splay]).
    SplayRefine.v proves that the C code computes exactly these functions; here
    are the facts about them: the in-order sequence is preserved, the key is
    brought to the root, and insertion and deletion act on the sorted sequence
    of entries. *)

From Stdlib Require Import Sorted.
From S2P Require Import Prelude Heap.

Local Open Scope Z_scope.

(** ** Data *)

(** What a node keeps while the tree around it changes: its address, its key
    and its data pointer. *)
Record entry := Entry { e_loc : loc; e_key : Z; e_data : Z }.
#[export] Instance entry_eq_dec : EqDecision entry.
Proof. solve_decision. Defined.

Inductive tree :=
  | Leaf
  | Node (l : tree) (e : entry) (r : tree).

Fixpoint tsize (t : tree) : Z :=
  match t with Leaf => 0 | Node l _ r => tsize l + tsize r + 1 end.

Fixpoint elems (t : tree) : list entry :=
  match t with Leaf => [] | Node l e r => elems l ++ e :: elems r end.

Definition root (t : tree) : ptr :=
  match t with Leaf => None | Node _ e _ => Some (e_loc e) end.

(** In key order, without duplicates. *)
Definition sorted (es : list entry) : Prop := StronglySorted (λ a b, e_key a < e_key b) es.

(** A node linked to the left or the right tree: its finished subtree, the
    node, and what its size field holds before the correction loops. *)
Record frame := Frame { f_sub : tree; f_e : entry; f_size : Z }.

(** ** The algorithm *)

(** One descent: left frames, current tree, right frames, innermost first. *)
Fixpoint splay_down (i : Z) (ls : list frame) (t : tree) (rs : list frame) : list frame * tree * list frame :=
  match t with
  | Leaf => (ls, Leaf, rs)
  | Node tl e tr =>
      if i - e_key e <? 0 then
        match tl with
        | Leaf => (ls, t, rs)
        | Node yl ye yr =>
            if i - e_key ye <? 0 then
              match yl with
              | Leaf => (ls, Node yl ye (Node yr e tr), rs)
              | _ => splay_down i ls yl (Frame (Node yr e tr) ye (tsize tl) :: rs)
              end
            else splay_down i ls tl (Frame tr e (tsize t) :: rs)
        end
      else if 0 <? i - e_key e then
        match tr with
        | Leaf => (ls, t, rs)
        | Node yl ye yr =>
            if 0 <? i - e_key ye then
              match yr with
              | Leaf => (ls, Node (Node tl e yl) ye yr, rs)
              | _ => splay_down i (Frame (Node tl e yl) ye (tsize tr) :: ls) yr rs
              end
            else splay_down i (Frame tl e (tsize t) :: ls) tr rs
        end
      else (ls, t, rs)
  end.

(** How many rounds it takes, the one that leaves the loop included. *)
Fixpoint rounds (i : Z) (t : tree) : nat :=
  match t with
  | Leaf => 0
  | Node tl e tr =>
      if i - e_key e <? 0 then
        match tl with
        | Leaf => 1
        | Node yl ye yr =>
            if i - e_key ye <? 0 then match yl with Leaf => 1 | _ => S (rounds i yl) end
            else S (rounds i tl)
        end
      else if 0 <? i - e_key e then
        match tr with
        | Leaf => 1
        | Node yl ye yr =>
            if 0 <? i - e_key ye then match yr with Leaf => 1 | _ => S (rounds i yr) end
            else S (rounds i tr)
        end
      else 1
  end.

(** Hang [t] under the innermost frame. *)
Fixpoint plug_l (ls : list frame) (t : tree) : tree :=
  match ls with [] => t | f :: ls => plug_l ls (Node (f_sub f) (f_e f) t) end.
Fixpoint plug_r (rs : list frame) (t : tree) : tree :=
  match rs with [] => t | f :: rs => plug_r rs (Node t (f_e f) (f_sub f)) end.

Definition splay (i : Z) (t : tree) : tree :=
  match splay_down i [] t [] with
  | (ls, Node tl e tr, rs) => Node (plug_l ls tl) e (plug_r rs tr)
  | _ => Leaf
  end.

Definition insert (e : entry) (t : tree) : tree :=
  match splay (e_key e) t with
  | Leaf => Node Leaf e Leaf
  | Node tl re tr =>
      if e_key e - e_key re =? 0 then Node tl re tr
      else if e_key e - e_key re <? 0 then Node tl e (Node Leaf re tr)
      else Node (Node tl re Leaf) e tr
  end.

Definition delete (i : Z) (t : tree) : tree :=
  match splay i t with
  | Leaf => Leaf
  | Node tl e tr =>
      if i - e_key e =? 0 then
        match splay i tl with
        | Leaf => tr
        | Node xl xe _ => Node xl xe tr
        end
      else Node tl e tr
  end.

(** The rounds of the longer loop of a deletion, which may splay twice. *)
Definition delete_rounds (i : Z) (t : tree) : nat :=
  rounds i t `max` match splay i t with
                   | Node tl e _ => if i - e_key e =? 0 then rounds i tl else 0
                   | Leaf => 0
                   end.

(** ** Entries of frames *)

Fixpoint elems_l (ls : list frame) : list entry :=
  match ls with [] => [] | f :: ls => elems_l ls ++ elems (f_sub f) ++ [f_e f] end.
Fixpoint elems_r (rs : list frame) : list entry :=
  match rs with [] => [] | f :: rs => f_e f :: elems (f_sub f) ++ elems_r rs end.

Fixpoint fsize (fs : list frame) : Z :=
  match fs with [] => 0 | f :: fs => fsize fs + (1 + tsize (f_sub f)) end.

Lemma tsize_elems t : tsize t = Z.of_nat (length (elems t)).
Proof. induction t; simpl; rewrite ?length_app; simpl; lia. Qed.

Lemma tsize_nonneg t : 0 ≤ tsize t.
Proof. rewrite tsize_elems. lia. Qed.

Lemma elems_plug_l ls t : elems (plug_l ls t) = elems_l ls ++ elems t.
Proof. revert t; induction ls as [|f ls IH]; intros t; simpl; [done|]. rewrite IH. simpl. by rewrite <-!app_assoc. Qed.

Lemma elems_plug_r rs t : elems (plug_r rs t) = elems t ++ elems_r rs.
Proof. revert t; induction rs as [|f rs IH]; intros t; simpl; [by rewrite app_nil_r|]. rewrite IH. simpl. by rewrite <-!app_assoc. Qed.

(** ** [splay_down] *)

(** How the descent may end: at the key, or above an empty subtree on the
    side of the key. *)
Definition stops (i : Z) (t : tree) : Prop :=
  match t with
  | Leaf => False
  | Node tl e tr => e_key e = i ∨ (i < e_key e ∧ tl = Leaf) ∨ (e_key e < i ∧ tr = Leaf)
  end.

(** The descent as a relation, one rule per branch of the loop: it stops, or
    rotates and stops because the grandchild is missing, or rotates and links,
    or links only. *)
Inductive descent (i : Z) : list frame → tree → list frame → list frame * tree * list frame → Prop :=
  | d_stop ls t rs : stops i t → descent i ls t rs (ls, t, rs)
  | d_rot_r ls ye yr e tr rs :
      i < e_key e → i < e_key ye →
      descent i ls (Node (Node Leaf ye yr) e tr) rs (ls, Node Leaf ye (Node yr e tr), rs)
  | d_rot_link_r ls yl ye yr e tr rs res :
      i < e_key e → i < e_key ye → yl ≠ Leaf →
      descent i ls yl (Frame (Node yr e tr) ye (tsize (Node yl ye yr)) :: rs) res →
      descent i ls (Node (Node yl ye yr) e tr) rs res
  | d_link_r ls tl e tr rs res :
      i < e_key e → tl ≠ Leaf → ¬ (∃ yl ye yr, tl = Node yl ye yr ∧ i < e_key ye) →
      descent i ls tl (Frame tr e (tsize (Node tl e tr)) :: rs) res →
      descent i ls (Node tl e tr) rs res
  | d_rot_l ls tl e yl ye rs :
      e_key e < i → e_key ye < i →
      descent i ls (Node tl e (Node yl ye Leaf)) rs (ls, Node (Node tl e yl) ye Leaf, rs)
  | d_rot_link_l ls tl e yl ye yr rs res :
      e_key e < i → e_key ye < i → yr ≠ Leaf →
      descent i (Frame (Node tl e yl) ye (tsize (Node yl ye yr)) :: ls) yr rs res →
      descent i ls (Node tl e (Node yl ye yr)) rs res
  | d_link_l ls tl e tr rs res :
      e_key e < i → tr ≠ Leaf → ¬ (∃ yl ye yr, tr = Node yl ye yr ∧ e_key ye < i) →
      descent i (Frame tl e (tsize (Node tl e tr)) :: ls) tr rs res →
      descent i ls (Node tl e tr) rs res.

Lemma tree_size_ind (P : tree → Prop) :
  (∀ t, (∀ t', tsize t' < tsize t → P t') → P t) → ∀ t, P t.
Proof.
  intros H t. remember (Z.to_nat (tsize t)) as n eqn:Hn.
  revert t Hn; induction n as [n IH] using lt_wf_ind; intros t ->.
  apply H. intros t' Ht. eapply IH; [|done]. pose proof (tsize_nonneg t'). lia.
Qed.

#[local] Arguments splay_down : simpl never.

Ltac pose_sizes :=
  repeat match goal with
  | t : tree |- _ =>
      lazymatch goal with
      | H : 0 ≤ tsize t |- _ => fail
      | _ => pose proof (tsize_nonneg t)
      end
  end.

Lemma splay_down_descent i ls t rs :
  t ≠ Leaf → descent i ls t rs (splay_down i ls t rs).
Proof.
  revert ls rs; induction t as [t IH] using tree_size_ind; intros ls rs Ht.
  destruct t as [|tl e tr]; [done|clear Ht].
  unfold splay_down; fold splay_down.
  destruct (Z.ltb_spec (i - e_key e) 0); [|destruct (Z.ltb_spec 0 (i - e_key e))].
  - destruct tl as [|yl ye yr]; [apply d_stop; simpl; auto with lia|].
    destruct (Z.ltb_spec (i - e_key ye) 0).
    + destruct yl; [apply d_rot_r; lia|].
      apply d_rot_link_r; [lia..|done|]. apply IH; [pose_sizes; simpl; lia|done].
    + apply d_link_r; [lia|done|naive_solver lia|]. apply IH; [pose_sizes; simpl; lia|done].
  - destruct tr as [|yl ye yr]; [apply d_stop; simpl; auto with lia|].
    destruct (Z.ltb_spec 0 (i - e_key ye)).
    + destruct yr; [apply d_rot_l; lia|].
      apply d_rot_link_l; [lia..|done|]. apply IH; [pose_sizes; simpl; lia|done].
    + apply d_link_l; [lia|done|naive_solver lia|]. apply IH; [pose_sizes; simpl; lia|done].
  - apply d_stop. simpl. left. lia.
Qed.

(** The rounds of each rule. *)
Section rounds.
Context (i : Z).

Ltac by_cases :=
  unfold rounds; fold rounds;
  repeat (first
    [ rewrite (proj2 (Z.ltb_lt _ _)) by lia
    | rewrite (proj2 (Z.ltb_ge _ _)) by lia ]); try done; by case_match.

Lemma rounds_rot_link_r yl ye yr e tr :
  i < e_key e → i < e_key ye → yl ≠ Leaf → rounds i (Node (Node yl ye yr) e tr) = S (rounds i yl).
Proof. intros ???. by_cases. Qed.
Lemma rounds_link_r yl ye yr e tr :
  i < e_key e → e_key ye ≤ i → rounds i (Node (Node yl ye yr) e tr) = S (rounds i (Node yl ye yr)).
Proof. intros ??. by_cases. Qed.
Lemma rounds_rot_link_l tl e yl ye yr :
  e_key e < i → e_key ye < i → yr ≠ Leaf → rounds i (Node tl e (Node yl ye yr)) = S (rounds i yr).
Proof. intros ???. by_cases. Qed.
Lemma rounds_link_l tl e yl ye yr :
  e_key e < i → i ≤ e_key ye → rounds i (Node tl e (Node yl ye yr)) = S (rounds i (Node yl ye yr)).
Proof. intros ??. by_cases. Qed.
Lemma rounds_pos t : t ≠ Leaf → (0 < rounds i t)%nat.
Proof. destruct t as [|[|? ? ?] ? [|? ? ?]]; [done|..]; intros _; simpl; repeat case_match; lia. Qed.
End rounds.

Section descent.
Context (i : Z).

Definition sides (ls : list frame) (t : tree) (rs : list frame) : list entry :=
  elems_l ls ++ elems t ++ elems_r rs.

Lemma descent_elems ls t rs ls' t' rs' :
  descent i ls t rs (ls', t', rs') → sides ls' t' rs' = sides ls t rs.
Proof.
  intros H. remember (ls', t', rs') as res eqn:E. revert E; unfold sides.
  induction H; intros E; simplify_eq; rewrite ?IHdescent by done; simpl; by simplify_list_eq.
Qed.

Lemma descent_size ls t rs ls' t' rs' :
  descent i ls t rs (ls', t', rs') →
  fsize ls' + tsize t' + fsize rs' = fsize ls + tsize t + fsize rs.
Proof.
  intros H. remember (ls', t', rs') as res eqn:E. revert E.
  induction H; intros E; simplify_eq; rewrite ?IHdescent by done; simpl; lia.
Qed.

(** No round links more than one node, and the last one links none. *)
Lemma descent_frames ls t rs ls' t' rs' :
  t ≠ Leaf → descent i ls t rs (ls', t', rs') →
  (length ls' + length rs' < length ls + length rs + rounds i t)%nat.
Proof.
  intros Ht H. remember (ls', t', rs') as res eqn:E. revert Ht E.
  induction H as [| |ls yl ye yr e tr rs res ??? H IH|ls tl e tr rs res ? Hne Hno H IH|
                 |ls tl e yl ye yr rs res ??? H IH|ls tl e tr rs res ? Hne Hno H IH]; intros Ht E; simplify_eq.
  - pose proof (rounds_pos i t' Ht). lia.
  - pose proof (rounds_pos i (Node (Node Leaf ye yr) e tr) Ht). lia.
  - rewrite rounds_rot_link_r by done. specialize (IH ltac:(done) eq_refl). simpl in IH. lia.
  - destruct tl as [|yl ye yr]; [done|]. rewrite rounds_link_r; [|done|apply Z.le_ngt; eauto 10].
    specialize (IH ltac:(done) eq_refl). simpl length in IH. lia.
  - pose proof (rounds_pos i (Node tl e (Node yl ye Leaf)) Ht). lia.
  - rewrite rounds_rot_link_l by done. specialize (IH ltac:(done) eq_refl). simpl in IH. lia.
  - destruct tr as [|yl ye yr]; [done|]. rewrite rounds_link_l; [|done|apply Z.le_ngt; eauto 10].
    specialize (IH ltac:(done) eq_refl). simpl length in IH. lia.
Qed.

Lemma descent_node ls t rs ls' t' rs' :
  t ≠ Leaf → descent i ls t rs (ls', t', rs') → t' ≠ Leaf.
Proof.
  intros Ht H. remember (ls', t', rs') as res eqn:E. revert Ht E.
  induction H; intros ? E; simplify_eq; eauto.
Qed.

Definition below (es : list entry) : Prop := Forall (λ a, e_key a < i) es.
Definition above (es : list entry) : Prop := Forall (λ a, i < e_key a) es.

Lemma sorted_app es1 es2 :
  sorted (es1 ++ es2) ↔
  sorted es1 ∧ sorted es2 ∧ ∀ a b, a ∈ es1 → b ∈ es2 → e_key a < e_key b.
Proof.
  unfold sorted. induction es1 as [|a es1 IH]; simpl.
  - split; [intros; split_and!; [constructor|done|set_solver]|naive_solver].
  - split.
    + intros [H1 H2]%StronglySorted_inv. apply IH in H1 as (?&?&?).
      rewrite Forall_app in H2. destruct H2 as [H2 H2']. rewrite Forall_forall in H2'.
      split_and!; [by constructor|done|]. intros x y [->|?]%elem_of_cons ?; eauto.
    + intros ([H1 H1']%StronglySorted_inv & H2 & H3). constructor.
      * apply IH. split_and!; [done..|]. set_solver.
      * apply Forall_app. split; [done|]. apply Forall_forall. set_solver.
Qed.

Lemma sorted_node tl e tr :
  sorted (elems (Node tl e tr)) ↔
  sorted (elems tl) ∧ sorted (elems tr)
  ∧ Forall (λ a, e_key a < e_key e) (elems tl) ∧ Forall (λ a, e_key e < e_key a) (elems tr).
Proof.
  change (elems (Node tl e tr)) with (elems tl ++ [e] ++ elems tr).
  rewrite !sorted_app, !Forall_forall. setoid_rewrite elem_of_app.
  setoid_rewrite list_elem_of_singleton.
  assert (sorted [e]) as Hse by (repeat constructor). split.
  - intros (?&(?&?&Ha1)&Ha2). split_and!; [done..| |]; intros a Ha; [apply Ha2|apply Ha1]; auto.
  - intros (?&?&Ha1&Ha2). split_and!; [done..| |].
    + intros a b ->. apply Ha2.
    + intros a b Ha [->|Hb]; [by apply Ha1|]. trans (e_key e); auto.
Qed.

Lemma above_suffix W xs y zs :
  sorted W → W = xs ++ y :: zs → i ≤ e_key y → above zs.
Proof.
  intros HW -> Hi. apply sorted_app in HW as (_&[_ H]%StronglySorted_inv&_).
  unfold above. eapply Forall_impl; [done|]. simpl. lia.
Qed.

Lemma below_prefix W xs y zs :
  sorted W → W = xs ++ y :: zs → e_key y ≤ i → below xs.
Proof.
  intros HW -> Hi. apply sorted_app in HW as (_&_&H).
  apply Forall_forall. intros a Ha. specialize (H a y Ha (list_elem_of_here _ _)). lia.
Qed.

Lemma descent_sides ls t rs ls' t' rs' :
  sorted (sides ls t rs) → below (elems_l ls) → above (elems_r rs) →
  descent i ls t rs (ls', t', rs') → below (elems_l ls') ∧ above (elems_r rs').
Proof.
  intros Hs Hl Hr H. remember (ls', t', rs') as res eqn:E. revert Hs Hl Hr E.
  induction H as [| |ls yl ye yr e tr rs res ?? _ H IH|ls tl e tr rs res ? _ _ H IH| 
                 |ls tl e yl ye yr rs res ?? _ H IH|ls tl e tr rs res ? _ _ H IH];
    intros Hs Hl Hr E; simplify_eq; try done; apply IH; try done;
    try (replace (sides _ _ _) with (sides ls (Node (Node yl ye yr) e tr) rs)
           by (unfold sides; simpl; by simplify_list_eq); done);
    try (replace (sides _ _ _) with (sides ls (Node tl e (Node yl ye yr)) rs)
           by (unfold sides; simpl; by simplify_list_eq); done);
    try (replace (sides _ _ _) with (sides ls (Node tl e tr) rs)
           by (unfold sides; simpl; by simplify_list_eq); done).
  - constructor; [done|].
    eapply (above_suffix _ (elems_l ls ++ elems yl) ye); [exact Hs| |lia].
    unfold sides; simpl; by simplify_list_eq.
  - constructor; [done|].
    eapply (above_suffix _ (elems_l ls ++ elems tl) e); [exact Hs| |lia].
    unfold sides; simpl; by simplify_list_eq.
  - simpl. rewrite app_assoc. apply Forall_app; split; [|by repeat constructor].
    eapply (below_prefix _ _ ye (elems yr ++ elems_r rs)); [exact Hs| |lia].
    unfold sides; simpl; by simplify_list_eq.
  - simpl. rewrite app_assoc. apply Forall_app; split; [|by repeat constructor].
    eapply (below_prefix _ _ e (elems tr ++ elems_r rs)); [exact Hs| |lia].
    unfold sides; simpl; by simplify_list_eq.
Qed.

Lemma descent_stops ls t rs ls' t' rs' :
  t ≠ Leaf → descent i ls t rs (ls', t', rs') → stops i t'.
Proof.
  intros Ht H. remember (ls', t', rs') as res eqn:E. revert Ht E.
  induction H; intros ? E; simplify_eq; simpl; auto.
Qed.
End descent.

Lemma rounds_size i t : (rounds i t ≤ Z.to_nat (tsize t))%nat.
Proof.
  induction t as [t IH] using tree_size_ind. destruct t as [|tl e tr]; [done|]. unfold rounds; fold rounds.
  assert (∀ t', tsize t' < tsize (Node tl e tr) → (S (rounds i t') ≤ Z.to_nat (tsize (Node tl e tr)))%nat) as H.
  { intros t' Ht'. specialize (IH t' Ht'). pose proof (tsize_nonneg t'). lia. }
  clear IH. assert (1 ≤ tsize (Node tl e tr)) by (pose_sizes; simpl; lia).
  repeat case_match; subst; try (apply H; pose_sizes; simpl; lia); lia.
Qed.

(** ** [splay], [insert] and [delete] *)

Lemma splay_unfold i t :
  t ≠ Leaf → ∃ ls tl e tr rs,
    descent i [] t [] (ls, Node tl e tr, rs)
    ∧ splay_down i [] t [] = (ls, Node tl e tr, rs)
    ∧ splay i t = Node (plug_l ls tl) e (plug_r rs tr).
Proof.
  intros Ht. pose proof (splay_down_descent i [] t [] Ht) as H. unfold splay.
  destruct (splay_down i [] t []) as [[ls [|tl e tr]] rs].
  - by apply descent_node in H.
  - eauto 10.
Qed.

Lemma splay_elems i t : elems (splay i t) = elems t.
Proof.
  destruct t as [|tl0 e0 tr0]; [done|].
  set (t := Node tl0 e0 tr0). assert (Ht : t ≠ Leaf) by done.
  destruct (splay_unfold i t Ht) as (ls & tl & e & tr & rs & H & _ & ->).
  apply descent_elems in H. unfold sides in H. simpl in H.
  simpl. rewrite elems_plug_l, elems_plug_r, <-app_assoc. by simplify_list_eq.
Qed.

(** The root after splaying separates the entries below the key from those
    above it. *)
Lemma splay_root i t tl e tr :
  sorted (elems t) → splay i t = Node tl e tr →
  e_key e = i
  ∨ (i < e_key e ∧ below i (elems tl))
  ∨ (e_key e < i ∧ above i (elems tr)).
Proof.
  intros Hs Ht. assert (t ≠ Leaf) as Hne by (by intros ->).
  destruct (splay_unfold i t Hne) as (ls & tl' & e' & tr' & rs & H & _ & E).
  rewrite E in Ht. simplify_eq. pose proof (descent_stops _ _ _ _ _ _ _ Hne H) as Hstop.
  apply descent_sides in H as [Hl Hr];
    [|unfold sides; simpl; by rewrite app_nil_r|by constructor..].
  destruct Hstop as [?|[[? ->]|[? ->]]]; [by left|right; left|right; right]; (split; [done|]).
  - by rewrite elems_plug_l, app_nil_r.
  - by rewrite elems_plug_r.
Qed.

Definition keys (es : list entry) : list Z := e_key <$> es.

Lemma below_not_key i es : below i es → i ∉ keys es.
Proof.
  unfold below, keys. rewrite Forall_forall, list_elem_of_fmap.
  intros H (a & -> & Ha). specialize (H a Ha). lia.
Qed.
Lemma above_not_key i es : above i es → i ∉ keys es.
Proof.
  unfold above, keys. rewrite Forall_forall, list_elem_of_fmap.
  intros H (a & -> & Ha). specialize (H a Ha). lia.
Qed.

Lemma below_filter i es : below i es → filter (λ a, e_key a ≠ i) es = es.
Proof.
  intros H. induction H as [|a es Ha _ IH]; [done|].
  rewrite filter_cons_True by lia. by rewrite IH.
Qed.
Lemma above_filter i es : above i es → filter (λ a, e_key a ≠ i) es = es.
Proof.
  intros H. induction H as [|a es Ha _ IH]; [done|].
  rewrite filter_cons_True by lia. by rewrite IH.
Qed.

Lemma below_weaken i j es : below i es → i ≤ j → below j es.
Proof. unfold below. intros H ?. eapply Forall_impl; [done|]. simpl. lia. Qed.
Lemma above_weaken i j es : above i es → j ≤ i → above j es.
Proof. unfold above. intros H ?. eapply Forall_impl; [done|]. simpl. lia. Qed.

(** The root and the sequence of entries after splaying, by cases. *)
Lemma splay_cases i t tl e tr :
  sorted (elems t) → splay i t = Node tl e tr →
  elems t = elems tl ++ e :: elems tr ∧
  (e_key e = i ∧ below i (elems tl) ∧ above i (elems tr)
   ∨ i < e_key e ∧ below i (elems tl) ∧ above i (e :: elems tr)
   ∨ e_key e < i ∧ below i (elems tl ++ [e]) ∧ above i (elems tr)).
Proof.
  intros Hs Ht. pose proof (splay_elems i t) as He. rewrite Ht in He.
  split; [done|]. pose proof (splay_root _ _ _ _ _ Hs Ht) as Hr.
  rewrite <-He in Hs. apply sorted_node in Hs as (_&_&Hbelow&Habove).
  fold (below (e_key e) (elems tl)) in Hbelow. fold (above (e_key e) (elems tr)) in Habove.
  destruct Hr as [<-|[[Hi Hb]|[Hi Ha]]]; [by left|right; left|right; right];
    (split; [done|]); split; try done.
  - constructor; [done|]. eapply above_weaken; [done|lia].
  - apply Forall_app. split; [|by repeat constructor]. eapply below_weaken; [done|lia].
Qed.

Lemma not_key_around i xs e ys :
  below i xs → above i ys → e_key e ≠ i → i ∉ keys (xs ++ e :: ys).
Proof.
  intros Hx Hy He. unfold keys. rewrite fmap_app, fmap_cons, elem_of_app, elem_of_cons.
  apply below_not_key in Hx. apply above_not_key in Hy. unfold keys in *.
  intros [?|[?|?]]; [done|congruence|done].
Qed.

(** The key is at the root; a new entry has the smaller keys on its left and the
    larger ones on its right. *)
Lemma insert_root e t :
  sorted (elems t) →
  ∃ tl e' tr, insert e t = Node tl e' tr ∧ e_key e' = e_key e
    ∧ if decide (e_key e ∈ keys (elems t)) then elems tl ++ e' :: elems tr = elems t
      else e' = e ∧ elems t = elems tl ++ elems tr ∧ below (e_key e) (elems tl) ∧ above (e_key e) (elems tr).
Proof.
  intros Hs. unfold insert. destruct (splay (e_key e) t) as [|tl re tr] eqn:E.
  { pose proof (splay_elems (e_key e) t) as He. rewrite E in He. exists Leaf, e, Leaf. rewrite <-He.
    rewrite decide_False by (unfold keys; set_solver). by repeat constructor. }
  destruct (splay_cases _ _ _ _ _ Hs E) as [-> Hc].
  destruct (Z.eqb_spec (e_key e - e_key re) 0).
  { exists tl, re, tr. rewrite decide_True; [split_and!; [done|lia|done]|]. unfold keys. rewrite fmap_app, fmap_cons.
    apply elem_of_app. right. apply elem_of_cons. left. lia. }
  destruct Hc as [(?&_)|[(Hk&Hb&Ha)|(Hk&Hb&Ha)]]; [lia|..].
  - destruct (Z.ltb_spec (e_key e - e_key re) 0); [|lia]. exists tl, e, (Node Leaf re tr).
    rewrite decide_False; [done|]. apply not_key_around; [done| |lia]. by apply Forall_cons in Ha as [_ ?].
  - destruct (Z.ltb_spec (e_key e - e_key re) 0); [lia|]. exists (Node tl re Leaf), e, tr.
    rewrite decide_False; [split_and!; try done; by simplify_list_eq|].
    apply not_key_around; [|done|lia]. by apply Forall_app in Hb as [? _].
Qed.

Lemma insert_elems e t :
  sorted (elems t) →
  if decide (e_key e ∈ keys (elems t))
  then elems (insert e t) = elems t
  else ∃ xs ys, elems t = xs ++ ys ∧ elems (insert e t) = xs ++ e :: ys
                ∧ below (e_key e) xs ∧ above (e_key e) ys.
Proof.
  intros Hs. destruct (insert_root e t Hs) as (tl & e' & tr & -> & _ & He). cbn [elems].
  case_decide; [done|]. destruct He as (-> & ? & ? & ?). by exists (elems tl), (elems tr).
Qed.

(** Splaying a tree of smaller keys leaves no right subtree. *)
Lemma splay_max i t tl e tr :
  sorted (elems t) → below i (elems t) → splay i t = Node tl e tr → tr = Leaf.
Proof.
  intros Hs Hb E. destruct (splay_cases _ _ _ _ _ Hs E) as [He Hc].
  rewrite He in Hb. apply Forall_app in Hb as [_ [Hbe Hb]%Forall_cons].
  assert (above i (elems tr)) as Ha.
  { destruct Hc as [(?&?&?)|[(?&?&[_ ?]%Forall_cons)|(?&?&?)]]; done. }
  destruct tr as [|l e' r]; [done|exfalso].
  assert (e' ∈ elems (Node l e' r)) as Hin by (simpl; set_solver).
  unfold below, above in *. rewrite Forall_forall in Ha, Hb.
  specialize (Ha _ Hin). specialize (Hb _ Hin). simpl in *. lia.
Qed.

Lemma delete_elems i t :
  sorted (elems t) → elems (delete i t) = filter (λ a, e_key a ≠ i) (elems t).
Proof.
  intros Hs. unfold delete. destruct (splay i t) as [|tl e tr] eqn:E.
  { pose proof (splay_elems i t) as He. rewrite E in He. by rewrite <-He. }
  destruct (splay_cases _ _ _ _ _ Hs E) as [He Hc]. rewrite He in *.
  rewrite filter_app, filter_cons. destruct (Z.eqb_spec (i - e_key e) 0).
  - destruct Hc as [(Hk&Hb&Ha)|[(?&_)|(?&_)]]; [|lia..].
    rewrite decide_False by lia. rewrite below_filter, above_filter by done.
    apply sorted_app in Hs as (Hsl&_&_).
    destruct (splay i tl) as [|xl xe xr] eqn:E'.
    + pose proof (splay_elems i tl) as He'. rewrite E' in He'. by rewrite <-He'.
    + pose proof (splay_max _ _ _ _ _ Hsl Hb E') as ->.
      pose proof (splay_elems i tl) as He'. rewrite E' in He'. rewrite <-He'. simpl.
      by simplify_list_eq.
  - rewrite decide_True by lia. simpl.
    destruct Hc as [(?&_)|[(_&Hb&[_ Ha]%Forall_cons)|(_&[Hb _]%Forall_app&Ha)]]; [lia|..];
      by rewrite below_filter, above_filter.
Qed.
