(* ===== verification/SplayHeap.v ===== *)
(** * splaytree.c: the pointer code

    The functions of splaytree.c on a heap of [struct tree_node]s, statement
    by statement, with 32-bit [int] keys and sizes whose overflow is a fault.
    The theorems of SplayRefine.v say that on a heap that holds a binary tree with correct size
    fields the code terminates without a fault, computes the functional
    [splay], [insert] and [delete], keeps every size field right and leaves the
    rest of the heap alone. *)

From S2P Require Import Prelude Heap UtilTools SplayTree.

Local Open Scope Z_scope.

(** ** Data and operations *)

(** [struct tree_node]; [ndata] is the [void *]. *)
Record tree_node := TreeNode {
  nleft : ptr; nright : ptr; nkey : Z; nsize : Z; ndata : Z }.

(** [#define compare(i,j) ((i)-(j))] on [int]s. *)
Definition compare (i j : Z) : outcome Z := int_of (i - j).

(** The macro [splaytree_size], alias [node_size]. *)
Definition node_size (x : ptr) : HM tree_node Z :=
  match x with
  | None => mret 0
  | Some _ => n ← load x; mret (nsize n)
  end.

(** Assignments to the fields of [*p]. *)
Definition set_left (p v : ptr) : HM tree_node () :=
  n ← load p; store p (TreeNode v (nright n) (nkey n) (nsize n) (ndata n)).
Definition set_right (p v : ptr) : HM tree_node () :=
  n ← load p; store p (TreeNode (nleft n) v (nkey n) (nsize n) (ndata n)).
Definition set_size (p : ptr) (s : Z) : HM tree_node () :=
  n ← load p; store p (TreeNode (nleft n) (nright n) (nkey n) s (ndata n)).
Definition set_key (p : ptr) (k : Z) : HM tree_node () :=
  n ← load p; store p (TreeNode (nleft n) (nright n) k (nsize n) (ndata n)).
Definition set_data (p : ptr) (d : Z) : HM tree_node () :=
  n ← load p; store p (TreeNode (nleft n) (nright n) (nkey n) (nsize n) d).

(** [t->size = node_size(t->left) + node_size(t->right) + 1] *)
Definition update_size (t : ptr) : HM tree_node () :=
  n ← load t;
  a ← node_size (nleft n);
  b ← node_size (nright n);
  s ← lift (int_of (a + b));
  s ← lift (int_of (s + 1));
  set_size t s.

(** Lines 76-80: rotate right; the new [t] is returned. *)
Definition rotate_right (t : ptr) : HM tree_node ptr :=
  n ← load t;
  let y := nleft n in
  yn ← load y;
  set_left t (nright yn);;
  set_right y t;;
  update_size t;;
  mret y.

(** Lines 90-94: rotate left. *)
Definition rotate_left (t : ptr) : HM tree_node ptr :=
  n ← load t;
  let y := nright n in
  yn ← load y;
  set_right t (nleft yn);;
  set_left y t;;
  update_size t;;
  mret y.

(** Lines 83-86: link right; the new [r], [t] and [r_size] are returned. *)
Definition link_right (r t : ptr) (r_size : Z) : HM tree_node (ptr * ptr * Z) :=
  set_left r t;;
  let r := t in
  n ← load t;
  let t := nleft n in
  rn ← load r;
  s ← node_size (nright rn);
  s ← lift (int_of (1 + s));
  r_size ← lift (int_of (r_size + s));
  mret (r, t, r_size).

(** Lines 97-100: link left. *)
Definition link_left (l t : ptr) (l_size : Z) : HM tree_node (ptr * ptr * Z) :=
  set_right l t;;
  let l := t in
  n ← load t;
  let t := nright n in
  ln ← load l;
  s ← node_size (nleft ln);
  s ← lift (int_of (1 + s));
  l_size ← lift (int_of (l_size + s));
  mret (l, t, l_size).

(** The loop of lines 71-104. *)
Fixpoint splay_loop (fuel : nat) (i : Z) (l r t : ptr) (l_size r_size : Z)
    : HM tree_node (ptr * ptr * ptr * Z * Z) :=
  match fuel with
  | O => lift Timeout
  | S fuel =>
      tn ← load t;
      comp ← lift (compare i (nkey tn));
      if comp <? 0 then
        match nleft tn with
        | None => mret (l, r, t, l_size, r_size)
        | Some _ =>
            ln ← load (nleft tn);
            c ← lift (compare i (nkey ln));
            if c <? 0 then
              t ← rotate_right t;
              tn ← load t;
              match nleft tn with
              | None => mret (l, r, t, l_size, r_size)
              | Some _ =>
                  '(r, t, r_size) ← link_right r t r_size;
                  splay_loop fuel i l r t l_size r_size
              end
            else
              '(r, t, r_size) ← link_right r t r_size;
              splay_loop fuel i l r t l_size r_size
        end
      else if 0 <? comp then
        match nright tn with
        | None => mret (l, r, t, l_size, r_size)
        | Some _ =>
            rn ← load (nright tn);
            c ← lift (compare i (nkey rn));
            if 0 <? c then
              t ← rotate_left t;
              tn ← load t;
              match nright tn with
              | None => mret (l, r, t, l_size, r_size)
              | Some _ =>
                  '(l, t, l_size) ← link_left l t l_size;
                  splay_loop fuel i l r t l_size r_size
              end
            else
              '(l, t, l_size) ← link_left l t l_size;
              splay_loop fuel i l r t l_size r_size
        end
      else mret (l, r, t, l_size, r_size)
  end.

(** Lines 114-117: the size fields along the right spine of the left tree. *)
Fixpoint fix_sizes_left (fuel : nat) (y : ptr) (l_size : Z) : HM tree_node () :=
  match y with
  | None => mret ()
  | Some _ =>
      match fuel with
      | O => lift Timeout
      | S fuel =>
          set_size y l_size;;
          yn ← load y;
          s ← node_size (nleft yn);
          s ← lift (int_of (1 + s));
          l_size ← lift (int_of (l_size - s));
          fix_sizes_left fuel (nright yn) l_size
      end
  end.

(** Lines 118-121: the left spine of the right tree. *)
Fixpoint fix_sizes_right (fuel : nat) (y : ptr) (r_size : Z) : HM tree_node () :=
  match y with
  | None => mret ()
  | Some _ =>
      match fuel with
      | O => lift Timeout
      | S fuel =>
          set_size y r_size;;
          yn ← load y;
          s ← node_size (nright yn);
          s ← lift (int_of (1 + s));
          r_size ← lift (int_of (r_size - s));
          fix_sizes_right fuel (nleft yn) r_size
      end
  end.

(** A struct whose fields have not been written. *)
Definition fresh_node : tree_node := TreeNode None None 0 0 0.

(** [splaytree_splay]; the local struct [N] is allocated on entry and given
    back on return. *)
Definition splaytree_splay (fuel : nat) (t : ptr) (i : Z) : HM tree_node ptr :=
  match t with
  | None => mret t
  | Some _ =>
      N ← alloc fresh_node;
      set_right N None;;
      set_left N None;;
      '(l, r, t, l_size, r_size) ← splay_loop fuel i N N t 0 0;
      tn ← load t;
      s ← node_size (nleft tn);
      l_size ← lift (int_of (l_size + s));
      s ← node_size (nright tn);
      r_size ← lift (int_of (r_size + s));
      s ← lift (int_of (l_size + r_size));
      s ← lift (int_of (s + 1));
      set_size t s;;
      set_left r None;;
      set_right l None;;
      Nn ← load N;
      fix_sizes_left fuel (nright Nn) l_size;;
      Nn ← load N;
      fix_sizes_right fuel (nleft Nn) r_size;;
      tn ← load t;
      set_right l (nleft tn);;
      tn ← load t;
      set_left r (nright tn);;
      Nn ← load N;
      set_left t (nright Nn);;
      Nn ← load N;
      set_right t (nleft Nn);;
      free N;;
      mret t
  end.

(** [splaytree_insert]; [malloc_ok] tells whether [malloc] succeeds, otherwise
    the [assert] fires. *)
Definition splaytree_insert (fuel : nat) (malloc_ok : bool) (t : ptr) (i data : Z) : HM tree_node ptr :=
  '(t, found) ←
    match t with
    | None => mret (t, false)
    | Some _ =>
        t ← splaytree_splay fuel t i;
        n ← load t;
        c ← lift (compare i (nkey n));
        mret (t, c =? 0)
    end;
  if found : bool then mret t
  else if negb malloc_ok then lift (Err Aborted)
  else
    new ← alloc fresh_node;
    (match t with
     | None => set_right new None;; set_left new None
     | Some _ =>
         n ← load t;
         c ← lift (compare i (nkey n));
         if c <? 0 then
           set_left new (nleft n);;
           set_right new t;;
           set_left t None;;
           n ← load t;
           s ← node_size (nright n);
           s ← lift (int_of (1 + s));
           set_size t s
         else
           set_right new (nright n);;
           set_left new t;;
           set_right t None;;
           n ← load t;
           s ← node_size (nleft n);
           s ← lift (int_of (1 + s));
           set_size t s
     end);;
    set_key new i;;
    set_data new data;;
    n ← load new;
    a ← node_size (nleft n);
    b ← node_size (nright n);
    s ← lift (int_of (1 + a));
    s ← lift (int_of (s + b));
    set_size new s;;
    mret new.

(** [splaytree_delete] *)
Definition splaytree_delete (fuel : nat) (t : ptr) (i : Z) : HM tree_node ptr :=
  match t with
  | None => mret None
  | Some _ =>
      n ← load t;
      let tsize := nsize n in
      t ← splaytree_splay fuel t i;
      n ← load t;
      c ← lift (compare i (nkey n));
      if c =? 0 then
        x ← match nleft n with
            | None => mret (nright n)
            | Some _ =>
                x ← splaytree_splay fuel (nleft n) i;
                n ← load t;
                set_right x (nright n);;
                mret x
            end;
        free t;;
        match x with
        | None => mret x
        | Some _ =>
            s ← lift (int_of (tsize - 1));
            set_size x s;;
            mret x
        end
      else mret t
  end.
