(* ===== verification/SplayRefine.v ===== *)
(** * splaytree.c refines the functional splay tree

    [tnodes t] are the structs that represent the tree [t] in the heap.  The
    loop of [splaytree_splay] keeps three regions, the left tree, the current
    tree and the right tree, hanging off the local [N]; [lay] describes them by
    the frames of SplayTree.v, and each lemma below is one statement group of
    the C code against that layout. *)

From S2P Require Import Prelude Heap UtilTools SplayTree SplayHeap.

Local Open Scope Z_scope.

(** ** Representation *)

(** The struct of entry [e]. *)
Abbreviation tn e a b s := (e_loc e, TreeNode a b (e_key e) s (e_data e)).

Fixpoint tnodes (t : tree) : list (loc * tree_node) :=
  match t with
  | Leaf => []
  | Node l e r => tn e (root l) (root r) (tsize l + tsize r + 1) :: tnodes l ++ tnodes r
  end.

(** The left tree: its right spine, innermost frame first; the innermost
    [right] field holds [x]. *)
Fixpoint lnodes (x : ptr) (ls : list frame) : list (loc * tree_node) :=
  match ls with
  | [] => []
  | Frame sub e s :: ls => tn e (root sub) x s :: tnodes sub ++ lnodes (Some (e_loc e)) ls
  end.
Fixpoint rnodes (y : ptr) (rs : list frame) : list (loc * tree_node) :=
  match rs with
  | [] => []
  | Frame sub e s :: rs => tn e y (root sub) s :: tnodes sub ++ rnodes (Some (e_loc e)) rs
  end.

(** Its first node, as [N.right] (resp. [N.left]) points to it. *)
Fixpoint lhead (x : ptr) (fs : list frame) : ptr :=
  match fs with [] => x | f :: fs => lhead (Some (e_loc (f_e f))) fs end.

(** The pointers [l] and [r] of the loop. *)
Definition lref (n : loc) (fs : list frame) : loc :=
  match fs with [] => n | f :: _ => e_loc (f_e f) end.

Definition nnode (a b : ptr) : tree_node := TreeNode a b 0 0 0.

Definition lay (n : loc) (x y : ptr) (ls : list frame) (T : list (loc * tree_node)) (rs : list frame)
    : list (loc * tree_node) :=
  (n, nnode (lhead y rs) (lhead x ls)) :: lnodes x ls ++ T ++ rnodes y rs.

(** ** Statement groups *)

Section stmts.
Context (F : gmap loc tree_node).
Implicit Types (L R : list (loc * tree_node)).

Lemma node_size_ok t L Q :
  tnodes t ⊆ L → Q (tsize t) L → hwp (node_size (root t)) L F Q.
Proof.
  intros HL HQ. destruct t as [|tl e tr]; simpl in *; [by apply hwp_ret|].
  apply hwp_bind. eapply hwp_load; [apply HL, list_elem_of_here|]. by apply hwp_ret.
Qed.

Lemma hwp_int_of z L (Q : Z → list (loc * tree_node) → Prop) :
  0 ≤ z < 2 ^ 31 → Q z L → hwp (lift (int_of z)) L F Q.
Proof. intros Hz HQ. eapply hwp_lift; [by apply int_of_small|done]. Qed.

Lemma hwp_compare i k L (Q : Z → list (loc * tree_node) → Prop) :
  in_int (i - k) → Q (i - k) L → hwp (lift (compare i k)) L F Q.
Proof. intros Hz HQ. eapply hwp_lift; [by apply int_of_ok|done]. Qed.
End stmts.

Ltac sub_entries :=
  let x := fresh in let H := fresh in
  intros x H; repeat first
    [ exact H
    | apply list_elem_of_further
    | apply elem_of_app; left; solve [sub_entries_at H]
    | apply elem_of_app; right; solve [sub_entries_at H] ]
with sub_entries_at H :=
  repeat first
    [ exact H
    | apply list_elem_of_further
    | apply elem_of_app; left; solve [sub_entries_at H]
    | apply elem_of_app; right; solve [sub_entries_at H] ].

(** Symbolic execution: [hwp_step] and the rules above. *)
Ltac exec1 :=
  lazymatch goal with
  | |- hwp (node_size (root _)) _ _ _ => apply node_size_ok; [sub_entries|]
  | |- hwp (lift (int_of _)) _ _ _ => apply hwp_int_of; [simpl in *; lia|]
  | |- hwp (lift (compare _ _)) _ _ _ => apply hwp_compare; [simpl in *; auto; lia|]
  | |- hwp (set_left (Some (lref _ _)) _) _ _ _ => fail
  | |- hwp (set_right (Some (lref _ _)) _) _ _ _ => fail
  | |- hwp (set_left _ _) _ _ _ => unfold set_left at 1
  | |- hwp (set_right _ _) _ _ _ => unfold set_right at 1
  | |- hwp (set_size _ _) _ _ _ => unfold set_size at 1
  | |- hwp (set_key _ _) _ _ _ => unfold set_key at 1
  | |- hwp (set_data _ _) _ _ _ => unfold set_data at 1
  | |- hwp (update_size _) _ _ _ => unfold update_size at 1
  | _ => hwp_step
  end; cbn [nleft nright nkey nsize ndata].
Ltac exec := repeat exec1.

Section stmts2.
Context (F : gmap loc tree_node).
Implicit Types (L R : list (loc * tree_node)).

Lemma rotate_right_ok yl ye yr e tr s L R Q :
  L ≡ₚ tn e (Some (e_loc ye)) (root tr) s :: tnodes (Node yl ye yr) ++ tnodes tr ++ R →
  tsize (Node yr e tr) < 2 ^ 31 →
  (∀ L', L' ≡ₚ tn ye (root yl) (Some (e_loc e)) (tsize (Node yl ye yr))
                :: tnodes yl ++ tnodes (Node yr e tr) ++ R → Q (Some (e_loc ye)) L') →
  hwp (rotate_right (Some (e_loc e))) L F Q.
Proof.
  intros HL Hsz HQ. eapply hwp_perm; [exact HL|]. unfold rotate_right. simpl.
  pose_sizes. exec. apply HQ. simpl. solve_Permutation.
Qed.

Lemma rotate_left_ok tl e yl ye yr s L R Q :
  L ≡ₚ tn e (root tl) (Some (e_loc ye)) s :: tnodes (Node yl ye yr) ++ tnodes tl ++ R →
  tsize (Node tl e yl) < 2 ^ 31 →
  (∀ L', L' ≡ₚ tn ye (Some (e_loc e)) (root yr) (tsize (Node yl ye yr))
                :: tnodes (Node tl e yl) ++ tnodes yr ++ R → Q (Some (e_loc ye)) L') →
  hwp (rotate_left (Some (e_loc e))) L F Q.
Proof.
  intros HL Hsz HQ. eapply hwp_perm; [exact HL|]. unfold rotate_left. simpl.
  pose_sizes. exec. apply HQ. simpl. solve_Permutation.
Qed.

(** Writing through [r] (resp. [l]), which may point to [N]. *)
Lemma set_left_ref_ok n a y v rs L R Q :
  L ≡ₚ (n, nnode (lhead y rs) a) :: rnodes y rs ++ R →
  (∀ L', L' ≡ₚ (n, nnode (lhead v rs) a) :: rnodes v rs ++ R → Q () L') →
  hwp (set_left (Some (lref n rs)) v) L F Q.
Proof.
  intros HL HQ. eapply hwp_perm; [exact HL|].
  destruct rs as [|[sub e s] rs]; simpl; exec; apply HQ; simpl; solve_Permutation.
Qed.

Lemma set_right_ref_ok n a x v ls L R Q :
  L ≡ₚ (n, nnode a (lhead x ls)) :: lnodes x ls ++ R →
  (∀ L', L' ≡ₚ (n, nnode a (lhead v ls)) :: lnodes v ls ++ R → Q () L') →
  hwp (set_right (Some (lref n ls)) v) L F Q.
Proof.
  intros HL HQ. eapply hwp_perm; [exact HL|].
  destruct ls as [|[sub e s] ls]; simpl; exec; apply HQ; simpl; solve_Permutation.
Qed.

Lemma link_right_ok n x y ls tl e tr s rs L Q :
  L ≡ₚ lay n x y ls (tn e (root tl) (root tr) s :: tnodes tl ++ tnodes tr) rs →
  0 ≤ fsize rs → fsize rs + (1 + tsize tr) < 2 ^ 31 →
  (∀ L', L' ≡ₚ lay n x (root tl) ls (tnodes tl) (Frame tr e s :: rs) →
         Q (Some (e_loc e), root tl, fsize (Frame tr e s :: rs)) L') →
  hwp (link_right (Some (lref n rs)) (Some (e_loc e)) (fsize rs)) L F Q.
Proof.
  intros HL H0 Hsz HQ. unfold link_right. apply hwp_bind.
  eapply (set_left_ref_ok n (lhead x ls) y _ rs _
    (lnodes x ls ++ tn e (root tl) (root tr) s :: tnodes tl ++ tnodes tr)); [rewrite HL; unfold lay; solve_Permutation|].
  intros L1 HL1. eapply hwp_perm; [exact HL1|]. pose_sizes. exec. apply HQ.
  unfold lay. simpl. solve_Permutation.
Qed.

Lemma link_left_ok n x y ls tl e tr s rs L Q :
  L ≡ₚ lay n x y ls (tn e (root tl) (root tr) s :: tnodes tl ++ tnodes tr) rs →
  0 ≤ fsize ls → fsize ls + (1 + tsize tl) < 2 ^ 31 →
  (∀ L', L' ≡ₚ lay n (root tr) y (Frame tl e s :: ls) (tnodes tr) rs →
         Q (Some (e_loc e), root tr, fsize (Frame tl e s :: ls)) L') →
  hwp (link_left (Some (lref n ls)) (Some (e_loc e)) (fsize ls)) L F Q.
Proof.
  intros HL H0 Hsz HQ. unfold link_left. apply hwp_bind.
  eapply (set_right_ref_ok n (lhead y rs) x _ ls _
    (rnodes y rs ++ tn e (root tl) (root tr) s :: tnodes tl ++ tnodes tr)); [rewrite HL; unfold lay; solve_Permutation|].
  intros L1 HL1. eapply hwp_perm; [exact HL1|]. pose_sizes. exec. apply HQ.
  unfold lay. simpl. solve_Permutation.
Qed.

(** ** The loop *)

Lemma fsize_nonneg fs : 0 ≤ fsize fs.
Proof. induction fs as [|f fs IH]; simpl; [lia|]. pose proof (tsize_nonneg (f_sub f)). lia. Qed.

(** No comparison with a key of [es] overflows. *)
Definition comparable (i : Z) (es : list entry) : Prop := Forall (λ a, in_int (i - e_key a)) es.

Lemma comparable_node i tl e tr :
  comparable i (elems (Node tl e tr)) →
  comparable i (elems tl) ∧ in_int (i - e_key e) ∧ comparable i (elems tr).
Proof. unfold comparable. simpl. rewrite Forall_app, Forall_cons. naive_solver. Qed.

(** A tree whose root has a stale size field [s]. *)
Definition tnodes_with (s : Z) (t : tree) : list (loc * tree_node) :=
  match t with
  | Leaf => []
  | Node l e r => tn e (root l) (root r) s :: tnodes l ++ tnodes r
  end.

Definition loop_post n ls t rs (Q : ptr * ptr * ptr * Z * Z → list (loc * tree_node) → Prop) : Prop :=
  ∀ s x y L, L ≡ₚ lay n x y ls (tnodes_with s t) rs →
    Q (Some (lref n ls), Some (lref n rs), root t, fsize ls, fsize rs) L.

Section loop.
Context (i : Z) (n : loc) (Q : ptr * ptr * ptr * Z * Z → list (loc * tree_node) → Prop).

(** What the loop does from a layout, with enough fuel. *)
Definition loop_ok ls t rs : Prop :=
  comparable i (elems t) → fsize ls + tsize t + fsize rs < 2 ^ 31 →
  ∀ fuel x y L, (rounds i t ≤ fuel)%nat →
    L ≡ₚ lay n x y ls (tnodes t) rs →
    hwp (splay_loop fuel i (Some (lref n ls)) (Some (lref n rs)) (root t) (fsize ls) (fsize rs)) L F Q.

Ltac start_loop :=
  let fuel := fresh "fuel" in let HL := fresh "HL" in let Hf := fresh "Hf" in
  intros Hc Hsz fuel x y L Hf HL; eapply hwp_perm; [exact HL|]; clear HL;
  repeat match goal with
  | H : comparable _ (elems (Node _ _ _)) |- _ =>
      apply comparable_node in H as (?&?&?)
  end;
  repeat match goal with fs : list frame |- _ =>
    lazymatch goal with H : 0 ≤ fsize fs |- _ => fail | _ => pose proof (fsize_nonneg fs) end end;
  pose_sizes;
  destruct fuel as [|fuel]; [exfalso; revert Hf; apply Nat.lt_nge; by apply rounds_pos|];
  cbn [root splay_loop tnodes]; unfold lay; exec.

Ltac decide_cmp :=
  repeat (first
    [ rewrite (proj2 (Z.ltb_lt _ _)) by lia
    | rewrite (proj2 (Z.ltb_ge _ _)) by lia ]; cbn [root]; exec).

Lemma loop_stop ls t rs : stops i t → loop_post n ls t rs Q → loop_ok ls t rs.
Proof.
  intros Hstop HQ. destruct t as [|tl e tr]; [done|]. start_loop.
  destruct Hstop as [|[[? ->]|[? ->]]]; decide_cmp;
    (eapply (HQ _ x y); unfold lay; cbn [tnodes_with]; reflexivity).
Qed.

Lemma loop_rot_r ls ye yr e tr rs :
  i < e_key e → i < e_key ye →
  loop_post n ls (Node Leaf ye (Node yr e tr)) rs Q →
  loop_ok ls (Node (Node Leaf ye yr) e tr) rs.
Proof.
  intros ?? HQ. start_loop. decide_cmp.
  eapply (rotate_right_ok Leaf ye yr e tr (tsize (Node Leaf ye yr) + tsize tr + 1) _
            ((n, nnode (lhead y rs) (lhead x ls)) :: lnodes x ls ++ rnodes y rs));
    [cbn [tnodes root]; solve_Permutation|simpl in *; lia|].
  intros L1 HL1. eapply hwp_perm; [exact HL1|]. exec. cbn [root]. exec.
  apply (HQ (tsize (Node Leaf ye yr)) x y). unfold lay. cbn [tnodes_with tnodes root].
  solve_Permutation.
Qed.

Lemma loop_rot_link_r ls yl ye yr e tr rs :
  i < e_key e → i < e_key ye → yl ≠ Leaf →
  loop_ok ls yl (Frame (Node yr e tr) ye (tsize (Node yl ye yr)) :: rs) →
  loop_ok ls (Node (Node yl ye yr) e tr) rs.
Proof.
  intros ?? Hne IH. start_loop. decide_cmp.
  eapply (rotate_right_ok yl ye yr e tr (tsize (Node yl ye yr) + tsize tr + 1) _
            ((n, nnode (lhead y rs) (lhead x ls)) :: lnodes x ls ++ rnodes y rs));
    [cbn [tnodes root]; solve_Permutation|simpl in *; lia|].
  intros L1 HL1. eapply hwp_perm; [exact HL1|]. exec.
  destruct (root yl) as [|] eqn:Hr; [|by destruct yl].
  rewrite <-Hr. exec.
  eapply (link_right_ok n x y ls yl ye (Node yr e tr) (tsize (Node yl ye yr)));
    [unfold lay; solve_Permutation|done|simpl in *; lia|].
  rewrite rounds_rot_link_r in Hf by done.
  intros L2 HL2. eapply IH; [done|simpl in *; lia|lia|done].
Qed.

Lemma loop_link_r ls tl e tr rs :
  i < e_key e → tl ≠ Leaf → ¬ (∃ yl ye yr, tl = Node yl ye yr ∧ i < e_key ye) →
  loop_ok ls tl (Frame tr e (tsize (Node tl e tr)) :: rs) →
  loop_ok ls (Node tl e tr) rs.
Proof.
  intros ? Hne Hno IH. destruct tl as [|yl ye yr]; [done|].
  assert (e_key ye ≤ i) by (apply Z.le_ngt; eauto 10).
  start_loop. decide_cmp.
  eapply (link_right_ok n x y ls (Node yl ye yr) e tr (tsize (Node (Node yl ye yr) e tr)));
    [unfold lay; cbn [tnodes root]; solve_Permutation|done|simpl in *; lia|].
  rewrite rounds_link_r in Hf by done.
  intros L2 HL2. eapply IH; [|simpl in *; lia|lia|done].
  unfold comparable. simpl. rewrite Forall_app, Forall_cons. done.
Qed.

Lemma loop_rot_l ls tl e yl ye rs :
  e_key e < i → e_key ye < i →
  loop_post n ls (Node (Node tl e yl) ye Leaf) rs Q →
  loop_ok ls (Node tl e (Node yl ye Leaf)) rs.
Proof.
  intros ?? HQ. start_loop. decide_cmp.
  eapply (rotate_left_ok tl e yl ye Leaf (tsize tl + tsize (Node yl ye Leaf) + 1) _
            ((n, nnode (lhead y rs) (lhead x ls)) :: lnodes x ls ++ rnodes y rs));
    [cbn [tnodes root]; solve_Permutation|simpl in *; lia|].
  intros L1 HL1. eapply hwp_perm; [exact HL1|]. exec. cbn [root]. exec.
  apply (HQ (tsize (Node yl ye Leaf)) x y). unfold lay. cbn [tnodes_with tnodes root].
  solve_Permutation.
Qed.

Lemma loop_rot_link_l ls tl e yl ye yr rs :
  e_key e < i → e_key ye < i → yr ≠ Leaf →
  loop_ok (Frame (Node tl e yl) ye (tsize (Node yl ye yr)) :: ls) yr rs →
  loop_ok ls (Node tl e (Node yl ye yr)) rs.
Proof.
  intros ?? Hne IH. start_loop. decide_cmp.
  eapply (rotate_left_ok tl e yl ye yr (tsize tl + tsize (Node yl ye yr) + 1) _
            ((n, nnode (lhead y rs) (lhead x ls)) :: lnodes x ls ++ rnodes y rs));
    [cbn [tnodes root]; solve_Permutation|simpl in *; lia|].
  intros L1 HL1. eapply hwp_perm; [exact HL1|]. exec.
  destruct (root yr) as [|] eqn:Hr; [|by destruct yr].
  rewrite <-Hr. exec.
  eapply (link_left_ok n x y ls (Node tl e yl) ye yr (tsize (Node yl ye yr)));
    [unfold lay; solve_Permutation|done|simpl in *; lia|].
  rewrite rounds_rot_link_l in Hf by done.
  intros L2 HL2. eapply IH; [done|simpl in *; lia|lia|done].
Qed.

Lemma loop_link_l ls tl e tr rs :
  e_key e < i → tr ≠ Leaf → ¬ (∃ yl ye yr, tr = Node yl ye yr ∧ e_key ye < i) →
  loop_ok (Frame tl e (tsize (Node tl e tr)) :: ls) tr rs →
  loop_ok ls (Node tl e tr) rs.
Proof.
  intros ? Hne Hno IH. destruct tr as [|yl ye yr]; [done|].
  assert (i ≤ e_key ye) by (apply Z.le_ngt; eauto 10).
  start_loop. decide_cmp.
  eapply (link_left_ok n x y ls tl e (Node yl ye yr) (tsize (Node tl e (Node yl ye yr))));
    [unfold lay; cbn [tnodes root]; solve_Permutation|done|simpl in *; lia|].
  rewrite rounds_link_l in Hf by done.
  intros L2 HL2. eapply IH; [|simpl in *; lia|lia|done].
  unfold comparable. simpl. rewrite Forall_app, Forall_cons. done.
Qed.

(** The loop follows the descent. *)
Lemma splay_loop_ok ls t rs ls' t' rs' :
  descent i ls t rs (ls', t', rs') → loop_post n ls' t' rs' Q → loop_ok ls t rs.
Proof.
  intros H. remember (ls', t', rs') as res eqn:E. revert E.
  induction H; intros E HQ; simplify_eq;
    eauto using loop_stop, loop_rot_r, loop_rot_link_r, loop_link_r,
      loop_rot_l, loop_rot_link_l, loop_link_l.
Qed.
End loop.

(** ** The correction loops *)

(** The size fields that lines 114-121 write: of a frame whose subtree on the
    other side has size [m], and so on outwards. *)
Fixpoint fixed (m : Z) (fs : list frame) : list frame :=
  match fs with
  | [] => []
  | Frame sub e _ :: fs =>
      let m := m + (1 + tsize sub) in Frame sub e m :: fixed m fs
  end.

Lemma lnodes_app x ls1 ls2 : lnodes x (ls1 ++ ls2) = lnodes x ls1 ++ lnodes (lhead x ls1) ls2.
Proof.
  revert x; induction ls1 as [|[sub e s] ls1 IH]; intros x; simpl; [done|].
  by rewrite IH, app_assoc.
Qed.
Lemma rnodes_app y rs1 rs2 : rnodes y (rs1 ++ rs2) = rnodes y rs1 ++ rnodes (lhead y rs1) rs2.
Proof.
  revert y; induction rs1 as [|[sub e s] rs1 IH]; intros y; simpl; [done|].
  by rewrite IH, app_assoc.
Qed.
Lemma lhead_app x ls1 ls2 : lhead x (ls1 ++ ls2) = lhead (lhead x ls1) ls2.
Proof. revert x; induction ls1 as [|f ls1 IH]; intros x; simpl; auto. Qed.
Lemma fixed_app m fs1 fs2 : fixed m (fs1 ++ fs2) = fixed m fs1 ++ fixed (m + fsize fs1) fs2.
Proof.
  revert m; induction fs1 as [|[sub e s] fs1 IH]; intros m; simpl; [by rewrite Z.add_0_r|].
  rewrite IH. by replace (m + (fsize fs1 + (1 + tsize sub))) with (m + (1 + tsize sub) + fsize fs1) by lia.
Qed.
Lemma lhead_fixed x m fs : lhead x (fixed m fs) = lhead x fs.
Proof. revert x m; induction fs as [|[sub e s] fs IH]; intros; simpl; auto. Qed.
Lemma lref_fixed n m fs : lref n (fixed m fs) = lref n fs.
Proof. by destruct fs as [|[]]. Qed.

Lemma fsize_app fs1 fs2 : fsize (fs1 ++ fs2) = fsize fs1 + fsize fs2.
Proof. induction fs1 as [|f fs1 IH]; simpl; [done|]. rewrite IH. lia. Qed.

Lemma fix_sizes_left_ok m ls fuel L R Q :
  0 ≤ m → m + fsize ls < 2 ^ 31 → (length ls ≤ fuel)%nat →
  L ≡ₚ lnodes None ls ++ R →
  (∀ L', L' ≡ₚ lnodes None (fixed m ls) ++ R → Q () L') →
  hwp (fix_sizes_left fuel (lhead None ls) (m + fsize ls)) L F Q.
Proof.
  revert fuel L R; induction ls as [|[sub e s] ls IH] using rev_ind;
    intros fuel L R Hm Hsz Hf HL HQ; eapply hwp_perm; try exact HL.
  - destruct fuel; simpl; exec; by apply HQ.
  - rewrite length_app in Hf. destruct fuel as [|fuel]; [simpl in Hf; lia|].
    pose proof (fsize_nonneg ls). pose proof (tsize_nonneg sub).
    rewrite fsize_app in *. rewrite lhead_app, lnodes_app in *. simpl in *.
    rewrite ?Z.add_0_l in *. exec.
    replace (m + (fsize ls + (1 + tsize sub)) - (1 + tsize sub)) with (m + fsize ls) by lia.
    eapply (IH _ _ (tn e (root sub) (lhead None ls) (m + fsize ls + (1 + tsize sub)) :: tnodes sub ++ R));
      [done|lia|lia| |].
    + replace (m + (fsize ls + (1 + tsize sub))) with (m + fsize ls + (1 + tsize sub)) by lia.
      solve_Permutation.
    + intros L' HL'. apply HQ. rewrite HL', fixed_app, lnodes_app, lhead_fixed. simpl.
      solve_Permutation.
Qed.

Lemma fix_sizes_right_ok m rs fuel L R Q :
  0 ≤ m → m + fsize rs < 2 ^ 31 → (length rs ≤ fuel)%nat →
  L ≡ₚ rnodes None rs ++ R →
  (∀ L', L' ≡ₚ rnodes None (fixed m rs) ++ R → Q () L') →
  hwp (fix_sizes_right fuel (lhead None rs) (m + fsize rs)) L F Q.
Proof.
  revert fuel L R; induction rs as [|[sub e s] rs IH] using rev_ind;
    intros fuel L R Hm Hsz Hf HL HQ; eapply hwp_perm; try exact HL.
  - destruct fuel; simpl; exec; by apply HQ.
  - rewrite length_app in Hf. destruct fuel as [|fuel]; [simpl in Hf; lia|].
    pose proof (fsize_nonneg rs). pose proof (tsize_nonneg sub).
    rewrite fsize_app in *. rewrite lhead_app, rnodes_app in *. simpl in *.
    rewrite ?Z.add_0_l in *. exec.
    replace (m + (fsize rs + (1 + tsize sub)) - (1 + tsize sub)) with (m + fsize rs) by lia.
    eapply (IH _ _ (tn e (lhead None rs) (root sub) (m + fsize rs + (1 + tsize sub)) :: tnodes sub ++ R));
      [done|lia|lia| |].
    + replace (m + (fsize rs + (1 + tsize sub))) with (m + fsize rs + (1 + tsize sub)) by lia.
      solve_Permutation.
    + intros L' HL'. apply HQ. rewrite HL', fixed_app, rnodes_app, lhead_fixed. simpl.
      solve_Permutation.
Qed.

(** ** Assembly *)

Lemma plug_l_size ls t : tsize (plug_l ls t) = tsize t + fsize ls.
Proof. revert t; induction ls as [|f ls IH]; intros t; simpl; [lia|]. rewrite IH. simpl. lia. Qed.
Lemma plug_r_size rs t : tsize (plug_r rs t) = tsize t + fsize rs.
Proof. revert t; induction rs as [|f rs IH]; intros t; simpl; [lia|]. rewrite IH. simpl. lia. Qed.

Lemma plug_l_root ls t : root (plug_l ls t) = lhead (root t) ls.
Proof. revert t; induction ls as [|f ls IH]; intros t; simpl; [done|]. by rewrite IH. Qed.
Lemma plug_r_root rs t : root (plug_r rs t) = lhead (root t) rs.
Proof. revert t; induction rs as [|f rs IH]; intros t; simpl; [done|]. by rewrite IH. Qed.

Lemma plug_l_nodes ls t :
  tnodes (plug_l ls t) ≡ₚ lnodes (root t) (fixed (tsize t) ls) ++ tnodes t.
Proof.
  revert t; induction ls as [|[sub e s] ls IH]; intros t; simpl; [done|].
  rewrite IH. simpl. replace (tsize sub + tsize t + 1) with (tsize t + (1 + tsize sub)) by lia.
  solve_Permutation.
Qed.
Lemma plug_r_nodes rs t :
  tnodes (plug_r rs t) ≡ₚ rnodes (root t) (fixed (tsize t) rs) ++ tnodes t.
Proof.
  revert t; induction rs as [|[sub e s] rs IH]; intros t; simpl; [done|].
  rewrite IH. simpl. replace (tsize t + tsize sub + 1) with (tsize t + (1 + tsize sub)) by lia.
  solve_Permutation.
Qed.

(** Lines 105-128, after the loop. *)
Definition splay_tail (fuel : nat) (N l r t : ptr) (l_size r_size : Z) : HM tree_node ptr :=
    tn ← load t;
    s ← node_size (nleft tn);
    l_size ← lift (int_of (l_size + s));
    s ← node_size (nright tn);
    r_size ← lift (int_of (r_size + s));
    s ← lift (int_of (l_size + r_size));
    s ← lift (int_of (s + 1));
    set_size t s;;
    set_left r None;;
    set_right l None;;
    Nn ← load N;
    fix_sizes_left fuel (nright Nn) l_size;;
    Nn ← load N;
    fix_sizes_right fuel (nleft Nn) r_size;;
    tn ← load t;
    set_right l (nleft tn);;
    tn ← load t;
    set_left r (nright tn);;
    Nn ← load N;
    set_left t (nright Nn);;
    Nn ← load N;
    set_right t (nleft Nn);;
    free N;;
    mret t.

Lemma splay_tail_ok fuel n x y ls tl e tr rs s L Q :
  fsize ls + tsize (Node tl e tr) + fsize rs < 2 ^ 31 →
  (length ls ≤ fuel)%nat → (length rs ≤ fuel)%nat →
  L ≡ₚ lay n x y ls (tnodes_with s (Node tl e tr)) rs →
  (∀ L', L' ≡ₚ tnodes (Node (plug_l ls tl) e (plug_r rs tr)) → Q (Some (e_loc e)) L') →
  hwp (splay_tail fuel (Some n) (Some (lref n ls)) (Some (lref n rs)) (Some (e_loc e)) (fsize ls) (fsize rs)) L F Q.
Proof.
  intros Hsz Hfl Hfr HL HQ. eapply hwp_perm; [exact HL|]. unfold splay_tail, lay. simpl in Hsz.
  pose proof (fsize_nonneg ls). pose proof (fsize_nonneg rs). pose_sizes.
  cbn [tnodes_with]. exec.
  set (z := fsize ls + tsize tl + (fsize rs + tsize tr) + 1).
  set (T := tn e (root tl) (root tr) z :: tnodes tl ++ tnodes tr).
  eapply (set_left_ref_ok n (lhead x ls) y None rs _ (lnodes x ls ++ T)); [unfold T; solve_Permutation|].
  intros L1 HL1. eapply hwp_perm; [exact HL1|]. exec.
  eapply (set_right_ref_ok n (lhead None rs) x None ls _ (rnodes None rs ++ T)); [solve_Permutation|].
  intros L2 HL2. eapply hwp_perm; [exact HL2|]. exec.
  replace (fsize ls + tsize tl) with (tsize tl + fsize ls) by lia.
  eapply (fix_sizes_left_ok (tsize tl) ls fuel _ ((n, nnode (lhead None rs) (lhead None ls)) :: rnodes None rs ++ T));
    [done|lia|done|solve_Permutation|].
  intros L3 HL3. eapply hwp_perm; [exact HL3|]. exec.
  replace (fsize rs + tsize tr) with (tsize tr + fsize rs) by lia.
  eapply (fix_sizes_right_ok (tsize tr) rs fuel _
    ((n, nnode (lhead None rs) (lhead None ls)) :: lnodes None (fixed (tsize tl) ls) ++ T));
    [done|lia|done|solve_Permutation|].
  intros L4 HL4. eapply hwp_perm; [exact HL4|]. unfold T. exec.
  rewrite <-(lref_fixed n (tsize tl) ls), <-(lref_fixed n (tsize tr) rs).
  eapply (set_right_ref_ok n (lhead None rs) None (root tl) (fixed (tsize tl) ls) _
    (rnodes None (fixed (tsize tr) rs) ++ T)); [rewrite !lhead_fixed; unfold T; solve_Permutation|].
  intros L5 HL5. eapply hwp_perm; [exact HL5|]. unfold T. exec.
  eapply (set_left_ref_ok n (lhead (root tl) (fixed (tsize tl) ls)) None (root tr) (fixed (tsize tr) rs) _
    (lnodes (root tl) (fixed (tsize tl) ls) ++ T)); [rewrite !lhead_fixed; unfold T; solve_Permutation|].
  intros L6 HL6. eapply hwp_perm; [exact HL6|]. unfold T, nnode. exec.
  apply HQ. cbn [tnodes]. rewrite plug_l_root, plug_r_root, plug_l_size, plug_r_size, !lhead_fixed.
  rewrite plug_l_nodes, plug_r_nodes.
  replace (tsize tl + fsize ls + (tsize tr + fsize rs) + 1) with z by (unfold z; lia).
  solve_Permutation.
Qed.

Lemma splay_ok fuel i t L Q :
  comparable i (elems t) → tsize t < 2 ^ 31 → (rounds i t ≤ fuel)%nat →
  L ≡ₚ tnodes t →
  (∀ L', L' ≡ₚ tnodes (splay i t) → Q (root (splay i t)) L') →
  hwp (splaytree_splay fuel (root t) i) L F Q.
Proof.
  intros Hc Hsz Hf HL HQ. eapply hwp_perm; [exact HL|]. clear L HL.
  destruct (root t) as [p|] eqn:Hr; cycle 1.
  { destruct t; [|done]. apply hwp_ret. by apply HQ. }
  assert (t ≠ Leaf) as Hne by (by intros ->).
  destruct (splay_unfold i t Hne) as (ls & tl & e & tr & rs & Hd & _ & E).
  pose proof (descent_size _ _ _ _ _ _ _ Hd) as Hs. simpl in Hs.
  pose proof (descent_frames _ _ _ _ _ _ _ Hne Hd) as Hfr. simpl in Hfr. pose_sizes.
  unfold splaytree_splay. apply hwp_bind, hwp_alloc. intros n _. unfold fresh_node.
  exec. rewrite <-Hr.
  eapply (splay_loop_ok i n _ [] t [] _ _ _ Hd); [|done|simpl; lia|done|].
  2:{ instantiate (1 := None). instantiate (1 := None). unfold lay. simpl. solve_Permutation. }
  intros s x y L HL. eapply splay_tail_ok; [|..|exact HL|]; [simpl; lia|lia|lia|].
  rewrite E in HQ. done.
Qed.
End stmts2.

(** ** Insertion and deletion *)

Lemma splay_node i t : t ≠ Leaf → ∃ tl e tr, splay i t = Node tl e tr.
Proof. intros Ht. destruct (splay_unfold i t Ht) as (ls & tl & e & tr & rs & _ & _ & ->). eauto. Qed.

Lemma splay_size i t : tsize (splay i t) = tsize t.
Proof. by rewrite !tsize_elems, splay_elems. Qed.

Section ops.
Context (F : gmap loc tree_node).

Lemma splay_entries_comparable i t tl e tr :
  splay i t = Node tl e tr → comparable i (elems t) →
  comparable i (elems tl) ∧ in_int (i - e_key e) ∧ comparable i (elems tr).
Proof. intros E Hc. rewrite <-(splay_elems i t), E in Hc. by apply comparable_node. Qed.

Lemma insert_ok fuel i d t L (Q : ptr → list (loc * tree_node) → Prop) :
  comparable i (elems t) → tsize t + 1 < 2 ^ 31 → (rounds i t ≤ fuel)%nat →
  L ≡ₚ tnodes t →
  (∀ n L', let t' := insert (Entry n i d) t in L' ≡ₚ tnodes t' → Q (root t') L') →
  hwp (splaytree_insert fuel true (root t) i d) L F Q.
Proof.
  intros Hc Hsz Hf HL HQ. eapply hwp_perm; [exact HL|]. clear L HL. unfold splaytree_insert.
  destruct t as [|tl0 e0 tr0] eqn:Et; cbn [root].
  { exec. cbn [negb]. eapply hwp_bind, hwp_alloc. intros p _. unfold fresh_node. exec.
    cbn [node_size]. exec. apply (HQ p). done. }
  rewrite <-Et in *. exec.
  change (Some (e_loc e0)) with (root (Node tl0 e0 tr0)). rewrite <-Et.
  eapply (splay_ok F fuel i t); [done|lia|done|done|]. intros L1 HL1. eapply hwp_perm; [exact HL1|].
  destruct (splay_node i t) as (tl & e & tr & E); [by subst|].
  destruct (splay_entries_comparable _ _ _ _ _ E Hc) as (_&Hce&_).
  pose proof (splay_size i t) as Hs.
  unfold insert in HQ. cbn [e_key] in HQ. rewrite E in *. simpl in Hs. pose_sizes. cbn [root tnodes].
  exec. destruct (Z.eqb_spec (i - e_key e) 0).
  { exec. by apply (HQ 1%positive). }
  cbn [negb]. eapply hwp_bind, hwp_alloc. intros p _. unfold fresh_node. exec.
  destruct (Z.ltb_spec (i - e_key e) 0).
  - exec. cbn [node_size]. exec. apply (HQ p). cbn [tnodes root tsize e_loc e_key e_data].
    replace (0 + tsize tr + 1) with (1 + tsize tr) by lia.
    replace (tsize tl + (1 + tsize tr) + 1) with (1 + tsize tl + (1 + tsize tr)) by lia.
    solve_Permutation.
  - exec. cbn [node_size]. exec. apply (HQ p). cbn [tnodes root tsize e_loc e_key e_data].
    replace (tsize tl + 0 + 1) with (1 + tsize tl) by lia.
    replace (1 + tsize tl + tsize tr + 1) with (1 + (1 + tsize tl) + tsize tr) by lia.
    solve_Permutation.
Qed.

(** [x->size = tsize-1] rewrites a size field that is already right. *)
Lemma set_size_root_ok l e r s z L R (Q : () → list (loc * tree_node) → Prop) :
  L ≡ₚ tn e (root l) (root r) s :: R →
  (∀ L', L' ≡ₚ tn e (root l) (root r) z :: R → Q () L') →
  hwp (set_size (Some (e_loc e)) z) L F Q.
Proof. intros HL HQ. eapply hwp_perm; [exact HL|]. exec. by apply HQ. Qed.
End ops.

Lemma delete_rounds_size i t : (delete_rounds i t ≤ Z.to_nat (tsize t))%nat.
Proof.
  unfold delete_rounds. pose proof (rounds_size i t). pose proof (splay_size i t) as Hs.
  destruct (splay i t) as [|tl e tr]; [lia|]. pose proof (rounds_size i tl). pose_sizes. simpl in Hs.
  case_match; lia.
Qed.

Section delete.
Context (F : gmap loc tree_node).

Lemma delete_ok fuel i t L (Q : ptr → list (loc * tree_node) → Prop) :
  sorted (elems t) → comparable i (elems t) → tsize t < 2 ^ 31 → (delete_rounds i t ≤ fuel)%nat →
  L ≡ₚ tnodes t →
  (∀ L', L' ≡ₚ tnodes (delete i t) → Q (root (delete i t)) L') →
  hwp (splaytree_delete fuel (root t) i) L F Q.
Proof.
  intros Hso Hc Hsz Hf HL HQ. eapply hwp_perm; [exact HL|]. clear L HL. unfold splaytree_delete.
  destruct t as [|tl0 e0 tr0] eqn:Et; cbn [root]; [exec; by apply HQ|].
  cbn [tnodes]. exec. fold (tnodes (Node tl0 e0 tr0)).
  change (Some (e_loc e0)) with (root (Node tl0 e0 tr0)).
  change (tsize tl0 + tsize tr0 + 1) with (tsize (Node tl0 e0 tr0)). rewrite <-Et in *.
  eapply (splay_ok F fuel i t); [done|done|unfold delete_rounds in Hf; lia|by rewrite Et|]. intros L1 HL1. eapply hwp_perm; [exact HL1|].
  destruct (splay_node i t) as (tl & e & tr & E); [by subst|].
  destruct (splay_entries_comparable _ _ _ _ _ E Hc) as (Hcl&Hce&_).
  destruct (splay_cases _ _ _ _ _ Hso E) as [He Hcase].
  pose proof (splay_size i t) as Hs.
  unfold delete in HQ. rewrite E in *. simpl in Hs. pose_sizes. cbn [root tnodes].
  exec. destruct (Z.eqb_spec (i - e_key e) 0); [|exec; by apply HQ].
  exec. destruct tl as [|yl ye yr] eqn:Etl; cbn [root tnodes].
  - exec. destruct tr as [|zl ze zr]; cbn [root tnodes]; [exec; by apply HQ|].
    simpl in *. exec. apply HQ. cbn [tnodes].
    replace (tsize t - 1) with (tsize zl + tsize zr + 1) by lia. solve_Permutation.
  - rewrite <-Etl in *. assert (Some (e_loc ye) = root tl) as Hr by (by rewrite Etl).
    exec.
    set (R := tn e (Some (e_loc ye)) (root tr) (tsize tl + tsize tr + 1) :: tnodes tr).
    eapply (hwp_perm _ _ (tnodes tl ++ R)); [unfold R; rewrite Etl; cbn [tnodes root]; solve_Permutation|].
    apply hwp_frame. rewrite Hr.
    assert (sorted (elems tl) ∧ below i (elems tl)) as [Hsl Hbl].
    { rewrite He in Hso. apply sorted_app in Hso as [? _].
      destruct Hcase as [(?&?&?)|[(?&?&?)|(?&?&?)]]; [done|lia|lia]. }
    eapply (splay_ok _ fuel i tl); [done|lia|unfold delete_rounds in Hf; rewrite E, (proj2 (Z.eqb_eq _ _)) in Hf by done; lia|done|]. intros L2 HL2.
    pose proof (splay_size i tl) as Hs'.
    destruct (splay_node i tl) as (xl & xe & xr & E'); [by subst|].
    pose proof (splay_max _ _ _ _ _ Hsl Hbl E') as ->. rewrite E' in *.
    eapply hwp_perm; [by rewrite HL2|]. unfold R. simpl in Hs'. pose_sizes. cbn [root tnodes].
    exec. apply HQ. cbn [tnodes root].
    replace (tsize t - 1) with (tsize xl + tsize tr + 1) by lia. solve_Permutation.
Qed.
End delete.

(** ** Properties *)

(** C1: refinement. On a heap that holds the tree [t] with right size fields
    (and anything else, [F]), if no key of the tree is so far from [i] that the
    comparison overflows ([far_keys_overflow]), [splaytree_splay] terminates within fuel the
    number of nodes, without a fault, on a heap that holds the functional
    top-down splay of [t] with right size fields, and leaves [F] alone. *)
Theorem splaytree_splay_refines fuel h F t i :
  owns h (tnodes t) F → comparable i (elems t) → tsize t < 2 ^ 31 →
  (Z.to_nat (tsize t) ≤ fuel)%nat →
  ∃ h', splaytree_splay fuel (root t) i h = Ok (root (splay i t), h')
        ∧ owns h' (tnodes (splay i t)) F.
Proof.
  intros Hh Hc Hsz Hf. pose proof (rounds_size i t).
  destruct (splay_ok F fuel i t (tnodes t)
    (λ a L', a = root (splay i t) ∧ L' ≡ₚ tnodes (splay i t)) Hc Hsz) with h
    as (a & h' & L' & E & Hh' & -> & HL'); [lia|done|naive_solver|done|].
  exists h'. by rewrite <-HL'.
Qed.

(** C36: the point of splaying. On a binary search tree the code keeps the
    in-order sequence of nodes; a key that is present ends at the root; for an
    absent key the root is its neighbour: nothing lies between them. *)
Theorem splaytree_splay_finds fuel h F t i :
  owns h (tnodes t) F → sorted (elems t) → comparable i (elems t) → tsize t < 2 ^ 31 →
  (Z.to_nat (tsize t) ≤ fuel)%nat → t ≠ Leaf →
  ∃ tl e tr h', splaytree_splay fuel (root t) i h = Ok (Some (e_loc e), h')
    ∧ owns h' (tnodes (Node tl e tr)) F ∧ elems t = elems tl ++ e :: elems tr
    ∧ if decide (i ∈ keys (elems t)) then e_key e = i
      else below i (elems tl) ∧ above i (elems tr) ∧ e_key e ≠ i.
Proof.
  intros Hh Hs Hc Hsz Hf Hne. pose proof (rounds_size i t). destruct (splay_node i t Hne) as (tl & e & tr & E).
  destruct (splay_ok F fuel i t (tnodes t)
    (λ a L', a = root (splay i t) ∧ L' ≡ₚ tnodes (splay i t)) Hc Hsz) with h
    as (a & h' & L' & Er & Hh' & -> & HL'); [lia|done|naive_solver|done|].
  rewrite HL', E in Hh'. rewrite E in Er.
  destruct (splay_cases _ _ _ _ _ Hs E) as [He Hcase].
  exists tl, e, tr, h'. split_and!; [done..|].
  destruct Hcase as [(Hk&Hb&Ha)|[(Hk&Hb&[_ Ha]%Forall_cons)|(Hk&[Hb _]%Forall_app&Ha)]].
  - rewrite decide_True; [done|]. rewrite He. unfold keys. rewrite fmap_app, fmap_cons. set_solver.
  - rewrite decide_False; [split_and!; [done..|lia]|].
    rewrite He. apply not_key_around; [done..|lia].
  - rewrite decide_False; [split_and!; [done..|lia]|].
    rewrite He. apply not_key_around; [done..|lia].
Qed.

(** C2: insertion. On a binary search tree whose keys have a difference to the
    new one that fits an int, [splaytree_insert] terminates without a fault and
    returns the root of a tree with right size fields, whose key is [i]. If the
    key was present the entries (the data pointer included) are the old ones in
    the old order, otherwise the root is a new node with this key and data
    pointer, with the smaller old entries on its left and the larger ones on
    its right. *)
Theorem splaytree_insert_correct fuel h F t i d :
  owns h (tnodes t) F → sorted (elems t) → comparable i (elems t) → tsize t + 1 < 2 ^ 31 →
  (Z.to_nat (tsize t) ≤ fuel)%nat →
  ∃ tl e tr h', splaytree_insert fuel true (root t) i d h = Ok (Some (e_loc e), h')
    ∧ owns h' (tnodes (Node tl e tr)) F ∧ e_key e = i
    ∧ if decide (i ∈ keys (elems t)) then elems tl ++ e :: elems tr = elems t
      else e_data e = d ∧ elems t = elems tl ++ elems tr ∧ below i (elems tl) ∧ above i (elems tr).
Proof.
  intros Hh Hs Hc Hsz Hf. pose proof (rounds_size i t).
  destruct (insert_ok F fuel i d t (tnodes t)
    (λ a L', ∃ n, a = root (insert (Entry n i d) t) ∧ L' ≡ₚ tnodes (insert (Entry n i d) t)) Hc Hsz)
    with h as (a & h' & L' & E & Hh' & n & -> & HL'); [lia|done|naive_solver|done|].
  destruct (insert_root (Entry n i d) t Hs) as (tl & e & tr & Ht & Hk & He). rewrite Ht in E, HL'.
  exists tl, e, tr, h'. split_and!; [done|by rewrite <-HL'|done|]. cbn [e_key] in *.
  case_decide; [done|]. by destruct He as (-> & He).
Qed.

(** C3: deletion. On a binary search tree [splaytree_delete] terminates
    without a fault, frees the node of the key if there is one, and the
    entries left, in the same order, are those with another key; size fields
    are right again. *)
Theorem splaytree_delete_correct fuel h F t i :
  owns h (tnodes t) F → sorted (elems t) → comparable i (elems t) → tsize t < 2 ^ 31 →
  (Z.to_nat (tsize t) ≤ fuel)%nat →
  ∃ t' h', splaytree_delete fuel (root t) i h = Ok (root t', h')
    ∧ owns h' (tnodes t') F
    ∧ elems t' = filter (λ a, e_key a ≠ i) (elems t).
Proof.
  intros Hh Hs Hc Hsz Hf. pose proof (delete_rounds_size i t).
  destruct (delete_ok F fuel i t (tnodes t)
    (λ a L', a = root (delete i t) ∧ L' ≡ₚ tnodes (delete i t)) Hs Hc Hsz) with h
    as (a & h' & L' & E & Hh' & -> & HL'); [lia|done|naive_solver|done|].
  exists (delete i t), h'. split; [done|]. split; [by rewrite <-HL'|by apply delete_elems].
Qed.

Lemma nonneg_int_comparable i es :
  0 ≤ i < 2 ^ 31 → Forall (λ a, 0 ≤ e_key a < 2 ^ 31) es → comparable i es.
Proof.
  intros Hi H. eapply Forall_impl; [exact H|]. intros a Ha. simpl in *. unfold in_int, int_min, int_max. lia.
Qed.

(** The keys that [utiltool::hash] yields are safe for [compare]: in a tree
    of such keys no subtraction of keys overflows, so splaying to the hash of
    any string runs without a fault. *)
Theorem hashed_keys_safe fuel h F t s len i :
  hash s len = Ok i →
  Forall (λ a, ∃ s' len', hash s' len' = Ok (e_key a)) (elems t) →
  owns h (tnodes t) F → tsize t < 2 ^ 31 → (Z.to_nat (tsize t) ≤ fuel)%nat →
  is_ok (splaytree_splay fuel (root t) i h).
Proof.
  intros Hi Hk Hh Hsz Hf.
  destruct (splay_ok F fuel i t (tnodes t) (λ _ _, True)) with h
    as (a & h' & L' & E & _); [|done|by etrans; [apply rounds_size|]|done..|by rewrite E].
  apply nonneg_int_comparable; [by eapply hash_range|].
  eapply Forall_impl; [exact Hk|]. intros e (s' & len' & Hh'). by eapply hash_range.
Qed.

Lemma splay_first_compare fuel h p nd i :
  h !! p = Some nd → ¬ in_int (i - nkey nd) →
  splaytree_splay (S fuel) (Some p) i h = Err IntOverflow.
Proof.
  intros Hp Hno. unfold splaytree_splay.
  set (n := fresh (dom h)). assert (n ≠ p) as Hn.
  { intros <-. apply (is_fresh (dom h)). apply elem_of_dom. by exists nd. }
  cbv [mbind hm_bind mret hm_ret outcome_bind alloc set_right set_left load store]. fold n.
  rewrite !lookup_insert_eq. cbn [splay_loop]. cbv [mbind hm_bind load outcome_bind].
  rewrite !lookup_insert_ne, Hp by done.
  unfold lift, compare, int_of. by rewrite decide_False.
Qed.

(** Keys that are 2^31 or more apart make [compare] overflow: splaying, and
    so inserting and deleting, is then undefined at the very first
    comparison. *)
Theorem far_keys_overflow fuel h F tl e tr i :
  owns h (tnodes (Node tl e tr)) F → ¬ in_int (i - e_key e) → (0 < fuel)%nat →
  splaytree_splay fuel (Some (e_loc e)) i h = Err IntOverflow
  ∧ splaytree_insert fuel true (Some (e_loc e)) i 0 h = Err IntOverflow
  ∧ splaytree_delete fuel (Some (e_loc e)) i h = Err IntOverflow.
Proof.
  intros Hh Hno Hf. destruct fuel as [|fuel]; [lia|].
  assert (h !! e_loc e = Some (snd (tn e (root tl) (root tr) (tsize tl + tsize tr + 1)))) as Hp.
  { eapply owns_lookup; [exact Hh|]. apply list_elem_of_here. }
  pose proof (splay_first_compare fuel h (e_loc e) _ i Hp Hno) as E.
  split_and!; [done|..].
  - unfold splaytree_insert. cbv [mbind hm_bind outcome_bind]. by rewrite E.
  - unfold splaytree_delete. cbv [mbind hm_bind outcome_bind load]. by rewrite Hp, E.
Qed.

(** ** Witnesses *)

Lemma owns_self (L : list (loc * tree_node)) : NoDup L.*1 → owns (list_to_map L) L ∅.
Proof. intros Hn. split_and!; [done|done|]. by rewrite right_id_L by apply _. Qed.

(** Keys 1 and 3 of the left child and the root, and a foreign struct. *)
Definition demo_tree : tree := Node (Node Leaf (Entry 4 1 10) Leaf) (Entry 5 3 30) Leaf.
Definition demo_heap : gmap loc tree_node := list_to_map (tnodes demo_tree).

Lemma demo_owns : owns demo_heap (tnodes demo_tree) ∅.
Proof. apply owns_self. vm_compute. repeat constructor; set_solver. Qed.
Lemma demo_sorted : sorted (elems demo_tree).
Proof. repeat constructor. Qed.
Lemma demo_comparable : comparable 2 (elems demo_tree).
Proof. apply nonneg_int_comparable; [lia|repeat constructor; simpl; lia]. Qed.

Lemma splaytree_splay_refines_witness :
  ∃ h', splaytree_splay 2 (root demo_tree) 2 demo_heap = Ok (root (splay 2 demo_tree), h')
        ∧ owns h' (tnodes (splay 2 demo_tree)) ∅.
Proof.
  apply (splaytree_splay_refines 2 demo_heap ∅ demo_tree 2);
    [apply demo_owns|apply demo_comparable|reflexivity|vm_compute; lia].
Defined.

Lemma splaytree_splay_finds_witness :
  ∃ tl e tr h', splaytree_splay 2 (root demo_tree) 2 demo_heap = Ok (Some (e_loc e), h')
    ∧ owns h' (tnodes (Node tl e tr)) ∅ ∧ elems demo_tree = elems tl ++ e :: elems tr
    ∧ if decide (2 ∈ keys (elems demo_tree)) then e_key e = 2
      else below 2 (elems tl) ∧ above 2 (elems tr) ∧ e_key e ≠ 2.
Proof.
  apply (splaytree_splay_finds 2 demo_heap ∅ demo_tree 2);
    [apply demo_owns|apply demo_sorted|apply demo_comparable|reflexivity|vm_compute; lia|discriminate].
Defined.

Lemma splaytree_insert_correct_witness :
  ∃ tl e tr h', splaytree_insert 2 true (root demo_tree) 2 20 demo_heap = Ok (Some (e_loc e), h')
    ∧ owns h' (tnodes (Node tl e tr)) ∅ ∧ e_key e = 2
    ∧ if decide (2 ∈ keys (elems demo_tree)) then elems tl ++ e :: elems tr = elems demo_tree
      else e_data e = 20 ∧ elems demo_tree = elems tl ++ elems tr ∧ below 2 (elems tl) ∧ above 2 (elems tr).
Proof.
  apply (splaytree_insert_correct 2 demo_heap ∅ demo_tree 2 20);
    [apply demo_owns|apply demo_sorted|apply demo_comparable|reflexivity|vm_compute; lia].
Defined.

Lemma splaytree_delete_correct_witness :
  ∃ t' h', splaytree_delete 2 (root demo_tree) 2 demo_heap = Ok (root t', h')
    ∧ owns h' (tnodes t') ∅
    ∧ elems t' = filter (λ a, e_key a ≠ 2) (elems demo_tree).
Proof.
  apply (splaytree_delete_correct 2 demo_heap ∅ demo_tree 2);
    [apply demo_owns|apply demo_sorted|apply demo_comparable|reflexivity|vm_compute; lia].
Defined.

(** The hash of "/" is 47. *)
Definition url_tree : tree := Node Leaf (Entry 1 47 7) Leaf.

Lemma hashed_keys_safe_witness :
  is_ok (splaytree_splay 1 (root url_tree) 97 (list_to_map (tnodes url_tree))).
Proof.
  apply (hashed_keys_safe 1 _ ∅ url_tree (bs "a") 1 97); [reflexivity|repeat constructor| |reflexivity|vm_compute; lia].
  - exists (bs "/"), 1. reflexivity.
  - apply owns_self. vm_compute. repeat constructor; set_solver.
Defined.

Lemma far_keys_overflow_witness :
  splaytree_splay 1 (Some 1%positive) (-2147483648) (list_to_map (tnodes url_tree)) = Err IntOverflow
  ∧ splaytree_insert 1 true (Some 1%positive) (-2147483648) 0 (list_to_map (tnodes url_tree)) = Err IntOverflow
  ∧ splaytree_delete 1 (Some 1%positive) (-2147483648) (list_to_map (tnodes url_tree)) = Err IntOverflow.
Proof.
  apply (far_keys_overflow 1 _ ∅ Leaf (Entry 1 47 7) Leaf (-2147483648)); [|vm_compute; naive_solver|lia].
  apply owns_self. vm_compute. repeat constructor; set_solver.
Defined.
