(* ===== verification/SplayRank.v ===== *)
(** * What the sizes are for: [find_rank] of splaytree.c

    The sizes that every operation keeps make it possible to find a node by its
    rank.  The function that does so, the last one of splaytree.c, is compiled
    out ([#if 0]); it is here as the client that the size fields have in that
    file. *)

From Stdlib Require Import Sorted.
From S2P Require Import Prelude Heap SplayTree SplayHeap SplayRefine.
Open Scope Z_scope.

(** ** The code *)

(** The loop [for (;;)]. *)
Fixpoint find_loop (fuel : nat) (r : Z) (t : ptr) : HM tree_node ptr :=
  match fuel with
  | O => lift Timeout
  | S fuel =>
      n ← load t;
      lsize ← node_size (nleft n);
      if r <? lsize then find_loop fuel r (nleft n)
      else if lsize <? r then
        r ← lift (int_of (r - lsize));
        r ← lift (int_of (r - 1));
        find_loop fuel r (nright n)
      else mret t
  end.

Definition find_rank (fuel : nat) (r : Z) (t : ptr) : HM tree_node ptr :=
  s ← node_size t;
  if (r <? 0) || (s <=? r) then mret None else find_loop fuel r t.

(** ** The node of a rank *)

Fixpoint height (t : tree) : nat :=
  match t with Leaf => 0 | Node l _ r => S (height l `max` height r) end.

Lemma height_size t : Z.of_nat (height t) ≤ tsize t.
Proof. induction t as [|l IHl e r IHr]; cbn; [done|]. lia. Qed.

Lemma find_loop_ok F t : ∀ fuel r L e (Q : ptr → list (loc * tree_node) → Prop),
  tnodes t ⊆ L → tsize t < 2 ^ 31 → (height t ≤ fuel)%nat → 0 ≤ r → elems t !! Z.to_nat r = Some e →
  Q (Some (e_loc e)) L → hwp (find_loop fuel r (root t)) L F Q.
Proof.
  induction t as [|tl IHl x tr IHr]; intros fuel r L e Q HL Hsz Hf Hr He HQ; [done|].
  destruct fuel as [|fuel]; [cbn in Hf; lia|]. cbn [find_loop root]. cbn in Hsz, Hf.
  pose proof (tsize_elems tl) as Hl. pose proof (tsize_elems tr) as Hrs.
  assert (tnodes tl ⊆ L ∧ tnodes tr ⊆ L) as [HLl HLr] by (cbn in HL; set_solver).
  apply hwp_bind. eapply hwp_load; [apply HL, list_elem_of_here|]. cbn [nleft nright].
  apply hwp_bind. apply node_size_ok; [done|]. cbn [elems] in He.
  destruct (Z.ltb_spec r (tsize tl)).
  { rewrite lookup_app_l in He by lia. eapply IHl; (done || lia). }
  rewrite lookup_app_r in He by lia. destruct (Z.ltb_spec (tsize tl) r).
  - apply hwp_bind, hwp_int_of; [|apply hwp_bind, hwp_int_of].
    + apply lookup_lt_Some in He. cbn in He. lia.
    + apply lookup_lt_Some in He. cbn in He. lia.
    + eapply (IHr _ _ L e); [done|lia|lia|lia| |done].
      replace (Z.to_nat r - length (elems tl))%nat with (S (Z.to_nat (r - tsize tl - 1))) in He by lia. done.
  - replace (Z.to_nat r - length (elems tl))%nat with 0%nat in He by lia. injection He as ->. by apply hwp_ret.
Qed.

Lemma filter_split {T} (P : T → Prop) `{!∀ a, Decision (P a)} xs ys :
  Forall P xs → Forall (λ a, ¬ P a) ys → filter P (xs ++ ys) = xs.
Proof.
  induction 1 as [|x xs Hx _ IH]; intros Hys; cbn [app]; [|rewrite filter_cons_True by done; by rewrite IH].
  induction Hys; [done|]. by rewrite filter_cons_False.
Qed.

(** The entry of rank [r] has [r] smaller ones. *)
Lemma rank_counts es i e :
  sorted es → es !! i = Some e → length (filter (λ a, e_key a < e_key e) es) = i.
Proof.
  intros Hs He. pose proof (lookup_lt_Some _ _ _ He) as Hi. rewrite <-(take_drop_middle es i e He) in Hs |- *.
  apply sorted_app in Hs as (_ & Hs & Hlt). rewrite filter_split.
  - rewrite length_take. lia.
  - apply Forall_forall. intros a Ha. apply Hlt; [done|]. set_solver.
  - constructor; [lia|]. apply StronglySorted_inv in Hs as [_ Hgt]. eapply Forall_impl; [exact Hgt|]. cbn. lia.
Qed.

(** ** Property *)

(** On a heap that holds the tree [t] with right size fields, the function
    finds the node of rank [r], without a fault and without a change, in at
    most as many rounds as the tree is high; of an [r] that is no rank there is
    none. In a search tree the rank is the number of smaller keys. *)
Theorem find_rank_correct fuel h F t r :
  owns h (tnodes t) F → tsize t < 2 ^ 31 → (height t ≤ fuel)%nat →
  find_rank fuel r (root t) h = Ok (if decide (0 ≤ r) then e_loc <$> elems t !! Z.to_nat r else None, h)
  ∧ ∀ e, sorted (elems t) → 0 ≤ r → elems t !! Z.to_nat r = Some e →
      Z.of_nat (length (filter (λ a, e_key a < e_key e) (elems t))) = r.
Proof.
  intros Hh Hsz Hf. split; [|intros e Hs Hr He; rewrite (rank_counts _ _ _ Hs He); lia].
  assert (hwp (find_rank fuel r (root t)) (tnodes t) F (λ p L', L' = tnodes t
    ∧ p = (if decide (0 ≤ r) then e_loc <$> elems t !! Z.to_nat r else None))) as H.
  { unfold find_rank. apply hwp_bind, node_size_ok; [done|]. pose proof (tsize_elems t) as Hl.
    destruct (Z.ltb_spec r 0); cbn [orb]; [apply hwp_ret; by rewrite decide_False by lia|].
    rewrite decide_True by lia. destruct (Z.leb_spec (tsize t) r).
    - apply hwp_ret. by rewrite (lookup_ge_None_2 (elems t)) by lia.
    - destruct (lookup_lt_is_Some_2 (elems t) (Z.to_nat r)) as [e He]; [lia|].
      eapply find_loop_ok; [done..|]. by rewrite He. }
  destruct (H h Hh) as (p & h' & L' & E & (_ & _ & Hh') & -> & ->). rewrite E. do 2 f_equal.
  destruct Hh as (_ & _ & ->). by rewrite Hh'.
Qed.

(** ** Witness *)

Lemma find_rank_correct_witness :
  find_rank 2 1 (root demo_tree) demo_heap = Ok (Some 5%positive, demo_heap).
Proof. apply (find_rank_correct 2 demo_heap ∅ demo_tree 1); [apply demo_owns|reflexivity|cbn; lia]. Defined.
