(* ===== verification/SplayCost.v ===== *)
(** * How long splaying takes: the amortised bound

    One call of [splaytree_splay] may visit every node, but a sequence of
    calls takes O(log n) rounds of the loop per call, which is what a splay
    tree is for.  The analysis is the one with a potential, the sum over the
    nodes of the logarithm of the size of their subtrees, in whole numbers; the
    loop of splaytree.c links after a single comparison when the key turns to
    the other side, so that two rounds must be taken together there. *)

From Stdlib Require Import Sorted.
From S2P Require Import Prelude Heap UtilTools SplayTree SplayHeap SplayRefine.

Local Open Scope Z_scope.

(** ** Potential *)

Definition rank (t : tree) : Z := Z.log2 (tsize t).

Fixpoint potential (t : tree) : Z :=
  match t with
  | Leaf => 0
  | Node l _ r => potential l + potential r + rank t
  end.

Lemma rank_nonneg t : 0 ≤ rank t.
Proof. apply Z.log2_nonneg. Qed.
Lemma potential_nonneg t : 0 ≤ potential t.
Proof. induction t as [|l IHl e r IHr]; simpl; [done|]. pose proof (rank_nonneg (Node l e r)). lia. Qed.

Lemma rank_le t t' : tsize t ≤ tsize t' → rank t ≤ rank t'.
Proof. apply Z.log2_le_mono. Qed.

Lemma tsize_pos t : t ≠ Leaf → 0 < tsize t.
Proof. intros H. destruct t; [done|]. pose_sizes. simpl. lia. Qed.

(** Two disjoint parts are not both as high as the whole. *)
Lemma ranks_disjoint t1 t2 t :
  t1 ≠ Leaf → t2 ≠ Leaf → tsize t1 + tsize t2 ≤ tsize t → rank t1 + rank t2 < 2 * rank t.
Proof.
  intros H1 H2 Hs. pose proof (tsize_pos _ H1). pose proof (tsize_pos _ H2).
  assert (rank t1 ≤ rank t) by (apply rank_le; lia). assert (rank t2 ≤ rank t) by (apply rank_le; lia).
  destruct (decide (rank t1 = rank t ∧ rank t2 = rank t)) as [[E1 E2]|]; [exfalso|lia].
  unfold rank in *. pose proof (Z.log2_spec (tsize t) ltac:(lia)) as [_ Hup].
  pose proof (Z.log2_spec (tsize t1) ltac:(lia)) as [Hl1 _]. pose proof (Z.log2_spec (tsize t2) ltac:(lia)) as [Hl2 _].
  rewrite E1 in Hl1. rewrite E2 in Hl2. rewrite Z.pow_succ_r in Hup by apply Z.log2_nonneg. lia.
Qed.

(** A tree of [n] nodes has at most [n * log2 n]. *)
Lemma potential_le t : potential t ≤ tsize t * Z.log2 (tsize t).
Proof.
  assert (∀ t n, tsize t ≤ n → potential t ≤ tsize t * Z.log2 n) as H; [|by apply H].
  clear t. induction t as [|l IHl e r IHr]; intros n Hn; [done|].
  pose proof (tsize_nonneg l). pose proof (tsize_nonneg r). simpl in Hn.
  specialize (IHl n ltac:(lia)). specialize (IHr n ltac:(lia)).
  assert (rank (Node l e r) ≤ Z.log2 n) by (apply Z.log2_le_mono; simpl; lia). simpl in *. lia.
Qed.

(** ** Splaying from the root on *)

Lemma plug_l_app ls ls' t : plug_l (ls ++ ls') t = plug_l ls' (plug_l ls t).
Proof. revert t; induction ls as [|f ls IH]; intros t; simpl; [done|]. apply IH. Qed.
Lemma plug_r_app rs rs' t : plug_r (rs ++ rs') t = plug_r rs' (plug_r rs t).
Proof. revert t; induction rs as [|f rs IH]; intros t; simpl; [done|]. apply IH. Qed.

(** Frames that were there before the descent stay outermost. *)
Lemma splay_down_outer i t : ∀ ls rs,
  splay_down i ls t rs = let '(ls', t', rs') := splay_down i [] t [] in (ls' ++ ls, t', rs' ++ rs).
Proof.
  induction t as [t IH] using tree_size_ind. intros ls rs. destruct t as [|tl e tr]; [done|].
  unfold splay_down; fold splay_down.
  assert (∀ t' f ls0 rs0, tsize t' < tsize (Node tl e tr) →
    splay_down i (f :: ls0) t' rs0
    = let '(ls', t', rs') := splay_down i [f] t' [] in (ls' ++ ls0, t', rs' ++ rs0)) as Hl.
  { intros t' f ls0 rs0 Hs. rewrite (IH _ Hs [f]), (IH _ Hs (f :: ls0)). destruct (splay_down i [] t' []) as [[a b] c].
    cbn. by rewrite <-!app_assoc. }
  assert (∀ t' f ls0 rs0, tsize t' < tsize (Node tl e tr) →
    splay_down i ls0 t' (f :: rs0)
    = let '(ls', t', rs') := splay_down i [] t' [f] in (ls' ++ ls0, t', rs' ++ rs0)) as Hr.
  { intros t' f ls0 rs0 Hs. rewrite (IH _ Hs [] [f]), (IH _ Hs ls0). destruct (splay_down i [] t' []) as [[a b] c].
    cbn. by rewrite <-!app_assoc. }
  clear IH. repeat case_match; simplify_eq; try done;
    (rewrite Hl by (pose_sizes; simpl; lia)) || (rewrite Hr by (pose_sizes; simpl; lia));
    repeat case_match; by simplify_eq.
Qed.

(** The result of splaying as it is put together: what is above the splayed
    subtree goes below its root. *)
Definition hang_r (t : tree) (e : entry) (tr : tree) : tree :=
  match t with Leaf => Leaf | Node a x b => Node a x (Node b e tr) end.
Definition hang_l (tl : tree) (e : entry) (t : tree) : tree :=
  match t with Leaf => Leaf | Node a x b => Node (Node tl e a) x b end.

Lemma plugged_r i t e tr s :
  (match splay_down i [] t [Frame tr e s] with
   | (ls, Node tl x tr, rs) => Node (plug_l ls tl) x (plug_r rs tr) | _ => Leaf end) = hang_r (splay i t) e tr.
Proof.
  rewrite splay_down_outer. unfold splay. destruct (splay_down i [] t []) as [[ls [|a x b]] rs]; [done|].
  by rewrite app_nil_r, plug_r_app.
Qed.
Lemma plugged_l i t tl e s :
  (match splay_down i [Frame tl e s] t [] with
   | (ls, Node tl x tr, rs) => Node (plug_l ls tl) x (plug_r rs tr) | _ => Leaf end) = hang_l tl e (splay i t).
Proof.
  rewrite splay_down_outer. unfold splay. destruct (splay_down i [] t []) as [[ls [|a x b]] rs]; [done|].
  by rewrite app_nil_r, plug_l_app.
Qed.

(** The outcomes of one round: splaying [t] takes [n] rounds and gives [t']. *)
Inductive splays (i : Z) : tree → tree → nat → Prop :=
  | s_stop t : stops i t → splays i t t 1
  | s_rot_r ye yr e tr :
      i < e_key e → i < e_key ye → splays i (Node (Node Leaf ye yr) e tr) (Node Leaf ye (Node yr e tr)) 1
  | s_rot_link_r yl ye yr e tr t' n :
      i < e_key e → i < e_key ye → splays i yl t' n →
      splays i (Node (Node yl ye yr) e tr) (hang_r t' ye (Node yr e tr)) (S n)
  | s_link_r yl ye yr e tr t' n :
      i < e_key e → e_key ye ≤ i → splays i (Node yl ye yr) t' n →
      splays i (Node (Node yl ye yr) e tr) (hang_r t' e tr) (S n)
  | s_rot_l tl e yl ye :
      e_key e < i → e_key ye < i → splays i (Node tl e (Node yl ye Leaf)) (Node (Node tl e yl) ye Leaf) 1
  | s_rot_link_l tl e yl ye yr t' n :
      e_key e < i → e_key ye < i → splays i yr t' n →
      splays i (Node tl e (Node yl ye yr)) (hang_l (Node tl e yl) ye t') (S n)
  | s_link_l tl e yl ye yr t' n :
      e_key e < i → i ≤ e_key ye → splays i (Node yl ye yr) t' n →
      splays i (Node tl e (Node yl ye yr)) (hang_l tl e t') (S n).

Lemma splay_splays i t : t ≠ Leaf → splays i t (splay i t) (rounds i t).
Proof.
  induction t as [t IH] using tree_size_ind. intros Ht. destruct t as [|tl e tr]; [done|].
  unfold splay, splay_down, rounds; fold splay_down rounds.
  destruct (Z.ltb_spec (i - e_key e) 0); [|destruct (Z.ltb_spec 0 (i - e_key e))].
  - destruct tl as [|yl ye yr]; [apply s_stop; simpl; auto with lia|]. destruct (Z.ltb_spec (i - e_key ye) 0).
    + destruct yl; [apply s_rot_r; lia|]. rewrite plugged_r. apply s_rot_link_r; [lia..|].
      apply IH; [pose_sizes; simpl; lia|done].
    + rewrite plugged_r. apply s_link_r; [lia..|]. apply IH; [pose_sizes; simpl; lia|done].
  - destruct tr as [|yl ye yr]; [apply s_stop; simpl; auto with lia|]. destruct (Z.ltb_spec 0 (i - e_key ye)).
    + destruct yr; [apply s_rot_l; lia|]. rewrite plugged_l. apply s_rot_link_l; [lia..|].
      apply IH; [pose_sizes; simpl; lia|done].
    + rewrite plugged_l. apply s_link_l; [lia..|]. apply IH; [pose_sizes; simpl; lia|done].
  - apply s_stop. simpl. left. lia.
Qed.

Lemma hang_r_size t e tr : t ≠ Leaf → tsize (hang_r t e tr) = tsize t + tsize tr + 1.
Proof. destruct t; [done|]. simpl. lia. Qed.
Lemma hang_l_size tl e t : t ≠ Leaf → tsize (hang_l tl e t) = tsize tl + tsize t + 1.
Proof. destruct t; [done|]. simpl. lia. Qed.

Lemma stops_node i t : stops i t → t ≠ Leaf.
Proof. by intros H ->. Qed.
Lemma hang_r_node t e tr : t ≠ Leaf → hang_r t e tr ≠ Leaf.
Proof. by destruct t. Qed.
Lemma hang_l_node tl e t : t ≠ Leaf → hang_l tl e t ≠ Leaf.
Proof. by destruct t. Qed.

Lemma splays_size i t t' n : splays i t t' n → tsize t' = tsize t ∧ t ≠ Leaf ∧ t' ≠ Leaf.
Proof.
  induction 1; repeat match goal with H : _ ∧ _ |- _ => destruct H end;
    split_and!; rewrite ?hang_r_size, ?hang_l_size by done;
    eauto using stops_node, hang_r_node, hang_l_node; try done; simpl in *; lia.
Qed.

(** ** The bound of one call *)

(** [n] rounds and twice the change of the potential. *)
Definition bounded (t t' : tree) (n : nat) : Prop :=
  Z.of_nat n + 2 * (potential t' - potential t) ≤ 6 * rank t + 1.

(** The changes of rank that pay: of a rotation with a link; of two links to
    different sides; of a link and a rotation with a link to the other side.
    [z'], [y'] and [w'] are the nodes of before with new subtrees. *)
Section pays.
Context (t T y y' z' : tree) (HT : T ≠ Leaf) (Hz : z' ≠ Leaf).
Context (HTy : tsize T ≤ tsize y) (Hyt : tsize y ≤ tsize t) (Hy' : tsize y' ≤ tsize t).

Lemma zigzig_pays :
  tsize z' + tsize T ≤ tsize t → 1 + 2 * (rank z' + rank y' - rank y - rank T) ≤ 6 * (rank t - rank T).
Proof.
  intros H%ranks_disjoint; [|done..]. apply rank_le in HTy, Hyt, Hy'. lia.
Qed.
Lemma zigzag_pays :
  y' ≠ Leaf → tsize y' + tsize z' ≤ tsize t → 2 + 2 * (rank z' + rank y' - rank y - rank T) ≤ 6 * (rank t - rank T).
Proof.
  intros Hl H%ranks_disjoint; [|done..]. apply rank_le in HTy, Hyt, Hy'. lia.
Qed.
Lemma zigzagzig_pays w w' :
  w' ≠ Leaf → tsize w' + tsize z' ≤ tsize t → tsize T ≤ tsize w → tsize w ≤ tsize y →
  2 + 2 * (rank z' + rank y' + rank w' - rank y - rank w - rank T) ≤ 6 * (rank t - rank T).
Proof.
  intros Hl H%ranks_disjoint; [|done..]. intros HTw Hwy. apply rank_le in HTy, Hyt, Hy', HTw, Hwy. lia.
Qed.
End pays.

Lemma rank_eq t t' : tsize t = tsize t' → rank t = rank t'.
Proof. unfold rank. by intros ->. Qed.

(** Sizes of trees whose constructors are known. *)
Ltac sizes := pose_sizes; simpl in *; lia.

(** One round that rotates and links. *)
Lemma bounded_zigzig_r yl ye yr e tr T' n :
  yl ≠ Leaf → T' ≠ Leaf → tsize T' = tsize yl → bounded yl T' n →
  bounded (Node (Node yl ye yr) e tr) (hang_r T' ye (Node yr e tr)) (S n).
Proof.
  intros HT HT' Hs Hb. destruct T' as [|a x b]; [done|]. unfold bounded, hang_r in *. cbn [potential] in *.
  pose proof (zigzig_pays (Node (Node yl ye yr) e tr) yl (Node yl ye yr) (Node b ye (Node yr e tr)) (Node yr e tr)
    HT ltac:(done) ltac:(sizes) ltac:(sizes) ltac:(sizes) ltac:(sizes)).
  rewrite (rank_eq (Node a x b) yl Hs) in Hb.
  rewrite (rank_eq (Node a x (Node b ye (Node yr e tr))) (Node (Node yl ye yr) e tr)) by sizes. lia.
Qed.
Lemma bounded_zigzig_l tl e yl ye yr T' n :
  yr ≠ Leaf → T' ≠ Leaf → tsize T' = tsize yr → bounded yr T' n →
  bounded (Node tl e (Node yl ye yr)) (hang_l (Node tl e yl) ye T') (S n).
Proof.
  intros HT HT' Hs Hb. destruct T' as [|a x b]; [done|]. unfold bounded, hang_l in *. cbn [potential] in *.
  pose proof (zigzig_pays (Node tl e (Node yl ye yr)) yr (Node yl ye yr) (Node (Node tl e yl) ye a) (Node tl e yl)
    HT ltac:(done) ltac:(sizes) ltac:(sizes) ltac:(sizes) ltac:(sizes)).
  rewrite (rank_eq (Node a x b) yr Hs) in Hb.
  rewrite (rank_eq (Node (Node (Node tl e yl) ye a) x b) (Node tl e (Node yl ye yr))) by sizes. lia.
Qed.

(** Two rounds that link, to different sides. *)
Lemma bounded_zigzag_r yl ye yr e tr T' n :
  yr ≠ Leaf → T' ≠ Leaf → tsize T' = tsize yr → bounded yr T' n →
  bounded (Node (Node yl ye yr) e tr) (hang_r (hang_l yl ye T') e tr) (S (S n)).
Proof.
  intros HT HT' Hs Hb. destruct T' as [|a x b]; [done|]. unfold bounded, hang_r, hang_l in *. cbn [potential] in *.
  pose proof (zigzag_pays (Node (Node yl ye yr) e tr) yr (Node yl ye yr) (Node yl ye a) (Node b e tr)
    ltac:(done) ltac:(sizes) ltac:(sizes) ltac:(sizes) ltac:(done) ltac:(sizes)).
  rewrite (rank_eq (Node a x b) yr Hs) in Hb.
  rewrite (rank_eq (Node (Node yl ye a) x (Node b e tr)) (Node (Node yl ye yr) e tr)) by sizes. lia.
Qed.
Lemma bounded_zigzag_l tl e yl ye yr T' n :
  yl ≠ Leaf → T' ≠ Leaf → tsize T' = tsize yl → bounded yl T' n →
  bounded (Node tl e (Node yl ye yr)) (hang_l tl e (hang_r T' ye yr)) (S (S n)).
Proof.
  intros HT HT' Hs Hb. destruct T' as [|a x b]; [done|]. unfold bounded, hang_r, hang_l in *. cbn [potential] in *.
  pose proof (zigzag_pays (Node tl e (Node yl ye yr)) yl (Node yl ye yr) (Node b ye yr) (Node tl e a)
    ltac:(done) ltac:(sizes) ltac:(sizes) ltac:(sizes) ltac:(done) ltac:(sizes)).
  rewrite (rank_eq (Node a x b) yl Hs) in Hb.
  rewrite (rank_eq (Node (Node tl e a) x (Node b ye yr)) (Node tl e (Node yl ye yr))) by sizes. lia.
Qed.

(** A round that links, and one that rotates and links to the other side. *)
Lemma bounded_zigzagzig_r yl ye wl we wr e tr T' n :
  wr ≠ Leaf → T' ≠ Leaf → tsize T' = tsize wr → bounded wr T' n →
  bounded (Node (Node yl ye (Node wl we wr)) e tr) (hang_r (hang_l (Node yl ye wl) we T') e tr) (S (S n)).
Proof.
  intros HT HT' Hs Hb. destruct T' as [|a x b]; [done|]. unfold bounded, hang_r, hang_l in *. cbn [potential] in *.
  pose proof (zigzagzig_pays (Node (Node yl ye (Node wl we wr)) e tr) wr (Node yl ye (Node wl we wr)) (Node yl ye wl)
    (Node b e tr) ltac:(done) ltac:(sizes) ltac:(sizes) ltac:(sizes) (Node wl we wr) (Node (Node yl ye wl) we a)
    ltac:(done) ltac:(sizes) ltac:(sizes) ltac:(sizes)).
  rewrite (rank_eq (Node a x b) wr Hs) in Hb.
  rewrite (rank_eq (Node (Node (Node yl ye wl) we a) x (Node b e tr)) (Node (Node yl ye (Node wl we wr)) e tr)) by sizes. lia.
Qed.
Lemma bounded_zigzagzig_l tl e wl we wr ye yr T' n :
  wl ≠ Leaf → T' ≠ Leaf → tsize T' = tsize wl → bounded wl T' n →
  bounded (Node tl e (Node (Node wl we wr) ye yr)) (hang_l tl e (hang_r T' we (Node wr ye yr))) (S (S n)).
Proof.
  intros HT HT' Hs Hb. destruct T' as [|a x b]; [done|]. unfold bounded, hang_r, hang_l in *. cbn [potential] in *.
  pose proof (zigzagzig_pays (Node tl e (Node (Node wl we wr) ye yr)) wl (Node (Node wl we wr) ye yr) (Node wr ye yr)
    (Node tl e a) ltac:(done) ltac:(sizes) ltac:(sizes) ltac:(sizes) (Node wl we wr) (Node b we (Node wr ye yr))
    ltac:(done) ltac:(sizes) ltac:(sizes) ltac:(sizes)).
  rewrite (rank_eq (Node a x b) wl Hs) in Hb.
  rewrite (rank_eq (Node (Node tl e a) x (Node b we (Node wr ye yr))) (Node tl e (Node (Node wl we wr) ye yr))) by sizes. lia.
Qed.

(** At most two rounds, and at most one node that rises. *)
Lemma bounded_last t t' n :
  (n ≤ 2)%nat → 2 ≤ tsize t → potential t' ≤ potential t + rank t → bounded t t' n.
Proof.
  intros Hn Hs Hp. assert (1 ≤ rank t) by (change 1 with (Z.log2 2); by apply Z.log2_le_mono). unfold bounded. lia.
Qed.

Ltac rank_below a b := assert (rank a ≤ rank b) by (apply rank_le; sizes).

(** A round that links only: what comes next decides. *)
Section link.
Context (i : Z) (n : nat) (IH : ∀ m t t', (m < n)%nat → splays i t t' m → bounded t t' m).

Ltac by_IH H := let Hs := fresh in apply splays_size in H as Hs; destruct Hs as (?&?&?).

Lemma bounded_link_r yl ye yr e tr y' :
  i < e_key e → e_key ye ≤ i → splays i (Node yl ye yr) y' n →
  bounded (Node (Node yl ye yr) e tr) (hang_r y' e tr) (S n).
Proof.
  intros ?? H. inversion H as [? Hst| | | |? ? wl we ? ?|? ? wl we wr T' m ? ? HT|? ? wl we wr T' m ? ? HT]; subst; try lia.
  - apply bounded_last; [lia|sizes|]. cbn [hang_r potential]. set (t := Node (Node yl ye yr) e tr).
    rank_below (Node yr e tr) t. rank_below (Node yl ye (Node yr e tr)) t.
    pose proof (rank_nonneg (Node yl ye yr)). lia.
  - apply bounded_last; [lia|sizes|]. cbn [hang_r potential]. set (t := Node (Node yl ye (Node wl we Leaf)) e tr).
    rank_below (Node (Node yl ye wl) we (Node Leaf e tr)) t. rank_below (Node Leaf e tr) t.
    rank_below (Node yl ye wl) (Node yl ye (Node wl we Leaf)). pose proof (rank_nonneg (Node wl we Leaf)). lia.
  - by_IH HT. apply bounded_zigzagzig_r; auto with lia.
  - by_IH HT. apply bounded_zigzag_r; auto with lia.
Qed.

Lemma bounded_link_l tl e yl ye yr y' :
  e_key e < i → i ≤ e_key ye → splays i (Node yl ye yr) y' n →
  bounded (Node tl e (Node yl ye yr)) (hang_l tl e y') (S n).
Proof.
  intros ?? H. inversion H as [? Hst|wl we ? ? ? ?|wl we wr ? ? T' m ? ? HT|wl we wr ? ? T' m ? ? HT| | |]; subst; try lia.
  - apply bounded_last; [lia|sizes|]. cbn [hang_l potential]. set (t := Node tl e (Node yl ye yr)).
    rank_below (Node tl e yl) t. rank_below (Node (Node tl e yl) ye yr) t.
    pose proof (rank_nonneg (Node yl ye yr)). lia.
  - match goal with |- context [hang_l tl e (Node Leaf ?we (Node ?wr ye yr))] => 
      apply bounded_last; [lia|sizes|]; cbn [hang_l potential]; set (t := Node tl e (Node (Node Leaf we wr) ye yr));
      rank_below (Node (Node tl e Leaf) we (Node wr ye yr)) t; rank_below (Node tl e Leaf) t;
      rank_below (Node wr ye yr) (Node (Node Leaf we wr) ye yr); pose proof (rank_nonneg (Node Leaf we wr)); lia end.
  - by_IH HT. apply bounded_zigzagzig_l; auto with lia.
  - by_IH HT. apply bounded_zigzag_l; auto with lia.
Qed.
End link.

Lemma splays_bounded i n : ∀ t t', splays i t t' n → bounded t t' n.
Proof.
  induction n as [n IH] using lt_wf_ind. intros t t' H.
  destruct H as [t H|ye yr e tr ? ?|yl ye yr e tr T' n ? ? H|yl ye yr e tr y' n ? ? H
                |tl e yl ye ? ?|tl e yl ye yr T' n ? ? H|tl e yl ye yr y' n ? ? H].
  - unfold bounded. pose proof (rank_nonneg t). lia.
  - apply bounded_last; [lia|sizes|]. cbn [potential]. set (t := Node (Node Leaf ye yr) e tr).
    rank_below (Node yr e tr) t. rank_below (Node Leaf ye (Node yr e tr)) t.
    pose proof (rank_nonneg (Node Leaf ye yr)). lia.
  - apply splays_size in H as Hs. destruct Hs as (?&?&?). apply bounded_zigzig_r; auto.
  - apply bounded_link_r with i; auto with lia.
  - apply bounded_last; [lia|sizes|]. cbn [potential]. set (t := Node tl e (Node yl ye Leaf)).
    rank_below (Node tl e yl) t. rank_below (Node (Node tl e yl) ye Leaf) t.
    pose proof (rank_nonneg (Node yl ye Leaf)). lia.
  - apply splays_size in H as Hs. destruct Hs as (?&?&?). apply bounded_zigzig_l; auto.
  - apply bounded_link_l with i; auto with lia.
Qed.

(** ** Whole operations *)

Lemma splay_bounded i t : bounded t (splay i t) (rounds i t).
Proof.
  destruct t as [|l e r] eqn:E; [unfold bounded; cbn; lia|]. rewrite <-E. eapply splays_bounded, splay_splays. by rewrite E.
Qed.

Lemma insert_bounded e t :
  Z.of_nat (rounds (e_key e) t) + 2 * (potential (insert e t) - potential t) ≤ 8 * Z.log2 (tsize t + 1) + 1.
Proof.
  pose proof (splay_bounded (e_key e) t) as Hb. pose proof (splay_size (e_key e) t) as Hs. unfold bounded in Hb.
  pose proof (Z.log2_nonneg (tsize t + 1)).
  assert (rank t ≤ Z.log2 (tsize t + 1)) by (apply Z.log2_le_mono; lia). unfold insert.
  destruct (splay (e_key e) t) as [|tl re tr]; [cbn [potential tsize] in *; change (rank (Node Leaf e Leaf)) with 0; lia|]. set (t' := Node tl re tr) in *.
  assert (∀ u, tsize u = tsize t + 1 → rank u = Z.log2 (tsize t + 1)) as Hr by (by unfold rank; intros ? ->).
  repeat case_match; cbn [potential]; [lia|..].
  - rewrite (Hr (Node tl e _)) by sizes. rank_below (Node Leaf re tr) t'. cbn [potential t'] in Hb. fold t' in Hb. lia.
  - rewrite (Hr (Node _ e tr)) by sizes. rank_below (Node tl re Leaf) t'. cbn [potential t'] in Hb. fold t' in Hb. lia.
Qed.

Lemma delete_bounded i t :
  Z.of_nat (delete_rounds i t) + 2 * (potential (delete i t) - potential t) ≤ 12 * Z.log2 (tsize t) + 2.
Proof.
  pose proof (splay_bounded i t) as Hb. pose proof (splay_size i t) as Hs. unfold bounded in Hb. fold (rank t).
  pose proof (rank_nonneg t). unfold delete, delete_rounds.
  destruct (splay i t) as [|tl e tr] eqn:E; [lia|]. rewrite <-E in Hb.
  pose proof (splay_bounded i tl) as Hb2. pose proof (splay_size i tl) as Hs2. unfold bounded in Hb2.
  rank_below tl t. rewrite E in Hb. cbn [potential] in Hb. rewrite (rank_eq (Node tl e tr) t) in Hb by sizes.
  destruct (i - e_key e =? 0); [|cbn [potential]; rewrite (rank_eq (Node tl e tr) t) by sizes; lia].
  pose proof (potential_nonneg tl).
  destruct (splay i tl) as [|xl xe xr]; [cbn [potential] in *; lia|]. rank_below (Node xl xe tr) t.
  cbn [potential] in *. pose proof (potential_nonneg xr). pose proof (rank_nonneg (Node xl xe xr)). lia.
Qed.

(** ** Sequences of operations *)

Inductive operation := Splay (i : Z) | Insert (i data : Z) | Delete (i : Z).
Definition op_key (o : operation) : Z := match o with Splay i | Insert i _ | Delete i => i end.

(** A call; its [fuel] bounds the rounds of each of its loops. *)
Definition call (fuel : nat) (o : operation) (t : ptr) : HM tree_node ptr :=
  match o with
  | Splay i => splaytree_splay fuel t i
  | Insert i data => splaytree_insert fuel true t i data
  | Delete i => splaytree_delete fuel t i
  end.
(** One call after another, with the pairs of fuel and operation. *)
Fixpoint call_all (os : list (nat * operation)) (t : ptr) : HM tree_node ptr :=
  match os with
  | [] => mret t
  | (fuel, o) :: os => t ← call fuel o t; call_all os t
  end.

(** What they do to the set of keys. *)
Definition key_set (t : tree) : gset Z := list_to_set (keys (elems t)).
Definition op_keys (o : operation) (ks : gset Z) : gset Z :=
  match o with Splay _ => ks | Insert i _ => {[ i ]} ∪ ks | Delete i => ks ∖ {[ i ]} end.

Definition key_ok (i : Z) : Prop := 0 ≤ i < 2 ^ 31.

(** A search tree with keys that [compare] can subtract. *)
Definition good (t : tree) : Prop := sorted (elems t) ∧ Forall key_ok (keys (elems t)).

Lemma good_comparable i t : key_ok i → good t → comparable i (elems t).
Proof. intros Hi [_ Hk]. apply nonneg_int_comparable; [done|]. unfold keys in Hk. by rewrite Forall_fmap in Hk. Qed.

Lemma good_same t t' : elems t' = elems t → good t → good t' ∧ key_set t' = key_set t.
Proof. unfold good, key_set. by intros ->. Qed.

Lemma sorted_insert e xs ys :
  sorted (xs ++ ys) → below (e_key e) xs → above (e_key e) ys → sorted (xs ++ e :: ys).
Proof.
  unfold below, above. rewrite !Forall_forall. intros (Hx & Hy & Hxy)%sorted_app Hb Ha.
  apply sorted_app. split_and!; [done| |].
  - constructor; [done|]. by apply Forall_forall.
  - intros a b Hin [->|?]%elem_of_cons; [by apply Hb|by apply Hxy].
Qed.

Lemma good_insert e t : key_ok (e_key e) → good t → good (insert e t) ∧ key_set (insert e t) = {[ e_key e ]} ∪ key_set t.
Proof.
  intros He [Hs Hk]. pose proof (insert_elems e t Hs) as H. unfold good, key_set. case_decide as Hin.
  - rewrite H. split; [done|].
    apply (elem_of_list_to_set (C := gset Z)) in Hin. set_solver.
  - destruct H as (xs & ys & Et & E & Hb & Ha). rewrite E. rewrite Et in *. unfold keys in *. split; [split|].
    + by apply sorted_insert.
    + rewrite fmap_app, Forall_app in *. rewrite fmap_cons, Forall_cons. naive_solver.
    + rewrite !fmap_app, fmap_cons, !list_to_set_app_L, list_to_set_cons. set_solver.
Qed.

Lemma sorted_filter (P : entry → Prop) `{∀ a, Decision (P a)} es : sorted es → sorted (filter P es).
Proof.
  induction 1 as [|a es Hs IH Ha]; [constructor|]. rewrite filter_cons. case_decide; [|done].
  constructor; [done|]. rewrite Forall_forall in *. intros b [_ Hb]%list_elem_of_filter. auto.
Qed.

Lemma good_delete i t : good t → good (delete i t) ∧ key_set (delete i t) = key_set t ∖ {[ i ]}.
Proof.
  intros [Hs Hk]. unfold good, key_set. rewrite (delete_elems i t Hs). split; [split|].
  - by apply sorted_filter.
  - unfold keys in *. rewrite Forall_fmap, Forall_forall in *. intros b [_ Hb]%list_elem_of_filter. auto.
  - apply set_eq. intros k. unfold keys. rewrite elem_of_difference, !elem_of_list_to_set, !list_elem_of_fmap.
    setoid_rewrite list_elem_of_filter. set_solver.
Qed.

Lemma insert_size e t : tsize (insert e t) ≤ tsize t + 1.
Proof.
  pose proof (splay_size (e_key e) t) as Hs. unfold insert. pose_sizes.
  destruct (splay (e_key e) t); repeat case_match; simpl in *; lia.
Qed.
Lemma delete_size i t : tsize (delete i t) ≤ tsize t.
Proof.
  pose proof (splay_size i t) as Hs. unfold delete. destruct (splay i t) as [|tl e tr]; [simpl in *; lia|].
  pose proof (splay_size i tl) as Hs'. case_match; [|simpl in *; lia]. destruct (splay i tl); sizes.
Qed.

(** One call, with as much fuel as its loops take rounds. *)
Lemma call_costs F h t o :
  owns h (tnodes t) F → good t → key_ok (op_key o) → tsize t + 1 < 2 ^ 31 →
  ∃ t' h' k, call k o (root t) h = Ok (root t', h') ∧ owns h' (tnodes t') F
    ∧ good t' ∧ key_set t' = op_keys o (key_set t) ∧ tsize t' ≤ tsize t + 1
    ∧ Z.of_nat k + 2 * (potential t' - potential t) ≤ 12 * Z.log2 (tsize t + 1) + 2.
Proof.
  intros Hh Hg Hi Hsz. pose proof (good_comparable _ _ Hi Hg) as Hc. pose proof Hg as [Hso _].
  assert (rank t ≤ Z.log2 (tsize t + 1)) by (apply Z.log2_le_mono; lia). pose proof (Z.log2_nonneg (tsize t + 1)).
  destruct o as [i|i d|i]; cbn [op_key] in *.
  - destruct (splay_ok F (rounds i t) i t (tnodes t) (λ a L', a = root (splay i t) ∧ L' ≡ₚ tnodes (splay i t)) Hc) with h
      as (a & h' & L' & E & Hh' & -> & HL'); [lia|done|done|naive_solver|done|].
    exists (splay i t), h', (rounds i t). rewrite splay_size. pose proof (splay_bounded i t). unfold bounded in *.
    destruct (good_same t (splay i t) (splay_elems i t) Hg). split_and!; [done|by rewrite <-HL'|done..|lia|lia].
  - destruct (insert_ok F (rounds i t) i d t (tnodes t)
      (λ a L', ∃ n, a = root (insert (Entry n i d) t) ∧ L' ≡ₚ tnodes (insert (Entry n i d) t)) Hc) with h
      as (a & h' & L' & E & Hh' & n & -> & HL'); [lia|done|done|naive_solver|done|].
    exists (insert (Entry n i d) t), h', (rounds i t). pose proof (insert_bounded (Entry n i d) t) as Hb.
    cbn [e_key] in Hb. destruct (good_insert (Entry n i d) t Hi Hg).
    split_and!; [done|by rewrite <-HL'|done..|apply insert_size|lia].
  - destruct (delete_ok F (delete_rounds i t) i t (tnodes t)
      (λ a L', a = root (delete i t) ∧ L' ≡ₚ tnodes (delete i t)) Hso Hc) with h
      as (a & h' & L' & E & Hh' & -> & HL'); [lia|done|done|naive_solver|done|].
    exists (delete i t), h', (delete_rounds i t). pose proof (delete_bounded i t). pose proof (delete_size i t).
    destruct (good_delete i t Hg). unfold rank in *. split_and!; [done|by rewrite <-HL'|done..|lia|lia].
Qed.

Lemma calls_cost os : ∀ F h t N,
  owns h (tnodes t) F → good t → Forall (λ o, key_ok (op_key o)) os →
  tsize t + Z.of_nat (length os) ≤ N → N < 2 ^ 31 →
  ∃ ks t' h', length ks = length os ∧ call_all (zip ks os) (root t) h = Ok (root t', h')
    ∧ owns h' (tnodes t') F ∧ good t' ∧ key_set t' = foldl (flip op_keys) (key_set t) os
    ∧ Z.of_nat (sum_list ks) + 2 * (potential t' - potential t) ≤ Z.of_nat (length os) * (12 * Z.log2 N + 2).
Proof.
  induction os as [|o os IH]; intros F h t N Hh Hg Hos Hsz HN.
  { exists [], t, h. split_and!; try done. simpl. lia. }
  apply Forall_cons in Hos as [Ho Hos]. cbn [length] in *.
  destruct (call_costs F h t o Hh Hg Ho ltac:(lia)) as (t1 & h1 & k & E & Hh1 & Hg1 & Hk1 & Hs1 & Hc1).
  destruct (IH F h1 t1 N Hh1 Hg1 Hos ltac:(lia) HN) as (ks & t' & h' & Hl & Er & Hh' & Hg' & Hk' & Hc).
  exists (k :: ks), t', h'. split_and!; [by simpl; rewrite Hl| |done..|by simpl; rewrite Hk', Hk1|].
  - simpl. unfold mbind, hm_bind. by rewrite E.
  - assert (Z.log2 (tsize t + 1) ≤ Z.log2 N) by (apply Z.log2_le_mono; lia).
    simpl sum_list. lia.
Qed.

(** ** Property *)

(** C4: splaying is fast on average. For any sequence of [m] lookups,
    insertions and deletions by keys such as [utiltool::hash] yields, from any
    binary search tree of [n] nodes: the calls of splaytree.c end well, one
    after another, and leave a binary search tree with the keys that a set
    would have; and the numbers of rounds within which their loops end add up to
    at most [m * (12 * log2 (n + m) + 2)], but for [2 * n * log2 n] at the
    beginning. A single call may take [n] rounds. *)
Theorem splay_operations_amortised os F h t :
  let n := tsize t in let m := Z.of_nat (length os) in
  owns h (tnodes t) F → sorted (elems t) → Forall key_ok (keys (elems t)) →
  Forall (λ o, key_ok (op_key o)) os → n + m < 2 ^ 31 →
  ∃ ks t' h', length ks = length os ∧ call_all (zip ks os) (root t) h = Ok (root t', h')
    ∧ owns h' (tnodes t') F ∧ sorted (elems t') ∧ key_set t' = foldl (flip op_keys) (key_set t) os
    ∧ Z.of_nat (sum_list ks) ≤ m * (12 * Z.log2 (n + m) + 2) + 2 * (n * Z.log2 n).
Proof.
  intros n m Hh Hs Hk Hos Hsz.
  destruct (calls_cost os F h t (n + m) Hh (conj Hs Hk) Hos ltac:(lia) Hsz)
    as (ks & t' & h' & Hl & E & Hh' & [Hs' _] & Hk' & Hc).
  exists ks, t', h'. split_and!; [done..|]. pose proof (potential_nonneg t'). pose proof (potential_le t). unfold n, m in *. lia.
Qed.

(** A chain of [n] nodes: looking for a key below all of them takes about half
    as many rounds, which is why single calls have no such bound. *)
Fixpoint chain (n : nat) : tree :=
  match n with O => Leaf | S n => Node (chain n) (Entry (Pos.of_succ_nat n) (Z.of_nat (S n)) 0) Leaf end.

Theorem single_call_linear n : rounds 0 (chain (2 * n)) = n ∧ tsize (chain (2 * n)) = 2 * Z.of_nat n.
Proof.
  induction n as [|n [IHr IHs]]; [done|]. replace (2 * S n)%nat with (S (S (2 * n))) by lia. split.
  - destruct n as [|n]; [done|]. cbn [chain].
    rewrite rounds_rot_link_r; [by rewrite IHr|cbn [e_key]; lia..|]. by replace (2 * S n)%nat with (S (S (2 * n))) by lia.
  - cbn [chain tsize]. rewrite IHs. lia.
Qed.

(** ** Witness *)

(** Eight insertions in order, which build a chain; lookups, and a deletion. *)
Definition demo_ops : list operation :=
  ((λ k, Insert (Z.of_nat k) 0) <$> seq 1 8) ++ [Splay 1; Splay 5; Delete 4; Splay 100].

Lemma splay_operations_amortised_witness :
  ∃ ks t' h', length ks = length demo_ops ∧ call_all (zip ks demo_ops) None ∅ = Ok (root t', h')
    ∧ owns h' (tnodes t') ∅ ∧ sorted (elems t') ∧ key_set t' = foldl (flip op_keys) (key_set Leaf) demo_ops
    ∧ Z.of_nat (sum_list ks) ≤ 12 * (12 * Z.log2 (0 + 12) + 2) + 2 * (0 * Z.log2 0).
Proof.
  apply (splay_operations_amortised demo_ops ∅ ∅ Leaf);
    [|constructor|constructor|by repeat (constructor; [vm_compute; split; congruence|])|reflexivity].
  split_and!; [constructor|done|done].
Defined.
