(* ===== verification/Buffer.v ===== *)
(** * buffer.cpp: the growable byte buffer

    [push_back] copies to [_ptr + _len] and grows the allocation first when the
    new length would pass two thirds of it, but no function ever advances
    [_len].  The theorems state what the class therefore does: every push
    overwrites the front of the buffer, [length()] stays 0, and growing drops
    what was there; and the sizes for which it stays within its allocation. *)

From S2P Require Import Prelude.

Local Open Scope Z_scope.

Definition BUFSIZE : Z := 1024.

(** ** Data and operations *)

Record buffer := Buffer {
  b_ptr : bytes;     (* the allocation behind [_ptr] *)
  b_size : Z;        (* [_size] *)
  b_len : Z          (* [_len] *)
}.

Definition calloc (n : Z) : bytes := replicate (Z.to_nat n) NUL.

Definition buffer_new : buffer := Buffer (calloc BUFSIZE) BUFSIZE 0.

(** [unsigned int length()] *)
Definition length_ (b : buffer) : Z := uint (b_len b).

Definition expand (b : buffer) : outcome (buffer * bool) :=
  size2 ← int_of (2 * b_size b);
  new_ptr ← memcpy (calloc size2) 0 (b_ptr b) 0 (b_len b);
  Ok (Buffer new_ptr size2 (b_len b), true).

Definition push_back (b : buffer) (buf : bytes) (len : Z) : outcome buffer :=
  n ← int_of (len + b_len b);
  s2 ← int_of (2 * b_size b);
  '(b, ok) ← (if Z.quot s2 3 <? n then expand b else Ok (b, true));
  if negb ok then Ok b
  else
    p ← memcpy (b_ptr b) (Z.to_nat (b_len b)) buf 0 len;
    Ok (Buffer p (b_size b) (b_len b)).

(** A sequence of pushes of whole chunks. *)
Fixpoint push_all (b : buffer) (chunks : list bytes) : outcome buffer :=
  match chunks with
  | [] => Ok b
  | c :: chunks => b ← push_back b c (Z.of_nat (length c)); push_all b chunks
  end.

(** ** Invariant *)

(** [_size] is the allocation and [_len] has never moved. *)
Definition buffer_wf (b : buffer) : Prop :=
  Z.of_nat (length (b_ptr b)) = b_size b ∧ b_len b = 0 ∧ BUFSIZE ≤ b_size b < 2 ^ 29.

Lemma buffer_new_wf : buffer_wf buffer_new.
Proof. split_and!; vm_compute; done. Qed.

Lemma length_calloc n : 0 ≤ n → Z.of_nat (length (calloc n)) = n.
Proof. intros. unfold calloc. rewrite length_replicate. lia. Qed.

(** Whether a push of [n] bytes grows the buffer. *)
Definition grows (b : buffer) (n : Z) : bool := Z.quot (2 * b_size b) 3 <? n.

Lemma expand_wf b :
  buffer_wf b → expand b = Ok (Buffer (calloc (2 * b_size b)) (2 * b_size b) 0, true).
Proof.
  intros (Hp & Hl & Hs). unfold expand. rewrite int_of_small by lia. rewrite bind_ok.
  rewrite Hl, (memcpy_ok _ _ _ _ 0) by lia. done.
Qed.

Lemma push_back_wf b (c : bytes) :
  buffer_wf b → Z.of_nat (length c) ≤ b_size b → 
  push_back b c (Z.of_nat (length c)) =
    Ok (if grows b (Z.of_nat (length c))
        then Buffer (c ++ drop (length c) (calloc (2 * b_size b))) (2 * b_size b) 0
        else Buffer (c ++ drop (length c) (b_ptr b)) (b_size b) 0).
Proof.
  intros Hwf Hc. pose proof Hwf as (Hp & Hl & Hs). unfold push_back, grows.
  rewrite Hl, Z.add_0_r, !int_of_small, !bind_ok by lia.
  case_match eqn:Hg.
  - rewrite expand_wf, bind_ok by done. simpl.
    pose proof (length_calloc (2 * b_size b) ltac:(lia)).
    rewrite memcpy_ok by lia. simpl. by rewrite drop_0, take_ge.
  - rewrite bind_ok. simpl. rewrite Hl. rewrite memcpy_ok by lia. simpl. by rewrite drop_0, take_ge.
Qed.

(** [push_back] reads no more than [len] bytes of what it is given. *)
Lemma memcpy_src_prefix dst d (c t : bytes) :
  memcpy dst d (c ++ t) 0 (Z.of_nat (length c)) = memcpy dst d c 0 (Z.of_nat (length c)).
Proof.
  unfold memcpy. rewrite length_app. case_decide; case_decide; [|lia|lia|done].
  by rewrite Nat2Z.id, !drop_0, take_app_length, (take_ge c) by lia.
Qed.

Lemma push_back_prefix b (c t : bytes) :
  push_back b c (Z.of_nat (length c)) = push_back b (c ++ t) (Z.of_nat (length c)).
Proof.
  unfold push_back. apply bind_cong; intros n. apply bind_cong; intros s2. apply bind_cong; intros [b' ok].
  destruct ok; [|done]. cbn. by rewrite memcpy_src_prefix.
Qed.

(** Chunks as [read] delivers them: the size settles at 2048. *)
Definition small (b : buffer) : Prop := b_size b = 1024 ∨ b_size b = 2048.

Lemma push_back_chunk b (c : bytes) :
  buffer_wf b → small b → (length c ≤ 1023)%nat →
  ∃ b' t, push_back b c (Z.of_nat (length c)) = Ok b' ∧ buffer_wf b' ∧ small b'
          ∧ b_ptr b' = c ++ t.
Proof.
  intros Hwf Hs Hc. pose proof Hwf as (Hp & Hl & Hs'). unfold small, BUFSIZE in *.
  rewrite push_back_wf by (done || lia). unfold grows.
  pose proof (length_calloc (2 * b_size b) ltac:(lia)).
  destruct (Z.ltb_spec (Z.quot (2 * b_size b) 3) (Z.of_nat (length c))) as [Hg|Hg];
    eexists _, _; (split; [done|]); (split; [|split; [|done]]); simpl;
    unfold buffer_wf, BUFSIZE; simpl; rewrite ?length_app, ?length_drop;
    destruct Hs as [Hs|Hs]; rewrite Hs in *; try lia.
  all: change (Z.quot (2 * 2048) 3) with 1365 in Hg; lia.
Qed.

(** ** Properties *)

(** What pushing does. From a new buffer, whatever chunks of at most
    [BUFSIZE - 1] bytes are pushed (as the connection handlers do after
    [read]), no push faults, the allocation is never larger than 2048 bytes,
    [length()] is 0 all along, and the buffer starts with the last chunk: the
    chunks before it are overwritten, never appended to. *)
Theorem push_all_keeps_last chunks c :
  Forall (λ x, (length x ≤ 1023)%nat) (chunks ++ [c]) →
  ∃ b, push_all buffer_new (chunks ++ [c]) = Ok b
       ∧ length_ b = 0 ∧ take (length c) (b_ptr b) = c
       ∧ Z.of_nat (length (b_ptr b)) = b_size b ∧ b_size b ≤ 2048.
Proof.
  assert (∀ cs b, buffer_wf b → small b → Forall (λ x, (length x ≤ 1023)%nat) (cs ++ [c]) →
    ∃ b', push_all b (cs ++ [c]) = Ok b' ∧ buffer_wf b' ∧ small b'
          ∧ take (length c) (b_ptr b') = c) as Hgen.
  { induction cs as [|c' cs IH]; intros b Hwf Hs Hall; simpl in *; apply Forall_cons in Hall as [Hc Hall].
    - destruct (push_back_chunk b c) as (b' & t & -> & ? & ? & Hb'); [done..|].
      exists b'. split_and!; [done..|]. by rewrite Hb', take_app_length.
    - destruct (push_back_chunk b c') as (b' & t & -> & ? & ? & Hb'); [done..|]. by apply IH. }
  intros Hall. destruct (Hgen chunks buffer_new buffer_new_wf ltac:(by left) Hall)
    as (b & Hb & (Hp & Hl & _) & Hs & Ht).
  exists b. split_and!; [done| |done|done|destruct Hs; lia]. unfold length_. by rewrite Hl.
Qed.

Lemma push_all_keeps_last_witness :
  ∃ b, push_all buffer_new ([bs "GET / HT"] ++ [bs "TP"]) = Ok b
       ∧ length_ b = 0 ∧ take 2 (b_ptr b) = bs "TP"
       ∧ Z.of_nat (length (b_ptr b)) = b_size b ∧ b_size b ≤ 2048.
Proof. apply (push_all_keeps_last [bs "GET / HT"] (bs "TP")). repeat constructor; simpl; lia. Defined.

(** One push, exactly: growing forgets the old content (the new
    allocation is zeroed and [_len] = 0 bytes are copied), and a chunk larger
    than the doubled size is written outside the allocation. *)
Theorem push_back_exact b c :
  buffer_wf b →
  push_back b c (Z.of_nat (length c)) =
    if grows b (Z.of_nat (length c))
    then if decide (Z.of_nat (length c) ≤ 2 * b_size b)
         then Ok (Buffer (c ++ drop (length c) (calloc (2 * b_size b))) (2 * b_size b) 0)
         else if decide (in_int (Z.of_nat (length c))) then Err OutOfBounds else Err IntOverflow
    else Ok (Buffer (c ++ drop (length c) (b_ptr b)) (b_size b) 0).
Proof.
  intros Hwf. pose proof Hwf as (Hp & Hl & Hs). unfold BUFSIZE in Hs.
  pose proof (length_calloc (2 * b_size b) ltac:(lia)).
  destruct (grows b (Z.of_nat (length c))) eqn:Hg.
  - unfold push_back. rewrite Hl, Z.add_0_r.
    destruct (decide (in_int (Z.of_nat (length c)))) as [Hi|Hi].
    + rewrite (int_of_ok (Z.of_nat _)), int_of_small, !bind_ok by (done || lia). unfold grows in Hg. rewrite Hg.
      rewrite expand_wf, bind_ok by done. simpl. case_decide.
      * rewrite memcpy_ok by lia. simpl. by rewrite drop_0, take_ge.
      * by rewrite memcpy_oob by lia.
    + rewrite (int_of_overflow _ Hi), decide_False; [done|].
      unfold in_int, int_min, int_max in Hi. lia.
  - assert (Z.of_nat (length c) ≤ b_size b).
    { unfold grows in Hg. apply Z.ltb_ge in Hg. etrans; [exact Hg|].
      apply Z.quot_le_upper_bound; lia. }
    rewrite push_back_wf by done. by rewrite Hg.
Qed.

Lemma push_back_exact_witness :
  let c := replicate 2049 "x"%char in
  push_back buffer_new c (Z.of_nat (length c)) = Err OutOfBounds.
Proof. intros c. rewrite (push_back_exact buffer_new c buffer_new_wf). vm_compute. reflexivity. Defined.
