(* ===== verification/MqDef.v ===== *)
(** * mq_def.cpp: framing of relayed messages

    The server wraps what it read from a publisher into a buffer
    ([encode_mq_msg]) and takes the message out again before it caches or
    relays it ([decode_mq_msg]). *)

From S2P Require Import Prelude Buffer.

Local Open Scope Z_scope.

(** ** Operations *)

(** [std::string::substr(pos, n)]; [n] is a [size_t]. *)
Definition substr (s : bytes) (pos : nat) (n : Z) : outcome bytes :=
  if decide (length s < pos)%nat then Err LibThrow
  else Ok (take (Z.to_nat (Z.min n (Z.of_nat (length s)))) (drop pos s)).

(** Message kinds of the wire protocol. *)
Definition x01 : ascii := "001"%char.

(** [msg_content] is a C string in an array. *)
Definition encode_mq_msg (msg_content : bytes) : outcome buffer :=
  msg ← push_back buffer_new [x01] 1;
  s ← cstr msg_content 0;
  msg ← push_back msg msg_content (Z.of_nat (length s));
  push_back msg [x01] 1.

Definition decode_mq_msg (msg : buffer) : outcome bytes :=
  dec_msg ← cstr (b_ptr msg) 0;
  substr dec_msg 1 (size_t (Z.of_nat (length dec_msg) - 2)).

(** ** Lemmas *)

(** What is left of a string when its first and last characters go. *)
Definition inner (s : bytes) : bytes := take (length s - 2) (drop 1 s).

Lemma inner_frame x s y : inner (x :: s ++ [y]) = s.
Proof.
  unfold inner. simpl. rewrite length_app. simpl. rewrite drop_0.
  replace (length s + 1 - 1)%nat with (length s) by lia. by rewrite take_app_length.
Qed.

(** Only the first [len] bytes of the source matter to a push. *)
Lemma push_back_src b src s :
  buffer_wf b → take (length s) src = s →
  push_back b src (Z.of_nat (length s)) = push_back b s (Z.of_nat (length s)).
Proof.
  intros (Hp & Hl & Hs) Ht. unfold push_back.
  assert (length s ≤ length src)%nat.
  { rewrite <-Ht, length_take. lia. }
  do 2 (apply bind_cong; intros ?). apply bind_cong; intros [b' []]; [|done]. cbn [negb].
  apply (f_equal (λ m, m ≫= _)). unfold memcpy. rewrite !Nat2Z.id, !drop_0, Ht. rewrite (take_ge s) by lia.
  destruct (decide _) as [H1|H1], (decide _) as [H2|H2]; try done; lia.
Qed.

Lemma cstr_prefix s t : no_nul s → cstr (s ++ NUL :: t) 0 = Ok s.
Proof. intros H. unfold cstr. rewrite drop_0. by rewrite to_nul_app. Qed.

Lemma cstr_of_prefix a s n :
  no_nul s → (length s < n)%nat → take n a = s ++ replicate (n - length s) NUL →
  cstr a 0 = Ok s.
Proof.
  intros Hs Hn Ht. rewrite <-(take_drop n a), Ht.
  replace (n - length s)%nat with (S (n - length s - 1)) by lia.
  simpl. rewrite <-app_assoc. by apply cstr_prefix.
Qed.


Lemma drop_1_zeros s n :
  (2 ≤ n)%nat → ∃ t, drop 1 (s ++ replicate n NUL) = drop 1 s ++ NUL :: t.
Proof.
  destruct n as [|[|n]]; [lia..|intros _].
  destruct s as [|c s]; simpl; rewrite ?drop_0; [by exists (replicate n NUL)|].
  by exists (NUL :: replicate n NUL).
Qed.

Lemma drop_1_style s n :
  (length s < n)%nat →
  ∃ t, drop 1 (s ++ drop (length s) (x01 :: replicate n NUL)) = drop 1 s ++ NUL :: t.
Proof.
  intros Hn. destruct s as [|c s]; simpl in *; rewrite ?drop_0.
  - destruct n as [|n]; [lia|]. by exists (replicate n NUL).
  - rewrite drop_replicate. destruct (n - length s)%nat as [|m] eqn:E; [lia|].
    by exists (replicate m NUL).
Qed.

(** The second push: behind the content there is a NUL. *)
Lemma push_content s n :
  let b1 := Buffer (x01 :: replicate n NUL) 1024 0 in
  n = 1023%nat → (length s ≤ n)%nat →
  ∃ b2 t, push_back b1 s (Z.of_nat (length s)) = Ok b2 ∧ buffer_wf b2 ∧ small b2
          ∧ drop 1 (b_ptr b2) = drop 1 s ++ NUL :: t.
Proof.
  intros b1 Hn Hs. assert (buffer_wf b1) as Hwf.
  { unfold buffer_wf, b1, BUFSIZE. cbn [b_ptr b_size b_len length]. rewrite length_replicate. lia. }
  destruct (push_back_chunk b1 s Hwf) as (b2 & t & Hb & Hwf2 & Hsm & _); [by left|lia|].
  rewrite Hb. rewrite push_back_wf in Hb by (done || unfold b1; cbn [b_size]; lia).
  assert (∃ t, drop 1 (b_ptr b2) = drop 1 s ++ NUL :: t) as [t' ?]; [|eauto 10].
  destruct (grows b1 _) eqn:Hg; injection Hb as <-; cbn [b_ptr].
  - unfold calloc. rewrite drop_replicate. apply drop_1_zeros. cbn [b_size b1]. lia.
  - apply Z.ltb_ge in Hg. change (Z.quot (2 * b_size b1) 3) with 682 in Hg. apply drop_1_style. lia.
Qed.

(** The buffer after the three pushes: the content itself, with its first byte
    overwritten by the style byte, and a NUL behind it. *)
Lemma encode_content a s :
  to_nul a = Some s → (length s ≤ 1023)%nat →
  ∃ b t, encode_mq_msg a = Ok b ∧ b_ptr b = x01 :: drop 1 s ++ NUL :: t.
Proof.
  intros Ha Hs. pose proof (to_nul_spec _ _ Ha) as (Hno & t & Hat).
  unfold encode_mq_msg.
  assert (push_back buffer_new [x01] 1 = Ok (Buffer (x01 :: replicate 1023 NUL) 1024 0)) as ->
    by (vm_compute; reflexivity).
  rewrite bind_ok. unfold cstr. rewrite drop_0, Ha, bind_ok.
  destruct (push_content s 1023) as (b2 & t2 & Hb2 & Hwf2 & Hsm & Hd); [done..|].
  rewrite (push_back_src _ _ s), Hb2, bind_ok.
  2:{ split_and!; vm_compute; done. }
  2:{ by rewrite Hat, take_app_length. }
  pose proof Hwf2 as (Hp & Hl & Hr).
  change (push_back b2 [x01] 1) with (push_back b2 [x01] (Z.of_nat (length [x01]))).
  rewrite (push_back_wf b2 [x01] Hwf2) by (unfold BUFSIZE in *; simpl; lia).
  assert (grows b2 (Z.of_nat (length [x01])) = false) as ->.
  { unfold grows. destruct Hsm as [-> | ->]; reflexivity. }
  eexists _, t2. split; [reflexivity|]. cbn [b_ptr length]. by rewrite Hd.
Qed.

Lemma mq_def_roundtrip_lemma a s :
  to_nul a = Some s → (length s ≤ 1023)%nat →
  (b ← encode_mq_msg a; decode_mq_msg b) = Ok (inner s).
Proof.
  intros Ha Hs. destruct (encode_content a s Ha Hs) as (b & t & -> & Hb). rewrite bind_ok.
  pose proof (to_nul_spec _ _ Ha) as (Hno & _).
  unfold decode_mq_msg. rewrite Hb. rewrite app_comm_cons, cstr_prefix.
  2:{ unfold no_nul in *. apply not_elem_of_cons. split; [done|].
      intros H. apply Hno. by eapply (subseteq_drop 1 s). }
  rewrite bind_ok. unfold substr. cbn [length]. rewrite decide_False by lia. f_equal.
  unfold inner. cbn [drop]. rewrite drop_0, length_drop.
  destruct s as [|x [|y s]]; [reflexivity..|]. cbn [length] in *.
  unfold size_t. rewrite Z.mod_small by lia. f_equal. lia.
Qed.

(** ** Properties *)

(** C38: encoding then decoding a C string of at most [BUFSIZE - 1] bytes gives
    back the string without its first and its last character. *)
Theorem mq_def_roundtrip a s :
  to_nul a = Some s → (length s ≤ 1023)%nat →
  (b ← encode_mq_msg a; decode_mq_msg b) = Ok (inner s).
Proof.
  apply mq_def_roundtrip_lemma.
Qed.

Lemma mq_def_roundtrip_witness :
  (b ← encode_mq_msg (c_str (x01 :: bs "news" ++ ["z"%char])); decode_mq_msg b) = Ok (bs "news").
Proof.
  apply (mq_def_roundtrip _ (x01 :: bs "news" ++ ["z"%char])); [reflexivity|simpl; lia].
Defined.
