(* ===== verification/MqClient.v ===== *)
(** * message_queue_client.cpp: the messages a client writes

    [mq_client] builds its messages in a zeroed array of 128 [char]s: a kind
    byte, a text, and a checksum, the sum of the bytes before it.  The write(2)
    of the socket is a parameter [write] of the functions: from the bytes
    handed over to the count returned. *)

From S2P Require Import Prelude MqDef.

Local Open Scope Z_scope.

(** ** Operations *)

(** [a += b] on [char]. *)
Definition char_add (a b : ascii) : ascii := to_char (char_val a + char_val b).

(** [for (i = 0; i < n; ++i) a[t] += a[i];] over the indices [idx]. *)
Fixpoint sum_into (a : bytes) (idx : list nat) (t : nat) : outcome bytes :=
  match idx with
  | [] => Ok a
  | i :: idx =>
      x ← get a t;
      c ← get a i;
      a ← put a t (char_add x c);
      sum_into a idx t
  end.

(** [sprintf(a + off, "%s", s)] *)
Definition sprint_str (a : bytes) (off : nat) (s : bytes) : outcome bytes :=
  memcpy a off (c_str s) 0 (Z.of_nat (length s + 1)).

(** What [sprintf] makes of a format string that it gets as data: "%%" is a
    percent sign; any other directive would print, or read, something else. *)
Fixpoint expand_format (fmt : bytes) : outcome bytes :=
  match fmt with
  | [] => Ok []
  | c :: fmt =>
      if decide (c = "%"%char) then
        match fmt with
        | d :: fmt => if decide (d = "%"%char)
                      then r ← expand_format fmt; Ok (c :: r)
                      else Err BadFormat
        | [] => Err BadFormat
        end
      else r ← expand_format fmt; Ok (c :: r)
  end.

Definition msg_array : bytes := replicate 128 NUL.

(** Lines 39-50 and 54-64 up to [write]: the array and the count written.
    [kind0] and [kind1] are the kind bytes for the two roles. *)
Definition control_frame (kind0 kind1 : ascii) (role : Z) (publisher_name : bytes) : outcome bytes :=
  m ← (if role =? 0 then put msg_array 0 kind0 else Ok msg_array);
  m ← (if role =? 1 then
         m ← put m 0 kind1;
         s ← cstr publisher_name 0;
         sprint_str m 1 s
       else Ok m);
  s ← cstr m 0;
  let len := length s in
  m ← sum_into m (seq 0 len) (len + 1);
  memcpy (replicate (len + 1) NUL) 0 m 0 (Z.of_nat (len + 1)).

Definition x02 : ascii := "002"%char.
Definition x04 : ascii := "004"%char.
Definition x08 : ascii := "008"%char.
Definition x16 : ascii := "022"%char.

(** The bytes sent and the value returned. *)
Definition register_mq (write : bytes → Z) (role : Z) (publisher_name : bytes) : outcome (bytes * Z) :=
  f ← control_frame x02 x04 role publisher_name;
  Ok (f, if write f =? Z.of_nat (length f) then 0 else 1).

Definition unregister_mq (write : bytes → Z) (role : Z) (publisher_name : bytes) : outcome (bytes * Z) :=
  f ← control_frame x08 x16 role publisher_name;
  Ok (f, if write f =? Z.of_nat (length f) then 1 else 0).

Definition send (write : bytes → Z) (msg : bytes) : outcome (bytes * Z) :=
  m ← put msg_array 0 x01;
  fmt ← cstr (c_str msg) 0;
  s ← expand_format fmt;
  m ← sprint_str m 1 s;
  m ← sum_into m (seq 0 (length msg + 1)) (length msg + 1);
  f ← memcpy (replicate (length msg + 2) NUL) 0 m 0 (Z.of_nat (length msg + 2));
  Ok (f, if negb (write f - 2 =? Z.of_nat (length msg)) then -1 else 0).

(** [std::string::find(char)] *)
Definition find_char (s : bytes) (c : ascii) : option nat :=
  fst <$> list_find (λ x, x = c) s.

(** [atoi]: white space, a sign, digits; a value outside [int] is undefined. *)
Definition is_digit (c : ascii) : bool := (48 <=? byte_val c) && (byte_val c <=? 57).
Definition is_space (c : ascii) : bool := (byte_val c =? 32) || ((9 <=? byte_val c) && (byte_val c <=? 13)).

Fixpoint digits_value (acc : Z) (s : bytes) : Z :=
  match s with
  | c :: s => if is_digit c then digits_value (10 * acc + (byte_val c - 48)) s else acc
  | [] => acc
  end.
Fixpoint skip_spaces (s : bytes) : bytes :=
  match s with c :: s' => if is_space c then skip_spaces s' else s | [] => [] end.
Definition atoi (s : bytes) : outcome Z :=
  match skip_spaces s with
  | c :: s' =>
      if decide (c = "-"%char) then int_of (- digits_value 0 s')
      else if decide (c = "+"%char) then int_of (digits_value 0 s')
      else int_of (digits_value 0 (c :: s'))
  | [] => Ok 0
  end.

(** [get_ip_port]: the address, the port and the value returned.  Without a
    ':', [find] yields [npos], that is -1 as an [int]. *)
Definition get_ip_port (server_ip_port : bytes) : outcome (bytes * Z * Z) :=
  let index := match find_char server_ip_port ":"%char with
               | Some i => Z.of_nat i
               | None => -1
               end in
  server_ip ← substr server_ip_port 0 (size_t index);
  s ← cstr (c_str server_ip_port) (Z.to_nat (index + 1));
  port ← atoi s;
  Ok (server_ip, port, if port =? -1 then -1 else 0).

(** The receiver thread: every successful [read] is handed to the callback as
    a zeroed array with the bytes in front, until [read] returns 0 or -1. *)
Fixpoint run (reads : list bytes) : outcome (list bytes) :=
  match reads with
  | [] => Ok []
  | r :: reads =>
      buf ← memcpy (replicate 1024 NUL) 0 r 0 (Z.of_nat (length r));
      rest ← run reads;
      Ok (buf :: rest)
  end.

(** ** Checksums *)

Definition byte_sum (s : bytes) : Z := foldr (λ c acc, byte_val c + acc) 0 s.
Definition checksum (s : bytes) : ascii := to_char (byte_sum s).

Lemma byte_sum_app s t : byte_sum (s ++ t) = byte_sum s + byte_sum t.
Proof. induction s as [|c s IH]; simpl; [done|]. rewrite IH. lia. Qed.

Lemma to_char_mod a b : a mod 256 = b mod 256 → to_char a = to_char b.
Proof. unfold to_char. by intros ->. Qed.

Lemma char_add_to_char a c : char_add (to_char a) c = to_char (a + byte_val c).
Proof.
  unfold char_add. apply to_char_mod.
  rewrite Zplus_mod, !char_val_mod, byte_val_to_char, Zplus_mod_idemp_l. done.
Qed.

(** The summing loop over a prefix that does not contain the target. *)
Lemma sum_into_prefix a t k n z :
  a !! t = Some (to_char z) → (k + n ≤ t)%nat → (t < length a)%nat →
  sum_into a (seq k n) t = Ok (<[t := to_char (z + byte_sum (take n (drop k a)))]> a).
Proof.
  revert a k z; induction n as [|n IH]; intros a k z Ht Hk Hl; simpl.
  - rewrite Z.add_0_r. by rewrite list_insert_id.
  - destruct (lookup_lt_is_Some_2 a k) as [c Hc]; [lia|].
    rewrite (get_ok _ _ _ Ht), (get_ok _ _ _ Hc), !bind_ok, put_ok, bind_ok by done.
    rewrite char_add_to_char.
    rewrite (IH _ _ (z + byte_val c)).
    + rewrite list_insert_insert_eq. f_equal. f_equal. f_equal.
      rewrite drop_insert_ge, take_insert_ge, (drop_S a c k Hc) by lia. simpl. lia.
    + by apply list_lookup_insert_eq.
    + lia.
    + by rewrite length_insert.
Qed.

(** ** Frames *)

(** A text fits a control message when its bytes are not NUL and the checksum
    cell is inside the array. *)
Definition text_ok (s : bytes) : Prop := no_nul s ∧ (length s ≤ 125)%nat.

Lemma length_msg_array : length msg_array = 128%nat.
Proof. reflexivity. Qed.

(** [kind; text] followed by zeros. *)
Lemma sprint_kind k s :
  (length s ≤ 126)%nat →
  (m ← put msg_array 0 k; sprint_str m 1 s) = Ok (k :: s ++ replicate (127 - length s) NUL).
Proof.
  intros Hs. rewrite put_ok, bind_ok by (rewrite length_msg_array; lia).
  unfold sprint_str. rewrite memcpy_ok.
  2:{ rewrite length_insert, length_msg_array. lia. }
  2:{ unfold c_str. rewrite length_app. simpl. lia. }
  unfold msg_array. change (replicate 128 NUL) with (NUL :: replicate 127 NUL). cbn [insert list_insert].
  rewrite drop_0. unfold c_str. rewrite (take_ge (s ++ [NUL])) by (rewrite length_app; simpl; lia).
  replace (1 + (length s + 1))%nat with (S (length s + 1)) by lia.
  cbn [take drop app]. rewrite take_0, drop_replicate, <-app_assoc. cbn [app]. do 3 f_equal.
  by replace (127 - length s)%nat with (S (127 - (length s + 1))) by lia.
Qed.

Lemma lookup_padding k s n i :
  (length s < i)%nat → (i ≤ length s + n)%nat → (k :: s ++ replicate n NUL) !! i = Some (to_char 0).
Proof.
  intros H1 H2. destruct i as [|i]; [lia|]. simpl. rewrite lookup_app_r by lia.
  apply lookup_replicate. split; [done|lia].
Qed.

Lemma checksum_array k s n z :
  (length s < z)%nat → (z ≤ length s + n)%nat →
  sum_into (k :: s ++ replicate n NUL) (seq 0 (length s + 1)) z
  = Ok (<[z := checksum (k :: s)]> (k :: s ++ replicate n NUL)).
Proof.
  intros H1 H2. rewrite (sum_into_prefix _ z 0 (length s + 1) 0); [|by apply lookup_padding|lia|].
  - rewrite drop_0. replace (length s + 1)%nat with (length (k :: s)) by (simpl; lia).
    change (k :: s ++ replicate n NUL) with ((k :: s) ++ replicate n NUL).
    by rewrite take_app_length.
  - simpl. rewrite length_app, length_replicate. lia.
Qed.

Lemma copy_out (a : bytes) n :
  (n ≤ length a)%nat → memcpy (replicate n NUL) 0 a 0 (Z.of_nat n) = Ok (take n a).
Proof.
  intros Hn. rewrite memcpy_ok by (rewrite ?length_replicate; lia).
  rewrite take_0, drop_0, drop_ge by (rewrite length_replicate; lia). by rewrite app_nil_r.
Qed.

Lemma expand_format_plain s : "%"%char ∉ s → expand_format s = Ok s.
Proof.
  induction s as [|c s IH]; intros H; [done|]. apply not_elem_of_cons in H as [Hc Hs].
  simpl. rewrite decide_False by congruence. by rewrite IH.
Qed.

(** The control message of role 1: kind byte and text, and a zero byte where a
    checksum would be. *)
Lemma control_frame_role1 k0 k1 s :
  k1 ≠ NUL → text_ok s → control_frame k0 k1 1 (c_str s) = Ok (k1 :: s ++ [NUL]).
Proof.
  intros Hk [Hno Hs]. unfold control_frame.
  change (1 =? 0) with false. change (1 =? 1) with true. cbn match. rewrite bind_ok.
  assert (cstr (c_str s) 0 = Ok s) as Hc by (by apply cstr_prefix).
  rewrite Hc.
  replace (m ← put msg_array 0 k1; s0 ← Ok s; sprint_str m 1 s0)
    with (m ← put msg_array 0 k1; sprint_str m 1 s) by (apply bind_cong; done).
  rewrite sprint_kind, bind_ok by lia.
  assert (no_nul (k1 :: s)) as Hno' by (apply not_elem_of_cons; split; [congruence|done]).
  replace (k1 :: s ++ replicate (127 - length s) NUL)
    with ((k1 :: s) ++ NUL :: replicate (126 - length s) NUL)
    by (replace (127 - length s)%nat with (S (126 - length s)) by lia; done).
  rewrite cstr_prefix, bind_ok by done.
  replace ((k1 :: s) ++ NUL :: replicate (126 - length s) NUL)
    with (k1 :: s ++ replicate (127 - length s) NUL)
    by (replace (127 - length s)%nat with (S (126 - length s)) by lia; done).
  replace (length (k1 :: s)) with (length s + 1)%nat by (simpl; lia).
  rewrite checksum_array, bind_ok by lia.
  rewrite copy_out by (rewrite length_insert; simpl; rewrite length_app, length_replicate; lia).
  rewrite take_insert_ge by lia.
  replace (length s + 1 + 1)%nat with (S (length s + 1)) by lia. cbn [take].
  rewrite take_app_ge by lia. replace (length s + 1 - length s)%nat with 1%nat by lia.
  by replace (127 - length s)%nat with (S (126 - length s)) by lia.
Qed.

Lemma control_frame_role0 k0 k1 name : k0 ≠ NUL → control_frame k0 k1 0 name = Ok [k0; NUL].
Proof.
  intros Hk. unfold control_frame.
  change (0 =? 0) with true. change (0 =? 1) with false. cbn match. rewrite put_ok, !bind_ok by (vm_compute; lia).
  change (<[0%nat:=k0]> msg_array) with ([k0] ++ NUL :: replicate 126 NUL).
  rewrite cstr_prefix by (unfold no_nul; set_solver). rewrite bind_ok.
  change ([k0] ++ NUL :: replicate 126 NUL) with (k0 :: [] ++ replicate 127 NUL).
  change (seq 0 (length [k0])) with (seq 0 (length (@nil ascii) + 1)).
  rewrite checksum_array by (simpl; lia). rewrite bind_ok.
  by rewrite copy_out by (rewrite length_insert; simpl; lia).
Qed.

(** The frame that [send] writes, and its result. *)
Lemma send_writes write msg :
  no_nul msg → "%"%char ∉ msg → (length msg ≤ 126)%nat →
  let f := x01 :: msg ++ [checksum (x01 :: msg)] in
  send write msg = Ok (f, if write f =? Z.of_nat (length f) then 0 else -1).
Proof.
  intros Hno Hp Hlen f. unfold send.
  assert (cstr (c_str msg) 0 = Ok msg) as Hc by (by apply cstr_prefix).
  pose proof (sprint_kind x01 msg Hlen) as Hk. apply bind_ok_inv in Hk as (m0 & -> & Hk).
  rewrite bind_ok, Hc, bind_ok, expand_format_plain, bind_ok, Hk, bind_ok by done.
  rewrite checksum_array, bind_ok by lia.
  rewrite copy_out by (rewrite length_insert; simpl; rewrite length_app, length_replicate; lia).
  rewrite bind_ok.
  assert (take (length msg + 2) (<[(length msg + 1)%nat:=checksum (x01 :: msg)]>
            (x01 :: msg ++ replicate (127 - length msg) NUL)) = f) as ->.
  { replace (length msg + 1)%nat with (S (length msg + 0)) by lia.
    replace (length msg + 2)%nat with (S (length msg + 1)) by lia. unfold f. simpl.
    rewrite insert_app_r, take_app_ge by lia.
    replace (length msg + 1 - length msg)%nat with 1%nat by lia.
    by replace (127 - length msg)%nat with (S (126 - length msg)) by lia. }
  assert (length f = (length msg + 2)%nat) as -> by (unfold f; simpl; rewrite length_app; simpl; lia).
  destruct (Z.eqb_spec (write f - 2) (Z.of_nat (length msg)));
    destruct (Z.eqb_spec (write f) (Z.of_nat (length msg + 2))); done || lia.
Qed.

(** ** Properties *)

(** What [send] writes. For a text without NUL and '%' of at most 126
    bytes the message is the kind byte 1, the text, and the sum of these bytes
    modulo 256; the result is 0 exactly if the socket took all of it. *)
Theorem send_frame write msg :
  no_nul msg → "%"%char ∉ msg → (length msg ≤ 126)%nat →
  let f := x01 :: msg ++ [checksum (x01 :: msg)] in
  send write msg = Ok (f, if write f =? Z.of_nat (length f) then 0 else -1).
Proof. apply send_writes. Qed.

Lemma send_frame_witness :
  let f := x01 :: bs "hi" ++ [checksum (x01 :: bs "hi")] in
  send (λ f, Z.of_nat (length f)) (bs "hi") = Ok (f, 0).
Proof.
  apply (send_frame (λ f, Z.of_nat (length f)) (bs "hi"));
    [unfold no_nul; vm_compute; set_solver|vm_compute; set_solver|simpl; lia].
Defined.

(** [register_mq] and [unregister_mq] with a publisher name of at most 125
    bytes write the kind byte, the name and a zero byte: the checksum is summed
    up one cell further and never sent.  And they report success in opposite
    ways: 0 for the one, 1 for the other. *)
Theorem control_messages write s :
  text_ok s →
  register_mq write 1 (c_str s)
    = Ok (x04 :: s ++ [NUL], if write (x04 :: s ++ [NUL]) =? Z.of_nat (length s + 2) then 0 else 1)
  ∧ unregister_mq write 1 (c_str s)
    = Ok (x16 :: s ++ [NUL], if write (x16 :: s ++ [NUL]) =? Z.of_nat (length s + 2) then 1 else 0)
  ∧ (∃ r, register_mq write 0 (c_str s) = Ok ([x02; NUL], r))
  ∧ (∃ r, unregister_mq write 0 (c_str s) = Ok ([x08; NUL], r)).
Proof.
  intros Hs. unfold register_mq, unregister_mq.
  rewrite !control_frame_role1, !control_frame_role0, !bind_ok by done.
  assert (∀ k, length (k :: s ++ [NUL]) = (length s + 2)%nat) as Hl
    by (intros; simpl; rewrite length_app; simpl; lia).
  rewrite !Hl. eauto 10.
Qed.

Lemma control_messages_witness :
  register_mq (λ f, Z.of_nat (length f)) 1 (c_str (bs "10.0.0.7")) = Ok (x04 :: bs "10.0.0.7" ++ [NUL], 0)
  ∧ unregister_mq (λ f, Z.of_nat (length f)) 1 (c_str (bs "10.0.0.7")) = Ok (x16 :: bs "10.0.0.7" ++ [NUL], 1)
  ∧ (∃ r, register_mq (λ f, Z.of_nat (length f)) 0 (c_str (bs "10.0.0.7")) = Ok ([x02; NUL], r))
  ∧ (∃ r, unregister_mq (λ f, Z.of_nat (length f)) 0 (c_str (bs "10.0.0.7")) = Ok ([x08; NUL], r)).
Proof.
  apply (control_messages (λ f, Z.of_nat (length f)) (bs "10.0.0.7")).
  split; [unfold no_nul; vm_compute; set_solver|simpl; lia].
Defined.
