(* ===== verification/MqServer.v ===== *)
(** * message_queue_server.cpp: the broker

    The state of [message_queue_server] is four containers; [recv_msg] is the
    task that a worker runs when a connection is readable.  The kernel is a
    parameter: the list of chunks that the [read]s of one task return, and how
    they end.  Calls of [write], [epoll_ctl] and [close] are recorded in
    order.  The log calls go to a class [_log] that the repository no
    longer defines; they and the [printf]s have no effect here. *)

From S2P Require Import Prelude Buffer MqDef MqClient.

Local Open Scope Z_scope.

(** ** Data *)

Record message_queue_server := Mqs {
  relations : gmap bytes (list bytes);     (* publisher -> its subscribers *)
  publishers : list bytes;
  fd_addrs : gmap bytes Z;
  cached_msg : gmap bytes (list bytes)
}.

Record mq_conn := MqConn { c_fd : Z; c_epfd : Z; c_addr : bytes }.

Inductive io :=
  | Write (fd : Z) (data : bytes)
  | EpollAdd (fd : Z) (conn : mq_conn)
  | EpollDel (fd : Z)
  | Close (fd : Z)
  | Delete (conn : mq_conn).             (* [delete mc] *)

(** How the [read] loop of a task ends: 0 or -1. *)
Inductive read_end := Eof | Again.

Definition set_relations (f : gmap bytes (list bytes) → gmap bytes (list bytes)) (s : message_queue_server) :=
  Mqs (f (relations s)) (publishers s) (fd_addrs s) (cached_msg s).
Definition set_publishers (f : list bytes → list bytes) (s : message_queue_server) :=
  Mqs (relations s) (f (publishers s)) (fd_addrs s) (cached_msg s).
Definition set_fd_addrs (f : gmap bytes Z → gmap bytes Z) (s : message_queue_server) :=
  Mqs (relations s) (publishers s) (f (fd_addrs s)) (cached_msg s).
Definition set_cached_msg (f : gmap bytes (list bytes) → gmap bytes (list bytes)) (s : message_queue_server) :=
  Mqs (relations s) (publishers s) (fd_addrs s) (f (cached_msg s)).

(** [std::map::insert] keeps an entry that is there; [operator[]] creates one;
    [m[k].push_back(v)]; [erase(find(k))] of a missing key is undefined. *)
Definition map_insert {V} (k : bytes) (v : V) (m : gmap bytes V) : gmap bytes V :=
  match m !! k with Some _ => m | None => <[k := v]> m end.
Definition map_touch (k : bytes) (m : gmap bytes (list bytes)) : gmap bytes (list bytes) :=
  map_insert k [] m.
Definition map_push (k v : bytes) (m : gmap bytes (list bytes)) : gmap bytes (list bytes) :=
  <[k := default [] (m !! k) ++ [v]]> m.
Definition map_erase_found {V} (k : bytes) (m : gmap bytes V) : outcome (gmap bytes V) :=
  match m !! k with Some _ => Ok (delete k m) | None => Err BadIterator end.

(** ** Operations *)

Fixpoint crc_loop (buf : bytes) (idx : list nat) (crc_sum : ascii) : outcome ascii :=
  match idx with
  | [] => Ok crc_sum
  | i :: idx => c ← get buf i; crc_loop buf idx (char_add crc_sum c)
  end.

(** [check_msg_crc(buf, n)] *)
Definition check_msg_crc (buf : bytes) (n : nat) : outcome bool :=
  crc_sum ← crc_loop buf (seq 0 (n - 1)) NUL;
  match n with
  | O => Err OutOfBounds
  | S k => c ← get buf k; Ok (Z.lxor (char_val c) (char_val crc_sum) =? 0)
  end.

(** [write(fd, s.c_str(), n)]: the kernel reads [n] bytes of a string that has
    its length and one NUL. *)
Definition write_str (fd : Z) (s : bytes) (n : nat) : outcome io :=
  d ← memcpy (replicate n NUL) 0 (c_str s) 0 (Z.of_nat n);
  Ok (Write fd d).

(** Lines 159-173: the subscribers one by one. *)
Fixpoint relay (fd : Z) (recved_msg : buffer) (nread : nat) (all_subs : list bytes)
    (s : message_queue_server) (out : list io) : outcome (message_queue_server * list io) :=
  match all_subs with
  | [] => Ok (s, out)
  | sub :: all_subs =>
      match fd_addrs s !! sub with
      | None =>
          m ← decode_mq_msg recved_msg;
          relay fd recved_msg nread all_subs (set_cached_msg (map_push sub m) s) out
      | Some _ =>
          let msgs := default [] (cached_msg s !! sub) in
          m ← decode_mq_msg recved_msg;
          w ← write_str fd m nread;
          relay fd recved_msg nread all_subs (set_cached_msg (map_touch sub) s)
                (out ++ map (Write fd) msgs ++ [w])
      end
  end.

(** [char publisher_name[128] = {0}; memcpy(publisher_name, _buf + 1, nread - 2);] *)
Definition copy_name (buf : bytes) (nread : nat) : outcome bytes :=
  memcpy (replicate 128 NUL) 0 buf 1 (size_t (Z.of_nat nread - 2)).

(** The [switch] on the first byte, lines 153-216. *)
Definition handle_msg (mc : mq_conn) (buf : bytes) (nread : nat) (s : message_queue_server)
    (out : list io) : outcome (message_queue_server * list io) :=
  kind ← get buf 0;
  if decide (kind = x01) then
    good ← check_msg_crc buf nread;
    if good : bool then
      recved_msg ← encode_mq_msg buf;
      let all_subs := default [] (relations s !! c_addr mc) in
      _ ← decode_mq_msg recved_msg;          (* the log line 158 *)
      relay (c_fd mc) recved_msg nread all_subs (set_relations (map_touch (c_addr mc)) s) out
    else Ok (s, out)
  else if decide (kind = x02) then
    Ok (set_fd_addrs (map_insert (c_addr mc) (c_fd mc))
          (set_publishers (λ l, l ++ [c_addr mc]) s), out)
  else if decide (kind = x04) then
    let s := set_fd_addrs (map_insert (c_addr mc) (c_fd mc)) s in
    publisher_name ← copy_name buf nread;
    name ← cstr publisher_name 0;
    match fd_addrs s !! name with
    | None => Ok (s, out)
    | Some _ => Ok (set_relations (map_push name (c_addr mc)) s, out)
    end
  else if decide (kind = x08) then
    f ← map_erase_found (c_addr mc) (fd_addrs s);
    r ← map_erase_found (c_addr mc) (relations s);
    Ok (set_relations (λ _, r) (set_fd_addrs (λ _, f) s), out)
  else if decide (kind = x16) then
    publisher_name ← copy_name buf nread;
    Ok (s, out)
  else Ok (s, out).

(** The [read] loop; [_buf] keeps the bytes of earlier reads behind the new
    ones. *)
Fixpoint recv_loop (mc : mq_conn) (reads : list bytes) (buf : bytes) (s : message_queue_server)
    (out : list io) : outcome (message_queue_server * list io) :=
  match reads with
  | [] => Ok (s, out)
  | r :: reads =>
      buf ← memcpy buf 0 r 0 (Z.of_nat (length r));
      '(s, out) ← handle_msg mc buf (length r) s out;
      recv_loop mc reads buf s out
  end.

Definition recv_buf : bytes := replicate 1024 NUL.

Definition recv_msg (mc : mq_conn) (reads : list bytes) (fin : read_end) (s : message_queue_server)
    : outcome (message_queue_server * list io) :=
  '(s, out) ← recv_loop mc reads recv_buf s [];
  match fin with
  | Eof => Ok (s, out ++ [EpollDel (c_fd mc); Close (c_fd mc); Delete mc])
  | Again => Ok (s, out)
  end.

(** [accept_conn]: the peers that [accept] returns until it fails.  The key of
    a peer is [inet_ntoa] of its address alone, without the port. *)
Fixpoint accept_conn (epfd : Z) (peers : list (Z * bytes)) (s : message_queue_server) (out : list io)
    : message_queue_server * list io :=
  match peers with
  | [] => (s, out)
  | (peer_sock, addr_str) :: peers =>
      let mc := MqConn peer_sock epfd addr_str in
      accept_conn epfd peers (set_fd_addrs (map_insert addr_str peer_sock) s)
                  (out ++ [EpollAdd peer_sock mc])
  end.

(** [convert_addr_in_to_str]: [sprintf] of what [inet_ntoa] gives into 128 bytes. *)
Definition convert_addr_in_to_str (ntoa : bytes) : outcome bytes :=
  if decide (length ntoa < 128)%nat then Ok ntoa else Err OutOfBounds.

Definition send_ (msg : bytes) : Z := 0.      (* [message_queue_server::send] *)

(** ** Operations that nothing calls *)

(** [while ( *p != ':') ++p;] stops at a colon only. *)
Fixpoint find_colon (s : bytes) (p : nat) : outcome nat :=
  match s with
  | [] => Err OutOfBounds
  | c :: s => if decide (c = ":"%char) then Ok p else find_colon s (S p)
  end.

(** [get_ip_port_from_publisher_name]: [ip], and the name that it has cut; [port]
    is not touched. *)
Definition get_ip_port_from_publisher_name (publisher_name : bytes) : outcome (bytes * bytes) :=
  p ← find_colon publisher_name 0;
  publisher_name ← put publisher_name p NUL;
  ip ← cstr publisher_name 0;
  Ok (ip, publisher_name).

(** mq_conn.cpp: the status of a connection. *)
Inductive mq_status := MQ_READ | MQ_FINISH | MQ_ERROR.
Definition read_mq_msg_status_machine (_buf : bytes) (len : nat) : outcome mq_status :=
  msg_style_begin ← get _buf 0;
  msg_style_end ← (match len with O => Err OutOfBounds | S k => get _buf k end);
  Ok (if decide (msg_style_end = msg_style_begin) then MQ_FINISH else MQ_ERROR).

(** ** The checksum *)

Lemma crc_loop_sum buf k n z :
  (k + n ≤ length buf)%nat →
  crc_loop buf (seq k n) (to_char z) = Ok (to_char (z + byte_sum (take n (drop k buf)))).
Proof.
  revert k z; induction n as [|n IH]; intros k z Hl; simpl; [by rewrite Z.add_0_r|].
  destruct (lookup_lt_is_Some_2 buf k) as [c Hc]; [lia|].
  rewrite (get_ok _ _ _ Hc), bind_ok, char_add_to_char, IH by lia.
  rewrite (drop_S _ _ _ Hc). simpl. by rewrite Z.add_assoc.
Qed.

Lemma char_val_inj c d : char_val c = char_val d → c = d.
Proof. intros H. apply byte_val_inj. by rewrite <-!char_val_mod, H. Qed.

Lemma lxor_char c d : (Z.lxor (char_val c) (char_val d) =? 0) = bool_decide (c = d).
Proof.
  destruct (Z.eqb_spec (Z.lxor (char_val c) (char_val d)) 0) as [H|H]; symmetry.
  - apply bool_decide_eq_true. by apply char_val_inj, Z.lxor_eq.
  - apply bool_decide_eq_false. intros ->. apply H, Z.lxor_nilpotent.
Qed.

Lemma check_msg_crc_spec buf n c :
  buf !! n = Some c → check_msg_crc buf (S n) = Ok (bool_decide (c = checksum (take n buf))).
Proof.
  intros Hc. unfold check_msg_crc. replace (S n - 1)%nat with n by lia.
  change NUL with (to_char 0). rewrite crc_loop_sum by (apply lookup_lt_Some in Hc; lia).
  rewrite bind_ok, (get_ok _ _ _ Hc), bind_ok, lxor_char. by rewrite drop_0.
Qed.

Lemma byte_sum_insert s i c d :
  s !! i = Some d → byte_sum (<[i := c]> s) = byte_sum s + byte_val c - byte_val d.
Proof.
  revert i; induction s as [|x s IH]; intros [|i] Hi; simplify_eq/=; [lia|].
  rewrite IH by done. lia.
Qed.

Lemma to_char_inj a b : to_char a = to_char b → a mod 256 = b mod 256.
Proof. intros H. by rewrite <-!byte_val_to_char, H. Qed.

Lemma frame_crc p : check_msg_crc (p ++ [checksum p]) (S (length p)) = Ok true.
Proof.
  rewrite (check_msg_crc_spec _ _ (checksum p)) by (by rewrite lookup_app_r, Nat.sub_diag by lia).
  rewrite take_app_length. by rewrite bool_decide_eq_true_2.
Qed.

(** ** Properties of the checksum *)

(** C37: client and server agree on the checksum, and it protects every byte:
    the message that [send] writes passes [check_msg_crc], and after changing
    any one byte of it the check fails. *)
Theorem crc_end_to_end write msg f r :
  no_nul msg → "%"%char ∉ msg → (length msg ≤ 126)%nat →
  send write msg = Ok (f, r) →
  check_msg_crc f (length f) = Ok true
  ∧ ∀ i d c, f !! i = Some d → c ≠ d → check_msg_crc (<[i := c]> f) (length f) = Ok false.
Proof.
  intros Hno Hp Hl Hf. rewrite send_writes in Hf by done. injection Hf as <- _.
  set (p := x01 :: msg). change (x01 :: msg ++ [checksum p]) with (p ++ [checksum p]).
  rewrite length_app. cbn [length]. replace (length p + 1)%nat with (S (length p)) by lia.
  split; [apply frame_crc|].
  - intros i d c Hi Hcd. destruct (decide (i < length p)%nat) as [Hlt|Hge].
    + rewrite insert_app_l by done. rewrite lookup_app_l in Hi by done.
      rewrite (check_msg_crc_spec _ _ (checksum p))
        by (by rewrite lookup_app_r, length_insert, Nat.sub_diag by (rewrite length_insert; lia)).
      rewrite take_app_length' by (by rewrite length_insert).
      f_equal. apply bool_decide_eq_false. intros E. apply to_char_inj in E.
      rewrite (byte_sum_insert _ _ _ _ Hi) in E.
      pose proof (byte_val_range c). pose proof (byte_val_range d).
      assert (byte_val c ≠ byte_val d) by (intros Heq; by apply byte_val_inj in Heq).
      revert E. generalize (byte_sum p). intros z E. Z.to_euclidean_division_equations. lia.
    + assert (i = length p) as ->.
      { apply lookup_lt_Some in Hi. rewrite length_app in Hi. cbn [length] in Hi. lia. }
      rewrite lookup_app_r, Nat.sub_diag in Hi by lia. injection Hi as <-.
      rewrite insert_app_r_alt, Nat.sub_diag by lia. cbn [insert list_insert].
      rewrite (check_msg_crc_spec _ _ c) by (by rewrite lookup_app_r, Nat.sub_diag by lia).
      rewrite take_app_length. f_equal. by apply bool_decide_eq_false.
Qed.

Lemma crc_end_to_end_witness :
  let f := x01 :: bs "hi" ++ [to_char 210] in
  check_msg_crc f (length f) = Ok true
  ∧ ∀ i d c, f !! i = Some d → c ≠ d → check_msg_crc (<[i := c]> f) (length f) = Ok false.
Proof.
  apply (crc_end_to_end (λ _, 4) (bs "hi") _ 0);
    [unfold no_nul; vm_compute; set_solver|vm_compute; set_solver|simpl; lia|vm_compute; reflexivity].
Defined.

(** ** A message in the receive buffer *)

Lemma recv_first r :
  (length r ≤ 1024)%nat →
  memcpy recv_buf 0 r 0 (Z.of_nat (length r)) = Ok (r ++ replicate (1024 - length r) NUL).
Proof.
  intros Hr. unfold recv_buf. rewrite memcpy_ok by (rewrite ?length_replicate; lia).
  rewrite take_0, drop_0, take_ge by lia. by rewrite drop_replicate.
Qed.

Lemma check_msg_crc_app f t : check_msg_crc f (length f) = Ok true → check_msg_crc (f ++ t) (length f) = Ok true.
Proof.
  destruct (length f) as [|n] eqn:Hn; [done|]. intros H.
  destruct (lookup_lt_is_Some_2 f n) as [c Hc]; [lia|].
  rewrite (check_msg_crc_spec _ _ _ Hc) in H.
  rewrite (check_msg_crc_spec _ _ c) by (by rewrite lookup_app_l by lia).
  rewrite take_app_le by lia. done.
Qed.

(** The frames of [send]. *)
Definition publish_ok (msg : bytes) : Prop :=
  no_nul msg ∧ ("%"%char ∉ msg) ∧ (length msg ≤ 126)%nat.
Definition publish_frame (msg : bytes) : bytes := x01 :: msg ++ [checksum (x01 :: msg)].

Lemma publish_frame_length msg : length (publish_frame msg) = (length msg + 2)%nat.
Proof. unfold publish_frame. simpl. rewrite length_app. simpl. lia. Qed.

Lemma publish_frame_crc msg t :
  publish_ok msg → check_msg_crc (publish_frame msg ++ t) (length (publish_frame msg)) = Ok true.
Proof.
  intros (Hno & Hp & Hl). apply check_msg_crc_app.
  unfold publish_frame. change (x01 :: msg ++ [checksum (x01 :: msg)])
    with ((x01 :: msg) ++ [checksum (x01 :: msg)]).
  rewrite length_app, Nat.add_1_r. apply frame_crc.
Qed.

(** What the broker makes of a received frame: a zero checksum byte is lost as
    the end of the C string, and the last character of the text with it. *)
Lemma publish_decode msg n :
  publish_ok msg → (0 < n)%nat →
  ∃ b, encode_mq_msg (publish_frame msg ++ replicate n NUL) = Ok b
       ∧ decode_mq_msg b = Ok (if decide (checksum (x01 :: msg) = NUL) then removelast msg else msg).
Proof.
  intros (Hno & Hp & Hl) Hn. destruct n as [|n]; [lia|].
  assert (∀ s, to_nul (publish_frame msg ++ replicate (S n) NUL) = Some s → (length s ≤ 1023)%nat →
    ∃ b, encode_mq_msg (publish_frame msg ++ replicate (S n) NUL) = Ok b
         ∧ decode_mq_msg b = Ok (inner s)) as Hgen.
  { intros s Hs Hls. pose proof (mq_def_roundtrip_lemma _ s Hs Hls) as H.
    by apply bind_ok_inv in H as (b & ? & ?); eauto. }
  assert (no_nul (x01 :: msg)) as Hno' by (by apply not_elem_of_cons).
  case_decide as Hc.
  - destruct (Hgen (x01 :: msg)) as (b & Hb & Hd); [|simpl; lia|].
    + unfold publish_frame. rewrite Hc. 
      replace ((x01 :: msg ++ [NUL]) ++ replicate (S n) NUL)
        with ((x01 :: msg) ++ NUL :: replicate (S n) NUL) by (simpl; by rewrite <-app_assoc).
      by apply to_nul_app.
    + exists b. split; [done|]. rewrite Hd. f_equal. unfold inner. cbn [length drop]. rewrite drop_0.
      rewrite removelast_firstn_len. f_equal. lia.
  - destruct (Hgen (publish_frame msg)) as (b & Hb & Hd).
    + apply to_nul_app. unfold publish_frame, no_nul in *. set_solver.
    + rewrite publish_frame_length. lia.
    + exists b. split; [done|]. rewrite Hd. unfold publish_frame. by rewrite inner_frame.
Qed.

Lemma relay_offline fd b nread m subs s out :
  decode_mq_msg b = Ok m → Forall (λ x, fd_addrs s !! x = None) subs →
  relay fd b nread subs s out
  = Ok (set_cached_msg (λ c, foldl (λ c x, map_push x m c) c subs) s, out).
Proof.
  intros Hd. revert s; induction subs as [|x subs IH]; intros s Hs; simpl; [by destruct s|].
  apply Forall_cons in Hs as [Hx Hs]. rewrite Hx, Hd, bind_ok. by rewrite IH.
Qed.

Lemma relay_online fd b nread m subs s out :
  decode_mq_msg b = Ok m → (length m + 1 < nread)%nat →
  Exists (λ x, is_Some (fd_addrs s !! x)) subs →
  relay fd b nread subs s out = Err OutOfBounds.
Proof.
  intros Hd Hn. revert s out; induction subs as [|x subs IH]; intros s out Hs; simpl.
  { by apply Exists_nil in Hs. }
  rewrite Hd, bind_ok. destruct (fd_addrs s !! x) as [v|] eqn:Hx.
  - unfold write_str. rewrite memcpy_oob; [done|].
    unfold c_str. rewrite length_app. simpl. lia.
  - apply Exists_cons in Hs as [[? ?]|Hs]; [congruence|]. by apply IH.
Qed.

Lemma lookup_push_all (x m : bytes) (subs : list bytes) (c : gmap bytes (list bytes)) :
  foldl (λ c x, map_push x m c) c subs !! x
  = if decide (x ∈ subs)
    then Some (default [] (c !! x) ++ replicate (length (filter (x =.) subs)) m)
    else c !! x.
Proof.
  revert c; induction subs as [|y subs IH]; intros c; cbn [foldl].
  { destruct (decide (x ∈ [])) as [H|H]; [by apply not_elem_of_nil in H|done]. }
  rewrite IH. unfold map_push. rewrite filter_cons.
  destruct (decide (x = y)) as [Heq|Hne].
  - subst y. rewrite lookup_insert_eq. cbn [default].
    destruct (decide (x ∈ x :: subs)) as [_|Hno]; [|by destruct Hno; apply elem_of_cons; left].
    cbn [length replicate]. case_decide as Hin; simpl; [by rewrite <-app_assoc|].
    replace (filter (x =.) subs) with (@nil bytes); [done|].
    clear IH. induction subs as [|z subs IH]; [done|]. apply not_elem_of_cons in Hin as [??].
    rewrite filter_cons_False by done. auto.
  - rewrite lookup_insert_ne by done.
    destruct (decide (x ∈ subs)) as [Hin|Hin], (decide (x ∈ y :: subs)) as [Hin'|Hin']; set_solver.
Qed.

(** A publish frame, alone in the buffer. *)
Lemma handle_publish mc msg s out :
  publish_ok msg →
  ∃ b, decode_mq_msg b = Ok (if decide (checksum (x01 :: msg) = NUL) then removelast msg else msg)
    ∧ handle_msg mc (publish_frame msg ++ replicate (1024 - length (publish_frame msg)) NUL)
        (length (publish_frame msg)) s out
      = relay (c_fd mc) b (length (publish_frame msg)) (default [] (relations s !! c_addr mc))
          (set_relations (map_touch (c_addr mc)) s) out.
Proof.
  intros Hm. pose proof Hm as (Hno & Hp & Hl). pose proof (publish_frame_length msg) as Hfl.
  destruct (publish_decode msg (1024 - length (publish_frame msg)) Hm) as (b & Hb & Hd); [lia|].
  exists b. split; [done|]. unfold handle_msg.
  rewrite (get_ok _ _ x01), bind_ok by done. rewrite decide_True by done.
  rewrite publish_frame_crc, bind_ok by done. by rewrite Hb, bind_ok, Hd, bind_ok.
Qed.

(** One task that reads one publish frame. *)
Lemma recv_publish mc msg s :
  publish_ok msg →
  ∃ b, decode_mq_msg b = Ok (if decide (checksum (x01 :: msg) = NUL) then removelast msg else msg)
    ∧ recv_msg mc [publish_frame msg] Again s
      = '(s, out) ← relay (c_fd mc) b (length msg + 2) (default [] (relations s !! c_addr mc))
                      (set_relations (map_touch (c_addr mc)) s) [];
        Ok (s, out).
Proof.
  intros Hm. destruct (handle_publish mc msg s [] Hm) as (b & Hd & Hh). exists b. split; [done|].
  pose proof Hm as (_ & _ & Hl). pose proof (publish_frame_length msg) as Hfl.
  unfold recv_msg. cbn [recv_loop]. rewrite recv_first, bind_ok, Hh, Hfl by lia.
  clear Hh. by destruct (relay _ _ _ _ _ _) as [[]| |].
Qed.

(** The calls that are made are added to those made before. *)
Lemma relay_out fd b nread subs s out :
  relay fd b nread subs s out = '(s, o) ← relay fd b nread subs s []; Ok (s, out ++ o).
Proof.
  revert s out; induction subs as [|x subs IH]; intros s out; cbn [relay]; [by rewrite bind_ok, app_nil_r|].
  destruct (fd_addrs s !! x); destruct (decode_mq_msg b) as [m| |]; try done; rewrite !bind_ok; [|apply IH].
  destruct (write_str fd m nread) as [w| |]; try done. rewrite !bind_ok.
  rewrite IH, (IH _ ([] ++ _)). destruct (relay _ _ _ _ _ []) as [[s' o]| |]; [|done..].
  rewrite !bind_ok. by rewrite app_nil_l, !app_assoc.
Qed.

Lemma handle_msg_out mc buf n s out :
  handle_msg mc buf n s out = '(s, o) ← handle_msg mc buf n s []; Ok (s, out ++ o).
Proof.
  unfold handle_msg. destruct (get buf 0) as [k| |]; [|done..]. rewrite !bind_ok.
  case_decide; [|case_decide; [|case_decide; [|case_decide; [|case_decide]]]];
    rewrite ?bind_ok, ?app_nil_r; try done.
  - destruct (check_msg_crc buf n) as [[]| |]; rewrite ?bind_ok, ?app_nil_r; try done.
    destruct (encode_mq_msg buf) as [b| |]; try done. rewrite !bind_ok.
    destruct (decode_mq_msg b); try done. rewrite !bind_ok. apply relay_out.
  - destruct (copy_name buf n) as [nm| |]; try done. rewrite !bind_ok.
    destruct (cstr nm 0); try done. rewrite !bind_ok. case_match; by rewrite bind_ok, app_nil_r.
  - destruct (map_erase_found (c_addr mc) (fd_addrs s)) as [f| |]; try done. rewrite !bind_ok.
    destruct (map_erase_found (c_addr mc) (relations s)) as [r| |]; try done. by rewrite !bind_ok, app_nil_r.
  - destruct (copy_name buf n); try done. by rewrite !bind_ok, app_nil_r.
Qed.

Lemma recv_loop_out mc reads buf s out :
  recv_loop mc reads buf s out = '(s, o) ← recv_loop mc reads buf s []; Ok (s, out ++ o).
Proof.
  revert buf s out; induction reads as [|r reads IH]; intros buf s out; cbn [recv_loop]; [by rewrite bind_ok, app_nil_r|].
  destruct (memcpy _ _ _ _ _) as [b| |]; try done. rewrite !bind_ok, handle_msg_out.
  destruct (handle_msg mc b (length r) s []) as [[s1 o1]| |]; [|done..]. rewrite !bind_ok.
  rewrite IH, (IH _ _ o1). destruct (recv_loop mc reads b s1 []) as [[s2 o2]| |]; [|done..].
  by rewrite !bind_ok, app_assoc.
Qed.

(** ** Properties of the broker *)

(** Publishing, from the client's [send] to the broker's state. A message
    whose checksum is not zero, published on a connection whose subscribers are
    all off line, is appended to the cache of each subscriber, once per
    subscription; nothing else in the broker changes and nothing is written. *)
Theorem publish_caches_offline mc msg subs s write r f :
  publish_ok msg → checksum (x01 :: msg) ≠ NUL → send write msg = Ok (f, r) →
  relations s !! c_addr mc = Some subs → Forall (λ x, fd_addrs s !! x = None) subs →
  ∃ c, recv_msg mc [f] Again s = Ok (set_cached_msg (λ _, c) s, [])
    ∧ ∀ x, c !! x = if decide (x ∈ subs)
                    then Some (default [] (cached_msg s !! x)
                               ++ replicate (length (filter (x =.) subs)) msg)
                    else cached_msg s !! x.
Proof.
  intros Hm Hc Hsend Hrel Hoff. pose proof Hm as (Hno & Hp & Hl).
  rewrite send_writes in Hsend by done. injection Hsend as <- _.
  destruct (recv_publish mc msg s Hm) as (b & Hd & E). rewrite decide_False in Hd by done.
  exists (foldl (λ c x, map_push x msg c) (cached_msg s) subs). split.
  - unfold publish_frame in E. rewrite E, Hrel. cbn [default].
    rewrite (relay_offline _ _ _ msg), bind_ok by done.
    unfold set_cached_msg, set_relations, map_touch, map_insert. cbn. by rewrite Hrel.
  - intros x. apply lookup_push_all.
Qed.

(** Publishing to a subscriber that is connected always reads past the
    end of the message: [write] is given the size of the frame, two more than
    the text it is given. *)
Theorem publish_online_overreads mc msg subs s write r f :
  publish_ok msg → send write msg = Ok (f, r) →
  relations s !! c_addr mc = Some subs → Exists (λ x, is_Some (fd_addrs s !! x)) subs →
  recv_msg mc [f] Again s = Err OutOfBounds.
Proof.
  intros Hm Hsend Hrel Hon. pose proof Hm as (Hno & Hp & Hl).
  rewrite send_writes in Hsend by done. injection Hsend as <- _.
  destruct (recv_publish mc msg s Hm) as (b & Hd & E). unfold publish_frame in E. rewrite E, Hrel.
  cbn [default]. erewrite relay_online; [done|exact Hd| |done].
  assert (length (removelast msg) ≤ length msg)%nat.
  { rewrite removelast_firstn_len, length_firstn. lia. }
  case_decide; lia.
Qed.

(** Subscribing, from the client's [register_mq] to the broker's state:
    the subscriber is known from then on (an address that is known keeps its
    descriptor), and it is added to the publisher's subscribers exactly if the
    publisher's address is known. *)
Theorem subscribe_effect mc name s write r f :
  text_ok name → register_mq write 1 (c_str name) = Ok (f, r) →
  let s1 := set_fd_addrs (map_insert (c_addr mc) (c_fd mc)) s in
  recv_msg mc [f] Again s
  = Ok (match fd_addrs s1 !! name with
        | Some _ => set_relations (map_push name (c_addr mc)) s1
        | None => s1
        end, []).
Proof.
  intros Hn Hreg s1. pose proof Hn as [Hno Hl].
  unfold register_mq in Hreg. rewrite control_frame_role1 in Hreg by done.
  injection Hreg as <- _.
  assert (length (x04 :: name ++ [NUL]) = (length name + 2)%nat) as Hlen
    by (simpl; rewrite length_app; simpl; lia).
  unfold recv_msg. cbn [recv_loop]. rewrite recv_first, bind_ok by lia.
  unfold handle_msg. rewrite (get_ok _ _ x04), bind_ok by done.
  rewrite !decide_False by done. rewrite decide_True by done.
  unfold copy_name. rewrite Hlen.
  replace (size_t (Z.of_nat (length name + 2) - 2)) with (Z.of_nat (length name))
    by (unfold size_t; rewrite Z.mod_small; lia).
  rewrite memcpy_ok, bind_ok.
  2:{ rewrite length_replicate. lia. }
  2:{ rewrite length_app, Hlen. lia. }
  rewrite take_0. cbn [app drop]. rewrite drop_0, <-app_assoc, take_app_length, drop_replicate.
  replace (128 - (0 + length name))%nat with (S (127 - length name)) by lia. cbn [replicate].
  rewrite cstr_prefix, bind_ok by done. fold s1. by destruct (fd_addrs s1 !! name).
Qed.

(** The status machine of mq_conn.cpp wants the last byte of a message to be its
    first one; of the frames of [send] these are those whose text sums up to 0. *)
Theorem status_machine_frames msg :
  publish_ok msg →
  read_mq_msg_status_machine (publish_frame msg) (length (publish_frame msg))
  = Ok (if decide (byte_sum msg mod 256 = 0) then MQ_FINISH else MQ_ERROR).
Proof.
  intros _. unfold read_mq_msg_status_machine, publish_frame. rewrite (get_ok _ _ x01), bind_ok by done.
  cbn [length]. rewrite length_app, Nat.add_1_r. rewrite (get_ok _ _ (checksum (x01 :: msg))), !bind_ok.
  2:{ change (x01 :: msg ++ ?l) with ((x01 :: msg) ++ l).
      by rewrite lookup_app_r, Nat.sub_diag by (simpl; lia). }
  unfold checksum. f_equal. cbn [byte_sum].
  assert (to_char (byte_val x01 + byte_sum msg) = x01 ↔ byte_sum msg mod 256 = 0) as Hiff.
  { change x01 with (to_char 1) at 2. change (byte_val x01) with 1. split.
    - intros H%to_char_inj. Z.to_euclidean_division_equations. lia.
    - intros H. unfold to_char. do 2 f_equal. Z.to_euclidean_division_equations. lia. }
  by do 2 case_decide; try tauto.
Qed.

(** [get_ip_port_from_publisher_name] cuts the name at its first colon, and does
    not stop at the end of a name without one. *)
Theorem publisher_name_cut ip tl :
  (":"%char ∉ ip → no_nul ip → get_ip_port_from_publisher_name (ip ++ ":"%char :: tl) = Ok (ip, ip ++ NUL :: tl))
  ∧ (":"%char ∉ tl → get_ip_port_from_publisher_name tl = Err OutOfBounds).
Proof.
  assert (∀ s t p, ":"%char ∉ s → find_colon (s ++ t) p = find_colon t (p + length s)) as Hfind.
  { induction s as [|c s IH]; intros t p Hs; cbn; [by rewrite Nat.add_0_r|].
    apply not_elem_of_cons in Hs as [Hc Hs]. rewrite decide_False by congruence. rewrite IH by done. f_equal. lia. }
  split; intros.
  - unfold get_ip_port_from_publisher_name. rewrite Hfind by done. cbn. unfold put.
    rewrite decide_True, bind_ok by done. rewrite decide_True by (rewrite length_app; simpl; lia). rewrite bind_ok, insert_app_r_alt, Nat.sub_diag by lia.
    cbn. by rewrite cstr_prefix, bind_ok.
  - unfold get_ip_port_from_publisher_name. rewrite <-(app_nil_r tl), Hfind by done. done.
Qed.

(** Control messages are copied without a look at their size: a subscribe
    (or unsubscribe) message shorter than two bytes, or with more than 128
    bytes of text, makes [memcpy] write outside [publisher_name]. *)
Theorem control_size_unchecked mc k t s :
  k = x04 ∨ k = x16 → (length (k :: t) < 2 ∨ 130 < length (k :: t))%nat →
  (length (k :: t) ≤ 1023)%nat →
  recv_msg mc [k :: t] Again s = Err OutOfBounds.
Proof.
  intros Hk Ht Hl. unfold recv_msg. cbn [recv_loop]. rewrite recv_first, bind_ok by lia.
  unfold handle_msg. rewrite (get_ok _ _ k), bind_ok by done.
  assert (copy_name ((k :: t) ++ replicate (1024 - length (k :: t)) NUL) (length (k :: t)) = Err OutOfBounds) as Hc.
  { unfold copy_name. apply memcpy_oob. rewrite length_replicate.
    unfold size_t. right. left. destruct Ht as [Ht|Ht].
    - destruct t; [|simpl in *; lia]. vm_compute. done.
    - rewrite Z.mod_small by lia. lia. }
  destruct Hk as [-> | ->]; rewrite ?decide_False by done; rewrite decide_True by done; by rewrite Hc.
Qed.

(** A publisher that unregisters before anybody has subscribed to it or it
    has published makes the broker erase the end iterator; otherwise its
    address and its subscribers are forgotten, but not its place in the list of
    publishers. *)
Theorem unregister_effect mc s write r f :
  unregister_mq write 0 [] = Ok (f, r) →
  is_Some (fd_addrs s !! c_addr mc) →
  recv_msg mc [f] Again s
  = match relations s !! c_addr mc with
    | None => Err BadIterator
    | Some _ => Ok (Mqs (delete (c_addr mc) (relations s)) (publishers s)
                        (delete (c_addr mc) (fd_addrs s)) (cached_msg s), [])
    end.
Proof.
  intros Hf [v Hv]. unfold unregister_mq in Hf. rewrite control_frame_role0 in Hf by done.
  injection Hf as <- _. unfold recv_msg. cbn [recv_loop]. rewrite recv_first, bind_ok by (simpl; lia).
  unfold handle_msg. rewrite (get_ok _ _ x08), bind_ok by done.
  rewrite !decide_False by done. rewrite decide_True by done.
  unfold map_erase_found. rewrite Hv, bind_ok. by destruct (relations s !! c_addr mc).
Qed.

(** ** What no task ever does *)

(** The writes of a task go to one descriptor, and caches only grow. *)
Definition to_fd (fd : Z) (out : list io) : Prop := ∀ fd' d, Write fd' d ∈ out → fd' = fd.
Definition caches_grow (s s' : message_queue_server) : Prop :=
  ∀ x, default [] (cached_msg s !! x) `prefix_of` default [] (cached_msg s' !! x).

#[export] Instance caches_grow_preorder : PreOrder caches_grow.
Proof. split; [intros ??; done|]. intros s1 s2 s3 H1 H2 x. etrans; [apply H1|apply H2]. Qed.

Lemma caches_grow_same s s' : cached_msg s = cached_msg s' → caches_grow s s'.
Proof. unfold caches_grow. by intros ->. Qed.

Lemma caches_grow_push x m s : caches_grow s (set_cached_msg (map_push x m) s).
Proof.
  intros y. unfold map_push. cbn. destruct (decide (x = y)) as [->|Hne].
  - rewrite lookup_insert_eq. by apply prefix_app_r.
  - by rewrite lookup_insert_ne.
Qed.

Lemma caches_grow_touch x s : caches_grow s (set_cached_msg (map_touch x) s).
Proof.
  intros y. unfold map_touch, map_insert. cbn. destruct (cached_msg s !! x) eqn:E; [done|].
  destruct (decide (x = y)) as [->|Hne]; [by rewrite lookup_insert_eq, E|by rewrite lookup_insert_ne].
Qed.

Lemma to_fd_app fd out out' : to_fd fd out → to_fd fd out' → to_fd fd (out ++ out').
Proof. unfold to_fd. intros ?? ?? [?|?]%elem_of_app; eauto. Qed.

Lemma relay_effects fd b n subs s out s' out' :
  relay fd b n subs s out = Ok (s', out') → to_fd fd out → to_fd fd out' ∧ caches_grow s s'.
Proof.
  revert s out; induction subs as [|x subs IH]; intros s out H Hout; simpl in H.
  { injection H as <- <-. done. }
  destruct (fd_addrs s !! x); ok_inv.
  - destruct (IH _ _ H) as [? Hg]; [|split; [done|]; by etrans; [apply caches_grow_touch|]].
    apply to_fd_app; [done|]. unfold write_str in *. ok_inv.
    intros fd' d [Hin|Hin]%elem_of_app.
    + apply list_elem_of_In, in_map_iff in Hin as (? & [= <- <-] & _). done.
    + apply list_elem_of_singleton in Hin. by injection Hin.
  - destruct (IH _ _ H) as [? Hg]; [done|]. split; [done|]. by etrans; [apply caches_grow_push|].
Qed.

Lemma handle_msg_effects mc buf n s out s' out' :
  handle_msg mc buf n s out = Ok (s', out') → to_fd (c_fd mc) out →
  to_fd (c_fd mc) out' ∧ caches_grow s s'.
Proof.
  unfold handle_msg. intros H Hout. ok_inv. repeat case_decide; ok_inv.
  - case_match; ok_inv; [|done].
    apply relay_effects in H as [? Hg]; [|done]. split; [done|]. by etrans; [|exact Hg]; apply caches_grow_same.
  - split; [done|]. by apply caches_grow_same.
  - case_match; ok_inv; (split; [done|]; by apply caches_grow_same).
  - split; [done|]. by apply caches_grow_same.
  - done.
  - done.
Qed.

Lemma recv_loop_effects mc reads buf s out s' out' :
  recv_loop mc reads buf s out = Ok (s', out') → to_fd (c_fd mc) out →
  to_fd (c_fd mc) out' ∧ caches_grow s s'.
Proof.
  revert buf s out; induction reads as [|r reads IH]; intros buf s out H Hout; simpl in H.
  { injection H as <- <-. done. }
  apply bind_ok_inv in H as (buf' & _ & H). apply bind_ok_inv in H as ([s1 out1] & H1 & H).
  destruct (handle_msg_effects _ _ _ _ _ _ _ H1 Hout) as [Ho1 Hg1].
  destruct (IH _ _ _ H Ho1) as [? Hg]. split; [done|]. by etrans.
Qed.

(** What a task never does, for any bytes it reads: it never writes to a
    descriptor other than the one it reads from (so a relayed message goes back
    to the publisher, not to the subscriber), and it never takes a message out
    of a cache. *)
Theorem recv_msg_never mc reads fin s s' out :
  recv_msg mc reads fin s = Ok (s', out) →
  (∀ fd d, Write fd d ∈ out → fd = c_fd mc)
  ∧ ∀ x, default [] (cached_msg s !! x) `prefix_of` default [] (cached_msg s' !! x).
Proof.
  intros H. unfold recv_msg in H. apply bind_ok_inv in H as ([s1 out1] & H1 & H).
  destruct (recv_loop_effects _ _ _ _ _ _ _ H1) as [Ho Hg]; [by intros ?? ?%not_elem_of_nil|].
  destruct fin; injection H as <- <-; (split; [|done]); [|done].
  apply to_fd_app; [done|]. intros fd d Hin. set_solver.
Qed.

(** ** Witnesses *)

Definition demo_conn : mq_conn := MqConn 7 3 (bs "10.0.0.1").
Definition demo_server (online : gmap bytes Z) : message_queue_server :=
  Mqs {[ bs "10.0.0.1" := [bs "10.0.0.2"] ]} [bs "10.0.0.1"] online {[ bs "10.0.0.2" := [bs "old"] ]}.

Ltac demo_text := unfold no_nul; vm_compute; set_solver.

Lemma demo_publish_ok : publish_ok (bs "hi").
Proof. split_and!; [demo_text..|simpl; lia]. Qed.

Lemma publish_caches_offline_witness :
  ∃ c, recv_msg demo_conn [publish_frame (bs "hi")] Again (demo_server ∅)
         = Ok (set_cached_msg (λ _, c) (demo_server ∅), [])
    ∧ ∀ x, c !! x = if decide (x ∈ [bs "10.0.0.2"])
                    then Some (default [] (cached_msg (demo_server ∅) !! x)
                               ++ replicate (length (filter (x =.) [bs "10.0.0.2"])) (bs "hi"))
                    else cached_msg (demo_server ∅) !! x.
Proof.
  apply (publish_caches_offline demo_conn (bs "hi") [bs "10.0.0.2"] (demo_server ∅) (λ _, 4) 0);
    [apply demo_publish_ok|vm_compute; discriminate|vm_compute; reflexivity|vm_compute; reflexivity|].
  repeat constructor.
Defined.

Lemma publish_online_overreads_witness :
  recv_msg demo_conn [publish_frame (bs "hi")] Again (demo_server {[ bs "10.0.0.2" := 9 ]})
  = Err OutOfBounds.
Proof.
  apply (publish_online_overreads demo_conn (bs "hi") [bs "10.0.0.2"]
           (demo_server {[ bs "10.0.0.2" := 9 ]}) (λ _, 4) 0);
    [apply demo_publish_ok|vm_compute; reflexivity|vm_compute; reflexivity|].
  apply Exists_cons_hd. exists 9. vm_compute. reflexivity.
Defined.

Lemma subscribe_effect_witness :
  let mc := MqConn 8 3 (bs "10.0.0.3") in
  let s := demo_server {[ bs "10.0.0.1" := 7 ]} in
  let s1 := set_fd_addrs (map_insert (bs "10.0.0.3") 8) s in
  recv_msg mc [x04 :: bs "10.0.0.1" ++ [NUL]] Again s
  = Ok (match fd_addrs s1 !! bs "10.0.0.1" with
        | Some _ => set_relations (map_push (bs "10.0.0.1") (bs "10.0.0.3")) s1
        | None => s1
        end, []).
Proof.
  apply (subscribe_effect (MqConn 8 3 (bs "10.0.0.3")) (bs "10.0.0.1")
           (demo_server {[ bs "10.0.0.1" := 7 ]}) (λ _, 10) 0);
    [split; [demo_text|simpl; lia]|vm_compute; reflexivity].
Defined.

Lemma control_size_unchecked_witness :
  recv_msg demo_conn [[x04]] Again (demo_server ∅) = Err OutOfBounds.
Proof. apply (control_size_unchecked demo_conn x04 [] (demo_server ∅)); [by left|simpl; lia|simpl; lia]. Defined.

Lemma unregister_effect_witness :
  let s := Mqs ∅ [bs "10.0.0.1"] {[ bs "10.0.0.1" := 7 ]} ∅ in
  recv_msg demo_conn [[x08; NUL]] Again s = Err BadIterator.
Proof.
  etrans; [apply (unregister_effect demo_conn (Mqs ∅ [bs "10.0.0.1"] {[ bs "10.0.0.1" := 7 ]} ∅)
             (λ _, 2) 1); [vm_compute; reflexivity|by exists 7]|vm_compute; reflexivity].
Defined.

(** Two reads of one task: the bytes of a longer first message are still in
    the buffer, so that the relayed text is long enough for [write]. *)
Definition stale_reads : list bytes :=
  [ "~"%char :: bs "xxxxxxxxxxxxxxxx"; publish_frame (bs "hi") ].
Definition stale_server : message_queue_server := demo_server {[ bs "10.0.0.2" := 9 ]}.

Lemma recv_msg_never_witness :
  let '(s', out) := match recv_msg demo_conn stale_reads Eof stale_server with
                    | Ok r => r | _ => (stale_server, []) end in
  out = [Write 7 (bs "old"); Write 7 (bs "hi" ++ [to_char 210; "x"%char]); EpollDel 7; Close 7; Delete demo_conn]
  ∧ (∀ fd d, Write fd d ∈ out → fd = 7)
  ∧ ∀ x, default [] (cached_msg stale_server !! x) `prefix_of` default [] (cached_msg s' !! x).
Proof.
  destruct (recv_msg demo_conn stale_reads Eof stale_server) as [[s' out]| |] eqn:E;
    [|vm_compute in E; discriminate..].
  split; [vm_compute in E; injection E as _ <-; reflexivity|].
  apply (recv_msg_never demo_conn stale_reads Eof stale_server s' out E).
Defined.
