(* ===== verification/MqStream.v ===== *)
(** * What the broker makes of a stream of messages

    [recv_msg] takes every [read] for one message, although TCP keeps no
    boundaries: two messages that one [read] delivers, or one that takes two,
    are lost, and a message that is read behind a longer one of the same task
    carries the end of that one. *)

From S2P Require Import Prelude Buffer MqDef MqClient MqServer.
Open Scope Z_scope.

(** ** Publications in a buffer that has been used *)

Lemma handle_publish_text mc msg t str s out :
  publish_ok msg → to_nul (publish_frame msg ++ t) = Some str → (length str ≤ 1023)%nat →
  ∃ b, decode_mq_msg b = Ok (inner str)
    ∧ handle_msg mc (publish_frame msg ++ t) (length (publish_frame msg)) s out
      = relay (c_fd mc) b (length (publish_frame msg)) (default [] (relations s !! c_addr mc))
          (set_relations (map_touch (c_addr mc)) s) out.
Proof.
  intros Hm Ht Hl. pose proof (mq_def_roundtrip_lemma _ str Ht Hl) as H.
  apply bind_ok_inv in H as (b & Hb & Hd). exists b. split; [done|]. unfold handle_msg.
  rewrite (get_ok _ _ x01), bind_ok by done. rewrite decide_True by done.
  rewrite publish_frame_crc, bind_ok by done. by rewrite Hb, bind_ok, Hd, bind_ok.
Qed.

(** The text is appended to the caches of subscribers that are off line. *)
Definition cache_for (subs : list bytes) (text : bytes) (s : message_queue_server) : message_queue_server :=
  set_cached_msg (λ c, foldl (λ c x, map_push x text c) c subs) s.

Lemma handle_offline mc msg t str subs s out :
  publish_ok msg → to_nul (publish_frame msg ++ t) = Some str → (length str ≤ 1023)%nat →
  relations s !! c_addr mc = Some subs → Forall (λ x, fd_addrs s !! x = None) subs →
  handle_msg mc (publish_frame msg ++ t) (length (publish_frame msg)) s out = Ok (cache_for subs (inner str) s, out).
Proof.
  intros Hm Ht Hl Hrel Hoff. destruct (handle_publish_text mc msg t str s out Hm Ht Hl) as (b & Hd & ->).
  rewrite Hrel. cbn [default]. rewrite (relay_offline _ _ _ (inner str)) by done.
  unfold cache_for, set_cached_msg, set_relations, map_touch, map_insert. cbn. by rewrite Hrel.
Qed.

(** What the broker caches of [b] when its task has read [a] before. *)
Definition text_behind (a b : bytes) : bytes :=
  if decide (length a ≤ length b)%nat then b else b ++ checksum (x01 :: b) :: drop (S (length b)) a.

Lemma publish_frame_no_nul msg : publish_ok msg → checksum (x01 :: msg) ≠ NUL → no_nul (publish_frame msg).
Proof. intros (Hno & _ & _) Hc. unfold publish_frame, no_nul in *. set_solver. Qed.

(** The C string in the buffer. *)
Lemma text_behind_read a b :
  publish_ok a → publish_ok b → checksum (x01 :: a) ≠ NUL → checksum (x01 :: b) ≠ NUL →
  let n := length (publish_frame b) in
  ∃ str, to_nul (publish_frame b ++ drop n (publish_frame a ++ replicate (1024 - length (publish_frame a)) NUL)) = Some str
    ∧ (length str ≤ 1023)%nat ∧ inner str = text_behind a b.
Proof.
  intros Ha Hb Hca Hcb n. pose proof (publish_frame_no_nul a Ha Hca) as Hna. pose proof (publish_frame_no_nul b Hb Hcb) as Hnb.
  pose proof (publish_frame_length a) as Hla. pose proof (publish_frame_length b) as Hlb.
  destruct Ha as (Hno & _ & Hl1), Hb as (_ & _ & Hl2). unfold text_behind. case_decide as Hle.
  - exists (publish_frame b). split_and!; [|lia|by apply inner_frame].
    rewrite drop_app, (drop_ge (publish_frame a)) by lia. rewrite drop_replicate. cbn [app].
    replace (1024 - length (publish_frame a) - (n - length (publish_frame a)))%nat with (S (1023 - n)) by lia.
    by apply to_nul_app.
  - assert (drop n (publish_frame a) = drop (S (length b)) a ++ [checksum (x01 :: a)]) as Hd.
    { unfold n. rewrite Hlb. unfold publish_frame. replace (length b + 2)%nat with (S (S (length b))) by lia. cbn [drop].
      rewrite drop_app. replace (S (length b) - length a)%nat with 0%nat by lia. done. }
    exists (publish_frame b ++ drop n (publish_frame a)). split_and!.
    + rewrite drop_app. replace (n - length (publish_frame a))%nat with 0%nat by lia. rewrite drop_0.
      replace (1024 - length (publish_frame a))%nat with (S (1023 - length (publish_frame a))) by lia. cbn [replicate].
      rewrite app_assoc. apply to_nul_app. apply no_nul_app; [done|]. unfold no_nul in *. intros H. by apply Hna, (subseteq_drop n).
    + rewrite length_app, length_drop. lia.
    + rewrite Hd. unfold publish_frame.
      replace ((x01 :: b ++ [checksum (x01 :: b)]) ++ drop (S (length b)) a ++ [checksum (x01 :: a)])
        with (x01 :: (b ++ checksum (x01 :: b) :: drop (S (length b)) a) ++ [checksum (x01 :: a)])
        by (cbn; by rewrite <-!app_assoc).
      by rewrite inner_frame.
Qed.

(** ** Reads that are not a message *)

(** A read that begins like a publication and does not end with the checksum of
    the rest. *)
Lemma handle_bad_sum mc p c t s out :
  c ≠ checksum (x01 :: p) → handle_msg mc ((x01 :: p ++ [c]) ++ t) (length (x01 :: p ++ [c])) s out = Ok (s, out).
Proof.
  intros Hc. unfold handle_msg. rewrite (get_ok _ _ x01), bind_ok by done. rewrite decide_True by done.
  cbn [length]. rewrite length_app, Nat.add_1_r. cbn [length].
  rewrite (check_msg_crc_spec _ _ c); cycle 1.
  { rewrite lookup_app_l by (cbn; rewrite length_app; cbn; lia).
    change (x01 :: p ++ [c]) with ((x01 :: p) ++ [c]). by rewrite lookup_app_r, Nat.sub_diag by (cbn; lia). }
  rewrite bind_ok. assert (take (S (length p)) ((x01 :: p ++ [c]) ++ t) = x01 :: p) as ->.
  { change (x01 :: p ++ [c]) with ((x01 :: p) ++ [c]). rewrite <-app_assoc. by rewrite take_app_length' by done. }
  by rewrite bool_decide_eq_false_2.
Qed.

Definition kinds : list ascii := [x01; x02; x04; x08; x16].

Lemma handle_no_kind mc k p n s out : k ∉ kinds → handle_msg mc (k :: p) n s out = Ok (s, out).
Proof.
  intros Hk. unfold handle_msg. rewrite (get_ok _ _ k), bind_ok by done. unfold kinds in Hk.
  rewrite !decide_False; [done|set_solver..].
Qed.

(** One message in a read, and the rest of the task; the buffer that it leaves. *)
Lemma recv_loop_cons mc r reads buf s out :
  length buf = 1024%nat → (length r ≤ 1023)%nat →
  recv_loop mc (r :: reads) buf s out
  = '(s, out) ← handle_msg mc (r ++ drop (length r) buf) (length r) s out;
    recv_loop mc reads (r ++ drop (length r) buf) s out.
Proof. intros Hb Hr. cbn [recv_loop]. rewrite memcpy_ok by lia. by rewrite take_0, drop_0, take_ge by lia. Qed.

Lemma recv_buf_behind (r : bytes) : drop (length r) recv_buf = replicate (1024 - length r) NUL.
Proof. unfold recv_buf. by rewrite drop_replicate. Qed.

Lemma doubled_sum a b :
  checksum (x01 :: b) = checksum (x01 :: a ++ checksum (x01 :: a) :: x01 :: b) → byte_sum (x01 :: a) mod 128 = 0.
Proof.
  unfold checksum. intros H%to_char_inj. set (sa := byte_sum (x01 :: a)) in *.
  change (x01 :: a ++ to_char sa :: x01 :: b) with ((x01 :: a) ++ [to_char sa] ++ (x01 :: b)) in H.
  rewrite !byte_sum_app in H. fold sa in H.
  assert (byte_sum [to_char sa] = sa mod 256) as Hs by (rewrite <-byte_val_to_char; apply Z.add_0_r). rewrite Hs in H.
  generalize dependent (byte_sum (x01 :: b)). clearbody sa. clear Hs. intros sb H. Z.to_euclidean_division_equations. lia.
Qed.

(** ** Property *)

(** C39: the broker and the stream. Two publications for subscribers that are off
    line: if each has a [read] of its own, in one task, both texts are cached,
    in order and once per subscription, but the second one is followed by its
    checksum and the end of the first one if it is shorter. If one [read]
    delivers both, both are lost, unless the first one's sum is a multiple of
    128; a publication that arrives with the registration of its publisher is
    lost, too, as is one that takes two [read]s, unless the first part happens
    to end with its checksum or the second one begins like a message. *)
Theorem publications_by_reads mc a b subs s fin :
  publish_ok a → publish_ok b → checksum (x01 :: a) ≠ NUL → checksum (x01 :: b) ≠ NUL →
  relations s !! c_addr mc = Some subs → Forall (λ x, fd_addrs s !! x = None) subs →
  let fa := publish_frame a in let fb := publish_frame b in
  (∃ c, recv_msg mc [fa; fb] Again s = Ok (set_cached_msg (λ _, c) s, [])
     ∧ ∀ x n, x ∈ subs → n = length (filter (x =.) subs) →
         c !! x = Some (default [] (cached_msg s !! x) ++ replicate n a ++ replicate n (text_behind a b)))
  ∧ (byte_sum (x01 :: a) mod 128 ≠ 0 → recv_msg mc [fa ++ fb] fin s = recv_msg mc [] fin s)
  ∧ recv_msg mc [[x02; NUL] ++ fa] fin s = recv_msg mc [[x02; NUL]] fin s
  ∧ (∀ p c k q, fa = (x01 :: p ++ [c]) ++ k :: q → c ≠ checksum (x01 :: p) → k ∉ kinds →
       recv_msg mc [x01 :: p ++ [c]; k :: q] fin s = recv_msg mc [] fin s).
Proof.
  intros Ha Hb Hca Hcb Hrel Hoff fa fb.
  assert (length fa ≤ 128 ∧ length fb ≤ 128)%nat as [Hla Hlb].
  { unfold fa, fb. rewrite !publish_frame_length. destruct Ha as (_ & _ & ?), Hb as (_ & _ & ?). lia. }
  assert (length recv_buf = 1024%nat) as Hbuf by done. split_and!.
  - destruct (text_behind_read a b Ha Hb Hca Hcb) as (str & Hstr & Hls & Hin).
    exists (foldl (λ c x, map_push x (text_behind a b) c) (foldl (λ c x, map_push x a c) (cached_msg s) subs) subs). split.
    + unfold recv_msg. rewrite recv_loop_cons, recv_buf_behind by (done || lia).
      assert (to_nul (fa ++ replicate (1024 - length fa) NUL) = Some fa) as Hfa.
      { replace (1024 - length fa)%nat with (S (1023 - length fa)) by lia. by apply to_nul_app, publish_frame_no_nul. }
      rewrite (handle_offline mc a _ fa subs), bind_ok by (done || lia).
      rewrite recv_loop_cons by (rewrite ?length_app, ?length_replicate; lia).
      rewrite (handle_offline mc b _ str subs), bind_ok, Hin by done. cbn [recv_loop].
      rewrite bind_ok. assert (inner fa = a) as -> by apply inner_frame. done.
    + intros x n Hx ->. rewrite !lookup_push_all, !decide_True by done. cbn [from_option id]. by rewrite <-app_assoc.
  - intros Hsum. unfold recv_msg.
    assert (fa ++ fb = x01 :: (a ++ checksum (x01 :: a) :: x01 :: b) ++ [checksum (x01 :: b)]) as E
      by (unfold fa, fb, publish_frame; cbn; by rewrite <-!app_assoc).
    rewrite recv_loop_cons by (done || (rewrite length_app; lia)). rewrite E, handle_bad_sum; [by rewrite bind_ok|].
    intros H. by apply Hsum, (doubled_sum a b).
  - unfold recv_msg. rewrite recv_loop_cons by (done || (rewrite length_app; cbn [length]; lia)).
    rewrite (recv_loop_cons mc [x02; NUL]) by (done || (cbn; lia)).
    unfold handle_msg. by rewrite !(get_ok _ _ x02), !bind_ok by done.
  - intros p c k q E Hc Hk. pose proof (f_equal length E) as Hl. rewrite length_app in Hl. unfold recv_msg.
    rewrite recv_loop_cons by (done || lia). rewrite handle_bad_sum, bind_ok by done.
    rewrite recv_loop_cons by (rewrite ?length_app, ?length_drop; lia). cbn [app].
    by rewrite handle_no_kind, bind_ok by done.
Qed.

(** ** Witness *)

Definition offline_broker : message_queue_server := Mqs {[bs "10.0.0.7" := [bs "s"; bs "t"]]} [] ∅ ∅.

Lemma publications_by_reads_witness :
  let fa := publish_frame (bs "hello") in let fb := publish_frame (bs "hi") in
  let mc := MqConn 7 4 (bs "10.0.0.7") in
  (∃ c, recv_msg mc [fa; fb] Again offline_broker = Ok (set_cached_msg (λ _, c) offline_broker, [])
     ∧ ∀ x n, x ∈ [bs "s"; bs "t"] → n = length (filter (x =.) [bs "s"; bs "t"]) →
         c !! x = Some ([] ++ replicate n (bs "hello") ++ replicate n (bs "hi" ++ to_char 210 :: bs "lo")))
  ∧ recv_msg mc [fa ++ fb] Again offline_broker = Ok (offline_broker, []).
Proof.
  assert (publish_ok (bs "hello") ∧ publish_ok (bs "hi")) as [Ha Hb].
  { unfold publish_ok, no_nul. split; (split_and!; [vm_compute; set_solver..|vm_compute; lia]). }
  destruct (publications_by_reads (MqConn 7 4 (bs "10.0.0.7")) (bs "hello") (bs "hi") [bs "s"; bs "t"] offline_broker Again)
    as (H1 & H2 & _); [done|done|vm_compute; discriminate..|reflexivity|by repeat constructor|].
  split; [exact H1|]. rewrite H2; [reflexivity|vm_compute; discriminate].
Defined.
