(* ===== verification/JobQueue.v ===== *)
(** * The task queue: job_queue.h, job_queue.cpp, stage_queue.h, stage_queue.cpp

    [mutex_task_queue] is a bounded queue protected by one mutex and two
    condition variables.  The bodies of [push] and [pop] between [lock] and
    [unlock] are functions on the fields; around them stands the state machine
    of the threads: a thread asks for the mutex, holds it, sleeps on the
    condition variable of its operation, or has done its work and is about to
    unlock.  [next] makes one move; the scheduler, the thread that a signal
    wakes, and the spurious wake-ups are the choices in the move. *)

From S2P Require Import Prelude.
Open Scope Z_scope.

Section queue.
Context {A : Type}.

(** ** Fields and critical sections *)

Record task_queue := Tq {
  empty : bool;
  full : bool;
  max_queue_size : Z;
  queue : list A }.

Definition task_queue_new : task_queue := Tq true false 2000 [].

Definition size (q : list A) : Z := Z.of_nat (length q).

(** job_queue.cpp:33-39; the flag of the result is [pthread_cond_signal(&not_empty)]. *)
Definition push_body (qe : A) (s : task_queue) : task_queue * bool :=
  let q := queue s ++ [qe] in
  let signal := empty s in
  let full := if to_int (size q) =? max_queue_size s then true else full s in
  (Tq false full (max_queue_size s) q, signal).

(** job_queue.cpp:51-57; [front] of an empty [std::queue] is undefined. *)
Definition pop_body (s : task_queue) : outcome (A * task_queue * bool) :=
  match queue s with
  | [] => Err OutOfBounds
  | qe_front :: q =>
      let empty := if to_int (size q) =? 0 then true else empty s in
      let signal := full s in
      Ok (qe_front, Tq empty false (max_queue_size s) q, signal)
  end.

Inductive op := Push (qe : A) | Pop.

(** The condition of the [while] loop around [pthread_cond_wait]. *)
Definition blocked (o : op) (s : task_queue) : bool :=
  match o with Push _ => full s | Pop => empty s end.

Definition exec (o : op) (s : task_queue) : outcome (option A * task_queue * bool) :=
  match o with
  | Push qe => let '(s, signal) := push_body qe s in Ok (None, s, signal)
  | Pop => '(qe, s, signal) ← pop_body s; Ok (Some qe, s, signal)
  end.

(** ** Threads *)

Inductive pc :=
  | Idle                       (* outside the queue *)
  | Want (o : op)              (* in [pthread_mutex_lock], or woken in [pthread_cond_wait] *)
  | Holds (o : op)             (* holds the mutex, before the [while] test *)
  | Sleeping (o : op)          (* in [pthread_cond_wait], not woken yet *)
  | Leaving (r : option A).    (* holds the mutex, before [pthread_mutex_unlock] *)

Record conf := Conf {
  owner : option nat;          (* queue_mutex *)
  tq : task_queue;
  threads : list pc }.

Definition init (n : nat) : conf := Conf None task_queue_new (replicate n Idle).

(** Does a thread with this pc wait on the condition variable that [o]
    signals?  [push] signals [not_empty], [pop] signals [not_full]. *)
Definition hears (o : op) (p : pc) : bool :=
  match o, p with
  | Push _, Sleeping Pop => true
  | Pop, Sleeping (Push _) => true
  | _, _ => false
  end.

Definition awake (p : pc) : pc := match p with Sleeping o => Want o | p => p end.

(** [pthread_cond_signal]: wakes the sleeper [w]; nobody if nobody sleeps. *)
Definition wake (signal : bool) (o : op) (w : option nat) (ts : list pc) : option (list pc) :=
  match signal, w with
  | false, _ => Some ts
  | true, None => if existsb (hears o) ts then None else Some ts
  | true, Some u =>
      match ts !! u with
      | Some p => if hears o p then Some (<[u := awake p]> ts) else None
      | None => None
      end
  end.

Inductive move :=
  | Call (t : nat) (o : op)            (* thread [t] calls [push] or [pop] *)
  | Go (t : nat) (w : option nat)      (* thread [t] goes on; a signal wakes [w] *)
  | Spurious (t : nat).                (* [pthread_cond_wait] of [t] returns by itself *)

Inductive event :=
  | ETau
  | ECall (t : nat) (o : op)
  | EExec (t : nat) (o : op) (r : option A)
  | ERet (t : nat) (r : option A).

Definition next (c : conf) (m : move) : option (conf * event) :=
  match m with
  | Call t o =>
      match threads c !! t with
      | Some Idle => Some (Conf (owner c) (tq c) (<[t := Want o]> (threads c)), ECall t o)
      | _ => None
      end
  | Spurious t =>
      match threads c !! t with
      | Some (Sleeping o) => Some (Conf (owner c) (tq c) (<[t := Want o]> (threads c)), ETau)
      | _ => None
      end
  | Go t w =>
      match threads c !! t with
      | Some (Want o) =>
          match owner c with
          | None => Some (Conf (Some t) (tq c) (<[t := Holds o]> (threads c)), ETau)
          | Some _ => None
          end
      | Some (Holds o) =>
          if blocked o (tq c)
          then Some (Conf None (tq c) (<[t := Sleeping o]> (threads c)), ETau)
          else match exec o (tq c) with
               | Ok (r, s, signal) =>
                   ts ← wake signal o w (threads c);
                   Some (Conf (owner c) s (<[t := Leaving r]> ts), EExec t o r)
               | _ => None
               end
      | Some (Leaving r) => Some (Conf None (tq c) (<[t := Idle]> (threads c)), ERet t r)
      | _ => None
      end
  end.

(** A run: the events of a sequence of moves. *)
Fixpoint run (c : conf) (ms : list move) : option (conf * list event) :=
  match ms with
  | [] => Some (c, [])
  | m :: ms => '(c, e) ← next c m; '(c, es) ← run c ms; Some (c, e :: es)
  end.

(** ** The contract: an atomic bounded queue

    Operations are pending, take effect in one step, and then return. *)
Inductive spc := SIdle | SPending (o : op) | SDone (r : option A).
Record aqueue := Aq { bound : Z; content : list A; callers : list spc }.

Definition with_caller (t : nat) (p : spc) (s : aqueue) : aqueue :=
  Aq (bound s) (content s) (<[t := p]> (callers s)).

Inductive spec_step : aqueue → event → aqueue → Prop :=
  | spec_tau s : spec_step s ETau s
  | spec_call t o s :
      callers s !! t = Some SIdle →
      spec_step s (ECall t o) (with_caller t (SPending o) s)
  | spec_push t qe s :
      callers s !! t = Some (SPending (Push qe)) → size (content s) < bound s →
      spec_step s (EExec t (Push qe) None)
        (with_caller t (SDone None) (Aq (bound s) (content s ++ [qe]) (callers s)))
  | spec_pop t qe q s :
      callers s !! t = Some (SPending Pop) → content s = qe :: q →
      spec_step s (EExec t Pop (Some qe))
        (with_caller t (SDone (Some qe)) (Aq (bound s) q (callers s)))
  | spec_ret t r s :
      callers s !! t = Some (SDone r) →
      spec_step s (ERet t r) (with_caller t SIdle s).

Inductive spec_steps : aqueue → list event → aqueue → Prop :=
  | spec_nil s : spec_steps s [] s
  | spec_cons s e s' es s'' : spec_step s e s' → spec_steps s' es s'' → spec_steps s (e :: es) s''.

Lemma spec_steps_app s es s' es' s'' :
  spec_steps s es s' → spec_steps s' es' s'' → spec_steps s (es ++ es') s''.
Proof. induction 1; [done|]. intros. econstructor; eauto. Qed.

Definition pushed (es : list event) : list A :=
  omap (λ e, match e with EExec _ (Push qe) _ => Some qe | _ => None end) es.
Definition popped (es : list event) : list A :=
  omap (λ e, match e with EExec _ Pop (Some qe) => Some qe | _ => None end) es.

Lemma spec_steps_nil_inv s s' : spec_steps s [] s' → s = s'.
Proof. by inversion 1. Qed.
Lemma spec_steps_one_inv s e s' : spec_steps s [e] s' → spec_step s e s'.
Proof. inversion 1 as [|? ? ? ? ? Hs Hn]; subst. by apply spec_steps_nil_inv in Hn as <-. Qed.

Lemma pushed_app es es' : pushed (es ++ es') = pushed es ++ pushed es'.
Proof. apply omap_app. Qed.

(** The atomic queue is first-in first-out and bounded. *)
Lemma spec_fifo s es s' :
  spec_steps s es s' → content s ++ pushed es = popped es ++ content s'.
Proof.
  induction 1 as [s|s e s' es s'' Hs _ IH]; [by rewrite app_nil_r|].
  inversion Hs; subst; simpl in *; try done.
  - by rewrite <-IH, <-app_assoc.
  - match goal with H : content _ = _ |- _ => rewrite H end. simpl. by rewrite IH.
Qed.

Lemma spec_bounded s es s' :
  spec_steps s es s' → size (content s) ≤ bound s → bound s' = bound s ∧ size (content s') ≤ bound s'.
Proof.
  induction 1 as [s|s e s' es s'' Hs _ IH]; [done|]. intros Hb.
  assert (bound s' = bound s ∧ size (content s') ≤ bound s') as [<- ?]; [|by apply IH].
  inversion Hs; subst; simpl; try done; unfold size in *; (split; [done|]).
  - rewrite length_app. simpl. lia.
  - match goal with H : content _ = _ |- _ => rewrite H in Hb end. simpl in *. lia.
Qed.

(** The [push] that thread [t] has called and that has not happened yet; the
    queues of a program with one pushing thread. *)
Definition pushing (t : nat) (s : aqueue) : list A :=
  match callers s !! t with Some (SPending (Push qe)) => [qe] | _ => [] end.
Definition sole_pusher (n : nat) (s : aqueue) : Prop :=
  ∀ t qe, callers s !! t = Some (SPending (Push qe)) → t = n.

Lemma sole_pusher_set n t p s s' :
  callers s' = <[t := p]> (callers s) → sole_pusher n s → (∀ qe, p = SPending (Push qe) → t = n) →
  sole_pusher n s'.
Proof.
  intros Hs Hn Hp u qe. rewrite Hs, list_lookup_insert_Some.
  intros [(<- & Hq & _)|[_ Hu]]; [by eapply Hp|by eapply Hn].
Qed.

Lemma pushing_set n t p q s s' :
  callers s' = <[t := p]> (callers s) → callers s !! t = Some q →
  pushing n s' = if decide (t = n) then match p with SPending (Push qe) => [qe] | _ => [] end
                 else pushing n s.
Proof.
  intros Hs Hq. unfold pushing. rewrite Hs. case_decide as Ht.
  - subst t. rewrite list_lookup_insert_eq; [done|]. by eapply lookup_lt_Some.
  - by rewrite list_lookup_insert_ne.
Qed.

Lemma pusher_step n s e s' :
  spec_step s e s' → sole_pusher n s → (∀ t qe, e ≠ ECall t (Push qe)) →
  sole_pusher n s' ∧ pushing n s = pushed [e] ++ pushing n s'.
Proof.
  intros Hs Hn He. destruct Hs as [s|t o s Hc|t qe s Hc Hlt|t qe q s Hc Hq|t r s Hc]; [done|..];
    (split; [eapply sole_pusher_set; [reflexivity|done|]; intros qe' [=]; subst; by destruct (He t qe')|]);
    match goal with |- _ = _ ++ pushing n ?s' => rewrite (pushing_set n t _ _ s s' eq_refl Hc) end;
    cbn [pushed omap list_omap app];
    (case_decide; [subst t; unfold pushing; rewrite Hc|]); try done.
  - destruct o as [qe|]; [by destruct (He n qe)|done].
  - by destruct (Hn _ _ Hc).
Qed.

Lemma pusher_call n s qe s' :
  spec_step s (ECall n (Push qe)) s' → sole_pusher n s →
  sole_pusher n s' ∧ pushing n s = [] ∧ pushing n s' = [qe].
Proof.
  intros Hs Hn. inversion Hs as [|t o s1 Hc| | |]; subst. split_and!.
  - by eapply sole_pusher_set.
  - unfold pushing. by rewrite Hc.
  - by rewrite (pushing_set n n _ _ s (with_caller n (SPending (Push qe)) s) eq_refl Hc), decide_True.
Qed.

(** The elements whose [push] has begun, and those of them that are not in the
    queue yet. *)
Definition called (es : list event) : list A :=
  omap (λ e, match e with ECall _ (Push qe) => Some qe | _ => None end) es.
Definition to_push (p : spc) : option A := match p with SPending (Push qe) => Some qe | _ => None end.
Definition pushings (s : aqueue) : list A := omap to_push (callers s).

Lemma called_app es es' : called (es ++ es') = called es ++ called es'.
Proof. apply omap_app. Qed.
Lemma spec_called s es s' : spec_steps s es s' → called es ++ pushings s ≡ₚ pushed es ++ pushings s'.
Proof.
  induction 1 as [|s e s1 es s2 Hs _ IH]; [done|].
  cut (called [e] ++ pushings s ≡ₚ pushed [e] ++ pushings s1).
  { intros He. change (e :: es) with ([e] ++ es). unfold called, pushed in *. rewrite !omap_app.
    rewrite (Permutation_app_comm (omap _ [e])), <-app_assoc, He, app_assoc, (Permutation_app_comm (omap _ es)).
    by rewrite <-app_assoc, IH, app_assoc. }
  unfold pushings.
  destruct Hs as [s|t o s Hc|t qe s Hc _|t qe q s Hc _|t r s Hc]; [done|..];
    match goal with |- context [with_caller t ?x _] => pose proof (omap_perm to_push _ _ _ x Hc) as Hp end;
    [destruct o|..]; cbn in Hp |- *; rewrite ?app_nil_r; done.
Qed.

(** What a client of the queue may rely on: every move of the implementation
    is a move of the atomic queue, or changes nothing of it. *)
Class AtomicQueue (Q : Type) := {
  q_next : Q → move → option (Q * event);
  q_abs : Q → aqueue;
  q_inv : Q → Prop;
  q_call c t o c' e : q_next c (Call t o) = Some (c', e) → e = ECall t o;
  q_inv_next c m c' e : q_inv c → q_next c m = Some (c', e) → q_inv c';
  q_sim c m c' e : q_inv c → q_next c m = Some (c', e) → spec_step (q_abs c) e (q_abs c') }.

(** A new queue with [k] users. *)
Definition fresh_queue `{!AtomicQueue Q} (k : nat) (q : Q) : Prop :=
  q_inv q ∧ ∃ b, q_abs q = Aq b [] (replicate k SIdle).

(** ** The flags and the mutex *)

Definition tq_wf (s : task_queue) : Prop :=
  empty s = bool_decide (queue s = [])
  ∧ full s = bool_decide (size (queue s) = max_queue_size s)
  ∧ size (queue s) ≤ max_queue_size s ∧ 0 < max_queue_size s ≤ int_max.

Definition in_cs (p : pc) : Prop :=
  match p with Holds _ | Leaving _ => True | _ => False end.
#[local] Instance in_cs_dec p : Decision (in_cs p).
Proof. destruct p; apply _. Defined.

Definition mutex_wf (c : conf) : Prop :=
  ∀ t p, threads c !! t = Some p → (in_cs p ↔ owner c = Some t).

Definition inv (c : conf) : Prop := tq_wf (tq c) ∧ mutex_wf c.

Lemma init_inv n : inv (init n).
Proof.
  split.
  - split_and!; try done; unfold int_max; simpl; lia.
  - intros t p Hp. simpl in Hp. apply lookup_replicate in Hp as [-> _]. done.
Qed.

Lemma push_body_wf qe s s' sig :
  tq_wf s → full s = false → push_body qe s = (s', sig) → tq_wf s'.
Proof.
  intros (He & Hf & Hl & Hm) Hfull. unfold push_body. intros [= <- _]. rewrite Hfull in Hf.
  symmetry in Hf. apply bool_decide_eq_false in Hf.
  assert (size (queue s ++ [qe]) = size (queue s) + 1) as Hsz
    by (unfold size; rewrite length_app; simpl; lia).
  assert (0 ≤ size (queue s)) by (unfold size; lia).
  unfold tq_wf; cbn. rewrite Hfull, Hsz, to_int_small
    by (unfold in_int, int_min, int_max in *; lia).
  split_and!; try lia.
  - symmetry. apply bool_decide_eq_false. by destruct (queue s).
  - destruct (Z.eqb_spec (size (queue s) + 1) (max_queue_size s));
      symmetry; [by apply bool_decide_eq_true|by apply bool_decide_eq_false].
Qed.

Lemma pop_body_ok s : tq_wf s → empty s = false → ∃ qe s' sig, pop_body s = Ok (qe, s', sig).
Proof.
  intros (He & _) Hempty. rewrite Hempty in He. symmetry in He. apply bool_decide_eq_false in He.
  unfold pop_body. destruct (queue s); [done|eauto].
Qed.

Lemma pop_body_wf s qe s' sig : tq_wf s → pop_body s = Ok (qe, s', sig) → tq_wf s'.
Proof.
  intros (He & Hf & Hl & Hm). unfold pop_body. destruct (queue s) as [|x q] eqn:Hq; [done|].
  intros [= <- <- _]. rewrite bool_decide_eq_false_2 in He by done.
  assert (size (x :: q) = size q + 1) as Hsz by (unfold size; simpl; lia).
  assert (0 ≤ size q) by (unfold size; lia). rewrite Hsz in *.
  unfold tq_wf; cbn. rewrite He, to_int_small by (unfold in_int, int_min, int_max in *; lia).
  split_and!; try lia.
  - destruct q; [done|]. unfold size. by rewrite bool_decide_eq_false_2.
  - symmetry. apply bool_decide_eq_false. lia.
Qed.

Lemma exec_wf o s r s' sig : tq_wf s → blocked o s = false → exec o s = Ok (r, s', sig) → tq_wf s'.
Proof.
  intros Hw Hb. destruct o as [qe|]; simpl in *.
  - destruct (push_body qe s) as [s1 b] eqn:Hp. intros [= _ <- _]. by eapply push_body_wf.
  - intros ([[? ?] ?] & Hp & [= _ <- _])%bind_ok_inv. by eapply pop_body_wf.
Qed.

Lemma exec_ok o s : tq_wf s → blocked o s = false → is_ok (exec o s).
Proof.
  intros Hw Hb. destruct o as [qe|]; simpl in *; [done|].
  destruct (pop_body_ok s Hw Hb) as (? & ? & ? & ->). done.
Qed.

Lemma wake_cases sig o w ts ts' :
  wake sig o w ts = Some ts' →
  ts' = ts ∨ ∃ u p, w = Some u ∧ ts !! u = Some p ∧ hears o p ∧ ts' = <[u := awake p]> ts.
Proof.
  unfold wake. intros H. repeat case_match; simplify_eq; eauto 10.
Qed.

Lemma in_cs_awake p : in_cs (awake p) ↔ in_cs p.
Proof. by destruct p. Qed.

Lemma wake_mutex own s sig o w ts ts' :
  wake sig o w ts = Some ts' → mutex_wf (Conf own s ts) → mutex_wf (Conf own s ts').
Proof.
  intros [->|(u & p & _ & Hu & _ & ->)]%wake_cases Hm; [done|].
  intros t q. cbn. rewrite list_lookup_insert_Some. intros [(<- & <- & _)|[_ Hq]].
  - rewrite in_cs_awake. by apply (Hm u p).
  - by apply (Hm t q).
Qed.

(** A thread leaves or enters the critical section. *)
Lemma set_mutex own own' s s' ts t p p' :
  mutex_wf (Conf own s ts) → ts !! t = Some p → (in_cs p' ↔ own' = Some t) →
  (∀ u, u ≠ t → own' = Some u ↔ own = Some u) → mutex_wf (Conf own' s' (<[t := p']> ts)).
Proof.
  intros Hm Ht Hp' Hown u q. cbn. rewrite list_lookup_insert_Some.
  intros [(<- & <- & _)|[Hne Hq]]; [done|]. rewrite Hown by congruence. by apply (Hm u q).
Qed.

Lemma wake_lookup sig o w ts ts' t p :
  wake sig o w ts = Some ts' → ts !! t = Some p → in_cs p → ts' !! t = Some p.
Proof.
  intros [->|(u & q & _ & Hu & Hh & ->)]%wake_cases Ht Hcs; [done|].
  rewrite list_lookup_insert_ne; [done|]. intros ->. rewrite Hu in Ht. injection Ht as ->.
  by destruct o, p.
Qed.

Lemma mutex_cs c t p : mutex_wf c → threads c !! t = Some p → in_cs p → owner c = Some t.
Proof. intros Hm Ht Hp. by apply (Hm t p). Qed.

Lemma inv_next c m c' e : inv c → next c m = Some (c', e) → inv c'.
Proof.
  intros [Hw Hm] Hn. destruct c as [own s ts]. cbn in Hw. destruct m as [t o|t w|t]; cbn in Hn.
  - destruct (ts !! t) as [[| | | |]|] eqn:Ht; simplify_eq. split; [done|].
    eapply set_mutex; [done..| |done]. pose proof (Hm t _ Ht) as H. cbn in *. tauto.
  - destruct (ts !! t) as [[|o|o|o|r]|] eqn:Ht; simplify_eq.
    + destruct own; simplify_eq. split; [done|]. eapply set_mutex; [done..| |]; cbn; [tauto|].
      intros u Hu. split; congruence.
    + pose proof (mutex_cs _ _ _ Hm Ht I) as Hown. cbn in Hown. subst own.
      destruct (blocked o s) eqn:Hb; simplify_eq.
      * split; [done|]. eapply set_mutex; [done..| |]; cbn; [split; [done|congruence]|].
        intros u Hu. split; congruence.
      * destruct (exec o s) as [[[r s'] sig]| |] eqn:He; [|discriminate..].
        destruct (wake sig o w ts) as [ts'|] eqn:Hwk; simplify_eq/=. split; [by eapply exec_wf|].
        eapply set_mutex; [by eapply wake_mutex|by eapply wake_lookup|done|done].
    + pose proof (mutex_cs _ _ _ Hm Ht I) as Hown. cbn in Hown. subst own. split; [done|].
      eapply set_mutex; [done..| |]; cbn; [split; [done|congruence]|].
      intros u Hu. split; congruence.
  - destruct (ts !! t) as [[| | |o|]|] eqn:Ht; simplify_eq. split; [done|].
    eapply set_mutex; [done..| |done]. pose proof (Hm t _ Ht) as H. cbn in *. tauto.
Qed.

(** ** Refinement: the queue is atomic *)

Definition abs_pc (p : pc) : spc :=
  match p with
  | Idle => SIdle
  | Want o | Holds o | Sleeping o => SPending o
  | Leaving r => SDone r
  end.

Definition abs (c : conf) : aqueue :=
  Aq (max_queue_size (tq c)) (queue (tq c)) (abs_pc <$> threads c).

Lemma abs_set (ts : list pc) t p p' :
  ts !! t = Some p → abs_pc p' = abs_pc p → abs_pc <$> <[t := p']> ts = abs_pc <$> ts.
Proof.
  intros Ht Hp. rewrite list_fmap_insert, Hp. apply list_insert_id. by rewrite list_lookup_fmap, Ht.
Qed.

Lemma abs_wake sig o w ts ts' : wake sig o w ts = Some ts' → abs_pc <$> ts' = abs_pc <$> ts.
Proof.
  intros [->|(u & p & _ & Hu & _ & ->)]%wake_cases; [done|]. eapply abs_set; [done|]. by destruct p.
Qed.

Lemma abs_lookup (ts : list pc) t p : ts !! t = Some p → (abs_pc <$> ts) !! t = Some (abs_pc p).
Proof. intros H. by rewrite list_lookup_fmap, H. Qed.

(** The critical section is the atomic operation. *)
Lemma exec_spec o s r s' sig t cs :
  tq_wf s → blocked o s = false → exec o s = Ok (r, s', sig) → cs !! t = Some (SPending o) →
  spec_step (Aq (max_queue_size s) (queue s) cs) (EExec t o r)
    (Aq (max_queue_size s') (queue s') (<[t := SDone r]> cs)).
Proof.
  intros (He & Hf & Hl & _) Hb Hx Ht. destruct o as [qe|]; simpl in *.
  - injection Hx as <- <- _. apply (spec_push t qe (Aq _ _ _)); [done|]. cbn.
    rewrite Hb in Hf. symmetry in Hf. apply bool_decide_eq_false in Hf. lia.
  - unfold pop_body in Hx. destruct (queue s) as [|qe q] eqn:Hq; [discriminate|].
    simpl in Hx. injection Hx as <- <- _. by apply (spec_pop t qe q (Aq _ _ _)).
Qed.

Lemma next_sim c m c' e : inv c → next c m = Some (c', e) → spec_step (abs c) e (abs c').
Proof.
  intros [Hw Hm] Hn. destruct c as [own s ts]. cbn in Hw. unfold abs. destruct m as [t o|t w|t]; cbn in Hn.
  - destruct (ts !! t) as [[| | | |]|] eqn:Ht; simplify_eq. cbn. rewrite list_fmap_insert.
    apply (spec_call t o (Aq _ _ _)). cbn. by rewrite (abs_lookup _ _ _ Ht).
  - destruct (ts !! t) as [[|o|o|o|r]|] eqn:Ht; simplify_eq.
    + destruct own; simplify_eq. cbn. erewrite abs_set by done. constructor.
    + destruct (blocked o s) eqn:Hb; simplify_eq.
      * cbn. erewrite abs_set by done. constructor.
      * destruct (exec o s) as [[[r s'] sig]| |] eqn:He; [|discriminate..].
        destruct (wake sig o w ts) as [ts'|] eqn:Hwk; simplify_eq/=.
        rewrite list_fmap_insert, (abs_wake _ _ _ _ _ Hwk). eapply exec_spec; [done..|].
        by rewrite (abs_lookup _ _ _ Ht).
    + cbn. rewrite list_fmap_insert. apply (spec_ret t r (Aq _ _ _)). cbn. by rewrite (abs_lookup _ _ _ Ht).
  - destruct (ts !! t) as [[| | |o|]|] eqn:Ht; simplify_eq. cbn. erewrite abs_set by done. constructor.
Qed.

Lemma next_call c t o c' e : next c (Call t o) = Some (c', e) → e = ECall t o.
Proof. cbn. by destruct (threads c !! t) as [[| | | |]|]; intros; simplify_eq. Qed.

#[export] Instance mutex_queue_atomic : AtomicQueue conf := {|
  q_next := next; q_abs := abs; q_inv := inv; q_call := next_call; q_inv_next := inv_next; q_sim := next_sim |}.

Lemma run_inv c ms c' es : inv c → run c ms = Some (c', es) → inv c' ∧ spec_steps (abs c) es (abs c').
Proof.
  revert c es; induction ms as [|m ms IH]; intros c es Hi Hr; simpl in Hr.
  { simplify_eq. split; [done|constructor]. }
  apply bind_Some in Hr as ([c1 e] & Hn & Hr). apply bind_Some in Hr as ([c2 es2] & Hr & ?).
  simplify_eq. destruct (IH c1 es2) as [? ?]; [by eapply inv_next|done|].
  split; [done|]. econstructor; [by eapply next_sim|done].
Qed.

(** ** Progress *)

Lemma next_length c m c' e : next c m = Some (c', e) → length (threads c') = length (threads c).
Proof.
  destruct c as [own s ts], m as [t o|t w|t]; cbn; intros Hn;
    destruct (ts !! t) as [[|o'|o'|o'|r]|] eqn:Ht; simplify_eq; cbn; try by rewrite length_insert.
  - destruct own; simplify_eq. cbn. by rewrite length_insert.
  - destruct (blocked o' s); simplify_eq; cbn; [by rewrite length_insert|].
    destruct (exec o' s) as [[[r s'] sig]| |]; [|discriminate..].
    destruct (wake sig o' w ts) as [ts'|] eqn:Hwk; simplify_eq/=. rewrite length_insert.
    apply wake_cases in Hwk as [->|(? & ? & _ & _ & _ & ->)]; [done|by rewrite length_insert].
Qed.

Definition owner_alive (c : conf) : Prop := ∀ t, owner c = Some t → (t < length (threads c))%nat.

Lemma next_owner_alive c m c' e : owner_alive c → next c m = Some (c', e) → owner_alive c'.
Proof.
  intros Ha Hn u. rewrite (next_length _ _ _ _ Hn). specialize (Ha u).
  destruct c as [own s ts], m as [t o|t w|t]; cbn in *;
    destruct (ts !! t) as [[|o'|o'|o'|r]|] eqn:Ht; simplify_eq; cbn; try done.
  - destruct own; simplify_eq. cbn. intros [= <-]. by eapply lookup_lt_Some.
  - destruct (blocked o' s); simplify_eq; cbn; [done|].
    destruct (exec o' s) as [[[r s'] sig]| |]; [|discriminate..].
    by destruct (wake sig o' w ts); simplify_eq/=.
Qed.

Lemma wake_enabled sig o ts : ∃ w, is_Some (wake sig o w ts).
Proof.
  destruct sig; [|by exists None; eauto].
  destruct (existsb (hears o) ts) eqn:He.
  - apply existsb_exists in He as (p & Hp & Hh). apply list_elem_of_In, list_elem_of_lookup in Hp as [u Hu].
    exists (Some u). unfold wake. rewrite Hu, Hh. eauto.
  - exists None. unfold wake. rewrite He. eauto.
Qed.

(** A thread that holds the mutex can always go on. *)
Lemma go_enabled c t p :
  tq_wf (tq c) → threads c !! t = Some p → in_cs p → ∃ w, is_Some (next c (Go t w)).
Proof.
  intros Hw Ht Hp. destruct p as [|o|o|o|r]; try done.
  - destruct (wake_enabled (match exec o (tq c) with Ok (_, _, sig) => sig | _ => false end) o (threads c))
      as [w [ts' Hts]].
    exists w. cbn. rewrite Ht. destruct (blocked o (tq c)) eqn:Hb; [eauto|].
    pose proof (exec_ok _ _ Hw Hb) as He. destruct (exec o (tq c)) as [[[r s'] sig]| |]; [|done..].
    rewrite Hts. simpl. eauto.
  - exists None. cbn. rewrite Ht. eauto.
Qed.

(** The operation a thread is in, before its critical section. *)
Definition op_of (p : pc) : option op :=
  match p with Want o | Holds o | Sleeping o => Some o | _ => None end.

(** ** One consumer *)

Definition one_consumer (k : nat) (c : conf) : Prop :=
  (∀ t p, threads c !! t = Some p → op_of p = Some Pop → t = k)
  ∧ (∀ t, threads c !! t = Some (Sleeping Pop) → queue (tq c) = []).

Lemma one_consumer_set k own own' s ts t p p' :
  one_consumer k (Conf own s ts) → ts !! t = Some p → op_of p' = op_of p ∨ op_of p' = None →
  (p' = Sleeping Pop → queue s = []) → one_consumer k (Conf own' s (<[t := p']> ts)).
Proof.
  intros [H1 H2] Ht Hop Hsl. split; cbn in *.
  - intros u q. rewrite list_lookup_insert_Some. intros [(<- & <- & _)|[_ Hq]] Ho; [|by eauto].
    destruct Hop as [Hop|Hop]; [|congruence]. rewrite Hop in Ho. eauto.
  - intros u. rewrite list_lookup_insert_Some. intros [(<- & -> & _)|[_ Hq]]; eauto.
Qed.

(** The critical section of one call. *)
Lemma one_consumer_exec k own s ts t o w r s' sig ts' :
  empty s = bool_decide (queue s = []) → one_consumer k (Conf own s ts) →
  ts !! t = Some (Holds o) → exec o s = Ok (r, s', sig) → wake sig o w ts = Some ts' →
  one_consumer k (Conf own s' (<[t := Leaving r]> ts')).
Proof.
  intros He0 [H1 H2] Ht He Hwk. cbn in H1, H2.
  assert (∀ u p, ts' !! u = Some p → op_of p = Some Pop → u = k) as H1'.
  { intros u p Hu Ho. pose proof (wake_cases _ _ _ _ _ Hwk) as [->|(v & q & _ & Hv & Hh & ->)]; [eauto|].
    apply list_lookup_insert_Some in Hu as [(<- & <- & _)|[_ Hu]]; [|eauto].
    apply (H1 _ _ Hv). by destruct q. }
  split; cbn.
  { intros u p. rewrite list_lookup_insert_Some. intros [(_ & <- & _)|[_ ?]]; [done|eauto]. }
  intros u Hu. apply list_lookup_insert_Some in Hu as [(_ & ? & _)|[Hne Hu]]; [done|].
  assert (ts !! u = Some (Sleeping Pop)) as Hu0.
  { pose proof (wake_cases _ _ _ _ _ Hwk) as [->|(v & q & _ & Hv & Hh & ->)]; [done|].
    apply list_lookup_insert_Some in Hu as [(_ & Hq & _)|[_ Hu]]; [by destruct q|done]. }
  destruct o as [qe|]; [|destruct Hne; rewrite (H1 t _ Ht eq_refl); by rewrite (H1' u _ Hu eq_refl)].
  (* a push on an empty queue wakes the only consumer *)
  exfalso. injection He as _ _ <-. rewrite (H2 _ Hu0) in He0.
  rewrite He0 in Hwk. cbn in Hwk. destruct w as [v|].
  -- destruct (ts !! v) as [p|] eqn:Hv; [|done].
     destruct p as [| | |[|]|]; try done. injection Hwk as <-.
     rewrite (H1 v _ Hv eq_refl), <-(H1 u _ Hu0 eq_refl) in Hu.
     rewrite list_lookup_insert_eq in Hu by (by eapply lookup_lt_Some). done.
  -- destruct (existsb _ ts) eqn:Hex; [done|].
     apply (f_equal negb) in Hex. simpl in Hex.
     assert (existsb (hears (Push qe)) ts = true) as Hex'; [|by rewrite Hex' in Hex].
     apply existsb_exists. exists (Sleeping Pop). split; [|done].
     by eapply list_elem_of_In, list_elem_of_lookup_2.
Qed.

Lemma one_consumer_next k c m c' e :
  (∀ t, m = Call t Pop → t = k) →
  inv c → one_consumer k c → next c m = Some (c', e) → one_consumer k c'.
Proof.
  intros Hk [Hw Hm] H1 Hn. destruct c as [own s ts]. cbn in Hw. destruct m as [t o|t w|t]; cbn in Hn.
  - destruct (ts !! t) as [[| | | |]|] eqn:Ht; simplify_eq. destruct H1 as [H1 H2]. split; cbn in *.
    + intros u q. rewrite list_lookup_insert_Some. intros [(<- & <- & _)|[_ Hq]] Ho; [|by eauto].
      injection Ho as ->. by apply Hk.
    + intros u. rewrite list_lookup_insert_Some. intros [(_ & ? & _)|[_ Hq]]; [done|eauto].
  - destruct (ts !! t) as [[|o|o|o|r]|] eqn:Ht; simplify_eq.
    + destruct own; simplify_eq. eapply one_consumer_set; eauto. done.
    + destruct (blocked o s) eqn:Hb; simplify_eq.
      * eapply one_consumer_set; eauto. intros [= ->]. simpl in Hb. destruct Hw as [He _].
        rewrite Hb in He. symmetry in He. by apply bool_decide_eq_true in He.
      * destruct (exec o s) as [[[r s'] sig]| |] eqn:He; [|discriminate..].
        destruct (wake sig o w ts) as [ts'|] eqn:Hwk; simplify_eq/=.
        eapply one_consumer_exec; eauto. apply Hw.
    + eapply one_consumer_set; eauto. done.
  - destruct (ts !! t) as [[| | |o|]|] eqn:Ht; simplify_eq. eapply one_consumer_set; eauto. done.
Qed.

Lemma one_consumer_run n k ms c es :
  run (init n) ms = Some (c, es) → (∀ t, Call t Pop ∈ ms → t = k) → inv c ∧ owner_alive c ∧ one_consumer k c.
Proof.
  assert (inv (init n) ∧ owner_alive (init n) ∧ one_consumer k (init n)) as H0.
  { split_and!; [apply init_inv|done|split; [intros t p Hp|intros t Hp]; cbn in *].
    - by apply lookup_replicate in Hp as [-> _].
    - by apply lookup_replicate in Hp as [? _]. }
  revert H0. generalize (init n). revert es.
  induction ms as [|m ms IH]; intros es c0 (Hi & Ha & H1) Hr Hk; simpl in Hr; [by simplify_eq|].
  apply bind_Some in Hr as ([c1 e] & Hn & Hr). apply bind_Some in Hr as ([c2 es2] & Hr & ?).
  simplify_eq. eapply IH; [|done|set_solver].
  split_and!; [by eapply inv_next|by eapply next_owner_alive|].
  eapply one_consumer_next; [|done..]. intros t ->. apply Hk. set_solver.
Qed.

(** ** A consumer that sleeps next to a message *)

(** Thread [k] sleeps in [pop], the queue starts with [qe], and every thread
    that is in [pop] sleeps. *)
Definition stranded (k : nat) (qe : A) (c : conf) : Prop :=
  tq_wf (tq c) ∧ threads c !! k = Some (Sleeping Pop)
  ∧ (∀ t p, threads c !! t = Some p → op_of p = Some Pop → p = Sleeping Pop)
  ∧ ∃ q, queue (tq c) = qe :: q.

Lemma stranded_set k qe own own' s ts t p p' :
  stranded k qe (Conf own s ts) → ts !! t = Some p → p ≠ Sleeping Pop →
  (op_of p' = Some Pop → p' = Sleeping Pop) → stranded k qe (Conf own' s (<[t := p']> ts)).
Proof.
  intros (Hw & Hk & Hp & Hq) Ht Hne Hop. split_and!; try done; cbn in *.
  - rewrite list_lookup_insert_ne; [done|]. intros ->. congruence.
  - intros u q. rewrite list_lookup_insert_Some. intros [(<- & <- & _)|[_ ?]]; eauto.
Qed.

Lemma stranded_next k qe c m c' e :
  (∀ t, m ≠ Spurious t ∧ m ≠ Call t Pop) →
  stranded k qe c → next c m = Some (c', e) → stranded k qe c'.
Proof.
  intros Hms Hs Hn. destruct c as [own s ts]. pose proof Hs as (Hw & Hk & Hp & q & Hq). cbn in *.
  destruct m as [t o|t w|t]; cbn in Hn; [| |by destruct (Hms t)].
  - destruct (ts !! t) as [[| | | |]|] eqn:Ht; simplify_eq. eapply stranded_set; [done..|].
    intros [= ->]. by destruct (Hms t).
  - destruct (ts !! t) as [[|o|o|o|r]|] eqn:Ht; simplify_eq.
    + destruct own; simplify_eq. eapply stranded_set; [done..|].
      intros [= ->]. by specialize (Hp _ _ Ht eq_refl).
    + assert (op_of (Holds o) ≠ Some Pop) as Ho by (intros Ho; by specialize (Hp _ _ Ht Ho)).
      destruct o as [qe'|]; [|done]. destruct (blocked (Push qe') s) eqn:Hb; simplify_eq.
      * by eapply stranded_set.
      * assert (empty s = false) as He.
        { destruct Hw as [-> _]. rewrite Hq. by apply bool_decide_eq_false_2. }
        assert (tq_wf (fst (push_body qe' s))) as Hw' by (by eapply (push_body_wf qe' s); [..|done]).
        cbn in Hn. rewrite He in Hn. cbn in Hn. injection Hn as <- _.
        split_and!; [done|..]; cbn.
        -- rewrite list_lookup_insert_ne; [done|]. intros ->. congruence.
        -- intros u p. rewrite list_lookup_insert_Some. intros [(<- & <- & _)|[_ ?]]; [done|eauto].
        -- rewrite Hq. by eexists.
    + by eapply stranded_set.
Qed.

Lemma stranded_run k qe c ms c' es :
  (∀ t, (Spurious t ∉ ms) ∧ (Call t Pop ∉ ms)) →
  stranded k qe c → run c ms = Some (c', es) → stranded k qe c'.
Proof.
  revert c es; induction ms as [|m ms IH]; intros c es Hms Hs Hr; simpl in Hr; [by simplify_eq|].
  apply bind_Some in Hr as ([c1 e] & Hn & Hr). apply bind_Some in Hr as ([c2 es2] & Hr & ?).
  simplify_eq. eapply IH; [|eapply stranded_next; [|done..]|done].
  - intros t. destruct (Hms t). split; set_solver.
  - intros t. destruct (Hms t). split; set_solver.
Qed.

Lemma init_stranded_inv n ms c es : run (init n) ms = Some (c, es) → inv c.
Proof. intros H. eapply run_inv; [apply init_inv|done]. Qed.

(** ** Properties *)

(** C5: linearizability. Whatever the schedule, the calls and returns of the
    threads are calls and returns of an atomic first-in first-out queue of
    bound 2000 in which every operation takes effect at one moment between its
    call and its return; the items popped are the items pushed, in that order,
    up to those still in the queue, which are never more than 2000. *)
Theorem queue_linearizable n ms c es :
  run (init n) ms = Some (c, es) →
  spec_steps (Aq 2000 [] (replicate n SIdle)) es (abs c)
  ∧ pushed es = popped es ++ queue (tq c)
  ∧ size (queue (tq c)) ≤ 2000.
Proof.
  intros Hr. destruct (run_inv _ _ _ _ (init_inv n) Hr) as [Hi Hs].
  assert (abs (init n) = Aq 2000 [] (replicate n SIdle)) as Ha.
  { unfold abs, init. cbn. by rewrite fmap_replicate. }
  rewrite Ha in Hs. split_and!; [done|by apply spec_fifo in Hs|].
  apply spec_bounded in Hs as [Hb Hs]; [|done]. cbn in *. lia.
Qed.

(** C7: the mutex and the flags. In every state that is reached, at most one
    thread is in a critical section, [empty] and [full] say what they mean, and
    a thread past its [while] test never finds the queue empty (for [pop]). *)
Theorem queue_safe n ms c es :
  run (init n) ms = Some (c, es) →
  (∀ t u p q, threads c !! t = Some p → threads c !! u = Some q → in_cs p → in_cs q → t = u)
  ∧ (empty (tq c) = true ↔ queue (tq c) = [])
  ∧ (full (tq c) = true ↔ size (queue (tq c)) = max_queue_size (tq c))
  ∧ ∀ o, blocked o (tq c) = false → is_ok (exec o (tq c)).
Proof.
  intros Hr. pose proof (init_stranded_inv _ _ _ _ Hr) as [Hw Hm]. split_and!.
  - intros t u p q Ht Hu Hp Hq. apply (Hm _ _ Ht) in Hp. apply (Hm _ _ Hu) in Hq. congruence.
  - destruct Hw as [-> _]. by rewrite bool_decide_eq_true.
  - destruct Hw as (_ & -> & _). by rewrite bool_decide_eq_true.
  - intros o. by apply exec_ok.
Qed.

(** With one consumer no wake-up is lost. If only thread [k] calls [pop],
    then whenever it sleeps the queue is empty; and while it is in [pop] with
    the queue not empty, some thread can make a move that is neither a new call
    nor a spurious wake-up. *)
Theorem one_consumer_progress n k ms c es :
  run (init n) ms = Some (c, es) → (∀ t, Call t Pop ∈ ms → t = k) →
  (threads c !! k = Some (Sleeping Pop) → queue (tq c) = [])
  ∧ (∀ p, threads c !! k = Some p → op_of p = Some Pop → queue (tq c) ≠ [] →
       ∃ t w, is_Some (next c (Go t w))).
Proof.
  intros Hr Hk.
  destruct (one_consumer_run _ _ _ _ _ Hr Hk) as (Hi & Ha & H1 & H2). split; [eauto|]. intros p Hp Hop Hq.
  destruct (owner c) as [t|] eqn:Ho.
  - destruct (lookup_lt_is_Some_2 (threads c) t (Ha t Ho)) as [q Ht]. exists t.
    apply (go_enabled c t q); [apply Hi|done|]. by apply (proj2 Hi t q).
  - exists k, None. cbn. rewrite Hp. destruct p as [|o|o|o|r]; try done.
    + rewrite Ho. eauto.
    + destruct Hi as [_ Hm]. pose proof (mutex_cs _ _ _ Hm Hp I). congruence.
    + injection Hop as ->. by destruct Hq; eauto.
Qed.

(** The second push of [two_pushes] finds [empty] false and signals nobody. *)
Definition two_pushes (a b : A) : list move :=
  [ Call 1 Pop; Go 1 None; Go 1 None; Call 2 Pop; Go 2 None; Go 2 None;
    Call 0 (Push a); Go 0 None; Go 0 (Some 1%nat); Go 0 None;
    Call 0 (Push b); Go 0 None; Go 0 None; Go 0 None;
    Go 1 None; Go 1 None; Go 1 None ].

(** With two consumers a wake-up is lost. Two messages are pushed while
    two threads sleep in [pop]; one wakes and takes the first message, and the
    other sleeps on next to the second one. From then on, unless a sleeper
    wakes spuriously or some thread calls [pop], it sleeps forever, however
    many messages are pushed. *)
Theorem two_consumers_lost_wakeup (a b : A) :
  ∃ c es, run (init 3) (two_pushes a b) = Some (c, es)
    ∧ threads c = [Idle; Idle; Sleeping Pop] ∧ queue (tq c) = [b]
    ∧ ∀ ms c' es', run c ms = Some (c', es') → (∀ t, (Spurious t ∉ ms) ∧ (Call t Pop ∉ ms)) →
        threads c' !! 2%nat = Some (Sleeping Pop) ∧ ∃ q, queue (tq c') = b :: q.
Proof.
  destruct (run (init 3) (two_pushes a b)) as [[c es]|] eqn:Hr; [|vm_compute in Hr; discriminate].
  exists c, es. pose proof (init_stranded_inv _ _ _ _ Hr) as [Hw _].
  vm_compute in Hr. injection Hr as <- _. split_and!; try done. intros ms c' es' Hr Hms.
  eapply (stranded_run 2 b) in Hr as (_ & ? & _ & ?); [done|done|]. split_and!; try done; [|by exists []].
  intros t p Ht Hp. destruct t as [|[|[|]]]; simpl in Ht; by simplify_eq/=.
Qed.

End queue.

(** ** Witnesses *)

Definition one_item : list (@move nat) :=
  [ Call 1 Pop; Go 1 None; Go 1 None; Call 0 (Push 7%nat); Go 0 None; Go 0 (Some 1%nat); Go 0 None ].

Definition after_one_item : @conf nat :=
  match run (init 2) one_item with Some (c, _) => c | None => init 0 end.

Definition events_one_item : list (@event nat) :=
  match run (init 2) one_item with Some (_, es) => es | None => [] end.

Lemma queue_linearizable_witness :
  spec_steps (Aq 2000 [] (replicate 2 SIdle)) events_one_item (abs after_one_item)
  ∧ pushed events_one_item = popped events_one_item ++ [7%nat]
  ∧ size [7%nat] ≤ 2000.
Proof. apply (queue_linearizable 2 one_item after_one_item events_one_item). vm_compute. reflexivity. Defined.

Lemma queue_safe_witness :
  (∀ t u p q, threads after_one_item !! t = Some p → threads after_one_item !! u = Some q →
     in_cs p → in_cs q → t = u)
  ∧ (false = true ↔ [7%nat] = []) ∧ (false = true ↔ 1 = 2000)
  ∧ ∀ o, blocked o (tq after_one_item) = false → is_ok (exec o (tq after_one_item)).
Proof. apply (queue_safe 2 one_item after_one_item events_one_item). vm_compute. reflexivity. Defined.

Lemma one_consumer_progress_witness :
  (threads after_one_item !! 1%nat = Some (Sleeping Pop) → queue (tq after_one_item) = [])
  ∧ (∀ p, threads after_one_item !! 1%nat = Some p → op_of p = Some Pop → queue (tq after_one_item) ≠ [] →
       ∃ t w, is_Some (next after_one_item (Go t w))).
Proof.
  apply (one_consumer_progress 2 1 one_item after_one_item events_one_item); [vm_compute; reflexivity|].
  intros t Ht. unfold one_item in Ht.
  repeat (apply elem_of_cons in Ht as [Ht|Ht]; [congruence|]). by apply not_elem_of_nil in Ht.
Defined.
