(* ===== verification/QueueDrain.v ===== *)
(** * What becomes of a call of the task queue

    Only calls and spurious wake-ups keep a [mutex_task_queue] going: between
    them its threads make a bounded number of moves, and the queue comes to
    rest.  With one consumer, and as long as it does not get full, it then has
    delivered everything; a queue that was full can come to rest, empty, with a
    producer asleep. *)

From S2P Require Import Prelude JobQueue.
Open Scope Z_scope.

Section drain.
Context {A : Type}.
Implicit Types (c : @conf A) (m : @move A) (p : @pc A).

(** ** The moves of a thread *)

(** The moves that a thread still has, if it is not woken again; waking it
    takes one move and gives it two.  An element gives [g] moves to the one who
    pops it. *)
Section weights.
Context (g : nat).

Definition weight (o : @op A) : nat := match o with Push _ => g | Pop => 0 end.
Definition cost p : nat :=
  match p with
  | Idle => 0
  | Leaving None => 1
  | Leaving (Some _) => 1 + g
  | Sleeping o => 3 + weight o
  | Holds o => 4 + weight o
  | Want o => 5 + weight o
  end.
Definition costs c : nat := sum_list_with cost (threads c) + g * length (queue (tq c)).

(** What a move from outside allows. *)
Definition credit m : nat := match m with Call _ o => 6 + weight o | Go _ _ => 0 | Spurious _ => 3 end.
Definition credits (ms : list (@move A)) : nat := sum_list_with credit ms.

Lemma costs_set ts t p p' :
  ts !! t = Some p → (sum_list_with cost (<[t := p']> ts) + cost p = sum_list_with cost ts + cost p')%nat.
Proof.
  revert t; induction ts as [|q ts IH]; intros [|t] Ht; simplify_eq/=; [lia|]. specialize (IH _ Ht). lia.
Qed.

Lemma costs_wake sig o w ts ts' :
  wake sig o w ts = Some ts' → (sum_list_with cost ts' ≤ sum_list_with cost ts + 2)%nat.
Proof.
  intros [->|(u & p & _ & Hu & _ & ->)]%wake_cases; [lia|]. pose proof (costs_set _ _ _ (awake p) Hu) as H.
  destruct p as [| | | |[]]; cbn [cost awake] in *; lia.
Qed.

Lemma exec_costs o s r s' sig :
  exec o s = Ok (r, s', sig) → (cost (Leaving r) + g * length (queue s') ≤ 1 + weight o + g * length (queue s))%nat.
Proof.
  destruct o as [qe|]; cbn [exec].
  - unfold push_body. intros [= <- <- _]. cbn. rewrite length_app. cbn. lia.
  - unfold pop_body. destruct (queue s) as [|x q] eqn:Hq; [done|]. cbn. intros [= <- <- _]. cbn. lia.
Qed.

Lemma next_costs c m c' e : next c m = Some (c', e) → (costs c' + 1 ≤ costs c + credit m)%nat.
Proof.
  unfold costs. intros Hn. destruct c as [own s ts], m as [t o|t w|t]; cbn in Hn;
    destruct (ts !! t) as [[|o'|o'|o'|r]|] eqn:Ht; simplify_eq; cbn [threads credit tq].
  - pose proof (costs_set _ _ _ (Want o) Ht). cbn [cost] in *. lia.
  - destruct own; simplify_eq. pose proof (costs_set _ _ _ (Holds o') Ht). cbn [cost threads tq] in *. lia.
  - destruct (blocked o' s); simplify_eq.
    { pose proof (costs_set _ _ _ (Sleeping o') Ht). cbn [cost threads tq] in *. lia. }
    destruct (exec o' s) as [[[r s'] sig]| |] eqn:He; [|discriminate..]. apply exec_costs in He.
    destruct (wake sig o' w ts) as [ts'|] eqn:Hwk; simplify_eq/=.
    assert (ts' !! t = Some (Holds o')) as Ht' by (by eapply wake_lookup).
    pose proof (costs_set _ _ _ (Leaving r) Ht'). pose proof (costs_wake _ _ _ _ _ Hwk). destruct r; cbn [cost] in *; lia.
  - pose proof (costs_set _ _ _ Idle Ht). destruct r; cbn [cost] in *; lia.
  - pose proof (costs_set _ _ _ (Want o') Ht). cbn [cost] in *. lia.
Qed.

Lemma run_costs c ms c' es : run c ms = Some (c', es) → (costs c' + length ms ≤ costs c + credits ms)%nat.
Proof.
  revert c es; induction ms as [|m ms IH]; intros c es Hr; simpl in Hr; [simplify_eq; cbn; lia|].
  apply bind_Some in Hr as ([c1 e] & Hn & Hr). apply bind_Some in Hr as ([c2 es2] & Hr & ?). simplify_eq.
  pose proof (next_costs _ _ _ _ Hn). pose proof (IH c1 es2 Hr). unfold credits in *. cbn. lia.
Qed.

Lemma init_costs n : costs (init n) = 0%nat.
Proof. unfold costs. cbn. rewrite Nat.mul_0_r. clear. by induction n. Qed.
End weights.

(** ** At rest *)

(** No thread can go on by itself. *)
Definition resting c : Prop := ∀ t w, next c (Go t w) = None.

Lemma resting_threads c t p :
  inv c → owner_alive c → resting c → threads c !! t = Some p → p = Idle ∨ ∃ o, p = Sleeping o.
Proof.
  intros [Hw Hm] Ha Hrest Ht. assert (owner c = None) as Ho.
  { destruct (owner c) as [u|] eqn:Ho; [|done]. destruct (lookup_lt_is_Some_2 _ _ (Ha u Ho)) as [q Hu].
    destruct (go_enabled c u q Hw Hu) as (w & ? & Hg); [by apply (Hm _ _ Hu)|]. by rewrite Hrest in Hg. }
  destruct p as [|o|o|o|r]; [by left| | |by right; exists o|].
  - specialize (Hrest t None). cbn in Hrest. by rewrite Ht, Ho in Hrest.
  - pose proof (mutex_cs _ _ _ Hm Ht I). congruence.
  - pose proof (mutex_cs _ _ _ Hm Ht I). congruence.
Qed.

(** A queue that does not get full: no thread sleeps in [push]. *)
Definition no_waiting_pusher c : Prop :=
  full (tq c) = false ∧ ∀ t qe, threads c !! t ≠ Some (Sleeping (Push qe)).

Lemma next_sleeper c m c' e t o :
  next c m = Some (c', e) → threads c' !! t = Some (Sleeping o) →
  threads c !! t = Some (Sleeping o) ∨ blocked o (tq c) = true.
Proof.
  destruct c as [own s ts], m as [u o'|u w|u]; cbn; intros Hn Ht;
    destruct (ts !! u) as [[|o1|o1|o1|r]|] eqn:Hu; simplify_eq; cbn in Ht;
    try (apply list_lookup_insert_Some in Ht as [(_ & [=] & _)|[_ Ht]]; by left).
  - destruct own; simplify_eq. apply list_lookup_insert_Some in Ht as [(_ & [=] & _)|[_ Ht]]. by left.
  - destruct (blocked o1 s) eqn:Hb; simplify_eq; cbn in Ht.
    { apply list_lookup_insert_Some in Ht as [(_ & [= <-] & _)|[_ Ht]]; [by right|by left]. }
    destruct (exec o1 s) as [[[r s'] sig]| |]; [|discriminate..].
    destruct (wake sig o1 w ts) as [ts'|] eqn:Hwk; simplify_eq/=.
    apply list_lookup_insert_Some in Ht as [(_ & [=] & _)|[_ Ht]].
    apply wake_cases in Hwk as [-> |(v & q & _ & Hv & Hh & ->)]; [by left|].
    apply list_lookup_insert_Some in Ht as [(_ & Hq & _)|[_ Ht]]; [by destruct q|by left].
Qed.

(** The elements that are in the queue or will be pushed into it. *)
Definition load (s : @aqueue A) : nat := length (content s) + length (pushings s).

Lemma spec_load (s : @aqueue A) es s' : spec_steps s es s' → (load s' ≤ load s + length (called es))%nat.
Proof.
  intros H. pose proof (f_equal length (spec_fifo _ _ _ H)) as Hf.
  pose proof (Permutation_length (spec_called _ _ _ H)) as Hc. rewrite !length_app in Hf, Hc. unfold load. lia.
Qed.

Lemma run_no_waiting_pusher c ms c' es :
  inv c → no_waiting_pusher c → run c ms = Some (c', es) →
  Z.of_nat (load (abs c) + length (called es)) < max_queue_size (tq c) → no_waiting_pusher c'.
Proof.
  revert c es; induction ms as [|m ms IH]; intros c es Hi Hp Hr Hl; simpl in Hr; [by simplify_eq|].
  apply bind_Some in Hr as ([c1 e] & Hn & Hr). apply bind_Some in Hr as ([c2 es2] & Hr & ?). simplify_eq.
  assert (spec_steps (abs c) [e] (abs c1)) as Hs by (econstructor; [by eapply next_sim|constructor]).
  assert (inv c1) as Hi1 by (by eapply inv_next).
  assert (max_queue_size (tq c1) = max_queue_size (tq c)) as Hmax
    by (eapply (proj1 (spec_bounded _ _ _ Hs ltac:(apply Hi)))).
  pose proof (spec_load _ _ _ Hs) as Hld. change (e :: es2) with ([e] ++ es2) in Hl.
  rewrite called_app, length_app in Hl.
  eapply IH; [done| |done|rewrite Hmax; lia]. destruct Hp as [Hf Hp]. split.
  - destruct Hi1 as [(_ & -> & _) _]. apply bool_decide_eq_false.
    assert (length (queue (tq c1)) ≤ load (abs c1))%nat by (unfold load; cbn; lia). unfold size. lia.
  - intros t qe Ht. destruct (next_sleeper _ _ _ _ _ _ Hn Ht) as [H|H]; [by eapply Hp|].
    cbn in H. congruence.
Qed.

Lemma pushings_at_rest (l : list (@pc A)) :
  (∀ t p, l !! t = Some p → to_push (abs_pc p) = None) → omap to_push (abs_pc <$> l) = [].
Proof.
  induction l as [|p l IH]; intros H; [done|]. cbn. rewrite (H 0%nat p) by done. apply IH. intros t q Hq.
  by apply (H (S t)).
Qed.

(** What a queue with the one consumer [k], waiting in [pop], has done when it
    has come to rest. *)
Definition delivered (k : nat) c (es : list (@event A)) : Prop :=
  threads c !! k = Some (Sleeping Pop) ∧ queue (tq c) = [] ∧ popped es = pushed es
  ∧ ((length (called es) < 2000)%nat →
     (∀ t p, threads c !! t = Some p → t ≠ k → p = Idle) ∧ popped es ≡ₚ called es).

Lemma resting_delivered n k ms c es :
  run (init n) ms = Some (c, es) → (∀ t, Call t Pop ∈ ms → t = k) → resting c →
  (∃ p, threads c !! k = Some p ∧ p ≠ Idle ∧ ∀ qe, p ≠ Sleeping (Push qe)) → delivered k c es.
Proof.
  intros Hr Hk Hrest (p & Hp & Hni & Hnp). destruct (one_consumer_run _ _ _ _ _ Hr Hk) as (Hi & Ha & H1 & H2).
  assert (threads c !! k = Some (Sleeping Pop)) as Hsl.
  { destruct (resting_threads c k p Hi Ha Hrest Hp) as [-> |[[qe|] ->]]; [done|by destruct (Hnp qe)|done]. }
  pose proof (H2 _ Hsl) as Hq.
  destruct (run_inv _ _ _ _ (init_inv n) Hr) as [_ Hs]. pose proof (spec_fifo _ _ _ Hs) as Hf.
  cbn in Hf. rewrite Hq, app_nil_r in Hf. split_and!; [done..|]. intros Hl.
  assert (pushings (abs (@init A n)) = []) as H0.
  { apply pushings_at_rest. intros t q Ht. by apply lookup_replicate in Ht as [-> _]. }
  assert (no_waiting_pusher c) as [_ Hnw].
  { eapply run_no_waiting_pusher; [apply init_inv| |exact Hr|].
    - split; [done|]. intros t qe Ht. by apply lookup_replicate in Ht as [? _].
    - unfold load. rewrite H0. cbn. lia. }
  assert (∀ t p, threads c !! t = Some p → p = Idle ∨ p = Sleeping Pop) as Hall.
  { intros t q Ht. destruct (resting_threads c t q Hi Ha Hrest Ht) as [-> |[[qe|] ->]]; [by left| |by right].
    by destruct (Hnw t qe). }
  split.
  - intros t q Ht Htk. destruct (Hall t q Ht) as [-> | ->]; [done|]. by destruct (Htk (H1 t _ Ht eq_refl)).
  - pose proof (spec_called _ _ _ Hs) as Hc. rewrite H0, app_nil_r in Hc. rewrite Hc, Hf.
    assert (pushings (abs c) = []) as ->; [|by rewrite app_nil_r].
    apply pushings_at_rest. intros t q Ht. by destruct (Hall t q Ht) as [-> | ->].
Qed.

(** C29: one consumer and the end of all calls. Between calls and spurious
    wake-ups the threads make only finitely many moves: at most six for a call
    and three for a wake-up, under every schedule, and with any number of
    threads. If only thread [k] calls [pop], and is in [pop] when no thread can
    go on by itself, then it sleeps on an empty queue, and all that was pushed
    has been popped, in order; and if [push] was called fewer than 2000 times,
    no producer waits, and what has been popped are all the elements for which
    [push] was called. *)
Theorem one_consumer_drains n k ms c es :
  run (init n) ms = Some (c, es) → (∀ t, Call t Pop ∈ ms → t = k) →
  (length ms ≤ credits 0 ms)%nat
  ∧ (resting c → (∃ p, threads c !! k = Some p ∧ op_of p = Some Pop) →
     threads c !! k = Some (Sleeping Pop) ∧ queue (tq c) = [] ∧ popped es = pushed es
     ∧ ((length (called es) < 2000)%nat →
        (∀ t p, threads c !! t = Some p → t ≠ k → p = Idle) ∧ popped es ≡ₚ called es)).
Proof.
  intros Hr Hk. split.
  { pose proof (run_costs 0 _ _ _ _ Hr) as H. rewrite init_costs in H. lia. }
  intros Hrest (p & Hp & Hop). eapply resting_delivered; [done..|]. exists p. split_and!; [done|..]; by destruct p; simplify_eq/=.
Qed.
End drain.

(** ** A producer that sleeps next to an empty queue *)

(** [push] from beginning to end, and [pop], if nobody waits. *)
Definition whole {A} (t : nat) (o : @op A) (w : option nat) : list (@move A) :=
  [Call t o; Go t None; Go t w; Go t None].

(** Thread 0 fills the queue, 1 and 2 begin to wait for room, and 3 takes all;
    its first [pop] wakes 1. *)
Definition crowd : list (@move Z) :=
  concat ((λ i, whole 0 (Push i) None) <$> seqZ 0 2000)
  ++ [Call 1 (Push 2000); Go 1 None; Go 1 None; Call 2 (Push 2001); Go 2 None; Go 2 None]
  ++ whole 3 Pop (Some 1%nat) ++ concat (replicate 1999 (whole 3 Pop None))
  ++ [Go 1 None; Go 1 None; Go 1 None] ++ whole 3 Pop None ++ [Call 3 Pop; Go 3 None; Go 3 None].

(** With two producers a wake-up is lost once the queue has been full: [pop]
    signals only when it finds [full] set. One consumer takes all there is, and
    the system comes to rest with the queue empty, the consumer asleep, and a
    producer asleep that waits for room. *)
Theorem two_producers_lost_wakeup :
  ∃ c es, run (init 4) crowd = Some (c, es) ∧ resting c
    ∧ threads c = [Idle; Idle; Sleeping (Push 2001); Sleeping Pop] ∧ queue (tq c) = []
    ∧ popped es = seqZ 0 2001.
Proof.
  assert (match run (init 4) crowd with
          | Some (c, es) => c = Conf None task_queue_new [Idle; Idle; Sleeping (Push 2001); Sleeping Pop]
                            ∧ bool_decide (popped es = seqZ 0 2001) = true
          | None => False
          end) as H by (vm_compute; split; reflexivity).
  destruct (run (init 4) crowd) as [[c es]|]; [|done]. destruct H as [-> H]. eexists _, es.
  split_and!; try done; [|by eapply bool_decide_eq_true_1].
  intros t w. by destruct t as [|[|[|[|t]]]].
Qed.

(** ** Witness *)

Definition drained : list (@move nat) :=
  one_item ++ [Go 1 None; Go 1 None; Go 1 None; Call 1 Pop; Go 1 None; Go 1 None].

Lemma one_consumer_drains_witness :
  ∃ c es, run (init 2) drained = Some (c, es) ∧ (length drained ≤ credits 0 drained)%nat
    ∧ threads c !! 1%nat = Some (Sleeping Pop) ∧ popped es ≡ₚ [7%nat].
Proof.
  destruct (run (init 2) drained) as [[c es]|] eqn:Hr; [|vm_compute in Hr; discriminate].
  exists c, es. destruct (one_consumer_drains 2 1 drained c es) as [Hl Hd]; [done|..].
  { intros t Ht. unfold drained, one_item in Ht.
    repeat (apply elem_of_cons in Ht as [Ht|Ht]; [congruence|]). by apply not_elem_of_nil in Ht. }
  vm_compute in Hr. injection Hr as <- <-.
  destruct Hd as (Hs & _ & _ & Hd).
  - intros t w. by destruct t as [|[|t]].
  - by eexists.
  - destruct Hd as [_ Hd]; [cbn; lia|]. by split_and!.
Defined.
