(* ===== verification/WorkerPool.v ===== *)
(** * The worker pool: worker_pool.h, worker_pool.cpp, function.h

    [worker_num] threads run [per_worker_task]: pop a task, count it in
    [running_num] under [statics_lock], run it, delete it, count it out.  The
    pool is written against the contract of the queue ([AtomicQueue]), not
    against its implementation.  [pnext] makes one move of one thread: a move
    inside the queue ([InQueue]) or a move of a worker outside of it ([Work]).
    How long a task runs is the scheduler's choice: a worker in [WRun] may push
    further tasks, and leaves [WRun] when it is moved. *)

From S2P Require Import Prelude JobQueue.
Open Scope Z_scope.

(** ** [Function] *)

(** A field that no constructor has written has no value. *)
Inductive cell (T : Type) := Indeterminate | Val (v : T).
Arguments Indeterminate {T}.
Arguments Val {T} v.

Definition read_cell {T} (c : cell T) : outcome T :=
  match c with Indeterminate => Err Uninitialised | Val v => Ok v end.

Section pool.
Context {F P : Type}.            (* function pointers and [void *] *)

Record Function_ := Fn { f : cell (option F); arg : cell P }.

(** [Function()] makes another object with [Function(NULL, NULL);] and leaves
    its own fields as they are. *)
Definition Function_default : Function_ := Fn Indeterminate Indeterminate.
Definition Function_of (fun_ : option F) (_arg : P) : Function_ := Fn (Val fun_) (Val _arg).
Definition getFunction (fn : Function_) : outcome (option F) := read_cell (f fn).
Definition getArg (fn : Function_) : outcome P := read_cell (arg fn).
Definition setFunction (_f : option F) (fn : Function_) : Function_ := Fn (Val _f) (arg fn).

Record queue_element := Qe { _cb : option F; qe_arg : P }.

(** ** State *)

Inductive wpc :=
  | WTest                                  (* at [while (wp->running)] *)
  | WPop                                   (* in [wp->jq->pop()] *)
  | WLock1 (qe : queue_element)            (* lock, [running_num++], unlock *)
  | WLoad1 (qe : queue_element)
  | WStore1 (qe : queue_element) (v : Z)
  | WUnlock1 (qe : queue_element)
  | WRun (qe : queue_element)              (* in [qe->_cb(qe->arg)] *)
  | WInit (qe : queue_element)             (* in [worker_init_callback(NULL)] *)
  | WLock2                                 (* lock, [running_num--], unlock *)
  | WLoad2
  | WStore2 (v : Z)
  | WUnlock2
  | WExit.                                 (* [per_worker_task] has returned *)

Context {Q : Type} `{!AtomicQueue (A := queue_element) Q}.

Record worker_pool := Wp {
  worker_num : Z;
  worker_init_callback : option F;
  running : bool;
  running_num : Z;
  statics_lock : option nat;
  jq : Q;
  workers : list wpc }.                    (* [threads] *)

(** The constructors: the third one takes a callback and sets it to NULL. *)
Definition worker_pool_new (_worker_num : Z) (_worker_init_callback : option F) (q : Q) : worker_pool :=
  Wp _worker_num None false 0 None q [].

(** [thread_worker_pool::start]. *)
Definition start (wp : worker_pool) : worker_pool :=
  Wp (worker_num wp) (worker_init_callback wp) true (running_num wp) (statics_lock wp) (jq wp)
     (replicate (Z.to_nat (worker_num wp)) WTest).

(** [worker_pool::run]: the task that it pushes. *)
Definition run_element (func : Function_) : outcome queue_element :=
  fn ← getFunction func; a ← getArg func; Ok (Qe fn a).

Definition getRunnningWorkerNum (wp : worker_pool) : Z := running_num wp.

(** [thread_worker_pool::stop] returns when every [pthread_join] has. *)
Definition stop_returns (wp : worker_pool) : bool :=
  forallb (λ p, match p with WExit => true | _ => false end) (workers wp).

(** ** Moves *)

Inductive pmove := InQueue (m : @move queue_element) | Work (t : nat).

(** The moves, for schedules: the thread [t] goes through [push]; the worker [t]
    pops a task and begins it. *)
Definition push_moves (t : nat) : list (pmove) := replicate 3 (InQueue (Go t None)).
Definition begin_moves (t : nat) : list (pmove) :=
  Work t :: replicate 3 (InQueue (Go t None)) ++ replicate 4 (Work t).

Inductive pevent :=
  | QEvent (e : @event queue_element)
  | Begin (t : nat) (qe : queue_element)
  | End_ (t : nat) (qe : queue_element)
  | Leak (t : nat) (qe : queue_element)
  | PTau.

Definition set_worker (t : nat) (p : wpc) (wp : worker_pool) : worker_pool :=
  Wp (worker_num wp) (worker_init_callback wp) (running wp) (running_num wp) (statics_lock wp)
     (jq wp) (<[t := p]> (workers wp)).
Definition set_lock (l : option nat) (wp : worker_pool) : worker_pool :=
  Wp (worker_num wp) (worker_init_callback wp) (running wp) (running_num wp) l (jq wp) (workers wp).
Definition set_running_num (v : Z) (wp : worker_pool) : worker_pool :=
  Wp (worker_num wp) (worker_init_callback wp) (running wp) v (statics_lock wp) (jq wp) (workers wp).
Definition set_jq (q : Q) (wp : worker_pool) : worker_pool :=
  Wp (worker_num wp) (worker_init_callback wp) (running wp) (running_num wp) (statics_lock wp) q (workers wp).

(** Only [per_worker_task] pops; a running task and the threads outside of the
    pool (indices from [worker_num] on) may push. *)
Definition queue_move (e : @event queue_element) (wp : worker_pool) : option (worker_pool * pevent) :=
  match e with
  | ETau | EExec _ _ _ => Some (wp, QEvent e)
  | ECall t (Push _) =>
      match workers wp !! t with
      | Some (WRun _) | None => Some (wp, QEvent e)
      | _ => None
      end
  | ECall _ Pop => None
  | ERet t r =>
      match workers wp !! t, r with
      | Some WPop, Some qe => Some (set_worker t (WLock1 qe) wp, QEvent e)
      | (Some (WRun _) | None), None => Some (wp, QEvent e)
      | _, _ => None
      end
  end.

Definition is_idle (t : nat) (q : Q) : bool :=
  match callers (q_abs q) !! t with Some SIdle => true | _ => false end.

(** One step of [per_worker_task] outside of the queue, worker_pool.cpp:29-57. *)
Definition work (t : nat) (wp : worker_pool) : option (worker_pool * pevent) :=
  let acquire p := match statics_lock wp with
                   | None => Some (set_lock (Some t) (set_worker t p wp), PTau)
                   | Some _ => None
                   end in
  let release p ev := Some (set_lock None (set_worker t p wp), ev) in
  let store v p := match int_of v with
                   | Ok v => Some (set_running_num v (set_worker t p wp), PTau)
                   | _ => None
                   end in
  match workers wp !! t with
  | Some WTest =>
      if running wp then
        '(q, e) ← q_next (jq wp) (Call t Pop);
        Some (set_jq q (set_worker t WPop wp), QEvent e)
      else Some (set_worker t WExit wp, PTau)
  | Some (WLock1 qe) => acquire (WLoad1 qe)
  | Some (WLoad1 qe) => Some (set_worker t (WStore1 qe (running_num wp)) wp, PTau)
  | Some (WStore1 qe v) => store (v + 1) (WUnlock1 qe)
  | Some (WUnlock1 qe) =>
      match worker_init_callback wp with
      | Some _ => release (WInit qe) PTau
      | None => release (WRun qe) (Begin t qe)
      end
  | Some (WInit qe) => Some (set_worker t WLock2 wp, Leak t qe)
  | Some (WRun qe) => if is_idle t (jq wp) then Some (set_worker t WLock2 wp, End_ t qe) else None
  | Some WLock2 => acquire WLoad2
  | Some WLoad2 => Some (set_worker t (WStore2 (running_num wp)) wp, PTau)
  | Some (WStore2 v) => store (v - 1) WUnlock2
  | Some WUnlock2 => release WTest PTau
  | _ => None
  end.

Definition pnext (wp : worker_pool) (m : pmove) : option (worker_pool * pevent) :=
  match m with
  | InQueue m => '(q, e) ← q_next (jq wp) m; queue_move e (set_jq q wp)
  | Work t => work t wp
  end.

Fixpoint prun (wp : worker_pool) (ms : list pmove) : option (worker_pool * list pevent) :=
  match ms with
  | [] => Some (wp, [])
  | m :: ms => '(wp, e) ← pnext wp m; '(wp, es) ← prun wp ms; Some (wp, e :: es)
  end.

(** ** Counting *)

Definition counted (p : wpc) : Z :=
  match p with
  | WUnlock1 _ | WRun _ | WInit _ | WLock2 | WLoad2 | WStore2 _ => 1
  | _ => 0
  end.
Definition busy (ws : list wpc) : Z := foldr (λ p n, counted p + n) 0 ws.

Lemma busy_insert (ws : list wpc) t p p' :
  ws !! t = Some p → busy (<[t := p']> ws) = busy ws + counted p' - counted p.
Proof.
  revert t; induction ws as [|x ws IH]; intros [|t] Ht; simplify_eq/=; [lia|]. rewrite IH by done. lia.
Qed.

Lemma counted_range p : 0 ≤ counted p ≤ 1.
Proof. destruct p; simpl; lia. Qed.

Lemma busy_range ws : 0 ≤ busy ws ≤ Z.of_nat (length ws).
Proof. induction ws as [|p ws IH]; simpl; [lia|]. pose proof (counted_range p). lia. Qed.

(** A worker that is not counted leaves room. *)
Lemma busy_room (ws : list wpc) t p : ws !! t = Some p → counted p = 0 → busy ws < Z.of_nat (length ws).
Proof.
  intros Ht Hp. pose proof (busy_insert ws t p (WUnlock2) Ht). pose proof (busy_range (<[t:=WLock2]> ws)) as Hr.
  pose proof (busy_insert ws t p WLock2 Ht). rewrite length_insert in Hr. simpl in *. lia.
Qed.

(** ** Invariants *)

Definition locked (p : wpc) : Prop :=
  match p with
  | WLoad1 _ | WStore1 _ _ | WUnlock1 _ | WLoad2 | WStore2 _ | WUnlock2 => True
  | _ => False
  end.
Definition loaded (p : wpc) : option Z :=
  match p with WStore1 _ v | WStore2 v => Some v | _ => None end.

Definition lock_wf (l : option nat) (ws : list wpc) : Prop :=
  ∀ t p, ws !! t = Some p → (locked p ↔ l = Some t).
Definition loaded_wf (n : Z) (ws : list wpc) : Prop :=
  ∀ t p v, ws !! t = Some p → loaded p = Some v → v = n.

Definition count_inv (wp : worker_pool) : Prop :=
  running_num wp = busy (workers wp) ∧ lock_wf (statics_lock wp) (workers wp)
  ∧ loaded_wf (running_num wp) (workers wp)
  ∧ running wp = true ∧ (∀ t, workers wp !! t ≠ Some WExit)
  ∧ Z.of_nat (length (workers wp)) ≤ int_max.

(** Steps of a worker that leave the lock and the counter alone. *)
Lemma count_inv_set t p p' wp :
  count_inv wp → workers wp !! t = Some p → ¬ locked p → ¬ locked p' → counted p = counted p' →
  p' ≠ WExit → count_inv (set_worker t p' wp).
Proof.
  intros (Hn & Hl & Hv & Hr & He & Hi) Ht Hp Hp' Hc Hx. split_and!; cbn; try done.
  - rewrite (busy_insert _ _ _ _ Ht). lia.
  - intros u q. rewrite list_lookup_insert_Some. intros [(<- & <- & _)|[_ Hu]]; [|by apply Hl].
    specialize (Hl _ _ Ht). tauto.
  - intros u q v. rewrite list_lookup_insert_Some. intros [(<- & <- & _)|[_ Hu]]; [by destruct p'|by eauto].
  - intros u. rewrite list_lookup_insert_Some. intros [(_ & ? & _)|[_ Hu]]; [done|by apply (He u)].
  - by rewrite length_insert.
Qed.

(** Steps of the owner of the lock, and the step that takes it. *)
Lemma count_inv_lock t p p' l' v' wp :
  count_inv wp → workers wp !! t = Some p →
  statics_lock wp = None ∨ statics_lock wp = Some t →
  l' = None ∨ l' = Some t → (locked p' ↔ l' = Some t) →
  v' = running_num wp + counted p' - counted p →
  (∀ v, loaded p' = Some v → v = v') → p' ≠ WExit →
  count_inv (set_lock l' (set_running_num v' (set_worker t p' wp))).
Proof.
  intros (Hn & Hl & Hv & Hr & He & Hi) Ht Hlock Hl' Hp' Hc Hload Hx. split_and!; cbn; try done.
  - rewrite (busy_insert _ _ _ _ Ht). lia.
  - intros u q. rewrite list_lookup_insert_Some. intros [(<- & <- & _)|[Hne Hu]]; [done|].
    rewrite (Hl _ _ Hu). destruct Hlock as [-> | ->], Hl' as [-> | ->]; split; congruence.
  - intros u q v. rewrite list_lookup_insert_Some. intros [(<- & <- & _)|[Hne Hu]]; [by apply Hload|].
    intros Hq. assert (locked q) as Hlq by (by destruct q). apply (Hl _ _ Hu) in Hlq.
    destruct Hlock; congruence.
  - intros u. rewrite list_lookup_insert_Some. intros [(_ & ? & _)|[_ Hu]]; [done|by apply (He u)].
  - by rewrite length_insert.
Qed.

Lemma set_lock_id wp : set_lock (statics_lock wp) wp = wp.
Proof. by destruct wp. Qed.
Lemma set_running_num_id wp : set_running_num (running_num wp) wp = wp.
Proof. by destruct wp. Qed.

Lemma count_inv_jq q wp : count_inv wp → count_inv (set_jq q wp).
Proof. done. Qed.

Ltac pool_side := solve [done | cbn; tauto | cbn; lia | cbn; congruence].

Lemma work_count_inv t wp wp' e : count_inv wp → work t wp = Some (wp', e) → count_inv wp'.
Proof.
  intros Hi. pose proof Hi as (Hn & Hl & Hv & Hr & He & Hmax). unfold work.
  destruct (workers wp !! t) as [p|] eqn:Ht; [|done].
  assert (∀ p', locked p → ¬ locked p' → loaded p' = None → counted p' = counted p → p' ≠ WExit →
    count_inv (set_lock None (set_worker t p' wp))) as Hrelease.
  { intros p' Hp Hp' Hld Hc Hx. rewrite <-(set_running_num_id (set_worker t p' wp)).
    eapply count_inv_lock; [done|done|right; by apply (Hl _ _ Ht)|by left|..]; cbn; [|lia|congruence|done].
    split; [done|congruence]. }
  assert (∀ p', ¬ locked p → locked p' → loaded p' = None → counted p' = counted p → p' ≠ WExit →
    statics_lock wp = None → count_inv (set_lock (Some t) (set_worker t p' wp))) as Hacquire.
  { intros p' Hp Hp' Hld Hc Hx Hno. rewrite <-(set_running_num_id (set_worker t p' wp)).
    eapply count_inv_lock; [done|done|by left|by right|..]; cbn; [done|lia|congruence|done]. }
  assert (∀ p' v', locked p → locked p' → v' = running_num wp + counted p' - counted p →
    (∀ v, loaded p' = Some v → v = v') → p' ≠ WExit →
    count_inv (set_running_num v' (set_worker t p' wp))) as Hstep.
  { intros p' v' Hp Hp' Hc Hld Hx. rewrite <-(set_lock_id (set_running_num v' (set_worker t p' wp))).
    apply (Hl _ _ Ht) in Hp. cbn. rewrite Hp.
    eapply count_inv_lock; [done|done|by right|by right|..]; done. }
  destruct p; intros H; simplify_eq; cbn in *.
  - rewrite Hr in H. apply bind_Some in H as ([q e'] & _ & [= <- <-]).
    apply count_inv_jq. eapply count_inv_set; [done|done|pool_side..].
  - destruct (statics_lock wp) eqn:Hlk; simplify_eq. apply Hacquire; pool_side.
  - rewrite <-(set_running_num_id (set_worker t _ wp)). apply Hstep; pool_side.
  - rewrite (Hv _ _ v Ht eq_refl) in H. destruct (int_of _) as [v'| |] eqn:Hv'; simplify_eq.
    unfold int_of in Hv'. case_decide; simplify_eq. apply Hstep; pool_side.
  - destruct (worker_init_callback wp); simplify_eq; apply Hrelease; pool_side.
  - destruct (is_idle t (jq wp)); simplify_eq. eapply count_inv_set; [done|done|pool_side..].
  - eapply count_inv_set; [done|done|pool_side..].
  - destruct (statics_lock wp) eqn:Hlk; simplify_eq. apply Hacquire; pool_side.
  - rewrite <-(set_running_num_id (set_worker t _ wp)). apply Hstep; pool_side.
  - rewrite (Hv _ _ v Ht eq_refl) in H. destruct (int_of _) as [v'| |] eqn:Hv'; simplify_eq.
    unfold int_of in Hv'. case_decide; simplify_eq. apply Hstep; pool_side.
  - apply Hrelease; pool_side.
Qed.

Lemma queue_count_inv e q wp wp' ev : count_inv wp → queue_move e (set_jq q wp) = Some (wp', ev) → count_inv wp'.
Proof.
  intros Hi H. apply (count_inv_jq q) in Hi. revert H Hi. generalize (set_jq q wp). clear wp.
  intros wp H Hi. unfold queue_move in H. repeat case_match; simplify_eq; try done.
  eapply count_inv_set; [done|done|pool_side..].
Qed.

Lemma pnext_count_inv wp m wp' e : count_inv wp → pnext wp m = Some (wp', e) → count_inv wp'.
Proof.
  destruct m as [m|t]; simpl; [|apply work_count_inv].
  intros Hi ([q e'] & _ & H)%bind_Some. by eapply queue_count_inv.
Qed.

(** ** Where the tasks are *)

Definition held (p : wpc) : option queue_element :=
  match p with
  | WLock1 qe | WLoad1 qe | WStore1 qe _ | WUnlock1 qe | WRun qe | WInit qe => Some qe
  | _ => None
  end.
Definition returning (p : @spc queue_element) : option queue_element :=
  match p with SDone r => r | _ => None end.

(** The tasks between the queue and their end: popped and on the way back to
    the worker, or held by a worker. *)
Definition in_flight (wp : worker_pool) : list queue_element :=
  omap held (workers wp) ++ omap returning (callers (q_abs (jq wp))).

Definition queue_event (e : pevent) : option (@event queue_element) :=
  match e with QEvent e => Some e | _ => None end.
Definition ended (es : list pevent) : list queue_element :=
  omap (λ e, match e with End_ _ qe => Some qe | _ => None end) es.
Definition leaked (es : list pevent) : list queue_element :=
  omap (λ e, match e with Leak _ qe => Some qe | _ => None end) es.

(** A thread is in [pop] exactly if it is a worker at that call. *)
Definition popping (p : @spc queue_element) : Prop :=
  match p with SPending Pop | SDone (Some _) => True | _ => False end.
Definition pop_wf (ws : list wpc) (cs : list (@spc queue_element)) : Prop :=
  ∀ t p, cs !! t = Some p → (popping p ↔ ws !! t = Some WPop).

Lemma pop_wf_set_caller ws cs t p p' :
  pop_wf ws cs → cs !! t = Some p → (popping p' ↔ popping p) → pop_wf ws (<[t := p']> cs).
Proof.
  intros Hw Ht Hp u q. rewrite list_lookup_insert_Some. intros [(<- & <- & _)|[_ Hu]]; [|by apply Hw].
  rewrite Hp. by apply Hw.
Qed.

Lemma pop_wf_set_worker (ws : list wpc) cs t p p' :
  pop_wf ws cs → ws !! t = Some p → p ≠ WPop → p' ≠ WPop → pop_wf (<[t := p']> ws) cs.
Proof.
  intros Hw Ht Hp Hp' u q Hu. rewrite (Hw _ _ Hu). rewrite list_lookup_insert_Some.
  split; [intros Hl; right; split; [congruence|done]|intros [(_ & ? & _)|[_ ?]]; done].
Qed.

Lemma pop_wf_set_both (ws : list wpc) cs t p p' s s' :
  pop_wf ws cs → ws !! t = Some p → cs !! t = Some s → (popping s' ↔ p' = WPop) →
  pop_wf (<[t := p']> ws) (<[t := s']> cs).
Proof.
  intros Hw Ht Hs Hp' u q. rewrite list_lookup_insert_Some. intros [(<- & <- & _)|[Hne Hu]].
  - rewrite list_lookup_insert_eq by (by eapply lookup_lt_Some). rewrite Hp'. split; congruence.
  - rewrite list_lookup_insert_ne by done. by apply Hw.
Qed.

(** One move: what it pops and what was in flight is what it ends and what is
    in flight afterwards. *)
Definition conserves (wp : worker_pool) (e : pevent) (wp' : worker_pool) : Prop :=
  popped (omap queue_event [e]) ++ in_flight wp ≡ₚ ended [e] ++ leaked [e] ++ in_flight wp'.

(** The moves of a worker outside of the queue. *)
Lemma conserves_keep wp wp' t p p' e :
  workers wp !! t = Some p → workers wp' = <[t := p']> (workers wp) → jq wp' = jq wp →
  held p' = held p → popped (omap queue_event [e]) = [] → ended [e] = [] → leaked [e] = [] →
  conserves wp e wp'.
Proof.
  intros Ht Hw Hj Hp H1 H2 H3. unfold conserves, in_flight. rewrite H1, H2, H3, Hw, Hj. cbn [app].
  by rewrite (omap_same held _ _ _ _ Ht Hp).
Qed.

Lemma conserves_drop wp wp' t p p' e qe :
  workers wp !! t = Some p → workers wp' = <[t := p']> (workers wp) → jq wp' = jq wp →
  held p = Some qe → held p' = None → popped (omap queue_event [e]) = [] →
  ended [e] ++ leaked [e] = [qe] → conserves wp e wp'.
Proof.
  intros Ht Hw Hj Hp Hp' H1 H2. unfold conserves, in_flight. rewrite H1, Hw, Hj, (app_assoc (ended [e])), H2. cbn [app].
  by rewrite app_comm_cons, (omap_lose held _ _ _ _ _ Ht Hp Hp').
Qed.

Lemma spec_call_inv s t (o : @op queue_element) s' :
  spec_step s (ECall t o) s' → callers s !! t = Some SIdle ∧ s' = with_caller t (SPending o) s.
Proof. inversion 1; subst. done. Qed.

Lemma work_conserves t wp wp' e :
  q_inv (jq wp) → pop_wf (workers wp) (callers (q_abs (jq wp))) → work t wp = Some (wp', e) →
  q_inv (jq wp') ∧ pop_wf (workers wp') (callers (q_abs (jq wp'))) ∧ conserves wp e wp'.
Proof.
  intros Hq Hw. unfold work. destruct (workers wp !! t) as [p|] eqn:Ht; [|done].
  assert (∀ w1 p', workers w1 = <[t := p']> (workers wp) → jq w1 = jq wp → p ≠ WPop → p' ≠ WPop →
    conserves wp e w1 →
    q_inv (jq w1) ∧ pop_wf (workers w1) (callers (q_abs (jq w1))) ∧ conserves wp e w1) as Hmove.
  { intros w1 p' Hws Hj Hp Hp' Hc. rewrite Hws, Hj. split_and!; [done| |done].
    by eapply pop_wf_set_worker. }
  assert (∀ w1 p', workers w1 = <[t := p']> (workers wp) → jq w1 = jq wp → p ≠ WPop → p' ≠ WPop →
    held p' = held p → popped (omap queue_event [e]) = [] → ended [e] = [] → leaked [e] = [] →
    q_inv (jq w1) ∧ pop_wf (workers w1) (callers (q_abs (jq w1))) ∧ conserves wp e w1) as Hkeep.
  { intros. eapply Hmove; eauto. by eapply conserves_keep. }
  destruct p; intros H; simplify_eq.
  - destruct (running wp); simplify_eq; [|by eapply Hkeep].
    apply bind_Some in H as ([q e'] & Hn & [= <- <-]).
    pose proof (q_sim _ _ _ _ Hq Hn) as Hs. rewrite (q_call _ _ _ _ _ Hn) in *.
    apply spec_call_inv in Hs as [Hc Hs]. cbn. rewrite Hs. cbn.
    split_and!; [by eapply q_inv_next|by eapply pop_wf_set_both|].
    unfold conserves, in_flight. cbn. rewrite Hs. cbn.
    by rewrite (omap_same held _ _ _ WPop Ht), (omap_same returning _ _ _ _ Hc).
  - destruct (statics_lock wp); simplify_eq. by eapply Hkeep.
  - by eapply Hkeep.
  - destruct (int_of _); simplify_eq. by eapply Hkeep.
  - destruct (worker_init_callback wp); simplify_eq; by eapply Hkeep.
  - destruct (is_idle t (jq wp)); simplify_eq. eapply Hmove; [done..|]. by eapply conserves_drop.
  - eapply Hmove; [done..|]. by eapply conserves_drop.
  - destruct (statics_lock wp); simplify_eq. by eapply Hkeep.
  - by eapply Hkeep.
  - destruct (int_of _); simplify_eq. by eapply Hkeep.
  - by eapply Hkeep.
Qed.

Lemma queue_conserves e q m wp wp' ev :
  q_inv (jq wp) → pop_wf (workers wp) (callers (q_abs (jq wp))) →
  q_next (jq wp) m = Some (q, e) → queue_move e (set_jq q wp) = Some (wp', ev) →
  q_inv (jq wp') ∧ pop_wf (workers wp') (callers (q_abs (jq wp'))) ∧ conserves wp ev wp'.
Proof.
  intros Hq Hw Hn Hm. pose proof (q_sim _ _ _ _ Hq Hn) as Hs. pose proof (q_inv_next _ _ _ _ Hq Hn) as Hq'.
  unfold conserves, in_flight. revert Hm.
  remember (q_abs q) as a' eqn:Ha. revert Ha.
  inversion Hs as [s1|t o s1 Hc|t qe s1 Hc Hlt|t qe q1 s1 Hc Hqe|t r s1 Hc]; subst; intros Ha Hm; cbn in Hm.
  - injection Hm as <- <-. cbn. by rewrite <-Ha.
  - destruct o as [qe|]; [|done].
    assert (wp' = set_jq q wp ∧ ev = QEvent (ECall t (Push qe))) as [-> ->]
      by (by repeat case_match; simplify_eq).
    cbn. rewrite <-Ha. cbn. split_and!; [done| |by rewrite (omap_same returning _ _ _ _ Hc)].
    by eapply pop_wf_set_caller.
  - injection Hm as <- <-. cbn. rewrite <-Ha. cbn.
    split_and!; [done| |by rewrite (omap_same returning _ _ _ _ Hc)]. by eapply pop_wf_set_caller.
  - injection Hm as <- <-. cbn. rewrite <-Ha. cbn. split_and!; [done|by eapply pop_wf_set_caller|].
    rewrite (omap_gain returning _ _ _ _ qe Hc) by done. apply Permutation_middle.
  - destruct r as [qe|].
    + destruct (workers wp !! t) as [[]|] eqn:Ht; simplify_eq. cbn. rewrite <-Ha. cbn.
      split_and!; [done|by eapply pop_wf_set_both|].
      rewrite (omap_gain held _ _ _ (WLock1 qe) qe Ht) by done.
      rewrite <-(omap_lose returning _ _ _ SIdle qe Hc) by done. symmetry. apply Permutation_middle.
    + assert (wp' = set_jq q wp ∧ ev = QEvent (ERet t None)) as [-> ->]
        by (by repeat case_match; simplify_eq).
      cbn. rewrite <-Ha. cbn. split_and!; [done| |by rewrite (omap_same returning _ _ _ _ Hc)].
      by eapply pop_wf_set_caller.
Qed.

Lemma popped_app (es es' : list (@event queue_element)) : popped (es ++ es') = popped es ++ popped es'.
Proof. apply omap_app. Qed.

Lemma perm_trace {T} (p1 p2 f0 e1 e2 l1 l2 f1 f2 : list T) :
  p1 ++ f0 ≡ₚ e1 ++ l1 ++ f1 → p2 ++ f1 ≡ₚ e2 ++ l2 ++ f2 →
  (p1 ++ p2) ++ f0 ≡ₚ (e1 ++ e2) ++ (l1 ++ l2) ++ f2.
Proof.
  intros H1 H2. rewrite (Permutation_app_comm p1 p2), <-!app_assoc, H1.
  rewrite (Permutation_app_swap_app p2 e1), (Permutation_app_swap_app p2 l1), H2.
  by rewrite (Permutation_app_swap_app l1 e2).
Qed.

Lemma ended_app (es es' : list pevent) : ended (es ++ es') = ended es ++ ended es'.
Proof. apply omap_app. Qed.
Lemma leaked_app (es es' : list pevent) : leaked (es ++ es') = leaked es ++ leaked es'.
Proof. apply omap_app. Qed.

Definition pool_inv (wp : worker_pool) : Prop :=
  q_inv (jq wp) ∧ pop_wf (workers wp) (callers (q_abs (jq wp))) ∧ count_inv wp.

Lemma pnext_inv wp m wp' e : pool_inv wp → pnext wp m = Some (wp', e) → pool_inv wp' ∧ conserves wp e wp'.
Proof.
  intros (Hq & Hw & Hc) Hn. pose proof (pnext_count_inv _ _ _ _ Hc Hn).
  assert (q_inv (jq wp') ∧ pop_wf (workers wp') (callers (q_abs (jq wp'))) ∧ conserves wp e wp') as (?&?&?).
  { destruct m as [m|t]; simpl in Hn; [|by eapply work_conserves].
    apply bind_Some in Hn as ([q e'] & Hn & Hm). by eapply queue_conserves. }
  done.
Qed.

(** The queue's events of a pool's move are moves of the atomic queue. *)
Lemma pnext_spec wp m wp' e :
  pool_inv wp → pnext wp m = Some (wp', e) →
  spec_steps (q_abs (jq wp)) (omap queue_event [e]) (q_abs (jq wp')).
Proof.
  intros (Hq & _) Hn.
  assert (∀ m q e, q_next (jq wp) m = Some (q, e) → spec_steps (q_abs (jq wp)) [e] (q_abs q)) as Hstep.
  { intros. econstructor; [by eapply q_sim|constructor]. }
  destruct m as [m|t]; simpl in Hn.
  - apply bind_Some in Hn as ([q e'] & Hn & Hm).
    assert (jq wp' = q ∧ e = QEvent e') as [-> ->].
    { unfold queue_move in Hm. by repeat case_match; simplify_eq. }
    by eapply Hstep.
  - unfold work in Hn. destruct (workers wp !! t) as [p|]; [|done].
    destruct p; repeat case_match; simplify_eq; try constructor.
    apply bind_Some in Hn as ([q e'] & Hn & [= <- <-]). by eapply Hstep.
Qed.

Lemma prun_inv wp ms wp' es :
  pool_inv wp → prun wp ms = Some (wp', es) →
  pool_inv wp' ∧ spec_steps (q_abs (jq wp)) (omap queue_event es) (q_abs (jq wp'))
  ∧ popped (omap queue_event es) ++ in_flight wp ≡ₚ ended es ++ leaked es ++ in_flight wp'.
Proof.
  revert wp es; induction ms as [|m ms IH]; intros wp es Hi Hr; simpl in Hr.
  { simplify_eq. split_and!; [done|constructor|done]. }
  apply bind_Some in Hr as ([w1 e] & Hn & Hr). apply bind_Some in Hr as ([w2 es2] & Hr & ?).
  simplify_eq. pose proof (pnext_inv _ _ _ _ Hi Hn) as [Hi1 Hc].
  pose proof (pnext_spec _ _ _ _ Hi Hn) as Hs1.
  destruct (IH _ _ Hi1 Hr) as (Hi2 & Hs & Hp). split_and!; [done|..].
  - change (e :: es2) with ([e] ++ es2). rewrite omap_app. by eapply spec_steps_app.
  - change (e :: es2) with ([e] ++ es2). rewrite omap_app, popped_app, ended_app, leaked_app.
    by eapply perm_trace.
Qed.

(** ** A pool that has been started *)

(** No constructor keeps a callback, so no worker ever calls one. *)
Definition plain (wp : worker_pool) : Prop :=
  worker_init_callback wp = None ∧ ∀ t qe, workers wp !! t ≠ Some (WInit qe).

Lemma plain_set t p wp : plain wp → (∀ qe, p ≠ WInit qe) → plain (set_worker t p wp).
Proof.
  intros [Hc Hw] Hp. split; [done|]. intros u qe. cbn. rewrite list_lookup_insert_Some.
  intros [(_ & ? & _)|[_ Hu]]; [by eapply Hp|by eapply Hw].
Qed.

Lemma pnext_plain wp m wp' e : plain wp → pnext wp m = Some (wp', e) → plain wp' ∧ leaked [e] = [].
Proof.
  intros Hp Hn. destruct m as [m|t]; simpl in Hn.
  - apply bind_Some in Hn as ([q e'] & _ & Hm). change (plain (set_jq q wp)) in Hp.
    revert Hp Hm. generalize (set_jq q wp). clear wp. intros wp Hp Hm. unfold queue_move in Hm.
    repeat case_match; simplify_eq; (split; [|done]); try done; by apply plain_set.
  - unfold work in Hn. destruct (workers wp !! t) as [p|] eqn:Ht; [|done].
    assert (worker_init_callback wp = None) as Hcb by apply Hp. rewrite Hcb in Hn.
    assert (∀ p', (∀ qe, p' ≠ WInit qe) → plain (set_worker t p' wp)) as Hset by (intros; by apply plain_set).
    destruct p; simplify_eq; try (repeat case_match; simplify_eq; (split; [|done]); by apply Hset).
    + case_match; simplify_eq; [|split; [|done]; by apply Hset].
      apply bind_Some in Hn as ([q e'] & _ & [= <- <-]). split; [|done]. by apply Hset.
    + by destruct (proj2 Hp t qe).
Qed.

Lemma prun_plain wp ms wp' es : plain wp → prun wp ms = Some (wp', es) → plain wp' ∧ leaked es = [].
Proof.
  revert wp es; induction ms as [|m ms IH]; intros wp es Hp Hr; simpl in Hr; [by simplify_eq|].
  apply bind_Some in Hr as ([w1 e] & Hn & Hr). apply bind_Some in Hr as ([w2 es2] & Hr & ?).
  simplify_eq. destruct (pnext_plain _ _ _ _ Hp Hn) as [Hp1 He]. destruct (IH _ _ Hp1 Hr) as [? Hes].
  split; [done|]. change (e :: es2) with ([e] ++ es2). by rewrite leaked_app, He, Hes.
Qed.

(** The pool of [worker_num] threads on a fresh queue. *)
Definition started (n : Z) (cb : option F) (q : Q) : worker_pool := start (worker_pool_new n cb q).

Lemma busy_replicate n : busy (replicate n WTest) = 0.
Proof. induction n; simpl; lia. Qed.

Lemma started_inv n cb k q : 0 ≤ n ≤ int_max → fresh_queue k q → pool_inv (started n cb q).
Proof.
  intros Hn (Hq & b & Ha). split_and!; [done|..].
  - cbn. rewrite Ha. cbn. intros t p Hp. apply lookup_replicate in Hp as [-> _].
    split; [done|]. intros Ht. by apply lookup_replicate in Ht as [? _].
  - split_and!; cbn; try done.
    + by rewrite busy_replicate.
    + intros t p Hp. by apply lookup_replicate in Hp as [-> _].
    + intros t p v Hp. by apply lookup_replicate in Hp as [-> _].
    + intros t Hp. by apply lookup_replicate in Hp as [? _].
    + rewrite length_replicate. lia.
Qed.

Lemma started_plain n cb q : plain (started n cb q).
Proof. split; [done|]. intros t qe Ht. cbn in Ht. by apply lookup_replicate in Ht as [? _]. Qed.

Lemma pnext_length wp m wp' e : pnext wp m = Some (wp', e) → length (workers wp') = length (workers wp).
Proof.
  intros Hn. destruct m as [m|t]; simpl in Hn.
  - apply bind_Some in Hn as ([q e'] & _ & Hm). unfold queue_move in Hm.
    repeat case_match; simplify_eq; cbn; try done; apply length_insert.
  - unfold work in Hn. destruct (workers wp !! t) as [p|]; [|done].
    destruct p; repeat case_match; simplify_eq; cbn; try (by apply length_insert).
    apply bind_Some in Hn as ([q e'] & _ & [= <- <-]). apply length_insert.
Qed.

Lemma prun_length wp ms wp' es : prun wp ms = Some (wp', es) → length (workers wp') = length (workers wp).
Proof.
  revert wp es; induction ms as [|m ms IH]; intros wp es Hr; simpl in Hr; [by simplify_eq|].
  apply bind_Some in Hr as ([w1 e] & Hn & Hr). apply bind_Some in Hr as ([w2 es2] & Hr & ?).
  simplify_eq. rewrite (IH _ _ Hr). by eapply pnext_length.
Qed.

(** What a run of a started pool has done with the tasks. *)
Lemma started_tasks n cb k q ms wp es :
  0 ≤ n ≤ int_max → fresh_queue k q → prun (started n cb q) ms = Some (wp, es) →
  pushed (omap queue_event es) ≡ₚ ended es ++ in_flight wp ++ content (q_abs (jq wp))
  ∧ leaked es = [] ∧ pool_inv wp.
Proof.
  intros Hn Hq Hr. destruct (prun_inv _ _ _ _ (started_inv n cb k q Hn Hq) Hr) as (Hi & Hs & Hp).
  destruct (prun_plain _ _ _ _ (started_plain n cb q) Hr) as [_ Hl]. split; [|by split].
  apply spec_fifo in Hs. destruct Hq as (_ & b & Ha). cbn in Hs. rewrite Ha in Hs. cbn in Hs.
  rewrite Hs. rewrite Hl in Hp. cbn [app] in Hp.
  assert (in_flight (started n cb q) = []) as Hf.
  { unfold in_flight. cbn. rewrite Ha. cbn.
    assert (∀ m, omap held (replicate m WTest) = []) as -> by (induction m; done).
    clear. induction k as [|k IH]; [done|exact IH]. }
  rewrite Hf, app_nil_r in Hp. by rewrite Hp, <-app_assoc.
Qed.

Lemma pnext_call w t qe w' e : pnext w (InQueue (Call t (Push qe))) = Some (w', e) → e = QEvent (ECall t (Push qe)).
Proof.
  simpl. intros ([q e1] & Hq & Hm)%bind_Some. apply q_call in Hq as ->. simpl in Hm. by repeat case_match; simplify_eq.
Qed.

(** Every task whose [push] has begun is somewhere. *)
Lemma started_calls n cb k q ms wp es :
  0 ≤ n ≤ int_max → fresh_queue k q → prun (started n cb q) ms = Some (wp, es) →
  called (omap queue_event es) ≡ₚ ended es ++ in_flight wp ++ content (q_abs (jq wp)) ++ pushings (q_abs (jq wp)).
Proof.
  intros Hn Hq Hr. destruct (started_tasks _ _ _ _ _ _ _ Hn Hq Hr) as (Hp & _ & _).
  destruct (prun_inv _ _ _ _ (started_inv n cb k q Hn Hq) Hr) as (_ & Hs & _). apply spec_called in Hs.
  assert (pushings (q_abs (jq (started n cb q))) = []) as H0.
  { destruct Hq as (_ & b & Ha). unfold pushings. cbn. rewrite Ha. cbn. clear. by induction k. }
  rewrite H0, app_nil_r in Hs. by rewrite Hs, Hp, <-!app_assoc.
Qed.

(** What happens to running tasks: they begin, they end, or they go on. *)
Lemma pnext_running w m w' e t :
  pnext w m = Some (w', e) →
  match e with
  | Begin u qe => workers w' !! u = Some (WRun qe) ∧ (t ≠ u → workers w' !! t = workers w !! t)
                  ∧ ∀ qe', workers w !! u ≠ Some (WRun qe')
  | End_ u qe => workers w !! u = Some (WRun qe) ∧ (t ≠ u → workers w' !! t = workers w !! t)
  | _ => ∀ qe, workers w !! t = Some (WRun qe) → workers w' !! t = Some (WRun qe)
  end.
Proof.
  intros Hn. destruct m as [m|u]; simpl in Hn.
  - apply bind_Some in Hn as ([q e'] & _ & Hm). unfold queue_move in Hm.
    assert (∀ u p, workers w !! u = Some WPop → ∀ qe, workers w !! t = Some (WRun qe) →
      <[u := p]> (workers w) !! t = Some (WRun qe)) as Hset.
    { intros u p Hu qe Ht. rewrite list_lookup_insert_ne; [done|]. intros ->. congruence. }
    destruct e' as [|u o|u o r|u r]; repeat case_match; simplify_eq; cbn; eauto.
  - unfold work in Hn. destruct (workers w !! u) as [p|] eqn:Hu; [|done].
    assert (u < length (workers w))%nat as Hlt by (by eapply lookup_lt_Some).
    assert (∀ p', t ≠ u → <[u := p']> (workers w) !! t = workers w !! t) as Hne
      by (intros; by rewrite list_lookup_insert_ne).
    assert (∀ p', (∀ qe, p ≠ WRun qe) → ∀ qe, workers w !! t = Some (WRun qe) →
      <[u := p']> (workers w) !! t = Some (WRun qe)) as Hkeep.
    { intros p' Hp qe Ht. rewrite list_lookup_insert_ne; [done|]. intros ->. congruence. }
    destruct p; repeat case_match; simplify_eq; cbn;
      try (apply bind_Some in Hn as ([q e'] & _ & Hn); simplify_eq; cbn);
      try (by apply Hkeep); try (split_and!; [by rewrite ?list_lookup_insert_eq|by apply Hne|congruence..]).
Qed.

Lemma prun_snoc wp ms w1 es m w2 e :
  prun wp ms = Some (w1, es) → pnext w1 m = Some (w2, e) → prun wp (ms ++ [m]) = Some (w2, es ++ [e]).
Proof.
  revert wp es; induction ms as [|m0 ms IH]; intros wp es Hr Hn; simpl in *; simplify_eq.
  { by rewrite Hn. }
  apply bind_Some in Hr as ([w e0] & -> & Hr). apply bind_Some in Hr as ([w' es'] & Hr & [= <- <-]). simpl.
  by rewrite (IH _ _ Hr Hn).
Qed.

(** ** One worker *)

Lemma perm_short {T} (l l' : list T) : l ≡ₚ l' → (length l ≤ 1)%nat → l = l'.
Proof.
  intros Hp Hl. destruct l as [|x [|y l]]; simpl in Hl; [|by apply Permutation_singleton_l in Hp as ->|lia].
  by apply Permutation_nil_l in Hp as ->.
Qed.

(** A single worker has at most one task, and only it comes back from [pop]. *)
Lemma in_flight_one wp p :
  pop_wf (workers wp) (callers (q_abs (jq wp))) → workers wp = [p] → (length (in_flight wp) ≤ 1)%nat.
Proof.
  unfold in_flight. intros Hw Hws. rewrite Hws in *. set (cs := callers (q_abs (jq wp))) in *.
  assert (∀ i c, cs !! S i = Some c → returning c = None) as Hr.
  { intros i c Hc. apply Hw in Hc. destruct c as [| |[]]; try done. destruct Hc as [H _]. by specialize (H I); cbn in H. }
  assert (omap returning (drop 1 cs) = []) as Hd.
  { apply elem_of_nil_inv. intros x (c & Hin & Hx)%list_elem_of_omap.
    apply list_elem_of_lookup in Hin as [i Hi]. rewrite lookup_drop in Hi. by rewrite (Hr _ _ Hi) in Hx. }
  assert (∀ c, cs !! 0%nat = Some c → held p = None ∨ returning c = None) as H0.
  { intros c Hc. apply Hw in Hc. destruct c as [| |[]]; try (by right). destruct Hc as [H _]. left.
    specialize (H I). by simplify_eq/=. }
  assert (omap held [p] = option_list (held p)) as -> by (cbn; by destruct (held p)).
  clearbody cs. destruct cs as [|c cs']; [destruct (held p); cbn; lia|]. cbn in Hd. rewrite drop_0 in Hd.
  change (c :: cs') with ([c] ++ cs'). rewrite omap_app, Hd.
  assert (omap returning [c] = option_list (returning c)) as -> by (cbn; by destruct (returning c)).
  destruct (H0 c eq_refl) as [-> | ->]; [destruct (returning c)|destruct (held p)]; cbn; lia.
Qed.

Lemma pnext_one wp m wp' e p :
  pool_inv wp → plain wp → workers wp = [p] → pnext wp m = Some (wp', e) →
  in_flight wp ++ popped (omap queue_event [e]) = ended [e] ++ in_flight wp'.
Proof.
  intros Hi Hpl Hw Hn. pose proof (pnext_inv _ _ _ _ Hi Hn) as [Hi' Hc].
  destruct (pnext_plain _ _ _ _ Hpl Hn) as [_ Hl]. unfold conserves in Hc. rewrite Hl in Hc. cbn [app] in Hc.
  pose proof (pnext_length _ _ _ _ Hn) as Hlen. rewrite Hw in Hlen. destruct (workers wp') as [|p' [|]] eqn:Hw'; try done.
  destruct Hi as (_ & Hp & _), Hi' as (_ & Hp' & _).
  pose proof (in_flight_one _ _ Hp Hw). pose proof (in_flight_one _ _ Hp' Hw').
  assert (length (popped (omap queue_event [e])) + length (ended [e]) ≤ 1)%nat as He.
  { destruct e as [[| | ? [] []|]| | | |]; cbn; lia. }
  rewrite Permutation_app_comm in Hc. apply perm_short; [done|].
  apply Permutation_length in Hc as Hle. rewrite !length_app in *. lia.
Qed.

Lemma prun_one wp ms wp' es p :
  pool_inv wp → plain wp → workers wp = [p] → prun wp ms = Some (wp', es) →
  in_flight wp ++ popped (omap queue_event es) = ended es ++ in_flight wp'.
Proof.
  revert wp es p; induction ms as [|m ms IH]; intros wp es p Hi Hp Hw Hr; simpl in Hr; [simplify_eq; apply app_nil_r|].
  apply bind_Some in Hr as ([w1 e] & Hn & Hr). apply bind_Some in Hr as ([w2 es2] & Hr & ?). simplify_eq.
  pose proof (pnext_one _ _ _ _ _ Hi Hp Hw Hn) as H1. pose proof (pnext_length _ _ _ _ Hn) as Hlen.
  rewrite Hw in Hlen. destruct (workers w1) as [|p1 [|]] eqn:Hw1; try done.
  assert (in_flight w1 ++ popped (omap queue_event es2) = ended es2 ++ in_flight wp') as H2.
  { eapply IH; [by eapply pnext_inv|by eapply pnext_plain|done|done]. }
  change (e :: es2) with ([e] ++ es2). rewrite omap_app, popped_app, ended_app, app_assoc, H1, <-!app_assoc.
  by rewrite H2.
Qed.

(** ** Properties *)

(** C6: no task is lost and none runs twice. Whatever the schedule, the tasks
    pushed are, as a multiset, the tasks that have ended, those on the way to
    or in a worker, and those still in the queue. *)
Theorem pool_conserves_tasks n cb k q ms wp es :
  0 ≤ n ≤ int_max → fresh_queue k q → prun (started n cb q) ms = Some (wp, es) →
  pushed (omap queue_event es) ≡ₚ ended es ++ in_flight wp ++ content (q_abs (jq wp)) ∧ leaked es = [].
Proof. intros Hn Hq Hr. destruct (started_tasks _ _ _ _ _ _ _ Hn Hq Hr) as (? & ? & ?). done. Qed.

(** C8: the counter. [running_num] is the number of workers between their
    increment and their decrement, so that it is between 0 and [worker_num];
    no increment is lost and none overflows. *)
Theorem running_num_counts n cb k q ms wp es :
  0 ≤ n ≤ int_max → fresh_queue k q → prun (started n cb q) ms = Some (wp, es) →
  getRunnningWorkerNum wp = busy (workers wp)
  ∧ 0 ≤ getRunnningWorkerNum wp ≤ n
  ∧ (∀ t qe v, workers wp !! t = Some (WStore1 qe v) → v = running_num wp ∧ v + 1 ≤ n)
  ∧ (∀ t v, workers wp !! t = Some (WStore2 v) → v = running_num wp ∧ 1 ≤ v).
Proof.
  intros Hn Hq Hr. destruct (prun_inv _ _ _ _ (started_inv n cb k q Hn Hq) Hr) as ((_ & _ & Hc) & _).
  destruct Hc as (Hnum & Hl & Hv & _). pose proof (prun_length _ _ _ _ Hr) as Hlen.
  cbn in Hlen. rewrite length_replicate in Hlen. unfold getRunnningWorkerNum.
  pose proof (busy_range (workers wp)). split_and!; [done|lia|lia|..].
  - intros t qe v Ht. rewrite (Hv _ _ v Ht eq_refl). pose proof (busy_room _ _ _ Ht eq_refl). lia.
  - intros t v Ht. rewrite (Hv _ _ v Ht eq_refl).
    pose proof (busy_insert _ _ _ WTest Ht). pose proof (busy_range (<[t:=WTest]> (workers wp))). cbn in *. lia.
Qed.

(** The pool never stops. Nothing resets [running], so that no worker
    leaves its loop and [stop] (the destructor) waits in [pthread_join] for
    ever, in every reachable state of a pool with at least one worker. *)
Theorem pool_never_stops n cb k q ms wp es :
  0 < n ≤ int_max → fresh_queue k q → prun (started n cb q) ms = Some (wp, es) →
  running wp = true ∧ stop_returns wp = false.
Proof.
  intros Hn Hq Hr. destruct (prun_inv _ _ _ _ (started_inv n cb k q ltac:(lia) Hq) Hr) as ((_ & _ & Hc) & _).
  destruct Hc as (_ & _ & _ & Hrun & He & _). split; [done|].
  pose proof (prun_length _ _ _ _ Hr) as Hlen. cbn in Hlen. rewrite length_replicate in Hlen.
  unfold stop_returns. destruct (workers wp) as [|p ws]; [simpl in Hlen; lia|].
  specialize (He 0%nat). simpl in *. by destruct p.
Qed.

(** A pool of one worker runs the tasks in the order of their pushes: those
    that have ended, the one in hand and those in the queue are, in this order,
    the tasks pushed. *)
Theorem one_worker_in_order cb k q ms wp es :
  fresh_queue k q → prun (started 1 cb q) ms = Some (wp, es) →
  pushed (omap queue_event es) = ended es ++ in_flight wp ++ content (q_abs (jq wp)).
Proof.
  intros Hq Hr. pose proof (started_inv 1 cb k q ltac:(unfold int_max; lia) Hq) as Hi.
  pose proof (prun_one _ _ _ _ WTest Hi (started_plain 1 cb q) eq_refl Hr) as Ho.
  destruct (prun_inv _ _ _ _ Hi Hr) as (_ & Hs & _). apply spec_fifo in Hs.
  destruct Hq as (_ & b & Ha). cbn in Hs. rewrite Ha in Hs. cbn in Hs.
  assert (in_flight (started 1 cb q) = []) as Hf.
  { unfold in_flight. cbn. rewrite Ha. cbn. clear. induction k as [|k IH]; [done|exact IH]. }
  rewrite Hf in Ho. cbn in Ho. by rewrite Hs, Ho, <-app_assoc.
Qed.

(** [Function]. A [Function] made by the default constructor has no value
    to read, although the constructor mentions [Function(NULL, NULL)];
    [setFunction] makes the function readable, but not the argument, and such a
    [Function] cannot be handed to [worker_pool::run]. *)
Theorem Function_default_unreadable (fn : option F) :
  getFunction Function_default = Err Uninitialised
  ∧ getFunction (setFunction fn Function_default) = Ok fn
  ∧ run_element (setFunction fn Function_default) = Err Uninitialised
  ∧ ∀ a, run_element (Function_of fn a) = Ok (Qe fn a).
Proof. done. Qed.
End pool.

(** ** Witnesses *)

Definition demo_task : @queue_element string nat := Qe (Some "task"%string) 1%nat.
Definition demo_queue : @conf (@queue_element string nat) := init 3.
Definition go (t : nat) : @pmove string nat := InQueue (Go t None).

(** Two workers, one client; the second worker sleeps when the task comes. *)
Definition demo_moves : list (@pmove string nat) :=
  [ Work 0; go 0; go 0; Work 1; go 1; go 1;
    InQueue (Call 2 (Push demo_task)); go 2; InQueue (Go 2 (Some 1%nat)); go 2;
    go 1; go 1; go 1; Work 1; Work 1; Work 1; Work 1; Work 1 ]%nat.

Definition demo_run := prun (started 2 None demo_queue) demo_moves.
Definition demo_pool := match demo_run with Some (wp, _) => wp | None => started 2 None demo_queue end.
Definition demo_events := match demo_run with Some (_, es) => es | None => [] end.

Lemma demo_fresh : fresh_queue 3 demo_queue.
Proof. split; [apply init_inv|]. by exists 2000. Qed.

Lemma demo_runs : prun (started 2 None demo_queue) demo_moves = Some (demo_pool, demo_events).
Proof. vm_compute. reflexivity. Qed.

Lemma pool_conserves_tasks_witness :
  workers demo_pool = [WPop; WLock2]
  ∧ pushed (omap queue_event demo_events)
    ≡ₚ ended demo_events ++ in_flight demo_pool ++ content (q_abs (jq demo_pool)) ∧ leaked demo_events = [].
Proof.
  split; [vm_compute; reflexivity|].
  apply (pool_conserves_tasks 2 None 3 demo_queue demo_moves demo_pool demo_events);
    [unfold int_max; lia|apply demo_fresh|apply demo_runs].
Defined.

Lemma running_num_counts_witness :
  getRunnningWorkerNum demo_pool = 1
  ∧ getRunnningWorkerNum demo_pool = busy (workers demo_pool)
  ∧ 0 ≤ getRunnningWorkerNum demo_pool ≤ 2
  ∧ (∀ t qe v, workers demo_pool !! t = Some (WStore1 qe v) → v = running_num demo_pool ∧ v + 1 ≤ 2)
  ∧ (∀ t v, workers demo_pool !! t = Some (WStore2 v) → v = running_num demo_pool ∧ 1 ≤ v).
Proof.
  split; [vm_compute; reflexivity|].
  apply (running_num_counts 2 None 3 demo_queue demo_moves demo_pool demo_events);
    [unfold int_max; lia|apply demo_fresh|apply demo_runs].
Defined.

Lemma pool_never_stops_witness : running demo_pool = true ∧ stop_returns demo_pool = false.
Proof.
  apply (pool_never_stops 2 None 3 demo_queue demo_moves demo_pool demo_events);
    [unfold int_max; lia|apply demo_fresh|apply demo_runs].
Defined.

Definition one_moves : list (@pmove string nat) :=
  [ InQueue (Call 1 (Push demo_task)); go 1; go 1; go 1; Work 0; go 0; go 0; go 0; Work 0; Work 0; Work 0; Work 0;
    InQueue (Call 1 (Push (Qe (Some "next"%string) 2%nat))); go 1; go 1; go 1; Work 0 ]%nat.

Lemma one_worker_in_order_witness :
  ∃ wp es, prun (started 1 None (init 2)) one_moves = Some (wp, es)
    ∧ ended es = [demo_task] ∧ length (content (q_abs (jq wp))) = 1%nat
    ∧ pushed (omap queue_event es) = ended es ++ in_flight wp ++ content (q_abs (jq wp)).
Proof.
  destruct (prun (started 1 None (init 2)) one_moves) as [[wp es]|] eqn:Hr; [|vm_compute in Hr; discriminate].
  exists wp, es. split; [reflexivity|].
  split; [vm_compute in Hr; injection Hr as _ <-; reflexivity|].
  split; [vm_compute in Hr; injection Hr as <- _; reflexivity|].
  apply (one_worker_in_order None 2 (init 2) one_moves wp es); [|exact Hr].
  split; [apply init_inv|by exists 2000].
Defined.
