(* ===== verification/Poller.v ===== *)
(** * A thread that polls, and a pool that works: the shared part of acceptor.cpp
      and message_queue_server.cpp

    Both programs have one thread that calls [epoll_wait] and pushes a task for
    every event, and a pool of workers that run the tasks.  Here are the
    kernel's registrations, the pool with the variables of the tasks that it
    runs ([pool_step]), and the invariant [poll_inv] that ties events to tasks;
    EventLoop.v and Broker.v make their transition systems of them. *)

From S2P Require Import Prelude JobQueue WorkerPool.
Open Scope Z_scope.

(** ** The kernel *)

Definition MAXEVENTS : nat := 1024.
Definition EPOLLIN : Z := 1.
Definition EPOLLOUT : Z := 4.
Definition EPOLLERR : Z := 8.
Definition EPOLLHUP : Z := 16.

Inductive direction := EpollIn | EpollOut.

(** A registration: the union [event.data] as its 64 bits, the direction, and
    whether EPOLLONESHOT is set and the event still armed. *)
Record reg := Reg { data : Z; dir : direction; oneshot : bool; armed_ : bool }.
Record epoll_event := Ev { events : Z; ev_data : Z }.

(** [data.fd], the lower half of the union. *)
Definition data_fd (d : Z) : Z := to_int d.

(** [epoll_ctl]; adding what is there, or changing what is not, fails and has
    no effect. *)
Definition ctl_add (fd : Z) (r : reg) (regs : gmap Z reg) : gmap Z reg :=
  match regs !! fd with Some _ => regs | None => <[fd := r]> regs end.
Definition ctl_mod (fd : Z) (r : reg) (regs : gmap Z reg) : gmap Z reg :=
  match regs !! fd with Some _ => <[fd := r]> regs | None => regs end.

(** The bits that may be reported: what was asked for, errors and hang-ups. *)
Definition reportable (d : direction) (bits : Z) : bool :=
  Z.ldiff bits (Z.lor (match d with EpollIn => EPOLLIN | EpollOut => EPOLLOUT end)
                      (Z.lor EPOLLERR EPOLLHUP)) =? 0.

(** [epoll_wait], given the ready descriptors and their bits. *)
Fixpoint epoll_wait (ready : list (Z * Z)) (regs : gmap Z reg) : option (gmap Z reg * list epoll_event) :=
  match ready with
  | [] => Some (regs, [])
  | (fd, bits) :: ready =>
      r ← regs !! fd;
      if armed_ r && reportable (dir r) bits then
        '(regs, evs) ← epoll_wait ready (<[fd := Reg (data r) (dir r) (oneshot r) (negb (oneshot r))]> regs);
        Some (regs, Ev bits (data r) :: evs)
      else None
  end.

(** What [read] returns: some bytes, 0, or -1 (EAGAIN). *)
Inductive read_result := Data (r : bytes) | ReadEof | ReadAgain.

(** What holds of all registrations also holds of what is reported. *)
Lemma epoll_wait_all (P : Z → Prop) ready regs regs' evs :
  map_Forall (λ _ r, P (data r)) regs → epoll_wait ready regs = Some (regs', evs) →
  map_Forall (λ _ r, P (data r)) regs' ∧ Forall (λ ev, P (ev_data ev)) evs.
Proof.
  revert regs regs' evs; induction ready as [|[fd bits] ready IH]; intros r r' evs Hr H; simpl in H; simplify_eq; [done|].
  apply bind_Some in H as (x & Hx & H). case_match; [|done]. apply bind_Some in H as ([r2 evs2] & Hw & [= <- <-]).
  pose proof (Hr _ _ Hx) as Hd.
  apply IH in Hw as [? ?]; [|by apply map_Forall_insert_2]. split; [done|]. by constructor.
Qed.

Lemma ctl_add_all (P : reg → Prop) fd r regs :
  P r → map_Forall (λ _ r, P r) regs → map_Forall (λ _ r, P r) (ctl_add fd r regs).
Proof. intros. unfold ctl_add. case_match; [done|]. by apply map_Forall_insert_2. Qed.
Lemma ctl_mod_all (P : reg → Prop) fd r regs :
  P r → map_Forall (λ _ r, P r) regs → map_Forall (λ _ r, P r) (ctl_mod fd r regs).
Proof. intros. unfold ctl_mod. case_match; [|done]. by apply map_Forall_insert_2. Qed.

(** ** Events and the pool *)

Section poller.
Context {F : Type}.

Abbreviation task := (@queue_element F Z).

Inductive occurrence :=
  | Reported (evs : list epoll_event)
  | PoolDid (e : @pevent F Z)
  | Quiet.

(** What a run has reported, and done in the pool and in its queue. *)
Definition reported (es : list occurrence) : list epoll_event :=
  es ≫= λ e, match e with Reported evs => evs | _ => [] end.
Definition pool_events (es : list occurrence) : list (@pevent F Z) :=
  omap (λ e, match e with PoolDid e => Some e | _ => None end) es.
Definition queue_events (es : list occurrence) : list (@event task) := omap queue_event (pool_events es).

Lemma reported_snoc es e : reported (es ++ [e]) = reported es ++ match e with Reported evs => evs | _ => [] end.
Proof. unfold reported. rewrite bind_app. simpl. by rewrite app_nil_r. Qed.
Lemma pool_events_snoc es e :
  pool_events (es ++ [e]) = pool_events es ++ match e with PoolDid e => [e] | _ => [] end.
Proof. unfold pool_events. rewrite omap_app. by destruct e. Qed.

Context {Q : Type} `{!AtomicQueue (A := task) Q}.

(** A move of the pool.  [frames]: the variables of the tasks that the workers
    run; a task gets them when it begins, and ends when it has returned, that
    is, when they are gone.  The thread behind the workers is the one that
    polls; the result tells whether its [push] returns.  Pushes begin elsewhere,
    and no worker pushes. *)
Definition pool_step {Fr} (fresh : task → Fr) (m : @pmove F Z) (w : @worker_pool F Z Q) (frames : gmap nat Fr) :
    option (worker_pool * gmap nat Fr * bool * pevent) :=
  '(w', e) ← pnext w m;
  match e with
  | QEvent (ECall _ (Push _)) => None
  | QEvent (ERet t None) => Some (w', frames, bool_decide (t = length (workers w)), e)
  | Begin t qe => Some (w', <[t := fresh qe]> frames, false, e)
  | End_ t _ => match frames !! t with None => Some (w', frames, false, e) | Some _ => None end
  | _ => Some (w', frames, false, e)
  end.

Lemma pool_step_inv {Fr} (fresh : task → Fr) m w frames w' frames' b e :
  pool_step fresh m w frames = Some (w', frames', b, e) →
  pnext w m = Some (w', e) ∧ (∀ t qe, e ≠ QEvent (ECall t (Push qe)))
  ∧ (frames' = frames ∨ ∃ t qe, frames' = <[t := fresh qe]> frames ∧ e = Begin t qe).
Proof.
  unfold pool_step. intros ([w1 e1] & -> & H)%bind_Some.
  repeat case_match; simplify_eq; split_and!; eauto.
Qed.

(** ** From events to tasks *)

Context (task_of : epoll_event → option task).

(** [w0]: the pool at the start; [pending]: the events in front of the polling
    thread.  Every other event's task has been pushed or is being pushed. *)
Definition poll_inv (w0 w : worker_pool) (pending : list epoll_event) (es : list occurrence) : Prop :=
  (∃ pms, prun w0 pms = Some (w, pool_events es)) ∧ pool_inv w
  ∧ sole_pusher (length (workers w0)) (q_abs (jq w))
  ∧ ∃ handled, reported es = handled ++ pending
      ∧ omap task_of handled = pushed (queue_events es) ++ pushing (length (workers w0)) (q_abs (jq w)).

(** Moves outside of the pool, that report [evs] and handle [ev]. *)
Lemma poll_quiet w0 w p es p' e evs ev :
  poll_inv w0 w p es → (e = Quiet ∧ evs = [] ∨ e = Reported evs) →
  p ++ evs = option_list ev ++ p' → (∀ x, ev = Some x → task_of x = None) →
  poll_inv w0 w p' (es ++ [e]).
Proof.
  intros (Hr & Hi & Hs & (hd & Hh & Ht)) He Hrest Hev.
  assert (pool_events (es ++ [e]) = pool_events es) as Hpe.
  { rewrite pool_events_snoc. destruct He as [[-> _] | ->]; apply app_nil_r. }
  assert (reported (es ++ [e]) = reported es ++ evs) as Hrep.
  { rewrite reported_snoc. by destruct He as [[-> ->] | ->]. }
  unfold poll_inv, queue_events. rewrite Hpe, Hrep. split_and!; [done..|].
  exists (hd ++ option_list ev). split; [by rewrite Hh, <-!app_assoc, Hrest|].
  rewrite omap_app, Ht. destruct ev as [x|]; simpl; [|by rewrite app_nil_r].
  by rewrite (Hev x eq_refl), app_nil_r.
Qed.

(** Moves of the pool that do not call [push]. *)
Lemma poll_pool w0 w p es m w' pe :
  poll_inv w0 w p es → pnext w m = Some (w', pe) → (∀ t qe, pe ≠ QEvent (ECall t (Push qe))) →
  poll_inv w0 w' p (es ++ [PoolDid pe]).
Proof.
  intros ([pms Hr] & Hi & Hs & (hd & Hh & Ht)) Hn Hpe.
  pose proof (pnext_inv _ _ _ _ Hi Hn) as [Hi' _]. pose proof (pnext_spec _ _ _ _ Hi Hn) as Hspec.
  set (n := length (workers w0)) in *.
  assert (sole_pusher n (q_abs (jq w'))
    ∧ pushing n (q_abs (jq w)) = pushed (omap queue_event [pe]) ++ pushing n (q_abs (jq w'))) as [Hs' Hp].
  { destruct (queue_event pe) as [qe|] eqn:Hq; simpl in Hspec |- *; rewrite Hq in Hspec |- *; simpl in *.
    - apply spec_steps_one_inv in Hspec. eapply pusher_step; [done..|].
      intros t x ->. destruct pe; simplify_eq/=. by eapply Hpe.
    - apply spec_steps_nil_inv in Hspec. by rewrite <-Hspec. }
  unfold poll_inv, queue_events. fold n. rewrite reported_snoc, pool_events_snoc.
  split_and!; [exists (pms ++ [m]); by eapply prun_snoc|done|done|].
  exists hd. rewrite app_nil_r. split; [done|]. rewrite omap_app, pushed_app, <-app_assoc, Ht. by rewrite <-Hp.
Qed.

(** The call of [push]. *)
Lemma poll_call w0 w p es ev x w' pe :
  poll_inv w0 w (ev :: p) es → task_of ev = Some x →
  pnext w (InQueue (Call (length (workers w)) (Push x))) = Some (w', pe) →
  poll_inv w0 w' p (es ++ [PoolDid pe]).
Proof.
  intros ([pms Hr] & Hi & Hs & (hd & Hh & Ht)) Hx Hn.
  pose proof (prun_length _ _ _ _ Hr) as Hlen. rewrite Hlen in Hn. set (n := length (workers w0)) in *.
  pose proof (pnext_call _ _ _ _ _ Hn) as ->.
  pose proof (pnext_inv _ _ _ _ Hi Hn) as [Hi' _]. pose proof (pnext_spec _ _ _ _ Hi Hn) as Hspec.
  apply spec_steps_one_inv in Hspec. destruct (pusher_call _ _ _ _ Hspec Hs) as (Hs' & Hp & Hp').
  unfold poll_inv, queue_events. fold n. rewrite reported_snoc, pool_events_snoc.
  split_and!; [exists (pms ++ [InQueue (Call n (Push x))]); by eapply prun_snoc|done|done|].
  exists (hd ++ [ev]). rewrite app_nil_r, Hh. split; [by rewrite <-app_assoc|].
  rewrite !omap_app, pushed_app, Ht, Hp, Hp'. cbn. by rewrite Hx, !app_nil_r.
Qed.

Lemma poll_started n cb k q :
  0 ≤ n ≤ int_max → fresh_queue k q → poll_inv (started n cb q) (started n cb q) [] [].
Proof.
  intros Hn Hq. pose proof (started_inv n cb k q Hn Hq) as Hi. destruct Hq as (Hq & b & Ha).
  split_and!; [by exists []|done|..].
  - intros t x. cbn. rewrite Ha. cbn. by intros [? _]%(lookup_replicate_1 k).
  - exists []. split; [done|]. unfold pushing. cbn [started start jq worker_pool_new]. rewrite Ha. cbn.
    by destruct (replicate k SIdle !! _) eqn:E; [apply lookup_replicate_1 in E as [-> _]|].
Qed.

(** What has become of the events. *)
Lemma poll_conserves n cb k q w p es :
  0 ≤ n ≤ int_max → fresh_queue k q → poll_inv (started n cb q) w p es →
  ∃ handled, reported es = handled ++ p
    ∧ omap task_of handled ≡ₚ ended (pool_events es) ++ in_flight w ++ content (q_abs (jq w))
        ++ pushing (length (workers w)) (q_abs (jq w)).
Proof.
  intros Hn Hq ([pms Hp] & _ & _ & handled & Hh & Ht). exists handled. split; [done|].
  rewrite Ht, (prun_length _ _ _ _ Hp).
  destruct (started_tasks n cb k q pms _ _ Hn Hq Hp) as (Hperm & _ & _).
  unfold queue_events. by rewrite Hperm, <-!app_assoc.
Qed.

(** The task that a worker runs comes from an event. *)
Lemma poll_running n cb k q w p es t qe :
  0 ≤ n ≤ int_max → fresh_queue k q → poll_inv (started n cb q) w p es → workers w !! t = Some (WRun qe) →
  ∃ ev, ev ∈ reported es ∧ task_of ev = Some qe.
Proof.
  intros Hn Hq Hi Hw. destruct (poll_conserves _ _ _ _ _ _ _ Hn Hq Hi) as (handled & Hh & Hp).
  assert (qe ∈ omap task_of handled) as (ev & Hin & Hev)%list_elem_of_omap.
  { rewrite Hp. apply elem_of_app. right. apply elem_of_app. left. unfold in_flight.
    apply elem_of_app. left. apply list_elem_of_omap. exists (WRun qe). split; [by eapply list_elem_of_lookup_2|done]. }
  exists ev. split; [|done]. rewrite Hh. by apply elem_of_app; left.
Qed.
End poller.
