(* ===== verification/AsyncLog.v ===== *)
(** * The asynchronous logger: log.cpp ([log_from_queue], [stop])

    With [is_async] set, [debug] pushes a record on the task queue, and the
    thread that [init] has started pops records and writes them until [running]
    is false.  The logger is written against the contract of the queue
    ([AtomicQueue]); thread 0 is the logger's, the others call [debug].  After
    [stop] has deleted the queue no move is left. *)

From S2P Require Import Prelude Log JobQueue.
Open Scope Z_scope.

Section logger.
Context {Q : Type} `{!AtomicQueue (A := bytes) Q}.

(** ** State *)

Inductive lpc :=
  | LTest                     (* at [while (running)] *)
  | LPop                      (* in [_tq->pop()] *)
  | LWrite (content : bytes)  (* at [write(output_fd, ...)] *)
  | LExit.
Inductive stop_pc := NotCalled | Joining | Stopped.

Record logger := Lg { l_running : bool; l_pc : lpc; l_tq : Q; l_stop : stop_pc }.

(** After [init]. *)
Definition logger_started (q : Q) : logger := Lg true LTest q NotCalled.

(** ** Moves *)

Inductive lmove :=
  | LLog (t : nat) (text : bytes)    (* thread [t] calls [debug] *)
  | LQueue (m : @move bytes)         (* a move inside of the queue *)
  | LGo                              (* the logger outside of the queue *)
  | StopCall                         (* [running = false] *)
  | StopJoin.                        (* [pthread_join] returns; [delete tq] *)

Inductive levent :=
  | LQ (e : @event bytes)
  | Wrote (data : bytes)
  | LTau.

Definition set_tq (q : Q) (s : logger) : logger := Lg (l_running s) (l_pc s) q (l_stop s).
Definition set_pc (p : lpc) (s : logger) : logger := Lg (l_running s) p (l_tq s) (l_stop s).

(** The logger is the only one that pops. *)
Definition logger_returns (e : @event bytes) (s : logger) : option (logger * levent) :=
  match e with
  | ERet O (Some c) => match l_pc s with LPop => Some (set_pc (LWrite c) s, LQ e) | _ => None end
  | ERet (S _) None => Some (s, LQ e)
  | ERet _ _ => None
  | ECall _ _ => None
  | _ => Some (s, LQ e)
  end.

Definition lgo (s : logger) : option (logger * levent) :=
  match l_pc s with
  | LTest =>
      if l_running s then
        '(q, e) ← q_next (l_tq s) (Call 0 Pop);
        Some (set_pc LPop (set_tq q s), LQ e)
      else Some (set_pc LExit s, LTau)
  | LWrite c =>
      match log_from_queue c with
      | Ok (LogWrite data) => Some (set_pc LTest s, Wrote data)
      | _ => None
      end
  | LPop | LExit => None
  end.

Definition lnext (s : logger) (m : lmove) : option (logger * levent) :=
  match l_stop s, m with
  | Stopped, _ => None
  | _, LLog t text =>
      match t, debug 2 true (Some text) with
      | S _, Ok (Some (LogPush content)) =>
          '(q, e) ← q_next (l_tq s) (Call t (Push content));
          Some (set_tq q s, LQ e)
      | _, _ => None
      end
  | _, LQueue m => '(q, e) ← q_next (l_tq s) m; logger_returns e (set_tq q s)
  | _, LGo => lgo s
  | NotCalled, StopCall => Some (Lg false (l_pc s) (l_tq s) Joining, LTau)
  | Joining, StopJoin =>
      match l_pc s with LExit => Some (Lg (l_running s) LExit (l_tq s) Stopped, LTau) | _ => None end
  | _, _ => None
  end.

Fixpoint lrun (s : logger) (ms : list lmove) : option (logger * list levent) :=
  match ms with
  | [] => Some (s, [])
  | m :: ms => '(s, e) ← lnext s m; '(s, es) ← lrun s ms; Some (s, e :: es)
  end.

Lemma lrun_cons s m s1 e ms s2 es :
  lnext s m = Some (s1, e) → lrun s1 ms = Some (s2, es) → lrun s (m :: ms) = Some (s2, e :: es).
Proof. intros H1 H2. simpl. rewrite H1. simpl. by rewrite H2. Qed.

(** ** What is in hand *)

Definition queue_events (es : list levent) : list (@event bytes) :=
  omap (λ e, match e with LQ e => Some e | _ => None end) es.
Definition wrote (es : list levent) : list bytes :=
  omap (λ e, match e with Wrote d => Some d | _ => None end) es.

Definition caller (t : nat) (s : logger) : option (@spc bytes) := callers (q_abs (l_tq s)) !! t.
Definition records (s : logger) : list bytes := content (q_abs (l_tq s)).

(** The record between its removal from the queue and its [write]. *)
Definition taken (p : lpc) (c : option (@spc bytes)) : list bytes :=
  match p, c with
  | LWrite c, _ => [c]
  | LPop, Some (SDone (Some c)) => [c]
  | _, _ => []
  end.

(** ** Invariant *)

Definition is_record (c : bytes) : Prop := length c = LOG_LEN.

(** What a caller may be doing: thread 0 pops exactly while the logger is in
    [pop], the others push records. *)
Definition caller_ok (p : lpc) (t : nat) (c : @spc bytes) : Prop :=
  match t, c with
  | O, SIdle => p ≠ LPop
  | O, SPending Pop => p = LPop
  | O, SDone (Some c) => p = LPop ∧ is_record c
  | S _, SIdle | S _, SDone None => True
  | S _, SPending (Push c) => is_record c
  | _, _ => False
  end.

Definition linv (s : logger) : Prop :=
  q_inv (l_tq s) ∧ Forall is_record (records s) ∧ (∀ c, l_pc s = LWrite c → is_record c)
  ∧ ∀ t c, caller t s = Some c → caller_ok (l_pc s) t c.

Lemma emit_record p r : emit true p = Ok r → ∃ c, r = LogPush c ∧ is_record c.
Proof.
  unfold emit. intros H. apply bind_ok_inv in H as (t & _ & H). case_decide; [|done].
  unfold write_log in H. apply bind_ok_inv in H as (c & Hc & [= <-]). exists c. split; [done|].
  unfold is_record. rewrite (memcpy_length _ _ _ _ _ _ Hc). by rewrite length_replicate.
Qed.

Lemma debug_record text r : debug 2 true (Some text) = Ok (Some r) → ∃ c, r = LogPush c ∧ is_record c.
Proof.
  unfold debug. cbn [debug_loop]. intros H.
  assert (∀ m, (r ← emit true m; Ok (Some r)) = Ok (Some r) → ∃ c, r = LogPush c ∧ is_record c) as He.
  { intros m Hm. apply bind_ok_inv in Hm as (r' & Hm & [= ->]). by eapply emit_record. }
  case_match; [by eapply He|]. apply bind_ok_inv in H as (sz & _ & H).
  case_match; [by eapply He|]. by apply bind_ok_inv in H as (? & _ & ?).
Qed.

Lemma write_record c : is_record c → log_from_queue c = Ok (LogWrite c).
Proof.
  intros Hc. unfold log_from_queue. unfold is_record in Hc.
  rewrite memcpy_ok, bind_ok by (rewrite ?length_replicate; lia).
  rewrite take_0, drop_0, take_ge by lia. rewrite drop_ge by (by rewrite length_replicate). by rewrite app_nil_r.
Qed.

(** The records that a step pops and writes, and those taken before and after. *)
Definition keeps_order (s : logger) (e : levent) (s' : logger) : Prop :=
  taken (l_pc s) (caller 0 s) ++ popped (queue_events [e]) = wrote [e] ++ taken (l_pc s') (caller 0 s').

Lemma caller_set (a : @aqueue bytes) t p u c :
  callers (with_caller t p a) !! u = Some c →
  (u = t ∧ c = p ∧ (t < length (callers a))%nat) ∨ (u ≠ t ∧ callers a !! u = Some c).
Proof. cbn. rewrite list_lookup_insert_Some. naive_solver. Qed.

(** Thread [t] goes from [c0] to [c], the program counter to [p]. *)
Lemma linv_set s s' t c0 c :
  linv s → q_inv (l_tq s') → Forall is_record (records s') → (∀ d, l_pc s' = LWrite d → is_record d) →
  caller t s = Some c0 → callers (q_abs (l_tq s')) = <[t := c]> (callers (q_abs (l_tq s))) →
  caller_ok (l_pc s') t c → (t ≠ 0%nat → l_pc s' = l_pc s) → linv s'.
Proof.
  intros (_ & _ & _ & Hc) Hq Hr Hw Ht Hcs Hok Hpc. split_and!; [done..|].
  intros u d. unfold caller in *. rewrite Hcs, list_lookup_insert_Some. intros [(<- & <- & _)|[Hne Hu]]; [done|].
  destruct (decide (t = 0%nat)) as [->|Ht0]; [|rewrite Hpc by done; by apply Hc].
  apply Hc in Hu. by destruct u.
Qed.

Lemma linv_call s q t o p :
  linv s → q_inv q → spec_step (q_abs (l_tq s)) (ECall t o) (q_abs q) →
  caller_ok p t (SPending o) → (t ≠ 0%nat → p = l_pc s) → (∀ d, p = LWrite d → is_record d) →
  linv (set_pc p (set_tq q s)) ∧ caller t s = Some SIdle
  ∧ caller 0 (set_pc p (set_tq q s)) = if decide (t = 0%nat) then Some (SPending o) else caller 0 s.
Proof.
  intros Hi Hq Hs Hok Hp Hw. inversion Hs as [|? ? ? Hc| | |]; subst.
  assert (caller t s = Some SIdle) as Ht by done. split_and!; [|done|].
  - eapply (linv_set s _ t SIdle (SPending o)); [done|done| |done|done| |done|done].
    + unfold records. cbn. match goal with H : with_caller _ _ _ = _ |- _ => rewrite <-H end. apply Hi.
    + cbn. by match goal with H : with_caller _ _ _ = _ |- _ => rewrite <-H end.
  - unfold caller. cbn. match goal with H : with_caller _ _ _ = _ |- _ => rewrite <-H end. cbn.
    case_decide as H0; subst; [rewrite list_lookup_insert_eq by (by eapply lookup_lt_Some); done|].
    by rewrite list_lookup_insert_ne.
Qed.

Lemma logger_returns_inv s q e s' ev :
  linv s → q_inv q → spec_step (q_abs (l_tq s)) e (q_abs q) →
  logger_returns e (set_tq q s) = Some (s', ev) →
  linv s' ∧ keeps_order s ev s' ∧ ev = LQ e ∧ l_tq s' = q ∧ l_stop s' = l_stop s.
Proof.
  intros Hi Hq Hs Hr. pose proof Hi as (_ & Hrec & Hw & Hc). unfold keeps_order, caller, records in *.
  remember (q_abs q) as a' eqn:Ha. revert Ha.
  inversion Hs as [s1|t o s1 Ht|t qe s1 Ht Hlt|t qe q1 s1 Ht Hqe|t r s1 Ht]; subst; intros Ha; cbn in Hr; simplify_eq.
  - split_and!; [|cbn; by rewrite <-Ha, app_nil_r|done..]. split_and!; unfold caller, records; cbn; by rewrite <-?Ha.
  - pose proof (Hc _ _ Ht) as Hok. destruct t as [|t]; [done|]. split_and!; [| |done..].
    + eapply (linv_set s _ (S t) _ (SDone None)); [done|done| |done|exact Ht|cbn; by rewrite <-Ha|done|done].
      unfold records. cbn. rewrite <-Ha. cbn. apply Forall_app. by split; [|constructor].
    + cbn. rewrite <-Ha. cbn. by rewrite list_lookup_insert_ne, app_nil_r.
  - pose proof (Hc _ _ Ht) as Hok. destruct t as [|t]; [|done]. cbn in Hok.
    rewrite Hqe in Hrec. apply Forall_cons in Hrec as [Hr1 Hr2]. split_and!; [| |done..].
    + eapply (linv_set s _ 0 _ (SDone (Some qe))); [done|done| |done|exact Ht|cbn; by rewrite <-Ha|done|done].
      unfold records. cbn. by rewrite <-Ha.
    + cbn. rewrite <-Ha, Ht, Hok. cbn. by rewrite list_lookup_insert_eq by (by eapply lookup_lt_Some).
  - pose proof (Hc _ _ Ht) as Hok. destruct t as [|t], r as [c|]; simplify_eq; try done.
    + destruct Hok as [Hp Hrc]. rewrite Hp in Hr. simplify_eq. split_and!; [| |done..].
      * eapply (linv_set s _ 0 _ SIdle); [done|done| | |exact Ht|cbn; by rewrite <-Ha|done|done].
        -- unfold records. cbn. by rewrite <-Ha.
        -- by intros d [= <-].
      * cbn. by rewrite Ht, Hp.
    + split_and!; [| |done..].
      * eapply (linv_set s _ (S t) _ SIdle); [done|done| |done|exact Ht|cbn; by rewrite <-Ha|done|done].
        unfold records. cbn. by rewrite <-Ha.
      * cbn. rewrite <-Ha. cbn. by rewrite list_lookup_insert_ne, app_nil_r.
Qed.

(** The logger's own moves. *)
Lemma lgo_inv s s' e :
  linv s → lgo s = Some (s', e) →
  linv s' ∧ keeps_order s e s' ∧ spec_steps (q_abs (l_tq s)) (queue_events [e]) (q_abs (l_tq s')).
Proof.
  intros Hi. pose proof Hi as (Hq & Hrec & Hw & Hc).
  unfold lgo. intros Hg.
  destruct (l_pc s) as [| |c|] eqn:Hp; try done.
  + destruct (l_running s); simplify_eq.
    * apply bind_Some in Hg as ([q e'] & Hnx & [= <- <-]).
      pose proof (q_sim _ _ _ _ Hq Hnx) as Hs. rewrite (q_call _ _ _ _ _ Hnx) in *.
      destruct (linv_call s q 0 Pop LPop Hi) as (Hl & Hidle & H0); [by eapply q_inv_next|done|done|done|done|].
      split_and!; [done| |by econstructor; [|constructor]].
      unfold keeps_order. rewrite H0, Hp. done.
    * split_and!; [|by unfold keeps_order; rewrite Hp|constructor].
      split_and!; [done..|]. intros t c Ht. specialize (Hc t c Ht). cbn.
      destruct t, c as [|[]|[]]; try done; by destruct Hc.
  + rewrite (write_record c (Hw c eq_refl)) in Hg. simplify_eq.
    split_and!; [|by unfold keeps_order; rewrite Hp|constructor].
    split_and!; [done..|]. intros t d Ht. specialize (Hc t d Ht). cbn.
    destruct t, d as [|[]|[]]; try done; by destruct Hc.
Qed.

(** One move. *)
Lemma lnext_inv s m s' e :
  linv s → lnext s m = Some (s', e) →
  linv s' ∧ keeps_order s e s' ∧ spec_steps (q_abs (l_tq s)) (queue_events [e]) (q_abs (l_tq s')).
Proof.
  intros Hi Hn. pose proof Hi as (Hq & Hrec & Hw & Hc).
  assert (l_stop s ≠ Stopped) as Hst by (intros Hst; unfold lnext in Hn; by rewrite Hst in Hn).
  destruct m as [t text|m| | |]; unfold lnext in Hn.
  - assert (∃ t' c q e', t = S t' ∧ is_record c ∧ q_next (l_tq s) (Call t (Push c)) = Some (q, e')
      ∧ s' = set_tq q s ∧ e = LQ e') as (t' & c & q & e' & -> & Hrc & Hnx & -> & ->).
    { destruct (l_stop s); [| |done]; destruct t as [|t]; try done;
        destruct (debug 2 true (Some text)) as [[r|]| |] eqn:Hd; try done;
        apply debug_record in Hd as (c & -> & Hrc);
        apply bind_Some in Hn as ([q e'] & Hnx & [= <- <-]); by eauto 10. }
    pose proof (q_sim _ _ _ _ Hq Hnx) as Hs. rewrite (q_call _ _ _ _ _ Hnx) in *.
    destruct (linv_call s q (S t') (Push c) (l_pc s) Hi) as (Hl & Hidle & H0);
      [by eapply q_inv_next|done|done|done|by intros; apply Hw|].
    assert (set_pc (l_pc s) (set_tq q s) = set_tq q s) as Heq by (by destruct s).
    rewrite Heq in *. split_and!; [done| |by econstructor; [|constructor]].
    unfold keeps_order. rewrite H0. cbn. by rewrite app_nil_r.
  - assert (∃ q e', q_next (l_tq s) m = Some (q, e') ∧ logger_returns e' (set_tq q s) = Some (s', e))
      as (q & e' & Hnx & Hr)
      by (destruct (l_stop s); try done; apply bind_Some in Hn as ([q e'] & ? & ?); eauto).
    pose proof (q_sim _ _ _ _ Hq Hnx) as Hs.
    destruct (logger_returns_inv s q e' s' e Hi) as (Hl & Hk & -> & <- & _);
      [by eapply q_inv_next|done|done|].
    split_and!; [done..|]. by econstructor; [|constructor].
  - by apply lgo_inv; destruct (l_stop s).
  - assert (s' = Lg false (l_pc s) (l_tq s) Joining ∧ e = LTau) as [-> ->]
      by (destruct (l_stop s); by simplify_eq).
    split_and!; [done| |constructor]. unfold keeps_order. cbn. by rewrite app_nil_r.
  - assert (s' = Lg (l_running s) LExit (l_tq s) Stopped ∧ e = LTau ∧ l_pc s = LExit) as (-> & -> & Hp)
      by (destruct (l_stop s); simplify_eq; destruct (l_pc s); by simplify_eq).
    split_and!; [|by unfold keeps_order; cbn; rewrite Hp|constructor].
    split_and!; [done..|]. by rewrite <-Hp.
Qed.

Lemma lrun_inv s ms s' es :
  linv s → lrun s ms = Some (s', es) →
  linv s' ∧ taken (l_pc s) (caller 0 s) ++ popped (queue_events es) = wrote es ++ taken (l_pc s') (caller 0 s')
  ∧ spec_steps (q_abs (l_tq s)) (queue_events es) (q_abs (l_tq s')).
Proof.
  revert s es; induction ms as [|m ms IH]; intros s es Hi Hr; simpl in Hr.
  { simplify_eq. split_and!; [done|by rewrite app_nil_r|constructor]. }
  apply bind_Some in Hr as ([s1 e] & Hn & Hr). apply bind_Some in Hr as ([s2 es2] & Hr & ?). simplify_eq.
  destruct (lnext_inv _ _ _ _ Hi Hn) as (H1 & H2 & H3). destruct (IH _ _ H1 Hr) as (H4 & H5 & H6).
  change (e :: es2) with ([e] ++ es2). unfold keeps_order, queue_events, wrote, popped in *. rewrite !omap_app.
  split_and!; [done| |by eapply spec_steps_app]. by rewrite app_assoc, H2, <-app_assoc, H5, app_assoc.
Qed.
Lemma lrun_records s ms s' es : linv s → lrun s ms = Some (s', es) → Forall is_record (wrote es).
Proof.
  revert s es; induction ms as [|m ms IH]; intros s es Hi Hr; simpl in Hr; [simplify_eq; constructor|].
  apply bind_Some in Hr as ([s1 e] & Hn & Hr). apply bind_Some in Hr as ([s2 es2] & Hr & ?). simplify_eq.
  destruct (lnext_inv _ _ _ _ Hi Hn) as (Hi1 & Hk & _). specialize (IH _ _ Hi1 Hr).
  destruct e as [e|d|]; [done| |done]. cbn. constructor; [|done].
  assert (l_pc s = LWrite d) as Hp; [|by eapply Hi].
  destruct m; unfold lnext in Hn; destruct (l_stop s); try done; try (by repeat case_match; simplify_eq).
  all: try (apply bind_Some in Hn as ([q e'] & _ & Hn); destruct e' as [| |?|[|] []]; cbn in Hn; by repeat case_match; simplify_eq).
  all: try (repeat case_match; try done; by apply bind_Some in Hn as ([? ?] & _ & ?); simplify_eq).
  all: unfold lgo in Hn; destruct (l_pc s) as [| |c|] eqn:Hp; try done;
    [destruct (l_running s); [by apply bind_Some in Hn as ([? ?] & _ & ?)|done]|].
  all: pose proof Hi as (_ & _ & Hw & _); rewrite (write_record c) in Hn by (by apply Hw); by simplify_eq.
Qed.

Lemma logger_started_inv k q : fresh_queue k q → linv (logger_started q) ∧ records (logger_started q) = []
  ∧ caller 0 (logger_started q) ≠ Some (SPending Pop) ∧ ∀ c, caller 0 (logger_started q) ≠ Some (SDone c).
Proof.
  intros [Hq [b Ha]]. unfold linv, records, caller. cbn. rewrite Ha. cbn.
  assert (∀ t c, replicate k SIdle !! t = Some c → c = @SIdle bytes) as Hc by (by intros t c [-> _]%lookup_replicate).
  split_and!; try done.
  - intros t c ->%Hc. by destruct t.
  - by intros H%Hc.
  - by intros c H%Hc.
Qed.

(** ** Nothing to log any more *)

(** The logger waits in [pop] for a record, and no thread is pushing one. *)
Definition quiet (s : logger) : Prop :=
  records s = [] ∧ l_pc s = LPop ∧ caller 0 s = Some (SPending Pop)
  ∧ ∀ t o, t ≠ 0%nat → caller t s ≠ Some (SPending o).

Lemma quiet_next s m s' e :
  linv s → quiet s → (∀ t text, m ≠ LLog t text) → lnext s m = Some (s', e) →
  quiet s' ∧ (l_stop s' = Stopped → l_stop s = Stopped).
Proof.
  intros Hi (Hr & Hp & H0 & Ht) Hm Hn.
  destruct m as [t text|m| | |]; [by destruct (Hm t text)| | | |]; unfold lnext in Hn.
  - assert (∃ q e', q_next (l_tq s) m = Some (q, e') ∧ logger_returns e' (set_tq q s) = Some (s', e))
      as (q & e' & Hnx & Hret)
      by (destruct (l_stop s); try done; apply bind_Some in Hn as ([q e'] & ? & ?); eauto).
    pose proof Hi as (Hq & _). pose proof (q_sim _ _ _ _ Hq Hnx) as Hs. unfold quiet, caller, records in *.
    remember (q_abs q) as a' eqn:Ha. revert Ha.
    inversion Hs as [s1|t o s1 Hc|t qe s1 Hc Hlt|t qe q1 s1 Hc Hqe|t r s1 Hc]; subst; intros Ha; cbn in Hret.
    + simplify_eq. cbn. by rewrite <-Ha.
    + done.
    + destruct (decide (t = 0%nat)) as [->|Hne]; [congruence|]. by destruct (Ht t (Push qe)).
    + congruence.
    + assert (t ≠ 0%nat) as Hne by (intros ->; congruence).
      assert (s' = set_tq q s) as -> by (destruct t, r; by simplify_eq).
      cbn. rewrite <-Ha. cbn. rewrite list_lookup_insert_ne by done. split_and!; try done.
      intros u o Hu. rewrite list_lookup_insert_Some. intros [(_ & ? & _)|[_ ?]]; [done|by apply (Ht u o)].
  - assert (lgo s = Some (s', e)) as Hg by (by destruct (l_stop s)). unfold lgo in Hg. by rewrite Hp in Hg.
  - destruct (l_stop s); simplify_eq; by split.
  - destruct (l_stop s); simplify_eq. by rewrite Hp in Hn.
Qed.

Lemma quiet_run s ms s' es :
  linv s → quiet s → (∀ t text, LLog t text ∉ ms) → lrun s ms = Some (s', es) →
  quiet s' ∧ (l_stop s' = Stopped → l_stop s = Stopped).
Proof.
  revert s es; induction ms as [|m ms IH]; intros s es Hi Hq Hm Hr; simpl in Hr; [by simplify_eq|].
  apply bind_Some in Hr as ([s1 e] & Hn & Hr). apply bind_Some in Hr as ([s2 es2] & Hr & ?). simplify_eq.
  assert (∀ t text, m ≠ LLog t text) as Hm1 by set_solver.
  destruct (quiet_next _ _ _ _ Hi Hq Hm1 Hn) as [Hq1 Hs1].
  destruct (lnext_inv _ _ _ _ Hi Hn) as (Hi1 & _). destruct (IH s1 es2) as [? ?]; [done|done|set_solver|done|].
  split; [done|]. auto.
Qed.

(** ** [set_async]

    Without [is_async], [debug] writes its line itself, and [stop] does not join
    the logger (which [init] may have started) before it deletes the queue;
    a move inside of the queue is a fault from then on. *)
Record alog := Al { a_async : bool; a_log : logger }.
Inductive amove :=
  | SetAsync (async : bool)
  | LogSync (text : bytes)
  | StopNoJoin
  | Core (m : lmove).
Inductive aevent := ACore (e : levent) | ASync (line : bytes) | ATau.

Definition set_async (async : bool) (s : alog) : alog := Al async (a_log s).

(** The moves that test [is_async] first. *)
Definition wants_async (m : lmove) : bool := match m with LLog _ _ | StopCall => true | _ => false end.

Definition a_next (s : alog) (m : amove) : option (outcome (alog * aevent)) :=
  let l := a_log s in
  match m with
  | SetAsync b => Some (Ok (set_async b s, ATau))
  | LogSync text =>
      match a_async s, debug 2 false (Some text) with
      | false, Ok (Some (LogWrite line)) => Some (Ok (s, ASync line))
      | _, _ => None
      end
  | StopNoJoin =>
      match a_async s, l_stop l with
      | false, NotCalled => Some (Ok (Al false (Lg false (l_pc l) (l_tq l) Stopped), ATau))
      | _, _ => None
      end
  | Core m =>
      if wants_async m && negb (a_async s) then None
      else match l_stop l, m with
           | Stopped, LGo => '(l, e) ← lgo l; Some (Ok (Al (a_async s) l, ACore e))
           | Stopped, LQueue m => _ ← q_next (l_tq l) m; Some (Err UseAfterFree)
           | _, _ => '(l, e) ← lnext l m; Some (Ok (Al (a_async s) l, ACore e))
           end
  end.

Definition arun := machine_run a_next.

Definition core (es : list aevent) : list levent :=
  omap (λ e, match e with ACore e => Some e | _ => None end) es.

(** A move of the core, or none. *)
Lemma a_next_inv s m s' e :
  linv (a_log s) → a_next s m = Some (Ok (s', e)) →
  linv (a_log s')
  ∧ taken (l_pc (a_log s)) (caller 0 (a_log s)) ++ popped (queue_events (core [e]))
    = wrote (core [e]) ++ taken (l_pc (a_log s')) (caller 0 (a_log s'))
  ∧ spec_steps (q_abs (l_tq (a_log s))) (queue_events (core [e])) (q_abs (l_tq (a_log s'))).
Proof.
  intros Hi Hn. destruct m as [b|text| |m]; unfold a_next in Hn.
  - simplify_eq. split_and!; [done|by rewrite app_nil_r|constructor].
  - assert (s' = s ∧ ∃ l, e = ASync l) as (-> & l & ->) by (repeat case_match; simplify_eq; eauto).
    split_and!; [done|by rewrite app_nil_r|constructor].
  - assert (a_log s' = Lg false (l_pc (a_log s)) (l_tq (a_log s)) Stopped ∧ e = ATau) as [-> ->]
      by (by repeat case_match; simplify_eq).
    split_and!; [done|by rewrite app_nil_r|constructor].
  - case_match; [done|].
    assert (∃ le, e = ACore le ∧ (lnext (a_log s) m = Some (a_log s', le) ∨ lgo (a_log s) = Some (a_log s', le)))
      as (le & -> & [Hl|Hl]).
    { assert (∀ r : option (logger * levent), ('(l, e) ← r; Some (Ok (Al (a_async s) l, ACore e))) = Some (Ok (s', e)) →
        ∃ le, e = ACore le ∧ r = Some (a_log s', le)) as Hb by (intros [[l le]|] ?; simplify_eq/=; eauto).
      destruct (l_stop (a_log s)); [apply Hb in Hn as (? & ? & ?); eauto..|].
      destruct m; try (apply Hb in Hn as (? & ? & ?); eauto).
      by apply bind_Some in Hn as (? & _ & ?). }
    + destruct (lnext_inv _ _ _ _ Hi Hl) as (? & ? & ?). done.
    + destruct (lgo_inv _ _ _ Hi Hl) as (? & ? & ?). done.
Qed.

Lemma arun_inv s ms s' es :
  linv (a_log s) → arun s ms = Some (Ok (s', es)) →
  taken (l_pc (a_log s)) (caller 0 (a_log s)) ++ popped (queue_events (core es))
    = wrote (core es) ++ taken (l_pc (a_log s')) (caller 0 (a_log s'))
  ∧ spec_steps (q_abs (l_tq (a_log s))) (queue_events (core es)) (q_abs (l_tq (a_log s'))).
Proof.
  intros Hi Hr%machine_run_reach.
  cut (linv (a_log s') ∧ taken (l_pc (a_log s)) (caller 0 (a_log s)) ++ popped (queue_events (core es))
    = wrote (core es) ++ taken (l_pc (a_log s')) (caller 0 (a_log s'))
    ∧ spec_steps (q_abs (l_tq (a_log s))) (queue_events (core es)) (q_abs (l_tq (a_log s')))); [by intros (_ & ?)|].
  induction Hr as [|ms s1 es m s2 e _ (H1 & H4 & H5) Hn]; [split_and!; [done|by rewrite app_nil_r|constructor]|].
  destruct (a_next_inv _ _ _ _ H1 Hn) as (Hi2 & H2 & H3).
  unfold core, queue_events, wrote, popped in *. rewrite !omap_app.
  split_and!; [done| |by eapply spec_steps_app]. by rewrite app_assoc, H4, <-app_assoc, H2, app_assoc.
Qed.

(** ** Properties *)

(** C33: the asynchronous log. Whatever the schedule, and also while [stop] is
    called, the records written are the records pushed, whole (256 bytes) and in
    the order of the pushes, up to the one in the logger's hand and those in
    the queue. *)
Theorem logger_in_order k q ms s es :
  fresh_queue k q → lrun (logger_started q) ms = Some (s, es) →
  pushed (queue_events es) = wrote es ++ taken (l_pc s) (caller 0 s) ++ records s
  ∧ Forall is_record (wrote es).
Proof.
  intros Hf Hr. destruct (logger_started_inv _ _ Hf) as (Hi & Hrec & _).
  destruct (lrun_inv _ _ _ _ Hi Hr) as (_ & Ho & Hs). split; [|by eapply lrun_records].
  apply spec_fifo in Hs. unfold records in *. rewrite Hrec in Hs. cbn in Hs, Ho. by rewrite Hs, Ho, <-app_assoc.
Qed.

(** [set_async] in the course of a run. Whatever is switched, written directly
    and stopped in between, the records that have been queued are still written
    once and in the order of their pushes. *)
Theorem set_async_keeps_queue_order k q b ms s es :
  fresh_queue k q → arun (Al b (logger_started q)) ms = Some (Ok (s, es)) →
  pushed (queue_events (core es))
  = wrote (core es) ++ taken (l_pc (a_log s)) (caller 0 (a_log s)) ++ records (a_log s).
Proof.
  intros Hf Hr. destruct (logger_started_inv _ _ Hf) as (Hi & Hrec & _).
  destruct (arun_inv (Al b (logger_started q)) _ _ _ Hi Hr) as (Ho & Hs).
  apply spec_fifo in Hs. unfold records in *. cbn in Hs, Ho. cbn in Hrec. rewrite Hrec in Hs. cbn in Hs.
  by rewrite Hs, Ho, <-app_assoc.
Qed.
End logger.

Lemma init_fresh n : fresh_queue n (@init bytes n).
Proof. split; [apply init_inv|]. exists 2000. cbn. unfold abs. cbn. by rewrite fmap_replicate. Qed.

(** Evaluate the next move, with [H] for a call that depends on a text. *)
Ltac lstep H :=
  eapply lrun_cons;
  [ unfold lnext, lgo; cbn [l_stop l_pc l_tq]; rewrite ?H;
    match goal with |- ?l = _ => let r := eval vm_compute in l in change l with r; reflexivity end
  | ].

(** The first text is logged and taken, the second one logged, [stop] called. *)
Definition stop_schedule (text1 text2 : bytes) : list lmove :=
  let go t := LQueue (Go t None) in
  [ LLog 1 text1; go 1%nat; go 1%nat; go 1%nat; LGo; go 0%nat; go 0%nat; go 0%nat;
    LLog 1 text2; go 1%nat; go 1%nat; go 1%nat; StopCall; LGo; LGo; StopJoin ].

(** C22: stopping the log. [stop] may lose records: it can return when the first
    of two texts has been written and the second is still in the queue that it
    deletes. And it may hang: once the logger waits in [pop] on an empty queue
    while no thread is pushing, [stop] does not return unless something else is
    logged. *)
Theorem stop_loses_or_hangs (text1 text2 : bytes) n :
  no_nul text1 → no_nul text2 → (length text1 ≤ 118)%nat → (length text2 ≤ 118)%nat →
  let record t := bs "DEBUG : " ++ t ++ [newline] ++ replicate (247 - length t) NUL in
  (∃ s es, lrun (logger_started (init 2)) (stop_schedule text1 text2) = Some (s, es)
     ∧ l_stop s = Stopped ∧ wrote es = [record text1] ∧ records s = [record text2])
  ∧ ∀ ms s es ms' s' es', lrun (logger_started (init n)) ms = Some (s, es) → quiet s → l_stop s ≠ Stopped →
      (∀ t text, LLog t text ∉ ms') → lrun s ms' = Some (s', es') → l_stop s' ≠ Stopped.
Proof.
  intros Hn1 Hn2 Hl1 Hl2 record. split.
  - assert (∀ t, no_nul t → (length t ≤ 118)%nat → debug 2 true (Some t) = Ok (Some (LogPush (record t)))) as Hd.
    { intros t Hn Hl. rewrite debug_rounds by (unfold int_max; lia). rewrite emit_short by done.
      unfold write_log, c_str. rewrite memcpy_ok, bind_ok, bind_ok.
      - do 3 f_equal. rewrite take_0, drop_0, take_app_length, drop_replicate. cbn [app]. unfold record.
        rewrite <-!app_assoc. do 4 f_equal. rewrite !length_app. unfold LOG_LEN.
        change (length (bs "DEBUG : ")) with 8%nat. simpl. lia.
      - rewrite length_replicate, !length_app. unfold LOG_LEN. change (length (bs "DEBUG : ")) with 8%nat. simpl. lia.
      - rewrite (length_app _ [NUL]). lia. }
    assert (∀ t, (length t ≤ 118)%nat → log_from_queue (record t) = Ok (LogWrite (record t))) as Hw.
    { intros t Hl. apply write_record. unfold is_record, record. rewrite !length_app, length_replicate.
      unfold LOG_LEN. change (length (bs "DEBUG : ")) with 8%nat. simpl. lia. }
    pose proof (Hd _ Hn1 Hl1) as Hd1. pose proof (Hd _ Hn2 Hl2) as Hd2. pose proof (Hw _ Hl1) as Hw1.
    clear Hd Hw. generalize dependent (record text1). generalize dependent (record text2).
    intros r2 Hd2 r1 Hd1 Hw1.
    do 2 eexists. split.
    { unfold stop_schedule, logger_started.
      lstep Hd1. do 7 lstep Hd1. lstep Hd2. do 4 lstep Hd1. lstep Hw1. do 2 lstep Hd1. reflexivity. }
    split_and!; vm_compute; reflexivity.
  - intros ms s es ms' s' es' Hr Hq Hst Hm Hr'.
    destruct (logger_started_inv _ _ (init_fresh n)) as (Hi & _). destruct (lrun_inv _ _ _ _ Hi Hr) as (Hi' & _).
    destruct (quiet_run s ms' s' es' Hi' Hq Hm Hr') as [_ H]. auto.
Qed.

(** A line is queued, the log is switched, a line is written, the logger comes
    after it. *)
Definition overtake_schedule : list amove :=
  [ Core (LLog 1 (bs "a")); Core (LQueue (Go 1 None)); Core (LQueue (Go 1 None)); Core (LQueue (Go 1 None));
    SetAsync false; LogSync (bs "b");
    Core LGo; Core (LQueue (Go 0 None)); Core (LQueue (Go 0 None)); Core (LQueue (Go 0 None)); Core LGo ].
(** The logger has asked for the queue's mutex when the queue is deleted. *)
Definition no_join_schedule : list amove := [ Core LGo; SetAsync false; StopNoJoin; Core (LQueue (Go 0 None)) ].

(** The lines that have been written, by the logger or directly. *)
Definition lines (es : list aevent) : list bytes :=
  omap (λ e, match e with ACore (Wrote d) => Some d | ASync l => Some l | _ => None end) es.

(** What [set_async(false)] breaks. A line that is logged after it can be in
    the file before a line that was logged first; and [stop], which joins the
    logger only if [is_async] is set, deletes the queue under a logger that is
    about to use it. *)
Theorem set_async_overtakes :
  (∃ s es, arun (Al true (logger_started (init 2))) overtake_schedule = Some (Ok (s, es))
     ∧ lines es = [bs "DEBUG : b" ++ [newline]; bs "DEBUG : a" ++ newline :: replicate 246 NUL])
  ∧ arun (Al true (logger_started (init 2))) no_join_schedule = Some (Err UseAfterFree).
Proof.
  split; [|by vm_compute].
  destruct (arun (Al true (logger_started (init 2))) overtake_schedule) as [[[s es]| |]|] eqn:Hr;
    try (by vm_compute in Hr).
  exists s, es. split; [done|]. vm_compute in Hr. injection Hr as _ <-. vm_compute. done.
Qed.

(** ** Witnesses *)

Lemma set_async_keeps_queue_order_witness :
  ∃ s es, arun (Al true (logger_started (init 2))) overtake_schedule = Some (Ok (s, es))
    ∧ pushed (queue_events (core es))
      = wrote (core es) ++ taken (l_pc (a_log s)) (caller 0 (a_log s)) ++ records (a_log s).
Proof.
  destruct (arun (Al true (logger_started (init 2))) overtake_schedule) as [[[s es]| |]|] eqn:Hr;
    [|vm_compute in Hr; discriminate..].
  exists s, es. split; [reflexivity|].
  apply (set_async_keeps_queue_order 2 (init 2) true overtake_schedule s es (init_fresh 2) Hr).
Defined.

Definition demo_log : @logger (@conf bytes) * list levent :=
  match lrun (logger_started (init 2)) (stop_schedule (bs "a") (bs "b")) with
  | Some r => r
  | None => (logger_started (init 2), [])
  end.

Lemma logger_in_order_witness :
  let '(s, es) := demo_log in
  length (wrote es) = 1%nat
  ∧ pushed (queue_events es) = wrote es ++ taken (l_pc s) (caller 0 s) ++ records s
  ∧ Forall is_record (wrote es).
Proof.
  destruct demo_log as [s es] eqn:E.
  assert (lrun (logger_started (init 2)) (stop_schedule (bs "a") (bs "b")) = Some (s, es)) as Hr
    by (rewrite <-E; vm_compute; reflexivity).
  split; [vm_compute in E; injection E as _ <-; reflexivity|].
  exact (logger_in_order 2 (init 2) (stop_schedule (bs "a") (bs "b")) s es (init_fresh 2) Hr).
Defined.

(** The logger goes to sleep, and [stop] is called. *)
Definition hang_schedule : list lmove :=
  [ LGo; LQueue (Go 0 None); LQueue (Go 0 None); StopCall ].

Lemma stop_loses_or_hangs_witness :
  (∃ s es, lrun (logger_started (init 2)) (stop_schedule (bs "a") (bs "b")) = Some (s, es)
     ∧ l_stop s = Stopped ∧ length (records s) = 1%nat)
  ∧ ∃ s es, lrun (logger_started (init 2)) hang_schedule = Some (s, es) ∧ l_stop s = Joining
      ∧ ∀ ms' s' es', (∀ t text, LLog t text ∉ ms') → lrun s ms' = Some (s', es') → l_stop s' ≠ Stopped.
Proof.
  destruct (stop_loses_or_hangs (bs "a") (bs "b") 2) as [(s & es & H1 & H2 & H3 & H4) H];
    [no_nul|no_nul|simpl; lia|simpl; lia|].
  split.
  - exists s, es. split; [exact H1|split; [exact H2|]]. rewrite H4. reflexivity.
  - destruct (lrun (logger_started (init 2)) hang_schedule) as [[s1 es1]|] eqn:Hr; [|vm_compute in Hr; discriminate].
    exists s1, es1. split; [reflexivity|].
    assert (l_stop s1 = Joining ∧ quiet s1) as [Hs Hq].
    { vm_compute in Hr. injection Hr as <- _. split; [reflexivity|].
      split_and!; try reflexivity. intros [|[|t]] o Ht Hc; [by destruct Ht|discriminate Hc|discriminate Hc]. }
    split; [exact Hs|]. intros ms' s' es' Hm Hr'.
    apply (H hang_schedule s1 es1 ms' s' es' Hr Hq); [rewrite Hs; discriminate|exact Hm|exact Hr'].
Defined.
