(* ===== verification/LogDrain.v ===== *)
(** * The asynchronous logger comes to rest

    The logger of AsyncLog.v on the queue of job_queue.cpp itself, not on its
    contract: a logged text costs a bounded number of moves, and a program that
    is left alone, without [stop], ends with everything written. *)

From S2P Require Import Prelude Log JobQueue QueueDrain AsyncLog.
Open Scope Z_scope.

Implicit Types s : @logger (@conf bytes).

(** ** The moves of the logger *)

(** What the logger does outside of the queue: its test, a call of [pop] and a
    [write] for every record. *)
Definition logger_cost (p : lpc) : nat :=
  match p with LTest => 6 | LPop => 0 | LWrite _ => 7 | LExit => 0 end.
Definition total (s : @logger (@conf bytes)) : nat := costs 7 (l_tq s) + logger_cost (l_pc s).

Definition lcredit (m : lmove) : nat :=
  match m with LLog _ _ => 13 | LQueue (Spurious _) => 3 | StopCall | StopJoin => 1 | _ => 0 end.
Definition lcredits (ms : list lmove) : nat := sum_list_with lcredit ms.

(** A move in the queue, as the logger sees it. *)
Lemma logger_returns_pc s e s' ev :
  logger_returns e s = Some (s', ev) →
  l_tq s' = l_tq s ∧ l_running s' = l_running s ∧ l_stop s' = l_stop s ∧ ev = LQ e
  ∧ (l_pc s' = l_pc s ∨ ∃ c, e = ERet 0 (Some c) ∧ l_pc s = LPop ∧ l_pc s' = LWrite c).
Proof.
  destruct e as [| | |[|t] [c|]]; cbn; intros; simplify_eq; try by split_and!; [..|left].
  destruct (l_pc s) eqn:Hp; simplify_eq. split_and!; try done. right. by exists c.
Qed.

(** The return of an element is paid for by its [pop]. *)
Lemma return_costs c m c' t (x : bytes) :
  next c m = Some (c', ERet t (Some x)) → (costs 7 c' + 8 ≤ costs 7 c + credit 7 m)%nat.
Proof.
  destruct c as [own s ts], m as [u o|u w|u]; cbn; intros Hn;
    destruct (ts !! u) as [[|o'|o'|o'|r]|] eqn:Hu; simplify_eq.
  - destruct own; simplify_eq.
  - destruct (blocked o' s); simplify_eq. destruct (exec o' s) as [[[r s'] sig]| |]; [|discriminate..].
    by destruct (wake sig o' w ts); simplify_eq/=.
  - unfold costs. pose proof (costs_set 7 _ _ _ Idle Hu). cbn [cost threads tq] in *. lia.
Qed.

Lemma lnext_total s m s' e : lnext s m = Some (s', e) → (total s' + 1 ≤ total s + lcredit m)%nat.
Proof.
  unfold total. intros Hn. assert (l_stop s ≠ Stopped) as Hst by (intros Hst; unfold lnext in Hn; by rewrite Hst in Hn).
  destruct m as [t text|m| | |]; unfold lnext in Hn.
  - assert (∃ c q ev, next (l_tq s) (Call t (Push c)) = Some (q, ev) ∧ s' = set_tq q s) as (c & q & ev & Hq & ->).
    { destruct (l_stop s); [| |done]; destruct t as [|t]; try done;
        destruct (debug 2 true (Some text)) as [[[|c]|]| |]; try done;
        apply bind_Some in Hn as ([q ev] & Hq & [= <- _]); by exists c, q, ev. }
    pose proof (next_costs 7 _ _ _ _ Hq). cbn in *. lia.
  - assert (∃ q ev, next (l_tq s) m = Some (q, ev) ∧ logger_returns ev (set_tq q s) = Some (s', e)) as (q & ev & Hq & Hr)
      by (destruct (l_stop s); try done; apply bind_Some in Hn as ([q ev] & Hq & ?); by exists q, ev).
    assert (credit 7 m ≤ lcredit (LQueue m))%nat as Hc.
    { destruct m as [t o| |]; cbn; try lia. apply next_call in Hq as ->. done. }
    destruct (logger_returns_pc _ _ _ _ Hr) as (-> & _ & _ & _ & [Hp|(c & -> & Hp & Hp')]).
    + rewrite Hp. pose proof (next_costs 7 _ _ _ _ Hq). cbn [l_tq l_pc set_tq] in *. lia.
    + rewrite Hp'. cbn [l_tq l_pc set_tq] in *. rewrite Hp. pose proof (return_costs _ _ _ _ _ Hq). cbn [logger_cost]. lia.
  - assert (lgo s = Some (s', e)) as Hg by (by destruct (l_stop s)). unfold lgo in Hg.
    destruct (l_pc s) as [| |c|]; try done.
    + destruct (l_running s); [|simplify_eq; cbn; lia]. apply bind_Some in Hg as ([q ev] & Hq & [= <- _]).
      pose proof (next_costs 7 _ _ _ _ Hq). cbn in *. lia.
    + destruct (log_from_queue c) as [[]| |]; simplify_eq. cbn. lia.
  - destruct (l_stop s); simplify_eq; cbn; lia.
  - destruct (l_stop s); simplify_eq. destruct (l_pc s); simplify_eq. cbn. lia.
Qed.

Lemma lrun_total s ms s' es : lrun s ms = Some (s', es) → (total s' + length ms ≤ total s + lcredits ms)%nat.
Proof.
  revert s es; induction ms as [|m ms IH]; intros s es Hr; simpl in Hr; [simplify_eq; cbn; lia|].
  apply bind_Some in Hr as ([s1 e] & Hn & Hr). apply bind_Some in Hr as ([s2 es2] & Hr & ?). simplify_eq.
  pose proof (lnext_total _ _ _ _ Hn). pose proof (IH s1 es2 Hr). unfold lcredits in *. cbn. lia.
Qed.

(** ** The queue of a running logger *)

(** A move of the logger is a move of the queue, or none. *)
Lemma lnext_queue s m s' e :
  lnext s m = Some (s', e) →
  (l_tq s' = l_tq s ∧ queue_events [e] = [])
  ∨ ∃ qm ev, next (l_tq s) qm = Some (l_tq s', ev) ∧ queue_events [e] = [ev] ∧ ∀ t, qm = Call t Pop → t = 0%nat.
Proof.
  intros Hn. assert (l_stop s ≠ Stopped) as Hst by (intros Hst; unfold lnext in Hn; by rewrite Hst in Hn).
  destruct m as [t text|m| | |]; unfold lnext in Hn.
  - right. destruct (l_stop s); [| |done]; destruct t as [|t]; try done;
      destruct (debug 2 true (Some text)) as [[[|c]|]| |]; try done;
      apply bind_Some in Hn as ([q ev] & Hq & [= <- <-]); by exists (Call (S t) (Push c)), ev.
  - right. assert (∃ q ev, next (l_tq s) m = Some (q, ev) ∧ logger_returns ev (set_tq q s) = Some (s', e)) as (q & ev & Hq & Hr)
      by (destruct (l_stop s); try done; apply bind_Some in Hn as ([q ev] & Hq & ?); by exists q, ev).
    destruct (logger_returns_pc _ _ _ _ Hr) as (-> & _ & _ & -> & _). exists m, ev. split_and!; [done..|].
    intros t ->. apply next_call in Hq as ->. done.
  - assert (lgo s = Some (s', e)) as Hg by (by destruct (l_stop s)). unfold lgo in Hg.
    destruct (l_pc s) as [| |c|]; try done.
    + destruct (l_running s); [|simplify_eq; by left]. apply bind_Some in Hg as ([q ev] & Hq & [= <- <-]).
      right. exists (Call 0 Pop), ev. by split_and!; [..|intros t [=]].
    + left. by destruct (log_from_queue c) as [[]| |]; simplify_eq.
  - left. by destruct (l_stop s); simplify_eq.
  - left. destruct (l_stop s); simplify_eq. by destruct (l_pc s); simplify_eq.
Qed.

Lemma lrun_queue s ms s' es :
  lrun s ms = Some (s', es) →
  ∃ qms, run (l_tq s) qms = Some (l_tq s', queue_events es) ∧ ∀ t, Call t Pop ∈ qms → t = 0%nat.
Proof.
  revert s es; induction ms as [|m ms IH]; intros s es Hr; simpl in Hr.
  { simplify_eq. exists []. split; [done|]. by intros t ?%not_elem_of_nil. }
  apply bind_Some in Hr as ([s1 e] & Hn & Hr). apply bind_Some in Hr as ([s2 es2] & Hr & ?). simplify_eq.
  destruct (IH _ _ Hr) as (qms & Hq & Hk). change (e :: es2) with ([e] ++ es2).
  unfold queue_events in *. rewrite omap_app.
  destruct (lnext_queue _ _ _ _ Hn) as [[<- He]|(qm & ev & Hm & He & Ht)]; unfold queue_events in He; rewrite He.
  - by exists qms.
  - exists (qm :: qms). split; [simpl; by rewrite Hm; simpl; rewrite Hq|].
    intros t [Hc|Hc]%elem_of_cons; [by eapply Ht|by eapply Hk].
Qed.

(** A logger that has not been told to stop is not at its end. *)
Definition going (s : @logger (@conf bytes)) : Prop := l_running s = true → l_stop s = NotCalled ∧ l_pc s ≠ LExit.

Lemma lrun_going s ms s' es : going s → lrun s ms = Some (s', es) → going s'.
Proof.
  revert s es; induction ms as [|m ms IH]; intros s es Hg Hr; simpl in Hr; [by simplify_eq|].
  apply bind_Some in Hr as ([s1 e] & Hn & Hr). apply bind_Some in Hr as ([s2 es2] & Hr & ?). simplify_eq.
  eapply IH; [|done]. intros Hrun. assert (l_stop s ≠ Stopped) as Hst by (intros Hst; unfold lnext in Hn; by rewrite Hst in Hn).
  destruct m as [t text|m| | |]; unfold lnext in Hn.
  - assert (l_running s1 = l_running s ∧ l_stop s1 = l_stop s ∧ l_pc s1 = l_pc s) as (H1 & -> & ->); [|apply Hg; congruence].
    destruct (l_stop s) eqn:Hs; [| |done]; destruct t as [|t]; try done;
      destruct (debug 2 true (Some text)) as [[[|c]|]| |]; try done;
      apply bind_Some in Hn as ([q ev] & Hq & [= <- _]); by split_and!.
  - assert (∃ q ev, logger_returns ev (set_tq q s) = Some (s1, e)) as (q & ev & Hret)
      by (destruct (l_stop s); try done; apply bind_Some in Hn as ([q ev] & Hq & ?); by exists q, ev).
    destruct (logger_returns_pc _ _ _ _ Hret) as (_ & H1 & -> & _ & [->|(c & _ & _ & ->)]); cbn in *;
      (destruct Hg as [? ?]; [congruence|by split]).
  - assert (lgo s = Some (s1, e)) as Hgo by (by destruct (l_stop s)). unfold lgo in Hgo.
    destruct (l_pc s) as [| |c|] eqn:Hp; try done.
    + destruct (l_running s) eqn:Hrs; [|simplify_eq; cbn in Hrun; congruence]. apply bind_Some in Hgo as ([q ev] & _ & [= <- _]).
      destruct (Hg Hrs). by split.
    + destruct (log_from_queue c) as [[]| |]; simplify_eq. destruct (Hg Hrun). by split.
  - by destruct (l_stop s); simplify_eq.
  - destruct (l_stop s) eqn:Hs; simplify_eq. destruct (l_pc s); simplify_eq. cbn in *. destruct (Hg Hrun). congruence.
Qed.

(** ** At rest *)

(** Neither the logger nor a thread in the queue can go on by itself. *)
Definition at_rest (s : @logger (@conf bytes)) : Prop :=
  lnext s LGo = None ∧ ∀ t w, lnext s (LQueue (Go t w)) = None.

(** Every move of the queue has its place in the logger. *)
Lemma queue_go_returns s t w q e :
  linv s → next (l_tq s) (Go t w) = Some (q, e) → is_Some (logger_returns e (set_tq q s)).
Proof.
  intros Hi Hn. pose proof Hi as (Hq & _ & _ & Hc). pose proof (next_sim _ _ _ _ Hq Hn) as Hs.
  assert (∀ u o, e ≠ ECall u o) as He.
  { intros u o ->. destruct (l_tq s) as [own tq ts]. cbn in Hn. destruct (ts !! t) as [[|o'|o'|o'|r]|]; simplify_eq.
    - by destruct own.
    - destruct (blocked o' tq); [done|]. destruct (exec o' tq) as [[[r s'] sig]| |]; try done.
      by destruct (wake sig o' w ts). }
  inversion Hs as [s1|u o s1 Ht|u qe s1 Ht Hlt|u qe q1 s1 Ht Hqe|u r s1 Ht]; subst; cbn; try by eauto.
  { by destruct (He u o). }
  pose proof (Hc u _ Ht) as Hok. destruct u as [|u], r as [c|]; cbn in Hok |- *; try done.
  destruct Hok as [-> _]. by eauto.
Qed.

Lemma rest_queue s : linv s → l_stop s = NotCalled → at_rest s → resting (l_tq s).
Proof.
  intros Hi Hst [_ Hq] t w. specialize (Hq t w). destruct (next (l_tq s) (Go t w)) as [[q e]|] eqn:Hn; [|done].
  destruct (queue_go_returns s t w q e Hi Hn) as [r Hr]. unfold lnext in Hq. rewrite Hst in Hq.
  change (q_next (l_tq s) (Go t w)) with (next (l_tq s) (Go t w)) in Hq. rewrite Hn in Hq. cbn in Hq. by rewrite Hr in Hq.
Qed.

(** The logger waits in [pop]. *)
Lemma rest_pc s :
  linv s → going s → l_running s = true → at_rest s → (0 < length (threads (l_tq s)))%nat → l_pc s = LPop.
Proof.
  intros Hi Hg Hrun [Hl _] Hn. pose proof Hi as (Hq & _ & Hw & Hc). destruct (Hg Hrun) as [Hst Hne].
  unfold lnext, lgo in Hl. rewrite Hst in Hl. destruct (l_pc s) as [| |c|] eqn:Hp; [|done| |done].
  - rewrite Hrun in Hl. destruct (lookup_lt_is_Some_2 (threads (l_tq s)) 0 Hn) as [p Hp0].
    pose proof (Hc 0%nat (abs_pc p) (abs_lookup _ _ _ Hp0)) as Hok.
    destruct p as [|[]|[]|[]|[]]; cbn in Hok; try done; [|by destruct Hok].
    cbn in Hl. by rewrite Hp0 in Hl.
  - by rewrite (write_record c (Hw c eq_refl)) in Hl.
Qed.

Lemma run_length c ms c' (es : list (@event bytes)) : run c ms = Some (c', es) → length (threads c') = length (threads c).
Proof.
  revert c es; induction ms as [|m ms IH]; intros c es Hr; simpl in Hr; [by simplify_eq|].
  apply bind_Some in Hr as ([c1 e] & Hn & Hr). apply bind_Some in Hr as ([c2 es2] & Hr & ?). simplify_eq.
  rewrite (IH _ _ Hr). by eapply next_length.
Qed.

(** ** Property *)

(** C34: the asynchronous log, left alone. On the queue of job_queue.cpp, the
    logger and all threads that log make boundedly many moves: at most thirteen
    for a text, three for a spurious wake-up, six at the start and one for each
    step of [stop]. Once nobody can go on by himself, and [stop] has not been
    called, the logger waits in [pop] and everything that was pushed is written,
    in that order; if fewer than 2000 texts have been logged, that is every
    text for which [debug] was called. *)
Theorem logger_drains n ms s es :
  (0 < n)%nat → lrun (logger_started (init n)) ms = Some (s, es) →
  (length ms ≤ 6 + lcredits ms)%nat
  ∧ (l_running s = true → at_rest s →
     l_pc s = LPop ∧ wrote es = pushed (queue_events es)
     ∧ ((length (called (queue_events es)) < 2000)%nat → wrote es ≡ₚ called (queue_events es))).
Proof.
  intros Hn Hr. split.
  { pose proof (lrun_total _ _ _ _ Hr) as H. unfold total in H. cbn [logger_started l_tq l_pc] in H.
    rewrite init_costs in H. cbn in H. lia. }
  intros Hrun Hrest. destruct (logger_started_inv _ _ (init_fresh n)) as (Hi0 & _ & _).
  destruct (lrun_inv _ _ _ _ Hi0 Hr) as (Hi & Ho & _). cbn in Ho.
  assert (going s) as Hg by (eapply lrun_going; [|exact Hr]; done).
  destruct (lrun_queue _ _ _ _ Hr) as (qms & Hq & Hk). cbn [logger_started l_tq] in Hq.
  assert (length (threads (l_tq s)) = n) as Hlen by (rewrite (run_length _ _ _ _ Hq); apply length_replicate).
  pose proof (rest_pc s Hi Hg Hrun Hrest ltac:(lia)) as Hp. destruct (Hg Hrun) as [Hst _].
  destruct (lookup_lt_is_Some_2 (threads (l_tq s)) 0 ltac:(lia)) as [p Hp0].
  assert (delivered 0 (l_tq s) (queue_events es)) as (Hsl & _ & Hpop & Hall).
  { eapply resting_delivered; [done|done|by apply rest_queue|]. exists p. split; [done|].
    pose proof (proj2 (proj2 (proj2 Hi)) 0%nat _ (abs_lookup _ _ _ Hp0)) as Hok. rewrite Hp in Hok.
    split; [by intros ->|]. by intros qe ->. }
  assert (caller 0 s = Some (SPending Pop)) as Hc by (exact (abs_lookup _ _ _ Hsl)).
  rewrite Hp, Hc in Ho. cbn in Ho. rewrite app_nil_r in Ho.
  split_and!; [done|by rewrite <-Ho|]. intros Hl. rewrite <-Ho. by apply Hall.
Qed.

(** ** Witness *)

(** Thread 1 logs a line, the logger writes it and waits for the next one. *)
Definition one_line : list lmove :=
  [ LLog 1 (bs "a"); LQueue (Go 1 None); LQueue (Go 1 None); LQueue (Go 1 None);
    LGo; LQueue (Go 0 None); LQueue (Go 0 None); LQueue (Go 0 None); LGo;
    LGo; LQueue (Go 0 None); LQueue (Go 0 None) ].

Lemma logger_drains_witness :
  ∃ s es, lrun (logger_started (init 2)) one_line = Some (s, es) ∧ l_pc s = LPop
    ∧ wrote es = [bs "DEBUG : a" ++ newline :: replicate 246 NUL]
    ∧ wrote es ≡ₚ called (queue_events es).
Proof.
  destruct (lrun (logger_started (init 2)) one_line) as [[s es]|] eqn:Hr; [|vm_compute in Hr; discriminate].
  exists s, es. destruct (logger_drains 2 one_line s es) as [_ Hd]; [lia|exact Hr|].
  assert (at_rest s ∧ l_running s = true) as [Hrest Hrun].
  { vm_compute in Hr. injection Hr as <- <-. split; [split; [reflexivity|]|reflexivity].
    intros [|[|t]] w; reflexivity. }
  destruct (Hd Hrun Hrest) as (Hp & _ & Hall). vm_compute in Hr. injection Hr as <- <-.
  split_and!; [reflexivity|exact Hp|vm_compute; reflexivity|apply Hall; cbn; lia].
Defined.
