(* ===== verification/Receiver.v ===== *)
(** * Messages between stages: IElement.h, receiver.h, receiver.cpp, sender.h,
    sender.cpp

    [IElement] is a buffer of 256 bytes with a length.  [receiver::run] turns
    every message of its ZeroMQ socket into an element and pushes it on a queue
    that [fetchOne] reads; [sender::sendMsg] hands an element to ZeroMQ.  The
    results of the ZeroMQ calls are arguments.  The queue has one producer and
    one consumer; unlike [mutex_task_queue::push], the producer signals after
    it has unlocked the mutex. *)

From S2P Require Import Prelude Log WorkerPool.
Open Scope Z_scope.

(** ** [IElement] *)

Record IElement := Ie { element : bytes; _len : cell Z }.

(** [strncpy(dst, src, n)]: the bytes of [src] up to a NUL, padded with NULs,
    [n] bytes in all. *)
Definition strncpy (dst src : bytes) (n : Z) : outcome bytes :=
  let n := Z.to_nat (size_t n) in
  if decide (length dst < n)%nat then Err OutOfBounds
  else match to_nul (take n src) with
       | Some s => Ok (s ++ replicate (n - length s) NUL ++ drop n dst)
       | None => if decide (length src < n)%nat then Err OutOfBounds
                 else Ok (take n src ++ drop n dst)
       end.

Definition IElement_new : IElement := Ie (replicate 256 NUL) Indeterminate.

(** A negative or huge [len] is out of bounds before the model needs its value. *)
Definition IElement_of (ele : bytes) (len : Z) : outcome IElement :=
  if decide (256 < size_t len) then Err OutOfBounds
  else e ← strncpy (replicate 256 NUL) ele len; Ok (Ie e (Val len)).

Definition ie_length (ie : IElement) : outcome Z := read_cell (_len ie).

(** The text that the handlers, and [%s] in the log lines, read. *)
Definition ie_text (ie : IElement) : outcome bytes := cstr (element ie) 0.

Lemma strncpy_text (s t dst : bytes) (n : nat) :
  no_nul s → (length s < n)%nat → (n ≤ length dst)%nat → Z.of_nat n < 2 ^ 64 →
  strncpy dst (s ++ NUL :: t) (Z.of_nat n) = Ok (s ++ replicate (n - length s) NUL ++ drop n dst).
Proof.
  intros Hs Hn Hd Hb. unfold strncpy, size_t. rewrite Z.mod_small, Nat2Z.id by lia.
  rewrite decide_False by lia.
  replace (take n (s ++ NUL :: t)) with (s ++ NUL :: take (n - length s - 1) t).
  - by rewrite to_nul_app.
  - rewrite take_app_ge by lia. replace (n - length s)%nat with (S (n - length s - 1)) by lia.
    simpl. do 3 f_equal. lia.
Qed.

(** ** [receiver::run], one round *)

(** [nrecv] and [buf] are what [zmq_recv(subscriber, buf, 256, 0)] leaves;
    [None] stands for a failed receive, which is retried. *)
Definition receive (nrecv : Z) (buf : bytes) : outcome (option IElement) :=
  if nrecv =? -1 then Ok None
  else
    let len := if 256 <=? nrecv then 255 else nrecv in
    buf ← put buf 255 NUL;
    ie ← IElement_of buf (len + 1);
    Ok (Some ie).

(** ** [sender::sendMsg] *)

(** [ret], [eagain] and [err] are the result of [zmq_send], whether [zmq_errno]
    is [EAGAIN] then, and [strerror(errno)]; the bytes are those handed to
    [zmq_send]. *)
Definition sendMsg (ret : Z) (eagain : bool) (err : bytes) (ie : IElement) : outcome (bytes * bool) :=
  text ← ie_text ie;
  n ← ie_length ie;
  _ ← log_debug (bs "sender : [sendMsg] ie : " ++ text ++ bs ", " ++ dec n);
  if decide (256 < size_t n) then Err OutOfBounds
  else
    let data := take (Z.to_nat n) (element ie) in
    if negb (ret =? 0) && eagain then
      _ ← log_debug (bs "sender : [sendMsg] the message cannot be sent at the moment");
      Ok (data, false)
    else
      _ ← log_debug (bs "sender : [sendMsg] " ++ (if ret =? 0 then bs "success" else bs "fail") ++ bs ", "
                     ++ (if ret =? 0 then [] else err));
      Ok (data, true).

(** The text of [strerror]: the messages of the C library are short. *)
Definition err_ok (err : bytes) : Prop := no_nul err ∧ (length err ≤ 80)%nat.

(** ** [fetchOne] after the queue *)

(** receiver.cpp:75: the log line that reads the element that is returned. *)
Definition fetchOne_return (ie : IElement) : outcome IElement :=
  text ← ie_text ie;
  _ ← log_debug (bs "receiver : [fetchOne] fetchOne success. " ++ text);
  Ok ie.

(** ** Elements *)

(** What [zmq_recv] leaves in a zeroed buffer of 256 bytes for a message. *)
Definition recv_buffer (m : bytes) : bytes := take 256 m ++ replicate (256 - length m) NUL.

(** An element takes the bytes up to the first NUL, and the length of the
    message. *)
Lemma receive_text s t nrecv buf :
  no_nul s → (length s ≤ 255)%nat → 0 ≤ nrecv < 2 ^ 31 → length buf = 256%nat →
  (length s ≤ Z.to_nat nrecv)%nat → <[255%nat := NUL]> buf = s ++ NUL :: t →
  receive nrecv buf = Ok (Some (Ie (s ++ replicate (256 - length s) NUL) (Val (Z.min nrecv 255 + 1)))).
Proof.
  intros Hs Hl Hn Hb Hln Hbuf. unfold receive. destruct (Z.eqb_spec nrecv (-1)); [lia|].
  rewrite put_ok, bind_ok, Hbuf by lia. set (len := if 256 <=? nrecv then 255 else nrecv).
  assert (len = Z.min nrecv 255) as Hlen by (unfold len; destruct (Z.leb_spec 256 nrecv); lia).
  unfold IElement_of. rewrite decide_False by (unfold size_t; rewrite Z.mod_small; lia).
  replace (len + 1) with (Z.of_nat (Z.to_nat (len + 1))) at 1 by lia.
  rewrite strncpy_text by (rewrite ?length_replicate; (done || lia)). rewrite bind_ok, bind_ok, Hlen.
  do 4 f_equal. rewrite drop_replicate, <-replicate_add. f_equal. lia.
Qed.

Lemma ie_text_padded s n len :
  no_nul s → (length s < n)%nat → ie_text (Ie (s ++ replicate (n - length s) NUL) len) = Ok s.
Proof.
  intros Hs Hl. unfold ie_text. cbn. replace (n - length s)%nat with (S (n - length s - 1)) by lia.
  unfold cstr. cbn [replicate]. rewrite drop_0. by rewrite to_nul_app.
Qed.

Lemma receive_element m :
  no_nul m → Z.of_nat (length m) < 2 ^ 31 →
  let text := take 255 m in
  ∃ ie, receive (Z.of_nat (length m)) (recv_buffer m) = Ok (Some ie)
    ∧ element ie = text ++ replicate (256 - length text) NUL
    ∧ ie_text ie = Ok text ∧ ie_length ie = Ok (Z.of_nat (length text) + 1).
Proof.
  intros Hm Hl text.
  assert (length (recv_buffer m) = 256%nat) as Hlb
    by (unfold recv_buffer; rewrite length_app, length_take, length_replicate; lia).
  assert (length text = 255 `min` length m)%nat as Hlt by (unfold text; by rewrite length_take).
  assert (no_nul text) as Hnt.
  { unfold no_nul in *. intros H. apply Hm. unfold text in H. by eapply subseteq_take. }
  assert (<[255%nat := NUL]> (recv_buffer m) = text ++ NUL :: replicate (255 - length text) NUL) as Hbuf.
  { unfold recv_buffer, text. destruct (decide (length m ≤ 255)%nat) as [Hle|Hgt].
    - rewrite !take_ge by lia. rewrite list_insert_id.
      + by replace (256 - length m)%nat with (S (255 - length m)) by lia.
      + rewrite lookup_app_r by lia. apply lookup_replicate. split; [done|lia].
    - destruct (lookup_lt_is_Some_2 m 255) as [c Hc]; [lia|].
      rewrite (take_S_r _ _ _ Hc). replace (256 - length m)%nat with 0%nat by lia. cbn [replicate].
      rewrite app_nil_r, insert_app_r_alt by (rewrite length_take; lia).
      rewrite length_take, Nat.min_l by lia. by rewrite !Nat.sub_diag. }
  eexists. split; [apply (receive_text text _ _ _ Hnt) with (5 := Hbuf); lia|].
  split_and!; [done|apply ie_text_padded; [done|lia]|].
  cbn. do 2 f_equal. lia.
Qed.

(** The element that [handlerFunc] makes of a text, and what is sent of it. *)
Definition text_element (s : bytes) : IElement :=
  Ie (s ++ replicate (256 - length s) NUL) (Val (Z.of_nat (length s))).

Lemma IElement_of_text s :
  no_nul s → (length s ≤ 256)%nat → IElement_of (c_str s) (Z.of_nat (length s)) = Ok (text_element s).
Proof.
  intros Hs Hl. unfold IElement_of, text_element.
  rewrite decide_False by (unfold size_t; rewrite Z.mod_small; lia).
  unfold strncpy, size_t. rewrite Z.mod_small, Nat2Z.id by lia.
  rewrite decide_False by (rewrite length_replicate; lia). unfold c_str.
  rewrite take_app_length. rewrite (no_nul_to_nul s) by done.
  rewrite decide_False by (rewrite length_app; simpl; lia).
  by rewrite bind_ok, drop_replicate.
Qed.

Lemma IElement_of_long s : (256 < length s)%nat → Z.of_nat (length s) < 2 ^ 64 →
  IElement_of (c_str s) (Z.of_nat (length s)) = Err OutOfBounds.
Proof. intros. unfold IElement_of, size_t. by rewrite decide_True by (rewrite Z.mod_small; lia). Qed.

(** The log lines of [sendMsg] about its result. *)
Lemma sendMsg_result_logs (ret : Z) (eagain : bool) err (data : bytes) :
  err_ok err →
  (if negb (ret =? 0) && eagain then
     _ ← log_debug (bs "sender : [sendMsg] the message cannot be sent at the moment");
     Ok (data, false)
   else
     _ ← log_debug (bs "sender : [sendMsg] " ++ (if ret =? 0 then bs "success" else bs "fail") ++ bs ", "
                    ++ (if ret =? 0 then [] else err));
     Ok (data, true)) = Ok (data, negb (negb (ret =? 0) && eagain)).
Proof.
  intros [He Hl]. destruct (ret =? 0), eagain; cbn [negb andb];
    rewrite log_debug_short; try done; repeat apply no_nul_app; try done;
    first [no_nul | rewrite ?length_app; simpl; lia].
Qed.

(** What [sendMsg] does with an element whose length is that of its text or
    one more: its first log line has room for 90 bytes of text. *)
Lemma sendMsg_ok ie text n ret eagain err :
  err_ok err → ie_text ie = Ok text → ie_length ie = Ok n → 0 ≤ n ≤ 256 → no_nul text →
  (length text ≤ 89)%nat →
  sendMsg ret eagain err ie = Ok (take (Z.to_nat n) (element ie), negb (negb (ret =? 0) && eagain)).
Proof.
  intros He Ht Hn Hb Hno Hl. unfold sendMsg. rewrite Ht, bind_ok, Hn, bind_ok.
  destruct (dec_small n) as [Hd1 Hd2]; [lia|].
  rewrite (log_debug_short (bs "sender : [sendMsg] ie : " ++ _)), bind_ok.
  - rewrite decide_False by (unfold size_t; rewrite Z.mod_small; lia). by apply sendMsg_result_logs.
  - no_nul.
  - rewrite !length_app. change (length (bs "sender : [sendMsg] ie : ")) with 24%nat.
    change (length (bs ", ")) with 2%nat. lia.
Qed.

Lemma sendMsg_long ie text n ret eagain err :
  ie_text ie = Ok text → ie_length ie = Ok n → 0 ≤ n ≤ 256 → no_nul text →
  (92 ≤ length text)%nat → Z.of_nat (length text) ≤ 256 → sendMsg ret eagain err ie = Err OutOfBounds.
Proof.
  intros Ht Hn Hb Hno Hl Hl2. unfold sendMsg. rewrite Ht, bind_ok, Hn, bind_ok.
  destruct (dec_small n) as [Hd1 Hd2]; [lia|].
  rewrite (log_debug_long (bs "sender : [sendMsg] ie : " ++ _)); [done|..].
  - no_nul.
  - rewrite !length_app. change (length (bs "sender : [sendMsg] ie : ")) with 24%nat.
    change (length (bs ", ")) with 2%nat. lia.
  - rewrite !length_app. change (length (bs "sender : [sendMsg] ie : ")) with 24%nat.
    change (length (bs ", ")) with 2%nat. unfold int_max. lia.
Qed.

Lemma fetchOne_return_text ie text :
  ie_text ie = Ok text → no_nul text → (length text ≤ 256)%nat →
  fetchOne_return ie = if decide (length text ≤ 78)%nat then Ok ie else Err OutOfBounds.
Proof.
  intros Ht Hno Hl. unfold fetchOne_return. rewrite Ht, bind_ok.
  assert (no_nul (bs "receiver : [fetchOne] fetchOne success. " ++ text)) as Hn
    by no_nul.
  assert (length (bs "receiver : [fetchOne] fetchOne success. " ++ text) = 40 + length text)%nat as Hlen
    by (by rewrite length_app).
  case_decide.
  - by rewrite log_debug_short by (done || lia).
  - rewrite log_debug_long; [done..|lia|unfold int_max; lia].
Qed.

(** Elements made of texts. *)
Lemma text_element_reads s :
  no_nul s → (length s < 256)%nat →
  ie_text (text_element s) = Ok s ∧ ie_length (text_element s) = Ok (Z.of_nat (length s))
  ∧ take (length s) (element (text_element s)) = s.
Proof.
  intros Hs Hl. split_and!; [|done|].
  - by apply ie_text_padded.
  - unfold text_element. cbn [element]. by rewrite take_app_length.
Qed.

Lemma sendMsg_unterminated s ret eagain err :
  no_nul s → length s = 256%nat → sendMsg ret eagain err (text_element s) = Err OutOfBounds.
Proof.
  intros Hs Hl. unfold sendMsg, ie_text, text_element. cbn. rewrite Hl, Nat.sub_diag. cbn [replicate].
  rewrite app_nil_r. unfold cstr. by rewrite drop_0, no_nul_to_nul.
Qed.

(** ** The queue of the receiver *)

Section queue.
Context {E : Type}.

Inductive who := Producer | Consumer.
Inductive ppc :=
  | PRecv                   (* in [zmq_recv] *)
  | PLock (ie : E)          (* at [pthread_mutex_lock(&rc->lock)] *)
  | PIn (ie : E)            (* holds the lock, before the push *)
  | POut (is_signal : bool) (* holds the lock, before [unlock] *)
  | PSig (is_signal : bool). (* at [if (is_signal)] *)
Inductive cpc :=
  | CIdle                   (* outside of [fetchOne] *)
  | CLock                   (* at [lock], or woken in [pthread_cond_wait] *)
  | CIn                     (* holds the lock, at [while (elements.empty())] *)
  | CSleep                  (* in [pthread_cond_wait(&empty_queue, &lock)] *)
  | COut (ie : E).          (* holds the lock, before [unlock] *)

Record rstate := Rs { elements : list E; lock : option who; prod : ppc; cons_ : cpc }.
Definition rinit : rstate := Rs [] None PRecv CIdle.

Inductive rmove := Recv (ie : E) | Prod | Fetch | Cons | WakeUp.
Inductive revent := Received (ie : E) | Fetched (ie : E) | RTau.

Definition rnext (s : rstate) (m : rmove) : option (rstate * revent) :=
  match m, prod s, cons_ s with
  | Recv ie, PRecv, c => Some (Rs (elements s) (lock s) (PLock ie) c, Received ie)
  | Prod, PLock ie, c =>
      match lock s with None => Some (Rs (elements s) (Some Producer) (PIn ie) c, RTau) | _ => None end
  | Prod, PIn ie, c =>
      let is_signal := match elements s with [] => true | _ => false end in
      Some (Rs (elements s ++ [ie]) (lock s) (POut is_signal) c, RTau)
  | Prod, POut sg, c => Some (Rs (elements s) None (PSig sg) c, RTau)
  | Prod, PSig sg, c =>
      let c := match sg, c with true, CSleep => CLock | _, c => c end in
      Some (Rs (elements s) (lock s) PRecv c, RTau)
  | Fetch, p, CIdle => Some (Rs (elements s) (lock s) p CLock, RTau)
  | Cons, p, CLock =>
      match lock s with None => Some (Rs (elements s) (Some Consumer) p CIn, RTau) | _ => None end
  | Cons, p, CIn =>
      match elements s with
      | [] => Some (Rs [] None p CSleep, RTau)
      | ie :: es => Some (Rs es (lock s) p (COut ie), RTau)
      end
  | Cons, p, COut ie => Some (Rs (elements s) None p CIdle, Fetched ie)
  | WakeUp, p, CSleep => Some (Rs (elements s) (lock s) p CLock, RTau)
  | _, _, _ => None
  end.

Fixpoint rrun (s : rstate) (ms : list rmove) : option (rstate * list revent) :=
  match ms with
  | [] => Some (s, [])
  | m :: ms => '(s, e) ← rnext s m; '(s, es) ← rrun s ms; Some (s, e :: es)
  end.

Definition received (es : list revent) : list E :=
  omap (λ e, match e with Received ie => Some ie | _ => None end) es.
Definition fetched (es : list revent) : list E :=
  omap (λ e, match e with Fetched ie => Some ie | _ => None end) es.

(** The elements between reception and [fetchOne]'s return, oldest first. *)
Definition in_hand (s : rstate) : list E :=
  match cons_ s with COut ie => [ie] | _ => [] end ++ elements s
  ++ match prod s with PLock ie | PIn ie => [ie] | _ => [] end.

Definition p_in (p : ppc) : bool := match p with PIn _ | POut _ => true | _ => false end.
Definition c_in (c : cpc) : bool := match c with CIn | COut _ => true | _ => false end.

(** Who holds the lock, and why a sleeping consumer may sleep: the queue is
    empty, or the producer is on its way to the signal. *)
Definition rinv (s : rstate) : Prop :=
  lock s = (if p_in (prod s) then Some Producer else if c_in (cons_ s) then Some Consumer else None)
  ∧ (p_in (prod s) && c_in (cons_ s)) = false
  ∧ (cons_ s = CSleep → elements s = [] ∨ prod s = POut true ∨ prod s = PSig true).

Lemma rnext_inv s m s' e :
  rinv s → rnext s m = Some (s', e) →
  rinv s' ∧ in_hand s ++ received [e] = fetched [e] ++ in_hand s'.
Proof.
  intros (Hl & Hx & Hs) Hn. destruct s as [els l p c]. cbn in *.
  unfold rnext, rinv, in_hand in *; cbn in *.
  destruct m, p as [| ? | ? | [] | []], c; cbn in *; simplify_eq; cbn;
    repeat case_match; simplify_eq; cbn in *;
    (split; [split_and!; try done; naive_solver|]);
    rewrite ?app_nil_r, <-?app_assoc; by simplify_eq.
Qed.

Lemma rrun_inv s ms s' es :
  rinv s → rrun s ms = Some (s', es) → rinv s' ∧ in_hand s ++ received es = fetched es ++ in_hand s'.
Proof.
  revert s es; induction ms as [|m ms IH]; intros s es Hi Hr; simpl in Hr.
  { simplify_eq. by rewrite app_nil_r. }
  apply bind_Some in Hr as ([s1 e] & Hn & Hr). apply bind_Some in Hr as ([s2 es2] & Hr & ?).
  simplify_eq. destruct (rnext_inv _ _ _ _ Hi Hn) as [Hi1 H1]. destruct (IH _ _ Hi1 Hr) as [Hi2 H2].
  split; [done|]. change (e :: es2) with ([e] ++ es2). unfold received, fetched in *. rewrite !omap_app.
  by rewrite app_assoc, H1, <-app_assoc, H2, app_assoc.
Qed.

(** ** Properties *)

(** C30: the queue of the receiver delivers every element once and in order,
    and loses no wake-up: what [fetchOne] has returned is what was received, in
    that order, up to the elements still in hand; producer and consumer are
    never in the critical section together; and when the consumer sleeps next
    to an element, the producer is about to signal. *)
Theorem receiver_queue_correct ms s es :
  rrun rinit ms = Some (s, es) →
  received es = fetched es ++ in_hand s
  ∧ (p_in (prod s) && c_in (cons_ s)) = false
  ∧ (cons_ s = CSleep → elements s = [] ∨ prod s = POut true ∨ prod s = PSig true).
Proof.
  intros Hr. apply rrun_inv in Hr as ((_ & Hx & Hs) & Hf); [by split_and!|].
  split; [done|]. by split.
Qed.
End queue.

(** What a stage receives. Of a message without NUL the handler sees the
    first 255 bytes, followed by NULs; the length of the element counts one
    byte more than the text. *)
Theorem receive_truncates m :
  no_nul m → Z.of_nat (length m) < 2 ^ 31 →
  let text := take 255 m in
  ∃ ie, receive (Z.of_nat (length m)) (recv_buffer m) = Ok (Some ie)
    ∧ element ie = text ++ replicate (256 - length text) NUL
    ∧ ie_text ie = Ok text ∧ ie_length ie = Ok (Z.of_nat (length text) + 1).
Proof. apply receive_element. Qed.

(** What [sendMsg] hands over and reports. It hands the first [length()]
    bytes of the element to ZeroMQ; but it takes the number of bytes that
    [zmq_send] returns for an error code, so that a send that failed for any
    reason but EAGAIN counts as done, and one that succeeded counts as failed
    when [zmq_errno] still is EAGAIN. A text of 92 bytes or more overflows its
    first log line. *)
Theorem sendMsg_reports ie text n err :
  ie_text ie = Ok text → ie_length ie = Ok n → 0 < n ≤ 256 → no_nul text → err_ok err →
  let data := take (Z.to_nat n) (element ie) in
  ((length text ≤ 89)%nat →
   sendMsg (-1) false err ie = Ok (data, true) ∧ sendMsg (-1) true err ie = Ok (data, false)
   ∧ sendMsg n false err ie = Ok (data, true) ∧ sendMsg n true err ie = Ok (data, false))
  ∧ ((92 ≤ length text ≤ 255)%nat → ∀ ret eagain, sendMsg ret eagain err ie = Err OutOfBounds).
Proof.
  intros Ht Hl Hn Hno He data. split.
  - intros Hs. rewrite !(sendMsg_ok ie text n) by (done || lia).
    by assert ((n =? 0) = false) as -> by (apply Z.eqb_neq; lia).
  - intros Hs ret eagain. by apply (sendMsg_long ie text n); (done || lia).
Qed.

(** ** Witnesses *)

Definition demo_fetch : list (@rmove nat) :=
  [ Fetch; Cons; Cons; Recv 5%nat; Prod; Prod; Prod; Prod; Recv 6%nat; Cons; Cons; Cons ].
Definition demo_receiver : @rstate nat * list (@revent nat) :=
  match rrun rinit demo_fetch with Some r => r | None => (rinit, []) end.

Lemma receiver_queue_correct_witness :
  let '(s, es) := demo_receiver in
  fetched es = [5%nat] ∧ received es = fetched es ++ in_hand s
  ∧ (p_in (prod s) && c_in (cons_ s)) = false
  ∧ (cons_ s = CSleep → elements s = [] ∨ prod s = POut true ∨ prod s = PSig true).
Proof.
  destruct demo_receiver as [s es] eqn:E.
  split; [vm_compute in E; injection E as _ <-; reflexivity|].
  apply (receiver_queue_correct demo_fetch s es). vm_compute in E. injection E as <- <-.
  vm_compute. reflexivity.
Defined.

Lemma receive_truncates_witness :
  ∃ ie, receive 300 (replicate 256 "a"%char) = Ok (Some ie)
    ∧ element ie = replicate 255 "a"%char ++ replicate (256 - 255) NUL
    ∧ ie_text ie = Ok (replicate 255 "a"%char) ∧ ie_length ie = Ok 256.
Proof.
  destruct (receive_truncates (replicate 300 "a"%char)) as (ie & H1 & H2 & H3 & H4).
  - unfold no_nul. intros H. apply list_elem_of_lookup in H as [i H].
    by apply lookup_replicate in H as [? _].
  - rewrite length_replicate. lia.
  - exists ie. split_and!; [exact H1|exact H2|exact H3|exact H4].
Defined.

Lemma sendMsg_reports_witness :
  let ie := Ie (bs "hi" ++ replicate 254 NUL) (Val 2) in
  let data := bs "hi" in
  sendMsg (-1) false (bs "Success") ie = Ok (data, true) ∧ sendMsg (-1) true (bs "Success") ie = Ok (data, false)
  ∧ sendMsg 2 false (bs "Success") ie = Ok (data, true) ∧ sendMsg 2 true (bs "Success") ie = Ok (data, false).
Proof.
  apply (sendMsg_reports (Ie (bs "hi" ++ replicate 254 NUL) (Val 2)) (bs "hi") 2 (bs "Success"));
    [vm_compute; reflexivity|reflexivity|lia|no_nul| |simpl; lia].
  split; [no_nul|simpl; lia].
Defined.
