(* ===== verification/Stage.v ===== *)
(** * A stage: stage_handler.h, stage_handler.cpp, stage.h, stage.cpp,
    stage_control.h, stage_control.cpp

    [stage::init] starts a pool of 20 threads and gives it three tasks that
    never return: [receiver::run], [stage_control::run] and
    [stage_handler::run].  The handler's loop fetches one element after the
    other into the field [ie] that it shares with the tasks [handlerFunc] it
    pushes.  The handler functions of the user are a parameter [call]. *)

From S2P Require Import Prelude Log JobQueue WorkerPool Receiver.
Open Scope Z_scope.

(** ** [stage_handler] *)

Section handler.
Context {F P : Type}.
(** What a handler function returns for the buffer of an element: NULL, or a
    C string. *)
Variable call : F → bytes → outcome (option bytes).

Record stage_handler := Sh {
  sh_fun : @Function_ F P;
  rec_set : bool;               (* rec, sq and wp have a value *)
  sh_running : cell bool;
  sd_set : bool;
  sh_ie : IElement }.

Definition stage_handler_new : stage_handler :=
  Sh Function_default true (Val true) true IElement_new.

(** The constructor with four parameters makes another object with
    [stage_handler(_rec, _sq, _wp);] and sets [sd] of its own. *)
Definition stage_handler_new4 : stage_handler :=
  Sh Function_default false Indeterminate true IElement_new.

Definition setHandler (fn : @Function_ F P) (sh : stage_handler) : stage_handler :=
  Sh fn (rec_set sh) (sh_running sh) (sd_set sh) (sh_ie sh).

(** [handlerFunc]: the call of the handler function; the element that is made of
    the C string it returns a pointer to, which may be inside of [ie]; and what
    is sent of it; [ret], [eagain] and [err] are the results of [zmq_send].  The
    result is what goes to the next stage, if anything. *)
Definition handler_call (sh : stage_handler) : outcome (option bytes) :=
  fn ← getFunction (sh_fun sh);
  match fn with
  | None => Err NullDeref
  | Some fn => call fn (element (sh_ie sh))
  end.
Definition handler_reply (sh : stage_handler) : outcome (option IElement) :=
  res_msg ← handler_call sh;
  match res_msg with
  | None => Ok None
  | Some res => ie ← IElement_of (c_str res) (Z.of_nat (length res)); Ok (Some ie)
  end.
Definition handler_send (ret : Z) (eagain : bool) (err : bytes) (ie : IElement) : outcome bytes :=
  '(data, _) ← sendMsg ret eagain err ie;
  Ok data.

Definition handlerFunc (ret : Z) (eagain : bool) (err : bytes) (sh : stage_handler) : outcome (option bytes) :=
  reply ← handler_reply sh;
  match reply with
  | None => Ok None
  | Some ie => data ← handler_send ret eagain err ie; Ok (Some data)
  end.

(** One message through a stage, from [zmq_recv] to [zmq_send]: a round of
    [receiver::run], [fetchOne], a round of [stage_handler::run], and the task
    that it pushes.  A failed receive passes nothing on. *)
Definition hop (nrecv : Z) (buf : bytes) (ret : Z) (eagain : bool) (err : bytes) (sh : stage_handler) :
    outcome (option bytes) :=
  received ← receive nrecv buf;
  match received with
  | None => Ok None
  | Some ie =>
      ie ← fetchOne_return ie;
      handlerFunc ret eagain err (Sh (sh_fun sh) (rec_set sh) (sh_running sh) (sd_set sh) ie)
  end.

(** [stage_handler::run] up to its loop: does it enter the loop? *)
Definition run_enters (sh : option stage_handler) : outcome bool :=
  match sh with
  | None => Ok false
  | Some sh =>
      fn ← getFunction (sh_fun sh);
      match fn with
      | None => Ok false
      | Some _ => read_cell (sh_running sh)
      end
  end.

(** ** The loop of [stage_handler::run] against its tasks

    [fetchOne] and the assignment to [ie] are one move, [wp->run] is the next;
    a task reads [ie] when it runs. *)
Record hstate := Hs {
  inbox : list bytes;       (* what [fetchOne] will return *)
  shared_ie : bytes;        (* ie *)
  pushing : bool;           (* between [fetchOne] and [wp->run] *)
  tasks : nat;              (* tasks [handlerFunc] that have not read [ie] yet *)
  handled : list bytes }.   (* what the handler function was called with *)

Inductive hmove := FetchOne | PushTask | RunTask.
Definition hnext (s : hstate) (m : hmove) : option hstate :=
  match m, pushing s, inbox s, tasks s with
  | FetchOne, false, m :: inbox, n => Some (Hs inbox m true n (handled s))
  | PushTask, true, inbox, n => Some (Hs inbox (shared_ie s) false (S n) (handled s))
  | RunTask, p, inbox, S n => Some (Hs inbox (shared_ie s) p n (handled s ++ [shared_ie s]))
  | _, _, _, _ => None
  end.
Fixpoint hrun (s : hstate) (ms : list hmove) : option hstate :=
  match ms with [] => Some s | m :: ms => s ← hnext s m; hrun s ms end.
Definition hinit (msgs : list bytes) : hstate := Hs msgs [] false 0 [].

(** Every task runs before the next message is fetched. *)
Fixpoint lockstep (n : nat) : list hmove :=
  match n with O => [] | S n => FetchOne :: PushTask :: RunTask :: lockstep n end.

Lemma hrun_lockstep msgs ie done :
  ∃ ie', hrun (Hs msgs ie false 0 done) (lockstep (length msgs)) = Some (Hs [] ie' false 0 (done ++ msgs)).
Proof.
  revert ie done; induction msgs as [|m msgs IH]; intros ie done; simpl.
  - exists ie. by rewrite app_nil_r.
  - destruct (IH m (done ++ [m])) as [ie' H]. exists ie'. by rewrite H, <-app_assoc.
Qed.

Definition pending (s : hstate) : nat := tasks s + (if pushing s then 1 else 0).

Lemma hrun_count ms s s' :
  hrun s ms = Some s' →
  (length (handled s') + pending s' + length (inbox s')
   = length (handled s) + pending s + length (inbox s))%nat.
Proof.
  revert s; induction ms as [|m ms IH]; intros s H; simpl in H; [by simplify_eq|].
  apply bind_Some in H as (s1 & Hn & H). rewrite (IH _ H). clear IH H.
  destruct s as [ib ie p n h]. unfold hnext in Hn. cbn in Hn.
  destruct m, p, ib, n; simplify_eq; unfold pending; cbn; rewrite ?length_app; cbn; lia.
Qed.

(** ** One message through a stage *)

(** A message of at most 255 bytes, whose bytes before the first NUL are [s]. *)
Lemma hop_short m s ret eagain err sh :
  to_nul (c_str m) = Some s → (length m ≤ 255)%nat → (length s ≤ 78)%nat →
  hop (Z.of_nat (length m)) (recv_buffer m) ret eagain err sh
  = handlerFunc ret eagain err
      (Sh (sh_fun sh) (rec_set sh) (sh_running sh) (sd_set sh)
         (Ie (s ++ replicate (256 - length s) NUL) (Val (Z.of_nat (length m) + 1)))).
Proof.
  intros Hm Hl Hs. destruct (to_nul_spec _ _ Hm) as (Hno & t & Ht).
  assert (length s ≤ length m)%nat as Hsm.
  { apply (f_equal length) in Ht. unfold c_str in Ht. rewrite !length_app in Ht. simpl in Ht. lia. }
  assert (recv_buffer m = s ++ NUL :: t ++ replicate (255 - length m) NUL) as Hb.
  { unfold recv_buffer. rewrite take_ge by lia. replace (256 - length m)%nat with (S (255 - length m)) by lia.
    change (m ++ [NUL] ++ replicate (255 - length m) NUL = s ++ NUL :: t ++ replicate (255 - length m) NUL).
    rewrite app_assoc. unfold c_str in Ht. by rewrite Ht, <-app_assoc. }
  assert (length (recv_buffer m) = 256%nat) as Hlb.
  { unfold recv_buffer. rewrite length_app, length_take, length_replicate. lia. }
  unfold hop. rewrite (receive_text s (t ++ replicate (255 - length m) NUL)); [..|].
  - rewrite bind_ok, (fetchOne_return_text _ s), decide_True, bind_ok by (done || lia || (apply ie_text_padded; [done|lia])).
    by rewrite Z.min_l by lia.
  - done.
  - lia.
  - lia.
  - done.
  - lia.
  - rewrite list_insert_id; [done|]. unfold recv_buffer. rewrite take_ge by lia.
    rewrite lookup_app_r by lia. apply lookup_replicate. split; [done|lia].
Qed.

(** A handler that answers with at most 89 bytes. *)
Lemma handler_answer fn res sh ret eagain err :
  err_ok err → getFunction (sh_fun sh) = Ok (Some fn) →
  call fn (element (sh_ie sh)) = Ok (Some res) → no_nul res → (length res ≤ 89)%nat →
  handlerFunc ret eagain err sh = Ok (Some res).
Proof.
  intros He Hfn Hcall Hno Hl. unfold handlerFunc, handler_reply, handler_call, handler_send.
  rewrite Hfn, bind_ok, Hcall, bind_ok, IElement_of_text, !bind_ok by (done || lia).
  destruct (text_element_reads res Hno) as (H1 & H2 & H3); [lia|].
  by rewrite (sendMsg_ok _ _ _ _ _ _ He H1 H2), Nat2Z.id, H3 by (done || lia).
Qed.

(** ** Properties *)

(** C28: one hop. With a handler that answers with its argument, a message
    without NUL of at most 78 bytes goes through a stage without change, so that
    a chain of such stages delivers it; a longer one, up to the 255 bytes that
    elements are made for and beyond, overflows the log line of [fetchOne]. *)
Theorem hop_preserves fn m sh ret eagain err :
  no_nul m → Z.of_nat (length m) < 2 ^ 31 → err_ok err →
  getFunction (sh_fun sh) = Ok (Some fn) →
  (∀ e, call fn e = s ← cstr e 0; Ok (Some s)) →
  hop (Z.of_nat (length m)) (recv_buffer m) ret eagain err sh
  = if decide (length m ≤ 78)%nat then Ok (Some m) else Err OutOfBounds.
Proof.
  intros Hm Hl He Hfn Hcall. case_decide as Hs.
  - rewrite (hop_short m m) by (lia || by apply (to_nul_app m [])).
    apply (handler_answer fn); [done..| |done|lia]. rewrite Hcall. cbn [sh_ie].
    pose proof (ie_text_padded m 256 (Val 0) Hm ltac:(lia)) as Ht. unfold ie_text in Ht. cbn [element] in *.
    by rewrite Ht.
  - destruct (receive_element m Hm Hl) as (ie & Hr & _ & Ht & _).
    assert (length (take 255 m) = 255 `min` length m)%nat as Hlen by (by rewrite length_take).
    unfold hop. rewrite Hr, bind_ok, (fetchOne_return_text _ _ Ht), decide_False by (lia || by eapply no_nul_take).
    done.
Qed.

(** Handlers must answer with less than 92 bytes: a longer answer overflows the
    log line of [sendMsg], and from 256 bytes on the element itself. *)
Theorem long_answer_overflows fn res sh ret eagain err :
  getFunction (sh_fun sh) = Ok (Some fn) → call fn (element (sh_ie sh)) = Ok (Some res) →
  no_nul res → (92 ≤ length res)%nat → Z.of_nat (length res) < 2 ^ 64 →
  handlerFunc ret eagain err sh = Err OutOfBounds.
Proof.
  intros Hfn Hcall Hno Hl Hb. unfold handlerFunc, handler_reply, handler_call, handler_send. rewrite Hfn, bind_ok, Hcall, bind_ok.
  destruct (decide (256 < length res)%nat) as [Hg|Hg]; [by rewrite IElement_of_long by lia|].
  rewrite IElement_of_text, !bind_ok by (done || lia).
  destruct (decide (length res = 256)%nat) as [He|Hne]; [by rewrite sendMsg_unterminated|].
  destruct (text_element_reads res Hno) as (H1 & H2 & _); [lia|].
  by rewrite (sendMsg_long _ _ _ _ _ _ H1 H2) by (done || lia).
Qed.

(** How often the handler is called, and with what. The calls and the
    pending tasks are as many as the messages fetched, and if every task runs
    before the next message is fetched the handler sees every message, in
    order; but a second message that is fetched before the first task has run
    overwrites the first one, so that the handler sees the second message
    twice and the first never. *)
Theorem handler_calls msgs :
  (∀ ms s, hrun (hinit msgs) ms = Some s →
     (length (handled s) + pending s + length (inbox s) = length msgs)%nat)
  ∧ (∃ s, hrun (hinit msgs) (lockstep (length msgs)) = Some s ∧ handled s = msgs)
  ∧ ∀ a b, ∃ s, hrun (hinit [a; b]) [FetchOne; PushTask; FetchOne; PushTask; RunTask; RunTask] = Some s
                ∧ handled s = [b; b] ∧ pending s = 0%nat.
Proof.
  split_and!.
  - intros ms s H. by apply hrun_count in H.
  - destruct (hrun_lockstep msgs [] []) as [ie H]. by eexists.
  - intros a b. eexists. split; [reflexivity|done].
Qed.

(** [stage_handler::run] and [setHandler]. Before [setHandler] the loop's
    test reads a function pointer without a value (it is not NULL, as the test
    expects); after it the loop is entered exactly if the function is not NULL;
    and an object of the four-parameter constructor has no [running] to test,
    even then. *)
Theorem run_needs_setHandler (fn : option F) (a : P) :
  run_enters (Some stage_handler_new) = Err Uninitialised
  ∧ run_enters (Some (setHandler (setFunction fn Function_default) stage_handler_new))
    = Ok (match fn with Some _ => true | None => false end)
  ∧ run_enters (Some (setHandler (Function_of fn a) stage_handler_new4))
    = match fn with Some _ => Err Uninitialised | None => Ok false end.
Proof. by destruct fn. Qed.
End handler.

(** ** [stage]: its fields and the registered memory *)

Definition REG_MEM : nat := 16.

Record stage := Stage {
  stage_name : bytes;
  resources : list bytes;
  des : bytes;
  stage_id : cell Z;
  reg_mem : cell (list (option nat)) }.    (* malloc'ed array of pointers *)

Definition stage_of (name : bytes) : stage := Stage name [] [] Indeterminate (Val (replicate REG_MEM None)).

(** [stage::stage() { stage(""); }] makes and destroys another object. *)
Definition stage_default : stage := Stage [] [] [] Indeterminate Indeterminate.

Definition setResources (res : list bytes) (s : stage) : stage := Stage (stage_name s) res (des s) (stage_id s) (reg_mem s).
Definition setDestination (des : bytes) (s : stage) : stage := Stage (stage_name s) (resources s) des (stage_id s) (reg_mem s).
Definition setId (id : Z) (s : stage) : stage := Stage (stage_name s) (resources s) (des s) (Val id) (reg_mem s).
Definition setStageName (name : bytes) (s : stage) : stage := Stage name (resources s) (des s) (stage_id s) (reg_mem s).

(** [~stage]: the pointers that it frees, [reg_mem] itself excepted. *)
Definition stage_destroy (s : stage) : outcome (list nat) :=
  mem ← read_cell (reg_mem s);
  if decide (length mem < REG_MEM)%nat then Err OutOfBounds
  else Ok (omap id (take REG_MEM mem)).

(** ** [stage::init] *)

Inductive stage_task := receiver_run | stage_control_run | stage_handler_run.

Definition DEFAULT_WORKER_NUM : Z := 20.
Definition init_tasks : list (@queue_element stage_task unit) :=
  [ Qe (Some receiver_run) tt; Qe (Some stage_control_run) tt; Qe (Some stage_handler_run) tt ].

(** The pool after [wp->start()]: 20 workers, and the calling thread, number 20,
    that will push. *)
Definition stage_pool : @worker_pool stage_task unit (@conf (@queue_element stage_task unit)) := started DEFAULT_WORKER_NUM None (init 21).

#[local] Abbreviation sgo t w := (InQueue (Go t w)).

(** A thread that finds the queue empty goes to sleep. *)
Definition to_sleep (t : nat) : list (@pmove stage_task unit) := [ Work t; sgo t None; sgo t None ].
(** A push: the call, lock, the critical section, unlock. *)
Definition do_push (t : nat) (w : option nat) (qe : @queue_element stage_task unit) :
    list (@pmove stage_task unit) :=
  [ InQueue (Call t (Push qe)); sgo t None; sgo t w; sgo t None ].
(** From the wake-up to the start of the task. *)
Definition to_run (t : nat) : list (@pmove stage_task unit) :=
  [ sgo t None; sgo t None; sgo t None; Work t; Work t; Work t; Work t ].

(** All workers sleep before the first push. *)
Definition asleep_schedule : list (@pmove stage_task unit) :=
  concat (to_sleep <$> seq 0 20)
  ++ concat (zip_with (do_push 20) [Some 0%nat; None; None] init_tasks)
  ++ to_run 0.

(** The main thread pushes everything before a worker looks. *)
Definition eager_schedule : list (@pmove stage_task unit) :=
  concat (do_push 20 None <$> init_tasks)
  ++ concat ((λ t, Work t :: to_run t) <$> seq 0 3).

Definition begun (es : list (@pevent stage_task unit)) : list (nat * option stage_task) :=
  omap (λ e, match e with Begin t qe => Some (t, _cb qe) | _ => None end) es.

(** Worker 0 is busy for ever, the others sleep next to a task. *)
Definition starved (wp : @worker_pool stage_task unit (@conf (@queue_element stage_task unit))) : Prop :=
  (∃ qe, workers wp = WRun qe :: replicate 19 WPop)
  ∧ ∃ qe, ∀ k, (1 ≤ k < 20)%nat → stranded k qe (jq wp).

Lemma next_ret (c : @conf (@queue_element stage_task unit)) m c' t r :
  next c m = Some (c', ERet t r) → threads c !! t = Some (Leaving r).
Proof.
  destruct m as [u o|u w|u]; cbn; intros H.
  - by destruct (threads c !! u) as [[]|]; simplify_eq.
  - destruct (threads c !! u) as [p|] eqn:Hu; [|done]. destruct p; simplify_eq.
    + by destruct (owner c); simplify_eq.
    + destruct (blocked _ _); simplify_eq. destruct (exec _ _) as [[[? ?] ?]| |]; simplify_eq.
      by apply bind_Some in H as (? & _ & ?); simplify_eq.
    + done.
  - by destruct (threads c !! u) as [[]|]; simplify_eq.
Qed.

Lemma starved_worker wp t p :
  starved wp → workers wp !! t = Some p → (t = 0%nat ∧ ∃ qe, p = WRun qe) ∨ ((1 ≤ t < 20)%nat ∧ p = WPop).
Proof.
  intros [[qe Hw] _] Ht. rewrite Hw in Ht. destruct t as [|t]; simpl in Ht; [left; simplify_eq; eauto|].
  change (replicate 19 (@WPop stage_task unit) !! t = Some p) in Ht.
  apply lookup_replicate in Ht as [-> ?]. right. split; [lia|done].
Qed.

Lemma starved_next wp m wp' e :
  (∀ t, m ≠ InQueue (Spurious t)) → m ≠ Work 0 →
  starved wp → pnext wp m = Some (wp', e) → starved wp' ∧ begun [e] = [].
Proof.
  intros Hsp Hw0 Hs Hn. destruct m as [m|t]; simpl in Hn.
  - apply bind_Some in Hn as ([q e'] & Hn & Hm).
    assert (∀ t, m ≠ Call t Pop) as Hpop.
    { intros t ->. pose proof (next_call _ _ _ _ _ Hn) as ->. by simpl in Hm. }
    pose proof Hs as [[qe0 Hws] (qe & Hk)].
    assert (starved (set_jq q wp)) as Hs'.
    { split; [by exists qe0|]. exists qe. intros k Hk'. eapply stranded_next; [|by apply Hk|exact Hn].
      intros t. split; [|by apply Hpop]. intros ->. by apply (Hsp t). }
    assert (wp' = set_jq q wp ∧ e = QEvent e') as [-> ->]; [|done].
    unfold queue_move in Hm. destruct e' as [|t o|t o r|t r]; simplify_eq; try done.
    + repeat case_match; by simplify_eq.
    + destruct (workers (set_jq q wp) !! t) as [p|] eqn:Ht; [|by case_match; simplify_eq].
      apply (starved_worker wp t p Hs) in Ht as [[-> [qe1 ->]]|[Ht ->]]; [by case_match; simplify_eq|].
      apply next_ret in Hn. destruct (Hk t Ht) as (_ & Hsl & _). congruence.
  - unfold work in Hn. destruct (workers wp !! t) as [p|] eqn:Ht; [|done].
    apply (starved_worker wp t p Hs) in Ht as [[-> _]|[_ ->]]; done.
Qed.

Lemma starved_run wp ms wp' es :
  (∀ t, InQueue (Spurious t) ∉ ms) → Work 0 ∉ ms → starved wp → prun wp ms = Some (wp', es) → begun es = [].
Proof.
  revert wp es; induction ms as [|m ms IH]; intros wp es Hsp Hw0 Hs Hr; simpl in Hr; [by simplify_eq|].
  apply bind_Some in Hr as ([w1 e] & Hn & Hr). apply bind_Some in Hr as ([w2 es2] & Hr & ?). simplify_eq.
  destruct (starved_next wp m w1 e) as [Hs1 He]; [set_solver|set_solver|done..|].
  assert (begun es2 = []) as H2 by (eapply (IH w1); [set_solver|set_solver|done..]).
  change (e :: es2) with ([e] ++ es2). unfold begun in *. by rewrite omap_app, He, H2.
Qed.

(** C31: [stage::init] may never get its tasks going. If the workers are asleep
    when it pushes the three tasks, only the first push signals; the worker it
    wakes starts [receiver::run], and as long as that does not return and
    nobody wakes spuriously, [stage_control::run] and [stage_handler::run] stay
    in the queue next to 19 sleeping workers, whatever else is pushed. If it
    pushes before the workers look, all three start. *)
Theorem stage_init_starves :
  (∃ wp es, prun stage_pool asleep_schedule = Some (wp, es)
    ∧ begun es = [(0%nat, Some receiver_run)]
    ∧ _cb <$> content (q_abs (jq wp)) = [Some stage_control_run; Some stage_handler_run]
    ∧ ∀ ms wp' es', prun wp ms = Some (wp', es') →
        (∀ t, InQueue (Spurious t) ∉ ms) → Work 0 ∉ ms → begun es' = [])
  ∧ ∃ wp es, prun stage_pool eager_schedule = Some (wp, es)
    ∧ begun es = [(0%nat, Some receiver_run); (1%nat, Some stage_control_run); (2%nat, Some stage_handler_run)].
Proof.
  split.
  - destruct (prun stage_pool asleep_schedule) as [[wp es]|] eqn:Hr; [|vm_compute in Hr; discriminate].
    exists wp, es.
    assert (pool_inv wp) as [Hi _].
    { eapply prun_inv; [|exact Hr]. apply (started_inv 20 None 21); [unfold int_max; lia|].
      split; [apply init_inv|by exists 2000]. }
    vm_compute in Hr. injection Hr as <- <-. split_and!; [done..|].
    intros ms wp' es' Hr Hsp Hw0. eapply starved_run; [exact Hsp|exact Hw0| |exact Hr].
    split; [by eexists|]. eexists. intros k Hk. split_and!; [apply Hi| | |by eexists].
    + by do 20 (destruct k as [|k]; [done || lia|]); lia.
    + intros t p Ht Hp. cbn in Ht.
      do 22 (destruct t as [|t]; [simpl in Ht; by simplify_eq/=|]). done.
  - destruct (prun stage_pool eager_schedule) as [[wp es]|] eqn:Hr; [|vm_compute in Hr; discriminate].
    exists wp, es. split; [done|]. vm_compute in Hr. injection Hr as _ <-. done.
Qed.

(** [stage]. A stage made with a name can be destroyed; one made by the
    default constructor cannot: its [reg_mem] has no value. *)
Theorem stage_lifecycle name :
  stage_destroy (stage_of name) = Ok [] ∧ stage_destroy stage_default = Err Uninitialised.
Proof. done. Qed.

(** ** Witnesses *)

Definition echo (_ : unit) (e : bytes) : outcome (option bytes) := s ← cstr e 0; Ok (Some s).
Definition echo_handler : @stage_handler unit unit :=
  setHandler (Function_of (Some tt) tt) stage_handler_new.

Lemma hop_preserves_witness :
  hop echo 5 (bs "hello" ++ replicate 251 NUL) (-1) false (bs "Success") echo_handler = Ok (Some (bs "hello"))
  ∧ hop echo 79 (replicate 79 "a"%char ++ replicate 177 NUL) (-1) false (bs "Success") echo_handler
    = Err OutOfBounds.
Proof.
  assert (err_ok (bs "Success")) as He by (split; [no_nul|simpl; lia]).
  split.
  - apply (hop_preserves echo tt (bs "hello") echo_handler (-1) false (bs "Success"));
      [no_nul|vm_compute; reflexivity|exact He|reflexivity|reflexivity].
  - apply (hop_preserves echo tt (replicate 79 "a"%char) echo_handler (-1) false (bs "Success"));
      [no_nul|vm_compute; reflexivity|exact He|reflexivity|reflexivity].
Defined.

Lemma long_answer_overflows_witness :
  handlerFunc (λ _ _, Ok (Some (replicate 92 "a"%char))) (-1) false (bs "Success") echo_handler = Err OutOfBounds.
Proof.
  apply (long_answer_overflows (λ _ _, Ok (Some (replicate 92 "a"%char))) tt (replicate 92 "a"%char));
    [reflexivity|reflexivity|no_nul|rewrite length_replicate; lia..].
Defined.
