(* ===== verification/StageSetup.v ===== *)
(** * Bringing a stage up: sender.cpp, receiver.cpp, stage_control.cpp, stage.cpp

    The parts of a stage that talk to ZeroMQ before a message does, as programs
    of system calls: [sender::init], the head of [receiver::run], and
    [stage::init] around them with the start of its pool; [stage_control::run]
    and [sender::run]. *)

From S2P Require Import Prelude Sys Log JobQueue WorkerPool Receiver Stage.
Open Scope Z_scope.

(** ** [sender] *)

Record sender := Sd { sd_running : bool; publisher : cell Z; sd_addr : bytes }.
Definition sender_new : sender := Sd true Indeterminate [].
Definition setDestination (des : bytes) (sd : sender) : sender := Sd (sd_running sd) (publisher sd) des.
Definition getRunningState (sd : sender) : bool := sd_running sd.

(** [init]; pointers are numbers, 0 is NULL.  [errno] and [err] are the results of
    [zmq_errno] and [zmq_strerror]. *)
Definition sender_init (errno : Z) (err : bytes) (sd : sender) : sys_prog sender :=
  context ← sys ZmqCtxNew;
  assert_ (negb (context =? 0));;
  publisher ← sys (ZmqSocket true);
  assert_ (negb (publisher =? 0));;
  let sd := Sd (sd_running sd) (Val publisher) (sd_addr sd) in
  ret ← sys (ZmqBind (sd_addr sd));
  sys_lift (log_debug (bs "sender : [init] addr=" ++ sd_addr sd));;
  if negb (ret =? 0) then
    sys_lift (log_debug (bs "sender : [init] zmq_bind fail. ret = " ++ dec errno ++ bs ", " ++ err));;
    sys_ (Sleep 3);;
    exit_ (-1)
  else mret sd.

(** [run]: one test of [running]. *)
Definition sender_run (sd : sender) : sender := sd.

(** ** [receiver::run] up to its loop *)

(** The new value of [running]; the loop is entered exactly if it is true. *)
Definition receiver_setup (res : list bytes) : sys_prog bool :=
  context ← sys ZmqCtxNew;
  assert_ (negb (context =? 0));;
  subscriber ← sys (ZmqSocket false);
  assert_ (negb (subscriber =? 0));;
  res0 ← sys_lift (match res with [] => Err OutOfBounds | r :: _ => Ok r end);
  r ← sys (ZmqConnect res0);
  if negb (r =? 0) then
    sys_lift (log_debug (bs "receiver | run | zmq_connect error."));; mret false
  else
    sys_lift (log_debug (bs "receiver : [run], subscriber : " ++ res0));;
    r ← sys ZmqSubscribe;
    if negb (r =? 0) then
      sys_lift (log_debug (bs "receiver | run | zmq_setsockopt error."));; mret false
    else mret true.

(** ** [stage_control::run] *)

(** One round of the loop, for the value that [getRunnningWorkerNum] returns. *)
Definition control_round (n : Z) : sys_prog unit :=
  sys_lift (log_debug (bs "stage_control : worker_pool [worker_num=" ++ dec n ++ bs "]"));;
  sys_ (Sleep 3).
Fixpoint control_rounds (ns : list Z) : sys_prog unit :=
  match ns with [] => mret () | n :: ns => control_round n;; control_rounds ns end.

(** [sc]: NULL, or the field [running], which nothing changes; the rounds that
    the loop has made. *)
Definition control_run (sc : option bool) (ns : list Z) : sys_prog unit :=
  match sc with
  | None => sys_lift (log_debug (bs "stage_control : [run]. arg=NULL"))
  | Some running =>
      sys_lift (log_debug (bs "stage_control : " ++ if running then bs "running" else bs "stopping"));;
      if running then control_rounds ns else mret ()
  end.

(** ** [stage::init] *)

(** [thread_worker_pool::start]: one [pthread_create] per worker. *)
Fixpoint create_threads (n : nat) : sys_prog unit :=
  match n with O => mret () | S n => sys_ PthreadCreate;; create_threads n end.

(** The sender, the resources that the receiver gets, and the tasks that are
    pushed, in this order: the sender's [init] is part of [setAddr]. *)
Definition stage_init (resources : list bytes) (des : bytes) (errno : Z) (err : bytes) :
    sys_prog (sender * list bytes * list (@queue_element stage_task unit)) :=
  sd ← sender_init errno err (setDestination des sender_new);
  create_threads (Z.to_nat DEFAULT_WORKER_NUM);;
  mret (sd, resources, init_tasks).

(** ** Lemmas *)

Lemma create_threads_ok n rs :
  (n ≤ length rs)%nat → create_threads n rs = (replicate n PthreadCreate, Ok ((), drop n rs)).
Proof.
  revert rs; induction n as [|n IH]; intros [|r rs] Hl; simpl in Hl; try lia; [done..|].
  cbn [create_threads]. rewrite sys_call_bind_, IH by lia. done.
Qed.

(** ** Properties *)

(** How [stage::init] begins. If ZeroMQ gives no context or no socket, the
    assertions end the process; if the destination cannot be bound, it sleeps
    for three seconds and exits; otherwise the sender has its socket, then 20
    threads are created, and the three tasks come last. Destinations of at most
    97 bytes do not overflow the log line. *)
Theorem stage_init_effects res des errno err ctx sock bind rs :
  no_nul des → (length des ≤ 97)%nat → 0 ≤ errno ≤ 999 → no_nul err → (length err ≤ 76)%nat →
  (20 ≤ length rs)%nat →
  stage_init res des errno err (ctx :: sock :: bind :: rs)
  = if ctx =? 0 then ([ZmqCtxNew], Err Aborted)
    else if sock =? 0 then ([ZmqCtxNew; ZmqSocket true], Err Aborted)
    else if bind =? 0 then
      ([ZmqCtxNew; ZmqSocket true; ZmqBind des] ++ replicate 20 PthreadCreate,
       Ok ((Sd true (Val sock) des, res, init_tasks), drop 20 rs))
    else ([ZmqCtxNew; ZmqSocket true; ZmqBind des; Sleep 3; Exit (-1)], Err Aborted).
Proof.
  intros Hd Hld Hn He Hle Hrs. destruct (dec_small errno Hn) as [Hno Hlen].
  set (init := sender_init errno err (setDestination des sender_new)).
  assert (init (ctx :: sock :: bind :: rs)
    = if ctx =? 0 then ([ZmqCtxNew], Err Aborted)
      else if sock =? 0 then ([ZmqCtxNew; ZmqSocket true], Err Aborted)
      else if bind =? 0 then ([ZmqCtxNew; ZmqSocket true; ZmqBind des], Ok (Sd true (Val sock) des, rs))
      else ([ZmqCtxNew; ZmqSocket true; ZmqBind des; Sleep 3; Exit (-1)], Err Aborted)) as Hi.
  { unfold init, sender_init. rewrite sys_call_bind, sys_assert. destruct (ctx =? 0); [done|]. cbn [negb].
    rewrite sys_call_bind, sys_assert. destruct (sock =? 0); [done|]. cbn [negb].
    rewrite sys_call_bind. cbn [sd_addr setDestination sd_running sender_new].
    rewrite sys_log by (no_nul || (rewrite length_app; simpl; lia)).
    destruct (bind =? 0); [done|]. cbn [negb].
    generalize dependent (dec errno). intros d Hno Hlen.
    rewrite sys_log by (no_nul || (rewrite !length_app; simpl; lia)).
    destruct rs; [simpl in Hrs; lia|done]. }
  unfold stage_init. fold init. unfold mbind at 1, sys_bind at 1. rewrite Hi.
  destruct (ctx =? 0), (sock =? 0), (bind =? 0); try done.
  by rewrite (sys_bind_done _ _ _ _ _ _ (create_threads_ok _ rs Hrs)).
Qed.

(** The head of [receiver::run] on every branch: without a connection or a
    subscription the task ends (and nobody looks at [running]); resources are
    assumed to be there. *)
Theorem receiver_setup_effects res0 res ctx sock conn sub rs :
  no_nul res0 → (length res0 ≤ 87)%nat →
  receiver_setup (res0 :: res) (ctx :: sock :: conn :: sub :: rs)
  = (if ctx =? 0 then ([ZmqCtxNew], Err Aborted)
     else if sock =? 0 then ([ZmqCtxNew; ZmqSocket false], Err Aborted)
     else if conn =? 0 then
       ([ZmqCtxNew; ZmqSocket false; ZmqConnect res0; ZmqSubscribe], Ok (bool_decide (sub = 0), rs))
     else ([ZmqCtxNew; ZmqSocket false; ZmqConnect res0], Ok (false, sub :: rs)))
  ∧ (ctx ≠ 0 → sock ≠ 0 →
     receiver_setup [] (ctx :: sock :: conn :: sub :: rs) = ([ZmqCtxNew; ZmqSocket false], Err OutOfBounds)).
Proof.
  intros Hn Hl. split.
  - unfold receiver_setup. rewrite sys_call_bind, sys_assert. destruct (ctx =? 0); [done|]. cbn [negb].
    rewrite sys_call_bind, sys_assert. destruct (sock =? 0); [done|]. cbn [negb].
    assert (∀ B (k : bytes → sys_prog B) rs, (sys_lift (Ok res0) ≫= k) rs = k res0 rs) as ->.
    { intros B k rs'. unfold sys_lift, mbind, sys_bind. cbn. by destruct (k res0 rs'). }
    rewrite sys_call_bind. destruct (conn =? 0); cbn [negb]; [|by rewrite sys_log by (no_nul || vm_compute; lia)].
    rewrite sys_log by (no_nul || (rewrite length_app; simpl; lia)). rewrite sys_call_bind.
    destruct (Z.eqb_spec sub 0) as [->|Hs]; cbn [negb]; [done|].
    rewrite sys_log by (no_nul || vm_compute; lia). by rewrite bool_decide_eq_false_2.
  - intros Hc Hs. unfold receiver_setup. rewrite sys_call_bind, sys_assert.
    replace (ctx =? 0) with false by lia. cbn [negb]. rewrite sys_call_bind, sys_assert.
    replace (sock =? 0) with false by lia. done.
Qed.

(** [stage_control::run] never ends by itself, and logs counters of a pool
    without a fault, for as many rounds as there are. *)
Theorem control_run_rounds ns rs :
  Forall (λ n, 0 ≤ n ≤ 999) ns → (length ns ≤ length rs)%nat →
  control_run (Some true) ns rs = (replicate (length ns) (Sleep 3), Ok ((), drop (length ns) rs)).
Proof.
  intros Hns Hl. unfold control_run. rewrite sys_log by (no_nul || vm_compute; lia).
  revert rs Hl. induction Hns as [|n ns Hn _ IH]; intros [|r rs] Hl; simpl in Hl; try lia; [done..|].
  assert (control_round n (r :: rs) = ([Sleep 3], Ok ((), rs))) as Hr.
  { destruct (dec_small n Hn) as [Hno Hlen]. unfold control_round. generalize dependent (dec n). intros d Hno Hlen.
    by rewrite sys_log by (no_nul || (rewrite !length_app; simpl; lia)). }
  cbn [control_rounds]. rewrite (sys_bind_done _ _ _ _ _ _ Hr), IH by lia. done.
Qed.

(** ** Witnesses *)

Definition demo_answers : list Z := replicate 20 0.

Lemma stage_init_effects_witness :
  stage_init [bs "tcp://localhost:5667"] (bs "tcp://*:5668") 98 (bs "Address already in use") (1 :: 2 :: 0 :: demo_answers)
  = ([ZmqCtxNew; ZmqSocket true; ZmqBind (bs "tcp://*:5668")] ++ replicate 20 PthreadCreate,
     Ok ((Sd true (Val 2) (bs "tcp://*:5668"), [bs "tcp://localhost:5667"], init_tasks), []))
  ∧ stage_init [] [] 98 (bs "Address already in use") (1 :: 2 :: -1 :: demo_answers)
    = ([ZmqCtxNew; ZmqSocket true; ZmqBind []; Sleep 3; Exit (-1)], Err Aborted).
Proof.
  split.
  - apply (stage_init_effects [bs "tcp://localhost:5667"] (bs "tcp://*:5668") 98 (bs "Address already in use") 1 2 0
      demo_answers); [no_nul|vm_compute; lia|lia|no_nul|vm_compute; lia|vm_compute; lia].
  - apply (stage_init_effects [] [] 98 (bs "Address already in use") 1 2 (-1) demo_answers);
      [no_nul|vm_compute; lia|lia|no_nul|vm_compute; lia|vm_compute; lia].
Defined.

Lemma receiver_setup_effects_witness :
  receiver_setup [bs "tcp://localhost:5667"] [1; 2; 0; 0]
  = ([ZmqCtxNew; ZmqSocket false; ZmqConnect (bs "tcp://localhost:5667"); ZmqSubscribe], Ok (true, [])).
Proof.
  apply (receiver_setup_effects (bs "tcp://localhost:5667") [] 1 2 0 0 []); [no_nul|vm_compute; lia].
Defined.

Lemma control_run_rounds_witness : control_run (Some true) [3; 20] [0; 0] = ([Sleep 3; Sleep 3], Ok ((), [])).
Proof. apply (control_run_rounds [3; 20] [0; 0]); [repeat constructor; lia|simpl; lia]. Defined.
