(* ===== verification/StageRun.v ===== *)
(** * A stage that runs: stage.cpp, receiver.cpp, stage_handler.cpp and the pool

    The whole of a stage as one machine: the main thread, which pushes the three
    tasks of [stage::init] and then calls [setHandler]; the workers; the
    receiver's queue between [receiver::run] and the handler's loop
    ([Receiver.rnext]); and the tasks [handlerFunc] that the loop pushes, which
    read the loop's element [ie] without a lock.  What ZeroMQ delivers and
    answers is in the moves, and so is the schedule. *)

From S2P Require Import Prelude JobQueue WorkerPool Receiver Stage.
Open Scope Z_scope.

(** ** State *)

Inductive callback := Receiver_run | Control_run | Handler_run | Handler_func.
#[export] Instance callback_eq : EqDecision callback.
Proof. solve_decision. Defined.

Abbreviation task := (@queue_element callback unit).
Definition task_for (cb : callback) : task := Qe (Some cb) tt.

(** Where a task is: before the loop of [receiver::run] and in it; in the loop of
    [stage_control::run]; before the loop of [stage_handler::run] and in it;
    [handlerFunc] in the handler function or at its answer, which may point into
    [ie], and with an element of its own made of it; at the end. *)
Inductive frame :=
  | RcStart | RcLoop
  | ScLoop
  | ShStart | ShLoop
  | HfCall | HfSend (reply : IElement)
  | Done.

Definition fresh (qe : task) : frame :=
  match _cb qe with
  | Some Receiver_run => RcStart
  | Some Control_run => ScLoop
  | Some Handler_run => ShStart
  | Some Handler_func => HfCall
  | None => Done
  end.

(** The loop of the handler: at or in [fetchOne]; before the assignment to [ie];
    before [wp->run]; in its [push]. *)
Inductive hpc := AtFetch | Got (ie : IElement) | AtPush | InPush.

Section stage_run.
Context {F P : Type}.
Variable call : F → bytes → outcome (option bytes).
Context {Q : Type} `{!AtomicQueue (A := task) Q}.

Inductive boot_step := BPush (qe : task) | BSet (fn : @Function_ F P).

Record ssys := Ss {
  boot : list boot_step;              (* what the main thread has still to do *)
  sh : @stage_handler F P;
  loop : hpc;
  rs : @rstate IElement;
  wp : @worker_pool callback unit Q;
  frames : gmap nat frame }.

Definition set_boot (b : list boot_step) (s : ssys) : ssys := Ss b (sh s) (loop s) (rs s) (wp s) (frames s).
Definition set_sh (h : stage_handler) (s : ssys) : ssys := Ss (boot s) h (loop s) (rs s) (wp s) (frames s).
Definition set_loop (l : hpc) (s : ssys) : ssys := Ss (boot s) (sh s) l (rs s) (wp s) (frames s).
Definition set_rs (r : rstate) (s : ssys) : ssys := Ss (boot s) (sh s) (loop s) r (wp s) (frames s).
Definition set_wp (w : worker_pool) (s : ssys) : ssys := Ss (boot s) (sh s) (loop s) (rs s) w (frames s).
Definition set_frames (fs : gmap nat frame) (s : ssys) : ssys := Ss (boot s) (sh s) (loop s) (rs s) (wp s) fs.
Definition set_frame (t : nat) (fr : frame) (s : ssys) : ssys := set_frames (<[t := fr]> (frames s)) s.
Definition set_ie (ie : IElement) (h : @stage_handler F P) : @stage_handler F P :=
  Sh (sh_fun h) (rec_set h) (sh_running h) (sd_set h) ie.

(** [stage::init] from [wp->start()] on, and [runStage] behind it. *)
Definition init_boot (handler : F) : list boot_step :=
  [BPush (task_for Receiver_run); BPush (task_for Control_run); BPush (task_for Handler_run);
   BSet (setFunction (Some handler) Function_default)].
Definition stage_started (handler : F) (q : Q) : ssys :=
  Ss (init_boot handler) stage_handler_new AtFetch rinit (started DEFAULT_WORKER_NUM None q) ∅.

(** ** Moves *)

Inductive smove :=
  | Boot
  | Pool (m : @pmove callback unit)
  | Setup (t : nat) (running : bool)              (* [receiver_setup] in worker [t] *)
  | RecvMsg (t : nat) (m : option bytes)          (* [zmq_recv] returns a message, or -1 *)
  | RcGo (t : nat)
  | Start (t : nat)                               (* the head of [stage_handler::run] *)
  | ShGo (t : nat)
  | Wake                                          (* a spurious wake-up in [fetchOne] *)
  | HfGo (t : nat)                                (* the handler function has returned, its answer is copied *)
  | Send (t : nat) (ret : Z) (eagain : bool) (err : bytes).

Inductive sevent :=
  | PoolDid (e : @pevent callback unit)
  | Received_ (ie : IElement)
  | Fetched_ (ie : IElement)
  | Took (ie : IElement)                          (* assigned to [ie] *)
  | Ran (buf : bytes)                             (* the handler function was given [buf] *)
  | Sent (data : bytes)
  | Tau.

(** The task that worker [t] runs. *)
Definition frame_at (t : nat) (s : ssys) : option frame :=
  match workers (wp s) !! t, frames s !! t with Some (WRun _), Some fr => Some fr | _, _ => None end.

Definition main_thread (s : ssys) : nat := length (workers (wp s)).

Definition boot_next (s : ssys) : option (ssys * sevent) :=
  match boot s with
  | BPush qe :: b =>
      '(w, e) ← pnext (wp s) (InQueue (Call (main_thread s) (Push qe)));
      Some (set_boot b (set_wp w s), PoolDid e)
  | BSet fn :: b =>
      if is_idle (main_thread s) (jq (wp s)) then Some (set_boot b (set_sh (setHandler fn (sh s)) s), Tau) else None
  | [] => None
  end.

Definition pool_move (m : @pmove callback unit) (s : ssys) : option (ssys * sevent) :=
  '(w, e) ← pnext (wp s) m;
  let s' := set_wp w s in
  match e with
  | QEvent (ECall _ (Push _)) => None
  | QEvent (ERet t None) =>
      match frames s !! t, loop s with
      | Some ShLoop, InPush => Some (set_loop AtFetch s', PoolDid e)
      | _, _ => Some (s', PoolDid e)
      end
  | Begin t qe => Some (set_frame t (fresh qe) s', PoolDid e)
  | End_ t _ => match frames s !! t with Some Done => Some (set_frames (delete t (frames s)) s', PoolDid e) | _ => None end
  | _ => Some (s', PoolDid e)
  end.

(** A step of the receiver's queue. *)
Definition queue_step (m : @rmove IElement) (s : ssys) : option (ssys * @revent IElement) :=
  '(r, e) ← rnext (rs s) m; Some (set_rs r s, e).

Definition recv_step (m : option bytes) (s : ssys) : option (outcome (ssys * sevent)) :=
  let received := match m with
                  | Some m => receive (Z.of_nat (length m)) (recv_buffer m)
                  | None => receive (-1) (recv_buffer [])
                  end in
  match prod (rs s), received with
  | PRecv, Ok (Some ie) => '(s, _) ← queue_step (Recv ie) s; Some (Ok (s, Received_ ie))
  | PRecv, Ok None => Some (Ok (s, Tau))
  | PRecv, Err f => Some (Err f)
  | _, _ => None
  end.

(** Is a worker in a handler function, or at the copy of its answer, which read
    [ie]? *)
Definition reading_ie (s : ssys) : bool :=
  existsb (λ t, match frame_at t s with Some HfCall => true | _ => false end) (seq 0 (main_thread s)).

Definition fetch_step (s : ssys) : option (outcome (ssys * sevent)) :=
  '(s, e) ← queue_step (match cons_ (rs s) with CIdle => Fetch | _ => Cons end) s;
  match e with
  | Fetched ie => Some (ie ← fetchOne_return ie; Ok (set_loop (Got ie) s, Fetched_ ie))
  | _ => Some (Ok (s, Tau))
  end.

(** [sh->ie = ...], which is a data race with a handler function that runs. *)
Definition assign_step (ie : IElement) (s : ssys) : outcome (ssys * sevent) :=
  if reading_ie s then Err DataRace else Ok (set_loop AtPush (set_sh (set_ie ie (sh s)) s), Took ie).

Definition loop_step (t : nat) (s : ssys) : option (outcome (ssys * sevent)) :=
  match loop s with
  | AtFetch => fetch_step s
  | Got ie => Some (assign_step ie s)
  | AtPush =>
      '(w, e) ← pnext (wp s) (InQueue (Call t (Push (task_for Handler_func))));
      Some (Ok (set_loop InPush (set_wp w s), PoolDid e))
  | InPush => None
  end.

Definition call_step (t : nat) (s : ssys) : outcome (ssys * sevent) :=
  match loop s with
  | Got _ => Err DataRace
  | _ => reply ← handler_reply call (sh s);
         Ok (set_frame t (match reply with None => Done | Some ie => HfSend ie end) s, Ran (element (sh_ie (sh s))))
  end.

Definition snext (s : ssys) (m : smove) : option (outcome (ssys * sevent)) :=
  match m with
  | Boot => r ← boot_next s; Some (Ok r)
  | Pool m => r ← pool_move m s; Some (Ok r)
  | Wake => '(s, _) ← queue_step WakeUp s; Some (Ok (s, Tau))
  | Setup t b => match frame_at t s with
                 | Some RcStart => Some (Ok (set_frame t (if b : bool then RcLoop else Done) s, Tau))
                 | _ => None
                 end
  | RecvMsg t m => match frame_at t s with Some RcLoop => recv_step m s | _ => None end
  | RcGo t => match frame_at t s with
              | Some RcLoop => '(s, _) ← queue_step Prod s; Some (Ok (s, Tau))
              | _ => None
              end
  | Start t => match frame_at t s with
               | Some ShStart =>
                   Some (b ← run_enters (Some (sh s)); Ok (set_frame t (if b : bool then ShLoop else Done) s, Tau))
               | _ => None
               end
  | ShGo t => match frame_at t s with Some ShLoop => loop_step t s | _ => None end
  | HfGo t => match frame_at t s with Some HfCall => Some (call_step t s) | _ => None end
  | Send t ret eagain err =>
      match frame_at t s with
      | Some (HfSend ie) => Some (data ← handler_send ret eagain err ie; Ok (set_frame t Done s, Sent data))
      | _ => None
      end
  end.

Definition srun := machine_run snext.
Definition sreach := machine_reach snext.

(** ** What a run has done *)

Definition pool_events (es : list sevent) : list (@pevent callback unit) :=
  omap (λ e, match e with PoolDid e => Some e | _ => None end) es.
Definition received_ (es : list sevent) : list IElement :=
  omap (λ e, match e with Received_ ie => Some ie | _ => None end) es.
Definition took (es : list sevent) : list IElement :=
  omap (λ e, match e with Took ie => Some ie | _ => None end) es.
Definition ran (es : list sevent) : list bytes :=
  omap (λ e, match e with Ran b => Some b | _ => None end) es.
Definition sent (es : list sevent) : list bytes :=
  omap (λ e, match e with Sent b => Some b | _ => None end) es.

Lemma pool_events_app es es' : pool_events (es ++ es') = pool_events es ++ pool_events es'.
Proof. apply omap_app. Qed.
Lemma took_app es es' : took (es ++ es') = took es ++ took es'.
Proof. apply omap_app. Qed.
Lemma received_app es es' : received_ (es ++ es') = received_ es ++ received_ es'.
Proof. apply omap_app. Qed.
Lemma ran_app es es' : ran (es ++ es') = ran es ++ ran es'.
Proof. apply omap_app. Qed.

(** ** What holds in every reachable state *)

Definition boot_tasks (b : list boot_step) : list task :=
  omap (λ x, match x with BPush qe => Some qe | BSet _ => None end) b.
Definition at_push (l : hpc) : nat := match l with AtPush => 1 | _ => 0 end.
Definition got (l : hpc) : list IElement := match l with Got ie => [ie] | _ => [] end.

(** What task a frame belongs to. *)
Definition fits (fr : frame) (qe : task) : Prop :=
  match fr with
  | RcStart | RcLoop => _cb qe = Some Receiver_run
  | ScLoop => _cb qe = Some Control_run
  | ShStart | ShLoop => _cb qe = Some Handler_run
  | HfCall | HfSend _ => _cb qe = Some Handler_func
  | Done => True
  end.
Definition frames_fit (s : ssys) : Prop :=
  map_Forall (λ t fr, ∃ qe, workers (wp s) !! t = Some (WRun qe) ∧ fits fr qe) (frames s).

(** The pool's part: the tasks whose push has begun are the first ones of the
    main thread, and one for every element that was assigned to [ie], but for
    the last one before its push. *)
Definition pushes_ok (s0 s : ssys) (es : list sevent) : Prop :=
  (∃ pms, prun (wp s0) pms = Some (wp s, pool_events es))
  ∧ ∃ b n, b ++ boot_tasks (boot s) = boot_tasks (boot s0)
      ∧ called (omap queue_event (pool_events es)) ≡ₚ b ++ replicate n (task_for Handler_func)
      ∧ (n + at_push (loop s) = length (took es))%nat.

(** The receiver's part: nothing is lost or out of order up to [ie]. *)
Definition messages_ok (s : ssys) (es : list sevent) : Prop :=
  rinv (rs s) ∧ received_ es = took es ++ got (loop s) ++ in_hand (rs s).

Definition sinv (s0 s : ssys) (es : list sevent) : Prop :=
  pushes_ok s0 s es ∧ messages_ok s es ∧ frames_fit s.

Lemma frame_at_run t s fr : frame_at t s = Some fr → frames s !! t = Some fr ∧ ∃ qe, workers (wp s) !! t = Some (WRun qe).
Proof. unfold frame_at. intros. repeat (case_match; simplify_eq). eauto. Qed.

Lemma fresh_fits qe : fits (fresh qe) qe.
Proof. unfold fresh. destruct (_cb qe) as [[]|] eqn:E; by rewrite ?E. Qed.

(** A task that goes on with another frame of its own. *)
Lemma set_frame_fit t fr fr' s :
  frames_fit s → frame_at t s = Some fr → (∀ qe, fits fr qe → fits fr' qe) → frames_fit (set_frame t fr' s).
Proof.
  intros Hf [Ht _]%frame_at_run Hi. apply map_Forall_insert_2; [|done].
  destruct (Hf _ _ Ht) as (qe & Hw & Hq). exists qe. auto.
Qed.

(** Moves of the pool, apart from calls of [push]. *)
Lemma spool_move_inv m s s' e :
  pool_move m s = Some (s', e) →
  ∃ pe, pnext (wp s) m = Some (wp s', pe) ∧ e = PoolDid pe ∧ (∀ t qe, pe ≠ QEvent (ECall t (Push qe)))
    ∧ boot s' = boot s ∧ sh s' = sh s ∧ rs s' = rs s ∧ (loop s' = loop s ∨ loop s = InPush ∧ loop s' = AtFetch)
    ∧ match pe with
      | Begin t qe => frames s' = <[t := fresh qe]> (frames s)
      | End_ t qe => frames s !! t = Some Done ∧ frames s' = delete t (frames s)
      | _ => frames s' = frames s
      end.
Proof.
  unfold pool_move. intros ([w pe] & Hn & H)%bind_Some. exists pe. rewrite Hn.
  repeat case_match; simplify_eq; split_and!; eauto.
Qed.

Lemma pool_move_fit m s s' e : pool_move m s = Some (s', e) → frames_fit s → frames_fit s'.
Proof.
  intros (pe & Hn & _ & _ & _ & _ & _ & _ & Hf)%spool_move_inv Hi t fr Ht.
  pose proof (pnext_running _ _ _ _ t Hn) as Hr.
  destruct pe as [pe|u qe|u qe|u qe|]; rewrite Hf in Ht || destruct Hf as [_ Hf]; try rewrite Hf in Ht;
    try (by destruct (Hi _ _ Ht) as (qe' & Hw & Hq); exists qe'; split; [apply Hr|]).
  - destruct Hr as (Hu & Hne & _). apply lookup_insert_Some in Ht as [[<- <-]|[Hut Ht]]; [by exists qe; split; [|apply fresh_fits]|].
    destruct (Hi _ _ Ht) as (qe' & Hw & Hq). exists qe'. by rewrite Hne.
  - destruct Hr as [Hu Hne]. apply lookup_delete_Some in Ht as [Hut Ht].
    destruct (Hi _ _ Ht) as (qe' & Hw & Hq). exists qe'. by rewrite Hne.
Qed.

(** Moves outside of the pool. *)
Lemma pushes_quiet s0 s es s' e :
  pushes_ok s0 s es → wp s' = wp s → boot_tasks (boot s') = boot_tasks (boot s) → pool_events [e] = [] →
  at_push (loop s') = (at_push (loop s) + length (took [e]))%nat → pushes_ok s0 s' (es ++ [e]).
Proof.
  intros (Hr & b & n & Hb & Hc & Hn) Hw Hb' He Hl.
  unfold pushes_ok. rewrite Hw, pool_events_app, He, app_nil_r. split; [done|]. exists b, n. rewrite Hb'.
  split_and!; [done..|]. rewrite took_app, length_app. lia.
Qed.

(** Moves of the pool, that begin the pushes [x]. *)
Lemma pushes_pool s0 s es s' m pe b' k :
  pushes_ok s0 s es → pnext (wp s) m = Some (wp s', pe) →
  boot_tasks (boot s) = b' ++ boot_tasks (boot s') →
  called (omap queue_event [pe]) ≡ₚ b' ++ replicate k (task_for Handler_func) →
  at_push (loop s) = (k + at_push (loop s'))%nat → pushes_ok s0 s' (es ++ [PoolDid pe]).
Proof.
  intros ([pms Hr] & b & n & Hb & Hc & Hn) Hp Hb' Hc' Hl.
  unfold pushes_ok. rewrite pool_events_app. change (pool_events [PoolDid pe]) with [pe].
  split; [exists (pms ++ [m]); by eapply prun_snoc|].
  exists (b ++ b'), (n + k)%nat. rewrite <-app_assoc, <-Hb', took_app, app_nil_r, replicate_add.
  split_and!; [done| |lia]. unfold called in *. rewrite !omap_app, Hc, Hc'. rewrite <-!app_assoc. f_equiv. rewrite !app_assoc. f_equiv. apply Permutation_app_comm.
Qed.

Lemma rnext_silent (r : @rstate IElement) m r' e : rnext r m = Some (r', e) → m = Prod ∨ m = WakeUp → e = RTau.
Proof. unfold rnext. intros H [-> | ->]; repeat (case_match; simplify_eq); done. Qed.
Lemma rnext_fetch (r : @rstate IElement) m r' e :
  rnext r m = Some (r', e) → m = Fetch ∨ m = Cons → e = RTau ∨ ∃ ie, e = Fetched ie.
Proof. unfold rnext. intros H [-> | ->]; repeat (case_match; simplify_eq); eauto. Qed.
Lemma rnext_recv (r : @rstate IElement) ie r' e : rnext r (Recv ie) = Some (r', e) → e = Received ie.
Proof. unfold rnext. intros. by repeat (case_match; simplify_eq). Qed.

(** Moves that leave receiver and loop alone. *)
Lemma messages_same s es s' e :
  messages_ok s es → rs s' = rs s → got (loop s') = got (loop s) → received_ [e] = [] → took [e] = [] →
  messages_ok s' (es ++ [e]).
Proof.
  intros [Hi Hm] Hr Hl H1 H2. unfold messages_ok. by rewrite Hr, Hl, received_app, took_app, H1, H2, !app_nil_r.
Qed.

(** Moves of the receiver's queue. *)
Lemma messages_queue s es s' m re e :
  messages_ok s es → rnext (rs s) m = Some (rs s', re) → took [e] = [] → received_ [e] = received [re] →
  got (loop s') = got (loop s) ++ fetched [re] →
  messages_ok s' (es ++ [e]).
Proof.
  intros [Hi Hm] Hn Ht Hr Hg. destruct (rnext_inv _ _ _ _ Hi Hn) as [Hi' Hf]. split; [done|].
  rewrite received_app, took_app, Ht, Hr, Hm, app_nil_r, Hg, <-!app_assoc. by rewrite Hf.
Qed.

(** Steps of a task outside of pool and queues. *)
Lemma sinv_frame s0 s es t fr fr' e :
  sinv s0 s es → frame_at t s = Some fr → (∀ qe, fits fr qe → fits fr' qe) →
  pool_events [e] = [] → took [e] = [] → received_ [e] = [] → sinv s0 (set_frame t fr' s) (es ++ [e]).
Proof.
  intros (Hp & Hm & Hf) Ht Hq H1 H2 H3. split_and!.
  - eapply pushes_quiet; [done..|]. rewrite H2. simpl. lia.
  - by eapply messages_same.
  - by eapply set_frame_fit.
Qed.

(** Silent steps of the receiver's queue. *)
Lemma sinv_queue s0 s es m s' re e :
  sinv s0 s es → queue_step m s = Some (s', re) → fetched [re] = [] →
  pool_events [e] = [] → took [e] = [] → received_ [e] = received [re] → sinv s0 s' (es ++ [e]).
Proof.
  intros (Hp & Hm & Hf) H H0 H1 H2 H3. apply bind_Some in H as ([r e'] & Hn & [= <- <-]). split_and!.
  - eapply pushes_quiet; [done..|]. rewrite H2. simpl. lia.
  - eapply messages_queue; [done|exact Hn|done|done|]. by rewrite H0, app_nil_r.
  - done.
Qed.

Lemma sinv_boot s0 s es s' e : sinv s0 s es → boot_next s = Some (s', e) → sinv s0 s' (es ++ [e]).
Proof.
  intros (Hp & Hm & Hf) H. unfold boot_next in H. destruct (boot s) as [|[qe|fn] b] eqn:Hb; [done|..].
  - apply bind_Some in H as ([w pe] & Hn & [= <- <-]). pose proof (pnext_call _ _ _ _ _ Hn) as ->. split_and!.
    + eapply (pushes_pool _ _ _ _ _ _ [qe] 0); [done|exact Hn|by rewrite Hb|done|done].
    + by eapply messages_same.
    + intros t fr Ht. destruct (Hf _ _ Ht) as (qe' & Hw & Hq). exists qe'. split; [|done].
      by apply (pnext_running _ _ _ _ t Hn).
  - case_match; [|done]. simplify_eq. split_and!; [|by eapply messages_same|done].
    eapply pushes_quiet; [done|done|by rewrite Hb|done|]. cbn. lia.
Qed.

Lemma sinv_pool s0 s es m s' e : sinv s0 s es → pool_move m s = Some (s', e) → sinv s0 s' (es ++ [e]).
Proof.
  intros (Hp & Hm & Hf) H. pose proof (pool_move_fit _ _ _ _ H Hf) as Hf'.
  apply spool_move_inv in H as (pe & Hn & -> & Hpe & Hb & Hs & Hr & Hl & _). split_and!; [..|done].
  - eapply (pushes_pool _ _ _ _ _ _ [] 0); [done|done|by rewrite Hb| |by destruct Hl as [-> |[-> ->]]].
    destruct pe as [[|t [qe|]| |]| | | |]; try done. by destruct (Hpe t qe).
  - eapply messages_same; [done|done| |done|done]. by destruct Hl as [-> |[-> ->]].
Qed.

Lemma sinv_loop s0 s es t s' e :
  sinv s0 s es → loop_step t s = Some (Ok (s', e)) → sinv s0 s' (es ++ [e]).
Proof.
  intros Hi H. pose proof Hi as (Hp & Hm & Hf). unfold loop_step in H. destruct (loop s) as [|ie| |] eqn:Hl; [..|done].
  - unfold fetch_step in H. apply bind_Some in H as ([s1 re] & Hq & H).
    pose proof Hq as ([r re'] & Hn & [= <- <-])%bind_Some.
    destruct (rnext_fetch _ _ _ _ Hn) as [-> |[ie ->]]; [by destruct (cons_ (rs s)); auto|..].
    + simplify_eq. by eapply sinv_queue.
    + apply (inj Some) in H. ok_inv. split_and!; [|eapply messages_queue; [done|exact Hn|done|done|]|done].
      * eapply pushes_quiet; [done..|]. by rewrite Hl.
      * cbn. rewrite Hl. unfold fetchOne_return in H0. by ok_inv.
  - apply (inj Some) in H. unfold assign_step in H. case_match; ok_inv. simplify_eq. split_and!; [| |done].
    + eapply pushes_quiet; [done..|]. rewrite Hl. cbn. lia.
    + destruct Hm as [Hi' Hm]. split; [done|]. rewrite received_app, took_app, Hm, Hl. cbn. by rewrite app_nil_r, <-app_assoc.
  - apply bind_Some in H as ([w pe] & Hn & [= <- <-]). pose proof (pnext_call _ _ _ _ _ Hn) as ->. split_and!.
    + eapply (pushes_pool _ _ _ _ _ _ [] 1); [done|exact Hn|done|done|by rewrite Hl].
    + eapply messages_same; [done|done|by rewrite Hl|done|done].
    + intros u fr Ht. destruct (Hf _ _ Ht) as (qe' & Hw & Hq). exists qe'. split; [|done].
      by apply (pnext_running _ _ _ _ u Hn).
Qed.

Lemma sinv_step s0 s es m s' e : sinv s0 s es → snext s m = Some (Ok (s', e)) → sinv s0 s' (es ++ [e]).
Proof.
  intros Hi H. destruct m as [|m|t b|t m|t|t|t| |t|t ret ea err]; simpl in H.
  - apply bind_Some in H as ([s1 e1] & H & [= <- <-]). by eapply sinv_boot.
  - apply bind_Some in H as ([s1 e1] & H & [= <- <-]). by eapply sinv_pool.
  - destruct (frame_at t s) as [[]|] eqn:Ht; simplify_eq. eapply sinv_frame; [done|exact Ht|by destruct b|done..].
  - destruct (frame_at t s) as [[]|]; [done| |done..]. unfold recv_step in H.
    destruct (prod (rs s)); [|done..]. destruct (match m with Some _ => _ | None => _ end) as [[ie|]| |]; [| |done..].
    + apply bind_Some in H as ([s1 re] & Hq & [= <- <-]). pose proof Hq as ([r re'] & Hn & [= <- <-])%bind_Some.
      apply rnext_recv in Hn as ->. by eapply sinv_queue.
    + simplify_eq. destruct Hi as (Hp & Hm & Hf). split_and!; [|by eapply messages_same|done].
      eapply pushes_quiet; [done..|]. cbn. lia.
  - destruct (frame_at t s) as [[]|]; [done| |done..]. apply bind_Some in H as ([s1 re] & Hq & [= <- <-]).
    pose proof Hq as ([r re'] & Hn & [= <- <-])%bind_Some. apply rnext_silent in Hn as ->; [|auto]. by eapply sinv_queue.
  - destruct (frame_at t s) as [[]|] eqn:Ht; [done|done|done| |done..]. apply (inj Some) in H. ok_inv. simplify_eq.
    eapply sinv_frame; [done|exact Ht|by destruct v|done..].
  - destruct (frame_at t s) as [[]|]; [done|done|done|done| |done..]. by eapply sinv_loop.
  - apply bind_Some in H as ([s1 re] & Hq & [= <- <-]). pose proof Hq as ([r re'] & Hn & [= <- <-])%bind_Some.
    apply rnext_silent in Hn as ->; [|auto]. by eapply sinv_queue.
  - destruct (frame_at t s) as [[]|] eqn:Ht; try done. apply (inj Some) in H. unfold call_step in H.
    assert (∃ res, handler_reply call (sh s) = Ok res
      ∧ s' = set_frame t (match res with None => Done | Some res => HfSend res end) s ∧ e = Ran (element (sh_ie (sh s))))
      as (res & _ & -> & ->) by (destruct (loop s); ok_inv; simplify_eq; eauto).
    eapply sinv_frame; [done|exact Ht|by destruct res|done..].
  - destruct (frame_at t s) as [[]|] eqn:Ht; try done. apply (inj Some) in H. ok_inv. simplify_eq.
    by eapply sinv_frame.
Qed.

Lemma sinv_start h q : sinv (stage_started h q) (stage_started h q) [].
Proof.
  split_and!; [split; [by exists []|]|split; [by split_and!|done]|apply map_Forall_empty].
  by exists [], 0%nat.
Qed.

Lemma sreach_inv h q ms s es : sreach (stage_started h q) ms s es → sinv (stage_started h q) s es.
Proof. induction 1; [apply sinv_start|by eapply sinv_step]. Qed.

(** ** Counting tasks *)

Definition count (cb : callback) (l : list task) : nat := length (filter (λ qe, _cb qe = Some cb) l).
(** The tasks that have not ended. *)
Definition alive (s : ssys) : list task :=
  in_flight (wp s) ++ content (q_abs (jq (wp s))) ++ pushings (q_abs (jq (wp s))).
Definition runs (cb : callback) (t : nat) (s : ssys) : Prop :=
  ∃ qe, workers (wp s) !! t = Some (WRun qe) ∧ _cb qe = Some cb.
Definition ended_ (es : list sevent) : nat := count Handler_func (ended (pool_events es)).

Lemma count_app cb l l' : count cb (l ++ l') = (count cb l + count cb l')%nat.
Proof. unfold count. by rewrite filter_app, length_app. Qed.
Lemma count_replicate n : count Handler_func (replicate n (task_for Handler_func)) = n.
Proof.
  induction n as [|n IH]; [done|]. unfold count in *. cbn [replicate]. rewrite filter_cons_True by done. cbn [length]. by rewrite IH.
Qed.
Lemma count_perm cb l l' : l ≡ₚ l' → count cb l = count cb l'.
Proof. intros H. unfold count. by rewrite H. Qed.
Lemma count_replicate_ne cb n : cb ≠ Handler_func → count cb (replicate n (task_for Handler_func)) = 0%nat.
Proof.
  intros Hne. induction n as [|n IH]; [done|]. unfold count in *. cbn [replicate]. rewrite filter_cons_False; [done|].
  intros [= <-]. done.
Qed.

Lemma count_running cb (ws : list (@wpc callback unit)) t qe :
  ws !! t = Some (WRun qe) → _cb qe = Some cb → (1 ≤ count cb (omap held ws))%nat.
Proof.
  revert t; induction ws as [|w ws IH]; intros [|t] Ht Hcb; simplify_eq/=.
  - unfold count. rewrite filter_cons_True by done. simpl. lia.
  - specialize (IH _ Ht Hcb). destruct (held w); [|done]. unfold count in *. rewrite filter_cons. case_decide; simpl; lia.
Qed.

Lemma count_two cb (ws : list (@wpc callback unit)) t u qe qe' :
  ws !! t = Some (WRun qe) → ws !! u = Some (WRun qe') → _cb qe = Some cb → _cb qe' = Some cb → t ≠ u →
  (2 ≤ count cb (omap held ws))%nat.
Proof.
  revert t u; induction ws as [|w ws IH]; intros [|t] [|u] Ht Hu H1 H2 Hne; simplify_eq/=;
    [pose proof (count_running cb _ _ _ Hu H2)|pose proof (count_running cb _ _ _ Ht H1)|
     assert (2 ≤ count cb (omap held ws))%nat by (eapply (IH t u); congruence || done)];
    try (destruct (held w)); unfold count in *; rewrite ?filter_cons; repeat case_decide; simpl; try done; lia.
Qed.

Lemma runs_alive cb t s : runs cb t s → (1 ≤ count cb (alive s))%nat.
Proof.
  intros (qe & Ht & Hcb). unfold alive, in_flight. rewrite !count_app.
  pose proof (count_running cb _ _ _ Ht Hcb). lia.
Qed.
Lemma runs_once cb t u s : runs cb t s → runs cb u s → (count cb (alive s) ≤ 1)%nat → t = u.
Proof.
  intros (qe & Ht & H1) (qe' & Hu & H2) Hc. destruct (decide (t = u)) as [|Hne]; [done|].
  unfold alive, in_flight in Hc. rewrite !count_app in Hc. pose proof (count_two cb _ _ _ _ _ Ht Hu H1 H2 Hne). lia.
Qed.

(** The numbers of a reachable state. *)
Lemma task_counts h q s es :
  fresh_queue 21 q → sinv (stage_started h q) s es →
  (length (took es) = ended_ es + count Handler_func (alive s) + at_push (loop s))%nat
  ∧ ∀ cb, cb ≠ Handler_func → (count cb (alive s) ≤ 1)%nat.
Proof.
  intros Hq (([pms Hr] & b & n & Hb & Hc & Hn) & _ & _).
  pose proof (started_calls 20 None 21 q _ _ _ ltac:(unfold int_max; lia) Hq Hr) as Hp. rewrite Hc in Hp.
  assert (∀ cb, count cb b ≤ count cb (boot_tasks (init_boot h)))%nat as Hbb.
  { intros cb. change (boot_tasks (init_boot h)) with (boot_tasks (boot (stage_started h q))). rewrite <-Hb, count_app. lia. }
  split.
  - apply (count_perm Handler_func) in Hp. rewrite !count_app, count_replicate in Hp.
    specialize (Hbb Handler_func). change (count Handler_func (boot_tasks (init_boot h))) with 0%nat in Hbb.
    unfold ended_, alive. rewrite !count_app. lia.
  - intros cb Hne. apply (count_perm cb) in Hp. rewrite !count_app, (count_replicate_ne cb) in Hp by done.
    specialize (Hbb cb). unfold alive. rewrite !count_app.
    assert (count cb (boot_tasks (init_boot h)) ≤ 1)%nat by (destruct cb; [vm_compute; lia..|done]). lia.
Qed.

(** ** Messages that come one at a time *)

(** A message comes only when the tasks of all messages before it have ended. *)
Definition slow (s0 : ssys) (ms : list smove) : Prop :=
  ∀ ms1 t m ms2 s1 es1, ms = ms1 ++ RecvMsg t m :: ms2 → sreach s0 ms1 s1 es1 →
    length (received_ es1) = ended_ es1.

(** The same, by running. *)
Fixpoint slow_from (s : ssys) (es : list sevent) (ms : list smove) : bool :=
  match ms with
  | [] => true
  | m :: ms =>
      match m with RecvMsg _ _ => (length (received_ es) =? ended_ es)%nat | _ => true end
      && match snext s m with Some (Ok (s, e)) => slow_from s (es ++ [e]) ms | _ => true end
  end.

Lemma slow_from_slow s0 ms : slow_from s0 [] ms = true → slow s0 ms.
Proof.
  assert (∀ ms1 s es t m ms2 s1 es1, slow_from s es (ms1 ++ RecvMsg t m :: ms2) = true →
    srun s ms1 = Some (Ok (s1, es1)) → length (received_ (es ++ es1)) = ended_ (es ++ es1)) as H.
  { induction ms1 as [|m1 ms1 IH]; intros s es t m ms2 s1 es1 Hs Hr; simpl in Hs, Hr; apply andb_true_iff in Hs as [H1 H2].
    - simplify_eq. rewrite app_nil_r. by apply Nat.eqb_eq.
    - apply bind_Some in Hr as ([[s2 e]| |] & Hn & Hr); [|by case_match|done]. rewrite Hn in H2.
      apply bind_Some in Hr as ([[s3 es3]| |] & Hr & Hq); simplify_eq/=. rewrite (cons_middle e), app_assoc. by eapply IH. }
  intros Hs ms1 t m ms2 s1 es1 -> Hr%machine_reach_is_run. by apply (H ms1 s0 [] t m ms2 s1 es1).
Qed.

(** A task [handlerFunc] that has called the handler function. *)
Definition past_call (t : nat) (s : ssys) : Prop :=
  runs Handler_func t s ∧ ∃ fr, frames s !! t = Some fr ∧ fr ≠ HfCall.

(** No task [handlerFunc] is left; or there is one, before or behind its call. *)
Definition settled (s : ssys) (es : list sevent) : Prop :=
  length (took es) = ended_ es ∧ ran es = map element (took es).
Definition pending_ (s : ssys) (es : list sevent) : Prop :=
  length (took es) = S (ended_ es)
  ∧ ((map element (took es) = ran es ++ [element (sh_ie (sh s))] ∧ ∀ t, ¬ past_call t s)
     ∨ (ran es = map element (took es) ∧ ∃ t, past_call t s)).
Definition slow_inv (s : ssys) (es : list sevent) : Prop :=
  (length (received_ es) ≤ S (ended_ es))%nat ∧ (settled s es ∨ pending_ s es).

Lemma ended_snoc es e : ended_ (es ++ [e]) = (ended_ es + ended_ [e])%nat.
Proof. unfold ended_. rewrite pool_events_app. unfold ended. by rewrite omap_app, count_app. Qed.

(** Steps that neither receive, nor assign, nor call, nor end a handler's task. *)
Lemma slow_quiet s es s' e :
  slow_inv s es → received_ [e] = [] → took [e] = [] → ran [e] = [] → ended_ [e] = 0%nat →
  sh_ie (sh s') = sh_ie (sh s) → (∀ t, past_call t s' ↔ past_call t s) → slow_inv s' (es ++ [e]).
Proof.
  intros [Hle Hc] H1 H2 H3 H4 Hie Hp. unfold slow_inv, settled, pending_.
  rewrite received_app, took_app, ran_app, ended_snoc, H1, H2, H3, H4, !app_nil_r, Nat.add_0_r, Hie.
  split; [done|]. destruct Hc as [Hc|[Hl Hc]]; [by left|right]. split; [done|].
  destruct Hc as [[Hr Hn]|[Hr [t Ht]]]; [left; split; [done|]; intros t Ht%Hp; by eapply Hn|right].
  split; [done|]. exists t. by apply Hp.
Qed.

(** A step of a task's own that is not its call. *)
Lemma past_call_frame t fr fr' s :
  frames_fit s → frame_at t s = Some fr → fr ≠ HfCall → fr' ≠ HfCall →
  ∀ u, past_call u (set_frame t fr' s) ↔ past_call u s.
Proof.
  intros Hf [Ht _]%frame_at_run H1 H2 u. unfold past_call, runs. cbn. destruct (decide (t = u)) as [<-|Hne].
  - rewrite lookup_insert_eq. split; intros [? _]; (split; [done|eauto]).
  - by rewrite lookup_insert_ne.
Qed.

Lemma past_call_pool m s s' e :
  frames_fit s → pool_move m s = Some (s', e) → ended_ [e] = 0%nat → ∀ u, past_call u s' ↔ past_call u s.
Proof.
  intros Hf (pe & Hn & -> & _ & _ & _ & _ & _ & Hfr)%spool_move_inv He u. pose proof (pnext_running _ _ _ _ u Hn) as Hr.
  assert (frames s' = frames s → (∀ qe, workers (wp s) !! u = Some (WRun qe) → workers (wp s') !! u = Some (WRun qe)) →
    past_call u s' ↔ past_call u s) as Hsame.
  { intros E Hk. unfold past_call, runs. rewrite E. split; intros [(qe & Hw & Hq) (fr & Hu & Hfc)]; (split; [|eauto]).
    - destruct (Hf _ _ Hu) as (qe' & Hw' & _). pose proof (Hk _ Hw'). exists qe'. by simplify_eq.
    - exists qe. by split; [apply Hk|]. }
  destruct pe as [pe|v qe|v qe|v qe|]; auto; unfold past_call, runs.
  - destruct Hr as (Hv & Hne & Hno). rewrite Hfr. destruct (decide (u = v)) as [->|Huv].
    + rewrite lookup_insert_eq. split; [|intros [(qe' & Hw & _) _]; by destruct (Hno qe')].
      intros [(qe' & Hw & Hq) (fr & [= <-] & Hfc)]. simplify_eq. unfold fresh in Hfc. by rewrite Hq in Hfc.
    + by rewrite lookup_insert_ne, (Hne Huv).
  - destruct Hr as (Hv & Hne). destruct Hfr as [Hd ->]. destruct (decide (u = v)) as [->|Huv].
    + rewrite lookup_delete_eq. split; [by intros [_ (? & ? & _)]|]. intros [(qe' & Hw & Hq) _]. simplify_eq.
      unfold ended_, count in He. cbn in He. by rewrite decide_True in He.
    + by rewrite lookup_delete_ne, (Hne Huv).
Qed.

(** The end of a handler's task. *)
Lemma slow_end h q s es m s' e :
  fresh_queue 21 q → sinv (stage_started h q) s es → sinv (stage_started h q) s' (es ++ [e]) →
  slow_inv s es → pool_move m s = Some (s', e) → ended_ [e] ≠ 0%nat → slow_inv s' (es ++ [e]).
Proof.
  intros Hq Hi Hi' [Hle Hc] (pe & Hn & -> & _ & _ & _ & _ & _ & Hfr)%spool_move_inv He.
  destruct pe as [pe|v qe|v qe|v qe|]; try done. destruct (pnext_running _ _ _ _ 0 Hn) as [Hv _]. destruct Hfr as [Hd _].
  assert (_cb qe = Some Handler_func ∧ ended_ [PoolDid (End_ v qe)] = 1%nat) as [Hcb H1].
  { unfold ended_, count in *. cbn in *. case_decide; done. }
  assert (past_call v s) as Hp by (split; [by exists qe|by exists Done]).
  destruct (task_counts _ _ _ _ Hq Hi) as [Hcnt _]. pose proof (runs_alive _ _ _ (proj1 Hp)) as Hal.
  destruct Hc as [[Ht _]|[Ht Hc]]; [lia|].
  destruct Hc as [[_ Hno]|[Hr _]]; [by destruct (Hno v)|].
  unfold slow_inv, settled. rewrite received_app, took_app, ran_app, ended_snoc, H1, !app_nil_r.
  split; [cbn in *; lia|]. left. split; [cbn; lia|done].
Qed.

(** The call of the handler function. *)
Lemma slow_call h q s es t s' e :
  fresh_queue 21 q → sinv (stage_started h q) s es → slow_inv s es → frame_at t s = Some HfCall →
  call_step t s = Ok (s', e) → slow_inv s' (es ++ [e]).
Proof.
  intros Hq Hi [Hle Hc] Ht H. pose proof (frame_at_run _ _ _ Ht) as [Hfr _].
  pose proof Hi as (Hp & Hm & Hf). destruct (Hf _ _ Hfr) as (qe & Hw & Hcb). cbn in Hcb.
  assert (runs Handler_func t s) as Hrt by (by exists qe).
  destruct (task_counts h q s es Hq Hi) as [Hcnt _]. pose proof (runs_alive _ _ _ Hrt) as Hal.
  assert (∃ res, s' = set_frame t (match res with None => Done | Some res => HfSend res end) s
    ∧ e = Ran (element (sh_ie (sh s)))) as (res & -> & ->).
  { unfold call_step in H. destruct (loop s); ok_inv; simplify_eq; eauto. }
  destruct Hc as [[Hl _]|[Hl Hc]]; [lia|]. destruct Hc as [[Hr Hno]|[Hr (u & Hu & fr & Hfu & Hne)]].
  - unfold slow_inv, pending_. rewrite received_app, took_app, ran_app, ended_snoc, !app_nil_r, Nat.add_0_r.
    split; [done|]. right. split; [done|]. right. split; [by rewrite Hr|].
    exists t. split; [done|]. eexists. split; [apply lookup_insert_eq|]. by destruct res.
  - assert (u = t) as -> by (eapply runs_once; [done..|lia]). congruence.
Qed.

(** The assignment to [ie]. *)
Lemma slow_assign h q s es ie s' e :
  fresh_queue 21 q → sinv (stage_started h q) s es → slow_inv s es → loop s = Got ie →
  assign_step ie s = Ok (s', e) → slow_inv s' (es ++ [e]).
Proof.
  intros Hq Hi [Hle Hc] Hl H. pose proof Hi as (_ & [_ Hm] & _). rewrite Hl in Hm. cbn in Hm.
  destruct (task_counts h q s es Hq Hi) as [Hcnt _]. rewrite Hl in Hcnt. cbn in Hcnt.
  apply (f_equal length) in Hm. rewrite length_app in Hm. cbn in Hm.
  unfold assign_step in H. case_match; ok_inv. simplify_eq.
  destruct Hc as [[Ht Hr]|[Ht _]]; [|lia]. unfold slow_inv, pending_.
  rewrite received_app, took_app, ran_app, ended_snoc, !app_nil_r, Nat.add_0_r. split; [done|]. right.
  split; [rewrite length_app; simpl; lia|]. left. split; [by rewrite map_app, Hr|].
  intros t [Hrt _]. assert (runs Handler_func t s) as Hal%runs_alive by exact Hrt. lia.
Qed.

(** The call of a [push]. *)
Lemma past_call_push t qe s s' pe :
  frames_fit s → pnext (wp s) (InQueue (Call t (Push qe))) = Some (wp s', pe) → frames s' = frames s →
  ∀ u, past_call u s' ↔ past_call u s.
Proof.
  intros Hf Hn Hfr u. pose proof (pnext_call _ _ _ _ _ Hn) as ->. unfold past_call, runs. rewrite Hfr.
  split; intros [(qe' & Hw & Hcb) (fr & Hu & Hfc)]; (split; [|eauto]).
  - destruct (Hf _ _ Hu) as (qe2 & Hw' & _). pose proof (pnext_running _ _ _ _ u Hn qe2 Hw'). exists qe2. by simplify_eq/=.
  - exists qe'. by split; [apply (pnext_running _ _ _ _ u Hn)|].
Qed.

Lemma slow_boot s es s' e : frames_fit s → slow_inv s es → boot_next s = Some (s', e) → slow_inv s' (es ++ [e]).
Proof.
  intros Hf Hs H. unfold boot_next in H. destruct (boot s) as [|[qe|fn] b]; [done|..].
  - apply bind_Some in H as ([w pe] & Hn & [= <- <-]). pose proof (pnext_call _ _ _ _ _ Hn) as ->.
    eapply slow_quiet; [done..|]. by eapply past_call_push.
  - case_match; [|done]. simplify_eq. by eapply slow_quiet.
Qed.

Lemma slow_loop h q s es t s' e :
  fresh_queue 21 q → sinv (stage_started h q) s es → slow_inv s es →
  loop_step t s = Some (Ok (s', e)) → slow_inv s' (es ++ [e]).
Proof.
  intros Hq Hi Hs H. pose proof Hi as (_ & _ & Hf). unfold loop_step in H. destruct (loop s) as [|ie| |] eqn:Hl; [..|done].
  - unfold fetch_step in H. apply bind_Some in H as ([s1 re] & Hq' & H). apply bind_Some in Hq' as ([r re'] & Hn & [= <- <-]).
    destruct re' as [|ie|]; [by simplify_eq; eapply slow_quiet| |by simplify_eq; eapply slow_quiet].
    apply (inj Some) in H. ok_inv. by eapply slow_quiet.
  - apply (inj Some) in H. by eapply slow_assign.
  - apply bind_Some in H as ([w pe] & Hn & [= <- <-]). pose proof (pnext_call _ _ _ _ _ Hn) as ->.
    eapply slow_quiet; [done..|]. by eapply past_call_push.
Qed.

Lemma slow_recv s es m s' e :
  messages_ok s es → slow_inv s es → length (received_ es) = ended_ es →
  recv_step m s = Some (Ok (s', e)) → slow_inv s' (es ++ [e]).
Proof.
  intros [_ Hm] Hs Hslow H. unfold recv_step in H. destruct (prod (rs s)); [|done..].
  destruct (match m with Some _ => _ | None => _ end) as [[ie|]| |]; [| |done..].
  - apply bind_Some in H as ([s1 re] & Hq' & [= <- <-]). pose proof Hq' as ([r re'] & Hn & [= <- <-])%bind_Some.
    destruct Hs as [Hle Hc]. apply (f_equal length) in Hm. rewrite length_app in Hm.
    destruct Hc as [Hc|[Ht _]]; [|lia]. unfold slow_inv, settled.
    rewrite received_app, took_app, ran_app, ended_snoc, !app_nil_r, Nat.add_0_r, length_app. split; [simpl; lia|by left].
  - simplify_eq. by eapply slow_quiet.
Qed.

Lemma slow_step h q s es m s' e :
  fresh_queue 21 q → sinv (stage_started h q) s es → slow_inv s es →
  (∀ t b, m = RecvMsg t b → length (received_ es) = ended_ es) →
  snext s m = Some (Ok (s', e)) → slow_inv s' (es ++ [e]).
Proof.
  intros Hq Hi Hs Hslow H. pose proof (sinv_step _ _ _ _ _ _ Hi H) as Hi'. pose proof Hi as (_ & Hm & Hf).
  destruct m as [|m|t b|t m|t|t|t| |t|t ret ea err]; simpl in H.
  - apply bind_Some in H as ([s1 e1] & H & [= <- <-]). by eapply slow_boot.
  - apply bind_Some in H as ([s1 e1] & H & [= <- <-]). destruct (decide (ended_ [e1] = 0%nat)) as [He|He]; [|by eapply slow_end].
    pose proof (past_call_pool _ _ _ _ Hf H He) as Hp.
    apply spool_move_inv in H as (pe & _ & -> & _ & _ & Hsh & _). eapply slow_quiet; [done..|by rewrite Hsh|done].
  - destruct (frame_at t s) as [[]|] eqn:Ht; simplify_eq.
    eapply slow_quiet; [done..|]. eapply past_call_frame; [done..|by destruct b].
  - specialize (Hslow _ _ eq_refl). destruct (frame_at t s) as [[]|]; [done| |done..]. by eapply slow_recv.
  - destruct (frame_at t s) as [[]|]; [done| |done..]. apply bind_Some in H as ([s1 re] & Hq' & [= <- <-]).
    apply bind_Some in Hq' as ([r re'] & Hn & [= <- <-]). by eapply slow_quiet.
  - destruct (frame_at t s) as [[]|] eqn:Ht; [done|done|done| |done..]. apply (inj Some) in H. ok_inv. simplify_eq.
    eapply slow_quiet; [done..|]. eapply past_call_frame; [done..|by destruct v].
  - destruct (frame_at t s) as [[]|]; [done|done|done|done| |done..]. by eapply slow_loop.
  - apply bind_Some in H as ([s1 re] & Hq' & [= <- <-]). apply bind_Some in Hq' as ([r re'] & Hn & [= <- <-]).
    by eapply slow_quiet.
  - destruct (frame_at t s) as [[]|] eqn:Ht; try done. apply (inj Some) in H. by eapply slow_call.
  - destruct (frame_at t s) as [[]|] eqn:Ht; try done. apply (inj Some) in H. ok_inv. simplify_eq.
    eapply slow_quiet; [done..|]. by eapply past_call_frame.
Qed.

Lemma sreach_slow h q ms s es :
  fresh_queue 21 q → sreach (stage_started h q) ms s es → slow (stage_started h q) ms → slow_inv s es.
Proof.
  intros Hq Hr. induction Hr as [|ms s es m s' e Hr IH Hn]; intros Hs.
  { split; [cbn; lia|]. by left. }
  eapply slow_step; [done|by apply sreach_inv in Hr| | |done].
  - apply IH. intros ms1 t b ms2 s1 es1 ->. apply (Hs ms1 t b (ms2 ++ [m]) s1 es1). by rewrite <-app_assoc.
  - intros t b ->. by apply (Hs ms t b [] s es).
Qed.

(** ** Properties *)

(** C23: what a running stage keeps, whatever the schedule and the messages. The
    messages received are, in order, those assigned to [ie], the one fetched
    before its assignment, and those on their way through the receiver's queue;
    every assignment becomes exactly one task [handlerFunc], which has ended,
    or is in or on the way to or from a worker, queued, being pushed or about to
    be; and [receiver::run], [stage_control::run] and the loop of the handler
    are run by one worker each, as the receiver's queue demands. *)
Theorem stage_conserves h q ms s es :
  fresh_queue 21 q → srun (stage_started h q) ms = Some (Ok (s, es)) →
  received_ es = took es ++ got (loop s) ++ in_hand (rs s)
  ∧ (length (took es)
     = count Handler_func (ended (pool_events es)) + count Handler_func (alive s) + at_push (loop s))%nat
  ∧ ∀ cb t u, cb ≠ Handler_func → runs cb t s → runs cb u s → t = u.
Proof.
  intros Hq Hr%machine_run_reach%sreach_inv. destruct (task_counts h q s es Hq Hr) as [Hc Ho].
  split_and!; [apply Hr|exact Hc|]. intros cb t u Hne Ht Hu. by eapply runs_once; [..|apply Ho].
Qed.

(** C24: a stage whose messages come one at a time, each after the task of the
    one before has ended, handles them once and in order: the handler function
    has been called with the elements received, but perhaps for the last one,
    and with all of them when the last task has ended; and it never runs while
    the loop is about to assign to the element it reads. *)
Theorem slow_messages_in_order h q ms s es :
  fresh_queue 21 q → srun (stage_started h q) ms = Some (Ok (s, es)) → slow (stage_started h q) ms →
  (∃ rest, map element (received_ es) = ran es ++ rest ∧ (length rest ≤ 1)%nat)
  ∧ (length (received_ es) = ended_ es → ran es = map element (received_ es))
  ∧ ∀ ie t, loop s = Got ie → frame_at t s ≠ Some HfCall.
Proof.
  intros Hq Hr%machine_run_reach Hs. pose proof (sreach_slow _ _ _ _ _ Hq Hr Hs) as [Hle Hc].
  pose proof (sreach_inv _ _ _ _ _ Hr) as Hi. destruct (task_counts _ _ _ _ Hq Hi) as [Hcnt _].
  destruct Hi as (_ & [_ Hm] & Hf). pose proof (f_equal length Hm) as Hlen. rewrite !length_app in Hlen.
  assert (length (took es) = length (received_ es) → received_ es = took es) as Hall.
  { intros E. rewrite Hm. rewrite (nil_length_inv (got (loop s) ++ in_hand (rs s))); [by rewrite app_nil_r|].
    rewrite length_app. lia. }
  split_and!.
  - destruct Hc as [[Ht Hran]|[Ht [[Hran _]|[Hran _]]]].
    + exists (map element (got (loop s) ++ in_hand (rs s))). rewrite Hran, Hm, map_app, length_map, length_app. split; [done|lia].
    + exists [element (sh_ie (sh s))]. rewrite Hall by lia. by rewrite Hran.
    + exists []. rewrite Hall by lia. by rewrite Hran, app_nil_r; split; [|simpl; lia].
  - intros E. destruct Hc as [[Ht Hran]|[Ht _]]; [|lia]. by rewrite Hall by lia.
  - intros ie t Hl [Hfr _]%frame_at_run. destruct (Hf _ _ Hfr) as (qe & Hw & Hcb).
    assert (runs Handler_func t s) as Hal%runs_alive by (by exists qe). rewrite Hl in Hlen, Hcnt. cbn in Hlen, Hcnt. lia.
Qed.
End stage_run.

(** ** Schedules *)

Definition demo_stage : @ssys unit unit (@conf task) := stage_started tt (init 21).
Lemma demo_stage_fresh : fresh_queue 21 (init 21 : @conf task).
Proof. split; [apply init_inv|]. by exists 2000. Qed.

(** The main thread pushes its tasks, three workers begin them, and the loops
    are entered: the receiver's in worker 0, the handler's in worker 2. *)
Definition begins (t : nat) : list smove := map Pool (begin_moves t).
Definition demo_boot : list smove :=
  concat (replicate 3 (Boot :: map Pool (push_moves 20))) ++ begins 0 ++ begins 1 ++ begins 2
  ++ [Boot; Setup 0 true; Start 2].
Definition receives (m : bytes) : list smove := RecvMsg 0 (Some m) :: replicate 4 (RcGo 0).
Definition fetches : list smove := replicate 4 (ShGo 2).
Definition assigns_and_pushes : list smove := replicate 2 (ShGo 2) ++ map Pool (push_moves 2).
Definition handles (t : nat) : list smove := begins t ++ [HfGo t; Send t 2 false []; Pool (Work t)].
Definition serves (t : nat) (m : bytes) : list smove := receives m ++ fetches ++ assigns_and_pushes ++ handles t.

Definition served_moves : list smove := demo_boot ++ serves 3 (bs "hi") ++ serves 4 (bs "ho").
Definition served : @ssys unit unit (@conf task) * list sevent :=
  match srun echo demo_stage served_moves with Some (Ok r) => r | _ => (demo_stage, []) end.
Lemma stage_served_runs : srun echo demo_stage served_moves = Some (Ok (served.1, served.2)).
Proof. vm_compute. reflexivity. Qed.

(** Two messages at once: the second one is assigned while the handler function
    works on the first one. *)
Definition race_moves : list smove :=
  demo_boot ++ receives (bs "hi") ++ fetches ++ assigns_and_pushes ++ begins 3
  ++ receives (bs "ho") ++ fetches ++ [ShGo 2].
(** The handler's task begins before [setHandler]. *)
Definition early_moves : list smove :=
  concat (replicate 3 (Boot :: map Pool (push_moves 20))) ++ begins 0 ++ begins 1 ++ begins 2 ++ [Start 2].

(** What a stage does not protect: the element [ie], which the handler's loop
    assigns while a handler function reads it, if a second message comes in
    time; and the handler function itself, which the loop's task may test
    before [setHandler] has been called. *)
Theorem stage_unprotected :
  srun echo demo_stage race_moves = Some (Err DataRace)
  ∧ srun echo demo_stage early_moves = Some (Err Uninitialised).
Proof. vm_compute. done. Qed.

(** ** Witnesses *)

Lemma stage_conserves_witness :
  (sent served.2 = [bs "hi"; bs "ho"] ∧ ended_ served.2 = 2%nat)
  ∧ received_ served.2 = took served.2 ++ got (loop served.1) ++ in_hand (rs served.1)
  ∧ (length (took served.2)
     = count Handler_func (ended (pool_events served.2)) + count Handler_func (alive served.1) + at_push (loop served.1))%nat
  ∧ ∀ cb t u, cb ≠ Handler_func → runs cb t served.1 → runs cb u served.1 → t = u.
Proof.
  split; [vm_compute; done|].
  apply (stage_conserves echo tt (init 21) served_moves); [apply demo_stage_fresh|apply stage_served_runs].
Defined.

Lemma slow_messages_in_order_witness :
  ran served.2 = map element (received_ served.2) ∧ length (received_ served.2) = 2%nat.
Proof.
  split; [|vm_compute; reflexivity].
  apply (slow_messages_in_order echo tt (init 21) served_moves served.1 served.2);
    [apply demo_stage_fresh|apply stage_served_runs| |vm_compute; reflexivity].
  apply slow_from_slow. vm_compute. reflexivity.
Defined.
