(* ===== verification/StageHop.v ===== *)
(** * What a running stage makes of its messages

    [Stage.hop] says what one message becomes on its way through a stage, as a
    function.  Here the machine of StageRun.v is proved to do the same, as long
    as the messages come one at a time: what the running stage sends is, in
    order, what [hop] makes of the messages that ZeroMQ delivers. *)

From S2P Require Import Prelude JobQueue WorkerPool Receiver Stage StageRun.
Open Scope Z_scope.

Section stage_hop.
Context {F P : Type}.
Variable call : F → bytes → outcome (option bytes).
Context {Q : Type} `{!AtomicQueue (A := task) Q}.

Abbreviation ssys := (@ssys F P Q).
Abbreviation snext := (snext (F := F) (P := P) (Q := Q) call).
Abbreviation sreach := (sreach (F := F) (P := P) (Q := Q) call).

Abbreviation stage_started := (stage_started (F := F) (P := P) (Q := Q)).
Implicit Types s : ssys.

(** The messages that the moves deliver. *)
Definition delivered (ms : list smove) : list bytes :=
  omap (λ m, match m with RecvMsg _ (Some m) => Some m | _ => None end) ms.

(** The handler after [setHandler], as [runStage] calls it. *)
Definition ready (h : F) : @stage_handler F P :=
  setHandler (setFunction (Some h) Function_default) stage_handler_new.

(** ** What a step does to handler, loop and answers *)

Definition answering (t : nat) (res : IElement) (s : ssys) : Prop := frames s !! t = Some (HfSend res).
Definition same_answers (s s' : ssys) : Prop := ∀ t res, answering t res s' ↔ answering t res s.
Definition receives_as (m : bytes) (ie : IElement) : Prop :=
  receive (Z.of_nat (length m)) (recv_buffer m) = Ok (Some ie).

Inductive effect (s : ssys) (m : smove) (s' : ssys) : sevent → Prop :=
  | ef_quiet e :
      sh s' = sh s → boot s' ⊆ boot s → got (loop s') ⊆ got (loop s) → same_answers s s' → delivered [m] = [] →
      received_ [e] = [] → took [e] = [] → ran [e] = [] → sent [e] = [] → effect s m s' e
  | ef_set fn :
      BSet fn ∈ boot s → boot s' ⊆ boot s → sh s' = setHandler fn (sh s) → loop s' = loop s → same_answers s s' →
      delivered [m] = [] → effect s m s' Tau
  | ef_recv m0 ie :
      delivered [m] = [m0] → receives_as m0 ie →
      sh s' = sh s → boot s' = boot s → loop s' = loop s → same_answers s s' → effect s m s' (Received_ ie)
  | ef_fetch ie :
      fetchOne_return ie = Ok ie → sh s' = sh s → boot s' = boot s → loop s' = Got ie → same_answers s s' →
      delivered [m] = [] → effect s m s' (Fetched_ ie)
  | ef_take ie :
      loop s = Got ie → sh s' = set_ie ie (sh s) → boot s' = boot s → got (loop s') = [] → same_answers s s' →
      delivered [m] = [] → effect s m s' (Took ie)
  | ef_run t res :
      frame_at t s = Some HfCall → handler_reply call (sh s) = Ok res →
      s' = set_frame t (match res with None => Done | Some res => HfSend res end) s →
      delivered [m] = [] → effect s m s' (Ran (element (sh_ie (sh s))))
  | ef_send t ret eagain err res data :
      frame_at t s = Some (HfSend res) → handler_send ret eagain err res = Ok data → s' = set_frame t Done s →
      delivered [m] = [] → effect s m s' (Sent data).

Lemma same_answers_eq s s' : frames s' = frames s → same_answers s s'.
Proof. intros E t res. unfold answering. by rewrite E. Qed.

Lemma answering_set t fr s u res :
  answering u res (set_frame t fr s) ↔ t = u ∧ fr = HfSend res ∨ t ≠ u ∧ answering u res s.
Proof. apply lookup_insert_Some. Qed.

Lemma same_answers_frame t fr fr' s :
  frame_at t s = Some fr → (∀ res, fr ≠ HfSend res) → (∀ res, fr' ≠ HfSend res) → same_answers s (set_frame t fr' s).
Proof.
  intros [Ht _]%frame_at_run H1 H2 u res. rewrite answering_set.
  split; [intros [[_ E]|[_ Hu]]; [by destruct (H2 res)|done]|].
  intros Hu. right. split; [|done]. intros ->. unfold answering in Hu. simplify_eq. by destruct (H1 res).
Qed.

Lemma same_answers_pool m s s' e : frames_fit s → pool_move m s = Some (s', e) → same_answers s s'.
Proof.
  intros Hf (pe & Hn & -> & _ & _ & _ & _ & _ & Hfr)%spool_move_inv.
  destruct pe as [pe|v qe|v qe|v qe|]; try by apply same_answers_eq.
  - intros u res. unfold answering. rewrite Hfr, lookup_insert_Some.
    split; [intros [[_ E]|[_ Hu]]; [|done]|intros Hu; right; split; [|done]; intros <-].
    + unfold fresh in E. by repeat case_match.
    + destruct (pnext_running _ _ _ _ v Hn) as (_ & _ & Hno). destruct (Hf _ _ Hu) as (qe' & Hw & _). by destruct (Hno qe').
  - destruct Hfr as [Hd Hfr]. intros u res. unfold answering. rewrite Hfr, lookup_delete_Some.
    split; [by intros [_ Hu]|intros Hu; split; [|done]]. intros ->. congruence.
Qed.

Lemma boot_effect s s' e : boot_next s = Some (s', e) → effect s Boot s' e.
Proof.
  intros H. unfold boot_next in H. destruct (boot s) as [|[qe|fn] b] eqn:Hb; [done|..].
  - apply bind_Some in H as ([w pe] & Hn & [= <- <-]). pose proof (pnext_call _ _ _ _ _ Hn) as ->.
    apply ef_quiet; try done. rewrite Hb. set_solver.
  - case_match; [|done]. simplify_eq. apply (ef_set _ _ _ fn); try done; rewrite Hb; set_solver.
Qed.

Lemma pool_effect m s s' e : frames_fit s → pool_move m s = Some (s', e) → effect s (Pool m) s' e.
Proof.
  intros Hf H. pose proof (same_answers_pool _ _ _ _ Hf H) as Ha.
  apply spool_move_inv in H as (pe & _ & -> & _ & Hb & Hs & _ & Hl & _).
  apply ef_quiet; try done; [by rewrite Hb|]. by destruct Hl as [-> |[-> ->]].
Qed.

Lemma loop_effect t s s' e : loop_step t s = Some (Ok (s', e)) → effect s (ShGo t) s' e.
Proof.
  intros H. unfold loop_step in H. destruct (loop s) as [|ie| |] eqn:Hl; [..|done].
  - unfold fetch_step in H. apply bind_Some in H as ([s1 re] & Hq & H).
    apply bind_Some in Hq as ([r re'] & Hn & [= <- <-]).
    destruct (rnext_fetch _ _ _ _ Hn) as [-> |[ie ->]]; [by destruct (cons_ (rs s)); auto|..].
    + simplify_eq. apply ef_quiet; done.
    + apply (inj Some) in H. ok_inv. assert (v = ie) as ->.
      { pose proof H0 as Hv. unfold fetchOne_return in Hv. by ok_inv. }
      simplify_eq. apply ef_fetch; done.
  - apply (inj Some) in H. unfold assign_step in H. case_match; ok_inv. simplify_eq.
    apply ef_take; done.
  - apply bind_Some in H as ([w pe] & Hn & [= <- <-]). pose proof (pnext_call _ _ _ _ _ Hn) as ->.
    apply ef_quiet; try done. by cbn; rewrite Hl.
Qed.

Lemma recv_effect t m s s' e : recv_step m s = Some (Ok (s', e)) → effect s (RecvMsg t m) s' e.
Proof.
  intros H. unfold recv_step in H. destruct (prod (rs s)); [|done..]. destruct m as [m|].
  - destruct (receive _ _) as [[ie|]| |] eqn:Hr; [| |done..].
    + apply bind_Some in H as ([s1 re] & Hq & [= <- <-]). apply bind_Some in Hq as ([r re'] & Hn & [= <- <-]).
      apply (ef_recv _ _ _ m); done.
    + unfold receive in Hr. destruct (Z.eqb_spec (Z.of_nat (length m)) (-1)); [lia|]. by ok_inv.
  - cbn in H. simplify_eq. apply ef_quiet; done.
Qed.

Lemma snext_effect s m s' e : frames_fit s → snext s m = Some (Ok (s', e)) → effect s m s' e.
Proof.
  intros Hf H. destruct m as [|m|t b|t m|t|t|t| |t|t ret ea err]; simpl in H.
  - apply bind_Some in H as ([s1 e1] & H & [= <- <-]). by apply boot_effect.
  - apply bind_Some in H as ([s1 e1] & H & [= <- <-]). by apply pool_effect.
  - destruct (frame_at t s) as [[]|] eqn:Ht; simplify_eq. apply ef_quiet; try done.
    by eapply same_answers_frame; [exact Ht| |destruct b].
  - destruct (frame_at t s) as [[]|]; [done| |done..]. by apply recv_effect.
  - destruct (frame_at t s) as [[]|]; [done| |done..]. apply bind_Some in H as ([s1 re] & Hq & [= <- <-]).
    apply bind_Some in Hq as ([r re'] & Hn & [= <- <-]). by apply ef_quiet.
  - destruct (frame_at t s) as [[]|] eqn:Ht; [done|done|done| |done..]. apply (inj Some) in H. ok_inv. simplify_eq.
    apply ef_quiet; try done. by eapply same_answers_frame; [exact Ht| |destruct v].
  - destruct (frame_at t s) as [[]|]; [done|done|done|done| |done..]. by apply loop_effect.
  - apply bind_Some in H as ([s1 re] & Hq & [= <- <-]). apply bind_Some in Hq as ([r re'] & Hn & [= <- <-]).
    by apply ef_quiet.
  - destruct (frame_at t s) as [[]|] eqn:Ht; try done. apply (inj Some) in H. unfold call_step in H.
    destruct (loop s); ok_inv; simplify_eq; by eapply ef_run.
  - destruct (frame_at t s) as [[]|] eqn:Ht; try done. apply (inj Some) in H. ok_inv. simplify_eq.
    by eapply ef_send.
Qed.

(** ** Elements and the handler, under every schedule *)

(** The handler is the one that [setHandler] is given; the elements are those
    that [receiver::run] makes of the messages, and those that have left
    [fetchOne] have passed its log line. *)
Definition handler_inv (h : F) (s : ssys) : Prop :=
  (∀ fn, BSet fn ∈ boot s → fn = setFunction (Some h) Function_default)
  ∧ (sh_fun (sh s) = Function_default ∨ sh_fun (sh s) = setFunction (Some h) Function_default).
Definition fetched_ok (ie : IElement) : Prop := fetchOne_return ie = Ok ie.
Definition elements_inv (ms : list smove) (s : ssys) (es : list sevent) : Prop :=
  Forall2 receives_as (delivered ms) (received_ es) ∧ Forall fetched_ok (took es ++ got (loop s)).

Lemma sent_app es es' : sent (es ++ es') = sent es ++ sent es'.
Proof. apply omap_app. Qed.
Lemma delivered_app ms ms' : delivered (ms ++ ms') = delivered ms ++ delivered ms'.
Proof. apply omap_app. Qed.

Lemma handler_step h s m s' e : handler_inv h s → effect s m s' e → handler_inv h s'.
Proof.
  intros [Hb Hs] []; split; subst; rewrite ?H, ?H0, ?H1, ?H2; auto; try (by rewrite ?H0, ?H1, ?H2 in *; auto).
Qed.

Lemma elements_step ms s es m s' e :
  elements_inv ms s es → effect s m s' e → elements_inv (ms ++ [m]) s' (es ++ [e]).
Proof.
  intros [Hd [Ht Hg]%Forall_app] He. unfold elements_inv. rewrite delivered_app, received_app, took_app, !Forall_app.
  destruct He as [e _ _ Hl _ -> -> -> _ _|fn _ _ _ -> _ ->|m0 ie -> Hr _ _ -> _|ie Hr _ _ -> _ ->|ie Hl _ _ -> _ ->
                 |t res _ _ -> ->|t ret ea err res data _ _ -> ->]; rewrite ?app_nil_r; try by split_and!.
  - split_and!; [done..|]. rewrite Forall_forall in *. auto.
  - split_and!; [|done..]. apply Forall2_app; [done|]. by apply Forall2_cons.
  - split_and!; [done..|]. by apply Forall_singleton.
  - rewrite Hl in Hg. by split_and!.
Qed.

(** ** Answers, when messages come one at a time *)

(** What a task [handlerFunc] sends for an element [b], if anything. *)
Definition answers (h : F) (b : bytes) (o : option bytes) : Prop :=
  ∃ ret eagain err, ∀ sh : @stage_handler F P, getFunction (sh_fun sh) = Ok (Some h) → element (sh_ie sh) = b →
    handlerFunc call ret eagain err sh = Ok o.

(** What it has made of the answer before it sends it. *)
Definition replies (h : F) (b : bytes) (o : option IElement) : Prop :=
  ∀ sh : @stage_handler F P, getFunction (sh_fun sh) = Ok (Some h) → element (sh_ie sh) = b →
    handler_reply call sh = Ok o.

(** [sn] was sent, for the calls with the elements [rn]; the answer of the last
    call may be on its way. *)
Definition answers_inv (h : F) (s : ssys) (sn rn : list bytes) : Prop :=
  ∃ os, sn = omap id os ∧
    ((∀ t res, ¬ answering t res s) ∧ Forall2 (answers h) rn os
     ∨ ∃ t res done b, answering t res s ∧ rn = done ++ [b] ∧ replies h b (Some res)
         ∧ Forall2 (answers h) done os).

Lemma answers_same h s s' sn rn : answers_inv h s sn rn → same_answers s s' → answers_inv h s' sn rn.
Proof.
  intros (os & Hos & Ho) Ha. exists os. split; [done|].
  destruct Ho as [[Hno Ho]|(t & res & done & b & Ht & Hr)]; [left|right]; [|exists t, res, done, b; by rewrite (Ha t res)].
  split; [|done]. intros t res Ht%Ha. by eapply Hno.
Qed.

Lemma answering_runs t res s : frames_fit s → answering t res s → runs Handler_func t s.
Proof. intros Hf (qe & Hw & Hcb)%Hf. by exists qe. Qed.

Lemma one_task h q s es t u :
  fresh_queue 21 q → sinv (stage_started h q) s es → slow_inv s es →
  runs Handler_func t s → runs Handler_func u s → t = u.
Proof.
  intros Hq Hi [Hle Hc] Ht Hu. destruct (task_counts _ _ _ _ Hq Hi) as [Hcnt _].
  eapply runs_once; [done..|]. destruct Hc as [[H _]|[H _]]; lia.
Qed.

Lemma handler_called h s : handler_inv h s → ∀ res, handler_reply call (sh s) = Ok res →
  replies h (element (sh_ie (sh s))) res.
Proof.
  intros [_ [Hs|Hs]] res; unfold handler_reply, handler_call; rewrite Hs; [done|].
  intros H sh' Hfn Hie. unfold handler_reply, handler_call. by rewrite Hfn, bind_ok, Hie.
Qed.

Lemma frame_runs t fr s :
  frames_fit s → frame_at t s = Some fr → (fr = HfCall ∨ ∃ res, fr = HfSend res) →
  frames s !! t = Some fr ∧ runs Handler_func t s.
Proof.
  intros Hf [Hfr _]%frame_at_run Hc. split; [done|]. destruct (Hf _ _ Hfr) as (qe & Hw & Hq). exists qe.
  split; [done|]. by destruct Hc as [-> |[res ->]].
Qed.

Lemma answers_run h q s es t res sn rn :
  fresh_queue 21 q → sinv (stage_started h q) s es → slow_inv s es → handler_inv h s →
  answers_inv h s sn rn → frame_at t s = Some HfCall → handler_reply call (sh s) = Ok res →
  answers_inv h (set_frame t (match res with None => Done | Some res => HfSend res end) s) sn
    (rn ++ [element (sh_ie (sh s))]).
Proof.
  intros Hq Hi Hs Hh (os & -> & Ho) Ht Hc. pose proof Hi as (_ & _ & Hf).
  apply (handler_called h _ Hh) in Hc. destruct (frame_runs _ _ _ Hf Ht) as [Hfr Hr]; [by left|].
  assert (∀ u res', ¬ answering u res' s) as Hno.
  { intros u res' Hu. pose proof (answering_runs _ _ _ Hf Hu) as Hru.
    assert (u = t) as -> by (by eapply one_task). unfold answering in Hu. congruence. }
  destruct Ho as [[_ Ho]|(u & res' & done & b & Hu & _)]; [|by destruct (Hno u res')]. destruct res as [res|].
  - exists os. split; [done|]. right. exists t, res, rn, (element (sh_ie (sh s))).
    split_and!; [apply lookup_insert_eq|done..].
  - exists (os ++ [None]). rewrite omap_app. cbn. rewrite app_nil_r. split; [done|]. left. split.
    + intros u res' [[_ ?]|[_ Hu]]%answering_set; [done|]. by eapply Hno.
    + apply Forall2_app; [done|]. apply Forall2_cons. split; [|done]. exists 0, false, []. intros sh' Hfn' Hie.
      unfold handlerFunc. by rewrite (Hc sh' Hfn' Hie).
Qed.

Lemma answers_send h q s es t ret eagain err res data sn rn :
  fresh_queue 21 q → sinv (stage_started h q) s es → slow_inv s es →
  answers_inv h s sn rn → frame_at t s = Some (HfSend res) → handler_send ret eagain err res = Ok data →
  answers_inv h (set_frame t Done s) (sn ++ [data]) rn.
Proof.
  intros Hq Hi Hs (os & -> & Ho) Ht Hd. pose proof Hi as (_ & _ & Hf).
  destruct (frame_runs _ _ _ Hf Ht) as [Hfr Hr]; [by eauto|].
  destruct Ho as [[Hno _]|(u & res' & done & b & Hu & -> & Hc & Ho)]; [by destruct (Hno t res)|].
  assert (∀ v r, answering v r s → v = t) as Hone.
  { intros v r Hv%answering_runs; [|done]. by eapply one_task. }
  assert (u = t) as -> by (by eapply Hone). unfold answering in Hu. simplify_eq.
  exists (os ++ [Some data]). rewrite omap_app. split; [done|]. left. split.
  - intros v r [[_ ?]|[Hne Hv]]%answering_set; [done|]. by destruct Hne; rewrite (Hone v r).
  - apply Forall2_app; [done|]. apply Forall2_cons. split; [|done]. exists ret, eagain, err. intros sh' Hfn Hie.
    unfold handlerFunc. by rewrite (Hc sh' Hfn Hie), bind_ok, Hd.
Qed.

Lemma answers_step h q s es m s' e :
  fresh_queue 21 q → sinv (stage_started h q) s es → slow_inv s es → handler_inv h s →
  answers_inv h s (sent es) (ran es) → effect s m s' e → answers_inv h s' (sent (es ++ [e])) (ran (es ++ [e])).
Proof.
  intros Hq Hi Hs Hh Ho He. rewrite sent_app, ran_app.
  destruct He as [e _ _ _ Ha _ _ _ -> ->|fn _ _ _ _ Ha _|m0 ie _ _ _ _ _ Ha|ie _ _ _ _ Ha _|ie _ _ _ _ Ha _
                 |t res Ht Hc -> _|t ret ea err res data Ht Hc -> _]; cbn; rewrite ?app_nil_r;
    [by eapply answers_same..| |].
  - by eapply answers_run.
  - by eapply answers_send.
Qed.

(** ** The whole run *)

Lemma slow_snoc s0 ms m : slow call s0 (ms ++ [m]) → slow call s0 ms.
Proof. intros Hs ms1 t m' ms2 s1 es1 ->. apply (Hs ms1 t m' (ms2 ++ [m]) s1 es1). by rewrite <-app_assoc. Qed.

Lemma sreach_hop h q ms s es :
  fresh_queue 21 q → sreach (stage_started h q) ms s es → slow call (stage_started h q) ms →
  handler_inv h s ∧ elements_inv ms s es ∧ answers_inv h s (sent es) (ran es).
Proof.
  intros Hq Hr. induction Hr as [|ms s es m s' e Hr IH Hn]; intros Hs.
  - split_and!.
    + split; [|by left]. intros fn Hfn. unfold stage_started, init_boot in Hfn. cbn in Hfn. set_solver.
    + split; [constructor|]. constructor.
    + exists []. split; [done|]. left. split; [|constructor]. intros t res. unfold answering. cbn. by rewrite lookup_empty.
  - apply slow_snoc in Hs as Hs'. destruct (IH Hs') as (Hh & He & Ha).
    pose proof (sreach_inv _ _ _ _ _ _ Hr) as Hi. pose proof Hi as (_ & _ & Hf).
    pose proof (sreach_slow _ _ _ _ _ _ Hq Hr Hs') as Hsl. pose proof (snext_effect _ _ _ _ Hf Hn) as Hef.
    split_and!; [by eapply handler_step|by eapply elements_step|by eapply answers_step].
Qed.

(** What has been called and sent, against what has been received. *)
Lemma slow_progress h q s es :
  fresh_queue 21 q → sinv (stage_started h q) s es → slow_inv s es →
  (∃ rest, map element (received_ es) = ran es ++ rest) ∧ (length (ran es) ≤ length (took es))%nat
  ∧ (ended_ es ≤ length (ran es))%nat ∧ (length (received_ es) ≤ S (ended_ es))%nat
  ∧ ∀ t res, answering t res s → length (ran es) = S (ended_ es).
Proof.
  intros Hq Hi [Hle Hc]. pose proof Hi as (_ & [_ Hm] & Hf).
  apply (f_equal (map element)) in Hm. rewrite map_app in Hm. rewrite Hm.
  destruct Hc as [[Ht Hr]|[Ht [[Hr Hno]|[Hr _]]]].
  - rewrite Hr, length_map. split_and!; [eauto|lia..|]. intros t res Ha%answering_runs%runs_alive; [|done].
    destruct (task_counts _ _ _ _ Hq Hi) as [Hcnt _]. lia.
  - pose proof (f_equal length Hr) as Hlen. rewrite length_map, length_app in Hlen. cbn in Hlen.
    split_and!; [rewrite Hr, <-app_assoc; eauto|lia..|]. intros t res Ha. destruct (Hno t).
    split; [by eapply answering_runs|]. by exists (HfSend res).
  - rewrite Hr, length_map. split_and!; [eauto|lia..|done].
Qed.

Definition hop_of (h : F) (m : bytes) (o : option bytes) : Prop :=
  ∃ ret eagain err, hop call (Z.of_nat (length m)) (recv_buffer m) ret eagain err (ready h) = Ok o.

Lemma hops h D R os :
  Forall2 receives_as D R → Forall fetched_ok R → Forall2 (answers h) (map element R) os → Forall2 (hop_of h) D os.
Proof.
  intros HD. revert os; induction HD as [|m ie D R Hm _ IH]; intros os HR Ho; simpl in Ho.
  { by inversion Ho. }
  apply Forall_cons in HR as [Hie HR]. apply Forall2_cons_inv_l in Ho as (o & os' & (ret & ea & err & Ho) & Hos & ->).
  constructor; [|by apply IH]. exists ret, ea, err. unfold hop. rewrite Hm, bind_ok, Hie, bind_ok. by apply Ho.
Qed.

Lemma sreach_hops h q ms s es :
  fresh_queue 21 q → sreach (stage_started h q) ms s es → slow call (stage_started h q) ms →
  ∃ done later os,
    delivered ms = done ++ later ∧ (length later ≤ 1)%nat ∧ (length (received_ es) = ended_ es → later = [])
    ∧ Forall2 (hop_of h) done os ∧ sent es = omap id os.
Proof.
  intros Hq Hr Hs. pose proof (sreach_inv _ _ _ _ _ _ Hr) as Hi.
  destruct (sreach_hop _ _ _ _ _ Hq Hr Hs) as (_ & [HD HT] & os & Hos & Ho).
  destruct (slow_progress _ _ _ _ Hq Hi) as ([rest Hm] & Hrt & Her & Hre & Ha); [by eapply sreach_slow|].
  set (k := length os).
  assert (Forall2 (answers h) (take k (ran es)) os ∧ k ≤ length (ran es) ∧ ended_ es ≤ k)%nat as (Hk & Hkr & Hke).
  { destruct Ho as [[_ Ho]|(t & res & done & b & Ht & Hran & _ & Ho)]; pose proof (Forall2_length _ _ _ Ho) as Hl; fold k in Hl.
    - by rewrite take_ge by lia; split_and!; [|lia..].
    - rewrite (Ha _ _ Ht), Hran, <-Hl, take_app_length. pose proof (Ha _ _ Ht) as Hn. rewrite Hran, length_app in Hn.
      cbn in Hn. split_and!; [done|lia..]. }
  destruct Hi as (_ & [_ Hmsg] & _). pose proof (Forall2_length _ _ _ HD) as Hl.
  exists (take k (delivered ms)), (drop k (delivered ms)), os. rewrite take_drop, length_drop. split_and!.
  - done.
  - lia.
  - intros E. apply drop_ge. lia.
  - apply (hops h _ (take k (received_ es))); [by apply Forall2_take| |].
    + rewrite Hmsg, take_app_le by lia. apply Forall_take. by apply Forall_app in HT as [HT _].
    + by rewrite <-firstn_map, Hm, take_app_le.
  - done.
Qed.
(** ** Properties *)

(** C25: the running stage implements [hop]. When messages come one at a time, the
    stage sends, in order, what [hop] makes of the messages delivered to it,
    which may be nothing; only the last message may still be on its way, and
    is not when its task has ended. [hop] is the whole way of one message as a
    function: [receiver::run], [fetchOne], the handler and [sendMsg]. *)
Theorem slow_stage_refines_hop h q ms s es :
  fresh_queue 21 q → srun call (stage_started h q) ms = Some (Ok (s, es)) → slow call (stage_started h q) ms →
  ∃ done later os,
    delivered ms = done ++ later ∧ (length later ≤ 1)%nat ∧ (length (received_ es) = ended_ es → later = [])
    ∧ Forall2 (hop_of h) done os ∧ sent es = omap id os.
Proof. intros Hq Hr%machine_run_reach Hs. by eapply sreach_hops. Qed.
End stage_hop.

(** ** Witnesses *)

Lemma slow_stage_refines_hop_witness :
  delivered served_moves = [bs "hi"; bs "ho"] ∧ sent served.2 = [bs "hi"; bs "ho"]
  ∧ ∃ done later os,
    delivered served_moves = done ++ later ∧ (length later ≤ 1)%nat
    ∧ (length (received_ served.2) = ended_ served.2 → later = [])
    ∧ Forall2 (hop_of (P := unit) echo tt) done os ∧ sent served.2 = omap id os.
Proof.
  split; [vm_compute; reflexivity|]. split; [vm_compute; reflexivity|].
  apply (slow_stage_refines_hop echo tt (init 21) served_moves served.1 served.2);
    [apply demo_stage_fresh|apply stage_served_runs|].
  apply slow_from_slow. vm_compute. reflexivity.
Defined.
