(* ===== verification/HttpRequest.v ===== *)
(** * HTTP requests: struct.h, http_request.h, http_request.cpp,
    http_server.h, http_server.cpp (the parser), connect.h, connect.cpp

    [read_http_status_machine] reads a request byte by byte; its state [rhs]
    survives from one call to the next, its position [begin] does not.
    http_server.cpp has a copy of the machine that starts afresh for every
    request; [mstep] is the common step, and [lg] says that the URL is logged
    (http_server.cpp:67). *)

From S2P Require Import Prelude WorkerPool.
Open Scope Z_scope.

(** ** Data *)

Inductive read_http_status :=
  | READ_HTTP_START | METHORD | URL | PROTO | VERSION | REQUEST_HEAD | CONTENT
  | READ_HTTP_FINISH | READ_HTTP_ERROR.
Inductive http_method := GET | POST.
Inductive http_proto := HTTP | HTTPS.

#[export] Instance read_http_status_eq : EqDecision read_http_status.
Proof. solve_decision. Defined.
#[export] Instance http_method_eq : EqDecision http_method.
Proof. solve_decision. Defined.

(** [method] and [proto] have no value in a new [http_request], and the value 0
    ([None]), which is no enumerator, in a new [http_struct_t]. *)
Record http_head := Head {
  rhs : read_http_status;
  method : cell (option http_method);
  proto : cell (option http_proto);
  url : bytes;                              (* char url[64] *)
  params : gmap bytes bytes }.

Definition http_request_new : http_head :=
  Head READ_HTTP_START Indeterminate Indeterminate (replicate 64 NUL) ∅.
Definition http_struct_new : http_head :=
  Head READ_HTTP_START (Val None) (Val None) (replicate 64 NUL) ∅.

Definition set_rhs (r : read_http_status) (h : http_head) : http_head :=
  Head r (method h) (proto h) (url h) (params h).
Definition set_method (m : http_method) (h : http_head) : http_head :=
  Head (rhs h) (Val (Some m)) (proto h) (url h) (params h).
Definition set_proto (p : http_proto) (h : http_head) : http_head :=
  Head (rhs h) (method h) (Val (Some p)) (url h) (params h).
Definition set_url (u : bytes) (h : http_head) : http_head :=
  Head (rhs h) (method h) (proto h) u (params h).
Definition set_params (p : gmap bytes bytes) (h : http_head) : http_head :=
  Head (rhs h) (method h) (proto h) (url h) p.

(** ** [get_params] *)

Definition AMP : ascii := "&"%char.
Definition EQ : ascii := "="%char.
Definition CR : ascii := "013"%char.
Definition LF : ascii := "010"%char.
Definition SP : ascii := " "%char.

(** The tokens that [strsep(&p, "&")] returns for a C string. *)
Fixpoint tokens (s : bytes) : list bytes :=
  match s with
  | [] => [[]]
  | c :: s => if decide (c = AMP) then [] :: tokens s
              else match tokens s with t :: ts => (c :: t) :: ts | [] => [[c]] end
  end.

(** [strstr(_p, "=")]: what is before and after the first '='. *)
Fixpoint pair_of (t : bytes) : option (bytes * bytes) :=
  match t with
  | [] => None
  | c :: t => if decide (c = EQ) then Some ([], t)
              else match pair_of t with Some (k, v) => Some (c :: k, v) | None => None end
  end.

(** [map::insert] keeps the value of a key that is there. *)
Definition map_insert_new (k v : bytes) (m : gmap bytes bytes) : gmap bytes bytes :=
  match m !! k with Some _ => m | None => <[k := v]> m end.

(** A token without '=' is reported, and then [*param] dereferences NULL. *)
Fixpoint add_params (ts : list bytes) (m : gmap bytes bytes) : outcome (gmap bytes bytes) :=
  match ts with
  | [] => Ok m
  | t :: ts => match pair_of t with
               | None => Err NullDeref
               | Some (k, v) => add_params ts (map_insert_new k v m)
               end
  end.

(** What [strsep] and [*param = 0] leave of the text: its '&' and the first
    '=' of every token become NULs. *)
Definition blank_token (t : bytes) : bytes :=
  match pair_of t with Some (k, v) => k ++ NUL :: v | None => t end.
Fixpoint join_nul (ts : list bytes) : bytes :=
  match ts with [] => [] | [t] => t | t :: ts => t ++ NUL :: join_nul ts end.
Definition blanked (s : bytes) : bytes := join_nul (blank_token <$> tokens s).

Definition get_params (h : http_head) (b : bytes) (off : nat) (len : Z) : outcome (http_head * bytes) :=
  _ ← memcpy (replicate 128 NUL) 0 b off len;
  text ← cstr b off;
  m ← add_params (tokens text) (params h);
  Ok (set_params m h, take off b ++ blanked text ++ drop (off + length text) b).

(** ** The machine *)

Record mstate := Ms { head : http_head; mbuf : bytes; mbegin : nat; mi : nat }.

(** One round of the [for] loop, [++i] included. *)
Definition mstep (lg : bool) (nread : nat) (st : mstate) : outcome mstate :=
  let '(Ms h b begin i) := st in
  match rhs h with
  | READ_HTTP_START | METHORD =>
      let h := set_rhs METHORD h in
      c ← get b i;
      if decide (c = SP) then
        is_get ← memcmp_eq b begin (bs "GET");
        h ← (if is_get : bool then Ok (set_method GET h)
             else is_post ← memcmp_eq b begin (bs "POST");
                  Ok (if is_post : bool then set_method POST h else set_rhs READ_HTTP_ERROR h));
        Ok (Ms (set_rhs URL h) b (i + 1) (i + 1))
      else Ok (Ms h b begin (i + 1))
  | URL =>
      c ← get b i;
      if decide (c = SP) then
        u ← memcpy (url h) 0 b begin (Z.of_nat i - Z.of_nat begin)%Z;
        m ← read_cell (method h);
        _ ← (if lg && bool_decide (m = Some GET) then cstr u 0 else Ok []);
        Ok (Ms (set_rhs PROTO (set_url u h)) b (i + 1) (i + 1))
      else Ok (Ms h b begin (i + 1))
  | PROTO =>
      c ← get b i;
      if decide (c = "/"%char) then
        is_http ← memcmp_eq b begin (bs "HTTP");
        let h := if is_http && (Z.of_nat i - Z.of_nat begin =? 4)%Z then set_proto HTTP h
                 else if is_http && (Z.of_nat i - Z.of_nat begin =? 5)%Z then set_proto HTTPS h else h in
        Ok (Ms (set_rhs VERSION h) b (i + 1) (i + 1))
      else Ok (Ms h b begin (i + 1))
  | VERSION =>
      c ← get b i;
      if decide (c = CR) then
        c ← get b (i + 1);
        if decide (c = LF) then Ok (Ms (set_rhs REQUEST_HEAD h) b (i + 2) (i + 2))
        else Ok (Ms h b begin (i + 2))
      else Ok (Ms h b begin (i + 1))
  | REQUEST_HEAD =>
      c ← get b i;
      if decide (c = CR) then
        c ← get b (i + 1);
        if decide (c = LF) then
          c ← get b (i + 2);
          if decide (c = CR) then
            c ← get b (i + 3);
            let r := if decide (c = LF) then
                       if bool_decide (i + 4 = nread)%nat || bool_decide (i + 3 = nread)%nat
                       then READ_HTTP_FINISH else CONTENT
                     else REQUEST_HEAD in
            Ok (Ms (set_rhs r h) b (i + 3) (i + 2))
          else Ok (Ms h b (i + 2) (i + 2))
        else Ok (Ms h b begin (i + 2))
      else Ok (Ms h b begin (i + 1))
  | CONTENT =>
      c ← get b i;
      '(h, b) ← (if decide (c = LF) then Ok (h, b)
                 else get_params h b (i + 1) (Z.of_nat nread - Z.of_nat i - 1)%Z);
      Ok (Ms (set_rhs READ_HTTP_FINISH h) b begin (i + 1))
  | READ_HTTP_FINISH | READ_HTTP_ERROR => Ok (Ms h b begin (i + 1))
  end%nat.

Fixpoint mloop (lg : bool) (nread fuel : nat) (st : mstate) : outcome mstate :=
  if (nread <=? mi st)%nat then Ok st
  else match fuel with O => Timeout | S fuel => st ← mstep lg nread st; mloop lg nread fuel st end.

(** The result is the request and the buffer, which [get_params] writes to. *)
Definition read_http_status_machine (h : http_head) (_buf : bytes) (nread : nat) :
    outcome (http_head * bytes) :=
  st ← mloop false nread nread (Ms h _buf 0 0); Ok (head st, mbuf st).

(** http_server.cpp:35-125. The status stays in the local variable [rhs], so
    that [_head.rhs] of the result is still [READ_HTTP_START]. *)
Definition readHttpRequestStatusMachine (buf : bytes) : outcome http_head :=
  text ← cstr buf 0;
  let nread := length text in
  st ← mloop true nread nread (Ms http_struct_new buf 0 0);
  Ok (set_rhs READ_HTTP_START (head st)).

(** connect.cpp: [content] is a copy of the map, and [[]] of a missing key is
    the empty string. *)
Definition set_user_info_to_handle (h : http_head) : bytes * bytes :=
  (default [] (params h !! bs "username"), default [] (params h !! bs "password")).

(** ** Termination *)

Lemma mstep_progress lg nread st st' : mstep lg nread st = Ok st' → (mi st < mi st')%nat.
Proof.
  destruct st as [h b begin i]. unfold mstep. intros H.
  destruct (rhs h); cbn [mi]; ok_inv;
    repeat (case_decide; ok_inv); cbn [mi]; try lia; case_match; ok_inv; cbn [mi]; lia.
Qed.

(** More fuel than bytes left changes nothing. *)
Lemma mloop_fuel lg nread fuel st :
  (nread - mi st ≤ fuel)%nat → mloop lg nread fuel st = mloop lg nread (nread - mi st) st.
Proof.
  revert st; induction fuel as [fuel IH] using lt_wf_ind; intros st Hf.
  destruct (decide (nread ≤ mi st)%nat) as [Hd|Hd].
  { destruct fuel, (nread - mi st)%nat; simpl; by rewrite (proj2 (Nat.leb_le _ _) Hd). }
  destruct fuel as [|fuel]; [lia|]. destruct (nread - mi st)%nat as [|k] eqn:Hk; [lia|]. simpl.
  rewrite (proj2 (Nat.leb_gt _ _)) by lia.
  destruct (mstep lg nread st) as [st'| |] eqn:Hs; [|done..]. rewrite !bind_ok.
  pose proof (mstep_progress _ _ _ _ Hs).
  rewrite (IH fuel) by lia. rewrite (IH k) by lia. done.
Qed.

Lemma mloop_step lg nread st st' :
  (mi st < nread)%nat → mstep lg nread st = Ok st' →
  mloop lg nread (nread - mi st) st = mloop lg nread (nread - mi st') st'.
Proof.
  intros Hi Hs. destruct (nread - mi st)%nat as [|k] eqn:Hk; [lia|]. simpl.
  rewrite (proj2 (Nat.leb_gt _ _)), Hs, bind_ok by lia. pose proof (mstep_progress _ _ _ _ Hs).
  apply mloop_fuel. lia.
Qed.

Lemma mloop_done lg nread fuel st : (nread ≤ mi st)%nat → mloop lg nread fuel st = Ok st.
Proof. intros H. destruct fuel; simpl; by rewrite (proj2 (Nat.leb_le _ _) H). Qed.

Lemma mloop_err lg nread st f :
  (mi st < nread)%nat → mstep lg nread st = Err f → mloop lg nread (nread - mi st) st = Err f.
Proof.
  intros Hi Hs. destruct (nread - mi st)%nat as [|k] eqn:Hk; [lia|]. simpl.
  by rewrite (proj2 (Nat.leb_gt _ _)), Hs by lia.
Qed.

(** [msteps]: rounds of the loop that succeed. *)
Definition msteps (lg : bool) (nread : nat) : mstate → mstate → Prop :=
  rtc (λ st st', (mi st < nread)%nat ∧ mstep lg nread st = Ok st').

Lemma mloop_steps lg nread st st' :
  msteps lg nread st st' → mloop lg nread (nread - mi st) st = mloop lg nread (nread - mi st') st'.
Proof. induction 1 as [|st1 st2 st3 [Hi Hs] _ IH]; [done|]. by rewrite (mloop_step _ _ _ _ Hi Hs). Qed.

Lemma add_params_total ts m : add_params ts m ≠ Timeout.
Proof.
  revert m; induction ts as [|t ts IH]; intros m; simpl; [done|].
  destruct (pair_of t) as [[]|]; [apply IH|done].
Qed.
Lemma read_cell_total {T} (c : cell T) : read_cell c ≠ Timeout.
Proof. by destruct c. Qed.
#[local] Hint Resolve add_params_total read_cell_total : total.

Lemma mstep_total lg nread st : mstep lg nread st ≠ Timeout.
Proof.
  destruct st as [h b begin i]. unfold mstep, get_params.
  destruct (rhs h); try done;
    repeat (first [done | apply bind_total; [solve [auto with total]|intros ?]
                  | apply bind_total; [|intros [? ?]] | case_match | case_decide]).
Qed.

Lemma mloop_not_timeout lg nread fuel st :
  (nread - mi st ≤ fuel)%nat → mloop lg nread fuel st ≠ Timeout.
Proof.
  revert st; induction fuel as [|fuel IH]; intros st Hf; simpl.
  - rewrite (proj2 (Nat.leb_le _ _)) by lia. done.
  - destruct (Nat.leb_spec nread (mi st)); [done|].
    destruct (mstep lg nread st) as [st'| |] eqn:Hs.
    + rewrite bind_ok. apply IH. pose proof (mstep_progress _ _ _ _ Hs). lia.
    + done.
    + by destruct (mstep_total lg nread st).
Qed.

(** ** Well-formed requests *)

(** [get_params] writes into its text without changing its length. *)
Lemma blank_token_length t : length (blank_token t) = length t.
Proof.
  unfold blank_token. destruct (pair_of t) as [[k v]|] eqn:H; [|done]. revert k v H.
  induction t as [|c t IH]; intros k v H; simpl in H; [done|]. case_decide; simplify_eq; [done|].
  destruct (pair_of t) as [[k' v']|]; simplify_eq. simpl. f_equal. by apply IH.
Qed.

Lemma join_nul_blank ts : length (join_nul (blank_token <$> ts)) = length (join_nul ts).
Proof.
  induction ts as [|t [|t' ts] IH]; [done|apply blank_token_length|].
  change (length (blank_token t ++ NUL :: join_nul (blank_token <$> t' :: ts)) = length (t ++ NUL :: join_nul (t' :: ts))).
  rewrite !length_app, blank_token_length. cbn [length]. by rewrite IH.
Qed.

Lemma join_nul_tokens s : length (join_nul (tokens s)) = length s.
Proof.
  induction s as [|c s IH]; [done|]. simpl.
  assert (∃ t ts, tokens s = t :: ts) as (t & ts & Ht).
  { destruct s; simpl; [eauto|]. case_decide; [eauto|]. case_match; eauto. }
  rewrite Ht in *. case_decide; [simpl; by rewrite <-IH|]. rewrite <-IH. by destruct ts.
Qed.

Lemma get_params_length h b off len h' b' : get_params h b off len = Ok (h', b') → length b' = length b.
Proof.
  unfold get_params. intros H. ok_inv. unfold cstr in H1. destruct (to_nul (drop off b)) as [s|] eqn:Hs; simplify_eq.
  apply to_nul_length in Hs. rewrite length_drop in Hs. unfold blanked.
  rewrite !length_app, join_nul_blank, join_nul_tokens, length_take, length_drop. lia.
Qed.

(** The type of a request of a connection: the field [url] is its array, the
    machine is not in the error state, and behind the URL there is a method. *)
Definition past_url (r : read_http_status) : Prop :=
  match r with PROTO | VERSION | REQUEST_HEAD | CONTENT | READ_HTTP_FINISH => True | _ => False end.
Definition head_ok (h : http_head) : Prop :=
  length (url h) = 64%nat ∧ rhs h ≠ READ_HTTP_ERROR ∧ method h ≠ Val None
  ∧ (past_url (rhs h) → method h ≠ Indeterminate).

Lemma http_request_new_ok : head_ok http_request_new.
Proof. split_and!; by vm_compute. Qed.

Lemma mstep_ok lg nread st st' :
  head_ok (head st) → mstep lg nread st = Ok st' → head_ok (head st') ∧ length (mbuf st') = length (mbuf st).
Proof.
  destruct st as [h b begin i]. unfold head_ok, mstep. cbn [head mbuf]. intros (Hu & He & Hm & Hp) H.
  destruct (rhs h) eqn:E; try done.
  1,2: ok_inv; repeat (case_match; ok_inv); cbn; by rewrite ?E.
  - ok_inv. case_decide; ok_inv; cbn; [|by rewrite E].
    match goal with Hc : memcpy _ _ _ _ _ = Ok _ |- _ => rewrite (memcpy_length _ _ _ _ _ _ Hc) end.
    split_and!; try done. intros _ Hc. by match goal with Hr : read_cell (method h) = _ |- _ => rewrite Hc in Hr end.
  - ok_inv. case_decide; ok_inv; cbn; [|rewrite E; split_and!; auto]. by repeat case_match; cbn; split_and!; auto.
  - ok_inv. case_decide; [ok_inv; case_decide|]; ok_inv; cbn; rewrite ?E; split_and!; auto.
  - ok_inv. repeat (case_decide; ok_inv); cbn; rewrite ?E; repeat case_match; split_and!; auto.
  - ok_inv. match goal with p : http_head * bytes |- _ => destruct p as [h' b'] end.
    ok_inv. cbn. case_decide; ok_inv; [split_and!; auto|].
    match goal with Hg : get_params _ _ _ _ = _ |- _ =>
      pose proof (get_params_length _ _ _ _ _ _ Hg) as Hl; unfold get_params in Hg end.
    ok_inv. cbn. split_and!; auto.
  - ok_inv. cbn. rewrite E. split_and!; auto.
Qed.

Lemma mloop_ok lg nread fuel st st' :
  head_ok (head st) → mloop lg nread fuel st = Ok st' → head_ok (head st') ∧ length (mbuf st') = length (mbuf st).
Proof.
  revert st; induction fuel as [|fuel IH]; intros st Hr H; simpl in H; case_match; ok_inv; try done.
  destruct (mstep_ok _ _ _ _ Hr H1) as [Hv <-]. by apply IH.
Qed.

Lemma read_machine_ok h b nread h' b' :
  head_ok h → read_http_status_machine h b nread = Ok (h', b') → head_ok h' ∧ length b' = length b.
Proof. unfold read_http_status_machine. intros Hh H. ok_inv. by apply mloop_ok in H0. Qed.

(** ** Skipping *)

(** The byte that a state waits for. *)
Definition waits_for (r : read_http_status) : option ascii :=
  match r with
  | READ_HTTP_START | METHORD | URL => Some SP
  | PROTO => Some "/"%char
  | VERSION | REQUEST_HEAD => Some CR
  | _ => None
  end.

Definition awake_rhs (r : read_http_status) : read_http_status :=
  match r with READ_HTTP_START => METHORD | r => r end.

Lemma mstep_skip lg nread h b begin i c d :
  waits_for (rhs h) = Some d → b !! i = Some c → c ≠ d →
  mstep lg nread (Ms h b begin i) = Ok (Ms (set_rhs (awake_rhs (rhs h)) h) b begin (i + 1)).
Proof.
  intros Hw Hc Hne. unfold mstep. rewrite (get_ok _ _ _ Hc).
  destruct h as [r ? ? ? ?], r; cbn in *; simplify_eq; by rewrite ?bind_ok, ?decide_False.
Qed.

Lemma skip lg nread w : ∀ h pre post begin d,
  waits_for (rhs h) = Some d → d ∉ w → (length (pre ++ w) ≤ nread)%nat → w ≠ [] →
  msteps lg nread (Ms h (pre ++ w ++ post) begin (length pre))
    (Ms (set_rhs (awake_rhs (rhs h)) h) (pre ++ w ++ post) begin (length (pre ++ w))).
Proof.
  induction w as [|c w IH]; intros h pre post begin d Hw Hd Hl Hnil; [done|].
  apply not_elem_of_cons in Hd as [Hc Hd]. rewrite length_app in Hl. cbn in Hl.
  assert ((pre ++ (c :: w) ++ post) !! length pre = Some c) as Hlook
    by (by rewrite lookup_app_r, Nat.sub_diag by lia).
  eapply rtc_l.
  { split; [simpl; lia|]. by eapply mstep_skip. }
  destruct w as [|c' w].
  { rewrite !length_app. cbn. apply rtc_refl. }
  set (h' := set_rhs (awake_rhs (rhs h)) h).
  assert (waits_for (rhs h') = Some d) as Hw' by (unfold h'; destruct h as [[] ? ? ? ?]; cbn in *; congruence).
  assert (set_rhs (awake_rhs (rhs h')) h' = h') as Hid by (unfold h'; destruct h as [[] ? ? ? ?]; done).
  specialize (IH h' (pre ++ [c]) post begin d Hw' Hd).
  rewrite Hid, <-!app_assoc, !length_app in IH. cbn in IH. rewrite !length_app. cbn.
  cbn in Hl. apply IH; [lia|done].
Qed.

(** ** The request line and the headers *)

Definition method_name (m : http_method) : bytes := match m with GET => bs "GET" | POST => bs "POST" end.

(** A request whose first [length u] bytes of [url] are [u]. *)
Definition url_field (u old : bytes) : bytes := u ++ drop (length u) old.

Lemma memcmp_at b pre lit post : b = pre ++ lit ++ post → memcmp_eq b (length pre) lit = Ok true.
Proof. intros ->. apply memcmp_eq_hit. Qed.

Lemma read_method lg nread h m post :
  rhs h = READ_HTTP_START → (length (method_name m) < nread)%nat →
  msteps lg nread (Ms h (method_name m ++ SP :: post) 0 0)
    (Ms (set_rhs URL (set_method m (set_rhs METHORD h))) (method_name m ++ SP :: post)
        (length (method_name m) + 1) (length (method_name m) + 1)).
Proof.
  intros Hr Hl. etrans.
  - apply (skip lg nread (method_name m) h [] (SP :: post) 0 SP);
      [by rewrite Hr|by destruct m; vm_compute; set_solver|simpl; lia|by destruct m].
  - apply rtc_once. split; [simpl; lia|]. rewrite Hr. cbn [app length awake_rhs].
    unfold mstep. cbn [rhs set_rhs].
    rewrite (get_ok _ _ SP) by (by rewrite lookup_app_r, Nat.sub_diag by lia).
    rewrite bind_ok, decide_True by done. destruct m.
    + rewrite (memcmp_at _ [] (bs "GET") (SP :: post)) by done. done.
    + assert (memcmp_eq (method_name POST ++ SP :: post) 0 (bs "GET") = Ok false) as ->.
      { unfold memcmp_eq. rewrite decide_True by (simpl; lia). by rewrite bool_decide_eq_false_2. }
      rewrite bind_ok, (memcmp_at _ [] (bs "POST") (SP :: post)) by done. done.
Qed.

Lemma skip' lg nread w h b pre post begin d :
  b = pre ++ w ++ post →
  waits_for (rhs h) = Some d → d ∉ w → (length (pre ++ w) ≤ nread)%nat → w ≠ [] → awake_rhs (rhs h) = rhs h →
  msteps lg nread (Ms h b begin (length pre)) (Ms h b begin (length (pre ++ w))).
Proof.
  intros -> Hw Hd Hl Hne Ha. pose proof (skip lg nread w h pre post begin d Hw Hd Hl Hne) as H.
  rewrite Ha in H. by assert (set_rhs (rhs h) h = h) as Hid by (by destruct h); rewrite Hid in H.
Qed.

Lemma lookup_mid {T} (b pre : list T) c post : b = pre ++ c :: post → b !! length pre = Some c.
Proof. intros ->. by rewrite lookup_app_r, Nat.sub_diag. Qed.

Lemma read_url lg nread h b pre u post m :
  b = pre ++ u ++ SP :: post → rhs h = URL → method h = Val m → SP ∉ u → u ≠ [] →
  (length u ≤ length (url h))%nat → (length (pre ++ u) < nread)%nat →
  (lg = false ∨ is_ok (cstr (url_field u (url h)) 0)) →
  let n := length (pre ++ u ++ [SP]) in
  msteps lg nread (Ms h b (length pre) (length pre)) (Ms (set_rhs PROTO (set_url (url_field u (url h)) h)) b n n).
Proof.
  intros Hb Hr Hm Hsp Hne Hlu Hn Hlg n. etrans.
  - apply (skip' lg nread u h b pre (SP :: post) _ SP); rewrite ?Hr; (done || lia).
  - apply rtc_once. split; [done|]. unfold mstep. rewrite Hr.
    rewrite (get_ok _ _ SP), bind_ok, decide_True by (done || by apply (lookup_mid _ _ _ post); rewrite Hb, <-app_assoc).
    assert (Z.of_nat (length (pre ++ u)) - Z.of_nat (length pre) = Z.of_nat (length u)) as ->
      by (rewrite length_app; lia).
    rewrite memcpy_ok, bind_ok, Hm by (rewrite ?Hb, ?length_app; lia). cbn [read_cell]. rewrite bind_ok.
    assert (take 0 (url h) ++ take (length u) (drop (length pre) b) ++ drop (0 + length u) (url h)
            = url_field u (url h)) as ->.
    { rewrite Hb, drop_app_length, take_app_length. done. }
    assert ((length (pre ++ u) + 1)%nat = n) as -> by (unfold n; rewrite !length_app; simpl; lia).
    destruct Hlg as [->|Hok]; [by rewrite andb_false_l, bind_ok|].
    destruct (_ && _); [|by rewrite bind_ok].
    destruct (cstr (url_field u (url h)) 0); [by rewrite bind_ok|done..].
Qed.

Lemma read_proto lg nread h b pre post :
  b = pre ++ bs "HTTP" ++ "/"%char :: post → rhs h = PROTO → (length pre + 4 < nread)%nat →
  let n := length (pre ++ bs "HTTP" ++ ["/"%char]) in
  msteps lg nread (Ms h b (length pre) (length pre)) (Ms (set_rhs VERSION (set_proto HTTP h)) b n n).
Proof.
  intros Hb Hr Hn n. etrans.
  - apply (skip' lg nread (bs "HTTP") h b pre ("/"%char :: post) _ "/"%char);
      rewrite ?Hr; try done; [vm_compute; set_solver|rewrite length_app; simpl; lia].
  - apply rtc_once. split; [simpl; rewrite length_app; simpl; lia|]. unfold mstep. rewrite Hr.
    rewrite (get_ok _ _ "/"%char), bind_ok, decide_True
      by (done || by apply (lookup_mid _ _ _ post); rewrite Hb, <-app_assoc).
    rewrite (memcmp_at b pre (bs "HTTP") ("/"%char :: post) Hb), bind_ok.
    assert (Z.of_nat (length (pre ++ bs "HTTP")) - Z.of_nat (length pre) = 4) as ->
      by (rewrite length_app; simpl; lia).
    cbn [andb Z.eqb Pos.eqb].
    by assert ((length (pre ++ bs "HTTP") + 1)%nat = n) as -> by (unfold n; rewrite !length_app; simpl; lia).
Qed.

Lemma read_version lg nread h b pre v post begin :
  b = pre ++ v ++ CR :: LF :: post → rhs h = VERSION → CR ∉ v → v ≠ [] →
  (length (pre ++ v) < nread)%nat →
  let n := length (pre ++ v ++ [CR; LF]) in
  msteps lg nread (Ms h b begin (length pre)) (Ms (set_rhs REQUEST_HEAD h) b n n).
Proof.
  intros Hb Hr Hv Hne Hn n. etrans.
  - apply (skip' lg nread v h b pre (CR :: LF :: post) _ CR); rewrite ?Hr; (done || lia).
  - apply rtc_once. split; [done|]. unfold mstep. rewrite Hr.
    rewrite (get_ok _ (length (pre ++ v)) CR), bind_ok, decide_True
      by (done || by apply (lookup_mid _ _ _ (LF :: post)); rewrite Hb, <-app_assoc).
    assert (b !! (length (pre ++ v) + 1)%nat = Some LF) as Hlf.
    { replace (length (pre ++ v) + 1)%nat with (length (pre ++ v ++ [CR])) by (rewrite !length_app; simpl; lia).
      apply (lookup_mid _ _ _ post). by rewrite Hb, <-!app_assoc. }
    rewrite (get_ok _ _ LF), bind_ok, decide_True by done.
    by assert ((length (pre ++ v) + 2)%nat = n) as -> by (unfold n; rewrite !length_app; simpl; lia).
Qed.

(** A header line: not empty, without CR. *)
Definition header_ok (x : bytes) : Prop := x ≠ [] ∧ CR ∉ x.
Definition header_lines (hs : list bytes) : bytes := concat ((λ x, x ++ [CR; LF]) <$> hs).

(** The state after the empty line. *)
Definition after_head (nread n : nat) : read_http_status :=
  if bool_decide (n + 2 = nread)%nat || bool_decide (n + 1 = nread)%nat then READ_HTTP_FINISH else CONTENT.

Lemma head_next_line lg nread h b begin i c :
  rhs h = REQUEST_HEAD → b !! i = Some CR → b !! (i + 1)%nat = Some LF → b !! (i + 2)%nat = Some c →
  c ≠ CR → mstep lg nread (Ms h b begin i) = Ok (Ms h b (i + 2) (i + 2)).
Proof.
  intros Hr H0 H1 H2 Hc. unfold mstep. rewrite Hr.
  rewrite (get_ok _ _ _ H0), bind_ok, decide_True by done.
  rewrite (get_ok _ _ _ H1), bind_ok, decide_True by done.
  by rewrite (get_ok _ _ _ H2), bind_ok, decide_False.
Qed.

Lemma head_empty_line lg nread h b begin i :
  rhs h = REQUEST_HEAD → b !! i = Some CR → b !! (i + 1)%nat = Some LF →
  b !! (i + 2)%nat = Some CR → b !! (i + 3)%nat = Some LF →
  mstep lg nread (Ms h b begin i) = Ok (Ms (set_rhs (after_head nread (i + 2)) h) b (i + 3) (i + 2)).
Proof.
  intros Hr H0 H1 H2 H3. unfold mstep. rewrite Hr.
  rewrite (get_ok _ _ _ H0), bind_ok, decide_True by done.
  rewrite (get_ok _ _ _ H1), bind_ok, decide_True by done.
  rewrite (get_ok _ _ _ H2), bind_ok, decide_True by done.
  rewrite (get_ok _ _ _ H3), bind_ok, decide_True by done.
  unfold after_head. by rewrite <-!Nat.add_assoc.
Qed.

Lemma read_headers lg nread hs : ∀ h b pre post begin,
  b = pre ++ header_lines hs ++ CR :: LF :: post → rhs h = REQUEST_HEAD →
  hs ≠ [] → Forall header_ok hs → (length (pre ++ header_lines hs) ≤ nread)%nat →
  let n := length (pre ++ header_lines hs) in
  msteps lg nread (Ms h b begin (length pre)) (Ms (set_rhs (after_head nread n) h) b (n + 1) n).
Proof.
  induction hs as [|x hs IH]; intros h b pre post begin Hb Hr Hne Hok Hn n; [done|].
  apply Forall_cons in Hok as [[Hx Hcr] Hok].
  unfold header_lines in *. cbn [fmap list_fmap concat] in *. rewrite <-!app_assoc in *.
  set (rest := concat ((λ x, x ++ [CR; LF]) <$> hs)) in *. cbn [app] in Hb.
  assert (length (pre ++ x) + 2 ≤ nread)%nat as Hn'
    by (rewrite !length_app in *; cbn in Hn; lia).
  assert (b = (pre ++ x ++ [CR; LF]) ++ rest ++ CR :: LF :: post) as Hb2
    by (by rewrite Hb, <-!app_assoc).
  assert (b !! length (pre ++ x) = Some CR) as Hc0.
  { apply (lookup_mid _ _ _ (LF :: rest ++ CR :: LF :: post)). by rewrite Hb, <-app_assoc. }
  assert (b !! (length (pre ++ x) + 1)%nat = Some LF) as Hc1.
  { replace (length (pre ++ x) + 1)%nat with (length (pre ++ x ++ [CR])) by (rewrite !length_app; simpl; lia).
    apply (lookup_mid _ _ _ (rest ++ CR :: LF :: post)). by rewrite Hb, <-!app_assoc. }
  assert (length (pre ++ x) + 2 = length (pre ++ x ++ [CR; LF]))%nat as Hlen
    by (rewrite !length_app; simpl; lia).
  etrans.
  { apply (skip' lg nread x h b pre (CR :: LF :: rest ++ CR :: LF :: post) _ CR); rewrite ?Hr; (done || lia). }
  destruct hs as [|y hs].
  - assert (rest = []) as Hrest by done. rewrite Hrest, ?app_nil_r in *.
    assert (n = length (pre ++ x) + 2)%nat as Hnn by (unfold n; rewrite app_nil_r; by rewrite Hlen).
    apply rtc_once. split; [simpl; lia|]. rewrite Hnn, <-Nat.add_assoc.
    apply head_empty_line; [done..| |].
    + rewrite Hlen. by apply (lookup_mid _ _ _ (LF :: post)).
    + replace (length (pre ++ x) + 3)%nat with (length ((pre ++ x ++ [CR; LF]) ++ [CR]))
        by (rewrite !length_app; simpl; lia).
      apply (lookup_mid _ _ _ post). by rewrite Hb2, <-!app_assoc.
  - pose proof Hok as [[Hy Hycr] _]%Forall_cons.
    destruct y as [|c y]; [done|]. apply not_elem_of_cons in Hycr as [Hc _].
    assert (b !! (length (pre ++ x) + 2)%nat = Some c) as Hc2.
    { rewrite Hlen. eapply lookup_mid. rewrite Hb2. unfold rest. done. }
    eapply rtc_l; [split; [simpl; lia|by eapply head_next_line; eauto]|].
    rewrite Hlen. replace n with (length ((pre ++ x ++ [CR; LF]) ++ rest)) by (unfold n; by rewrite <-!app_assoc).
    apply (IH h b (pre ++ x ++ [CR; LF]) post); [done..|]. unfold rest in *. rewrite !length_app in *. cbn in *. lia.
Qed.

Lemma read_finish lg nread h b begin i :
  rhs h = READ_HTTP_FINISH → (i ≤ nread)%nat → msteps lg nread (Ms h b begin i) (Ms h b begin nread).
Proof.
  intros Hr Hi. remember (nread - i)%nat as k eqn:Hk. revert i Hi Hk. induction k as [|k IH]; intros i Hi Hk.
  - replace i with nread by lia. constructor.
  - eapply rtc_l; [|apply (IH (i + 1)%nat); lia]. split; [simpl; lia|]. unfold mstep. by rewrite Hr.
Qed.

(** From the URL to the end of the headers. *)
Definition line_rest (u v : bytes) (hs : list bytes) : bytes :=
  u ++ SP :: bs "HTTP" ++ "/"%char :: v ++ CR :: LF :: header_lines hs.

Definition line_ok (u v : bytes) : Prop := u ≠ [] ∧ (SP ∉ u) ∧ v ≠ [] ∧ (CR ∉ v).

(** The state when the last CR of the head is next. *)
Definition head_read (m : http_method) (u : bytes) (hs : list bytes) (r : read_http_status) (h : http_head) :
    http_head := Head r (Val (Some m)) (Val (Some HTTP)) (url_field u (url h)) (params h).

Lemma read_line lg nread h b pre u v hs post m :
  b = pre ++ line_rest u v hs ++ post → rhs h = URL → method h = Val (Some m) → line_ok u v →
  (length u ≤ length (url h))%nat → (length (pre ++ line_rest u v hs) ≤ nread)%nat →
  (lg = false ∨ is_ok (cstr (url_field u (url h)) 0)) →
  ∃ k, msteps lg nread (Ms h b (length pre) (length pre))
    (Ms (head_read m u hs REQUEST_HEAD h) b k k)
    ∧ b = take k b ++ header_lines hs ++ post ∧ length (take k b) = k
    ∧ k = (length pre + length u + length v + 8)%nat.
Proof.
  intros Hb Hr Hm (Hu & Hsp & Hv & Hcr) Hlu Hn Hlg. unfold line_rest in *.
  set (p1 := pre ++ u ++ [SP]). set (p2 := p1 ++ bs "HTTP" ++ ["/"%char]). set (p3 := p2 ++ v ++ [CR; LF]).
  assert (b = p3 ++ header_lines hs ++ post) as Hb3.
  { rewrite Hb. unfold p3, p2, p1. rewrite <-!app_assoc. cbn. by rewrite <-!app_assoc. }
  assert (length (pre ++ u) < nread ∧ length p1 + 4 < nread ∧ length (p2 ++ v) < nread)%nat as (Hn1 & Hn2 & Hn3).
  { unfold p2, p1 in *. rewrite !length_app in *. cbn in *. rewrite !length_app in *. cbn in *. lia. }
  exists (length p3). split_and!.
  - etrans; [apply (read_url lg nread h b pre u (bs "HTTP" ++ "/"%char :: v ++ CR :: LF :: header_lines hs ++ post) (Some m)); try done|].
    { rewrite Hb. rewrite <-!app_assoc. cbn. by rewrite <-!app_assoc. }
    etrans; [apply (read_proto lg nread _ b p1 (v ++ CR :: LF :: header_lines hs ++ post)); try done|].
    { rewrite Hb. unfold p1. rewrite <-!app_assoc. cbn. by rewrite <-!app_assoc. }
    etrans; [apply (read_version lg nread _ b p2 v (header_lines hs ++ post)); try done|].
    { rewrite Hb. unfold p2, p1. rewrite <-!app_assoc. cbn. by rewrite <-!app_assoc. }
    unfold head_read. rewrite <-Hm. destruct h. constructor.
  - rewrite Hb3 at 2. rewrite take_app_length. done.
  - rewrite Hb3. by rewrite take_app_length.
  - unfold p3, p2, p1. rewrite !length_app. cbn. lia.
Qed.

Definition request_head (m : http_method) (u v : bytes) (hs : list bytes) : bytes :=
  method_name m ++ SP :: line_rest u v hs.

Lemma read_head lg nread h b m u v hs post :
  b = request_head m u v hs ++ post → rhs h = READ_HTTP_START → line_ok u v →
  (length u ≤ length (url h))%nat → (length (request_head m u v hs) ≤ nread)%nat →
  (lg = false ∨ is_ok (cstr (url_field u (url h)) 0)) →
  ∃ k, msteps lg nread (Ms h b 0 0) (Ms (head_read m u hs REQUEST_HEAD h) b k k)
    ∧ b = take k b ++ header_lines hs ++ post ∧ length (take k b) = k
    ∧ (k + length (header_lines hs) = length (request_head m u v hs))%nat.
Proof.
  intros Hb Hr Hok Hlu Hn Hlg. unfold request_head in *.
  set (h1 := set_rhs URL (set_method m (set_rhs METHORD h))).
  destruct (read_line lg nread h1 b (method_name m ++ [SP]) u v hs post m) as (k & Hs & Hk & Hlk & Hkn);
    [by rewrite Hb, <-!app_assoc|done..|by rewrite <-app_assoc|done|].
  exists k. split_and!; [|done..|].
  - etrans; [|exact Hs]. rewrite Hb, <-app_assoc. rewrite length_app. cbn [length app].
    apply (read_method lg nread h m (line_rest u v hs ++ post)); [done|].
    rewrite length_app in Hn. cbn in Hn. lia.
  - rewrite Hkn. unfold line_rest. rewrite !length_app. cbn. rewrite !length_app. cbn. rewrite length_app. cbn. lia.
Qed.

Definition request (m : http_method) (u v : bytes) (hs : list bytes) (body : bytes) : bytes :=
  request_head m u v hs ++ CR :: LF :: body.

(** The whole head, with at least one header line. *)
Lemma read_request lg nread h b m u v hs body rest :
  b = request m u v hs body ++ rest → nread = length (request m u v hs body) →
  rhs h = READ_HTTP_START → line_ok u v → (length u ≤ length (url h))%nat →
  hs ≠ [] → Forall header_ok hs → (lg = false ∨ is_ok (cstr (url_field u (url h)) 0)) →
  let n := length (request_head m u v hs) in
  msteps lg nread (Ms h b 0 0) (Ms (head_read m u hs (after_head nread n) h) b (n + 1) n).
Proof.
  intros Hb Hn Hr Hok Hlu Hne Hhs Hlg n. unfold request in *. rewrite <-app_assoc in Hb. cbn in Hb.
  assert (n ≤ nread)%nat as Hle by (rewrite Hn, length_app; unfold n; lia).
  destruct (read_head lg nread h b m u v hs (CR :: LF :: body ++ rest)) as (k & Hs & Hk & Hlk & Hkn); [done..|].
  etrans; [exact Hs|]. rewrite <-Hlk at 2.
  assert (n = length (take k b ++ header_lines hs)) as Hn2 by (rewrite length_app, Hlk; unfold n; lia).
  rewrite Hn2.
  apply (read_headers lg nread hs (head_read m u hs REQUEST_HEAD h) b (take k b) (body ++ rest));
    [exact Hk|done..|by rewrite <-Hn2].
Qed.

(** ** The body *)

Definition form_pair (p : bytes * bytes) : bytes := p.1 ++ EQ :: p.2.
(** [k=v&k=v...]. *)
Fixpoint form (ps : list (bytes * bytes)) : bytes :=
  match ps with
  | [] => []
  | [p] => form_pair p
  | p :: ps => form_pair p ++ AMP :: form ps
  end.
Definition pair_ok (p : bytes * bytes) : Prop :=
  (AMP ∉ p.1) ∧ (EQ ∉ p.1) ∧ (AMP ∉ p.2) ∧ no_nul p.1 ∧ no_nul p.2.

Definition add_pairs (ps : list (bytes * bytes)) (m : gmap bytes bytes) : gmap bytes bytes :=
  foldl (λ m p, map_insert_new p.1 p.2 m) m ps.

Lemma tokens_cons t s : AMP ∉ t → tokens (t ++ AMP :: s) = t :: tokens s.
Proof.
  induction t as [|c t IH]; intros Ht; [done|]. apply not_elem_of_cons in Ht as [Hc Ht].
  cbn. rewrite decide_False by congruence. by rewrite IH.
Qed.
Lemma tokens_one t : AMP ∉ t → tokens t = [t].
Proof.
  induction t as [|c t IH]; intros Ht; [done|]. apply not_elem_of_cons in Ht as [Hc Ht].
  cbn. rewrite decide_False by congruence. by rewrite IH.
Qed.
Lemma pair_of_form p : EQ ∉ p.1 → pair_of (form_pair p) = Some p.
Proof.
  destruct p as [k v]. unfold form_pair. cbn. induction k as [|c k IH]; intros Hk; [done|].
  apply not_elem_of_cons in Hk as [Hc Hk]. cbn. rewrite decide_False by congruence. by rewrite IH.
Qed.

Lemma form_pair_amp p : pair_ok p → AMP ∉ form_pair p.
Proof.
  intros (H1 & H2 & H3 & _). unfold form_pair. rewrite elem_of_app, elem_of_cons.
  intros [?|[?|?]]; done.
Qed.
Lemma form_no_nul ps : Forall pair_ok ps → no_nul (form ps).
Proof.
  unfold no_nul. induction ps as [|p ps IH]; intros Hok; [by apply not_elem_of_nil|].
  apply Forall_cons in Hok as [(_ & _ & _ & H1 & H2) Hok].
  assert (NUL ∉ form_pair p) as Hp.
  { unfold form_pair. rewrite elem_of_app, elem_of_cons. intros [?|[?|?]]; done. }
  destruct ps as [|q ps]; [done|]. change (NUL ∉ form_pair p ++ AMP :: form (q :: ps)).
  rewrite elem_of_app, elem_of_cons. intros [?|[?|?]]; [done..|by apply IH].
Qed.

Lemma tokens_form ps : ps ≠ [] → Forall pair_ok ps → tokens (form ps) = form_pair <$> ps.
Proof.
  induction ps as [|p ps IH]; intros Hne Hok; [done|]. apply Forall_cons in Hok as [Hp Hok].
  destruct ps as [|q ps]; [by apply tokens_one, form_pair_amp|].
  change (tokens (form_pair p ++ AMP :: form (q :: ps)) = form_pair p :: (form_pair <$> q :: ps)).
  rewrite tokens_cons by (by apply form_pair_amp). by rewrite IH.
Qed.

Lemma add_params_form ps m : Forall pair_ok ps → add_params (form_pair <$> ps) m = Ok (add_pairs ps m).
Proof.
  revert m; induction ps as [|p ps IH]; intros m Hok; [done|]. apply Forall_cons in Hok as [Hp Hok].
  cbn. rewrite pair_of_form by apply Hp. destruct p as [k v]. by apply IH.
Qed.

(** The first pair of the body as [get_params] sees it: the line feed that ends
    the head is part of its key. *)
Definition with_lf (ps : list (bytes * bytes)) : list (bytes * bytes) :=
  match ps with [] => [] | p :: ps => (LF :: p.1, p.2) :: ps end.

Lemma with_lf_ok ps : Forall pair_ok ps → Forall pair_ok (with_lf ps).
Proof.
  destruct ps as [|p ps]; [done|]. intros [(H1 & H2 & H3 & H4 & H5) Hok]%Forall_cons.
  constructor; [|done]. unfold no_nul in *.
  split_and!; cbn; try done; by apply not_elem_of_cons.
Qed.

Lemma form_with_lf ps : ps ≠ [] → form (with_lf ps) = LF :: form ps.
Proof. destruct ps as [|p [|q ps]]; done. Qed.

Lemma get_params_form h pre qs rest :
  qs ≠ [] → Forall pair_ok qs → (length (form qs) ≤ 128)%nat → params h = ∅ →
  let b := pre ++ form qs ++ NUL :: rest in
  ∃ b', get_params h b (length pre) (Z.of_nat (length (form qs))) = Ok (set_params (add_pairs qs ∅) h, b').
Proof.
  intros Hne Hok Hl Hp b. unfold get_params. rewrite memcpy_ok, bind_ok.
  2:{ rewrite length_replicate. lia. }
  2:{ unfold b. rewrite !length_app. simpl. lia. }
  assert (cstr b (length pre) = Ok (form qs)) as ->.
  { unfold cstr, b. rewrite drop_app_length, to_nul_app; [done|]. by apply form_no_nul. }
  rewrite bind_ok, tokens_form, add_params_form, bind_ok, Hp by done. eauto.
Qed.

(** ** From the loop to the calls *)

Lemma machine_of_steps h b nread st :
  msteps false nread (Ms h b 0 0) st → (nread ≤ mi st)%nat →
  read_http_status_machine h b nread = Ok (head st, mbuf st).
Proof.
  intros Hs Hi. unfold read_http_status_machine. apply mloop_steps in Hs. rewrite Nat.sub_0_r in Hs.
  by rewrite Hs, mloop_done by done.
Qed.

Lemma machine_of_err h b nread st f :
  msteps false nread (Ms h b 0 0) st → (mi st < nread)%nat → mstep false nread st = Err f →
  read_http_status_machine h b nread = Err f.
Proof.
  intros Hs Hi Hf. unfold read_http_status_machine. apply mloop_steps in Hs. rewrite Nat.sub_0_r in Hs.
  by rewrite Hs, (mloop_err _ _ _ _ Hi Hf).
Qed.

Lemma after_head_end m u v hs :
  after_head (length (request m u v hs [])) (length (request_head m u v hs)) = READ_HTTP_FINISH.
Proof.
  unfold after_head, request. rewrite length_app. cbn [length]. by rewrite bool_decide_eq_true_2 by lia.
Qed.

(** A request without a body that is read at once. *)
Lemma parse_request m u v hs rest :
  line_ok u v → (length u ≤ 64)%nat → hs ≠ [] → Forall header_ok hs →
  let r := request m u v hs [] in
  read_http_status_machine http_request_new (r ++ rest) (length r)
  = Ok (Head READ_HTTP_FINISH (Val (Some m)) (Val (Some HTTP)) (u ++ replicate (64 - length u) NUL) ∅, r ++ rest).
Proof.
  intros Hok Hu Hne Hhs r.
  assert (msteps false (length r) (Ms http_request_new (r ++ rest) 0 0)
    (Ms (head_read m u hs READ_HTTP_FINISH http_request_new) (r ++ rest)
       (length (request_head m u v hs) + 1) (length r))) as Hs.
  { etrans; [by eapply (read_request false (length r) _ _ m u v hs [] rest); eauto|].
    unfold r. rewrite after_head_end. apply read_finish; [done|].
    unfold request. rewrite length_app. lia. }
  rewrite (machine_of_steps _ _ _ _ Hs) by done. cbn [head mbuf]. unfold head_read, url_field. cbn [url http_request_new].
  by rewrite drop_replicate.
Qed.

(** ** Properties *)

(** A well-formed request without a body. For a request line with a URL of
    at most 64 bytes and at least one header line, whatever follows it in the
    buffer, the machine finishes, and stores method, protocol and URL. *)
Theorem request_parsed m u v hs rest :
  line_ok u v → (length u ≤ 64)%nat → hs ≠ [] → Forall header_ok hs →
  let r := request m u v hs [] in
  read_http_status_machine http_request_new (r ++ rest) (length r)
  = Ok (Head READ_HTTP_FINISH (Val (Some m)) (Val (Some HTTP)) (u ++ replicate (64 - length u) NUL) ∅, r ++ rest).
Proof. intros. by apply parse_request. Qed.

(** The same for the copy in http_server.cpp, on a C string: method,
    protocol and URL are stored, and the status is not. *)
Theorem server_request_parsed m u v hs rest :
  line_ok u v → (length u ≤ 63)%nat → no_nul u → hs ≠ [] → Forall header_ok hs →
  let r := request m u v hs [] in no_nul r →
  readHttpRequestStatusMachine (r ++ NUL :: rest)
  = Ok (Head READ_HTTP_START (Val (Some m)) (Val (Some HTTP)) (u ++ replicate (64 - length u) NUL) ∅).
Proof.
  intros Hok Hu Hnu Hne Hhs r Hnr. unfold readHttpRequestStatusMachine.
  assert (cstr (r ++ NUL :: rest) 0 = Ok r) as -> by (unfold cstr; by rewrite drop_0, to_nul_app).
  rewrite bind_ok.
  assert (msteps true (length r) (Ms http_struct_new (r ++ NUL :: rest) 0 0)
    (Ms (head_read m u hs READ_HTTP_FINISH http_struct_new) (r ++ NUL :: rest)
       (length (request_head m u v hs) + 1) (length r))) as Hs.
  { etrans; [eapply (read_request true (length r) _ _ m u v hs [] (NUL :: rest)); eauto|].
    - cbn. lia.
    - right. unfold url_field, cstr. cbn [url http_struct_new]. rewrite drop_replicate, drop_0.
      replace (64 - length u)%nat with (S (63 - length u)) by lia. cbn [replicate]. by rewrite to_nul_app.
    - unfold r. rewrite after_head_end. apply read_finish; [done|].
      unfold request. rewrite length_app. lia. }
  apply mloop_steps in Hs. rewrite Nat.sub_0_r in Hs. rewrite Hs, mloop_done, bind_ok by done.
  cbn [head]. unfold head_read, url_field, set_rhs. cbn [url http_struct_new method proto params].
  by rewrite drop_replicate.
Qed.

(** C10: a request with a form. The machine finishes and stores the pairs in
    order, the first of two equal keys winning; but the key of the first pair
    has the line feed that ends the head in front, so that a form that starts
    with [username] leaves the user name empty. *)
Theorem form_params m u v hs ps rest :
  line_ok u v → (length u ≤ 64)%nat → hs ≠ [] → Forall header_ok hs →
  ps ≠ [] → Forall pair_ok ps → (length (form ps) ≤ 127)%nat →
  let r := request m u v hs (form ps) in
  ∃ h b, read_http_status_machine http_request_new (r ++ NUL :: rest) (length r) = Ok (h, b)
    ∧ rhs h = READ_HTTP_FINISH ∧ params h = add_pairs (with_lf ps) ∅
    ∧ ∀ n p, ps = [(bs "username", n); (bs "password", p)] → set_user_info_to_handle h = ([], p).
Proof.
  intros Hok Hu Hne Hhs Hps Hpok Hlen r. set (n := length (request_head m u v hs)).
  set (b := r ++ NUL :: rest).
  assert (length r = n + 2 + length (form ps))%nat as Hr by (unfold r, request; rewrite length_app; cbn; lia).
  assert (0 < length (form ps))%nat.
  { destruct ps as [|[k x] [|q ps]]; [done| |]; cbn; unfold form_pair; rewrite ?length_app; simpl; lia. }
  assert (after_head (length r) n = CONTENT) as Hah.
  { unfold after_head. rewrite !bool_decide_eq_false_2 by lia. done. }
  set (h1 := head_read m u hs CONTENT http_request_new).
  assert (msteps false (length r) (Ms http_request_new b 0 0) (Ms h1 b (n + 1) n)) as Hs.
  { unfold h1. rewrite <-Hah.
    by eapply (read_request false (length r) _ _ m u v hs (form ps) (NUL :: rest)); eauto. }
  pose proof (form_with_lf ps Hps) as Hlf.
  assert (b = (request_head m u v hs ++ [CR]) ++ form (with_lf ps) ++ NUL :: rest) as Hb.
  { rewrite Hlf. unfold b, r, request. by rewrite <-!app_assoc. }
  destruct (get_params_form h1 (request_head m u v hs ++ [CR]) (with_lf ps) rest) as [b' Hg];
    [by destruct ps|by apply with_lf_ok|rewrite Hlf; simpl; lia|done|].
  rewrite <-Hb, length_app, Hlf in Hg. cbn [length] in Hg. fold n in Hg.
  set (h2 := set_params (add_pairs (with_lf ps) ∅) h1) in Hg.
  assert (msteps false (length r) (Ms h1 b (n + 1) n)
    (Ms (set_rhs READ_HTTP_FINISH h2) b' (n + 1) (length r))) as Hs2.
  { eapply rtc_l; [|apply (read_finish _ _ _ _ _ (n + 1)); [done|lia]].
    split; [simpl; lia|]. unfold mstep. cbn [rhs h1 head_read].
    rewrite (get_ok _ _ CR), bind_ok, decide_False; [|done|].
    - replace (Z.of_nat (length r) - Z.of_nat n - 1) with (Z.of_nat (S (length (form ps)))) by lia.
      by rewrite Hg, bind_ok.
    - apply (lookup_mid _ _ _ (form (with_lf ps) ++ NUL :: rest)). by rewrite Hb, <-app_assoc. }
  exists (set_rhs READ_HTTP_FINISH h2), b'. split_and!; [|done|done|].
  - by apply (machine_of_steps _ _ _ (Ms (set_rhs READ_HTTP_FINISH h2) b' (n + 1) (length r))); [etrans|].
  - intros nm p ->. unfold set_user_info_to_handle. cbn [params set_rhs set_params]. vm_compute. done.
Qed.

(** A request without a header line never finishes: the machine waits for
    another header after the empty line. *)
Theorem headerless_never_finishes m u v c rest :
  line_ok u v → (length u ≤ 64)%nat → c ≠ CR →
  let r := request m u v [] [] in
  ∃ h, read_http_status_machine http_request_new (r ++ c :: rest) (length r) = Ok (h, r ++ c :: rest)
    ∧ rhs h = REQUEST_HEAD.
Proof.
  intros Hok Hu Hc r. set (b := r ++ c :: rest).
  assert (length r = length (request_head m u v []) + 2)%nat as Hr by (unfold r, request; rewrite length_app; done).
  destruct (read_head false (length r) http_request_new b m u v [] (CR :: LF :: c :: rest)) as (k & Hs & Hk & Hlk & Hkn);
    [by unfold b, r, request; rewrite <-app_assoc|done|done|done|lia|by left|].
  cbn in Hkn, Hk. rewrite Nat.add_0_r in Hkn.
  exists (head_read m u [] REQUEST_HEAD http_request_new). split; [|done].
  apply (machine_of_steps _ _ _ (Ms (head_read m u [] REQUEST_HEAD http_request_new) b (k + 2) (k + 2))); [|simpl; lia].
  etrans; [exact Hs|]. apply rtc_once. split; [simpl; lia|].
  assert (∀ j d, [CR; LF; c] !! j = Some d → b !! (k + j)%nat = Some d) as Hlook.
  { intros j d Hj. rewrite Hk, <-Hlk at 1. rewrite lookup_app_r by lia.
    rewrite Hlk. replace (k + j - k)%nat with j by lia.
    change (CR :: LF :: c :: rest) with ([CR; LF; c] ++ rest). by apply lookup_app_l_Some. }
  unfold mstep. cbn [rhs head_read].
  rewrite (get_ok _ k CR), bind_ok, decide_True by (done || by rewrite <-(Nat.add_0_r k); apply Hlook).
  rewrite (get_ok _ (k + 1) LF), bind_ok, decide_True by (done || by apply Hlook).
  by rewrite (get_ok _ (k + 2) c), bind_ok, decide_False by (done || by apply Hlook).
Qed.

(** [url] is copied without a look at its size: more than 64 bytes of URL
    are written past its end. *)
Theorem long_url_overflows m u post nread :
  (SP ∉ u) → (64 < length u)%nat → (length (method_name m) + 1 + length u < nread)%nat →
  read_http_status_machine http_request_new (method_name m ++ SP :: u ++ SP :: post) nread = Err OutOfBounds.
Proof.
  intros Hsp Hu Hn. set (b := method_name m ++ SP :: u ++ SP :: post).
  set (pre := method_name m ++ [SP]).
  assert (length pre = length (method_name m) + 1)%nat as Hpre by (unfold pre; rewrite length_app; done).
  assert (b = pre ++ u ++ SP :: post) as Hb by (unfold b, pre; by rewrite <-app_assoc).
  set (h1 := set_rhs URL (set_method m (set_rhs METHORD http_request_new))).
  eapply (machine_of_err _ _ _ (Ms h1 b (length pre) (length (pre ++ u)))).
  - etrans; [apply (read_method false nread http_request_new m (u ++ SP :: post)); [done|lia]|].
    rewrite Hpre. rewrite <-Hpre at 1 2. fold h1. fold b.
    rewrite <-Hpre. apply (skip' false nread u h1 b pre (SP :: post) _ SP); [done|done|done| |destruct u; [simpl in Hu; lia|done]|done].
    rewrite length_app. lia.
  - simpl. rewrite length_app. lia.
  - unfold mstep. cbn [rhs h1 set_rhs set_method].
    rewrite (get_ok _ _ SP), bind_ok, decide_True
      by (done || by apply (lookup_mid _ _ _ post); rewrite Hb, <-app_assoc).
    rewrite memcpy_oob; [done|]. right. left. assert (length (url h1) = 64%nat) as Hl1 by done. cbn [url set_rhs set_method http_request_new h1] in *. rewrite length_app. lia.
Qed.

(** What the machine makes of a request whose URL arrives in two reads: the
    second read starts with [begin = 0], so that the part of the URL in the
    first read is lost; the rest is parsed as if it were the URL. *)
Theorem split_url_loses_prefix m u1 u2 v hs rest1 rest2 :
  u1 ≠ [] → (SP ∉ u1) → line_ok u2 v → (length u2 ≤ 64)%nat → hs ≠ [] → Forall header_ok hs →
  let r1 := method_name m ++ SP :: u1 in
  let r2 := line_rest u2 v hs ++ [CR; LF] in
  ∃ h1 h2, read_http_status_machine http_request_new (r1 ++ rest1) (length r1) = Ok (h1, r1 ++ rest1)
    ∧ rhs h1 = URL
    ∧ read_http_status_machine h1 (r2 ++ rest2) (length r2) = Ok (h2, r2 ++ rest2)
    ∧ rhs h2 = READ_HTTP_FINISH ∧ url h2 = u2 ++ replicate (64 - length u2) NUL.
Proof.
  intros Hne1 Hsp1 Hok Hu2 Hne Hhs r1 r2.
  set (h1 := set_rhs URL (set_method m (set_rhs METHORD http_request_new))).
  set (h2 := head_read m u2 hs READ_HTTP_FINISH h1).
  set (pre := method_name m ++ [SP]). set (b1 := r1 ++ rest1). set (b2 := r2 ++ rest2).
  assert (length pre = length (method_name m) + 1)%nat as Hpre by (unfold pre; rewrite length_app; done).
  assert (b1 = pre ++ u1 ++ rest1) as Hb1 by (unfold b1, r1, pre; by rewrite <-!app_assoc).
  assert (r1 = pre ++ u1) as Hr1 by (unfold r1, pre; by rewrite <-app_assoc).
  assert (0 < length u1)%nat as Hlu1 by (destruct u1; [done|simpl; lia]).
  assert (length r1 = length pre + length u1)%nat as Hlr1 by (by rewrite Hr1, length_app).
  exists h1, h2. split_and!; [| |  |done|].
  - apply (machine_of_steps _ _ _ (Ms h1 b1 (length pre) (length (pre ++ u1)))); [|by rewrite <-Hr1].
    etrans; [|apply (skip' false (length r1) u1 h1 b1 pre rest1 _ SP); try done; by rewrite <-Hr1].
    rewrite Hpre. replace b1 with (method_name m ++ SP :: u1 ++ rest1) by (by rewrite Hb1; unfold pre; rewrite <-!app_assoc).
    apply read_method; [done|lia].
  - done.
  - destruct (read_line false (length r2) h1 b2 [] u2 v hs (CR :: LF :: rest2) m) as (k & Hs & Hk & Hlk & Hkn);
      [by unfold b2, r2; rewrite <-app_assoc|done..|unfold r2; cbn [app]; rewrite (length_app (line_rest _ _ _)); lia|by left|].
    assert (length r2 = length (take k b2 ++ header_lines hs) + 2)%nat as Hr2.
    { cbn [length] in Hkn. unfold r2, line_rest. repeat (rewrite length_app || cbn [length]).
      rewrite Hlk. change (length (bs "HTTP")) with 4%nat. lia. }
    apply (machine_of_steps _ _ _ (Ms h2 b2 (length (take k b2 ++ header_lines hs) + 1) (length r2))); [|done].
    etrans; [exact Hs|]. rewrite <-Hlk at 2.
    etrans; [apply (read_headers false (length r2) hs _ b2 (take k b2) rest2); try done; lia|].
    unfold after_head. rewrite bool_decide_eq_true_2 by lia. apply read_finish; [done|lia].
  - unfold h2, head_read, url_field, h1. cbn [url set_rhs set_method http_request_new]. by rewrite drop_replicate.
Qed.

Lemma mstep_no_error lg nread st st' :
  rhs (head st) ≠ READ_HTTP_ERROR → mstep lg nread st = Ok st' → rhs (head st') ≠ READ_HTTP_ERROR.
Proof.
  destruct st as [h b begin i]. unfold mstep. cbn [head]. intros Hr H.
  destruct (rhs h) eqn:E; ok_inv; repeat (case_match; ok_inv); cbn; congruence.
Qed.

Lemma mloop_no_error lg nread fuel st st' :
  rhs (head st) ≠ READ_HTTP_ERROR → mloop lg nread fuel st = Ok st' → rhs (head st') ≠ READ_HTTP_ERROR.
Proof.
  revert st; induction fuel as [|fuel IH]; intros st Hr H; simpl in H; case_match; ok_inv; try done.
  eapply IH; [|done]. by eapply mstep_no_error.
Qed.

(** An unknown method is not rejected. The machine never ends in
    [READ_HTTP_ERROR], because the state of an unknown method is overwritten at
    once; and in the first request of a connection it then reads the field
    [method], which has no value, at the end of the URL. *)
Theorem unknown_method_not_rejected :
  (∀ h b nread h' b', rhs h ≠ READ_HTTP_ERROR →
     read_http_status_machine h b nread = Ok (h', b') → rhs h' ≠ READ_HTTP_ERROR)
  ∧ ∀ w u post nread,
      let b := w ++ SP :: u ++ SP :: post in
      w ≠ [] → (SP ∉ w) → (SP ∉ u) → u ≠ [] → (length u ≤ 64)%nat → (4 ≤ length b)%nat →
      take 3 b ≠ bs "GET" → take 4 b ≠ bs "POST" → (length w + 1 + length u < nread)%nat →
      read_http_status_machine http_request_new b nread = Err Uninitialised.
Proof.
  split.
  { intros h b nread h' b' Hr H. unfold read_http_status_machine in H. ok_inv.
    apply mloop_no_error in H0; done. }
  intros w u post nread b Hw Hsw Hsu Hu Hlu Hlb Hget Hpost Hn.
  set (pre := w ++ [SP]). set (h1 := set_rhs URL (set_rhs READ_HTTP_ERROR (set_rhs METHORD http_request_new))).
  assert (length pre = length w + 1)%nat as Hpre by (unfold pre; rewrite length_app; done).
  assert (b = pre ++ u ++ SP :: post) as Hb by (unfold b, pre; by rewrite <-app_assoc).
  eapply (machine_of_err _ _ _ (Ms h1 b (length pre) (length (pre ++ u)))).
  - etrans; [apply (skip false nread w http_request_new [] (SP :: u ++ SP :: post) 0 SP); [done..|simpl; lia|done]|].
    etrans; [|apply (skip' false nread u h1 b pre (SP :: post) _ SP); [done|done|done| |done|done]].
    2:{ rewrite length_app. lia. }
    apply rtc_once. split; [simpl; lia|]. cbn [app length]. fold b. unfold mstep. cbn [rhs set_rhs awake_rhs http_request_new].
    rewrite (get_ok _ _ SP), bind_ok, decide_True by (done || by apply (lookup_mid _ _ _ (u ++ SP :: post))).
    assert (∀ lit, (length lit ≤ 4)%nat → take (length lit) b ≠ lit → memcmp_eq b 0 lit = Ok false) as Hcmp.
    { intros lit Hl Hne. unfold memcmp_eq. rewrite decide_True by lia. by rewrite drop_0, bool_decide_eq_false_2. }
    rewrite Hcmp, bind_ok, Hcmp, bind_ok, bind_ok by (done || simpl; lia).
    by rewrite Hpre.
  - simpl. rewrite length_app. lia.
  - unfold mstep. cbn [rhs h1 set_rhs].
    rewrite (get_ok _ _ SP), bind_ok, decide_True
      by (done || by apply (lookup_mid _ _ _ post); rewrite Hb, <-app_assoc).
    assert (length (url h1) = 64%nat) as Hl by done.
    replace (Z.of_nat (length (pre ++ u)) - Z.of_nat (length pre)) with (Z.of_nat (length u))
      by (rewrite length_app; lia).
    rewrite memcpy_ok, bind_ok; [done|cbn in *; lia|]. rewrite Hb, !length_app. lia.
Qed.

(** C40: the machine always comes to an end: it never loops, whatever the state,
    the buffer and the size it is called with. *)
Theorem machine_terminates h b nread : read_http_status_machine h b nread ≠ Timeout.
Proof.
  unfold read_http_status_machine. apply bind_total; [|done].
  apply mloop_not_timeout. simpl. lia.
Qed.

(** ** Witnesses *)

Lemma unknown_method_not_rejected_witness :
  read_http_status_machine http_request_new (bs "PUT" ++ SP :: bs "/a" ++ SP :: bs "HTTP/1.1") 15
  = Err Uninitialised.
Proof.
  apply (proj2 unknown_method_not_rejected (bs "PUT") (bs "/a") (bs "HTTP/1.1") 15%nat);
    [done|vm_compute; set_solver|vm_compute; set_solver|done|vm_compute; lia..|done|done|vm_compute; lia].
Defined.


Definition demo_headers : list bytes := [bs "Host: a"; bs "X: 1"].
Ltac no_byte := vm_compute; set_solver.

Lemma demo_line_ok : line_ok (bs "/index.html") (bs "1.1").
Proof. split_and!; [done|no_byte|done|no_byte]. Qed.
Lemma demo_headers_ok : Forall header_ok demo_headers.
Proof. repeat constructor; try done; no_byte. Qed.
Lemma demo_request_no_nul : no_nul (request GET (bs "/index.html") (bs "1.1") demo_headers []).
Proof. apply no_nul_dec. vm_compute. reflexivity. Qed.

Definition demo_stored (r : read_http_status) : http_head :=
  Head r (Val (Some GET)) (Val (Some HTTP)) (bs "/index.html" ++ replicate 53 NUL) ∅.

Lemma request_parsed_witness :
  let r := request GET (bs "/index.html") (bs "1.1") demo_headers [] in
  read_http_status_machine http_request_new (r ++ [NUL]) (length r)
  = Ok (demo_stored READ_HTTP_FINISH, r ++ [NUL]).
Proof.
  apply (request_parsed GET (bs "/index.html") (bs "1.1") demo_headers [NUL]);
    [apply demo_line_ok|vm_compute; lia|done|apply demo_headers_ok].
Defined.

Lemma server_request_parsed_witness :
  let r := request GET (bs "/index.html") (bs "1.1") demo_headers [] in
  readHttpRequestStatusMachine (r ++ NUL :: []) = Ok (demo_stored READ_HTTP_START).
Proof.
  apply (server_request_parsed GET (bs "/index.html") (bs "1.1") demo_headers []);
    [apply demo_line_ok|vm_compute; lia|no_nul|done|apply demo_headers_ok
    |apply demo_request_no_nul].
Defined.

Definition demo_form : list (bytes * bytes) := [(bs "username", bs "bob"); (bs "password", bs "pw")].

Lemma form_params_witness :
  let r := request POST (bs "/index.html") (bs "1.1") demo_headers (form demo_form) in
  ∃ h b, read_http_status_machine http_request_new (r ++ NUL :: []) (length r) = Ok (h, b)
    ∧ rhs h = READ_HTTP_FINISH ∧ params h = add_pairs (with_lf demo_form) ∅
    ∧ ∀ n p, demo_form = [(bs "username", n); (bs "password", p)] → set_user_info_to_handle h = ([], p).
Proof.
  apply (form_params POST (bs "/index.html") (bs "1.1") demo_headers demo_form []);
    [apply demo_line_ok|vm_compute; lia|done|apply demo_headers_ok|done| |vm_compute; lia].
  repeat constructor; no_byte.
Defined.

Lemma headerless_never_finishes_witness :
  let r := request GET (bs "/index.html") (bs "1.1") [] [] in
  ∃ h, read_http_status_machine http_request_new (r ++ NUL :: []) (length r) = Ok (h, r ++ NUL :: [])
    ∧ rhs h = REQUEST_HEAD.
Proof.
  apply (headerless_never_finishes GET (bs "/index.html") (bs "1.1") NUL []);
    [apply demo_line_ok|vm_compute; lia|done].
Defined.

Lemma long_url_overflows_witness :
  read_http_status_machine http_request_new
    (method_name GET ++ SP :: replicate 65 "a"%char ++ SP :: bs "HTTP") 80 = Err OutOfBounds.
Proof.
  apply (long_url_overflows GET (replicate 65 "a"%char) (bs "HTTP") 80); [no_byte|vm_compute; lia..].
Defined.

Lemma split_url_loses_prefix_witness :
  let r1 := method_name GET ++ SP :: bs "/dir" in
  let r2 := line_rest (bs "/index.html") (bs "1.1") demo_headers ++ [CR; LF] in
  ∃ h1 h2, read_http_status_machine http_request_new (r1 ++ [NUL]) (length r1) = Ok (h1, r1 ++ [NUL])
    ∧ rhs h1 = URL
    ∧ read_http_status_machine h1 (r2 ++ [NUL]) (length r2) = Ok (h2, r2 ++ [NUL])
    ∧ rhs h2 = READ_HTTP_FINISH ∧ url h2 = bs "/index.html" ++ replicate 53 NUL.
Proof.
  apply (split_url_loses_prefix GET (bs "/dir") (bs "/index.html") (bs "1.1") demo_headers [NUL] [NUL]);
    [done|no_byte|apply demo_line_ok|vm_compute; lia|done|apply demo_headers_ok].
Defined.
