(* ===== verification/Acceptor.v ===== *)
(** * The HTTP connection handlers: acceptor.h, acceptor.cpp, connect.h

    A connection is registered with EPOLLONESHOT; [epoll_loop] pushes a task
    for every event, and the tasks [read_conn] and [write_conn] register it
    again.  Results of the system calls are arguments; what the handlers ask of
    the kernel is the list of [aio] they return. *)

From S2P Require Import Prelude Sys Log Buffer WorkerPool Poller HttpRequest.
Open Scope Z_scope.

(** ** Data *)

Record connection := Conn {
  fd : Z;
  epfd : Z;
  req : http_head;
  req_buf : buffer;              (* req->buf *)
  u_info : bytes * bytes }.      (* hi->u_info: user name and password *)

Definition connection_new : connection := Conn (-1) (-1) http_request_new buffer_new ([], []).

Inductive aio :=
  | EpollAdd (fd : Z) (d : direction)
  | EpollMod (fd : Z) (d : direction)    (* with EPOLLET and EPOLLONESHOT *)
  | EpollDel (fd : Z)
  | Close (fd : Z)
  | Delete (fd : Z)                      (* [delete conn] *)
  | Open (name : bytes)
  | SendFile (fd : Z).
Inductive read_end := Eof | Again.

(** ** Set-up *)

Definition INADDR_ANY : bytes := bs "0.0.0.0".

(** [init_acceptor]: the descriptor that it leaves in [listenfd], and its
    result. *)
Definition init_acceptor (port : Z) : sys_prog (Z * bool) :=
  listenfd ← sys Socket_;
  if listenfd =? -1 then mret (listenfd, false)
  else
    sys_ (FcntlNonblock listenfd);;
    sys_ (ReuseAddr listenfd);;
    ret ← sys (Bind listenfd (Inet INADDR_ANY (htons port)));
    if ret =? -1 then mret (listenfd, false)
    else sys_ (Listen listenfd 50);; mret (listenfd, true).

(** [accept_conn]: the sockets that [accept] returns until it fails. *)
Definition accept_conn (epfd : Z) (socks : list Z) : list connection * list aio :=
  (map (λ s, Conn s epfd http_request_new buffer_new ([], [])) socks, map (λ s, EpollAdd s EpollIn) socks).

(** ** [read_conn] *)

(** The body of the loop up to [epoll_ctl], behind a [read] of [nread] bytes: the
    connection, [_buf], and what the connection is to be armed for. *)
Definition read_body (nread : nat) (_buf : bytes) (conn : connection) : outcome (connection * bytes * direction) :=
  rb ← push_back (req_buf conn) _buf (Z.of_nat nread);
  '(h, _buf) ← read_http_status_machine (req conn) _buf nread;
  let '(ui, d) := if decide (rhs h = READ_HTTP_FINISH) then (set_user_info_to_handle h, EpollOut)
                  else (u_info conn, EpollIn) in
  Ok (Conn (fd conn) (epfd conn) h rb ui, _buf, d).

(** One round of the loop: a [read] of the bytes [r], and the body. *)
Definition read_once (r _buf : bytes) (conn : connection) : outcome (connection * bytes * aio) :=
  _buf ← memcpy _buf 0 r 0 (Z.of_nat (length r));
  '(conn, _buf, d) ← read_body (length r) _buf conn;
  Ok (conn, _buf, EpollMod (fd conn) d).

Fixpoint read_loop (reads : list bytes) (_buf : bytes) (conn : connection) (out : list aio) :
    outcome (connection * list aio) :=
  match reads with
  | [] => Ok (conn, out)
  | r :: reads => '(conn, _buf, a) ← read_once r _buf conn; read_loop reads _buf conn (out ++ [a])
  end.

Definition zero_buf : bytes := replicate 1024 NUL.

(** [None]: the connection has been deleted. *)
Definition read_conn (conn : connection) (reads : list bytes) (fin : read_end) :
    outcome (option connection * list aio) :=
  '(conn, out) ← read_loop reads zero_buf conn [];
  match fin with
  | Eof => Ok (None, out ++ [EpollDel (fd conn); Close (fd conn); Delete (fd conn)])
  | Again => Ok (Some conn, out)
  end.

(** ** [write_conn] *)

(** [sprintf(filename, "/var/www/html%s", ...)] into [char filename[64]]. *)
Definition file_name (url : bytes) : outcome bytes :=
  u ← cstr url 0;
  let name := bs "/var/www/html" ++ (if decide (length u = 1)%nat then bs "/index.html" else u) in
  if decide (length name < 64)%nat then Ok name else Err OutOfBounds.

(** The branch that is compiled in (USE_SENDFILE is 1, FORCE_CLOSE 0); [opened]
    is the result of [open]. *)
Definition write_conn (conn : connection) (opened : Z) : outcome (list aio) :=
  name ← file_name (url (req conn));
  if opened <=? 0 then Ok [Open name]
  else Ok [Open name; SendFile opened; EpollMod (fd conn) EpollIn].

(** [writeBody] of the other branch: [fread] of up to 1023 bytes at a time, and
    [rsp_content += buf] of the C string in [buf]. *)
Fixpoint append_chunks (chunks : list bytes) (buf : bytes) (rsp_content : bytes) : outcome bytes :=
  match chunks with
  | [] => Ok rsp_content
  | c :: chunks =>
      buf ← memcpy buf 0 c 0 (Z.of_nat (length c));
      s ← cstr buf 0;
      append_chunks chunks buf (rsp_content ++ s)
  end.
Definition writeBody (rsp_content : bytes) (chunks : list bytes) : outcome bytes :=
  append_chunks chunks zero_buf rsp_content.

(** [write] in a loop, for what it returns each time; the bytes that the kernel
    has taken. *)
Fixpoint write_loop (rsp : bytes) (len : Z) (results : list Z) (sent : bytes) : outcome bytes :=
  if len <=? 0 then Ok sent
  else match results with
       | [] => Timeout
       | nwrite :: results =>
           if nwrite =? -1 then Ok sent
           else write_loop rsp (len - nwrite) results
                  (sent ++ take (Z.to_nat nwrite) (drop (Z.to_nat (Z.of_nat (length rsp) - len)) rsp))
       end.

Definition crlf : bytes := ["013"%char; "010"%char].
Definition rsp_head (rsp_content : bytes) : bytes :=
  bs "HTTP/1.1 200 OK" ++ crlf ++ bs "Content-Type: text/html" ++ crlf
  ++ bs "Content-Length: " ++ dec (Z.of_nat (length rsp_content)) ++ crlf ++ crlf.

(** The branch without [sendfile], acceptor.cpp:168-182; [file]: the chunks that
    [fread] returns, if the file can be opened. *)
Definition respond (conn : connection) (file : option (list bytes)) (results : list Z) : outcome bytes :=
  let rsp_content := bs "I have already receive your request. please wait..." in
  _ ← file_name (url (req conn));
  rsp_content ← (match file with None => Ok rsp_content | Some chunks => writeBody rsp_content chunks end);
  let rsp := rsp_head rsp_content ++ rsp_content in
  write_loop rsp (Z.of_nat (length rsp)) results [].

(** FORCE_CLOSE: the connection does not outlive its response. *)
Definition force_close (conn : connection) : list aio := [EpollDel (fd conn); Close (fd conn); Delete (fd conn)].

(** ** Registration and tasks

    One connection: the kernel reports an armed connection once and disarms it;
    a task reads, arming the connection again after every successful [read],
    until [read] would block ([Blocks]) or returns 0 ([Hangup]). *)
Record asys := Asys {
  armed : bool;
  alive : bool;
  queued : nat;        (* read tasks in the pool's queue *)
  reading : nat }.     (* read tasks in workers *)
Inductive amove := Ready | StartTask | ReadSome | Blocks | Hangup.
#[export] Instance amove_eq : EqDecision amove.
Proof. solve_decision. Defined.

Definition touch (s : asys) (s' : asys) : outcome asys :=
  if alive s then Ok s' else Err UseAfterFree.
Definition anext (s : asys) (m : amove) : option (outcome asys) :=
  match m, reading s with
  | Ready, _ => if armed s then Some (Ok (Asys false (alive s) (S (queued s)) (reading s))) else None
  | StartTask, n => match queued s with
                    | S q => Some (Ok (Asys (armed s) (alive s) q (S n))) | O => None end
  | ReadSome, S n => Some (touch s (Asys true (alive s) (queued s) (S n)))
  | Blocks, S n => Some (touch s (Asys (armed s) (alive s) (queued s) n))
  | Hangup, S n => Some (touch s (Asys false false (queued s) n))
  | _, _ => None
  end.
Fixpoint arun (s : asys) (ms : list amove) : option (outcome asys) :=
  match ms with
  | [] => Some (Ok s)
  | m :: ms => match anext s m with
               | Some (Ok s) => arun s ms
               | Some r => match ms with [] => Some r | _ => None end
               | None => None
               end
  end.
Definition accepted : asys := Asys true true 0 0.

(** ** Lemmas *)

Lemma finished_machine h b nread :
  rhs h = READ_HTTP_FINISH → read_http_status_machine h b nread = Ok (h, b).
Proof.
  intros Hr. apply (machine_of_steps h b nread (Ms h b 0 nread)); [|done].
  apply read_finish; [done|lia].
Qed.

Lemma read_into_buf (buf r : bytes) :
  length buf = 1024%nat → (length r ≤ 1023)%nat →
  memcpy buf 0 r 0 (Z.of_nat (length r)) = Ok (r ++ drop (length r) buf).
Proof. intros Hb Hr. rewrite memcpy_ok by lia. by rewrite take_0, drop_0, take_ge. Qed.

Lemma push_read b (r t : bytes) :
  buffer_wf b → small b → (length r ≤ 1023)%nat →
  ∃ b', push_back b (r ++ t) (Z.of_nat (length r)) = Ok b' ∧ buffer_wf b' ∧ small b'.
Proof.
  intros Hw Hs Hr. destruct (push_back_chunk b r Hw Hs Hr) as (b' & _ & Hp & Hw' & Hs' & _).
  exists b'. split; [|done]. rewrite <-Hp. symmetry. apply push_back_prefix.
Qed.

(** The type of a connection. *)
Definition conn_ok (c : connection) : Prop :=
  head_ok (req c) ∧ buffer_wf (req_buf c) ∧ small (req_buf c).

Lemma conn_new_ok s epfd : conn_ok (Conn s epfd http_request_new buffer_new ([], [])).
Proof. split; [apply http_request_new_ok|]. split; [apply buffer_new_wf|by left]. Qed.

Lemma read_body_fd n buf c c' buf' d : read_body n buf c = Ok (c', buf', d) → fd c' = fd c ∧ epfd c' = epfd c.
Proof. unfold read_body. intros H. ok_inv. destruct v0 as [h b]. by case_decide; ok_inv. Qed.

Lemma read_body_ok n buf c c' buf' d :
  (n ≤ 1023)%nat → length buf = 1024%nat → conn_ok c → read_body n buf c = Ok (c', buf', d) →
  conn_ok c' ∧ length buf' = 1024%nat.
Proof.
  intros Hn Hb (Hh & Hw & Hs). unfold read_body.
  destruct (push_read (req_buf c) (take n buf) (drop n buf) Hw Hs) as (rb & Hp & Hw' & Hs'); [rewrite length_take; lia|].
  rewrite take_drop, length_take, Nat.min_l in Hp by lia. rewrite Hp, bind_ok. intros H. ok_inv.
  destruct v as [h b]. apply read_machine_ok in H0 as [Hh' Hl]; [|done].
  case_decide; ok_inv; split_and!; try done; by rewrite Hl.
Qed.

Lemma finished_reads reads : ∀ _buf conn out,
  rhs (req conn) = READ_HTTP_FINISH → buffer_wf (req_buf conn) → small (req_buf conn) →
  length _buf = 1024%nat → Forall (λ r, (length r ≤ 1023)%nat) reads →
  ∃ conn', read_loop reads _buf conn out = Ok (conn', out ++ replicate (length reads) (EpollMod (fd conn) EpollOut))
    ∧ req conn' = req conn ∧ fd conn' = fd conn.
Proof.
  induction reads as [|r reads IH]; intros _buf conn out Hf Hw Hs Hl Hr; cbn [read_loop].
  { exists conn. by rewrite app_nil_r. }
  apply Forall_cons in Hr as [Hr Hrs]. unfold read_once, read_body. rewrite read_into_buf, bind_ok by done.
  destruct (push_read (req_buf conn) r (drop (length r) _buf) Hw Hs Hr) as (rb & -> & Hw' & Hs').
  rewrite bind_ok, finished_machine, bind_ok by done. rewrite decide_True, !bind_ok by done. cbn [fd].
  destruct (IH (r ++ drop (length r) _buf)
              (Conn (fd conn) (epfd conn) (req conn) rb (set_user_info_to_handle (req conn)))
              (out ++ [EpollMod (fd conn) EpollOut]))
    as (conn' & -> & Hreq & Hfd); [done..| |done|].
  { rewrite length_app, length_drop. lia. }
  exists conn'. split; [|done]. by rewrite <-app_assoc.
Qed.

Lemma file_name_of u t :
  no_nul u → (length u ≤ 50)%nat → length u ≠ 1%nat → file_name (u ++ NUL :: t) = Ok (bs "/var/www/html" ++ u).
Proof.
  intros Hu Hl H1. unfold file_name, cstr. rewrite drop_0, to_nul_app, bind_ok by done.
  rewrite (decide_False (P := length u = 1%nat)) by done. rewrite decide_True; [done|].
  rewrite length_app. change (length (bs "/var/www/html")) with 13%nat. lia.
Qed.

(** What [write] may return for [len] bytes that are left: -1, or at least one
    byte and at most what it is given. *)
Fixpoint results_ok (len : Z) (results : list Z) : Prop :=
  match results with
  | [] => True
  | r :: results => len ≤ 0 ∨ r = -1 ∨ (1 ≤ r ≤ len ∧ results_ok (len - r) results)
  end.

Lemma write_loop_from rsp results : ∀ n,
  (n ≤ length rsp)%nat → results_ok (Z.of_nat (length rsp - n)) results → (length rsp - n ≤ length results)%nat →
  ∃ k, write_loop rsp (Z.of_nat (length rsp - n)) results (take n rsp) = Ok (take k rsp)
       ∧ (n ≤ k)%nat ∧ ((length rsp ≤ k)%nat ∨ -1 ∈ results).
Proof.
  induction results as [|r results IH]; intros n Hn Hok Hl; cbn [write_loop length] in *;
    (destruct (Z.leb_spec (Z.of_nat (length rsp - n)) 0) as [Hz|Hz]; [exists n; split_and!; [done|lia|left; lia]|]);
    [lia|].
  destruct (Z.eqb_spec r (-1)) as [->|Hr].
  { exists n. split_and!; [done|lia|right; by left]. }
  destruct Hok as [?|[?|[Hrange Hok]]]; [lia|done|].
  replace (Z.to_nat (Z.of_nat (length rsp) - Z.of_nat (length rsp - n))) with n by lia.
  assert (Z.of_nat (length rsp - n) - r = Z.of_nat (length rsp - (n + Z.to_nat r))) as Hlen by lia.
  rewrite take_take_drop, Hlen. rewrite Hlen in Hok.
  destruct (IH (n + Z.to_nat r)%nat) as (k & Hk & Hge & Hend); [lia|done|lia|].
  exists k. split_and!; [done|lia|]. destruct Hend; [by left|right; by right].
Qed.

(** ** Properties *)

(** A request on a new connection, and the file that it opens. *)
Lemma request_read sock epfd m u v hs :
  line_ok u v → (2 ≤ length u ≤ 50)%nat → no_nul u → hs ≠ [] → Forall header_ok hs →
  let r := request m u v hs [] in (length r ≤ 1023)%nat →
  ∃ conn, read_conn (Conn sock epfd http_request_new buffer_new ([], [])) [r] Again
      = Ok (Some conn, [EpollMod sock EpollOut])
    ∧ fd conn = sock
    ∧ ∀ opened, write_conn conn opened
      = Ok (if opened <=? 0 then [Open (bs "/var/www/html" ++ u)]
            else [Open (bs "/var/www/html" ++ u); SendFile opened; EpollMod sock EpollIn]).
Proof.
  intros Hok Hu Hnu Hne Hhs r Hr. unfold read_conn. cbn [read_loop]. unfold read_once, read_body.
  rewrite read_into_buf, bind_ok by (done || by rewrite length_replicate).
  destruct (push_read buffer_new r (drop (length r) zero_buf) buffer_new_wf) as (rb & Hp & _); [by left|done|].
  cbn [req_buf]. rewrite Hp, bind_ok. cbn [req].
  pose proof (parse_request m u v hs (drop (length r) zero_buf) Hok ltac:(lia) Hne Hhs) as Hm.
  cbv zeta in Hm. fold r in Hm. rewrite Hm, bind_ok. rewrite decide_True, !bind_ok by done. cbn [app].
  eexists. split; [reflexivity|]. split; [done|]. intros opened. unfold write_conn. cbn [req url fd].
  replace (64 - length u)%nat with (S (63 - length u)) by lia. cbn [replicate].
  rewrite file_name_of, bind_ok by (done || lia). by case_match.
Qed.

(** A request, from the bytes to the file. A well-formed request of at most
    1023 bytes that one [read] delivers, with a URL of 2 to 50 bytes, registers
    the connection for writing; the write task opens the file that is named by
    [/var/www/html] and the URL as it is (a URL with [..] included), sends it
    without a response head, and registers the connection for reading, unless
    [open] fails: then nothing is sent and nothing is registered. *)
Theorem request_served m u v hs opened :
  line_ok u v → (2 ≤ length u ≤ 50)%nat → no_nul u → hs ≠ [] → Forall header_ok hs →
  let r := request m u v hs [] in (length r ≤ 1023)%nat →
  ∃ conn, read_conn connection_new [r] Again = Ok (Some conn, [EpollMod (-1) EpollOut])
    ∧ write_conn conn opened
      = Ok (if opened <=? 0 then [Open (bs "/var/www/html" ++ u)]
            else [Open (bs "/var/www/html" ++ u); SendFile opened; EpollMod (-1) EpollIn]).
Proof.
  intros Hok Hu Hnu Hne Hhs r Hr. destruct (request_read (-1) (-1) m u v hs Hok Hu Hnu Hne Hhs Hr) as (conn & H1 & _ & H2).
  by exists conn.
Qed.

(** [write_conn] and the size of the URL. The file name has 64 bytes: with a
    URL of 51 bytes or more, as [url] of 64 bytes can hold it, [sprintf] writes
    past its end, or reads past the end of the URL. *)
Theorem file_name_overflows conn opened u t :
  url (req conn) = u ++ t → no_nul u → (51 ≤ length u)%nat →
  (t = [] ∨ ∃ t', t = NUL :: t') → write_conn conn opened = Err OutOfBounds.
Proof.
  intros Hurl Hnu Hu Ht. unfold write_conn, file_name. rewrite Hurl. unfold cstr. rewrite drop_0.
  destruct Ht as [->|[t' ->]]; [by rewrite app_nil_r, no_nul_to_nul|].
  rewrite to_nul_app, bind_ok by done. rewrite (decide_False (P := length u = 1%nat)) by lia.
  rewrite decide_False; [done|]. rewrite length_app. change (length (bs "/var/www/html")) with 13%nat. lia.
Qed.

(** A connection serves one request only. Once its request is finished,
    whatever is read from it later leaves the parsed request as it is, and each
    read registers the connection for writing: a second request on it is
    answered with the file of the first. *)
Theorem second_request_ignored conn reads opened :
  rhs (req conn) = READ_HTTP_FINISH → buffer_wf (req_buf conn) → small (req_buf conn) →
  Forall (λ r, (length r ≤ 1023)%nat) reads →
  ∃ conn', read_conn conn reads Again = Ok (Some conn', replicate (length reads) (EpollMod (fd conn) EpollOut))
    ∧ write_conn conn' opened = write_conn conn opened.
Proof.
  intros Hf Hw Hs Hr. unfold read_conn.
  destruct (finished_reads reads zero_buf conn [] Hf Hw Hs) as (conn' & -> & Hreq & Hfd); [done..|].
  rewrite bind_ok. exists conn'. split; [done|]. unfold write_conn. by rewrite Hreq, Hfd.
Qed.

(** EPOLLONESHOT does not protect a connection. The first task registers it
    again inside of its loop, a second task starts, the first one reads the end
    of the stream and deletes the connection, and the second one goes on with
    it; a task alone (that reads and then blocks or hangs up) is safe. *)
Theorem read_conn_use_after_free :
  arun accepted [Ready; StartTask; ReadSome; Ready; StartTask; Hangup; ReadSome] = Some (Err UseAfterFree)
  ∧ ∀ n last, last = Blocks ∨ last = Hangup →
      ∃ s, arun accepted ([Ready; StartTask] ++ replicate n ReadSome ++ [last]) = Some (Ok s)
           ∧ reading s = 0%nat ∧ alive s = bool_decide (last = Blocks).
Proof.
  split; [done|]. intros n last Hlast. cbn.
  assert (∀ b, ∃ s, arun (Asys b true 0 1) (replicate n ReadSome ++ [last]) = Some (Ok s)
           ∧ reading s = 0%nat ∧ alive s = bool_decide (last = Blocks)) as H; [|apply H].
  induction n as [|n IH]; intros b; [|apply IH].
  destruct Hlast as [-> | ->]; by eexists.
Qed.

(** [writeBody] and files of more than 1023 bytes. The last, shorter chunk
    is appended with the bytes that the chunk before it left in the buffer:
    for a text of one full chunk [a] and a rest [c], the answer has 1023 bytes
    after [a], the rest of [a] among them. *)
Theorem writeBody_stale rsp a c :
  no_nul a → no_nul c → length a = 1023%nat → (length c ≤ 1023)%nat →
  writeBody rsp [a; c] = Ok (rsp ++ a ++ c ++ drop (length c) a).
Proof.
  intros Ha Hc Hla Hlc. unfold writeBody. cbn [append_chunks].
  assert (zero_buf = replicate 1023 NUL ++ [NUL]) as -> by done.
  rewrite memcpy_ok, bind_ok by (rewrite ?length_app, ?length_replicate; simpl; lia).
  rewrite take_0, drop_0, take_ge, Hla by lia. cbn [app].
  rewrite (drop_app_length' (replicate 1023 NUL)) by (by rewrite length_replicate).
  assert (cstr (a ++ [NUL]) 0 = Ok a) as -> by (unfold cstr; by rewrite drop_0, to_nul_app).
  rewrite bind_ok, memcpy_ok, bind_ok by (rewrite ?length_app; simpl; lia).
  rewrite take_0, drop_0, take_ge by lia. cbn [app Nat.add].
  rewrite drop_app_le by lia. rewrite app_assoc.
  assert (no_nul (c ++ drop (length c) a)) as Hno.
  { unfold no_nul in *. intros [?|H]%elem_of_app; [done|]. apply Ha. by eapply subseteq_drop. }
  unfold cstr. rewrite drop_0, to_nul_app, bind_ok by done. by rewrite <-app_assoc.
Qed.

(** C12: the response without [sendfile], by writes of any sizes. The bytes that
    the kernel gets are, in order and without a gap, the head with the length
    of the content and the content; if no [write] fails it is all of them, and
    the loop ends after at most as many writes as there are bytes.  A write
    that fails, EAGAIN included, ends the loop and cuts the response. *)
Theorem response_written conn file results name content :
  let greeting := bs "I have already receive your request. please wait..." in
  file_name (url (req conn)) = Ok name →
  (match file with None => Ok greeting | Some chunks => writeBody greeting chunks end) = Ok content →
  let rsp := rsp_head content ++ content in
  results_ok (Z.of_nat (length rsp)) results → (length rsp ≤ length results)%nat →
  ∃ k, respond conn file results = Ok (take k rsp) ∧ ((length rsp ≤ k)%nat ∨ -1 ∈ results).
Proof.
  intros greeting Hn Hc rsp Hok Hl. unfold respond. rewrite Hn, bind_ok. fold greeting. rewrite Hc, bind_ok.
  destruct (write_loop_from rsp results 0) as (k & Hk & _ & Hend); rewrite ?Nat.sub_0_r in *; [lia|done|done|].
  exists k. split; [exact Hk|done].
Qed.

(** ** Witnesses *)

Definition get_request : bytes := request GET (bs "/a/../b") (bs "1.1") [bs "Host: a"] [].

Lemma request_served_witness :
  ∃ conn, read_conn connection_new [get_request] Again = Ok (Some conn, [EpollMod (-1) EpollOut])
    ∧ write_conn conn 5
      = Ok [Open (bs "/var/www/html/a/../b"); SendFile 5; EpollMod (-1) EpollIn].
Proof.
  apply (request_served GET (bs "/a/../b") (bs "1.1") [bs "Host: a"] 5);
    [|vm_compute; lia|no_nul|done| |vm_compute; lia].
  - split_and!; [done|no_byte|done|no_byte].
  - repeat constructor; [done|no_byte].
Defined.

Lemma file_name_overflows_witness :
  let conn := Conn 5 3 (set_url (replicate 51 "a"%char ++ NUL :: replicate 12 NUL) http_request_new)
                buffer_new ([], []) in
  write_conn conn 7 = Err OutOfBounds.
Proof.
  apply (file_name_overflows
           (Conn 5 3 (set_url (replicate 51 "a"%char ++ NUL :: replicate 12 NUL) http_request_new)
              buffer_new ([], [])) 7 (replicate 51 "a"%char) (NUL :: replicate 12 NUL));
    [reflexivity|no_nul|vm_compute; lia|right; by eexists].
Defined.

Definition finished_conn : connection :=
  Conn 5 3 (set_rhs READ_HTTP_FINISH (set_url (bs "/a" ++ replicate 62 NUL) http_request_new)) buffer_new ([], []).

Lemma second_request_ignored_witness :
  ∃ conn', read_conn finished_conn [get_request] Again = Ok (Some conn', [EpollMod 5 EpollOut])
    ∧ write_conn conn' 7 = write_conn finished_conn 7.
Proof.
  apply (second_request_ignored finished_conn [get_request] 7);
    [reflexivity|apply buffer_new_wf|by left|repeat constructor; vm_compute; lia].
Defined.

Lemma writeBody_stale_witness :
  writeBody [] [replicate 1023 "a"%char; bs "b"]
  = Ok ([] ++ replicate 1023 "a"%char ++ bs "b" ++ drop (length (bs "b")) (replicate 1023 "a"%char)).
Proof.
  apply (writeBody_stale [] (replicate 1023 "a"%char) (bs "b"));
    [no_nul|no_nul|by rewrite length_replicate|vm_compute; lia].
Defined.

Definition small_conn : connection := Conn 5 3 (set_url (bs "/a" ++ replicate 62 NUL) http_request_new) buffer_new ([], []).

Lemma response_written_witness :
  let content := bs "I have already receive your request. please wait...<html>" in
  let rsp := rsp_head content ++ content in
  respond small_conn (Some [bs "<html>"]) [100; 43; 1; -1] = Ok (take 143 rsp)
  ∧ ∃ k, respond small_conn (Some [bs "<html>"]) (30 :: replicate 200 1) = Ok (take k rsp)
       ∧ ((length rsp ≤ k)%nat ∨ -1 ∈ 30 :: replicate 200 1).
Proof.
  split; [vm_compute; reflexivity|].
  apply (response_written small_conn (Some [bs "<html>"]) (30 :: replicate 200 1) (bs "/var/www/html/a"));
    [vm_compute; reflexivity|vm_compute; reflexivity| |vm_compute; lia].
  vm_compute. repeat (right; right; split; [split; discriminate|]). 
  repeat first [exact I|left; discriminate].
Defined.
