(* ===== verification/HttpPieces.v ===== *)
(** * A request that arrives in pieces

    TCP cuts a request where it likes, and [read_conn] gives every piece to the
    parser of http_request.cpp, in one task or in several.  A head may be cut
    inside of its header lines; a cut in front of the empty line makes the
    parser miss it. *)

From S2P Require Import Prelude Buffer WorkerPool Poller HttpRequest Acceptor.
Open Scope Z_scope.

(** ** Pieces of header lines *)

(** [x] ends a line that an earlier piece has begun; every [y] is a line, or
    the beginning of the last one. *)
Definition chunk (x : bytes) (ys : list bytes) : bytes := x ++ concat ((λ y, CR :: LF :: y) <$> ys).
Definition head_piece (c : bytes) : Prop := ∃ x ys, c = chunk x ys ∧ (CR ∉ x) ∧ Forall header_ok ys.

(** The line and the header lines, in [cs], with the empty line. *)
Definition head_end : bytes := [CR; LF; CR; LF].
Fixpoint ended_pieces (cs : list bytes) : list bytes :=
  match cs with [] => [] | [c] => [c ++ head_end] | c :: cs => c :: ended_pieces cs end.
Definition request_pieces (m : http_method) (u v : bytes) (cs : list bytes) : list bytes :=
  match ended_pieces cs with [] => [] | r :: rs => (request_head m u v [] ++ r) :: rs end.

Lemma request_pieces_concat m u v cs :
  cs ≠ [] → concat (request_pieces m u v cs) = request_head m u v [] ++ concat cs ++ head_end.
Proof.
  intros Hne. assert (concat (ended_pieces cs) = concat cs ++ head_end) as He.
  { clear -Hne. induction cs as [|c [|c' cs] IH]; [done|cbn; by rewrite !app_nil_r|].
    change (concat (ended_pieces (c :: c' :: cs))) with (c ++ concat (ended_pieces (c' :: cs))).
    rewrite IH by done. cbn. by rewrite <-!app_assoc. }
  unfold request_pieces. destruct (ended_pieces cs) as [|r rs] eqn:Hr.
  - destruct cs as [|c [|]]; done.
  - cbn in He |- *. by rewrite <-app_assoc, He.
Qed.

(** Whole header lines are such a piece. *)
Lemma header_lines_piece x hs :
  header_ok x → Forall header_ok hs → header_lines (x :: hs) = chunk x hs ++ [CR; LF] ∧ head_piece (chunk x hs).
Proof.
  intros Hx Hhs. split; [|by exists x, hs; split_and!; [|apply Hx|]]. unfold header_lines, chunk. clear -x.
  revert x. induction hs as [|y hs IH]; intros x; cbn; [by rewrite !app_nil_r|].
  specialize (IH y). cbn in IH. rewrite IH, <-!app_assoc. cbn. by rewrite <-!app_assoc.
Qed.

(** The parser stays in the header lines. *)
Lemma read_chunk lg nread h ys : ∀ b pre x post begin,
  b = pre ++ chunk x ys ++ post → rhs h = REQUEST_HEAD → CR ∉ x → Forall header_ok ys →
  (length (pre ++ chunk x ys) ≤ nread)%nat →
  ∃ begin', msteps lg nread (Ms h b begin (length pre)) (Ms h b begin' (length (pre ++ chunk x ys))).
Proof.
  induction ys as [|y ys IH]; intros b pre x post begin Hb Hr Hx Hys Hn.
  { unfold chunk in *. cbn in *. rewrite app_nil_r in *. exists begin. destruct x as [|c x].
    - rewrite app_nil_r. constructor.
    - apply (skip' lg nread (c :: x) h b pre post _ CR); by rewrite ?Hr. }
  apply Forall_cons in Hys as [[Hy Hycr] Hys].
  assert (chunk x (y :: ys) = x ++ CR :: LF :: chunk y ys) as Hc by done. rewrite Hc in *.
  set (pre2 := (pre ++ x) ++ [CR; LF]).
  assert (b = pre2 ++ chunk y ys ++ post) as Hb2 by (rewrite Hb; unfold pre2; by rewrite <-!app_assoc).
  assert (length (pre ++ x) + 2 = length pre2)%nat as Hl by (unfold pre2; by rewrite (length_app _ [_; _])).
  destruct (IH b pre2 y post (length pre2) Hb2 Hr Hycr Hys) as (bg & Hs).
  { unfold pre2. by rewrite <-!app_assoc. }
  exists bg. replace (pre ++ x ++ CR :: LF :: chunk y ys) with (pre2 ++ chunk y ys) by (unfold pre2; by rewrite <-!app_assoc).
  transitivity (Ms h b begin (length (pre ++ x))); [|eapply rtc_l; [|exact Hs]].
  - destruct x as [|c x]; [rewrite app_nil_r; constructor|].
    apply (skip' lg nread (c :: x) h b pre (CR :: LF :: chunk y ys ++ post) _ CR); rewrite ?Hr; try done.
    + by rewrite Hb, <-!app_assoc.
    + rewrite !length_app in *. lia.
  - split; [cbn; rewrite !length_app in *; cbn in Hn; lia|]. destruct y as [|d y]; [done|].
    apply not_elem_of_cons in Hycr as [Hd _]. rewrite <-Hl.
    apply (head_next_line _ _ _ _ _ _ d); [done|..|congruence].
    + apply (lookup_mid _ _ _ (LF :: chunk (d :: y) ys ++ post)). by rewrite Hb, <-!app_assoc.
    + replace (length (pre ++ x) + 1)%nat with (length (pre ++ x ++ [CR])) by (rewrite !length_app; simpl; lia).
      apply (lookup_mid _ _ _ (chunk (d :: y) ys ++ post)). by rewrite Hb, <-!app_assoc.
    + rewrite Hl. eapply lookup_mid. rewrite Hb2. done.
Qed.

(** The empty line behind them. *)
Lemma read_head_end lg nread h b pre post begin :
  b = pre ++ head_end ++ post → rhs h = REQUEST_HEAD → nread = (length pre + 4)%nat →
  ∃ begin', msteps lg nread (Ms h b begin (length pre)) (Ms (set_rhs READ_HTTP_FINISH h) b begin' nread).
Proof.
  intros Hb Hr Hn. exists (length pre + 3)%nat.
  assert (∀ j d, head_end !! j = Some d → b !! (length pre + j)%nat = Some d) as Hlook.
  { intros j d Hj. rewrite Hb, lookup_app_r by lia. replace (length pre + j - length pre)%nat with j by lia.
    by apply lookup_app_l_Some. }
  eapply rtc_l.
  { split; [cbn; lia|]. apply head_empty_line; [done|rewrite <-(Nat.add_0_r (length pre)); by apply Hlook|by apply Hlook..]. }
  unfold after_head. rewrite bool_decide_eq_true_2 by lia. apply read_finish; [done|lia].
Qed.

(** ** One piece in the parser *)

Lemma parse_chunk h c rest :
  rhs h = REQUEST_HEAD → head_piece c → read_http_status_machine h (c ++ rest) (length c) = Ok (h, c ++ rest).
Proof.
  intros Hr (x & ys & -> & Hx & Hys).
  destruct (read_chunk false (length (chunk x ys)) h ys (chunk x ys ++ rest) [] x rest 0 eq_refl Hr Hx Hys) as (bg & Hs);
    [done|]. by rewrite (machine_of_steps _ _ _ _ Hs).
Qed.

Lemma parse_last h c rest :
  rhs h = REQUEST_HEAD → head_piece c →
  let r := c ++ head_end in
  read_http_status_machine h (r ++ rest) (length r) = Ok (set_rhs READ_HTTP_FINISH h, r ++ rest).
Proof.
  intros Hr (x & ys & -> & Hx & Hys) r. set (b := r ++ rest).
  assert (length r = length (chunk x ys) + 4)%nat as Hl by (unfold r; by rewrite length_app).
  assert (b = chunk x ys ++ head_end ++ rest) as Hb by (unfold b, r; by rewrite <-app_assoc).
  destruct (read_chunk false (length r) h ys b [] x (head_end ++ rest) 0 Hb Hr Hx Hys) as (bg & Hs); [cbn; lia|].
  destruct (read_head_end false (length r) h b (chunk x ys) rest bg Hb Hr Hl) as (bg' & Hs').
  rewrite (machine_of_steps h b (length r) (Ms (set_rhs READ_HTTP_FINISH h) b bg' (length r))); [done| |done].
  etrans; [exact Hs|exact Hs'].
Qed.

(** What the request line leaves. *)
Definition line_read (m : http_method) (u : bytes) (r : read_http_status) : http_head :=
  Head r (Val (Some m)) (Val (Some HTTP)) (u ++ replicate (64 - length u) NUL) ∅.

Lemma start_pieces m u v c post nread :
  line_ok u v → (length u ≤ 64)%nat → head_piece c →
  let r := request_head m u v [] ++ c in
  (length r ≤ nread)%nat →
  ∃ bg, msteps false nread (Ms http_request_new (r ++ post) 0 0)
          (Ms (line_read m u REQUEST_HEAD) (r ++ post) bg (length r)).
Proof.
  intros Hok Hu (x & ys & -> & Hx & Hys) r Hn. set (b := r ++ post). unfold r in Hn. rewrite length_app in Hn.
  destruct (read_head false nread http_request_new b m u v [] (chunk x ys ++ post)) as (k & Hs & Hk & Hlk & Hkn);
    [unfold b, r; by rewrite <-app_assoc|done..|lia|by left|].
  cbn in Hkn. rewrite Nat.add_0_r in Hkn.
  assert (head_read m u [] REQUEST_HEAD http_request_new = line_read m u REQUEST_HEAD) as Hh.
  { unfold head_read, line_read, url_field. cbn [url http_request_new params]. by rewrite drop_replicate. }
  rewrite Hh in Hs.
  destruct (read_chunk false nread (line_read m u REQUEST_HEAD) ys b (take k b) x post k) as (bg & Hs'); try done.
  { rewrite length_app, Hlk. lia. }
  exists bg. etrans; [exact Hs|]. rewrite length_app, Hlk in Hs'. unfold r. by rewrite length_app, <-Hkn.
Qed.

Lemma parse_first m u v c rest :
  line_ok u v → (length u ≤ 64)%nat → head_piece c →
  let r := request_head m u v [] ++ c in
  read_http_status_machine http_request_new (r ++ rest) (length r) = Ok (line_read m u REQUEST_HEAD, r ++ rest).
Proof.
  intros Hok Hu Hc r. destruct (start_pieces m u v c rest (length r) Hok Hu Hc) as (bg & Hs); [done|].
  by apply (machine_of_steps _ _ _ _ Hs).
Qed.

Lemma parse_only m u v c rest :
  line_ok u v → (length u ≤ 64)%nat → head_piece c →
  let r := (request_head m u v [] ++ c) ++ head_end in
  read_http_status_machine http_request_new (r ++ rest) (length r) = Ok (line_read m u READ_HTTP_FINISH, r ++ rest).
Proof.
  intros Hok Hu Hc r. set (r0 := request_head m u v [] ++ c) in r.
  assert (length r = length r0 + 4)%nat as Hl by (unfold r; by rewrite length_app).
  destruct (start_pieces m u v c (head_end ++ rest) (length r) Hok Hu Hc) as (bg & Hs); [fold r0; lia|fold r0 in Hs].
  destruct (read_head_end false (length r) (line_read m u REQUEST_HEAD) (r ++ rest) r0 rest bg) as (bg' & Hs');
    [unfold r; by rewrite <-app_assoc|done..|].
  unfold r in *. rewrite <-app_assoc in *. rewrite (machine_of_steps _ _ _ _ (transitivity Hs Hs')); done.
Qed.

(** Up to the line end behind the last header line, where the parser looks at
    the next byte in the buffer. *)
Lemma parse_to_empty_line m u v x hs d rest :
  line_ok u v → (length u ≤ 64)%nat → header_ok x → Forall header_ok hs → d ≠ CR →
  let r := request_head m u v (x :: hs) in
  read_http_status_machine http_request_new (r ++ d :: rest) (length r) = Ok (line_read m u REQUEST_HEAD, r ++ d :: rest).
Proof.
  intros Hok Hu Hx Hhs Hd r. destruct (header_lines_piece x hs Hx Hhs) as [Hlines Hpiece].
  set (r0 := request_head m u v [] ++ chunk x hs). set (b := r ++ d :: rest).
  assert (r = r0 ++ [CR; LF]) as Hr.
  { unfold r, r0, request_head, line_rest. rewrite Hlines. repeat (cbn; rewrite <-!app_assoc). done. }
  assert (b = r0 ++ [CR; LF; d] ++ rest) as Hb by (unfold b; by rewrite Hr, <-app_assoc).
  assert (length r = length r0 + 2)%nat as Hlr by (by rewrite Hr, length_app).
  destruct (start_pieces m u v (chunk x hs) ([CR; LF; d] ++ rest) (length r) Hok Hu Hpiece) as (bg & Hs); [fold r0; lia|].
  fold r0 in Hs. rewrite <-Hb in Hs.
  assert (∀ j e, [CR; LF; d] !! j = Some e → b !! (length r0 + j)%nat = Some e) as Hlook.
  { intros j e Hj. rewrite Hb, lookup_app_r by lia. replace (length r0 + j - length r0)%nat with j by lia.
    by apply lookup_app_l_Some. }
  rewrite (machine_of_steps _ b _ (Ms (line_read m u REQUEST_HEAD) b (length r0 + 2) (length r0 + 2))); [done| |cbn; lia].
  etrans; [exact Hs|]. apply rtc_once. split; [cbn; lia|].
  apply (head_next_line _ _ _ _ _ _ d); [done|rewrite <-(Nat.add_0_r (length r0)); by apply Hlook|by apply Hlook..|done].
Qed.

(** A line end alone: what follows in the buffer is left from before. *)
Lemma parse_line_end h c rest :
  rhs h = REQUEST_HEAD → c ≠ CR →
  read_http_status_machine h ([CR; LF] ++ c :: rest) 2 = Ok (h, [CR; LF] ++ c :: rest).
Proof.
  intros Hr Hc. rewrite (machine_of_steps h _ 2 (Ms h ([CR; LF] ++ c :: rest) 2 2)); [done| |done].
  apply rtc_once. split; [cbn; lia|]. by apply (head_next_line false 2 h ([CR; LF] ++ c :: rest) 0 0 c).
Qed.

(** ** Pieces on a connection *)

(** The pieces [rs] take the parser through the states [hs], whatever is in the
    buffer behind them. *)
Inductive parses : http_head → list bytes → list http_head → Prop :=
  | parses_nil h : parses h [] []
  | parses_cons h r h1 rs hs :
      (∀ rest, read_http_status_machine h (r ++ rest) (length r) = Ok (h1, r ++ rest)) →
      parses h1 rs hs → parses h (r :: rs) (h1 :: hs).

Definition last_head (h : http_head) (hs : list http_head) : http_head := default h (last hs).

Lemma last_head_cons h h1 hs : last_head h (h1 :: hs) = last_head h1 hs.
Proof. unfold last_head. rewrite last_cons. by destruct (last hs). Qed.

Lemma parses_app h rs1 rs2 hs :
  parses h (rs1 ++ rs2) hs → ∃ hs1 hs2, hs = hs1 ++ hs2 ∧ parses h rs1 hs1 ∧ parses (last_head h hs1) rs2 hs2.
Proof.
  revert h hs; induction rs1 as [|r rs IH]; intros h hs H; cbn in H.
  { exists [], hs. split_and!; [done|constructor|done]. }
  inversion H as [|? ? h1 ? hs' Hm Hp]; subst. destruct (IH _ _ Hp) as (hs1 & hs2 & -> & H1 & H2).
  exists (h1 :: hs1), hs2. rewrite last_head_cons. split_and!; [done|by constructor|done].
Qed.

(** What a connection is registered for when the parser is in [h]. *)
Definition interest (h : http_head) : direction := if decide (rhs h = READ_HTTP_FINISH) then EpollOut else EpollIn.
Definition buffers_ok (c : connection) : Prop := buffer_wf (req_buf c) ∧ small (req_buf c).

Lemma read_body_parsed r t c h1 :
  (length r ≤ 1023)%nat → buffers_ok c →
  read_http_status_machine (req c) (r ++ t) (length r) = Ok (h1, r ++ t) →
  ∃ c', read_body (length r) (r ++ t) c = Ok (c', r ++ t, interest h1)
    ∧ req c' = h1 ∧ fd c' = fd c ∧ buffers_ok c'.
Proof.
  intros Hr [Hw Hs] Hm. unfold read_body.
  destruct (push_read (req_buf c) r t Hw Hs Hr) as (rb & -> & Hb1).
  rewrite bind_ok, Hm, bind_ok. unfold interest. case_decide; by eexists.
Qed.

Lemma read_once_parsed r buf c h1 :
  length buf = 1024%nat → (length r ≤ 1023)%nat → buffers_ok c →
  read_http_status_machine (req c) (r ++ drop (length r) buf) (length r) = Ok (h1, r ++ drop (length r) buf) →
  ∃ c', read_once r buf c = Ok (c', r ++ drop (length r) buf, EpollMod (fd c) (interest h1))
    ∧ req c' = h1 ∧ fd c' = fd c ∧ buffers_ok c'.
Proof.
  intros Hl Hr Hb Hm. unfold read_once. rewrite read_into_buf, bind_ok by done.
  destruct (read_body_parsed r _ c h1 Hr Hb Hm) as (c' & -> & Hreq & Hfd & Hb'). rewrite bind_ok, Hfd. by eexists.
Qed.

Lemma parses_read rs : ∀ h hs buf c out,
  parses h rs hs → req c = h → buffers_ok c → length buf = 1024%nat → Forall (λ r, (length r ≤ 1023)%nat) rs →
  ∃ c', read_loop rs buf c out = Ok (c', out ++ ((λ h, EpollMod (fd c) (interest h)) <$> hs))
    ∧ req c' = last_head h hs ∧ fd c' = fd c ∧ buffers_ok c'.
Proof.
  induction rs as [|r rs IH]; intros h hs buf c out Hp Hc Hb Hl Hrs; inversion Hp as [|? ? h1 ? hs' Hm Hp']; subst.
  { exists c. cbn. by rewrite app_nil_r. }
  apply Forall_cons in Hrs as [Hr Hrs].
  destruct (read_once_parsed r buf c h1 Hl Hr Hb (Hm _)) as (c1 & Hread & Hc1 & Hfd1 & Hb1).
  destruct (IH h1 hs' (r ++ drop (length r) buf) c1 (out ++ [EpollMod (fd c) (interest h1)]))
    as (c' & Hrl & Hreq & Hfd & Hok); [done..|rewrite length_app, length_drop; lia|done|].
  exists c'. cbn [read_loop]. rewrite Hread, bind_ok, Hrl, last_head_cons, Hfd1. cbn [fmap list_fmap].
  rewrite <-app_assoc. split_and!; [done..|by rewrite Hfd|done].
Qed.

(** Several tasks, one after the other, on one connection. *)
Fixpoint read_tasks (tasks : list (list bytes)) (conn : connection) : outcome (connection * list aio) :=
  match tasks with
  | [] => Ok (conn, [])
  | reads :: tasks =>
      '(c, out) ← read_conn conn reads Again;
      match c with
      | Some conn => '(conn, out') ← read_tasks tasks conn; Ok (conn, out ++ out')
      | None => Err UseAfterFree
      end
  end.

Lemma parses_tasks tasks : ∀ h hs c,
  parses h (concat tasks) hs → req c = h → buffers_ok c → Forall (λ r, (length r ≤ 1023)%nat) (concat tasks) →
  ∃ c', read_tasks tasks c = Ok (c', (λ h, EpollMod (fd c) (interest h)) <$> hs)
    ∧ req c' = last_head h hs ∧ fd c' = fd c ∧ buffers_ok c'.
Proof.
  induction tasks as [|rs tasks IH]; intros h hs c Hp Hc Hb Hl; cbn [concat] in *.
  { inversion Hp; subst. by exists c. }
  apply parses_app in Hp as (hs1 & hs2 & -> & H1 & H2). apply Forall_app in Hl as [Hl1 Hl2].
  destruct (parses_read rs h hs1 zero_buf c [] H1 Hc Hb) as (c1 & Hr1 & Hreq & Hfd & Hb1); [done..|].
  destruct (IH _ hs2 c1 H2 Hreq Hb1 Hl2) as (c2 & Hr2 & Hreq2 & Hfd2 & Hb2). exists c2.
  cbn [read_tasks]. unfold read_conn. rewrite Hr1, !bind_ok, Hr2, bind_ok, Hfd. rewrite fmap_app.
  split_and!; [done| |by rewrite Hfd2|done]. rewrite Hreq2. unfold last_head.
  rewrite last_app. by destruct (last hs2).
Qed.

(** The states of the pieces of a request. *)
Definition piece_heads (m : http_method) (u : bytes) (n : nat) : list http_head :=
  replicate n (line_read m u REQUEST_HEAD) ++ [line_read m u READ_HTTP_FINISH].

Lemma parses_rest m u cs c :
  Forall head_piece (c :: cs) →
  parses (line_read m u REQUEST_HEAD) (ended_pieces (c :: cs)) (piece_heads m u (length cs)).
Proof.
  revert c; induction cs as [|c' cs IH]; intros c Hcs; apply Forall_cons in Hcs as [Hc Hcs].
  - cbn. econstructor; [|constructor]. intros rest. by apply (parse_last (line_read m u REQUEST_HEAD) c rest).
  - change (ended_pieces (c :: c' :: cs)) with (c :: ended_pieces (c' :: cs)). cbn [length piece_heads replicate app].
    econstructor; [|by apply IH]. intros rest. by apply parse_chunk.
Qed.

Lemma parses_request m u v cs c :
  line_ok u v → (length u ≤ 64)%nat → Forall head_piece (c :: cs) →
  parses http_request_new (request_pieces m u v (c :: cs)) (piece_heads m u (length cs)).
Proof.
  intros Hok Hu Hcs. apply Forall_cons in Hcs as [Hc Hcs]. unfold request_pieces. destruct cs as [|c' cs].
  - cbn. econstructor; [|constructor]. intros rest. rewrite app_assoc. by apply (parse_only m u v c rest).
  - change (ended_pieces (c :: c' :: cs)) with (c :: ended_pieces (c' :: cs)). cbn [length piece_heads replicate app].
    econstructor; [|by apply parses_rest]. intros rest. by apply (parse_first m u v c rest).
Qed.

(** The write task behind a parsed request. *)
Lemma write_parsed m u conn opened :
  req conn = line_read m u READ_HTTP_FINISH → (2 ≤ length u ≤ 50)%nat → no_nul u →
  write_conn conn opened
  = Ok (if opened <=? 0 then [Open (bs "/var/www/html" ++ u)]
        else [Open (bs "/var/www/html" ++ u); SendFile opened; EpollMod (fd conn) EpollIn]).
Proof.
  intros Hreq Hu Hnu. unfold write_conn. rewrite Hreq. unfold line_read. cbn [url].
  replace (64 - length u)%nat with (S (63 - length u)) by lia. cbn [replicate].
  rewrite file_name_of, bind_ok by (done || lia). by case_match.
Qed.

Lemma last_piece m u h n : last_head h (piece_heads m u n) = line_read m u READ_HTTP_FINISH.
Proof. unfold last_head, piece_heads. by rewrite last_snoc. Qed.

(** One task reads all the pieces. *)
Lemma pieces_read m u v c cs sock epfd :
  line_ok u v → (length u ≤ 64)%nat → Forall head_piece (c :: cs) →
  let rs := request_pieces m u v (c :: cs) in
  Forall (λ r, (length r ≤ 1023)%nat) rs →
  ∃ conn out, read_loop rs zero_buf (Conn sock epfd http_request_new buffer_new ([], [])) [] = Ok (conn, out)
    ∧ fd conn = sock ∧ req conn = line_read m u READ_HTTP_FINISH.
Proof.
  intros Hok Hu Hcs rs Hl. pose proof (parses_request m u v cs c Hok Hu Hcs) as Hp.
  destruct (parses_read _ _ _ zero_buf (Conn sock epfd http_request_new buffer_new ([], [])) [] Hp) as (conn & Hr & Hreq & Hfd & _);
    [done|split; [apply buffer_new_wf|by left]|done|done|].
  eexists conn, _. rewrite last_piece in Hreq. done.
Qed.

(** ** Properties *)

(** C9: a request in pieces. A head whose cuts lie inside of header lines (or
    directly behind the request line), however many pieces there are and
    however many tasks read them, one after the other, leaves on its connection
    exactly what it leaves when one [read] delivers it: the method, the
    protocol and the whole URL. The connection is armed for reading after every
    piece but the last, and for writing after that one; and the write task
    then opens the file. *)
Theorem request_in_pieces m u v c cs tasks sock epfd :
  line_ok u v → (2 ≤ length u ≤ 50)%nat → no_nul u → Forall head_piece (c :: cs) →
  concat tasks = request_pieces m u v (c :: cs) → Forall (λ r, (length r ≤ 1023)%nat) (concat tasks) →
  ∃ conn, read_tasks tasks (Conn sock epfd http_request_new buffer_new ([], []))
      = Ok (conn, replicate (length cs) (EpollMod sock EpollIn) ++ [EpollMod sock EpollOut])
    ∧ fd conn = sock ∧ req conn = line_read m u READ_HTTP_FINISH
    ∧ ∀ opened, write_conn conn opened
      = Ok (if opened <=? 0 then [Open (bs "/var/www/html" ++ u)]
            else [Open (bs "/var/www/html" ++ u); SendFile opened; EpollMod sock EpollIn]).
Proof.
  intros Hok Hu Hnu Hcs Ht Hl. pose proof (parses_request m u v cs c Hok ltac:(lia) Hcs) as Hp. rewrite <-Ht in Hp.
  destruct (parses_tasks tasks _ _ (Conn sock epfd http_request_new buffer_new ([], [])) Hp) as (conn & Hr & Hreq & Hfd & _);
    [done|split; [apply buffer_new_wf|by left]|done|].
  rewrite last_piece in Hreq. exists conn. rewrite Hr. unfold piece_heads. rewrite fmap_app, fmap_replicate.
  split_and!; [done..|]. intros opened. by rewrite (write_parsed m u), Hfd.
Qed.

(** The empty line alone. If the cut is directly in front of the empty line, the
    parser does not see it: it looks for it behind the line before, past the
    bytes that it was given, and later it is a line like any other. The
    request never finishes, and the connection waits for more. *)
Theorem empty_line_apart m u v x hs sock epfd :
  line_ok u v → (length u ≤ 64)%nat → header_ok x → Forall header_ok hs →
  let r := request_head m u v (x :: hs) in
  (length r ≤ 1023)%nat →
  ∃ conn, read_conn (Conn sock epfd http_request_new buffer_new ([], [])) [r; [CR; LF]] Again
      = Ok (Some conn, [EpollMod sock EpollIn; EpollMod sock EpollIn])
    ∧ rhs (req conn) = REQUEST_HEAD.
Proof.
  intros Hok Hu Hx Hhs r Hl.
  assert (∃ n, drop (length r) zero_buf = NUL :: replicate n NUL) as [n Hz].
  { exists (1023 - length r)%nat. unfold zero_buf. rewrite drop_replicate. by replace (1024 - length r)%nat with (S (1023 - length r)) by lia. }
  destruct (read_once_parsed r zero_buf (Conn sock epfd http_request_new buffer_new ([], [])) (line_read m u REQUEST_HEAD))
    as (c1 & Hread1 & Hc1 & Hfd1 & Hb1); [done|done|split; [apply buffer_new_wf|by left]|rewrite Hz; by apply parse_to_empty_line|].
  assert (∃ d rest, d ≠ CR ∧ drop 2 (r ++ drop (length r) zero_buf) = d :: rest) as (d & rest & Hd & Hdrop).
  { destruct m; eexists _, _; by split; [|reflexivity]. }
  destruct (read_once_parsed [CR; LF] (r ++ drop (length r) zero_buf) c1 (line_read m u REQUEST_HEAD))
    as (c2 & Hread2 & Hc2 & Hfd2 & Hb2); [rewrite length_app, length_drop; change (length zero_buf) with 1024%nat; lia|cbn; lia|done|..].
  { rewrite Hc1. cbn [length]. rewrite Hdrop. by apply parse_line_end. }
  exists c2. unfold read_conn. cbn [read_loop]. rewrite Hread1, bind_ok, Hread2, !bind_ok, Hfd1, Hc2. done.
Qed.

Lemma parses_finished h rs : rhs h = READ_HTTP_FINISH → parses h rs (replicate (length rs) h).
Proof. intros Hh. induction rs as [|r rs IH]; constructor; [|done]. intros rest. by apply finished_machine. Qed.

Lemma parses_append h rs1 hs1 rs2 hs2 :
  parses h rs1 hs1 → parses (last_head h hs1) rs2 hs2 → parses h (rs1 ++ rs2) (hs1 ++ hs2).
Proof.
  induction 1 as [|h r h1 rs hs Hm _ IH]; [done|]. rewrite last_head_cons. cbn [app]. constructor; auto.
Qed.

(** A body of its own. If the head of a form ends with a [read], the request is
    finished there, and the body that comes in the next ones is never looked
    at: the request has no parameters. *)
Theorem body_apart_ignored m u v c cs body sock epfd :
  line_ok u v → (length u ≤ 64)%nat → Forall head_piece (c :: cs) →
  let rs := request_pieces m u v (c :: cs) ++ body in
  Forall (λ r, (length r ≤ 1023)%nat) rs →
  ∃ conn, read_conn (Conn sock epfd http_request_new buffer_new ([], [])) rs Again
      = Ok (Some conn, replicate (length cs) (EpollMod sock EpollIn) ++ replicate (S (length body)) (EpollMod sock EpollOut))
    ∧ req conn = line_read m u READ_HTTP_FINISH ∧ params (req conn) = ∅ ∧ set_user_info_to_handle (req conn) = ([], []).
Proof.
  intros Hok Hu Hcs rs Hl. pose proof (parses_request m u v cs c Hok Hu Hcs) as Hp.
  eapply (parses_append _ _ _ body) in Hp; [|apply parses_finished; by rewrite last_piece].
  destruct (parses_read _ _ _ zero_buf (Conn sock epfd http_request_new buffer_new ([], [])) [] Hp) as (conn & Hr & Hreq & Hfd & _);
    [done|split; [apply buffer_new_wf|by left]|done|done|].
  rewrite last_piece in Hreq, Hr.
  assert (req conn = line_read m u READ_HTTP_FINISH) as Hreq'.
  { rewrite Hreq. unfold last_head. rewrite last_app. pose proof (last_piece m u http_request_new (length cs)) as Hlast.
    unfold last_head in Hlast. destruct body as [|b body]; [done|]. cbn [length].
    by rewrite replicate_S_end, last_snoc. }
  fold rs in Hr. exists conn. unfold read_conn. rewrite Hr, bind_ok, Hreq'. split_and!; try done.
  unfold piece_heads. rewrite !fmap_app, !fmap_replicate, <-app_assoc. done.
Qed.

(** ** Witness *)

(** Two pieces, read by two tasks; the first one ends inside of a header. *)
Definition demo_pieces : list bytes := [bs "Host: a" ++ [CR; LF] ++ bs "Acc"; bs "ept: b"].
Lemma demo_pieces_ok : Forall head_piece demo_pieces.
Proof.
  repeat constructor.
  - exists (bs "Host: a"), [bs "Acc"]. split_and!; [done|by vm_compute; set_solver|]. repeat constructor; [done|vm_compute; set_solver].
  - exists (bs "ept: b"), []. split_and!; [done|by vm_compute; set_solver|constructor].
Qed.

Lemma request_in_pieces_witness :
  ∃ conn, read_tasks ((λ r, [r]) <$> request_pieces GET (bs "/index.html") (bs "1.1") demo_pieces)
            (Conn 7 4 http_request_new buffer_new ([], []))
      = Ok (conn, [EpollMod 7 EpollIn; EpollMod 7 EpollOut])
    ∧ fd conn = 7 ∧ req conn = line_read GET (bs "/index.html") READ_HTTP_FINISH
    ∧ ∀ opened, write_conn conn opened
      = Ok (if opened <=? 0 then [Open (bs "/var/www/html/index.html")]
            else [Open (bs "/var/www/html/index.html"); SendFile opened; EpollMod 7 EpollIn]).
Proof.
  apply (request_in_pieces GET (bs "/index.html") (bs "1.1") (bs "Host: a" ++ [CR; LF] ++ bs "Acc") [bs "ept: b"] _ 7 4).
  - apply demo_line_ok.
  - cbn. lia.
  - unfold no_nul. vm_compute. set_solver.
  - apply demo_pieces_ok.
  - reflexivity.
  - repeat constructor; vm_compute; lia.
Defined.
