(* ===== verification/EventLoop.v ===== *)
(** * The event loop on the worker pool: acceptor.cpp

    The three parts of a running acceptor together: the kernel's registrations,
    the thread in [epoll_loop], and the pool ([WorkerPool.pnext]) whose workers
    run [read_conn] and [write_conn] step by step on the connections of a
    shared heap.  The loop is the thread of index [worker_num] of the task
    queue.  [enext] makes one move of one part; what the kernel reports and what
    the system calls return is in the move.

    A task is cut at its system calls.  Between [read] and [epoll_ctl] it works
    on the request of its connection, and before [open] it reads the URL there;
    two tasks of one connection that are there at the same time, one of them
    changing what the other one touches, are a data race.  Without a race the
    order of two such pieces does not matter, so that each is one step. *)

From S2P Require Import Prelude Sys Log JobQueue WorkerPool Poller Buffer HttpRequest Acceptor.
Open Scope Z_scope.

(** ** The kernel *)

(** [close] removes a registration, too. *)
Definition epoll_ctl (ptr : Z) (regs : gmap Z reg) (a : aio) : gmap Z reg :=
  match a with
  | EpollAdd fd d => ctl_add fd (Reg ptr d true true) regs
  | EpollMod fd d => ctl_mod fd (Reg ptr d true true) regs
  | EpollDel fd | Close fd => delete fd regs
  | Delete _ | Open _ | SendFile _ => regs
  end.

(** ** The loop *)

(** [conn->cb]: the two functions that the loop hands to the pool. *)
Inductive callback := Read_conn | Write_conn.
#[export] Instance callback_eq : EqDecision callback.
Proof. solve_decision. Defined.

Inductive handling := Accepts | Runs (cb : callback) | Ignores.

(** acceptor.cpp:246-266. *)
Definition dispatch (listenfd : Z) (ev : epoll_event) : handling :=
  if data_fd (ev_data ev) =? listenfd then Accepts
  else if negb (Z.land (events ev) EPOLLIN =? 0) then Runs Read_conn
  else if negb (Z.land (events ev) EPOLLOUT =? 0) then Runs Write_conn
  else Ignores.

(** In [epoll_wait] or at the next event; in [wp->run]; behind it, at
    [LogUtil::debug("...%d", conn->fd)]. *)
Inductive loop_pc :=
  | LEvents (evs : list epoll_event)
  | LRun (conn : Z) (evs : list epoll_event)
  | LLog (conn : Z) (evs : list epoll_event).

Definition rest (l : loop_pc) : list epoll_event :=
  match l with LEvents evs | LRun _ evs | LLog _ evs => evs end.

Definition loop_conn (l : loop_pc) : option Z :=
  match l with LEvents _ => None | LRun conn _ | LLog conn _ => Some conn end.

Abbreviation task := (@queue_element callback Z).

(** Where a task is.  [read_conn]: at [read] with its [_buf]; behind a [read] of
    [nread] bytes; at [epoll_ctl] in the loop; behind a [read] that returned 0,
    at [epoll_ctl], [close] and [delete].  [write_conn]: before [open]; at
    [sendfile]; at [epoll_ctl]. *)
Inductive frame :=
  | AtRead (_buf : bytes)
  | GotData (nread : nat) (_buf : bytes)
  | AtArm (d : direction) (_buf : bytes)
  | AtDel | AtClose | AtDelete
  | AtOpen
  | AtSend (file : Z)
  | AtRearm.

Definition fresh (qe : task) : frame :=
  if decide (_cb qe = Some Read_conn) then AtRead zero_buf else AtOpen.

Abbreviation eevent := (@occurrence callback).

Section event_loop.
Context {Q : Type} `{!AtomicQueue (A := task) Q}.

(** [frames]: where the task is that a worker runs, until it returns. *)
Record esys := Esys {
  epfd_ : Z;
  listenfd : Z;
  regs : gmap Z reg;
  heap : gmap Z connection;
  loop : loop_pc;
  wp : @worker_pool callback Z Q;
  frames : gmap nat frame }.

Definition set_loop (l : loop_pc) (s : esys) : esys :=
  Esys (epfd_ s) (listenfd s) (regs s) (heap s) l (wp s) (frames s).
Definition set_wp (w : worker_pool) (s : esys) : esys :=
  Esys (epfd_ s) (listenfd s) (regs s) (heap s) (loop s) w (frames s).
Definition set_frames (fs : gmap nat frame) (s : esys) : esys :=
  Esys (epfd_ s) (listenfd s) (regs s) (heap s) (loop s) (wp s) fs.
Definition set_kernel (r : gmap Z reg) (h : gmap Z connection) (s : esys) : esys :=
  Esys (epfd_ s) (listenfd s) r h (loop s) (wp s) (frames s).

(** The constructor [acceptor(port)], whose pool is made of the queue [q], and
    the head of [epoll_loop]; the result of [init_acceptor] is ignored, and so
    is that of [epoll_ctl]. *)
Definition acceptor_start (port : Z) (q : Q) : sys_prog esys :=
  '(lfd, _) ← init_acceptor port;
  epfd ← sys EpollCreate;
  ret ← sys (EpollAddListen epfd lfd);
  let regs := if ret =? 0 then {[ lfd := Reg (uint lfd) EpollIn false true ]} else ∅ in
  mret (Esys epfd lfd regs ∅ (LEvents []) (started 20 None q) ∅).

(** acceptor_stage.cpp: a log line, an acceptor on the default port, and its
    loop.  The result of [LogUtil::init] ([Log.init]) is ignored. *)
Definition DEFAULT_TCP_PORT : Z := 16666.
Definition acceptor_stage (q : Q) : sys_prog esys :=
  sys_lift (log_debug (bs "acceptor stage begin initialized"));;
  acceptor_start DEFAULT_TCP_PORT q.

(** The thread index of the loop. *)
Definition loop_thread (s : esys) : nat := length (workers (wp s)).

Inductive emove :=
  | Wait (ready : list (Z * Z))           (* [epoll_wait] returns *)
  | Event (socks : list (Z * Z))          (* one event; what [accept] and [new] return *)
  | LogRun                                (* the log line behind [wp->run] *)
  | Pool (m : @pmove callback Z)
  | Reads (t : nat) (r : read_result)     (* [read] in worker [t] returns *)
  | Handles (t : nat)                     (* the body of [read_conn]'s loop, up to [epoll_ctl] *)
  | Arms (t : nat)                        (* [epoll_ctl] with EPOLL_CTL_MOD *)
  | Closes (t : nat)                      (* [epoll_ctl] with EPOLL_CTL_DEL; [close]; [delete] *)
  | Writes (t : nat) (opened : Z)         (* [write_conn] up to [open], which returns *)
  | Sends (t : nat).                      (* [sendfile] *)

(** The new connections go to addresses where nothing lives. *)
Fixpoint add_conns (cs : list (Z * (connection * aio))) (rh : gmap Z reg * gmap Z connection) :
    option (gmap Z reg * gmap Z connection) :=
  match cs with
  | [] => Some rh
  | (a, (c, io)) :: cs =>
      match rh.2 !! a with
      | None => add_conns cs (epoll_ctl a rh.1 io, <[a := c]> rh.2)
      | Some _ => None
      end
  end.

Definition accept_event (socks : list (Z * Z)) (s : esys) : option esys :=
  let '(cs, ios) := accept_conn (epfd_ s) (map fst socks) in
  if forallb (λ x, 0 <? x.1) socks then
    '(r, h) ← add_conns (zip (map snd socks) (zip cs ios)) (regs s, heap s);
    Some (set_kernel r h s)
  else None.

(** [Function func(conn->cb, conn); wp->run(func);] up to the call of [push]. *)
Definition run_call (cb : callback) (conn : Z) (evs : list epoll_event) (s : esys) :
    option (outcome (esys * eevent)) :=
  match heap s !! conn, run_element (Function_of (Some cb) conn) with
  | None, _ => Some (Err UseAfterFree)
  | Some _, Ok qe =>
      '(w, e) ← pnext (wp s) (InQueue (Call (loop_thread s) (Push qe)));
      Some (Ok (set_loop (LRun conn evs) (set_wp w s), PoolDid e))
  | Some _, Err f => Some (Err f)
  | Some _, Timeout => None
  end.

Definition handle_event (socks : list (Z * Z)) (s : esys) : option (outcome (esys * eevent)) :=
  match loop s with
  | LEvents (ev :: evs) =>
      match dispatch (listenfd s) ev with
      | Accepts => s ← accept_event socks s; Some (Ok (set_loop (LEvents evs) s, Quiet))
      | Runs cb => run_call cb (ev_data ev) evs s
      | Ignores => Some (Ok (set_loop (LEvents evs) s, Quiet))
      end
  | _ => None
  end.

(** The pool moves; the loop goes on when its [push] returns. *)
Definition pool_move (m : @pmove callback Z) (s : esys) : option (esys * eevent) :=
  '(w, fs, returned, e) ← pool_step fresh m (wp s) (frames s);
  let s' := set_frames fs (set_wp w s) in
  Some (match loop s with
        | LRun conn evs => if returned : bool then set_loop (LLog conn evs) s' else s'
        | _ => s'
        end, PoolDid e).

(** The task of worker [t], as long as it runs: its connection, and where it is. *)
Definition task_at (t : nat) (s : esys) : option (Z * frame) :=
  match workers (wp s) !! t, frames s !! t with
  | Some (WRun qe), Some fr => Some (qe_arg qe, fr)
  | _, _ => None
  end.

Definition set_frame (t : nat) (fr : frame) (s : esys) : esys := set_frames (<[t := fr]> (frames s)) s.
Definition returns (t : nat) (s : esys) : esys := set_frames (delete t (frames s)) s.

(** ** Races *)

(** Does the body change the URL? *)
Definition changes_url (conn : connection) (nread : nat) (_buf : bytes) : bool :=
  match read_body nread _buf conn with
  | Ok (conn', _, _) => negb (bool_decide (url (req conn') = url (req conn)))
  | _ => true
  end.

(** Two pieces that work on the connection [conn]: every body of [read_conn] writes
    to the buffer of the request, and [write_conn] reads the URL. *)
Definition conflict (conn : connection) (x y : frame) : bool :=
  match x, y with
  | GotData _ _, GotData _ _ => true
  | GotData nread buf, AtOpen | AtOpen, GotData nread buf => changes_url conn nread buf
  | _, _ => false
  end.

(** Does the task of worker [t], at [fr] with the connection at [a], race with
    the task of another worker? *)
Definition races (t : nat) (a : Z) (fr : frame) (conn : connection) (s : esys) : bool :=
  existsb (λ u, match task_at u s with
                | Some (b, fr') => negb (u =? t)%nat && (b =? a) && conflict conn fr fr'
                | None => false
                end) (seq 0 (length (workers (wp s)))).

(** ** Steps of the tasks *)

(** Everything that a task does reads its connection. *)
Definition on_conn (t : nat) (s : esys) (k : Z → frame → connection → option (outcome esys)) : option (outcome esys) :=
  '(a, fr) ← task_at t s;
  match heap s !! a with
  | Some conn => k a fr conn
  | None => Some (Err UseAfterFree)
  end.

Definition read_step (t : nat) (r : read_result) (s : esys) : option (outcome esys) :=
  on_conn t s (λ a fr conn,
    match fr, r with
    | AtRead buf, Data r =>
        if decide (0 < length r ≤ 1023)%nat then
          Some (buf ← memcpy buf 0 r 0 (Z.of_nat (length r)); Ok (set_frame t (GotData (length r) buf) s))
        else None
    | AtRead buf, ReadAgain => Some (Ok (returns t s))
    | AtRead buf, ReadEof => Some (Ok (set_frame t AtDel s))
    | _, _ => None
    end).

Definition handle_step (t : nat) (s : esys) : option (outcome esys) :=
  on_conn t s (λ a fr conn,
    match fr with
    | GotData nread buf =>
        if races t a fr conn s then Some (Err DataRace)
        else Some ('(conn, buf, d) ← read_body nread buf conn;
                   Ok (set_frame t (AtArm d buf) (set_kernel (regs s) (<[a := conn]> (heap s)) s)))
    | _ => None
    end).

Definition arm_step (t : nat) (s : esys) : option (outcome esys) :=
  on_conn t s (λ a fr conn,
    match fr with
    | AtArm d buf =>
        Some (Ok (set_frame t (AtRead buf) (set_kernel (epoll_ctl a (regs s) (EpollMod (fd conn) d)) (heap s) s)))
    | AtRearm =>
        Some (Ok (returns t (set_kernel (epoll_ctl a (regs s) (EpollMod (fd conn) EpollIn)) (heap s) s)))
    | _ => None
    end).

Definition close_step (t : nat) (s : esys) : option (outcome esys) :=
  on_conn t s (λ a fr conn,
    match fr with
    | AtDel => Some (Ok (set_frame t AtClose (set_kernel (epoll_ctl a (regs s) (EpollDel (fd conn))) (heap s) s)))
    | AtClose => Some (Ok (set_frame t AtDelete (set_kernel (epoll_ctl a (regs s) (Close (fd conn))) (heap s) s)))
    | AtDelete => Some (Ok (returns t (set_kernel (regs s) (delete a (heap s)) s)))
    | _ => None
    end).

Definition write_step (t : nat) (opened : Z) (s : esys) : option (outcome esys) :=
  on_conn t s (λ a fr conn,
    match fr with
    | AtOpen =>
        if races t a fr conn s then Some (Err DataRace)
        else Some (_ ← file_name (url (req conn));
                   Ok (if opened <=? 0 then returns t s else set_frame t (AtSend opened) s))
    | _ => None
    end).

Definition send_step (t : nat) (s : esys) : option (outcome esys) :=
  on_conn t s (λ a fr conn,
    match fr with
    | AtSend file => Some (Ok (set_frame t AtRearm s))
    | _ => None
    end).

(** The step of worker [t]'s task in a move. *)
Definition task_step (m : emove) (s : esys) : option (outcome esys) :=
  match m with
  | Reads t r => read_step t r s
  | Handles t => handle_step t s
  | Arms t => arm_step t s
  | Closes t => close_step t s
  | Writes t opened => write_step t opened s
  | Sends t => send_step t s
  | Wait _ | Event _ | LogRun | Pool _ => None
  end.

Definition quietly (r : outcome esys) : outcome (esys * eevent) := s ← r; Ok (s, Quiet).

Definition enext (s : esys) (m : emove) : option (outcome (esys * eevent)) :=
  match m with
  | Wait ready =>
      match loop s with
      | LEvents [] =>
          if decide (length ready ≤ MAXEVENTS)%nat then
            '(r, evs) ← epoll_wait ready (regs s);
            Some (Ok (set_loop (LEvents evs) (set_kernel r (heap s) s), Reported evs))
          else None
      | _ => None
      end
  | Event socks => handle_event socks s
  | LogRun =>
      match loop s with
      | LLog conn evs =>
          match heap s !! conn with
          | Some _ => Some (Ok (set_loop (LEvents evs) s, Quiet))
          | None => Some (Err UseAfterFree)
          end
      | _ => None
      end
  | Pool m => r ← pool_move m s; Some (Ok r)
  | _ => r ← task_step m s; Some (quietly r)
  end.

Definition erun := machine_run enext.
Definition ereach := machine_reach enext.
Lemma erun_ereach s0 ms s es : erun s0 ms = Some (Ok (s, es)) → ereach s0 ms s es.
Proof. apply machine_run_reach. Qed.

(** The task that an event becomes. *)
Definition task_of (lfd : Z) (ev : epoll_event) : option task :=
  match dispatch lfd ev with Runs cb => Some (Qe (Some cb) (ev_data ev)) | _ => None end.

(** What should become of an event: a read task of its connection if the
    connection is readable, else a write task if it is writable; the listening
    socket's events get no task. *)
Definition due (lfd : Z) (ev : epoll_event) : option task :=
  if decide (data_fd (ev_data ev) = lfd) then None
  else if Z.testbit (events ev) 0 then Some (Qe (Some Read_conn) (ev_data ev))
  else if Z.testbit (events ev) 2 then Some (Qe (Some Write_conn) (ev_data ev))
  else None.

Lemma loop_task_of_due lfd ev : task_of lfd ev = due lfd ev.
Proof.
  unfold task_of, due, dispatch. change EPOLLIN with (2 ^ 0). change EPOLLOUT with (2 ^ 2). rewrite !land_bit, !negb_involutive by done.
  destruct (Z.eqb_spec (data_fd (ev_data ev)) lfd); [by rewrite decide_True|rewrite decide_False by done].
  by destruct (Z.testbit (events ev) 0), (Z.testbit (events ev) 2).
Qed.

(** ** The steps of the tasks, as a relation *)

Inductive task_moves (s : esys) (t : nat) (a : Z) (c : connection) : emove → frame → esys → Prop :=
  | TmRead r buf buf' :
      (0 < length r ≤ 1023)%nat → memcpy buf 0 r 0 (Z.of_nat (length r)) = Ok buf' →
      task_moves s t a c (Reads t (Data r)) (AtRead buf) (set_frame t (GotData (length r) buf') s)
  | TmAgain buf : task_moves s t a c (Reads t ReadAgain) (AtRead buf) (returns t s)
  | TmEof buf : task_moves s t a c (Reads t ReadEof) (AtRead buf) (set_frame t AtDel s)
  | TmHandle n buf c' buf' d :
      races t a (GotData n buf) c s = false → read_body n buf c = Ok (c', buf', d) →
      task_moves s t a c (Handles t) (GotData n buf)
        (set_frame t (AtArm d buf') (set_kernel (regs s) (<[a := c']> (heap s)) s))
  | TmArm d buf :
      task_moves s t a c (Arms t) (AtArm d buf)
        (set_frame t (AtRead buf) (set_kernel (epoll_ctl a (regs s) (EpollMod (fd c) d)) (heap s) s))
  | TmRearm :
      task_moves s t a c (Arms t) AtRearm
        (returns t (set_kernel (epoll_ctl a (regs s) (EpollMod (fd c) EpollIn)) (heap s) s))
  | TmDel :
      task_moves s t a c (Closes t) AtDel
        (set_frame t AtClose (set_kernel (epoll_ctl a (regs s) (EpollDel (fd c))) (heap s) s))
  | TmClose :
      task_moves s t a c (Closes t) AtClose
        (set_frame t AtDelete (set_kernel (epoll_ctl a (regs s) (Close (fd c))) (heap s) s))
  | TmDelete : task_moves s t a c (Closes t) AtDelete (returns t (set_kernel (regs s) (delete a (heap s)) s))
  | TmNoFile opened name :
      races t a AtOpen c s = false → file_name (url (req c)) = Ok name → opened ≤ 0 →
      task_moves s t a c (Writes t opened) AtOpen (returns t s)
  | TmOpen opened name :
      races t a AtOpen c s = false → file_name (url (req c)) = Ok name → 0 < opened →
      task_moves s t a c (Writes t opened) AtOpen (set_frame t (AtSend opened) s)
  | TmSend file : task_moves s t a c (Sends t) (AtSend file) (set_frame t AtRearm s).

Lemma on_conn_inv t s k r :
  on_conn t s k = Some r →
  ∃ a fr, task_at t s = Some (a, fr)
    ∧ (heap s !! a = None ∧ r = Err UseAfterFree ∨ ∃ c, heap s !! a = Some c ∧ k a fr c = Some r).
Proof.
  unfold on_conn. intros ([a fr] & Ht & H)%bind_Some. exists a, fr. split; [done|].
  destruct (heap s !! a) as [c|]; [right; eauto|left; by simplify_eq].
Qed.

Lemma task_step_moves m s s' :
  task_step m s = Some (Ok s') →
  ∃ t a fr c, task_at t s = Some (a, fr) ∧ heap s !! a = Some c ∧ task_moves s t a c m fr s'.
Proof.
  intros H. destruct m as [| | | |t r|t|t|t|t o|t]; try done; simpl in H;
    apply on_conn_inv in H as (a & fr & Ht & [[_ ?]|(c & Hc & H)]); try done;
    exists t, a, fr, c; (split_and!; [done..|]); destruct fr; try done.
  - destruct r; simplify_eq; [|constructor..]. case_decide; [|done]. apply (inj Some) in H. ok_inv. by constructor.
  - case_match eqn:Hr; [done|]. apply (inj Some) in H. ok_inv. destruct v as [[c' buf'] d]. ok_inv. by constructor.
  - simplify_eq. constructor.
  - simplify_eq. constructor.
  - simplify_eq. constructor.
  - simplify_eq. constructor.
  - simplify_eq. constructor.
  - case_match eqn:Hr; [done|]. apply (inj Some) in H. ok_inv.
    destruct (Z.leb_spec o 0); by econstructor.
  - simplify_eq. constructor.
Qed.

Definition is_task (m : emove) : bool := match m with Wait _ | Event _ | LogRun | Pool _ => false | _ => true end.

Lemma enext_task s m s' e :
  enext s m = Some (Ok (s', e)) →
  is_task m = false ∨ e = Quiet ∧ ∃ t a fr c, task_at t s = Some (a, fr) ∧ heap s !! a = Some c ∧ task_moves s t a c m fr s'.
Proof.
  intros H. destruct (is_task m) eqn:Hm; [right|by left].
  assert (task_step m s = Some (Ok s') ∧ e = Quiet) as [Ht ->].
  { destruct m; try done; apply bind_Some in H as (x & H & He); destruct x as [s1| |]; by simplify_eq/=. }
  split; [done|]. by apply task_step_moves.
Qed.

Lemma task_at_spec t s a fr :
  task_at t s = Some (a, fr) ↔ ∃ qe, workers (wp s) !! t = Some (WRun qe) ∧ frames s !! t = Some fr ∧ qe_arg qe = a.
Proof.
  unfold task_at. split; [intros H; repeat (case_match; simplify_eq); eauto|].
  by intros (qe & -> & -> & <-).
Qed.

(** ** What each part leaves alone *)

(** A move outside of the pool and of [wp->run]. *)
Definition same_pool (s s' : esys) : Prop :=
  wp s' = wp s ∧ listenfd s' = listenfd s ∧ loop s' = loop s.

Lemma add_conns_live cs rh rh' (a : Z) :
  add_conns cs rh = Some rh' → is_Some (rh.2 !! a) → is_Some (rh'.2 !! a).
Proof.
  revert rh; induction cs as [|[b [c io]] cs IH]; intros rh H Ha; simpl in H; simplify_eq; [done|].
  case_match; [done|]. eapply IH; [done|]. cbn. rewrite lookup_insert_is_Some. by destruct (decide (b = a)); auto.
Qed.

Lemma accept_same socks s s' : accept_event socks s = Some s' → same_pool s s'.
Proof.
  unfold accept_event, accept_conn. case_match; [|done]. intros ([r h] & _ & [= <-])%bind_Some. done.
Qed.

Lemma task_moves_same s t a c m fr s' : task_moves s t a c m fr s' → same_pool s s'.
Proof. by destruct 1. Qed.

Lemma pool_move_inv m s s' e :
  pool_move m s = Some (s', e) →
  ∃ pe, pnext (wp s) m = Some (wp s', pe) ∧ e = PoolDid pe ∧ (∀ t qe, pe ≠ QEvent (ECall t (Push qe)))
    ∧ rest (loop s') = rest (loop s) ∧ loop_conn (loop s') = loop_conn (loop s) ∧ listenfd s' = listenfd s
    ∧ heap s' = heap s ∧ regs s' = regs s ∧ epfd_ s' = epfd_ s
    ∧ (frames s' = frames s ∨ ∃ t qe, frames s' = <[t := fresh qe]> (frames s)).
Proof.
  unfold pool_move. intros ([[[w fs] b] pe] & (Hn & He & Hf)%pool_step_inv & [= <- <-])%bind_Some. exists pe.
  assert (fs = frames s ∨ ∃ t qe, fs = <[t := fresh qe]> (frames s)) as Hf'.
  { destruct Hf as [?|(t & qe & ? & _)]; eauto. }
  destruct (loop s) eqn:Hl; [|destruct b|]; cbn; rewrite ?Hl; split_and!; done.
Qed.

(** ** Events and tasks *)

Definition loop_inv (s0 s : esys) (es : list eevent) : Prop :=
  poll_inv (task_of (listenfd s0)) (wp s0) (wp s) (rest (loop s)) es ∧ listenfd s = listenfd s0.

(** Moves of the loop alone, that report [evs] and handle [ev]. *)
Lemma loop_inv_quiet s0 s es s' e evs ev :
  loop_inv s0 s es → wp s' = wp s → listenfd s' = listenfd s →
  (e = Quiet ∧ evs = [] ∨ e = Reported evs) →
  rest (loop s) ++ evs = option_list ev ++ rest (loop s') →
  (∀ x, ev = Some x → task_of (listenfd s) x = None) →
  loop_inv s0 s' (es ++ [e]).
Proof.
  intros [Hi Hl] Hw Hl' He Hrest Hev. unfold loop_inv. rewrite Hw. split; [|congruence].
  eapply poll_quiet; [done..|]. by rewrite <-Hl.
Qed.

(** The call of [push]. *)
Lemma loop_inv_call s0 s es cb conn ev evs s' e :
  loop_inv s0 s es → loop s = LEvents (ev :: evs) → dispatch (listenfd s) ev = Runs cb → ev_data ev = conn →
  run_call cb conn evs s = Some (Ok (s', e)) → loop_inv s0 s' (es ++ [e]).
Proof.
  intros [Hi Hl] Hloop Hd Hev. unfold run_call. rewrite Hloop in Hi.
  destruct (heap s !! conn) as [c|]; [|done].
  change (run_element (Function_of (Some cb) conn)) with (Ok (Qe (Some cb) conn)).
  intros ([w pe] & Hn & [= <- <-])%bind_Some. split; [|done].
  eapply poll_call; [done| |done]. unfold task_of. by rewrite <-Hl, Hd, Hev.
Qed.

Lemma loop_inv_step s0 s es m s' e : loop_inv s0 s es → enext s m = Some (Ok (s', e)) → loop_inv s0 s' (es ++ [e]).
Proof.
  intros Hinv Hn. destruct (enext_task _ _ _ _ Hn) as [Hm|(-> & t & a & fr & c & _ & _ & (Hw & Hl & Hp)%task_moves_same)].
  2: { eapply (loop_inv_quiet _ _ _ _ _ [] None); eauto; [by rewrite Hp, app_nil_r|done]. }
  revert Hn. destruct m as [ready|socks| |m| | | | | |]; try done; simpl.
  - destruct (loop s) as [[|]| |] eqn:Hloop; try done. case_decide; [|done].
    intros ([r evs] & _ & [= <- <-])%bind_Some. eapply (loop_inv_quiet _ _ _ _ _ evs None); eauto; [by rewrite Hloop|done].
  - unfold handle_event. destruct (loop s) as [[|ev evs]| |] eqn:Hloop; try done.
    destruct (dispatch (listenfd s) ev) as [|cb|] eqn:Hd; [| |intros [= <- <-]].
    + intros (s1 & (Hw & Hl & _)%accept_same & [= <- <-])%bind_Some.
      eapply (loop_inv_quiet _ _ _ _ _ [] (Some ev)); eauto; [by rewrite Hloop, app_nil_r|].
      intros x [= <-]. unfold task_of. by rewrite Hd.
    + intros Hc. by eapply loop_inv_call.
    + eapply (loop_inv_quiet _ _ _ _ _ [] (Some ev)); eauto; [by rewrite Hloop, app_nil_r|].
      intros x [= <-]. unfold task_of. by rewrite Hd.
  - destruct (loop s) as [|conn evs|conn evs] eqn:Hloop; try done. destruct (heap s !! conn); [|done].
    intros [= <- <-]. eapply (loop_inv_quiet _ _ _ _ _ [] None); eauto; [by rewrite Hloop, app_nil_r|done].
  - intros ([s1 e1] & H & [= <- <-])%bind_Some.
    destruct (pool_move_inv _ _ _ _ H) as (pe & Hn & -> & Hpe & Hrest & _ & Hl & _).
    destruct Hinv as [Hi Hl0]. split; [|congruence]. rewrite Hrest. by eapply poll_pool.
Qed.

(** The states in which the loop begins. *)
Definition started_by (q : Q) (s : esys) : Prop :=
  ∃ epfd lfd regs, s = Esys epfd lfd regs ∅ (LEvents []) (started 20 None q) ∅
    ∧ (regs = ∅ ∨ regs = {[ lfd := Reg (uint lfd) EpollIn false true ]}).

(** The program is its acceptor. *)
Lemma acceptor_stage_start q rs : result_of (acceptor_stage q) rs = result_of (acceptor_start DEFAULT_TCP_PORT q) rs.
Proof.
  unfold acceptor_stage, result_of. by rewrite sys_log by (no_nul || vm_compute; lia).
Qed.

Lemma acceptor_start_by port q rs s : result_of (acceptor_start port q) rs = Ok s → started_by q s.
Proof.
  unfold result_of. intros H. ok_inv. destruct v as [s' rs']. ok_inv. revert H0.
  unfold acceptor_start. unfold mbind at 1, sys_bind at 1.
  destruct (init_acceptor port rs) as [cs [[[lfd ok] rs1]| |]]; [|done..].
  destruct rs1 as [|epfd [|ret rs1]]; [done..|]. intros [= <- _].
  eexists _, _, _. split; [reflexivity|]. case_match; auto.
Qed.

Lemma started_by_wp q s : started_by q s → wp s = started 20 None q.
Proof. by intros (epfd & lfd & r & -> & _). Qed.

Lemma started_by_inv q s : fresh_queue 21 q → started_by q s → loop_inv s s [].
Proof.
  intros Hq (epfd & lfd & r & -> & _). split; [|done]. eapply poll_started; [|done]. unfold int_max. lia.
Qed.

Lemma ereach_inv s0 ms s es : loop_inv s0 s0 [] → ereach s0 ms s es → loop_inv s0 s es.
Proof. intros H0. induction 1; [done|]. by eapply loop_inv_step. Qed.

(** ** Pointers to connections *)

Definition live (s : esys) (a : Z) : Prop := is_Some (heap s !! a).
(** What a registration may carry: the listening socket, or a live connection. *)
Definition valid (lfd : Z) (h : gmap Z connection) (d : Z) : Prop := data_fd d = lfd ∨ is_Some (h !! d).
Definition regs_valid (lfd : Z) (h : gmap Z connection) (r : gmap Z reg) : Prop :=
  map_Forall (λ _ x, valid lfd h (data x)) r.

(** On its way from [read] returning 0 to [delete]. *)
Definition closing (fr : frame) : bool := match fr with AtDel | AtClose | AtDelete => true | _ => false end.

Definition live_inv (s : esys) (es : list eevent) : Prop :=
  map_Forall (λ _ fr, closing fr = false) (frames s)
  ∧ regs_valid (listenfd s) (heap s) (regs s)
  ∧ Forall (λ ev, valid (listenfd s) (heap s) (ev_data ev)) (reported es)
  ∧ ∀ conn, loop_conn (loop s) = Some conn → live s conn.

Lemma epoll_ctl_valid lfd h ptr r a : regs_valid lfd h r → valid lfd h ptr → regs_valid lfd h (epoll_ctl ptr r a).
Proof.
  intros Hr Hp. destruct a; cbn [epoll_ctl]; try done;
    by (apply (ctl_add_all (λ x, valid lfd h (data x))) || apply (ctl_mod_all (λ x, valid lfd h (data x)))
        || apply map_Forall_delete).
Qed.

Lemma foldl_ctl_valid lfd h ptr ios r :
  regs_valid lfd h r → valid lfd h ptr → regs_valid lfd h (foldl (epoll_ctl ptr) r ios).
Proof.
  revert r; induction ios as [|a ios IH]; intros r Hr Hp; [done|]. apply IH; [|done]. by apply epoll_ctl_valid.
Qed.

(** The heap grows. *)
Definition grows (h h' : gmap Z connection) : Prop := ∀ a, is_Some (h !! a) → is_Some (h' !! a).

Lemma grows_insert h (a : Z) c : grows h (<[a := c]> h).
Proof. intros b Hb. rewrite lookup_insert_is_Some. destruct (decide (a = b)); auto. Qed.

Lemma valid_grows lfd h h' d : grows h h' → valid lfd h d → valid lfd h' d.
Proof. intros Hg [?|?]; [by left|right; by apply Hg]. Qed.

Lemma regs_valid_grows lfd h h' r : grows h h' → regs_valid lfd h r → regs_valid lfd h' r.
Proof. intros Hg Hr fd x Hx. eapply valid_grows; [done|]. by apply (Hr fd). Qed.

Lemma add_conns_valid lfd cs rh rh' :
  add_conns cs rh = Some rh' → regs_valid lfd rh.2 rh.1 → grows rh.2 rh'.2 ∧ regs_valid lfd rh'.2 rh'.1.
Proof.
  revert rh; induction cs as [|[b [c io]] cs IH]; intros rh H Hr; simpl in H; simplify_eq; [split; [by intros a|done]|].
  case_match; [done|]. pose proof (grows_insert rh.2 b c) as Hg. apply IH in H as [Hg' Hr'].
  - split; [|done]. intros a Ha. by apply Hg', Hg.
  - cbn. apply epoll_ctl_valid; [by eapply regs_valid_grows|]. right. cbn. by rewrite lookup_insert_eq.
Qed.

(** A step that reports nothing, keeps the loop's pointer and lets the heap grow. *)
Lemma live_inv_grows s es s' e :
  live_inv s es → listenfd s' = listenfd s → map_Forall (λ _ fr, closing fr = false) (frames s') →
  grows (heap s) (heap s') → regs_valid (listenfd s) (heap s') (regs s') → (∀ evs, e ≠ Reported evs) →
  (∀ conn, loop_conn (loop s') = Some conn → loop_conn (loop s) = Some conn ∨ live s' conn) →
  live_inv s' (es ++ [e]).
Proof.
  intros (_ & _ & Hf & Hc) Hl Hfr Hg Hr He Hp. unfold live_inv. rewrite Hl.
  split_and!; [done|done| |intros conn [?|?]%Hp; [apply Hg; by apply Hc|done]].
  rewrite reported_snoc. apply Forall_app. split.
  - eapply Forall_impl; [done|]. intros ev. by apply valid_grows.
  - destruct e; [by edestruct He|done..].
Qed.

Definition hangs_up (m : emove) : Prop := match m with Reads _ ReadEof => True | _ => False end.

Lemma task_moves_live s t a c m fr s' :
  task_moves s t a c m fr s' → task_at t s = Some (a, fr) → heap s !! a = Some c → ¬ hangs_up m →
  map_Forall (λ _ fr, closing fr = false) (frames s) → regs_valid (listenfd s) (heap s) (regs s) →
  map_Forall (λ _ fr, closing fr = false) (frames s')
  ∧ grows (heap s) (heap s') ∧ regs_valid (listenfd s) (heap s') (regs s').
Proof.
  intros Hm (qe & _ & Hfr & _)%task_at_spec Ha Hh Hf Hr. pose proof (Hf _ _ Hfr) as Hcl.
  destruct Hm; try done; (split; [first [by apply map_Forall_insert_2|by apply map_Forall_delete]|]);
    try (by split; [intros ?|]).
  - split; [apply grows_insert|]. eapply regs_valid_grows; [apply grows_insert|done].
  - split; [by intros ?|]. apply epoll_ctl_valid; [done|]. right. eauto.
  - split; [by intros ?|]. apply epoll_ctl_valid; [done|]. right. eauto.
Qed.

Lemma live_inv_step s0 s es m s' e :
  loop_inv s0 s es → live_inv s es → ¬ hangs_up m → enext s m = Some (Ok (s', e)) → live_inv s' (es ++ [e]).
Proof.
  intros Hinv Hlive Hh Hn. pose proof Hlive as (Hfr & Hr & Hf & Hc).
  destruct (enext_task _ _ _ _ Hn) as [Hm|(-> & t & a & fr & c & Ht & Ha & Hm)].
  2: { destruct (task_moves_same _ _ _ _ _ _ _ Hm) as (_ & Hl & Hp).
       destruct (task_moves_live _ _ _ _ _ _ _ Hm Ht Ha Hh Hfr Hr) as (Hfr' & Hg & Hr').
       eapply live_inv_grows; [done..|]. rewrite Hp. by left. }
  revert Hn. destruct m as [ready|socks| |m| | | | | |]; try done; simpl.
  - destruct (loop s) as [[|]| |] eqn:Hloop; try done. case_decide; [|done].
    intros ([r evs] & Hw & [= <- <-])%bind_Some. destruct (epoll_wait_all (valid (listenfd s) (heap s)) _ _ _ _ Hr Hw) as [Hr' He].
    split_and!; [done|done| |done]. rewrite reported_snoc. by apply Forall_app.
  - unfold handle_event. destruct (loop s) as [[|ev evs]| |] eqn:Hloop; try done.
    destruct (dispatch (listenfd s) ev) as [|cb|] eqn:Hd.
    + unfold accept_event, accept_conn. intros (s1 & H & [= <- <-])%bind_Some. case_match; [|done].
      apply bind_Some in H as ([r h] & Ha & [= <-]).
      destruct (add_conns_valid (listenfd s) _ _ _ Ha Hr) as [Hg Hr']. by eapply live_inv_grows.
    + unfold run_call. destruct (heap s !! ev_data ev) as [c|] eqn:Hev; [|done].
      destruct (run_element _) as [x| |]; [|done..]. intros ([w pe] & Hn & [= <- <-])%bind_Some.
      eapply live_inv_grows; [done|done|done|by intros ?|done|done|]. intros conn [= <-]. right. by exists c.
    + intros [= <- <-]. by eapply live_inv_grows; [..|by intros ?| | |].
  - destruct (loop s) as [|conn evs|conn evs] eqn:Hloop; try done. destruct (heap s !! conn); [|done].
    intros [= <- <-]. by eapply live_inv_grows; [..|by intros ?| | |].
  - intros ([s1 e1] & H & [= <- <-])%bind_Some.
    destruct (pool_move_inv _ _ _ _ H) as (pe & Hn & -> & Hpe & Hrest & Hlc & Hl & Hh' & Hg & _ & Hfs).
    assert (map_Forall (λ _ fr, closing fr = false) (frames s1)).
    { destruct Hfs as [-> |(t & qe & ->)]; [done|]. apply map_Forall_insert_2; [|done]. unfold fresh. by case_decide. }
    eapply live_inv_grows; [done|done|done|by rewrite Hh'; intros ?|by rewrite Hh', Hg|done|]. rewrite Hlc. by left.
Qed.

(** The task that a worker runs comes from an event. *)
Lemma running_event q s0 ms s es t a fr :
  fresh_queue 21 q → started_by q s0 → ereach s0 ms s es → task_at t s = Some (a, fr) →
  ∃ ev cb, ev ∈ reported es ∧ dispatch (listenfd s) ev = Runs cb ∧ ev_data ev = a.
Proof.
  intros Hq Hs Hr (qe & Hw & _ & <-)%task_at_spec. destruct (ereach_inv _ _ _ _ (started_by_inv _ _ Hq Hs) Hr) as [Hi Hl].
  rewrite (started_by_wp _ _ Hs) in Hi.
  destruct (poll_running _ 20 None 21 q _ _ _ t _ ltac:(unfold int_max; lia) Hq Hi Hw) as (ev & Hin & Hev).
  unfold task_of in Hev. rewrite Hl. destruct (dispatch _ ev) as [|cb|] eqn:Hd; simplify_eq/=. by exists ev, cb.
Qed.

Lemma started_by_live q s : started_by q s → in_int (listenfd s) → live_inv s [].
Proof.
  intros (epfd & lfd & r & -> & Hr) Hs. split_and!; [apply map_Forall_empty| |apply Forall_nil_2|by intros ?]. cbn in *.
  destruct Hr as [-> | ->]; [apply map_Forall_empty|]. apply map_Forall_singleton. left. cbn. unfold data_fd, to_int, uint.
  unfold in_int, int_min, int_max in Hs. Z.to_euclidean_division_equations. lia.
Qed.

Lemma ereach_live q s0 ms s es :
  fresh_queue 21 q → started_by q s0 → in_int (listenfd s0) → Forall (λ m, ¬ hangs_up m) ms →
  ereach s0 ms s es → live_inv s es.
Proof.
  intros Hq Hs Hl Hm Hr. induction Hr as [|ms s es m s' e Hr IH Hn]; [by eapply started_by_live|].
  apply Forall_app in Hm as [Hms Hm]. rewrite Forall_singleton in Hm.
  eapply live_inv_step; [|by apply IH|exact Hm|done]. eapply ereach_inv; [by eapply started_by_inv|done].
Qed.

(** ** Types *)

(** What a connection's memory holds while it lives, and a task's [_buf]. *)
Definition conn_of (s : esys) (c : connection) : Prop := conn_ok c ∧ epfd c = epfd_ s ∧ 0 < fd c.
Definition frame_ok (fr : frame) : Prop :=
  match fr with
  | AtRead buf | AtArm _ buf => length buf = 1024%nat
  | GotData nread buf => length buf = 1024%nat ∧ (nread ≤ 1023)%nat
  | _ => True
  end.
Definition typed (s : esys) : Prop :=
  map_Forall (λ _ c, conn_of s c) (heap s) ∧ map_Forall (λ _ fr, frame_ok fr) (frames s).

Lemma fresh_ok qe : frame_ok (fresh qe).
Proof. unfold fresh. by case_decide. Qed.

(** A step that changes neither heap nor frames. *)
Lemma typed_same s s' : typed s → epfd_ s' = epfd_ s → heap s' = heap s → frames s' = frames s → typed s'.
Proof. unfold typed, conn_of. by intros H -> -> ->. Qed.

Lemma add_conns_all (P : connection → Prop) cs rh rh' :
  add_conns cs rh = Some rh' → Forall (λ x, P x.2.1) cs → map_Forall (λ _ c, P c) rh.2 →
  map_Forall (λ _ c, P c) rh'.2.
Proof.
  revert rh; induction cs as [|[a [c io]] cs IH]; intros rh H Hcs Hrh; simpl in H; simplify_eq; [done|].
  apply Forall_cons in Hcs as [Hc Hcs]. case_match; [done|]. eapply IH; [done..|]. by apply map_Forall_insert_2.
Qed.

Lemma accept_event_typed socks s s' : accept_event socks s = Some s' → typed s → typed s'.
Proof.
  unfold accept_event, accept_conn. intros H [Hh Hf]. destruct (forallb _ socks) eqn:Hpos; [|done].
  apply bind_Some in H as ([r h] & Ha & [= <-]). split; [|done].
  eapply (add_conns_all (conn_of s)) in Ha; [done| |done].
  apply Forall_forall. intros [a [c io]] Hin%elem_of_zip_r%elem_of_zip_l. cbn.
  rewrite map_map in Hin. apply list_elem_of_In, in_map_iff in Hin as (x & <- & Hx).
  rewrite forallb_forall in Hpos. apply Hpos in Hx. split; [apply conn_new_ok|]. split; [done|cbn; lia].
Qed.

Lemma pool_move_typed m s s' e : pool_move m s = Some (s', e) → typed s → typed s'.
Proof.
  intros (pe & _ & _ & _ & _ & _ & _ & Hh & _ & He & Hf)%pool_move_inv [Hth Htf].
  split; [unfold conn_of; by rewrite Hh, He|]. destruct Hf as [-> | (t & qe & ->)]; [done|].
  apply map_Forall_insert_2; [apply fresh_ok|done].
Qed.

Lemma task_moves_typed s t a c m fr s' :
  task_moves s t a c m fr s' → task_at t s = Some (a, fr) → heap s !! a = Some c → typed s → typed s'.
Proof.
  intros Hm (qe & _ & Hfr & _)%task_at_spec Ha [Hh Hf]. pose proof (Hf _ _ Hfr) as Hok. destruct (Hh _ _ Ha) as (Hc & He & Hp).
  destruct Hm; (split; cbn; [first [done|by apply map_Forall_delete|idtac]|
    first [by apply map_Forall_delete|apply map_Forall_insert_2; [|done]; try done|idtac]]).
  - cbn in Hok |- *. split; [|lia]. by rewrite (memcpy_length _ _ _ _ _ _ H0).
  - destruct Hok as [Hb Hn]. destruct (read_body_fd _ _ _ _ _ _ H0) as [Hfd Hep].
    apply map_Forall_insert_2; [|done]. destruct (read_body_ok _ _ _ _ _ _ Hn Hb Hc H0) as [Hc' _].
    split; [done|]. cbn. by rewrite Hfd, Hep.
  - destruct Hok as [Hb Hn]. apply (read_body_ok _ _ _ _ _ _ Hn Hb Hc H0).
Qed.

Lemma typed_step s m s' e : enext s m = Some (Ok (s', e)) → typed s → typed s'.
Proof.
  intros Hn Ht. destruct (enext_task _ _ _ _ Hn) as [Hm|(-> & t & a & fr & c & Hta & Ha & Hm)].
  2: by eapply task_moves_typed.
  revert Hn Ht. destruct m as [ready|socks| |m| | | | | |]; try done; simpl.
  - destruct (loop s) as [[|]| |]; try done. case_decide; [|done].
    intros ([r evs] & _ & [= <- <-])%bind_Some Ht. by eapply typed_same.
  - unfold handle_event. destruct (loop s) as [[|ev evs]| |]; try done.
    destruct (dispatch (listenfd s) ev) as [|cb|]; [| |intros [= <- <-] Ht; by eapply typed_same].
    + intros (s1 & Ha & [= <- <-])%bind_Some Ht. eapply typed_same; [by eapply accept_event_typed|done..].
    + unfold run_call. destruct (heap s !! _); [|done]. destruct (run_element _); [|done..].
      intros ([w pe] & _ & [= <- <-])%bind_Some Ht. by eapply typed_same.
  - destruct (loop s); try done. destruct (heap s !! _); [|done]. intros [= <- <-] Ht. by eapply typed_same.
  - intros ([s1 e1] & H & [= <- <-])%bind_Some. by eapply pool_move_typed.
Qed.

Lemma erun_typed q s0 ms s es : started_by q s0 → erun s0 ms = Some (Ok (s, es)) → typed s.
Proof.
  intros Hs Hr%erun_ereach. induction Hr as [|ms s es m s' e Hr IH Hn]; [|by eapply typed_step].
  destruct Hs as (epfd & lfd & r & -> & _). split; apply map_Forall_empty.
Qed.

(** The variable [_buf] of a task in its loop. *)
Definition task_buf (fr : frame) : option bytes :=
  match fr with AtRead buf | GotData _ buf | AtArm _ buf => Some buf | _ => None end.

(** ** Properties *)

(** C17: the types of the shared memory. In every state that is reached without
    a fault, hang-ups included, every connection of the heap belongs to the
    loop's epoll descriptor, has a positive descriptor, a [url] of 64 bytes, a
    status other than [READ_HTTP_ERROR], a method that has a value once the URL
    is behind (and is never [NULL]), and a well-formed buffer of 1024 or 2048
    bytes; and the [_buf] of every running task has its 1024 bytes. (Two tasks
    that work on the request of one connection at the same time are a fault,
    [connection_data_race].) *)
Theorem memory_typed port rs q s0 ms s es :
  result_of (acceptor_start port q) rs = Ok s0 → erun s0 ms = Some (Ok (s, es)) →
  (∀ a c, heap s !! a = Some c →
     epfd c = epfd_ s ∧ 0 < fd c ∧ head_ok (req c) ∧ buffer_wf (req_buf c)
     ∧ (b_size (req_buf c) = 1024 ∨ b_size (req_buf c) = 2048))
  ∧ (∀ t a fr buf, task_at t s = Some (a, fr) → task_buf fr = Some buf → length buf = 1024%nat).
Proof.
  intros Hs%acceptor_start_by Hr. destruct (erun_typed _ _ _ _ _ Hs Hr) as [Hh Hf].
  split; [intros a c (Hok & He & Hp)%Hh; by split_and!; try apply Hok|].
  intros t a fr buf (qe & _ & Hfr & _)%task_at_spec Hb. pose proof (Hf _ _ Hfr) as Hok.
  destruct fr; simplify_eq/=; [done|by destruct Hok|done].
Qed.

(** C13: from the event to the task, through loop, queue and workers. Whatever
    is reported and however the threads interleave, the events that the loop has
    left behind have become, one for one, the tasks that have ended, are on the
    way to or in a worker, are queued, or are being pushed; the other events are
    still in front of the loop. Of the events behind the loop every one with the
    EPOLLIN bit has become a read task of its connection, and every one with
    EPOLLOUT alone a write task ([due]); those of the listening socket, those
    whose pointer ends like its descriptor, and those with neither bit have
    become none. *)
Theorem events_become_tasks port rs q s0 ms s es :
  fresh_queue 21 q → result_of (acceptor_start port q) rs = Ok s0 → erun s0 ms = Some (Ok (s, es)) →
  ∃ handled, reported es = handled ++ rest (loop s)
    ∧ omap (due (listenfd s)) handled
      ≡ₚ ended (pool_events es) ++ in_flight (wp s) ++ content (q_abs (jq (wp s)))
         ++ pushing (loop_thread s) (q_abs (jq (wp s))).
Proof.
  intros Hq Hs%acceptor_start_by Hr%erun_ereach.
  destruct (ereach_inv _ _ _ _ (started_by_inv _ _ Hq Hs) Hr) as [Hi Hl].
  rewrite (started_by_wp _ _ Hs), <-Hl in Hi.
  destruct (poll_conserves _ 20 None 21 q _ _ _ ltac:(unfold int_max; lia) Hq Hi) as (handled & Hh & Ht).
  exists handled. split; [done|]. rewrite (list_omap_ext _ (task_of (listenfd s)) handled handled); [done|].
  apply Forall_Forall2_diag, Forall_true. intros ev. symmetry. apply loop_task_of_due.
Qed.

(** C15: as long as no client hangs up, no pointer dangles: the connection of
    every running task, of every event that the loop will hand to the pool, and
    of the log line behind [wp->run] is alive in every reachable state. *)
Theorem pointers_live port rs q s0 ms s es :
  fresh_queue 21 q → result_of (acceptor_start port q) rs = Ok s0 → in_int (listenfd s0) →
  Forall (λ m, ¬ hangs_up m) ms → erun s0 ms = Some (Ok (s, es)) →
  (∀ t a fr, task_at t s = Some (a, fr) → live s a)
  ∧ (∀ ev cb, ev ∈ rest (loop s) → dispatch (listenfd s) ev = Runs cb → live s (ev_data ev))
  ∧ (∀ conn evs, loop s = LLog conn evs → live s conn).
Proof.
  intros Hq Hs%acceptor_start_by Hlf Hm Hr%erun_ereach.
  destruct (ereach_live _ _ _ _ _ Hq Hs Hlf Hm Hr) as (_ & _ & Hf & Hc).
  destruct (ereach_inv _ _ _ _ (started_by_inv _ _ Hq Hs) Hr) as [(_ & _ & _ & handled & Hh & _) _].
  rewrite Forall_forall in Hf.
  assert (∀ ev cb, ev ∈ reported es → dispatch (listenfd s) ev = Runs cb → live s (ev_data ev)) as Hev.
  { intros ev cb [Hd|?]%Hf Hr'; [|done]. unfold dispatch in Hr'. by rewrite Hd, Z.eqb_refl in Hr'. }
  split_and!.
  - intros t a fr (ev & cb & Hin & Hd & <-)%(running_event q s0 ms s es); [by eapply Hev|done..].
  - intros ev cb Hin. apply Hev. rewrite Hh. by apply elem_of_app; right.
  - intros conn evs Hloop. apply Hc. by rewrite Hloop.
Qed.

(** The union [event.data] is read through its [fd] even if it holds a pointer:
    a connection whose address has the listening descriptor as its lower half
    is taken for the listening socket, and its event is lost. *)
Theorem pointer_taken_for_socket lfd hi bits :
  0 ≤ lfd → in_int lfd → dispatch lfd (Ev bits (hi * 2 ^ 32 + lfd)) = Accepts.
Proof.
  intros Hl Hi. unfold dispatch. cbn. unfold data_fd, to_int, in_int, int_min, int_max in *.
  replace (hi * 2 ^ 32 + lfd + 2 ^ 31) with (lfd + 2 ^ 31 + hi * 2 ^ 32) by lia.
  rewrite Z.mod_add, Z.mod_small by lia. by replace (lfd + 2 ^ 31 - 2 ^ 31 =? lfd) with true by lia.
Qed.
End event_loop.

(** ** Schedules *)

Definition demo_results : list Z := [3; 0; 0; 0; 0; 4; 0].
Definition demo_start : outcome esys := result_of (acceptor_stage (init 21 : @conf task)) demo_results.
Definition demo_loop : esys :=
  Esys 4 3 {[ 3 := Reg 3 EpollIn false true ]} ∅ (LEvents []) (started 20 None (init 21 : @conf task)) ∅.
Lemma demo_loop_starts : demo_start = Ok demo_loop.
Proof. vm_compute. reflexivity. Qed.

Definition work_ (t : nat) : emove := Pool (Work t).
Definition loop_pushes : list emove := map Pool (push_moves 20).
Definition worker_begins (t : nat) : list emove := map Pool (begin_moves t).
(** A client connects, and its descriptor 7 becomes readable. *)
Definition client_connects : list emove := [Wait [(3, 1)]; Event [(7, 4096)]; Wait [(7, 1)]; Event []].

(** A round of [read_conn], its end when there is nothing more, and when the
    client has gone; a task that writes. *)
Definition a_round (t : nat) (r : bytes) : list emove := [Reads t (Data r); Handles t; Arms t].
Definition hang_up (t : nat) : list emove := [Reads t ReadEof; Closes t; Closes t; Closes t].
Definition writes (t : nat) (opened : Z) : list emove := [Writes t opened; Sends t; Arms t].

Definition hang_up_moves : list emove :=
  client_connects ++ loop_pushes ++ worker_begins 0 ++ hang_up 0 ++ [LogRun].

(** A second task of the connection begins while the first one is in its loop. *)
Definition second_task_moves : list emove :=
  client_connects ++ loop_pushes ++ [LogRun] ++ worker_begins 0 ++ a_round 0 (bs "G") ++ [Wait [(7, 1)]; Event []]
  ++ loop_pushes ++ [LogRun] ++ worker_begins 1.

(** Connections are used after they have been deleted, in two ways. A
    client connects and hangs up: the loop pushes the task, a worker runs it and
    deletes the connection, and the loop reads [conn->fd] for its log line.
    And: a task arms the connection again before its loop has ended, a second
    worker gets a task of the same connection, and the first one deletes it. *)
Theorem connection_use_after_free :
  erun demo_loop hang_up_moves = Some (Err UseAfterFree)
  ∧ erun demo_loop (second_task_moves ++ hang_up 0 ++ [Reads 1 ReadAgain]) = Some (Err UseAfterFree).
Proof. vm_compute. done. Qed.

(** Two workers on one request: the first task has armed the connection and
    reads again, the second one reads, too, and both append to the buffer and
    run the parser. *)
Theorem connection_data_race :
  erun demo_loop (second_task_moves ++ [Reads 0 (Data (bs "E")); Reads 1 (Data (bs "T")); Handles 1]) = Some (Err DataRace).
Proof. vm_compute. done. Qed.

(** ** Witnesses *)

(** The request of [get_request] comes in two parts and is answered, a second
    client is being accepted. *)
Definition serve_moves : list emove :=
  client_connects ++ loop_pushes ++ [LogRun] ++ worker_begins 0
  ++ a_round 0 (take 9 get_request) ++ a_round 0 (drop 9 get_request)
  ++ [Reads 0 ReadAgain; work_ 0; Wait [(7, 4); (3, 1)]; Event []] ++ loop_pushes ++ [LogRun] ++ worker_begins 1
  ++ writes 1 9.

(** The same between the second read and its handling. *)
Definition two_parts_moves : list emove :=
  client_connects ++ loop_pushes ++ [LogRun] ++ worker_begins 0
  ++ a_round 0 (take 9 get_request) ++ [Reads 0 (Data (drop 9 get_request))].
Definition two_parts : esys * list eevent :=
  match erun demo_loop two_parts_moves with Some (Ok r) => r | _ => (demo_loop, []) end.
Definition served : esys * list eevent :=
  match erun demo_loop serve_moves with Some (Ok r) => r | _ => (demo_loop, []) end.

Lemma serve_runs : erun demo_loop serve_moves = Some (Ok (served.1, served.2)).
Proof. vm_compute. reflexivity. Qed.

Lemma demo_loop_fresh : fresh_queue 21 (init 21 : @conf task).
Proof. split; [apply init_inv|]. by exists 2000. Qed.

Lemma events_become_tasks_witness :
  reported served.2 = [Ev 1 3; Ev 1 4096; Ev 4 4096; Ev 1 3]
  ∧ ended (pool_events served.2) = [Qe (Some Read_conn) 4096]
  ∧ in_flight (wp served.1) = [Qe (Some Write_conn) 4096]
  ∧ ∃ handled, reported served.2 = handled ++ rest (loop served.1)
    ∧ omap (due (listenfd served.1)) handled
      ≡ₚ ended (pool_events served.2) ++ in_flight (wp served.1) ++ content (q_abs (jq (wp served.1)))
         ++ pushing (loop_thread served.1) (q_abs (jq (wp served.1))).
Proof.
  split_and!; [vm_compute; reflexivity..|].
  apply (events_become_tasks 16666 demo_results (init 21) demo_loop serve_moves);
    [apply demo_loop_fresh|apply demo_loop_starts|apply serve_runs].
Defined.

Lemma pointers_live_witness :
  dom (heap served.1) = {[ 4096 ]}
  ∧ (∀ t a fr, task_at t served.1 = Some (a, fr) → live served.1 a)
  ∧ (∀ ev cb, ev ∈ rest (loop served.1) → dispatch (listenfd served.1) ev = Runs cb → live served.1 (ev_data ev))
  ∧ (∀ conn evs, loop served.1 = LLog conn evs → live served.1 conn).
Proof.
  split; [vm_compute; reflexivity|].
  apply (pointers_live 16666 demo_results (init 21) demo_loop serve_moves served.1 served.2);
    [apply demo_loop_fresh|apply demo_loop_starts|by vm_compute|repeat (constructor; [by intros []|]); constructor|apply serve_runs].
Defined.

Lemma memory_typed_witness :
  (dom (heap two_parts.1) = {[ 4096 ]} ∧ (∃ n buf, task_at 0 two_parts.1 = Some (4096, GotData n buf)))
  ∧ (∀ a c, heap two_parts.1 !! a = Some c →
     epfd c = epfd_ two_parts.1 ∧ 0 < fd c ∧ head_ok (req c) ∧ buffer_wf (req_buf c)
     ∧ (b_size (req_buf c) = 1024 ∨ b_size (req_buf c) = 2048))
  ∧ (∀ t a fr buf, task_at t two_parts.1 = Some (a, fr) → task_buf fr = Some buf → length buf = 1024%nat).
Proof.
  split; [split; [vm_compute; reflexivity|do 2 eexists; vm_compute; reflexivity]|].
  apply (memory_typed 16666 demo_results (init 21) demo_loop two_parts_moves two_parts.1 two_parts.2);
    [apply demo_loop_starts|vm_compute; reflexivity].
Defined.
