(* ===== verification/ConnTask.v ===== *)
(** * One task of the acceptor among the others

    [Acceptor.read_conn] says what a task does with its connection, as a function
    of what it reads.  Here the running acceptor of EventLoop.v is proved to do
    the same, whatever the loop, the pool and the other tasks do between the
    steps of the task, as long as none of them parses bytes of the same
    connection or deletes it. *)

From S2P Require Import Prelude Sys Log JobQueue WorkerPool Poller Buffer HttpRequest Acceptor EventLoop.
Open Scope Z_scope.

(** ** The moves of a task *)

Definition mover (m : emove) : option nat :=
  match m with
  | Reads t _ | Handles t | Arms t | Closes t | Writes t _ | Sends t => Some t
  | Wait _ | Event _ | LogRun | Pool _ => None
  end.

(** The moves of worker [t]'s task among [ms]. *)
Definition own (t : nat) (ms : list emove) : list emove := filter (λ m, mover m = Some t) ms.

(** The moves of [read_conn] in worker [t], if it reads [reads] and then [fin]. *)
Definition last_moves (t : nat) (fin : read_end) : list emove :=
  match fin with Again => [Reads t ReadAgain] | Eof => [Reads t ReadEof; Closes t; Closes t; Closes t] end.
Fixpoint script (t : nat) (reads : list bytes) (fin : read_end) : list emove :=
  match reads with
  | [] => last_moves t fin
  | r :: reads => Reads t (Data r) :: Handles t :: Arms t :: script t reads fin
  end.

Section conn_task.
Context {Q : Type} `{!AtomicQueue (A := task) Q}.
Abbreviation esys := (@esys Q).
Implicit Types s : esys.

(** No task of the workers in [P] parses bytes of the connection at [a], or
    deletes it. *)
Definition untouched (P : nat → Prop) (a : Z) (s : esys) (ms : list emove) : Prop :=
  ∀ ms1 m ms2 s1 es1, ms = ms1 ++ m :: ms2 → ereach s ms1 s1 es1 →
    ∀ u fr, m = Handles u ∨ m = Closes u → P u → task_at u s1 ≠ Some (a, fr).
Definition isolated (t : nat) : Z → esys → list emove → Prop := untouched (λ u, u ≠ t).

(** A task in its loop stays there when the pool moves. *)
Lemma pool_step_keeps {Fr} (fresh : task → Fr) m (w : @worker_pool callback Z Q) frames w' frames' b e t qe fr :
  pool_step fresh m w frames = Some (w', frames', b, e) →
  workers w !! t = Some (WRun qe) → frames !! t = Some fr →
  workers w' !! t = Some (WRun qe) ∧ frames' !! t = Some fr.
Proof.
  intros H Hw Hf. pose proof H as (Hn & _)%pool_step_inv. pose proof (pnext_running _ _ _ _ t Hn) as Hrun.
  unfold pool_step in H. rewrite Hn in H. cbn in H. destruct e as [pe|u qe'|u qe'|u qe'|].
  - assert (frames' = frames) as -> by (by repeat (case_match; simplify_eq)). auto.
  - simplify_eq. destruct Hrun as (Hu & Hne & Hno). destruct (decide (t = u)) as [->|Htu]; [by destruct (Hno qe)|].
    by rewrite Hne, lookup_insert_ne.
  - destruct (frames !! u) eqn:Hu; [done|]. simplify_eq. destruct Hrun as (_ & Hne).
    destruct (decide (t = u)) as [->|Htu]; [congruence|]. by rewrite Hne.
  - simplify_eq. auto.
  - simplify_eq. auto.
Qed.

Lemma add_conns_keeps cs rh rh' (a : Z) c : add_conns cs rh = Some rh' → rh.2 !! a = Some c → rh'.2 !! a = Some c.
Proof.
  revert rh; induction cs as [|[b [d io]] cs IH]; intros rh H Ha; simpl in H; simplify_eq; [done|].
  case_match eqn:Hb; [done|]. eapply IH; [done|]. cbn. rewrite lookup_insert_ne; [done|]. intros ->. congruence.
Qed.

(** What a step leaves alone: the tasks of the other workers, *)
Lemma enext_task_kept t a fr s m s' e :
  task_at t s = Some (a, fr) → mover m ≠ Some t → enext s m = Some (Ok (s', e)) → task_at t s' = Some (a, fr).
Proof.
  intros (qe & Hw & Hf & Hqa)%task_at_spec Hm Hn. apply task_at_spec. exists qe.
  destruct (enext_task _ _ _ _ Hn) as [Hnt|(-> & u & b & fr' & c & _ & _ & Hmv)].
  2: { assert (u ≠ t) by (intros ->; by destruct Hmv).
       destruct Hmv; cbn; rewrite ?lookup_insert_ne, ?lookup_delete_ne by done; done. }
  destruct m as [ready|socks| |m| | | | | |]; try done; simpl in Hn.
  - destruct (loop s) as [[|]| |]; try done. case_decide; [|done].
    by apply bind_Some in Hn as ([r evs] & _ & [= <- _]).
  - unfold handle_event in Hn. destruct (loop s) as [[|ev evs]| |]; try done. destruct (dispatch (listenfd s) ev).
    + apply bind_Some in Hn as (s1 & Ha & [= <- _]). unfold accept_event, accept_conn in Ha. case_match; [|done].
      by apply bind_Some in Ha as ([r h] & _ & [= <-]).
    + unfold run_call in Hn. repeat case_match; try done. apply bind_Some in Hn as ([w pe] & Hp & [= <- _]).
      pose proof (pnext_call _ _ _ _ _ Hp) as ->. split_and!; [|done..]. by apply (pnext_running _ _ _ _ t Hp).
    + by simplify_eq.
  - destruct (loop s); try done. case_match; [|done]. by simplify_eq.
  - apply bind_Some in Hn as ([s1 e1] & H & [= <- _]). unfold pool_move in H.
    apply bind_Some in H as ([[[w fs] b] pe] & Hp & [= <- _]).
    destruct (pool_step_keeps _ _ _ _ _ _ _ _ _ _ _ Hp Hw Hf) as [H1 H2]. by destruct (loop s); [|destruct b|].
Qed.

(** and the connection at [a], if no task parses bytes of it or deletes it. *)
Lemma enext_heap_kept a c s m s' e :
  heap s !! a = Some c → (∀ u fr, m = Handles u ∨ m = Closes u → task_at u s ≠ Some (a, fr)) →
  enext s m = Some (Ok (s', e)) → heap s' !! a = Some c.
Proof.
  intros Hc Hno Hn. destruct (enext_task _ _ _ _ Hn) as [Hnt|(-> & u & b & fr & c' & Ht & _ & Hmv)].
  2: { destruct Hmv; try done; cbn; assert (b ≠ a) by (intros ->; by eapply (Hno u); [auto|]);
       by rewrite ?lookup_insert_ne, ?lookup_delete_ne. }
  destruct m as [ready|socks| |m| | | | | |]; try done; simpl in Hn.
  - destruct (loop s) as [[|]| |]; try done. case_decide; [|done].
    by apply bind_Some in Hn as ([r evs] & _ & [= <- _]).
  - unfold handle_event in Hn. destruct (loop s) as [[|ev evs]| |]; try done. destruct (dispatch (listenfd s) ev).
    + apply bind_Some in Hn as (s1 & Ha & [= <- _]). unfold accept_event, accept_conn in Ha. case_match; [|done].
      apply bind_Some in Ha as ([r h] & Hadd & [= <-]). by apply (add_conns_keeps _ _ _ _ _ Hadd).
    + unfold run_call in Hn. repeat case_match; try done. by apply bind_Some in Hn as ([w pe] & _ & [= <- _]).
    + by simplify_eq.
  - destruct (loop s); try done. case_match; [|done]. by simplify_eq.
  - apply bind_Some in Hn as ([s1 e1] & H & [= <- _]).
    by destruct (pool_move_inv _ _ _ _ H) as (pe & _ & _ & _ & _ & _ & _ & -> & _).
Qed.

(** ** A task at work *)

(** The moves that are left when the task is at [fr], with [rest] to read. *)
Definition left_moves (t : nat) (fr : frame) (rest : list bytes) (fin : read_end) : list emove :=
  match fr with
  | AtRead _ => script t rest fin
  | GotData _ _ => Handles t :: Arms t :: script t rest fin
  | AtArm _ _ => Arms t :: script t rest fin
  | AtDel => [Closes t; Closes t; Closes t]
  | AtClose => [Closes t; Closes t]
  | AtDelete => [Closes t]
  | AtOpen | AtSend _ | AtRearm => []
  end.

(** What becomes of the connection from there. *)
Definition go_on (fr : frame) (rest : list bytes) (c : connection) (out : list aio) : outcome (connection * list aio) :=
  match fr with
  | AtRead buf => read_loop rest buf c out
  | GotData n buf => '(c, buf, d) ← read_body n buf c; read_loop rest buf c (out ++ [EpollMod (fd c) d])
  | AtArm d buf => read_loop rest buf c (out ++ [EpollMod (fd c) d])
  | _ => Ok (c, out)
  end.

(** The task is in its loop or at its end, with the moves [todo] to make. *)
Definition at_work (t : nat) (a : Z) (conn : connection) (reads : list bytes) (fin : read_end)
    (todo : list emove) (s : esys) : Prop :=
  ∃ fr rest c out, task_at t s = Some (a, fr) ∧ heap s !! a = Some c ∧ todo = left_moves t fr rest fin
    ∧ (closing fr = true → fin = Eof) ∧ read_loop reads zero_buf conn [] = go_on fr rest c out.

Lemma at_work_other t a conn reads fin todo s m s' e :
  at_work t a conn reads fin todo s → mover m ≠ Some t →
  (∀ u fr, m = Handles u ∨ m = Closes u → u ≠ t → task_at u s ≠ Some (a, fr)) →
  enext s m = Some (Ok (s', e)) → at_work t a conn reads fin todo s'.
Proof.
  intros (fr & rest & c & out & Ht & Hc & Htodo & Hcl & Hr) Hm Hno Hn. exists fr, rest, c, out. split_and!; [| |done..].
  - by eapply enext_task_kept.
  - eapply enext_heap_kept; [done| |done]. intros u fr' Hu. apply Hno; [done|]. intros ->. by destruct Hu as [-> | ->].
Qed.

Lemma set_frame_task t s s1 a fr fr' :
  task_at t s = Some (a, fr) → wp s1 = wp s → task_at t (set_frame t fr' s1) = Some (a, fr').
Proof.
  intros (qe & Hw & _ & Hqa)%task_at_spec Hs. apply task_at_spec. exists qe. cbn. rewrite Hs. by rewrite lookup_insert_eq.
Qed.

(** Its own move: it goes on, or it has returned. *)
Lemma at_work_own t a conn reads fin m todo s s' e :
  at_work t a conn reads fin (m :: todo) s → mover m = Some t → enext s m = Some (Ok (s', e)) →
  at_work t a conn reads fin todo s' ∧ todo ≠ []
  ∨ todo = [] ∧ frames s' !! t = None
    ∧ ∃ c out, read_loop reads zero_buf conn [] = Ok (c, out) ∧ heap s' !! a = match fin with Eof => None | Again => Some c end.
Proof.
  intros (fr & rest & c & out & Ht & Hc & Htodo & Hcl & Hr) Hm Hn.
  destruct (enext_task _ _ _ _ Hn) as [Hnt|(-> & u & b & fr1 & c1 & Ht1 & Hc1 & Hmv)]; [by destruct m|].
  assert (u = t) as -> by (destruct Hmv; by simplify_eq/=). simplify_eq.
  assert (∀ s1 fr' rest' c' out', wp s1 = wp s → heap s1 !! a = Some c' → todo = left_moves t fr' rest' fin → todo ≠ [] →
    (closing fr' = true → fin = Eof) → go_on fr rest c out = go_on fr' rest' c' out' →
    at_work t a conn reads fin todo (set_frame t fr' s1) ∧ todo ≠ []) as Hgo.
  { intros s1 fr' rest' c' out' Hw Hh -> Hne Hcl' Hg. split; [|done]. exists fr', rest', c', out'.
    split_and!; [by eapply set_frame_task|done..|congruence]. }
  destruct Hmv; cbn in Htodo; simplify_eq.
  - destruct rest as [|r' rest]; [by destruct fin|]. cbn in Htodo. simplify_eq. left.
    eapply (Hgo s _ rest c out); [done..|]. cbn [go_on read_loop]. unfold read_once. rewrite H0, bind_ok.
    destruct (read_body _ _ _) as [[[c' b'] d]| |]; by rewrite ?bind_ok.
  - destruct rest; [|done]. destruct fin; [done|]. cbn in Htodo. simplify_eq. right. split; [done|].
    split; [apply lookup_delete_eq|]. exists c, out. by rewrite Hr.
  - destruct rest; [|done]. destruct fin; [|done]. cbn in Htodo. simplify_eq. left.
    by eapply (Hgo s _ [] c out).
  - left. eapply (Hgo _ _ rest c' out); [done| |done..|]; [apply lookup_insert_eq|]. cbn. by rewrite H0.
  - left. eapply (Hgo _ _ rest c (out ++ [EpollMod (fd c) d])); [done..|by destruct rest, fin|done|done].
  - left. by eapply (Hgo _ _ rest c out).
  - left. by eapply (Hgo _ _ rest c out).
  - right. split; [done|]. split; [apply lookup_delete_eq|]. exists c, out. rewrite Hr, Hcl by done. split; [done|].
    apply lookup_delete_eq.
Qed.

Lemma own_app t ms ms' : own t (ms ++ ms') = own t ms ++ own t ms'.
Proof. apply filter_app. Qed.
Lemma own_one t m : own t [m] = if decide (mover m = Some t) then [m] else [].
Proof. unfold own. rewrite filter_cons. by case_decide. Qed.

Lemma ereach_at_work t a conn fin s0 ms s es reads :
  ereach s0 ms s es → task_at t s0 = Some (a, AtRead zero_buf) → heap s0 !! a = Some conn →
  isolated t a s0 ms → ∀ todo, script t reads fin = own t ms ++ todo → todo ≠ [] →
  at_work t a conn reads fin todo s.
Proof.
  intros Hr Ht Hc. induction Hr as [|ms s es m s' e Hr IH Hn]; intros Hiso todo Htodo Hne.
  { exists (AtRead zero_buf), reads, conn, []. by split_and!. }
  assert (isolated t a s0 ms) as Hiso'.
  { intros ms1 m1 ms2 s1 es1 ->. apply (Hiso ms1 m1 (ms2 ++ [m]) s1 es1). by rewrite <-app_assoc. }
  rewrite own_app, own_one, <-app_assoc in Htodo. case_decide as Hm.
  - pose proof (IH Hiso' _ Htodo ltac:(done)) as Hw. cbn in Hw.
    by destruct (at_work_own _ _ _ _ _ _ _ _ _ _ Hw Hm Hn) as [[? _]|[? _]].
  - eapply at_work_other; [by apply IH|done| |done]. intros u fr Hu Hne'. by apply (Hiso ms m [] s es).
Qed.

(** Untouched, by running. *)
Definition touch_of (m : emove) : option nat := match m with Handles u | Closes u => Some u | _ => None end.
Fixpoint untouched_from (p : nat → bool) (a : Z) (s : esys) (ms : list emove) : bool :=
  match ms with
  | [] => true
  | m :: ms =>
      match touch_of m with
      | Some u => negb (p u) || negb (bool_decide (fst <$> task_at u s = Some a))
      | None => true
      end
      && match enext s m with Some (Ok (s, _)) => untouched_from p a s ms | _ => true end
  end.

Lemma untouched_from_untouched p (P : nat → Prop) a s ms :
  (∀ u, P u → p u = true) → untouched_from p a s ms = true → untouched P a s ms.
Proof.
  intros Hp Hs ms1 m ms2 s1 es1 -> Hr%machine_reach_is_run u fr Hu HP Hb.
  revert s es1 Hs Hr; induction ms1 as [|m1 ms1 IH]; intros s es1 Hs Hr; simpl in Hs, Hr; apply andb_true_iff in Hs as [H1 H2].
  - simplify_eq. assert (touch_of m = Some u) as E by (by destruct Hu as [-> | ->]).
    rewrite E, Hb, (Hp _ HP), bool_decide_true in H1; done.
  - apply bind_Some in Hr as ([[s2 e]| |] & Hn & Hr); [|by case_match|done]. rewrite Hn in H2.
    apply bind_Some in Hr as ([[s3 es3]| |] & Hr & Hq); simplify_eq/=. by eapply IH.
Qed.

(** ** Properties *)

(** C16: a task of the running acceptor does what [read_conn] says. From the
    state in which worker [t] begins to read the connection at [a], let
    anything happen, in any order: new clients, events, pushes, other tasks, but
    for tasks that parse bytes of that connection or delete it. If the own moves of the
    task are those of [read_conn] for the reads [reads] and then the end of the
    stream, or that there is nothing more, then at its last move the connection
    is what the function [read_conn] makes of it; in particular it is deleted
    at the end of the stream. *)
Theorem task_is_read_conn t a conn reads fin s ms m s' es :
  task_at t s = Some (a, AtRead zero_buf) → heap s !! a = Some conn →
  erun s (ms ++ [m]) = Some (Ok (s', es)) → isolated t a s ms →
  mover m = Some t → own t (ms ++ [m]) = script t reads fin →
  ∃ conn' ios, read_conn conn reads fin = Ok (conn', ios) ∧ heap s' !! a = conn' ∧ frames s' !! t = None.
Proof.
  intros Ht Hc Hr Hiso Hm Hown. apply machine_run_snoc_inv in Hr as (s1 & es1 & e & Hr & Hend & _).
  rewrite own_app, own_one, decide_True in Hown by done. symmetry in Hown.
  pose proof (ereach_at_work t a conn fin s ms s1 es1 reads (machine_run_reach _ _ _ _ _ Hr) Ht Hc Hiso [m] Hown ltac:(done)) as Hw.
  destruct (at_work_own _ _ _ _ _ _ _ _ _ _ Hw Hm Hend) as [[_ ?]|(_ & Hf & c & out & Hrl & Hh)]; [done|].
  unfold read_conn. rewrite Hrl, bind_ok. destruct fin; by eexists _, _.
Qed.
End conn_task.

(** ** Witness *)

(** A client has connected, and worker 0 begins to read.  Between its two reads a
    second client connects, and worker 1 reads what that one sends. *)
Definition reading : @esys (@conf task) :=
  match erun demo_loop (client_connects ++ loop_pushes ++ [LogRun] ++ worker_begins 0) with
  | Some (Ok r) => r.1 | _ => demo_loop end.
Definition second_client : list emove :=
  [Wait [(3, 1)]; Event [(8, 8192)]; Wait [(8, 1)]; Event []] ++ loop_pushes ++ [LogRun] ++ worker_begins 1
  ++ a_round 1 (bs "POST /").
Definition reading_moves : list emove :=
  a_round 0 (take 9 get_request) ++ second_client ++ a_round 0 (drop 9 get_request).
Definition has_read : @esys (@conf task) * list eevent :=
  match erun reading (reading_moves ++ [Reads 0 ReadAgain]) with Some (Ok r) => r | _ => (reading, []) end.

Lemma task_is_read_conn_witness :
  dom (heap has_read.1) = {[ 4096; 8192 ]}
  ∧ ∃ conn' ios, read_conn (Conn 7 4 http_request_new buffer_new ([], [])) [take 9 get_request; drop 9 get_request] Again
      = Ok (conn', ios) ∧ heap has_read.1 !! 4096 = conn' ∧ frames has_read.1 !! 0%nat = None.
Proof.
  split; [vm_compute; reflexivity|].
  apply (task_is_read_conn 0 4096 (Conn 7 4 http_request_new buffer_new ([], []))
    [take 9 get_request; drop 9 get_request] Again reading reading_moves (Reads 0 ReadAgain) has_read.1 has_read.2);
    [vm_compute; reflexivity..| |reflexivity|vm_compute; reflexivity].
  apply (untouched_from_untouched (λ u, negb (u =? 0)%nat)); [by intros u Hu%Nat.eqb_neq; rewrite Hu|].
  vm_compute. reflexivity.
Defined.
