(* ===== verification/RequestRun.v ===== *)
(** * A request on the running acceptor, from its bytes to its file

    The way of one request through the machine of EventLoop.v: tasks parse its
    pieces, the connection keeps what was parsed while loop, pool and the other
    tasks go on, and a later task opens the file and arms the connection for
    the next request. *)

From S2P Require Import Prelude Sys Log JobQueue WorkerPool Poller Buffer HttpRequest Acceptor HttpPieces EventLoop ConnTask.
Open Scope Z_scope.

Section request_run.
Context {Q : Type} `{!AtomicQueue (A := task) Q}.
Abbreviation esys := (@esys Q).
Implicit Types s : esys.

(** ** What happens to one connection *)

(** The bytes that a move parses on the connection at [a]. *)
Definition parsed_by (a : Z) (m : emove) (s : esys) : list bytes :=
  match m with
  | Handles u =>
      match task_at u s with
      | Some (b, GotData nread buf) => if b =? a then [take nread buf] else []
      | _ => []
      end
  | _ => []
  end.

(** Does the move belong to a task that is about to delete it? *)
Definition deleted_by (a : Z) (m : emove) (s : esys) : bool :=
  match m with
  | Closes u => match task_at u s with Some (b, _) => b =? a | None => false end
  | _ => false
  end.

(** The same along a run: what the tasks parse on the connection, whichever
    tasks these are, and that none of them deletes it. *)
Fixpoint parsed_on (a : Z) (s : esys) (ms : list emove) : list bytes :=
  match ms with
  | [] => []
  | m :: ms => parsed_by a m s ++ match enext s m with Some (Ok (s, _)) => parsed_on a s ms | _ => [] end
  end.
Fixpoint undeleted (a : Z) (s : esys) (ms : list emove) : bool :=
  match ms with
  | [] => true
  | m :: ms => negb (deleted_by a m s) && match enext s m with Some (Ok (s, _)) => undeleted a s ms | _ => true end
  end.

(** A move parses something on it, or leaves it as it is. *)
Lemma conn_step a c s m s' e :
  heap s !! a = Some c → deleted_by a m s = false → enext s m = Some (Ok (s', e)) →
  parsed_by a m s = [] ∧ heap s' !! a = Some c
  ∨ ∃ u n buf c' buf' d, task_at u s = Some (a, GotData n buf) ∧ parsed_by a m s = [take n buf]
      ∧ read_body n buf c = Ok (c', buf', d) ∧ heap s' !! a = Some c'.
Proof.
  intros Hc Hd Hn.
  assert ((∀ u fr, m = Handles u ∨ m = Closes u → task_at u s ≠ Some (a, fr)) → parsed_by a m s = [] →
    parsed_by a m s = [] ∧ heap s' !! a = Some c) as Hk by (intros Hno ?; split; [done|by eapply enext_heap_kept]).
  destruct m as [| | | |u r|u|u|u|u o|u]; try (left; apply Hk; [by intros ? ? [[=]|[=]]|done]).
  - destruct (enext_task _ _ _ _ Hn) as [?|(-> & u' & b & fr & c' & Ht & Hb & Hm)]; [done|].
    inversion Hm as [| | |n buf c1 buf' d Hr Hread| | | | | | | |]; subst. cbn in Hk |- *. rewrite Ht in Hk |- *.
    destruct (Z.eqb_spec b a) as [->|Hne].
    + right. simplify_eq. exists u, n, buf, c1, buf', d. split_and!; [done..|]. apply lookup_insert_eq.
    + left. apply Hk; [|done]. intros ? fr [[= <-]|[=]]. congruence.
  - left. apply Hk; [|done]. intros ? fr [[=]|[= <-]] Ht. cbn in Hd. by rewrite Ht, Z.eqb_refl in Hd.
Qed.

Lemma typed_body s u a c n buf :
  typed s → task_at u s = Some (a, GotData n buf) → heap s !! a = Some c →
  buffers_ok c ∧ (length (take n buf) = n) ∧ (n ≤ 1023)%nat.
Proof.
  intros [Hh Hf] (qe & _ & Hfr & _)%task_at_spec Hc. destruct (Hh _ _ Hc) as ((_ & Hb) & _).
  destruct (Hf _ _ Hfr) as [Hl Hn]. split_and!; [done| |done]. rewrite length_take. lia.
Qed.

(** If the parser makes its way through the bytes, the connection ends where the
    parser does. *)
Lemma run_parsed a s ms s' es : ∀ c hs,
  typed s → heap s !! a = Some c → undeleted a s ms = true → erun s ms = Some (Ok (s', es)) →
  parses (req c) (parsed_on a s ms) hs →
  typed s' ∧ ∃ c', heap s' !! a = Some c' ∧ req c' = last_head (req c) hs ∧ fd c' = fd c.
Proof.
  revert s s' es; induction ms as [|m ms IH]; intros s s' es c hs Ht Hc Hu Hr Hp; simpl in Hr, Hu, Hp.
  { simplify_eq. inversion Hp; subst. split; [done|]. by exists c. }
  apply bind_Some in Hr as ([[s1 e]| |] & Hn & Hr); [|by destruct ms|done]. rewrite Hn in Hu, Hp.
  apply bind_Some in Hr as ([[s2 es2]| |] & Hr & Hq); simplify_eq/=. apply andb_true_iff in Hu as [Hd%negb_true_iff Hu].
  pose proof (typed_step _ _ _ _ Hn Ht) as Ht1.
  destruct (conn_step _ _ _ _ _ _ Hc Hd Hn) as [[Hnil Hc1]|(u & n & buf & c1 & buf' & d & Htu & Hone & Hb & Hc1)].
  - rewrite Hnil in Hp. by eapply IH.
  - rewrite Hone in Hp. inversion Hp as [|? ? h1 ? hs' Hm Hp']; subst.
    destruct (typed_body _ _ _ _ _ _ Ht Htu Hc) as (Hbo & Hl & Hn').
    specialize (Hm (drop n buf)). destruct (read_body_parsed (take n buf) (drop n buf) c h1) as (c1' & Hb' & Hreq & Hfd & _);
      [lia|done|done|]. rewrite Hl, take_drop, Hb in Hb'. simplify_eq.
    destruct (IH _ _ _ _ hs' Ht1 Hc1 Hu Hr Hp') as (Ht' & c' & Hc' & Hreq' & Hfd'). split; [done|].
    exists c'. rewrite last_head_cons, Hfd', Hfd. done.
Qed.

(** Its descriptor stays what it is, whatever is parsed. *)
Lemma run_fd a s ms s' es : ∀ c,
  heap s !! a = Some c → undeleted a s ms = true → erun s ms = Some (Ok (s', es)) →
  ∃ c', heap s' !! a = Some c' ∧ fd c' = fd c.
Proof.
  revert s s' es; induction ms as [|m ms IH]; intros s s' es c Hc Hu Hr; simpl in Hr, Hu.
  { simplify_eq. by exists c. }
  apply bind_Some in Hr as ([[s1 e]| |] & Hn & Hr); [|by destruct ms|done]. rewrite Hn in Hu.
  apply bind_Some in Hr as ([[s2 es2]| |] & Hr & Hq); simplify_eq/=. apply andb_true_iff in Hu as [Hd%negb_true_iff Hu].
  destruct (conn_step _ _ _ _ _ _ Hc Hd Hn) as [[_ Hc1]|(u & n & buf & c1 & buf' & d & _ & _ & Hb & Hc1)].
  - by eapply IH.
  - destruct (IH _ _ _ _ Hc1 Hu Hr) as (c' & Hc' & Hfd). exists c'. split; [done|].
    rewrite Hfd. by apply (read_body_fd _ _ _ _ _ _ Hb).
Qed.

(** A task stays where it is until its own move. *)
Lemma run_task_kept t a fr s ms s' es :
  task_at t s = Some (a, fr) → own t ms = [] → erun s ms = Some (Ok (s', es)) → task_at t s' = Some (a, fr).
Proof.
  revert s s' es; induction ms as [|m ms IH]; intros s s' es Ht Ho Hr; simpl in Hr; [by simplify_eq|].
  apply bind_Some in Hr as ([[s1 e]| |] & Hn & Hr); [|by case_match|done].
  apply bind_Some in Hr as ([[s2 es2]| |] & Hr & Hq); simplify_eq/=.
  unfold own in Ho. rewrite filter_cons in Ho. case_decide; [done|]. eapply IH; [|done..]. by eapply enext_task_kept.
Qed.

(** Nothing that is read behind a finished request is a race with its write task. *)
Lemma finished_url c n buf :
  rhs (req c) = READ_HTTP_FINISH → buffers_ok c → (length (take n buf) = n) → (n ≤ 1023)%nat →
  changes_url c n buf = false.
Proof.
  intros Hf Hb Hl Hn. unfold changes_url.
  destruct (read_body_parsed (take n buf) (drop n buf) c (req c)) as (c' & Hr & Hreq & _);
    [lia|done|by apply finished_machine|]. rewrite Hl, take_drop in Hr. rewrite Hr, Hreq. by rewrite bool_decide_true.
Qed.

Lemma finished_no_race w a c s :
  typed s → heap s !! a = Some c → rhs (req c) = READ_HTTP_FINISH → races w a AtOpen c s = false.
Proof.
  intros Ht Hc Hf. apply not_true_is_false. unfold races. intros (u & _ & Hu)%existsb_exists.
  destruct (task_at u s) as [[b fr]|] eqn:Htu; [|done]. apply andb_true_iff in Hu as [[_ Hb%Z.eqb_eq]%andb_true_iff Hu]. subst b.
  destruct fr as [|n buf| | | | | | |]; cbn in Hu; try done.
  destruct (typed_body _ _ _ _ _ _ Ht Htu Hc) as (Hbo & Hl & Hn). by rewrite finished_url in Hu.
Qed.

(** ** Property *)

(** C11: a request is answered. Somewhere in a run of the acceptor there is a
    new connection at [a]. Then anything may happen, in any order, as long as no
    task deletes that connection: other clients come and go, and any number of
    tasks read this one, one after the other or again and again. If what they
    parse on it are the pieces of a well-formed request, cut inside of header
    lines, and a write task of it then runs in worker [w], the file that this
    one opens is the URL's below [/var/www/html], for every URL of 2 to 50
    bytes. If the file does not open, the task returns and the registrations
    stay as they are. If it opens, it is sent and the connection, wherever its
    other tasks are by then, is registered and armed for reading again. *)
Theorem request_answered port rs q s00 ms0 s0 es0 a sock epfd m u v c0 cs ms s1 es w opened :
  result_of (acceptor_start port q) rs = Ok s00 → erun s00 ms0 = Some (Ok (s0, es0)) →
  heap s0 !! a = Some (Conn sock epfd http_request_new buffer_new ([], [])) →
  erun s0 ms = Some (Ok (s1, es)) → undeleted a s0 ms = true →
  line_ok u v → (2 ≤ length u ≤ 50)%nat → no_nul u → Forall head_piece (c0 :: cs) →
  parsed_on a s0 ms = request_pieces m u v (c0 :: cs) →
  task_at w s1 = Some (a, AtOpen) →
  ∃ c, heap s1 !! a = Some c
    ∧ write_conn c opened = Ok (if opened <=? 0 then [Open (bs "/var/www/html" ++ u)]
                                else [Open (bs "/var/www/html" ++ u); SendFile opened; EpollMod sock EpollIn])
    ∧ ∃ s2, enext s1 (Writes w opened) = Some (Ok (s2, Quiet)) ∧ regs s2 = regs s1 ∧ heap s2 = heap s1
        ∧ (opened ≤ 0 → frames s2 !! w = None)
        ∧ (0 < opened → ∀ ms2 s3 es2,
             erun s2 ms2 = Some (Ok (s3, es2)) → own w ms2 = [] → undeleted a s2 ms2 = true →
             ∃ s3', enext s3 (Sends w) = Some (Ok (s3', Quiet))
               ∧ ∀ ms3 s4 es3,
                   erun s3' ms3 = Some (Ok (s4, es3)) → own w ms3 = [] → undeleted a s3' ms3 = true →
                   ∃ s5, enext s4 (Arms w) = Some (Ok (s5, Quiet))
                     ∧ regs s5 = ctl_mod sock (Reg a EpollIn true true) (regs s4)
                     ∧ heap s5 = heap s4 ∧ frames s5 !! w = None).
Proof.
  intros Hs Hr0 Hc0 Hr Hu Hok Hl Hnu Hcs Hp Hw.
  assert (typed s0) as Ht0 by (eapply erun_typed; [by eapply acceptor_start_by|done]).
  pose proof (parses_request m u v cs c0 Hok ltac:(lia) Hcs) as Hps. rewrite <-Hp in Hps.
  destruct (run_parsed a s0 ms s1 es _ _ Ht0 Hc0 Hu Hr Hps) as (Ht1 & c & Hc & Hreq & Hfd).
  rewrite last_piece in Hreq. cbn [fd] in Hfd.
  pose proof (λ o, write_parsed m u c o Hreq Hl Hnu) as Hwrite. rewrite Hfd in Hwrite.
  exists c. split_and!; [done|apply Hwrite|].
  assert (∃ name, file_name (url (req c)) = Ok name) as [name Hname].
  { specialize (Hwrite 0). unfold write_conn in Hwrite. by destruct (file_name _) as [name| |]; [exists name|..]. }
  set (s2 := if opened <=? 0 then returns w s1 else set_frame w (AtSend opened) s1).
  assert (enext s1 (Writes w opened) = Some (Ok (s2, Quiet))) as Hn.
  { simpl. unfold write_step, on_conn. rewrite Hw. cbn [mbind option_bind]. rewrite Hc.
    rewrite (finished_no_race w a c s1 Ht1 Hc) by (by rewrite Hreq). rewrite Hname. done. }
  assert (regs s2 = regs s1 ∧ heap s2 = heap s1 ∧ wp s2 = wp s1) as (Hre & He & Hwp) by (unfold s2; by destruct (opened <=? 0)).
  exists s2. split_and!; [done..| |].
  { intros Ho%Z.leb_le. unfold s2. rewrite Ho. apply lookup_delete_eq. }
  intros Ho ms2 s3 es2 Hr2 Hown2 Hu2.
  assert (task_at w s2 = Some (a, AtSend opened)) as Hw2.
  { unfold s2. rewrite (proj2 (Z.leb_gt opened 0)) by lia. by eapply set_frame_task. }
  pose proof (run_task_kept _ _ _ _ _ _ _ Hw2 Hown2 Hr2) as Hw3. rewrite <-He in Hc.
  destruct (run_fd _ _ _ _ _ _ Hc Hu2 Hr2) as (c3 & Hc3 & Hfd3).
  exists (set_frame w AtRearm s3). split.
  { simpl. unfold send_step, on_conn. rewrite Hw3. cbn [mbind option_bind]. by rewrite Hc3. }
  intros ms3 s4 es3 Hr3 Hown3 Hu3. assert (task_at w (set_frame w AtRearm s3) = Some (a, AtRearm)) as Hw3' by (by eapply set_frame_task).
  pose proof (run_task_kept _ _ _ _ _ _ _ Hw3' Hown3 Hr3) as Hw4.
  destruct (run_fd _ (set_frame w AtRearm s3) _ _ _ c3 Hc3 Hu3 Hr3) as (c4 & Hc4 & Hfd4).
  eexists. split.
  { simpl. unfold arm_step, on_conn. rewrite Hw4. cbn [mbind option_bind]. rewrite Hc4. reflexivity. }
  cbn. rewrite Hfd4, Hfd3, Hfd. split_and!; [done..|]. apply lookup_delete_eq.
Qed.
End request_run.

(** ** Witness *)

(** A request is read in two pieces, the first by worker 0 and the second by
    worker 1, while a second client connects; then worker 2 gets the write task,
    and when it has sent the file, the second client sends something. *)
Definition two_pieces : list bytes := request_pieces GET (bs "/a/../b") (bs "1.1") [bs "Hos"; bs "t: a"].
Definition moves_to_write : list emove :=
  a_round 0 (two_pieces !!! 0%nat) ++ [Wait [(7, 1); (3, 1)]; Event []] ++ loop_pushes ++ [LogRun; Event [(8, 8192)]]
  ++ worker_begins 1 ++ a_round 1 (two_pieces !!! 1%nat) ++ [Reads 0 ReadAgain; Reads 1 ReadAgain; work_ 0]
  ++ [Wait [(7, 4)]; Event []] ++ loop_pushes ++ [LogRun] ++ worker_begins 2.
Definition moves_after_send : list emove :=
  [Wait [(8, 1)]; Event []] ++ loop_pushes ++ [LogRun] ++ worker_begins 3 ++ a_round 3 (bs "P").

Definition after (s : @esys (@conf task)) (ms : list emove) : @esys (@conf task) * list eevent :=
  match erun s ms with Some (Ok r) => r | _ => (s, []) end.
Definition moves_to_read : list emove := client_connects ++ loop_pushes ++ [LogRun] ++ worker_begins 0.
Definition at_write : @esys (@conf task) := (after reading moves_to_write).1.
Definition at_send : @esys (@conf task) := (after at_write [Writes 2 9]).1.
Definition has_sent : @esys (@conf task) := (after at_send [Sends 2]).1.
Definition at_rearm : @esys (@conf task) := (after has_sent moves_after_send).1.

Lemma request_answered_witness :
  ∃ s5, enext at_rearm (Arms 2) = Some (Ok (s5, Quiet))
    ∧ regs s5 = ctl_mod 7 (Reg 4096 EpollIn true true) (regs at_rearm)
    ∧ heap s5 = heap at_rearm ∧ frames s5 !! 2%nat = None.
Proof.
  destruct (request_answered 16666 demo_results (init 21) demo_loop moves_to_read reading (after demo_loop moves_to_read).2
    4096 7 4 GET (bs "/a/../b") (bs "1.1") (bs "Hos") [bs "t: a"] moves_to_write at_write (after reading moves_to_write).2 2 9)
    as (c & _ & _ & s2 & Hn & _ & _ & _ & Hsend).
  - apply demo_loop_starts.
  - vm_compute. reflexivity.
  - vm_compute. reflexivity.
  - vm_compute. reflexivity.
  - vm_compute. reflexivity.
  - split_and!; [done|no_byte|done|no_byte].
  - vm_compute. lia.
  - no_nul.
  - repeat constructor; [exists (bs "Hos"), []|exists (bs "t: a"), []]; (split_and!; [done|no_byte|constructor]).
  - vm_compute. reflexivity.
  - vm_compute. reflexivity.
  - assert (s2 = at_send) as -> by (vm_compute in Hn; injection Hn as <-; vm_compute; reflexivity).
    destruct (Hsend ltac:(lia) [] at_send []) as (s3 & Hn3 & Harm); [reflexivity..|].
    assert (s3 = has_sent) as -> by (vm_compute in Hn3; injection Hn3 as <-; vm_compute; reflexivity).
    apply (Harm moves_after_send at_rearm (after has_sent moves_after_send).2); vm_compute; reflexivity.
Defined.
