(* ===== verification/Rearm.v ===== *)
(** * EPOLLONESHOT: no connection of the acceptor is forgotten

    acceptor.cpp registers every connection with EPOLLONESHOT, so that an event
    disarms it, and the tasks arm it again: [read_conn] after every read,
    [write_conn] after a file that could be opened.  A connection that is
    neither armed nor on its way through loop, queue and workers would never be
    served again.  Here it is proved that there is none, under conditions on
    what the system does; and that there are some without. *)

From S2P Require Import Prelude Sys Log JobQueue WorkerPool Poller Buffer HttpRequest Acceptor EventLoop ConnTask.
Open Scope Z_scope.

(** ** Counting *)

(** How many of the numbers below [n] satisfy [P]. *)
Fixpoint number (P : nat → bool) (n : nat) : nat :=
  match n with O => 0 | S n => (if P n then 1 else 0) + number P n end.

Lemma number_ext P P' n : (∀ t, (t < n)%nat → P' t = P t) → number P' n = number P n.
Proof. induction n as [|n IH]; intros H; [done|]. simpl. rewrite H, IH; [done|auto with lia..]. Qed.

(** A property that changes at one number. *)
Lemma number_change P P' n t :
  (t < n)%nat → (∀ u, u ≠ t → P' u = P u) →
  (number P' n + (if P t then 1 else 0) = number P n + (if P' t then 1 else 0))%nat.
Proof.
  intros Ht H. induction n as [|n IH]; [lia|]. simpl. destruct (decide (n = t)) as [->|Hn].
  - rewrite (number_ext P P' t) by (intros; apply H; lia). lia.
  - rewrite (H n) by done. specialize (IH ltac:(lia)). lia.
Qed.

Lemma number_le P P' n : (∀ t, P' t = true → P t = true) → (number P' n ≤ number P n)%nat.
Proof. intros H. induction n as [|n IH]; [done|]. simpl. specialize (H n). destruct (P' n), (P n); try lia; naive_solver. Qed.

Lemma number_lt P P' n : (number P' n < number P n)%nat → ∃ t, P t = true ∧ P' t = false.
Proof.
  induction n as [|n IH]; simpl; intros H; [lia|].
  destruct (P n) eqn:E1, (P' n) eqn:E2; [|by exists n| |]; apply IH; lia.
Qed.

Section rearm.
Context {Q : Type} `{!AtomicQueue (A := task) Q}.
Abbreviation esys := (@esys Q).
Implicit Types s : esys.

(** Tasks of one connection. *)
Definition tasks_on (a : Z) (l : list task) : nat := length (filter (λ qe, qe_arg qe = a) l).

Lemma tasks_on_app a l l' : tasks_on a (l ++ l') = (tasks_on a l + tasks_on a l')%nat.
Proof. unfold tasks_on. by rewrite filter_app, length_app. Qed.
Lemma tasks_on_perm a l l' : l ≡ₚ l' → tasks_on a l = tasks_on a l'.
Proof. intros H. unfold tasks_on. by rewrite H. Qed.
Lemma tasks_on_one a qe : tasks_on a [qe] = if bool_decide (qe_arg qe = a) then 1%nat else 0%nat.
Proof. unfold tasks_on. rewrite filter_cons. case_decide; by rewrite ?bool_decide_true, ?bool_decide_false by done. Qed.

(** ** Tasks that have armed their connection *)

(** The workers whose task has armed its connection since it began. *)
Definition mark (g : gset nat) (m : emove) (e : eevent) : gset nat :=
  match m, e with
  | Arms t, _ => {[ t ]} ∪ g
  | _, PoolDid (Begin t _) => g ∖ {[ t ]}
  | _, _ => g
  end.
Definition worked (ms : list emove) (es : list eevent) : gset nat :=
  foldl (λ g x, mark g x.1 x.2) ∅ (zip ms es).

(** A task on [a] that is done with it but for its end: it has returned, or it
    has armed the connection and goes on reading. *)
Definition spent (a : Z) (g : gset nat) (s : esys) (t : nat) : bool :=
  match workers (wp s) !! t with
  | Some (WRun qe) =>
      bool_decide (qe_arg qe = a) && match frames s !! t with None => true | Some _ => bool_decide (t ∈ g) end
  | _ => false
  end.
Definition spents (a : Z) (g : gset nat) (s : esys) : nat := number (spent a g s) (length (workers (wp s))).

(** Some task on [a] is not spent: more have been pushed than have ended or are
    spent. *)
Definition covering (a : Z) (g : gset nat) (s : esys) (es : list eevent) : Prop :=
  (tasks_on a (ended (pool_events es)) + spents a g s < tasks_on a (called (omap queue_event (pool_events es))))%nat.

Lemma covering_snoc a g s es s' g' e :
  spents a g' s' = spents a g s → pool_events (es ++ [e]) = pool_events es →
  covering a g s es → covering a g' s' (es ++ [e]).
Proof. unfold covering. by intros -> ->. Qed.

(** Steps that change nothing, or only worker [t] on another connection. *)
Lemma spents_same a g s g' s' :
  wp s' = wp s → (∀ t, frames s' !! t = frames s !! t) → g' = g → spents a g' s' = spents a g s.
Proof. intros Hw Hf ->. unfold spents. rewrite Hw. apply number_ext. intros t _. unfold spent. by rewrite Hw, Hf. Qed.

Lemma spents_other a b t g s g' s' qe :
  wp s' = wp s → workers (wp s) !! t = Some (WRun qe) → qe_arg qe = b → b ≠ a →
  (∀ u, u ≠ t → frames s' !! u = frames s !! u ∧ (u ∈ g' ↔ u ∈ g)) → spents a g' s' = spents a g s.
Proof.
  intros Hw Ht Hb Hne Hu. unfold spents. rewrite Hw. apply number_ext. intros u _. unfold spent. rewrite Hw.
  destruct (decide (u = t)) as [->|Hut].
  - rewrite Ht. by rewrite bool_decide_false by congruence.
  - destruct (Hu u Hut) as [-> Hg]. destruct (workers (wp s) !! u) as [[]|]; try done.
    destruct (frames s !! u); [|done]. by rewrite (bool_decide_ext _ _ Hg).
Qed.

(** A worker that runs a task ran it before, unless it has just begun. *)
Lemma pnext_ran (w w' : @worker_pool callback Z Q) m e t qe :
  pnext w m = Some (w', e) → workers w' !! t = Some (WRun qe) →
  workers w !! t = Some (WRun qe) ∨ e = Begin t qe.
Proof.
  intros Hn Ht. destruct m as [m|u]; simpl in Hn.
  - apply bind_Some in Hn as ([q e'] & _ & Hm). unfold queue_move in Hm.
    repeat case_match; simplify_eq; cbn in Ht; auto;
      (apply list_lookup_insert_Some in Ht as [(_ & ? & _)|[_ Ht]]; [done|by left]).
  - unfold work in Hn. destruct (workers w !! u) as [p|] eqn:Hu; [|done].
    destruct p; repeat case_match; simplify_eq; cbn in Ht;
      try (apply bind_Some in Hn as ([q e'] & _ & Hn); simplify_eq; cbn in Ht);
      (apply list_lookup_insert_Some in Ht as [(? & ? & _)|[_ Ht]]; [simplify_eq; by right|by left]).
Qed.

Lemma pnext_ends (w w' : @worker_pool callback Z Q) m t qe qe' :
  pnext w m = Some (w', End_ t qe) → workers w' !! t ≠ Some (WRun qe').
Proof.
  intros Hn Ht. pose proof (pnext_running _ _ _ _ t Hn) as [Hw _].
  destruct m as [m|u]; simpl in Hn.
  - apply bind_Some in Hn as ([q e'] & _ & Hm). unfold queue_move in Hm. by repeat case_match; simplify_eq.
  - unfold work in Hn. destruct (workers w !! u) as [p|] eqn:Hu; [|done].
    destruct p; repeat case_match; simplify_eq; cbn in Ht;
      try (apply bind_Some in Hn as ([q e'] & _ & Hn); simplify_eq).
    rewrite list_lookup_insert_eq in Ht; [done|by eapply lookup_lt_Some].
Qed.

Lemma pool_frames m s s' e :
  pool_move m s = Some (s', e) →
  ∃ pe, e = PoolDid pe ∧ pnext (wp s) m = Some (wp s', pe) ∧ called (omap queue_event [pe]) = []
    ∧ match pe with
      | Begin t qe => frames s' = <[t := fresh qe]> (frames s)
      | End_ t qe => frames s !! t = None ∧ frames s' = frames s
      | _ => frames s' = frames s
      end.
Proof.
  unfold pool_move. intros ([[[w fs] b] pe] & Hp & [= <- <-])%bind_Some. exists pe. pose proof Hp as (Hn & He & _)%pool_step_inv.
  assert (∀ s1, frames (match loop s with LRun conn evs => if b then set_loop (LLog conn evs) s1 else s1 | _ => s1 end)
    = frames s1 ∧ wp (match loop s with LRun conn evs => if b then set_loop (LLog conn evs) s1 else s1 | _ => s1 end) = wp s1)
    as Hf by (intros; destruct (loop s); [|destruct b|]; done).
  destruct (Hf (set_frames fs (set_wp w s))) as [-> ->]. cbn. split_and!; [done|done| |].
  - destruct pe as [[|t [qe|]| |]| | | |]; try done. by destruct (He t qe).
  - unfold pool_step in Hp. rewrite Hn in Hp. cbn in Hp. destruct pe as [[|t [qe|]| |t []]| | | |]; by repeat case_match; simplify_eq.
Qed.

Lemma spents_begin a g s s' m t qe :
  pnext (wp s) m = Some (wp s', Begin t qe) → frames s' = <[t := fresh qe]> (frames s) →
  spents a (g ∖ {[ t ]}) s' = spents a g s.
Proof.
  intros Hn Hf. unfold spents. rewrite (pnext_length _ _ _ _ Hn). apply number_ext. intros u _. unfold spent. rewrite Hf.
  destruct (pnext_running _ _ _ _ u Hn) as (Ht & Hne & Hno). destruct (decide (t = u)) as [<-|Htu].
  - rewrite Ht, lookup_insert_eq, (bool_decide_false (t ∈ g ∖ _)) by set_solver. rewrite andb_false_r.
    destruct (workers (wp s) !! t) as [[]|] eqn:Hw; try done. by edestruct Hno.
  - rewrite Hne, lookup_insert_ne by done. destruct (workers (wp s) !! u) as [[]|]; try done.
    destruct (frames s !! u); [|done]. by rewrite (bool_decide_ext (u ∈ g ∖ {[ t ]}) (u ∈ g)) by set_solver.
Qed.

Lemma spents_end a g s s' m t qe :
  pnext (wp s) m = Some (wp s', End_ t qe) → frames s !! t = None → frames s' = frames s →
  (spents a g s' + tasks_on a [qe] = spents a g s)%nat.
Proof.
  intros Hn Ht Hf. pose proof (pnext_running _ _ _ _ t Hn) as [Hw _]. unfold spents. rewrite (pnext_length _ _ _ _ Hn).
  assert (spent a g s' t = false) as H1.
  { unfold spent. destruct (workers (wp s') !! t) as [[]|] eqn:E; try done. by destruct (pnext_ends _ _ _ _ _ qe0 Hn). }
  assert (spent a g s t = bool_decide (qe_arg qe = a)) as H2 by (unfold spent; by rewrite Hw, Ht, andb_true_r).
  pose proof (number_change (spent a g s) (spent a g s') (length (workers (wp s))) t) as Hc.
  rewrite H1, H2 in Hc. rewrite tasks_on_one, Hc, Nat.add_0_r; [done|by eapply lookup_lt_Some|].
  intros u Hu. unfold spent. rewrite Hf. destruct (pnext_running _ _ _ _ u Hn) as [_ Hne]. by rewrite Hne.
Qed.

Lemma spents_quiet a g s s' m pe :
  pnext (wp s) m = Some (wp s', pe) → (∀ t qe, pe ≠ Begin t qe) → (∀ t qe, pe ≠ End_ t qe) → frames s' = frames s →
  spents a g s' = spents a g s.
Proof.
  intros Hn H1 H2 Hf. unfold spents. rewrite (pnext_length _ _ _ _ Hn). apply number_ext. intros u _. unfold spent. rewrite Hf.
  assert (∀ qe, workers (wp s') !! u = Some (WRun qe) ↔ workers (wp s) !! u = Some (WRun qe)) as H.
  { intros qe. split.
    - intros [?| ->]%(pnext_ran _ _ _ _ _ _ Hn); [done|]. by destruct (H1 u qe).
    - intros Hw. pose proof (pnext_running _ _ _ _ u Hn) as Hr. destruct pe; auto; [by edestruct H1|by edestruct H2]. }
  destruct (workers (wp s) !! u) as [[]|] eqn:E.
  all: try (rewrite (proj2 (H _) eq_refl)); try done.
  all: destruct (workers (wp s') !! u) as [[]|] eqn:E'; try done; by pose proof (proj1 (H _) eq_refl).
Qed.

Lemma ended_history (es : list eevent) pe : ended (pool_events (es ++ [PoolDid pe])) = ended (pool_events es) ++ ended [pe].
Proof. rewrite pool_events_snoc. apply omap_app. Qed.
Lemma called_history (es : list eevent) pe :
  called (omap queue_event (pool_events (es ++ [PoolDid pe])))
  = called (omap queue_event (pool_events es)) ++ called (omap queue_event [pe]).
Proof. rewrite pool_events_snoc, omap_app. apply omap_app. Qed.

(** The pool does not change what covers a connection. *)
Lemma covering_pool a g s es m s' e :
  pool_move m s = Some (s', e) → covering a g s es → covering a (mark g (Pool m) e) s' (es ++ [e]).
Proof.
  intros (pe & -> & Hn & Hc & Hf)%pool_frames. unfold covering. rewrite ended_history, called_history.
  rewrite Hc, app_nil_r, tasks_on_app. destruct pe as [pe|t qe|t qe|t qe|]; cbn [mark].
  - rewrite (spents_quiet a g s s' m _ Hn) by done. cbn. by rewrite Nat.add_0_r.
  - rewrite (spents_begin a g s s' m t qe Hn Hf). cbn. by rewrite Nat.add_0_r.
  - destruct Hf as [Ht Hf]. pose proof (spents_end a g s s' m t qe Hn Ht Hf). change (ended [End_ t qe]) with [qe]. lia.
  - rewrite (spents_quiet a g s s' m _ Hn) by done. cbn. by rewrite Nat.add_0_r.
  - rewrite (spents_quiet a g s s' m _ Hn) by done. cbn. by rewrite Nat.add_0_r.
Qed.

(** ** What the system must do *)

(** The loop hands an event to a worker. *)
Definition serves (bits : Z) : bool := negb (Z.land bits EPOLLIN =? 0) || negb (Z.land bits EPOLLOUT =? 0).

(** The premises: no event is an error or a hang-up alone; a new socket has a
    descriptor without a registration that no connection in memory has, and a
    new connection an address whose lower half is not the listening socket; no
    read loop finds nothing to read at all; the file of a request can be opened. *)
Definition attended (g : gset nat) (s : esys) (m : emove) : bool :=
  match m with
  | Wait ready => forallb (λ x, serves x.2) ready
  | Event socks =>
      bool_decide (NoDup (map fst socks))
      && forallb (λ x, bool_decide (regs s !! x.1 = None) && negb (data_fd x.2 =? listenfd s)) socks
      && forallb (λ x, bool_decide (map_Forall (λ _ c, fd c ≠ x.1) (heap s))) socks
  | Reads t ReadAgain => bool_decide (t ∈ g)
  | Writes _ opened => 0 <? opened
  | _ => true
  end.
Definition attentive (s0 : esys) (ms : list emove) : Prop :=
  ∀ ms1 m ms2 s1 es1, ms = ms1 ++ m :: ms2 → ereach s0 ms1 s1 es1 → attended (worked ms1 es1) s1 m = true.

(** ** The invariant *)

Definition pends (a : Z) (evs : list epoll_event) : Prop := ∃ ev, ev ∈ evs ∧ ev_data ev = a.
(** A registration of [a], armed or with [C]. *)
Definition kept (rs : gmap Z reg) (lfd a : Z) (c : connection) (C : Prop) : Prop :=
  data_fd a ≠ lfd ∧ ∃ r, rs !! fd c = Some r ∧ data r = a ∧ (armed_ r = true ∨ C).
(** A task has taken the connection's registration away and will delete it. *)
Definition unregistered (fr : frame) : bool := match fr with AtClose | AtDelete => true | _ => false end.
Definition closing_on (a : Z) (s : esys) : Prop := ∃ t fr, task_at t s = Some (a, fr) ∧ unregistered fr = true.

Definition fds_distinct (h : gmap Z connection) : Prop :=
  ∀ a b c d, h !! a = Some c → h !! b = Some d → fd c = fd d → a = b.

Definition served_inv (g : gset nat) (s : esys) (es : list eevent) : Prop :=
  Forall (λ ev, serves (events ev) = true) (rest (loop s)) ∧ fds_distinct (heap s)
  ∧ ∀ a c, heap s !! a = Some c →
      closing_on a s ∨ kept (regs s) (listenfd s) a c (pends a (rest (loop s)) ∨ covering a g s es).

Lemma kept_impl rs lfd a c (C C' : Prop) : (C → C') → kept rs lfd a c C → kept rs lfd a c C'.
Proof. intros H (Hl & r & Hr & Hd & Ha). split; [done|]. exists r. naive_solver. Qed.

(** Steps outside of kernel and heap. *)
Lemma served_keep g s es g' s' e :
  served_inv g s es → heap s' = heap s → regs s' = regs s → listenfd s' = listenfd s →
  rest (loop s') = rest (loop s) → (∀ a, closing_on a s → closing_on a s') →
  (∀ a, covering a g s es → covering a g' s' (es ++ [e])) →
  served_inv g' s' (es ++ [e]).
Proof.
  intros (Hb & Hd & Hi) Hh Hr Hl Hq Hcl Hc. unfold served_inv. rewrite Hh, Hr, Hl, Hq. split_and!; [done..|].
  intros a c Ha. destruct (Hi a c Ha) as [?|Hk]; [left; auto|right]. eapply kept_impl, Hk. intros [?|?]; [by left|right; auto].
Qed.

Lemma serves_runs lfd ev : serves (events ev) = true → dispatch lfd ev ≠ Ignores.
Proof.
  unfold serves, dispatch. intros H. destruct (data_fd _ =? lfd); [done|].
  by destruct (negb (Z.land (events ev) EPOLLIN =? 0)), (negb (Z.land (events ev) EPOLLOUT =? 0)).
Qed.

(** [epoll_wait] disarms only what it reports. *)
Lemma epoll_wait_reports ready rs rs' evs :
  epoll_wait ready rs = Some (rs', evs) → forallb (λ x, serves x.2) ready = true →
  Forall (λ ev, serves (events ev) = true) evs
  ∧ ∀ n r, rs !! n = Some r → ∃ r', rs' !! n = Some r' ∧ data r' = data r
      ∧ (armed_ r = true → armed_ r' = true ∨ pends (data r) evs).
Proof.
  revert rs rs' evs; induction ready as [|[n bits] ready IH]; intros rs rs' evs H Hs; simpl in H, Hs.
  { simplify_eq. split; [done|]. eauto. }
  apply andb_true_iff in Hs as [Hb Hs]. apply bind_Some in H as (r0 & Hr0 & H). case_match; [|done].
  apply bind_Some in H as ([rs1 evs1] & Hw & [= <- <-]). destruct (IH _ _ _ Hw Hs) as [He Hk].
  split; [by constructor|]. intros n' r Hr. destruct (decide (n' = n)) as [->|Hne].
  - assert (r0 = r) as -> by congruence. destruct (Hk n _ (lookup_insert_eq _ _ _)) as (r' & Hr' & Hd & _). exists r'. split_and!; [done..|].
    intros _. right. exists (Ev bits (data r)). split; [by left|done].
  - destruct (Hk n' r) as (r' & Hr' & Hd & Ha); [by rewrite lookup_insert_ne|]. exists r'. split_and!; [done..|].
    intros [?|(ev & Hin & Hev)]%Ha; [by left|]. right. exists ev. split; [by right|done].
Qed.

Lemma served_wait g s es ready rs evs :
  served_inv g s es → loop s = LEvents [] → epoll_wait ready (regs s) = Some (rs, evs) →
  forallb (λ x, serves x.2) ready = true →
  served_inv g (set_loop (LEvents evs) (set_kernel rs (heap s) s)) (es ++ [Reported evs]).
Proof.
  intros (_ & Hds & Hi) Hl Hw Hs. destruct (epoll_wait_reports _ _ _ _ Hw Hs) as [He Hk]. split_and!; [done..|].
  intros a c Ha. destruct (Hi a c Ha) as [?|(Hd & r & Hr & Hra & Harm)]; [by left|right].
  destruct (Hk _ _ Hr) as (r' & Hr' & Hd' & Harm').
  split; [done|]. exists r'. split_and!; [done|congruence|]. rewrite Hl in Harm. cbn.
  destruct Harm as [[?|Hp]%Harm'|[(ev & Hin & _)|Hc]]; [by left|right; left; by rewrite <-Hra|by apply elem_of_nil in Hin|].
  right. right. eapply covering_snoc; [by apply spents_same|by rewrite pool_events_snoc, app_nil_r|done].
Qed.

(** New connections. *)
Lemma add_conns_kept lfd epfd socks rh rh' (D C : Z → Prop) :
  let conn_of x := Conn x epfd http_request_new buffer_new ([], []) in
  add_conns (zip (map snd socks) (zip (map conn_of (map fst socks)) (map (λ x, EpollAdd x EpollIn) (map fst socks)))) rh
    = Some rh' →
  NoDup (map fst socks) → forallb (λ x, bool_decide (rh.1 !! x.1 = None) && negb (data_fd x.2 =? lfd)) socks = true →
  (∀ a c, rh.2 !! a = Some c → D a ∨ kept rh.1 lfd a c (C a)) → ∀ a c, rh'.2 !! a = Some c → D a ∨ kept rh'.1 lfd a c (C a).
Proof.
  intros conn_of. revert rh; induction socks as [|[x b] socks IH]; intros rh H Hnd Hf Hk; simpl in H; [by simplify_eq|].
  case_match eqn:Hb; [done|]. simpl in Hf. apply andb_true_iff in Hf as [[Hx Hd]%andb_true_iff Hf].
  apply bool_decide_eq_true in Hx. inversion Hnd as [|? ? Hin Hnd']; subst.
  assert (ctl_add x (Reg b EpollIn true true) rh.1 = <[x := Reg b EpollIn true true]> rh.1) as E
    by (unfold ctl_add; by rewrite Hx).
  rewrite E in H. eapply IH; [exact H|done| |].
  - apply forallb_forall. intros [y d] Hy. rewrite forallb_forall in Hf. specialize (Hf _ Hy).
    apply andb_true_iff in Hf as [Hy' ->]. rewrite andb_true_r. apply bool_decide_eq_true in Hy'. apply bool_decide_eq_true.
    cbn in *. rewrite lookup_insert_ne; [done|]. intros ->. apply Hin. apply list_elem_of_In, in_map_iff. by exists (y, d).
  - cbn. intros a c Ha. apply lookup_insert_Some in Ha as [[<- <-]|[Hne Ha]].
    + right. split; [by apply negb_true_iff, Z.eqb_neq in Hd|]. eexists. split; [apply lookup_insert_eq|]. auto.
    + destruct (Hk a c Ha) as [?|(Hl & r & Hr & Hda & Harm)]; [by left|right]. split; [done|]. exists r. split_and!; [|done..].
      rewrite lookup_insert_ne; [done|]. intros ->. congruence.
Qed.

Lemma fds_distinct_insert h a c :
  fds_distinct h → map_Forall (λ _ d, fd d ≠ fd c) h → fds_distinct (<[a := c]> h).
Proof.
  intros Hd Hn x y cx cy [[<- <-]|[_ Hx]]%lookup_insert_Some [[<- <-]|[_ Hy]]%lookup_insert_Some Hf; [done| | |by eapply Hd].
  - by destruct (Hn _ _ Hy).
  - by destruct (Hn _ _ Hx).
Qed.

Lemma add_conns_distinct epfd socks rh rh' :
  let conn_of x := Conn x epfd http_request_new buffer_new ([], []) in
  add_conns (zip (map snd socks) (zip (map conn_of (map fst socks)) (map (λ x, EpollAdd x EpollIn) (map fst socks)))) rh
    = Some rh' →
  NoDup (map fst socks) → forallb (λ x, bool_decide (map_Forall (λ _ c, fd c ≠ x.1) rh.2)) socks = true →
  fds_distinct rh.2 → fds_distinct rh'.2.
Proof.
  intros conn_of. revert rh; induction socks as [|[x b] socks IH]; intros rh H Hnd Hf Hd; simpl in H; [by simplify_eq|].
  case_match; [done|]. simpl in Hf. apply andb_true_iff in Hf as [Hx%bool_decide_eq_true Hf].
  inversion Hnd as [|? ? Hin Hnd']; subst. eapply IH; [exact H|done| |].
  - apply forallb_forall. intros [y d] Hy. rewrite forallb_forall in Hf. specialize (Hf _ Hy).
    apply bool_decide_eq_true in Hf. apply bool_decide_eq_true. cbn. apply map_Forall_insert_2; [|done].
    cbn. intros ->. apply Hin. apply list_elem_of_In, in_map_iff. by exists (y, d).
  - cbn. by apply fds_distinct_insert.
Qed.

Lemma served_accept g s es ev evs socks s1 :
  served_inv g s es → loop s = LEvents (ev :: evs) → dispatch (listenfd s) ev = Accepts →
  accept_event socks s = Some s1 → attended g s (Event socks) = true →
  served_inv g (set_loop (LEvents evs) s1) (es ++ [Quiet]).
Proof.
  intros (Hb & Hds & Hi) Hl Hd H Hat. unfold accept_event, accept_conn in H. case_match; [|done].
  apply bind_Some in H as ([rs h] & Hadd & [= <-]). cbn in Hat. apply andb_true_iff in Hat as [[Hnd Hf]%andb_true_iff Hnew].
  apply bool_decide_eq_true in Hnd. rewrite Hl in Hb, Hi. apply Forall_cons in Hb as [_ Hb]. split_and!; [done| |].
  { by apply (add_conns_distinct (epfd_ s) socks (regs s, heap s) (rs, h)). }
  apply (add_conns_kept (listenfd s) (epfd_ s) socks (regs s, heap s) (rs, h)
    (λ a, closing_on a (set_loop (LEvents evs) (set_kernel rs h s)))
    (λ a, pends a evs ∨ covering a g (set_loop (LEvents evs) (set_kernel rs h s)) (es ++ [Quiet]))); [done..|].
  intros a c Ha. destruct (Hi a c Ha) as [?|(Hla & r & Hr & Hra & Harm)]; [by left|right].
  split; [done|]. exists r. split_and!; [done..|].
  destruct Harm as [?|[(ev' & [->|Hin]%elem_of_cons & Hev)|Hc]]; [by left| | |].
  - exfalso. unfold dispatch in Hd. rewrite Hev in Hd. destruct (Z.eqb_spec (data_fd a) (listenfd s)); [done|].
    by repeat case_match.
  - right. left. by exists ev'.
  - right. right. eapply covering_snoc; [by apply spents_same|by rewrite pool_events_snoc, app_nil_r|done].
Qed.

(** ** Steps of the tasks *)

(** A step of worker [t] that works on the connection at [a]: the others keep what
    they have. *)
Lemma covering_other a b t g s es g' s' c fr :
  task_at t s = Some (a, fr) → a ≠ b → wp s' = wp s →
  (∀ u, u ≠ t → frames s' !! u = frames s !! u ∧ (u ∈ g' ↔ u ∈ g)) →
  heap s !! a = Some c → covering b g s es → covering b g' s' (es ++ [Quiet]).
Proof.
  intros (qe & Hw & _ & Hqa)%task_at_spec Hne Hwp Hu _. apply covering_snoc; [|by rewrite pool_events_snoc, app_nil_r].
  eapply (spents_other b a t); done.
Qed.

Lemma closing_other a b t s s' fr :
  task_at t s = Some (a, fr) → a ≠ b → wp s' = wp s → (∀ u, u ≠ t → frames s' !! u = frames s !! u) →
  closing_on b s → closing_on b s'.
Proof.
  intros Ht Hne Hwp Hu (u & fr' & Hb & Hcl). assert (u ≠ t) as Hut by (intros ->; congruence).
  exists u, fr'. split; [|done]. apply task_at_spec in Hb as (qe & H1 & H2 & H3). apply task_at_spec.
  exists qe. by rewrite Hwp, Hu.
Qed.

(** A task that stays in its loop, or goes on after it. *)
Lemma covering_goes a t g s es s' fr fr' :
  task_at t s = Some (a, fr) → wp s' = wp s → frames s' = <[t := fr']> (frames s) →
  ∀ b, covering b g s es → covering b g s' (es ++ [Quiet]).
Proof.
  intros (qe & _ & Hf & _)%task_at_spec Hw Hf' b. apply covering_snoc; [|by rewrite pool_events_snoc, app_nil_r].
  unfold spents. rewrite Hw. apply number_ext. intros u _. unfold spent. rewrite Hw, Hf'.
  destruct (decide (u = t)) as [->|Hu]; [by rewrite Hf, lookup_insert_eq|by rewrite lookup_insert_ne].
Qed.

Lemma closing_goes t a s s' fr fr' :
  task_at t s = Some (a, fr) → (unregistered fr = true → unregistered fr' = true) → wp s' = wp s →
  frames s' = <[t := fr']> (frames s) → ∀ b, closing_on b s → closing_on b s'.
Proof.
  intros Ht Hi Hw Hf b (u & fr1 & Hb & Hcl). destruct (decide (u = t)) as [->|Hu].
  - exists t, fr'. simplify_eq. split; [|auto]. apply task_at_spec in Ht as (qe & ? & _ & ?). apply task_at_spec.
    exists qe. by rewrite Hw, Hf, lookup_insert_eq.
  - exists u, fr1. split; [|done]. apply task_at_spec in Hb as (qe & ? & ? & ?). apply task_at_spec.
    exists qe. by rewrite Hw, Hf, lookup_insert_ne.
Qed.

(** Worker [t] arms the connection of its task. *)
Lemma served_arm g s es t a c d fr g' s' :
  served_inv g s es → task_at t s = Some (a, fr) → unregistered fr = false → heap s !! a = Some c →
  heap s' = heap s → regs s' = epoll_ctl a (regs s) (EpollMod (fd c) d) →
  wp s' = wp s → loop s' = loop s → listenfd s' = listenfd s →
  (∀ u, u ≠ t → frames s' !! u = frames s !! u ∧ (u ∈ g' ↔ u ∈ g)) →
  served_inv g' s' (es ++ [Quiet]).
Proof.
  intros (Hb & Hds & Hi) Ht Hur Hc Hh Hr Hwp Hl Hlf Hu. unfold served_inv. rewrite Hl, Hlf, Hh. split_and!; [done..|].
  intros b x Hx. destruct (decide (a = b)) as [<-|Hne].
  - simplify_eq. destruct (Hi a c Hc) as [(u & fr' & Hua & Hcl)|(Hla & r & Hra & Hda & _)].
    + left. assert (u ≠ t) as Hut by (intros ->; congruence). exists u, fr'. split; [|done].
      apply task_at_spec in Hua as (qe & H1 & H2 & H3). apply task_at_spec. exists qe. destruct (Hu u Hut) as [E _].
      by rewrite Hwp, E.
    + right. split; [done|]. rewrite Hr. cbn. unfold ctl_mod. rewrite Hra. eexists. split; [apply lookup_insert_eq|]. auto.
  - assert (fd c ≠ fd x) as Hfd by (intros E; by apply Hne, (Hds a b c x)).
    destruct (Hi b x Hx) as [?|(Hlb & r' & Hrb & Hdb & Harm)].
    { left. eapply closing_other; [done|done|done| |done]. intros. by apply Hu. }
    right. split; [done|]. exists r'. split_and!; [|done|].
    { rewrite Hr. cbn. unfold ctl_mod. case_match; [by rewrite lookup_insert_ne|done]. }
    destruct Harm as [?|[?|Hcov]]; [by left|by right; left|right; right]. by eapply covering_other.
Qed.

(** Worker [t] takes the registration of its task's connection away. *)
Lemma served_close g s es t a c fr fr' s' :
  served_inv g s es → task_at t s = Some (a, fr) → unregistered fr' = true → heap s !! a = Some c →
  heap s' = heap s → regs s' = delete (fd c) (regs s) → frames s' = <[t := fr']> (frames s) →
  wp s' = wp s → loop s' = loop s → listenfd s' = listenfd s → served_inv g s' (es ++ [Quiet]).
Proof.
  intros (Hb & Hds & Hi) Ht Hur Hc Hh Hr Hf Hwp Hl Hlf. unfold served_inv. rewrite Hl, Hlf, Hh. split_and!; [done..|].
  intros b x Hx. destruct (decide (a = b)) as [<-|Hne].
  - left. exists t, fr'. split; [|done]. apply task_at_spec in Ht as (qe & ? & _ & ?). apply task_at_spec. exists qe.
    by rewrite Hwp, Hf, lookup_insert_eq.
  - assert (fd c ≠ fd x) as Hfd by (intros E; by apply Hne, (Hds a b c x)).
    destruct (Hi b x Hx) as [?|(Hlb & r' & Hrb & Hdb & Harm)]; [left; by eapply (closing_goes t a s s' fr fr')|right].
    split; [done|]. exists r'. rewrite Hr, lookup_delete_ne by done. split_and!; [done..|].
    destruct Harm as [?|[?|Hcov]]; [by left|by right; left|right; right]. by eapply covering_goes.
Qed.

(** Steps that go on without the kernel. *)
Lemma served_goes g s es t a fr fr' s' :
  served_inv g s es → task_at t s = Some (a, fr) → (unregistered fr = true → unregistered fr' = true) →
  (heap s' = heap s ∨ ∃ c c', heap s !! a = Some c ∧ heap s' = <[a := c']> (heap s) ∧ fd c' = fd c) →
  regs s' = regs s → frames s' = <[t := fr']> (frames s) →
  wp s' = wp s → loop s' = loop s → listenfd s' = listenfd s → served_inv g s' (es ++ [Quiet]).
Proof.
  intros (Hb & Hds & Hi) Ht Hur Hh Hr Hf Hwp Hl Hlf. unfold served_inv. rewrite Hl, Hlf, Hr.
  assert (∀ b x, heap s' !! b = Some x → ∃ y, heap s !! b = Some y ∧ fd y = fd x) as Hsame.
  { intros b x Hx. destruct Hh as [Hh|(c & c' & Hc & Hh & Hfd)]; rewrite Hh in Hx; [by exists x|].
    apply lookup_insert_Some in Hx as [[<- <-]|[_ Hx]]; [by exists c|by exists x]. }
  split_and!; [done| |].
  - intros x y cx cy (dx & Hx & Ex)%Hsame (dy & Hy & Ey)%Hsame E. apply (Hds x y dx dy); congruence.
  - intros b x (y & Hy & Ey)%Hsame. destruct (Hi b y Hy) as [?|Hk]; [left; by eapply closing_goes|right].
    unfold kept in *. rewrite <-Ey. eapply kept_impl, Hk. intros [?|?]; [by left|right]. by eapply covering_goes.
Qed.

Lemma served_task g s es t a c m fr s' :
  served_inv g s es → task_at t s = Some (a, fr) → heap s !! a = Some c → task_moves s t a c m fr s' →
  attended g s m = true → served_inv (mark g m Quiet) s' (es ++ [Quiet]).
Proof.
  intros Hi Ht Hc Hm Hat. destruct Hm; cbn [mark].
  - apply (served_goes g s es t a (AtRead buf) (GotData (length r) buf')); try done; by left.
  - cbn in Hat. apply bool_decide_eq_true in Hat. pose proof Ht as (qe & Hw & Hf & _)%task_at_spec.
    eapply served_keep; [done..| |].
    + intros b (u & fr' & Hb & Hcl). assert (u ≠ t) as Hut by (intros ->; simplify_eq).
      exists u, fr'. split; [|done]. apply task_at_spec in Hb as (qe' & ? & ? & ?). apply task_at_spec. exists qe'.
      cbn. by rewrite lookup_delete_ne.
    + intros b. apply covering_snoc; [|by rewrite pool_events_snoc, app_nil_r]. unfold spents. cbn.
      apply number_ext. intros u _. unfold spent. cbn.
      destruct (decide (u = t)) as [->|Hu]; [|by rewrite lookup_delete_ne].
      rewrite Hw, Hf, lookup_delete_eq. by rewrite (bool_decide_true (t ∈ g)).
  - apply (served_goes g s es t a (AtRead buf) AtDel); try done; by left.
  - apply (served_goes g s es t a (GotData n buf) (AtArm d buf')); try done. right. exists c, c'.
    split_and!; [done..|]. by apply (read_body_fd _ _ _ _ _ _ H0).
  - eapply (served_arm g s es t a c d); [done..|]. intros u Hu. cbn. rewrite lookup_insert_ne by done. set_solver.
  - eapply (served_arm g s es t a c EpollIn); [done..|]. intros u Hu. cbn. rewrite lookup_delete_ne by done. set_solver.
  - by eapply (served_close g s es t a c AtDel AtClose).
  - by eapply (served_close g s es t a c AtClose AtDelete).
  - destruct Hi as (Hb & Hds & Hi). split_and!; [done| |]; cbn.
    + intros x y cx cy [_ Hx]%lookup_delete_Some [_ Hy]%lookup_delete_Some. by apply Hds.
    + intros b x [Hne Hx]%lookup_delete_Some. destruct (Hi b x Hx) as [?|Hk].
      * left. eapply closing_other; [done|done|done| |done]. intros. cbn. by rewrite lookup_delete_ne.
      * right. eapply kept_impl, Hk. intros [?|?]; [by left|right]. eapply covering_other; [done|done|done| |done..].
        intros u Hu. cbn. by rewrite lookup_delete_ne.
  - cbn in Hat. lia.
  - apply (served_goes g s es t a AtOpen (AtSend opened)); try done; by left.
  - apply (served_goes g s es t a (AtSend file) AtRearm); try done; by left.
Qed.

(** The loop hands an event to the pool. *)
Lemma served_run g s es cb ev evs s' e :
  served_inv g s es → loop s = LEvents (ev :: evs) →
  (∀ a, tasks_on a (ended (pool_events es)) + spents a g s ≤ tasks_on a (called (omap queue_event (pool_events es))))%nat →
  run_call cb (ev_data ev) evs s = Some (Ok (s', e)) → (∀ a, closing_on a s → closing_on a s') →
  served_inv g s' (es ++ [e]).
Proof.
  intros (Hb & Hds & Hi) Hl Hle H Hcl.
  unfold run_call in H. destruct (heap s !! ev_data ev) as [x|]; [|done].
  change (run_element (Function_of (Some cb) (ev_data ev))) with (Ok (Qe (Some cb) (ev_data ev))) in H.
  apply bind_Some in H as ([w pe] & Hn & [= <- <-]). pose proof (pnext_call _ _ _ _ _ Hn) as ->.
  rewrite Hl in Hb, Hi. apply Forall_cons in Hb as [_ Hb]. split_and!; [done..|]. intros a c Ha.
  destruct (Hi a c Ha) as [?|Hk]; [left; auto|right]. eapply kept_impl, Hk. set (s' := set_loop _ _).
  assert (spents a g s' = spents a g s) as Hs.
  { eapply (spents_quiet a g s s' _ _ Hn); done. }
  unfold covering. rewrite Hs, ended_history, called_history, !tasks_on_app.
  set (qe := Qe (Some cb) (ev_data ev)).
  change (called (omap queue_event [QEvent (ECall (loop_thread s) (Push qe))])) with [qe].
  rewrite tasks_on_one. cbn [ended omap list_omap]. specialize (Hle a). intros [(ev' & [->|Hin]%elem_of_cons & Hev)|Hc].
  - right. rewrite bool_decide_true by done. cbn. lia.
  - left. by exists ev'.
  - right. unfold covering in Hc. cbn. case_bool_decide; lia.
Qed.

(** ** Tasks that are somewhere *)

Definition holds (a : Z) (ws : list (@wpc callback Z)) (t : nat) : bool :=
  match ws !! t with
  | Some p => match held p with Some qe => bool_decide (qe_arg qe = a) | None => false end
  | None => false
  end.

Lemma tasks_on_held a ws : tasks_on a (omap held ws) = number (holds a ws) (length ws).
Proof.
  induction ws as [|p ws IH] using rev_ind; [done|]. rewrite omap_app, tasks_on_app, IH, length_app, Nat.add_1_r, Nat.add_comm. simpl.
  rewrite (number_ext (holds a ws) (holds a (ws ++ [p]))).
  - f_equal. unfold holds. rewrite list_lookup_middle by done. destruct (held p) as [qe|]; [apply tasks_on_one|done].
  - intros t Ht. unfold holds. by rewrite lookup_app_l.
Qed.

Lemma spents_held a g s : (spents a g s ≤ tasks_on a (omap held (workers (wp s))))%nat.
Proof.
  rewrite tasks_on_held. apply number_le. intros t. unfold spent, holds. destruct (workers (wp s) !! t) as [[]|]; try done.
  by intros [? _]%andb_true_iff.
Qed.

Lemma history_calls q s0 ms s es :
  fresh_queue 21 q → started_by q s0 → ereach s0 ms s es →
  called (omap queue_event (pool_events es))
  ≡ₚ ended (pool_events es) ++ in_flight (wp s) ++ content (q_abs (jq (wp s))) ++ pushings (q_abs (jq (wp s))).
Proof.
  intros Hq Hs Hr. destruct (ereach_inv _ _ _ _ (started_by_inv _ _ Hq Hs) Hr) as [[[pms Hp] _] _].
  rewrite (started_by_wp _ _ Hs) in Hp. by eapply (started_calls 20 None 21 q); [unfold int_max; lia|..].
Qed.

Lemma history_spents q s0 ms s es g a :
  fresh_queue 21 q → started_by q s0 → ereach s0 ms s es →
  (tasks_on a (ended (pool_events es)) + spents a g s ≤ tasks_on a (called (omap queue_event (pool_events es))))%nat.
Proof.
  intros Hq Hs Hr. rewrite (tasks_on_perm a _ _ (history_calls _ _ _ _ _ Hq Hs Hr)). unfold in_flight.
  rewrite !tasks_on_app. pose proof (spents_held a g s). lia.
Qed.

(** On its way back from [pop], in the queue, or in a call of [push]; or with a
    worker, which has not begun with it, or has not read or written yet. *)
Definition waiting (a : Z) (s : esys) : Prop :=
  ∃ qe, qe_arg qe = a ∧ qe ∈ omap returning (callers (q_abs (jq (wp s)))) ++ content (q_abs (jq (wp s)))
                              ++ pushings (q_abs (jq (wp s))).
Definition in_hand (a : Z) (g : gset nat) (s : esys) : Prop :=
  ∃ t p qe, workers (wp s) !! t = Some p ∧ held p = Some qe ∧ qe_arg qe = a ∧ spent a g s t = false.

Lemma covering_task q s0 ms s es g a :
  fresh_queue 21 q → started_by q s0 → ereach s0 ms s es → covering a g s es → waiting a s ∨ in_hand a g s.
Proof.
  intros Hq Hs Hr. unfold covering. rewrite (tasks_on_perm a _ _ (history_calls _ _ _ _ _ Hq Hs Hr)). unfold in_flight.
  set (w := omap returning (callers (q_abs (jq (wp s)))) ++ content (q_abs (jq (wp s))) ++ pushings (q_abs (jq (wp s)))).
  rewrite <-app_assoc. fold w. rewrite !tasks_on_app. intros Hc. destruct (tasks_on a w) as [|n] eqn:Hw.
  - right. rewrite tasks_on_held in Hc. destruct (number_lt (holds a (workers (wp s))) (spent a g s) (length (workers (wp s))))
      as (t & Ht & Hsp); [unfold spents in Hc; lia|].
    unfold holds in Ht. destruct (workers (wp s) !! t) as [p|] eqn:Hp; [|done]. destruct (held p) as [qe|] eqn:Hh; [|done].
    apply bool_decide_eq_true in Ht. by exists t, p, qe.
  - left. unfold tasks_on in Hw. destruct (filter _ w) as [|qe l] eqn:Hf; [done|].
    assert (qe ∈ filter (λ qe, qe_arg qe = a) w) as [? ?]%list_elem_of_filter by (rewrite Hf; by left). by exists qe.
Qed.

(** ** Every step *)

Lemma served_step g s es m s' e :
  served_inv g s es →
  (∀ a, tasks_on a (ended (pool_events es)) + spents a g s ≤ tasks_on a (called (omap queue_event (pool_events es))))%nat →
  attended g s m = true → enext s m = Some (Ok (s', e)) → served_inv (mark g m e) s' (es ++ [e]).
Proof.
  intros Hi Hle Hat H.
  assert (∀ s1, wp s1 = wp s → frames s1 = frames s → ∀ a, covering a g s es → covering a g s1 (es ++ [Quiet])) as Hquiet.
  { intros s1 Hw Hf a. apply covering_snoc; [apply spents_same; [done|by intros; rewrite Hf|done]|].
    by rewrite pool_events_snoc, app_nil_r. }
  destruct (enext_task _ _ _ _ H) as [Hnt|(-> & t & a & fr & c & Ht & Hc & Hm)]; [|by eapply served_task].
  assert (∀ a, closing_on a s → closing_on a s') as Hcl.
  { intros a (t & fr & Ht & Hur). exists t, fr. split; [|done]. eapply enext_task_kept; [done| |exact H]. by destruct m. }
  destruct m as [ready|socks| |m| | | | | |]; try done; simpl in H.
  - destruct (loop s) as [[|]| |] eqn:Hl; try done. case_decide; [|done].
    apply bind_Some in H as ([rs evs] & Hw & [= <- <-]). by eapply served_wait.
  - unfold handle_event in H. destruct (loop s) as [[|ev evs]| |] eqn:Hl; try done.
    destruct (dispatch (listenfd s) ev) eqn:Hd.
    + apply bind_Some in H as (s1 & Ha & [= <- <-]). by eapply served_accept.
    + assert (mark g (Event socks) e = g) as ->; [|by eapply served_run].
      unfold run_call in H. repeat case_match; simplify_eq; try done. apply bind_Some in H as ([w pe] & Hn & [= <- <-]).
      by rewrite (pnext_call _ _ _ _ _ Hn).
    + destruct Hi as [Hb _]. rewrite Hl in Hb. apply Forall_cons in Hb as [Hb _]. by destruct (serves_runs (listenfd s) ev Hb).
  - destruct (loop s) eqn:Hl; try done. case_match; [|done]. simplify_eq.
    eapply served_keep; [done..|by rewrite Hl|done|by apply Hquiet].
  - apply bind_Some in H as ([s1 e1] & H & [= <- <-]).
    destruct (pool_move_inv _ _ _ _ H) as (pe & _ & _ & _ & Hq & _ & Hl & Hh & Hr & _).
    eapply served_keep; [done..|]. intros a. by eapply covering_pool.
Qed.

Lemma worked_snoc ms es m e : length ms = length es → worked (ms ++ [m]) (es ++ [e]) = mark (worked ms es) m e.
Proof. intros Hl. unfold worked. by rewrite zip_with_app, foldl_app. Qed.

Lemma ereach_length s0 ms s es : ereach s0 ms s es → length ms = length es.
Proof. induction 1 as [|ms s es m s' e Hr IH Hn]; [done|]. rewrite !length_app. cbn. lia. Qed.

Lemma ereach_served q s0 ms s es :
  fresh_queue 21 q → started_by q s0 → ereach s0 ms s es → attentive s0 ms → served_inv (worked ms es) s es.
Proof.
  intros Hq Hs Hr. induction Hr as [|ms s es m s' e Hr IH Hn]; intros Hat.
  { destruct Hs as (epfd & lfd & r & -> & _). split_and!; [constructor|intros ? ? ? ?|intros a c]; cbn; by rewrite lookup_empty. }
  rewrite worked_snoc by (by eapply ereach_length). eapply served_step; [|intros; by eapply history_spents| |done].
  - apply IH. intros ms1 m1 ms2 s1 es1 ->. apply (Hat ms1 m1 (ms2 ++ [m]) s1 es1). by rewrite <-app_assoc.
  - by apply (Hat ms m [] s es).
Qed.

(** Attention, by running. *)
Fixpoint attentive_from (g : gset nat) (s : esys) (ms : list emove) : bool :=
  match ms with
  | [] => true
  | m :: ms => attended g s m && match enext s m with Some (Ok (s, e)) => attentive_from (mark g m e) s ms | _ => true end
  end.

Lemma attentive_from_attentive s ms : attentive_from ∅ s ms = true → attentive s ms.
Proof.
  assert (∀ ms1 s g m ms2 s1 es1, attentive_from g s (ms1 ++ m :: ms2) = true → erun s ms1 = Some (Ok (s1, es1)) →
    attended (foldl (λ g x, mark g x.1 x.2) g (zip ms1 es1)) s1 m = true) as H.
  { induction ms1 as [|m1 ms1 IH]; intros s1 g m ms2 s2 es2 Hs Hr; simpl in Hs, Hr; apply andb_true_iff in Hs as [H1 H2].
    - by simplify_eq.
    - apply bind_Some in Hr as ([[s3 e]| |] & Hn & Hr); [|by case_match|done]. rewrite Hn in H2.
      apply bind_Some in Hr as ([[s4 es4]| |] & Hr & Hq); simplify_eq/=. by eapply IH. }
  intros Hs ms1 m ms2 s1 es1 -> Hr%machine_reach_is_run. by eapply H.
Qed.

(** ** Properties *)

(** C14: no connection is forgotten. In every reachable state of the running
    acceptor every connection in memory, but for those that a task is about to
    close and delete at the end of their stream, is registered with its pointer; and it
    is armed, or an event of it is still in front of the loop and will become a
    task, or a task of it is waiting for a worker, or a worker has one and has
    not armed the connection yet. The premises are on the system: no error or
    hang-up is reported alone, new descriptors are new, no address looks like
    the listening socket, no task finds nothing to read, and files open. *)
Theorem no_connection_forgotten port rs q s0 ms s es :
  fresh_queue 21 q → result_of (acceptor_start port q) rs = Ok s0 → attentive s0 ms →
  erun s0 ms = Some (Ok (s, es)) →
  ∀ a c, heap s !! a = Some c → (∀ t fr, task_at t s = Some (a, fr) → fr ≠ AtClose ∧ fr ≠ AtDelete) →
    ∃ r, regs s !! fd c = Some r ∧ data r = a
      ∧ (armed_ r = true
         ∨ (∃ ev cb, ev ∈ rest (loop s) ∧ ev_data ev = a ∧ dispatch (listenfd s) ev = Runs cb)
         ∨ waiting a s ∨ in_hand a (worked ms es) s).
Proof.
  intros Hq Hs%acceptor_start_by Hat Hr%erun_ereach a c Ha Hno.
  destruct (ereach_served _ _ _ _ _ Hq Hs Hr Hat) as (Hb & _ & Hi).
  destruct (Hi a c Ha) as [(t & fr & Ht & Hur)|(Hla & r & Hra & Hda & Harm)].
  { destruct (Hno t fr Ht). by destruct fr. }
  exists r. split_and!; [done..|]. destruct Harm as [?|[(ev & Hin & Hev)|Hc]]; [by left|right; left|right; right].
  - rewrite Forall_forall in Hb. pose proof (serves_runs (listenfd s) ev (Hb _ Hin)) as Hd.
    destruct (dispatch (listenfd s) ev) as [|cb|] eqn:E; [|by exists ev, cb|done].
    exfalso. unfold dispatch in E. rewrite Hev in E. destruct (Z.eqb_spec (data_fd a) (listenfd s)); [done|].
    by repeat case_match.
  - by eapply covering_task.
Qed.
End rearm.

(** ** Schedules *)

(** Nothing will ever happen to the connection at [a]: in memory, not armed,
    no event, no task. *)
Definition forgotten (a : Z) (s : @esys (@conf task)) : bool :=
  match heap s !! a with
  | Some c => match regs s !! fd c with Some r => negb (armed_ r) | None => true end
  | None => false
  end
  && bool_decide (rest (loop s) = []) && forallb (λ p, bool_decide (held p = None)) (workers (wp s))
  && forallb (λ p, bool_decide (returning p = None ∧ to_push p = None)) (callers (q_abs (jq (wp s))))
  && bool_decide (content (q_abs (jq (wp s))) = []).
Definition forgets (a : Z) (ms : list emove) : bool :=
  match erun demo_loop ms with Some (Ok r) => forgotten a r.1 | _ => false end.

Definition worker_reads (t : nat) (rs : list bytes) : list emove := worker_begins t ++ script t rs Again ++ [work_ t].
Definition pushed_task : list emove := loop_pushes ++ [LogRun].

(** The file of the request does not open; a read loop finds nothing; an error
    is reported alone; the address of the connection ends like the descriptor of
    the listening socket. *)
Definition no_file_moves : list emove :=
  client_connects ++ pushed_task ++ worker_reads 0 [get_request] ++ [Wait [(7, 4)]; Event []] ++ pushed_task
  ++ worker_begins 1 ++ [Writes 1 (-1); work_ 1].
Definition nothing_moves : list emove := client_connects ++ pushed_task ++ worker_reads 0 [].
Definition error_moves : list emove := [Wait [(3, 1)]; Event [(7, 4096)]; Wait [(7, 8)]; Event []].
Definition alias_moves : list emove := [Wait [(3, 1)]; Event [(7, 2 ^ 32 + 3)]; Wait [(7, 1)]; Event []].

(** Without the premises connections are forgotten: when the file of a request
    cannot be opened; when a task finds nothing to read; when an error is
    reported without EPOLLIN and EPOLLOUT; and when the lower half of the
    connection's address equals the listening descriptor. *)
Theorem connections_forgotten :
  forgets 4096 no_file_moves = true ∧ forgets 4096 nothing_moves = true ∧ forgets 4096 error_moves = true
  ∧ forgets (2 ^ 32 + 3) alias_moves = true.
Proof. vm_compute. done. Qed.

(** ** Witness *)

Lemma no_connection_forgotten_witness :
  heap served.1 !! 4096 ≠ None
  ∧ ∀ a c, heap served.1 !! a = Some c → (∀ t fr, task_at t served.1 = Some (a, fr) → fr ≠ AtClose ∧ fr ≠ AtDelete) →
    ∃ r, regs served.1 !! fd c = Some r ∧ data r = a
      ∧ (armed_ r = true
         ∨ (∃ ev cb, ev ∈ rest (loop served.1) ∧ ev_data ev = a ∧ dispatch (listenfd served.1) ev = Runs cb)
         ∨ waiting a served.1 ∨ in_hand a (worked serve_moves served.2) served.1).
Proof.
  split; [vm_compute; done|].
  apply (no_connection_forgotten 16666 demo_results (init 21) demo_loop serve_moves);
    [apply demo_loop_fresh|apply demo_loop_starts| |apply serve_runs].
  apply attentive_from_attentive. vm_compute. reflexivity.
Defined.
