(* ===== verification/Net.v ===== *)
(** * Sockets, and what is built on them: socket.cpp, loop.cpp, tcp_server.cpp,
    the set-up of the broker and of its client

    The set-up code as programs of system calls ([Sys]), and the classes around
    it with their fields, of which some are never written ([Indeterminate]).
    [Socket::connect] has no definition in the source, and event_core.cpp calls
    functions that do not exist. *)

From S2P Require Import Prelude Sys Log Buffer MqDef MqClient WorkerPool Receiver Acceptor.
Open Scope Z_scope.

(** ** Listening sockets *)

Record Socket := Sk { listen_port : Z; sk_listenfd : cell Z; sk_epfd : cell Z }.

(** [Socket::initServer]; the descriptor that it leaves in [listenfd]. *)
Definition initServer (port : Z) : sys_prog (Z * bool) :=
  listenfd ← sys Socket_;
  if listenfd =? -1 then
    sys_lift (log_debug (bs "Socket : [initServer] create socket error"));; mret (listenfd, false)
  else
    sys_ (FcntlNonblock listenfd);;
    sys_ (ReuseAddr listenfd);;
    ret ← sys (Bind listenfd (Inet INADDR_ANY (htons port)));
    if ret =? -1 then mret (listenfd, false)
    else sys_ (Listen listenfd 50);; mret (listenfd, true).

(** [Socket(int listen_port)]; the flag: does it log an error? *)
Definition Socket_new (port : Z) : sys_prog (Socket * bool) :=
  '(fd, ret) ← initServer port;
  let s := Sk port (Val fd) Indeterminate in
  if ret : bool then sys_lift (log_debug (bs "Socket [initServer] error"));; mret (s, true)
  else mret (s, false).

Definition getListenfd (s : Socket) : outcome Z := read_cell (sk_listenfd s).
Definition getEpfd (s : Socket) : outcome Z := read_cell (sk_epfd s).

(** [message_queue_server::init_poller], and the head of [poller]. *)
Definition MQ_PORT : Z := 16667.
Definition init_poller : sys_prog Z :=
  listenfd ← sys Socket_;
  sys_ (FcntlNonblock listenfd);;
  sys_ (ReuseAddr listenfd);;
  ret ← sys (Bind listenfd (Inet INADDR_ANY (htons MQ_PORT)));
  assert_ (negb (ret =? -1));;
  sys_ (Listen listenfd 50);;
  mret listenfd.

Definition poller_start (listenfd : Z) : sys_prog (Z * Z) :=
  epfd ← sys EpollCreate;
  assert_ (negb (epfd =? -1));;
  ret ← sys (EpollAddListen epfd listenfd);
  mret (epfd, ret).

(** ** [mq_client] *)

Record mq_client := Mc {
  server_ip_port : bytes;
  pid : cell Z;
  mc_fd : cell Z }.

Definition mq_client_new (ip_port : bytes) : mq_client := Mc ip_port Indeterminate Indeterminate.

(** [connect]: [get_ip_port]'s result is tested, and nothing done about it. *)
Definition connect (mc : mq_client) : sys_prog (mq_client * Z) :=
  '(server_ip, server_port, _) ← sys_lift (get_ip_port (server_ip_port mc));
  fd ← sys Socket_;
  let mc := Mc (server_ip_port mc) (pid mc) (Val fd) in
  ret ← sys (Connect fd (Inet server_ip (htons server_port)));
  if ret <? 0 then mret (mc, -1) else mret (mc, 0).

(** [loop]: [new_pid] is the identifier that [pthread_create] stores. *)
Definition client_loop (new_pid : Z) (mc : mq_client) : sys_prog mq_client :=
  ret ← sys PthreadCreate;
  mret (Mc (server_ip_port mc) (if ret =? 0 then Val new_pid else pid mc) (mc_fd mc)).

(** [wait], which the destructor calls. *)
Definition wait (mc : mq_client) : sys_prog unit := p ← sys_lift (read_cell (pid mc)); sys_ (PthreadJoin p).

(** The descriptor that [send] and [register_mq] write to. *)
Definition client_fd (mc : mq_client) : outcome Z := read_cell (mc_fd mc).

(** ** [Loop] *)

Section loop.
(** [new IElement(buf->ptr())]: IElement has no such constructor. *)
Context {E : Type}.
Variable IElement_of_ptr : bytes → outcome E.

(** The sockets that [accept] returns until it fails. *)
Fixpoint Loop_accept_conn (s : Socket) (peers : list Z) : sys_prog unit :=
  match peers with
  | [] => mret ()
  | peer_sock :: peers =>
      sys_ (FcntlNonblock peer_sock);;
      epfd ← sys_lift (getEpfd s);
      sys_ (EpollAddPeer epfd peer_sock);;
      Loop_accept_conn s peers
  end.

Fixpoint push_reads (reads : list bytes) (_buf : bytes) (buf : buffer) : outcome buffer :=
  match reads with
  | [] => Ok buf
  | r :: reads =>
      _buf ← memcpy _buf 0 r 0 (Z.of_nat (length r));
      buf ← push_back buf _buf (Z.of_nat (length r));
      push_reads reads _buf buf
  end.

(** [read_conn]: the element is what it pushes on the stage's queue. *)
Definition Loop_read_conn (s : Socket) (peer_fd : Z) (reads : list bytes) (fin : read_end) : sys_prog E :=
  buf ← sys_lift (push_reads reads zero_buf buffer_new);
  text ← sys_lift (cstr (b_ptr buf) 0);
  sys_lift (log_debug (bs "buf : " ++ text));;
  ie ← sys_lift (IElement_of_ptr (b_ptr buf));
  match fin with
  | Again => mret ie
  | Eof =>
      sys_lift (log_debug (bs "client closed"));;
      epfd ← sys_lift (getEpfd s);
      sys_ (EpollDelPeer epfd peer_fd);;
      sys_ (Close_ peer_fd);;
      mret ie
  end.

(** An event of [loop]: its [data.fd], its bits, and what the calls that it
    leads to return. *)
Record loop_event := Le { le_fd : Z; le_in : bool; le_peers : list Z; le_reads : list bytes; le_fin : read_end }.

Fixpoint Loop_events (s : Socket) (evs : list loop_event) (sq : list E) : sys_prog (list E) :=
  match evs with
  | [] => mret sq
  | ev :: evs =>
      lfd ← sys_lift (getListenfd s);
      if le_fd ev =? lfd then Loop_accept_conn s (le_peers ev);; Loop_events s evs sq
      else if le_in ev then
        ie ← Loop_read_conn s (le_fd ev) (le_reads ev) (le_fin ev);
        Loop_events s evs (sq ++ [ie])
      else Loop_events s evs sq
  end.

(** [Loop::loop], for the events of all its rounds. *)
Definition Loop_loop (s : Socket) (evs : list loop_event) (sq : list E) : sys_prog (list E) :=
  epfd ← sys EpollCreate;
  lfd ← sys_lift (getListenfd s);
  sys_ (EpollAddListen epfd lfd);;
  Loop_events s evs sq.
End loop.

(** ** [tcp_server] *)

(** The pointers to objects: [None] is NULL. *)
Record tcp_server := Tcp {
  t_wp : cell (option Z);
  t_tq : cell (option Z);
  t_ac : cell (option Z);
  t_log : cell (option Z) }.

(** The constructors, and what [init] stores. *)
Definition tcp_server_new : tcp_server := Tcp Indeterminate Indeterminate Indeterminate Indeterminate.
Definition tcp_server_named (log : Z) : tcp_server :=
  Tcp Indeterminate Indeterminate Indeterminate (Val (Some log)).
Definition tcp_server_init (tq wp ac : Z) (s : tcp_server) : tcp_server :=
  Tcp (Val (Some wp)) (Val (Some tq)) (Val (Some ac)) (t_log s).

(** [if (!p) delete p;]: the object that is deleted, if any. *)
Definition delete_unless (p : cell (option Z)) : outcome (list Z) :=
  p ← read_cell p; Ok (match p with None => option_list p | Some _ => [] end).
Definition tcp_server_destroy (s : tcp_server) : outcome (list Z) :=
  a ← delete_unless (t_wp s); b ← delete_unless (t_tq s);
  c ← delete_unless (t_ac s); d ← delete_unless (t_log s);
  Ok (a ++ b ++ c ++ d).

(** ** Lemmas *)

(** The call is one of those of the program at the head of a sequence. *)
Ltac call_cases H :=
  apply calls_of_bind in H as [H|(? & ? & ? & H)];
  [rewrite ?calls_of_lift, ?calls_of_sys, ?calls_of_sys_ in H; try (by set_solver)|].

Lemma lift_epfd s rs a rs' : sk_epfd s = Indeterminate → (sys_lift (getEpfd s) rs).2 ≠ Ok (a, rs').
Proof. intros He [H _]%lift_result. unfold getEpfd in H. by rewrite He in H. Qed.

Lemma accept_registers_nobody s peers rs epfd fd :
  sk_epfd s = Indeterminate → EpollAddPeer epfd fd ∉ calls_of (Loop_accept_conn s peers) rs.
Proof.
  intros He. destruct peers as [|p peers]; cbn [Loop_accept_conn]; [intros Hc; set_solver|].
  intros Hc. call_cases Hc. call_cases Hc. by edestruct lift_epfd.
Qed.

Lemma read_registers_nobody {E} (ctor : bytes → outcome E) s peer reads fin rs epfd fd :
  sk_epfd s = Indeterminate → EpollAddPeer epfd fd ∉ calls_of (Loop_read_conn ctor s peer reads fin) rs.
Proof.
  intros He Hc. unfold Loop_read_conn in Hc. do 4 call_cases Hc. destruct fin; [|set_solver].
  call_cases Hc. call_cases Hc. by edestruct lift_epfd.
Qed.

Lemma events_register_nobody {E} (ctor : bytes → outcome E) s evs sq rs epfd fd :
  sk_epfd s = Indeterminate → EpollAddPeer epfd fd ∉ calls_of (Loop_events ctor s evs sq) rs.
Proof.
  intros He. revert sq rs; induction evs as [|ev evs IH]; intros sq rs Hc; cbn [Loop_events] in Hc; [set_solver|].
  call_cases Hc. case_match; [|case_match; [|by eapply IH]].
  - call_cases Hc; [by eapply accept_registers_nobody|by eapply IH].
  - call_cases Hc; [by eapply read_registers_nobody|by eapply IH].
Qed.

Lemma Socket_new_epfd port rs s b : result_of (Socket_new port) rs = Ok (s, b) → sk_epfd s = Indeterminate.
Proof.
  intros ([fd ret] & rs1 & _ & H)%result_of_bind. destruct ret; [|by injection H as <- _].
  apply result_of_bind in H as (? & ? & _ & H). by injection H as <- _.
Qed.

Lemma digits_value_app acc ds : Forall is_digit ds → 0 ≤ acc → 0 ≤ digits_value acc ds.
Proof.
  revert acc; induction ds as [|d ds IH]; intros acc Hd Ha; simpl; [done|].
  apply Forall_cons in Hd as [Hd Hds]. destruct (is_digit d) eqn:H; [|done]. apply IH; [done|].
  unfold is_digit in H. lia.
Qed.

Lemma find_char_app s c t : c ∉ s → find_char (s ++ c :: t) c = Some (length s).
Proof.
  intros Hc. unfold find_char. assert (list_find (λ x, x = c) (s ++ c :: t) = Some (length s, c)) as ->; [|done].
  apply list_find_Some. split_and!; [by rewrite list_lookup_middle|done|].
  intros j y Hy Hj ->. rewrite lookup_app_l in Hy by done. apply Hc. by eapply list_elem_of_lookup_2.
Qed.

(** An address [ip:port] with a decimal port. *)
Lemma get_ip_port_text ip ds :
  ":"%char ∉ ip → no_nul ip → ds ≠ [] → Forall is_digit ds → digits_value 0 ds ≤ int_max →
  Z.of_nat (length ip) < 2 ^ 31 →
  get_ip_port (ip ++ ":"%char :: ds) = Ok (ip, digits_value 0 ds, 0).
Proof.
  intros Hip Hno Hne Hds Hmax Hlen. unfold get_ip_port. rewrite find_char_app by done.
  assert (no_nul ds) as Hnd.
  { intros Hin. rewrite Forall_forall in Hds. specialize (Hds _ Hin). by vm_compute in Hds. }
  unfold substr. rewrite decide_False, bind_ok, drop_0 by lia.
  assert (size_t (Z.of_nat (length ip)) = Z.of_nat (length ip)) as -> by (unfold size_t; rewrite Z.mod_small; lia).
  rewrite Z.min_l, Nat2Z.id, take_app_length by (rewrite length_app; lia). replace (Z.to_nat (Z.of_nat (length ip) + 1)) with (length ip + 1)%nat by lia.
  assert (cstr (c_str (ip ++ ":"%char :: ds)) (length ip + 1) = Ok ds) as ->.
  { unfold cstr, c_str. rewrite <-app_assoc, drop_app_add. cbn. by rewrite drop_0, to_nul_app. }
  rewrite bind_ok. destruct ds as [|d ds]; [done|]. unfold atoi.
  pose proof (Forall_inv Hds) as Hd.
  assert (skip_spaces (d :: ds) = d :: ds) as -> by (apply Is_true_true in Hd; simpl; unfold is_digit, is_space in *; by case_match; [lia|]).
  rewrite !decide_False by (intros ->; by vm_compute in Hd).
  pose proof (digits_value_app 0 (d :: ds) Hds ltac:(lia)).
  rewrite int_of_small, bind_ok by (unfold int_max in *; lia).
  by replace (digits_value 0 (d :: ds) =? -1) with false by lia.
Qed.

(** What the set-ups make of the answers of the system. *)
Lemma init_poller_eval rs :
  result_of init_poller rs
  = match rs with
    | fd :: _ :: _ :: ret :: rs =>
        if ret =? -1 then Err Aborted else match rs with [] => Timeout | _ :: _ => Ok fd end
    | _ => Timeout
    end.
Proof.
  destruct rs as [|x [|a [|b [|ret rs]]]]; [done..|]. cbv -[Z.eqb htons]. destruct (ret =? -1); [done|]. by destruct rs.
Qed.

Lemma init_acceptor_eval port rs :
  result_of (init_acceptor port) rs
  = match rs with
    | [] => Timeout
    | fd :: rs =>
        if fd =? -1 then Ok (fd, false)
        else match rs with
             | _ :: _ :: ret :: rs =>
                 if ret =? -1 then Ok (fd, false) else match rs with [] => Timeout | _ :: _ => Ok (fd, true) end
             | _ => Timeout
             end
    end.
Proof.
  destruct rs as [|x rs]; [done|]. cbv -[Z.eqb htons]. destruct (x =? -1); [done|].
  destruct rs as [|a [|b [|ret rs]]]; [done..|]. destruct (ret =? -1); [done|]. by destruct rs.
Qed.

(** ** Properties *)

(** Three copies of one function. [Socket::initServer] and
    [init_acceptor] are the same program, calls and results, for every port and
    whatever the system answers; [init_poller], which tests the result of
    [bind] only, gives a descriptor other than -1 exactly if they give [true]
    for its port, by the same calls. *)
Theorem listeners_agree :
  (∀ port rs, initServer port rs = init_acceptor port rs)
  ∧ (∀ rs fd, (result_of init_poller rs = Ok fd ∧ fd ≠ -1) ↔ result_of (init_acceptor MQ_PORT) rs = Ok (fd, true))
  ∧ (∀ rs fd, result_of (init_acceptor MQ_PORT) rs = Ok (fd, true) →
       calls_of init_poller rs = calls_of (init_acceptor MQ_PORT) rs
       ∧ calls_of init_poller rs
         = [Socket_; FcntlNonblock fd; ReuseAddr fd; Bind fd (Inet INADDR_ANY (htons MQ_PORT)); Listen fd 50]).
Proof.
  split_and!.
  - intros port rs. unfold initServer, init_acceptor. apply sys_bind_cong; [done|]. intros fd rs'. by case_match.
  - intros rs fd. rewrite init_poller_eval, init_acceptor_eval.
    destruct rs as [|x [|a [|b [|ret rs]]]]; try (split; [by intros [? _]|by repeat case_match]).
    destruct (Z.eqb_spec x (-1)), (ret =? -1), rs; (split; [intros [? ?]|intros ?]); simplify_eq; done.
  - intros rs fd. rewrite init_acceptor_eval.
    destruct rs as [|x [|a [|b [|ret rs]]]]; try (by repeat case_match).
    cbv -[Z.eqb htons]. destruct (x =? -1), (ret =? -1), rs; intros; simplify_eq; done.
Qed.

(** A client finds the broker. For an address [ip:port] with a decimal port,
    [connect] opens a socket and connects it to [ip] and the port, and it is the
    port on the wire that [init_poller] binds exactly if the two agree modulo
    65536 (a port is not checked for its range). *)
Theorem client_finds_broker ip ds fd c rs :
  ":"%char ∉ ip → no_nul ip → ds ≠ [] → Forall is_digit ds → digits_value 0 ds ≤ int_max →
  Z.of_nat (length ip) < 2 ^ 31 →
  let ip_port := ip ++ ":"%char :: ds in
  connect (mq_client_new ip_port) (fd :: c :: rs)
  = ([Socket_; Connect fd (Inet ip (htons (digits_value 0 ds)))],
     Ok (Mc ip_port Indeterminate (Val fd), if c <? 0 then -1 else 0, rs))
  ∧ (htons (digits_value 0 ds) = htons MQ_PORT ↔ digits_value 0 ds mod 65536 = 16667).
Proof.
  intros Hip Hno Hne Hds Hmax Hlen ip_port. split; [|apply htons_inj].
  unfold connect. cbn [server_ip_port mq_client_new]. unfold ip_port.
  rewrite get_ip_port_text by done. cbv -[Z.ltb htons digits_value app]. by destruct (c <? 0).
Qed.

(** The life of a client in the wrong order. There is no descriptor to write to
    before [connect]; after it there is one, even if connecting has failed;
    and the destructor joins a thread without an identifier (which is
    undefined) unless [loop] has been called and has created one. *)
Theorem client_lifecycle ip_port rs mc r :
  client_fd (mq_client_new ip_port) = Err Uninitialised
  ∧ (result_of (connect (mq_client_new ip_port)) rs = Ok (mc, r) →
     (∃ fd, client_fd mc = Ok fd)
     ∧ (∀ rs, wait mc rs = ([], Err Uninitialised))
     ∧ ∀ tid ret join rs,
         (mc ← client_loop tid mc; wait mc) (ret :: join :: rs)
         = if ret =? 0 then ([PthreadCreate; PthreadJoin tid], Ok ((), rs))
           else ([PthreadCreate], Err Uninitialised)).
Proof.
  split; [done|]. intros H. unfold connect in H.
  apply result_of_bind in H as ([[ip port] x] & rs1 & _ & H).
  apply result_of_bind in H as (fd & rs2 & _ & H). apply result_of_bind in H as (c & rs3 & _ & H).
  assert (∃ n, mc = Mc ip_port Indeterminate (Val fd) ∧ r = n) as (n & -> & _) by (case_match; injection H as <- <-; eauto).
  split_and!; [by exists fd|done|]. intros tid ret join rs'. cbv -[Z.eqb]. by destruct (ret =? 0).
Qed.

(** [Loop] serves nobody. Whatever is reported and whatever the system
    answers, [Loop::loop] on a [Socket] never registers a connection: the
    descriptor of the epoll instance that it reads from the socket has never
    been written (its own is a local variable), and the first accepted peer is
    a fault. *)
Theorem loop_serves_nobody {E} (ctor : bytes → outcome E) port rs s b :
  result_of (Socket_new port) rs = Ok (s, b) →
  (∀ evs sq rs epfd fd, EpollAddPeer epfd fd ∉ calls_of (Loop_loop ctor s evs sq) rs)
  ∧ (∀ p peers rs r, (Loop_accept_conn s (p :: peers) (r :: rs)) = ([FcntlNonblock p], Err Uninitialised)).
Proof.
  intros He%Socket_new_epfd. split.
  - intros evs sq rs' epfd fd Hc. unfold Loop_loop in Hc. do 3 call_cases Hc. by eapply events_register_nobody.
  - intros p peers rs' r. cbn [Loop_accept_conn]. rewrite sys_call_bind_. unfold getEpfd. by rewrite He.
Qed.

(** The constructor of [Socket] logs an error exactly if it has succeeded. *)
Theorem Socket_logs_success port rs s b :
  result_of (Socket_new port) rs = Ok (s, b) →
  ∃ fd, getListenfd s = Ok fd ∧ result_of (initServer port) rs = Ok (fd, b).
Proof.
  intros ([fd ret] & rs1 & Hi & H)%result_of_bind. exists fd.
  assert (result_of (initServer port) rs = Ok (fd, ret)) as -> by (unfold result_of; by rewrite Hi).
  destruct ret; [|by injection H as <- <-]. apply result_of_bind in H as (? & ? & _ & H). by injection H as <- <-.
Qed.

(** The destructor of [tcp_server] deletes what is NULL, and nothing else. *)
Theorem tcp_server_leaks tq wp ac log :
  tcp_server_destroy (tcp_server_init tq wp ac (tcp_server_named log)) = Ok []
  ∧ tcp_server_destroy (tcp_server_named log) = Err Uninitialised.
Proof. done. Qed.

(** ** Witnesses *)

Lemma client_finds_broker_witness :
  connect (mq_client_new (bs "127.0.0.1:82203")) [7; 0]
  = ([Socket_; Connect 7 (Inet (bs "127.0.0.1") (htons (digits_value 0 (bs "82203"))))],
     Ok (Mc (bs "127.0.0.1:82203") Indeterminate (Val 7), if 0 <? 0 then -1 else 0, []))
  ∧ (htons (digits_value 0 (bs "82203")) = htons MQ_PORT ↔ digits_value 0 (bs "82203") mod 65536 = 16667).
Proof.
  apply (client_finds_broker (bs "127.0.0.1") (bs "82203") 7 0 []);
    [vm_compute; set_solver|no_nul|done|by vm_compute; repeat constructor|by vm_compute|by vm_compute].
Defined.

Lemma client_lifecycle_witness :
  let ip_port := bs "localhost" in
  let mc := Mc ip_port Indeterminate (Val 7) in
  client_fd (mq_client_new ip_port) = Err Uninitialised
  ∧ (∃ fd, client_fd mc = Ok fd)
  ∧ (∀ rs, wait mc rs = ([], Err Uninitialised))
  ∧ ∀ tid ret join rs,
      (mc ← client_loop tid mc; wait mc) (ret :: join :: rs)
      = if ret =? 0 then ([PthreadCreate; PthreadJoin tid], Ok ((), rs))
        else ([PthreadCreate], Err Uninitialised).
Proof.
  destruct (client_lifecycle (bs "localhost") [7; -1] (Mc (bs "localhost") Indeterminate (Val 7)) (-1)) as [H1 H2].
  split; [exact H1|]. apply H2. vm_compute. reflexivity.
Defined.

Definition demo_socket : Socket := Sk 80 (Val 3) Indeterminate.

Lemma loop_serves_nobody_witness :
  (∀ evs sq rs epfd fd, EpollAddPeer epfd fd ∉ calls_of (Loop_loop (E := bytes) Ok demo_socket evs sq) rs)
  ∧ (∀ p peers rs r, Loop_accept_conn demo_socket (p :: peers) (r :: rs) = ([FcntlNonblock p], Err Uninitialised)).
Proof. apply (loop_serves_nobody Ok 80 [3; 0; 0; 0; 0] demo_socket true). vm_compute. reflexivity. Defined.

Lemma Socket_logs_success_witness :
  ∃ fd, getListenfd demo_socket = Ok fd ∧ result_of (initServer 80) [3; 0; 0; 0; 0] = Ok (fd, true).
Proof. apply (Socket_logs_success 80 [3; 0; 0; 0; 0] demo_socket true). vm_compute. reflexivity. Defined.
