(* ===== verification/Broker.v ===== *)
(** * The broker on its pool: message_queue_server.cpp

    [init_mq] makes a listening socket, 20 workers and the poller; every event
    becomes a task, [accept_conn] or [recv_msg], of the queue that poller and
    workers share (Poller.v).  The tasks work on the maps of one
    [message_queue_server] without a lock.  A task is cut at its system calls:
    between [accept] or [read] and the next one it works on the maps, and two
    tasks that are there at the same time, one of them changing a map that the
    other one touches, are a data race.  Without a race the order of two such
    pieces does not matter, so that each is one step. *)

From S2P Require Import Prelude Sys JobQueue WorkerPool Poller Buffer MqDef MqClient MqServer Net.
Open Scope Z_scope.

(** ** The poller *)

Inductive callback := Accept_conn | Recv_msg.
#[export] Instance callback_eq : EqDecision callback.
Proof. solve_decision. Defined.

Abbreviation task := (@queue_element callback Z).
Abbreviation bevent := (@occurrence callback).

(** Lines 80-102: the task of an event; [this] is the server's address. *)
Definition task_of (this lfd : Z) (ev : epoll_event) : option task :=
  if data_fd (ev_data ev) =? lfd then Some (Qe (Some Accept_conn) this)
  else if negb (Z.land (events ev) EPOLLIN =? 0) then Some (Qe (Some Recv_msg) (ev_data ev))
  else None.

(** What should become of an event: a task that accepts, if it is the listening
    socket's, else a task that reads from its connection, if it is readable. *)
Definition due (this lfd : Z) (ev : epoll_event) : option task :=
  if decide (data_fd (ev_data ev) = lfd) then Some (Qe (Some Accept_conn) this)
  else if Z.testbit (events ev) 0 then Some (Qe (Some Recv_msg) (ev_data ev))
  else None.

Lemma task_of_due this lfd ev : task_of this lfd ev = due this lfd ev.
Proof.
  unfold task_of, due. change EPOLLIN with (2 ^ 0). rewrite land_bit, negb_involutive by done.
  by destruct (Z.eqb_spec (data_fd (ev_data ev)) lfd); [rewrite decide_True|rewrite decide_False].
Qed.

(** In [epoll_wait] or at the next event; in [tq->push]. *)
Inductive poller_pc := PEvents (evs : list epoll_event) | PPush (evs : list epoll_event).
Definition rest (l : poller_pc) : list epoll_event := match l with PEvents evs | PPush evs => evs end.

(** ** The tasks *)

(** Where a task is: at [read] with its [_buf], behind a [read] of [nread]
    bytes, at [accept], behind an [accept]. *)
Inductive frame :=
  | AtRead (_buf : bytes)
  | GotMsg (nread : nat) (_buf : bytes)
  | AtAccept
  | GotPeer (peer_sock : Z) (addr_str : bytes).

Definition fresh (qe : task) : frame :=
  if decide (_cb qe = Some Recv_msg) then AtRead recv_buf else AtAccept.

Inductive container := Relations | Publishers | FdAddrs | Cached.
#[export] Instance container_eq : EqDecision container.
Proof. solve_decision. Defined.

(** What a piece changes. *)
Definition changed (s s' : message_queue_server) : list container :=
  (if decide (relations s = relations s') then [] else [Relations])
  ++ (if decide (publishers s = publishers s') then [] else [Publishers])
  ++ (if decide (fd_addrs s = fd_addrs s') then [] else [FdAddrs])
  ++ (if decide (cached_msg s = cached_msg s') then [] else [Cached]).

(** What the handling of a message touches, for those that it handles. *)
Definition touched (mc : mq_conn) (buf : bytes) (nread : nat) (s : message_queue_server) : list container :=
  match buf !! 0%nat with
  | Some kind =>
      if decide (kind = x01) then
        match check_msg_crc buf nread with
        | Ok true => Relations :: match relations s !! c_addr mc with
                                  | None | Some [] => []
                                  | Some _ => [FdAddrs; Cached]
                                  end
        | _ => []
        end
      else if decide (kind = x02) then [Publishers; FdAddrs]
      else if decide (kind = x04) then
        match (n ← copy_name buf nread; cstr n 0) with
        | Ok name =>
            FdAddrs :: (if decide (is_Some (map_insert (c_addr mc) (c_fd mc) (fd_addrs s) !! name))
                        then [Relations] else [])
        | _ => [FdAddrs]
        end
      else if decide (kind = x08) then [FdAddrs; Relations]
      else []
  | None => []
  end.

Section broker.
Context {Q : Type} `{!AtomicQueue (A := task) Q}.

Record bsys := Bsys {
  this : Z;
  epfd : Z;
  listenfd : Z;
  regs : gmap Z reg;
  mqs : message_queue_server;
  heap : gmap Z mq_conn;
  poller : poller_pc;
  wp : @worker_pool callback Z Q;
  frames : gmap nat frame;
  out : list io }.                     (* calls of [write] *)

Definition set_poller (l : poller_pc) (s : bsys) : bsys :=
  Bsys (this s) (epfd s) (listenfd s) (regs s) (mqs s) (heap s) l (wp s) (frames s) (out s).
Definition set_pool (w : worker_pool) (fs : gmap nat frame) (s : bsys) : bsys :=
  Bsys (this s) (epfd s) (listenfd s) (regs s) (mqs s) (heap s) (poller s) w fs (out s).
Definition set_kernel (r : gmap Z reg) (h : gmap Z mq_conn) (s : bsys) : bsys :=
  Bsys (this s) (epfd s) (listenfd s) r (mqs s) h (poller s) (wp s) (frames s) (out s).
Definition set_mqs (m : message_queue_server) (o : list io) (s : bsys) : bsys :=
  Bsys (this s) (epfd s) (listenfd s) (regs s) m (heap s) (poller s) (wp s) (frames s) (out s ++ o).
Definition set_frames (fs : gmap nat frame) (s : bsys) : bsys := set_pool (wp s) fs s.

Definition mqs_new : message_queue_server := Mqs ∅ [] ∅ ∅.

(** The constructor, with the queue [q], and [init_mq] up to the loop of
    [poller]. *)
Definition init_mq (this : Z) (q : Q) : sys_prog bsys :=
  lfd ← init_poller;
  '(epfd, ret) ← poller_start lfd;
  mret (Bsys this epfd lfd (if ret =? 0 then {[ lfd := Reg (uint lfd) EpollIn false true ]} else ∅)
          mqs_new ∅ (PEvents []) (started 20 None q) ∅ []).

(** ** Pieces *)

(** The task of worker [t], as long as it runs: its argument and its frame. *)
Definition task_at (t : nat) (s : bsys) : option (Z * frame) :=
  match workers (wp s) !! t, frames s !! t with
  | Some (WRun qe), Some fr => Some (qe_arg qe, fr)
  | _, _ => None
  end.

(** What a task does to the maps before its next [read] or [accept]. *)
Definition piece (a : Z) (fr : frame) (s : bsys) : outcome (message_queue_server * list io) :=
  match fr with
  | GotMsg nread buf =>
      match heap s !! a with
      | Some mc => handle_msg mc buf nread (mqs s) []
      | None => Err UseAfterFree
      end
  | GotPeer peer_sock addr_str => Ok (set_fd_addrs (map_insert addr_str peer_sock) (mqs s), [])
  | AtRead _ | AtAccept => Ok (mqs s, [])
  end.

Definition changes (a : Z) (fr : frame) (s : bsys) : list container :=
  match piece a fr s with Ok (m, _) => changed (mqs s) m | _ => [] end.
Definition touches (a : Z) (fr : frame) (s : bsys) : list container :=
  match fr with
  | GotMsg nread buf => match heap s !! a with Some mc => touched mc buf nread (mqs s) | None => [] end
  | GotPeer _ _ => [FdAddrs]
  | AtRead _ | AtAccept => []
  end.

Definition meets (l1 l2 : list container) : bool := existsb (λ c, bool_decide (c ∈ l2)) l1.
Definition conflict (x y : Z * frame) (s : bsys) : bool :=
  meets (changes x.1 x.2 s) (touches y.1 y.2 s) || meets (changes y.1 y.2 s) (touches x.1 x.2 s).

(** Does the task [x] of worker [t] race with the task of another worker? *)
Definition races (t : nat) (x : Z * frame) (s : bsys) : bool :=
  existsb (λ u, match task_at u s with
                | Some y => negb (u =? t)%nat && conflict x y s
                | None => false
                end) (seq 0 (length (workers (wp s)))).

(** ** Moves *)

Inductive bmove :=
  | Wait (ready : list (Z * Z))                     (* [epoll_wait] returns *)
  | Poll                                            (* the next event *)
  | Pool (m : @pmove callback Z)
  | Read (t : nat) (r : read_result)                (* [read] in worker [t] returns *)
  | Accept (t : nat) (peer : option (Z * bytes))    (* [accept] returns *)
  | Piece (t : nat) (ptr : Z).                      (* up to the next [read] or [accept] *)

Definition read_step (t : nat) (r : read_result) (s : bsys) : option (outcome bsys) :=
  x ← task_at t s;
  match x.2, heap s !! x.1, r with
  | AtRead _, None, _ => Some (Err UseAfterFree)
  | AtRead buf, Some mc, Data r =>
      if decide (0 < length r ≤ 1023)%nat then
        Some (buf ← memcpy buf 0 r 0 (Z.of_nat (length r));
              Ok (set_frames (<[t := GotMsg (length r) buf]> (frames s)) s))
      else None
  | AtRead _, Some mc, ReadAgain => Some (Ok (set_frames (delete t (frames s)) s))
  | AtRead _, Some mc, ReadEof =>
      Some (Ok (set_frames (delete t (frames s))
                 (set_kernel (delete (c_fd mc) (regs s)) (delete x.1 (heap s)) s)))
  | _, _, _ => None
  end.

(** [inet_ntoa] gives at most 15 bytes, so that [convert_addr_in_to_str] gives them
    back. *)
Definition accept_step (t : nat) (peer : option (Z * bytes)) (s : bsys) : option bsys :=
  x ← task_at t s;
  match x.2, peer with
  | AtAccept, Some (peer_sock, addr_str) =>
      if decide (0 < peer_sock ∧ (length addr_str ≤ 15)%nat)
      then Some (set_frames (<[t := GotPeer peer_sock addr_str]> (frames s)) s) else None
  | AtAccept, None => Some (set_frames (delete t (frames s)) s)
  | _, _ => None
  end.

(** [ptr]: the address of the new [mq_conn], for [accept_conn]. *)
Definition piece_step (t : nat) (ptr : Z) (s : bsys) : option (outcome bsys) :=
  x ← task_at t s;
  if races t x s then Some (Err DataRace)
  else
    match x.2 with
    | GotMsg nread buf =>
        Some ('(m, o) ← piece x.1 x.2 s; Ok (set_frames (<[t := AtRead buf]> (frames s)) (set_mqs m o s)))
    | GotPeer peer_sock addr_str =>
        match heap s !! ptr with
        | Some _ => None
        | None =>
            Some ('(m, o) ← piece x.1 x.2 s;
                  Ok (set_frames (<[t := AtAccept]> (frames s))
                       (set_kernel (ctl_add peer_sock (Reg ptr EpollIn false true) (regs s))
                          (<[ptr := MqConn peer_sock (epfd s) addr_str]> (heap s)) (set_mqs m o s))))
        end
    | AtRead _ | AtAccept => None
    end.

Definition poll_step (s : bsys) : option (bsys * bevent) :=
  match poller s with
  | PEvents (ev :: evs) =>
      match task_of (this s) (listenfd s) ev with
      | Some qe =>
          '(w, e) ← pnext (wp s) (InQueue (Call (length (workers (wp s))) (Push qe)));
          Some (set_poller (PPush evs) (set_pool w (frames s) s), PoolDid e)
      | None => Some (set_poller (PEvents evs) s, Quiet)
      end
  | _ => None
  end.

Definition pool_move (m : @pmove callback Z) (s : bsys) : option (bsys * bevent) :=
  '(w, fs, returned, e) ← pool_step fresh m (wp s) (frames s);
  let s' := set_pool w fs s in
  Some (match poller s with
        | PPush evs => if returned : bool then set_poller (PEvents evs) s' else s'
        | _ => s'
        end, PoolDid e).

Definition quietly (r : outcome bsys) : outcome (bsys * bevent) := s ← r; Ok (s, Quiet).

Definition bnext (s : bsys) (m : bmove) : option (outcome (bsys * bevent)) :=
  match m with
  | Wait ready =>
      match poller s with
      | PEvents [] =>
          if decide (length ready ≤ MAXEVENTS)%nat then
            '(r, evs) ← epoll_wait ready (regs s);
            Some (Ok (set_poller (PEvents evs) (set_kernel r (heap s) s), Reported evs))
          else None
      | _ => None
      end
  | Poll => r ← poll_step s; Some (Ok r)
  | Pool m => r ← pool_move m s; Some (Ok r)
  | Read t r => r ← read_step t r s; Some (quietly r)
  | Accept t peer => s ← accept_step t peer s; Some (Ok (s, Quiet))
  | Piece t ptr => r ← piece_step t ptr s; Some (quietly r)
  end.

Definition brun := machine_run bnext.
Definition breach := machine_reach bnext.

(** ** Events and tasks *)

(** Moves of the tasks leave pool and poller alone. *)
Definition same_pool (s s' : bsys) : Prop :=
  wp s' = wp s ∧ this s' = this s ∧ listenfd s' = listenfd s ∧ poller s' = poller s.

Lemma bread_step_same t r s s' : read_step t r s = Some (Ok s') → same_pool s s'.
Proof.
  unfold read_step. intros (x & _ & H)%bind_Some.
  repeat (case_match; try done); simplify_eq; try done. by ok_inv.
Qed.
Lemma accept_step_same t peer s s' : accept_step t peer s = Some s' → same_pool s s'.
Proof. unfold accept_step. intros (x & _ & H)%bind_Some. by repeat (case_match; simplify_eq). Qed.
Lemma piece_step_same t ptr s s' : piece_step t ptr s = Some (Ok s') → same_pool s s'.
Proof.
  unfold piece_step. intros (x & _ & H)%bind_Some. case_match; [done|].
  repeat (case_match; try done); apply (inj Some) in H; ok_inv; by repeat (case_match; ok_inv).
Qed.

Definition poller_inv (s0 s : bsys) (es : list bevent) : Prop :=
  poll_inv (task_of (this s0) (listenfd s0)) (wp s0) (wp s) (rest (poller s)) es
  ∧ this s = this s0 ∧ listenfd s = listenfd s0.

Lemma poller_inv_task s0 s es s' : poller_inv s0 s es → same_pool s s' → poller_inv s0 s' (es ++ [Quiet]).
Proof.
  intros (Hi & Ht & Hl) (Hw & Ht' & Hl' & Hp). unfold poller_inv. rewrite Hw, Ht', Hl', Hp. split; [|done].
  eapply (poll_quiet _ _ _ _ _ _ _ [] None); [done|by left|by rewrite app_nil_r|done].
Qed.

Lemma bpool_move_inv m s s' e :
  pool_move m s = Some (s', e) →
  ∃ pe, pnext (wp s) m = Some (wp s', pe) ∧ e = PoolDid pe ∧ (∀ t qe, pe ≠ QEvent (ECall t (Push qe)))
    ∧ rest (poller s') = rest (poller s) ∧ this s' = this s ∧ listenfd s' = listenfd s
    ∧ mqs s' = mqs s ∧ heap s' = heap s ∧ (frames s' = frames s ∨ ∃ t qe, frames s' = <[t := fresh qe]> (frames s)).
Proof.
  unfold pool_move. intros ([[[w fs] b] pe] & (Hn & He & Hf)%pool_step_inv & [= <- <-])%bind_Some. exists pe.
  assert (fs = frames s ∨ ∃ t qe, fs = <[t := fresh qe]> (frames s)) as Hf'.
  { destruct Hf as [?|(t & qe & ? & _)]; eauto. }
  destruct (poller s) eqn:Hl; [|destruct b]; cbn; rewrite ?Hl; split_and!; done.
Qed.

Lemma poller_inv_step s0 s es m s' e :
  poller_inv s0 s es → bnext s m = Some (Ok (s', e)) → poller_inv s0 s' (es ++ [e]).
Proof.
  intros Hinv. pose proof Hinv as (Hi & Ht & Hl). destruct m as [ready| |m|t r|t peer|t ptr]; simpl.
  - destruct (poller s) as [[|]|] eqn:Hp; try done. case_decide; [|done].
    intros ([r evs] & _ & [= <- <-])%bind_Some. split; [|done].
    eapply (poll_quiet _ _ _ _ _ _ _ evs None); [done|by right|done|done].
  - unfold poll_step. intros ([s1 e1] & H & [= <- <-])%bind_Some.
    destruct (poller s) as [[|ev evs]|] eqn:Hp; try done.
    destruct (task_of _ _ ev) as [qe|] eqn:Hd; rewrite Ht, Hl in Hd.
    + apply bind_Some in H as ([w pe] & Hn & [= <- <-]). split; [|done]. by eapply poll_call.
    + injection H as <- <-. split; [|done].
      eapply (poll_quiet _ _ _ _ _ _ _ [] (Some ev)); [done|by left|by rewrite app_nil_r|by intros x [= <-]].
  - intros ([s1 e1] & H & [= <- <-])%bind_Some.
    destruct (bpool_move_inv _ _ _ _ H) as (pe & Hn & -> & Hpe & Hrest & Ht' & Hl' & _).
    unfold poller_inv. rewrite Ht', Hl', Hrest. split; [by eapply poll_pool|done].
  - intros (x & H & He)%bind_Some. destruct x as [s1| |]; simplify_eq/=.
    by eapply poller_inv_task, bread_step_same.
  - intros (x & H & [= <- <-])%bind_Some. by eapply poller_inv_task, accept_step_same.
  - intros (x & H & He)%bind_Some. destruct x as [s1| |]; simplify_eq/=.
    by eapply poller_inv_task, piece_step_same.
Qed.

(** The states in which the poller begins. *)
Definition started_by (a : Z) (q : Q) (s : bsys) : Prop :=
  ∃ epfd lfd regs, s = Bsys a epfd lfd regs mqs_new ∅ (PEvents []) (started 20 None q) ∅ [].

Lemma init_mq_by a q rs s : result_of (init_mq a q) rs = Ok s → started_by a q s.
Proof.
  unfold init_mq. intros (lfd & rs1 & _ & H)%result_of_bind.
  apply result_of_bind in H as ([epfd ret] & rs2 & _ & H). injection H as <-. by eexists _, _, _.
Qed.

Lemma breach_inv a q s0 ms s es :
  fresh_queue 21 q → started_by a q s0 → breach s0 ms s es → poller_inv s0 s es.
Proof.
  intros Hq (epfd & lfd & r & ->) Hr. induction Hr; [|by eapply poller_inv_step].
  split; [|done]. eapply poll_started; [|done]. unfold int_max. lia.
Qed.

(** ** The maps *)

(** Without a message 0x8: who has subscribed is known, nothing is cached, and a
    known address has the descriptor of one of its connections. *)
Definition on_line (peers : list (Z * bytes)) (m : message_queue_server) : Prop :=
  (∀ p subs x, relations m !! p = Some subs → x ∈ subs → is_Some (fd_addrs m !! x))
  ∧ (∀ x l, cached_msg m !! x = Some l → l = [])
  ∧ (∀ x fd, fd_addrs m !! x = Some fd → (fd, x) ∈ peers).

Lemma map_insert_known (x y : bytes) (v : Z) m : is_Some (m !! x) → is_Some (map_insert y v m !! x).
Proof.
  intros H. unfold map_insert. case_match; [done|]. rewrite lookup_insert_is_Some. by destruct (decide (y = x)); auto.
Qed.
Lemma map_insert_in {V} (x y : bytes) (v w : V) (m : gmap bytes V) :
  map_insert y v m !! x = Some w → m !! x = Some w ∨ (x = y ∧ w = v).
Proof.
  unfold map_insert. case_match; [by left|]. rewrite lookup_insert_Some. intros [[-> ->]|[_ ?]]; auto.
Qed.

Lemma on_line_known peers fd x m :
  (fd, x) ∈ peers → on_line peers m → on_line peers (set_fd_addrs (map_insert x fd) m).
Proof.
  intros Hin (Hr & Hc & Hf). split_and!; cbn; [|done|].
  - intros p subs y Hp Hy. by eapply map_insert_known, Hr.
  - intros y v [?|[-> ->]]%map_insert_in; [by apply Hf|done].
Qed.

Lemma relay_on_line peers fd b n subs m o m' o' :
  on_line peers m → Forall (λ x, is_Some (fd_addrs m !! x)) subs → relay fd b n subs m o = Ok (m', o') →
  on_line peers m'.
Proof.
  revert m o; induction subs as [|x subs IH]; intros m o Hm Hs H; simpl in H; [by ok_inv; simplify_eq|].
  apply Forall_cons in Hs as [[v Hx] Hs]. rewrite Hx in H. ok_inv. eapply IH; [| |exact H]; [|done].
  destruct Hm as (Hr & Hc & Hf). split_and!; [done| |done]. cbn. intros y l [?|[_ ->]]%map_insert_in; [by eapply Hc|done].
Qed.

Lemma handle_msg_on_line peers mc buf n m o m' o' :
  on_line peers m → (c_fd mc, c_addr mc) ∈ peers → buf !! 0%nat ≠ Some x08 →
  handle_msg mc buf n m o = Ok (m', o') → on_line peers m'.
Proof.
  intros Hm Hin Hk H. unfold handle_msg in H. ok_inv. pose proof Hm as (Hr & Hc & Hf).
  case_decide; [|case_decide; [|case_decide; [|case_decide as H8; [|case_decide]]]].
  - ok_inv. destruct (_ : bool); ok_inv; [|done].
    eapply relay_on_line; [| |done].
    + split_and!; [|done..]. cbn. intros p subs x [?|[_ ->]]%map_insert_in Hx; [by eapply Hr|by apply not_elem_of_nil in Hx].
    + apply Forall_forall. intros x Hx. cbn. destruct (relations m !! c_addr mc) as [subs|] eqn:Hs; [by eapply Hr|].
      by apply not_elem_of_nil in Hx.
  - ok_inv. by apply on_line_known.
  - ok_inv. pose proof (on_line_known peers (c_fd mc) (c_addr mc) m Hin Hm) as Hm1.
    destruct (fd_addrs _ !! _); ok_inv; [|done]. destruct Hm1 as (Hr1 & Hc1 & Hf1).
    split_and!; [|done..]. cbn. intros p subs x. unfold map_push. rewrite lookup_insert_Some.
    intros [[<- <-]|[_ Hp]] Hx; [|by eapply Hr1]. apply elem_of_app in Hx as [Hx| ->%list_elem_of_singleton].
    + cbn in Hx. destruct (relations m !! _) as [l|] eqn:Hl; [by eapply Hr1|by apply not_elem_of_nil in Hx].
    + unfold map_insert. case_match; [by eexists|]. rewrite lookup_insert_eq. by eexists.
  - destruct Hk. unfold get in H0. by destruct (buf !! 0%nat); simplify_eq.
  - ok_inv. done.
  - by ok_inv.
Qed.

(** ** The tasks together *)

(** The connections that [accept] has returned in a run. *)
Definition peers_of (ms : list bmove) : list (Z * bytes) :=
  omap (λ m, match m with Accept _ p => p | _ => None end) ms.
Definition unregisters (m : bmove) : Prop :=
  match m with Read _ (Data (c :: _)) => c = x08 | _ => False end.

Definition frame_ok (peers : list (Z * bytes)) (fr : frame) : Prop :=
  match fr with
  | AtRead buf => length buf = 1024%nat
  | GotMsg _ buf => length buf = 1024%nat ∧ buf !! 0%nat ≠ Some x08
  | AtAccept => True
  | GotPeer peer_sock addr_str => (peer_sock, addr_str) ∈ peers
  end.

Definition tasks_inv (peers : list (Z * bytes)) (s : bsys) : Prop :=
  on_line peers (mqs s)
  ∧ map_Forall (λ _ mc, (c_fd mc, c_addr mc) ∈ peers) (heap s)
  ∧ map_Forall (λ _ fr, frame_ok peers fr) (frames s).

Lemma tasks_inv_mono l l' s : tasks_inv l s → tasks_inv (l ++ l') s.
Proof.
  assert (∀ x, x ∈ l → x ∈ l ++ l') as Hin by (intros x ?; by apply elem_of_app; left).
  intros ((Hr & Hc & Hf) & Hh & Hfr). split_and!; [split_and!; [done..|by intros x fd ?%Hf; apply Hin]| |].
  - intros a mc ?%Hh. by apply Hin.
  - intros t fr Ht%Hfr. destruct fr; cbn in *; auto.
Qed.

Lemma task_at_frame t s a fr : task_at t s = Some (a, fr) → frames s !! t = Some fr.
Proof. unfold task_at. intros. by repeat (case_match; simplify_eq). Qed.

Lemma read_step_inv l t r s s' :
  ¬ unregisters (Read t r) → read_step t r s = Some (Ok s') → tasks_inv l s → tasks_inv l s'.
Proof.
  intros Hu H (Hm & Hh & Hf). unfold read_step in H. apply bind_Some in H as ([a fr] & Ht & H). cbn in H.
  apply task_at_frame in Ht. pose proof (Hf _ _ Ht) as Hfr. destruct fr as [buf| | |]; try done. cbn in Hfr.
  destruct (heap s !! a) as [mc|] eqn:Ha; [|done]. destruct r as [r| |].
  - case_decide as Hlen; [|done]. rewrite memcpy_ok in H by lia. cbn in H. simplify_eq.
    split_and!; [done..|]. apply map_Forall_insert_2; [|done]. split.
    + rewrite drop_0, take_ge, length_app, length_drop by lia. lia.
    + rewrite drop_0, take_ge by lia. destruct r as [|c r]; [simpl in Hlen; lia|]. simpl. intros [= ->]. by apply Hu.
  - simplify_eq. split_and!; [done|by apply map_Forall_delete..].
  - simplify_eq. split_and!; [done..|by apply map_Forall_delete].
Qed.

Lemma accept_step_inv l t p s s' :
  accept_step t p s = Some s' → tasks_inv l s → tasks_inv (l ++ option_list p) s'.
Proof.
  intros H Hi%(tasks_inv_mono l (option_list p)). destruct Hi as (Hm & Hh & Hf).
  unfold accept_step in H. apply bind_Some in H as ([a fr] & _ & H). cbn in H. destruct fr; try done.
  destruct p as [[sock addr]|]; [case_decide; [|done]|]; simplify_eq; (split_and!; [done..|]).
  - apply map_Forall_insert_2; [|done]. cbn. apply elem_of_app. right. by left.
  - by apply map_Forall_delete.
Qed.

Lemma piece_step_inv l t ptr s s' : piece_step t ptr s = Some (Ok s') → tasks_inv l s → tasks_inv l s'.
Proof.
  intros H (Hm & Hh & Hf). unfold piece_step in H. apply bind_Some in H as ([a fr] & Ht & H).
  apply task_at_frame in Ht. pose proof (Hf _ _ Ht) as Hfr. destruct (races _ _ _); [done|]. cbn in H, Hfr.
  destruct fr as [|n buf| |sock addr]; try done.
  - destruct Hfr as [Hl Hk]. apply (inj Some) in H. ok_inv. destruct v as [m o]. ok_inv.
    unfold piece in H0. destruct (heap s !! a) as [mc|] eqn:Ha; [|done].
    split_and!; cbn; [by eapply handle_msg_on_line, H0; [|apply (Hh a)|]|done|by apply map_Forall_insert_2].
  - destruct (heap s !! ptr) eqn:Hp; [done|]. apply (inj Some) in H. cbn in H. injection H as <-.
    split_and!; cbn; [by apply on_line_known|by apply map_Forall_insert_2|by apply map_Forall_insert_2].
Qed.

Lemma tasks_inv_step l s m s' e :
  ¬ unregisters m → bnext s m = Some (Ok (s', e)) → tasks_inv l s → tasks_inv (l ++ peers_of [m]) s'.
Proof.
  intros Hu Hn Hi. destruct m as [ready| |m|t r|t peer|t ptr]; cbn [peers_of omap list_omap]; simpl in Hn;
    try (rewrite app_nil_r).
  - destruct (poller s) as [[|]|]; try done. case_decide; [|done].
    by apply bind_Some in Hn as ([r evs] & _ & [= <- <-]).
  - apply bind_Some in Hn as ([s1 e1] & H & [= <- <-]). unfold poll_step in H.
    destruct (poller s) as [[|ev evs]|]; try done. case_match; [|by simplify_eq].
    by apply bind_Some in H as ([w pe] & _ & [= <- <-]).
  - apply bind_Some in Hn as ([s1 e1] & H & [= <- <-]).
    destruct (bpool_move_inv _ _ _ _ H) as (_ & _ & _ & _ & _ & _ & _ & Hm & Hh & Hf).
    destruct Hi as (Hm' & Hh' & Hf'). unfold tasks_inv. rewrite Hm, Hh. split_and!; [done..|].
    destruct Hf as [-> |(t & qe & ->)]; [done|]. apply map_Forall_insert_2; [|done].
    unfold fresh. by case_decide.
  - apply bind_Some in Hn as (x & H & He). destruct x as [s1| |]; simplify_eq/=. by eapply read_step_inv.
  - apply bind_Some in Hn as (x & H & [= <- <-]). destruct peer; by eapply (accept_step_inv l) in H.
  - apply bind_Some in Hn as (x & H & He). destruct x as [s1| |]; simplify_eq/=. by eapply piece_step_inv.
Qed.

Lemma breach_tasks a q s0 ms s es :
  started_by a q s0 → breach s0 ms s es → Forall (λ m, ¬ unregisters m) ms → tasks_inv (peers_of ms) s.
Proof.
  intros (epfd & lfd & r & ->) Hr Hu. induction Hr as [|ms s es m s' e Hr IH Hn].
  { split_and!; [split_and!; cbn; intros *; by rewrite lookup_empty|apply map_Forall_empty..]. }
  apply Forall_app in Hu as [Hus Hu]. rewrite Forall_singleton in Hu.
  unfold peers_of. rewrite omap_app. by eapply tasks_inv_step; [..|apply IH].
Qed.

(** ** A task that runs alone *)

Definition in_piece (fr : frame) : Prop := match fr with GotMsg _ _ | GotPeer _ _ => True | _ => False end.
Definition alone (t : nat) (s : bsys) : Prop :=
  ∀ u a fr, u ≠ t → task_at u s = Some (a, fr) → ¬ in_piece fr.

(** No worker but [t] runs a task. *)
Definition idle_but (t : nat) (s : bsys) : bool :=
  forallb (λ u, (u =? t)%nat || match task_at u s with None => true | Some _ => false end)
    (seq 0 (length (workers (wp s)))).
Lemma idle_but_alone t s : idle_but t s = true → alone t s.
Proof.
  intros H u a fr Hu Ht. unfold idle_but in H. rewrite forallb_forall in H.
  assert (u < length (workers (wp s)))%nat as Hlt.
  { unfold task_at in Ht. apply lookup_lt_is_Some. destruct (workers (wp s) !! u); [by eexists|done]. }
  specialize (H u ltac:(apply in_seq; lia)). rewrite Ht in H. apply orb_true_iff in H as [->%Nat.eqb_eq|H]; done.
Qed.

Lemma changed_same m : changed m m = [].
Proof. unfold changed. by rewrite !decide_True. Qed.

Lemma alone_no_race t x s : alone t s → races t x s = false.
Proof.
  intros Ha. unfold races. apply not_true_iff_false. rewrite existsb_exists. intros (u & _ & Hu).
  destruct (task_at u s) as [[a fr]|] eqn:Ht; [|done]. apply andb_true_iff in Hu as [Hne Hc].
  assert (u ≠ t) as Hut by (intros ->; by rewrite Nat.eqb_refl in Hne).
  assert (changes a fr s = [] ∧ touches a fr s = []) as [E1 E2].
  { specialize (Ha _ _ _ Hut Ht). destruct fr; cbn in Ha; try tauto; unfold changes, touches; cbn;
      by rewrite changed_same. }
  unfold conflict in Hc. cbn in Hc. rewrite E1, E2 in Hc. apply orb_true_iff in Hc as [Hc|Hc]; [|done].
  unfold meets in Hc. apply existsb_exists in Hc as (c & _ & Hc). apply bool_decide_eq_true in Hc.
  by apply not_elem_of_nil in Hc.
Qed.

Definition read_of (fin : read_end) : read_result := match fin with Eof => ReadEof | Again => ReadAgain end.
(** The moves of a task of worker [t], from its first [read] to its end. *)
Definition alone_moves (t : nat) (reads : list bytes) (fin : read_end) : list bmove :=
  (reads ≫= λ r, [Read t (Data r); Piece t 0]) ++ [Read t (read_of fin)].

Lemma task_at_frames t u fr s s' :
  wp s' = wp s → frames s' = <[t := fr]> (frames s) → u ≠ t → task_at u s' = task_at u s.
Proof. intros Hw Hf Hu. unfold task_at. rewrite Hw, Hf. by rewrite lookup_insert_ne. Qed.

Lemma task_at_insert t a fr fr' s s' :
  task_at t s = Some (a, fr) → wp s' = wp s → frames s' = <[t := fr']> (frames s) → task_at t s' = Some (a, fr').
Proof.
  unfold task_at. intros H -> ->. rewrite lookup_insert_eq. by repeat (case_match; simplify_eq).
Qed.

Lemma alone_frames t fr s s' : wp s' = wp s → frames s' = <[t := fr]> (frames s) → alone t s → alone t s'.
Proof. intros Hw Hf Ha u b fr' Hu. rewrite (task_at_frames t u fr s) by done. by apply Ha. Qed.

(** One message: the task reads it, and works on it. *)
Lemma alone_message t a mc s buf r :
  task_at t s = Some (a, AtRead buf) → length buf = 1024%nat → heap s !! a = Some mc → alone t s →
  (0 < length r ≤ 1023)%nat →
  ∃ b1 s1, memcpy buf 0 r 0 (Z.of_nat (length r)) = Ok b1 ∧ length b1 = 1024%nat
    ∧ bnext s (Read t (Data r)) = Some (Ok (s1, Quiet))
    ∧ match handle_msg mc b1 (length r) (mqs s) [] with
      | Ok (m, o) =>
          let s2 := set_frames (<[t := AtRead b1]> (frames s1)) (set_mqs m o s1) in
          bnext s1 (Piece t 0) = Some (Ok (s2, Quiet))
          ∧ task_at t s2 = Some (a, AtRead b1) ∧ alone t s2 ∧ heap s2 = heap s ∧ regs s2 = regs s
          ∧ mqs s2 = m ∧ out s2 = out s ++ o
      | Err f => bnext s1 (Piece t 0) = Some (Err f)
      | Timeout => True
      end.
Proof.
  intros Ht Hl Hmc Ha Hr. exists (r ++ drop (length r) buf). set (b1 := r ++ drop (length r) buf).
  assert (memcpy buf 0 r 0 (Z.of_nat (length r)) = Ok b1) as Hcpy.
  { rewrite memcpy_ok by lia. by rewrite take_0, drop_0, take_ge. }
  assert (length b1 = 1024%nat) as Hb by (unfold b1; rewrite length_app, length_drop; lia).
  set (s1 := set_frames (<[t := GotMsg (length r) b1]> (frames s)) s).
  assert (task_at t s1 = Some (a, GotMsg (length r) b1)) as Ht1 by (by eapply (task_at_insert t a _ _ s)).
  exists s1. split_and!; [done|done| |].
  { simpl. unfold read_step. rewrite Ht. cbn. rewrite Hmc, decide_True by done. by rewrite Hcpy. }
  assert (races t (a, GotMsg (length r) b1) s1 = false) as Hnr by (by eapply alone_no_race, (alone_frames t _ s)).
  assert (piece a (GotMsg (length r) b1) s1 = handle_msg mc b1 (length r) (mqs s) []) as Hp.
  { unfold piece. change (heap s1) with (heap s). by rewrite Hmc. }
  simpl. unfold piece_step. rewrite Ht1. cbn [mbind option_bind]. rewrite Hnr. cbn [fst snd]. rewrite Hp.
  destruct (handle_msg mc b1 (length r) (mqs s) []) as [[m o]| |]; [|done..].
  split_and!; try done; [by eapply (task_at_insert t a _ _ s1)|].
  eapply (alone_frames t _ s1); [done..|]. by eapply (alone_frames t _ s).
Qed.

Lemma alone_run t a mc fin reads : ∀ s buf m o,
  task_at t s = Some (a, AtRead buf) → length buf = 1024%nat → heap s !! a = Some mc → alone t s →
  Forall (λ r, (0 < length r ≤ 1023)%nat) reads → recv_loop mc reads buf (mqs s) [] = Ok (m, o) →
  ∃ s' es, brun s (alone_moves t reads fin) = Some (Ok (s', es))
    ∧ mqs s' = m ∧ out s' = out s ++ o ∧ frames s' !! t = None
    ∧ (heap s', regs s') = match fin with
                           | Eof => (delete a (heap s), delete (c_fd mc) (regs s))
                           | Again => (heap s, regs s)
                           end.
Proof.
  induction reads as [|r reads IH]; intros s buf m o Ht Hl Hmc Ha Hr Hrecv.
  { simpl in Hrecv. simplify_eq. unfold alone_moves, brun. cbn [mbind list_bind app machine_run bnext].
    unfold read_step. rewrite Ht. cbn. rewrite Hmc. destruct fin; (eexists _, _; split; [reflexivity|]);
      cbn; by rewrite app_nil_r, lookup_delete_eq. }
  apply Forall_cons in Hr as [Hr Hrs].
  destruct (alone_message t a mc s buf r Ht Hl Hmc Ha Hr) as (b1 & s1 & Hb & Hlb & Hn1 & Hp).
  cbn [recv_loop] in Hrecv. rewrite Hb, bind_ok in Hrecv.
  destruct (handle_msg mc b1 (length r) (mqs s) []) as [[m1 o1]| |]; [|done..]. rewrite bind_ok in Hrecv.
  destruct Hp as (Hn2 & Ht2 & Ha2 & Hh2 & Hr2 & Hm2 & Ho2). set (s2 := set_frames _ _) in *.
  rewrite recv_loop_out in Hrecv. apply bind_ok_inv in Hrecv as ([m2 o2] & Hrecv & [= -> <-]).
  destruct (IH s2 b1 m o2) as (s' & es & Hrun & Hm' & Ho' & Hf' & Hk'); [done|done|by rewrite Hh2|done|done|by rewrite Hm2|].
  exists s', (Quiet :: Quiet :: es). unfold brun, alone_moves in *. cbn [mbind list_bind app machine_run] in *.
  rewrite Hn1. cbn [mbind option_bind]. rewrite Hn2. cbn [mbind option_bind]. rewrite Hrun.
  split_and!; [done|done|by rewrite Ho', Ho2, app_assoc|done|]. by rewrite Hk', Hh2, Hr2.
Qed.

(** ** Properties *)

(** A task that has the maps to itself. Whatever it reads, the moves of a
    task that begins while no other task is at work on the maps do to the maps,
    the registrations and the connection what [recv_msg] as a function says, in
    the same order of [write]s, provided that it does not fault. *)
Theorem task_alone_is_recv_msg t a mc fin reads s m o :
  task_at t s = Some (a, AtRead recv_buf) → heap s !! a = Some mc → alone t s →
  Forall (λ r, (0 < length r ≤ 1023)%nat) reads → recv_msg mc reads fin (mqs s) = Ok (m, o) →
  ∃ s' es, brun s (alone_moves t reads fin) = Some (Ok (s', es))
    ∧ mqs s' = m ∧ frames s' !! t = None
    ∧ out s ++ o = out s' ++ match fin with Eof => [EpollDel (c_fd mc); Close (c_fd mc); Delete mc] | Again => [] end
    ∧ heap s' = (match fin with Eof => delete a | Again => id end) (heap s).
Proof.
  intros Ht Hmc Ha Hr Hrecv. unfold recv_msg in Hrecv. apply bind_ok_inv in Hrecv as ([m1 o1] & Hrecv & Hfin).
  destruct (alone_run t a mc fin reads s recv_buf m1 o1 Ht eq_refl Hmc Ha Hr Hrecv)
    as (s' & es & Hrun & Hm & Ho & Hf & Hk).
  exists s', es. rewrite Ho. destruct fin; simplify_eq; split_and!; try done;
    [by rewrite app_assoc|by rewrite app_nil_r].
Qed.

(** C19: from the event to the task. As for the acceptor: the events that the
    poller has left behind have become, one for one, tasks that have ended, are
    in or on the way to a worker, are queued or are being pushed. Every event
    of the listening descriptor has become a task of [accept_conn], and every
    other one with the EPOLLIN bit a task of [recv_msg] on its connection
    ([due]); those with neither, errors and hang-ups alone, have become none. *)
Theorem broker_events_become_tasks a q rs s0 ms s es :
  fresh_queue 21 q → result_of (init_mq a q) rs = Ok s0 → brun s0 ms = Some (Ok (s, es)) →
  ∃ handled, reported es = handled ++ rest (poller s)
    ∧ omap (due (this s) (listenfd s)) handled
      ≡ₚ ended (pool_events es) ++ in_flight (wp s) ++ content (q_abs (jq (wp s)))
         ++ pushing (length (workers (wp s))) (q_abs (jq (wp s))).
Proof.
  intros Hq Hs%init_mq_by Hr%machine_run_reach. destruct (breach_inv _ _ _ _ _ _ Hq Hs Hr) as (Hi & Ht & Hl).
  rewrite <-Ht, <-Hl in Hi. destruct Hs as (epfd & lfd & r & ->).
  destruct (poll_conserves _ 20 None 21 q _ _ _ ltac:(unfold int_max; lia) Hq Hi) as (handled & Hh & Htasks).
  exists handled. split; [done|]. rewrite (list_omap_ext _ (task_of (this s) (listenfd s)) handled handled); [done|].
  apply Forall_Forall2_diag, Forall_true. intros ev. symmetry. apply task_of_due.
Qed.

(** C18: the cache of the broker is for nothing. As long as no client sends the
    byte 0x8, whatever the clients do and however the tasks interleave: every
    subscriber has a descriptor, that of one of the connections accepted from
    its address, also when it has hung up; nothing is ever in the cache; and a
    message published by [send] to somebody, if it is the first one that its
    task reads and no other task is at work on the maps, reads past its end. *)
Theorem nothing_cached a q rs s0 ms s es :
  result_of (init_mq a q) rs = Ok s0 → brun s0 ms = Some (Ok (s, es)) → Forall (λ m, ¬ unregisters m) ms →
  (∀ p subs x, relations (mqs s) !! p = Some subs → x ∈ subs → is_Some (fd_addrs (mqs s) !! x))
  ∧ (∀ x fd, fd_addrs (mqs s) !! x = Some fd → (fd, x) ∈ peers_of ms)
  ∧ (∀ x l, cached_msg (mqs s) !! x = Some l → l = [])
  ∧ (∀ t c mc msg subs ptr, let f := publish_frame msg in
       publish_ok msg → heap s !! c = Some mc → relations (mqs s) !! c_addr mc = Some subs → subs ≠ [] →
       task_at t s = Some (c, GotMsg (length f) (f ++ replicate (1024 - length f) NUL)) → alone t s →
       bnext s (Piece t ptr) = Some (Err OutOfBounds)).
Proof.
  intros Hs%init_mq_by Hr%machine_run_reach Hu.
  destruct (breach_tasks _ _ _ _ _ _ Hs Hr Hu) as ((Hrel & Hc & Hf) & _ & _). split_and!; [done..|].
  intros t c mc msg subs ptr f Hm Hmc Hsubs Hne Ht Ha. unfold bnext, piece_step. rewrite Ht. cbn [mbind option_bind].
  rewrite (alone_no_race t _ s Ha). cbn [fst snd]. unfold piece. rewrite Hmc.
  destruct (handle_publish mc msg (mqs s) [] Hm) as (b & Hd & E). unfold f. rewrite E, Hsubs. cbn [default].
  erewrite relay_online; [done|exact Hd| |].
  - rewrite publish_frame_length. assert (length (removelast msg) ≤ length msg)%nat.
    { rewrite removelast_firstn_len, length_firstn. lia. }
    case_decide; lia.
  - destruct subs as [|x subs]; [done|]. apply Exists_cons. left. eapply Hrel; [exact Hsubs|by left].
Qed.
End broker.

(** ** Schedules *)

Definition demo_results : list Z := [3; 0; 0; 0; 0; 4; 0].
Definition demo_broker : bsys :=
  Bsys 100 4 3 {[ 3 := Reg 3 EpollIn false true ]} mqs_new ∅ (PEvents []) (started 20 None (init 21 : @conf task)) ∅ [].
Lemma demo_broker_starts : result_of (init_mq 100 (init 21 : @conf task)) demo_results = Ok demo_broker.
Proof. vm_compute. reflexivity. Qed.
Lemma demo_broker_fresh : fresh_queue 21 (init 21 : @conf task).
Proof. split; [apply init_inv|]. by exists 2000. Qed.

(** An event of descriptor [fd] becomes a task, that worker [t] begins. *)
Definition task_begins (fd : Z) (t : nat) : list bmove :=
  [Wait [(fd, 1)]; Poll] ++ map Pool (push_moves 20) ++ map Pool (begin_moves t).
(** Two clients connect. *)
Definition clients_connect : list bmove :=
  task_begins 3 0 ++ [Accept 0 (Some (7, bs "10.0.0.1")); Piece 0 4096; Accept 0 (Some (8, bs "10.0.0.2"));
                      Piece 0 8192; Accept 0 None].
Definition publisher_registers : bytes := [x02; x02].

Definition race_moves : list bmove :=
  clients_connect ++ task_begins 7 1 ++ task_begins 8 2
  ++ [Read 1 (Data publisher_registers); Read 2 (Data publisher_registers); Piece 1 0].
Definition deleted_moves : list bmove :=
  clients_connect ++ task_begins 7 1 ++ task_begins 7 2 ++ [Read 1 ReadEof; Read 2 ReadAgain].

(** What the broker does not protect. Two publishers that register at the
    same time append to one vector without a lock; and as connections are
    registered without EPOLLONESHOT, two tasks have one connection, and one of
    them goes on with it when the other has deleted it. *)
Theorem broker_unprotected :
  brun demo_broker race_moves = Some (Err DataRace)
  ∧ brun demo_broker deleted_moves = Some (Err UseAfterFree).
Proof. vm_compute. done. Qed.

(** ** Witnesses *)

(** The first client registers as a publisher, the second one subscribes to it
    and hangs up, and the first one publishes. *)
Definition subscribe_frame : bytes := x04 :: bs "10.0.0.1" ++ [NUL].
Definition served_moves : list bmove :=
  clients_connect ++ task_begins 7 1 ++ [Read 1 (Data publisher_registers); Piece 1 0]
  ++ task_begins 8 2 ++ [Read 2 (Data subscribe_frame); Piece 2 0; Read 2 ReadEof; Read 1 ReadAgain]
  ++ task_begins 7 3 ++ [Read 3 (Data (publish_frame (bs "hi")))].
Definition served : bsys * list bevent :=
  match brun demo_broker served_moves with Some (Ok r) => r | _ => (demo_broker, []) end.
Lemma served_runs : brun demo_broker served_moves = Some (Ok (served.1, served.2)).
Proof. vm_compute. reflexivity. Qed.

Lemma broker_events_become_tasks_witness :
  reported served.2 = [Ev 1 3; Ev 1 4096; Ev 1 8192; Ev 1 4096]
  ∧ ∃ handled, reported served.2 = handled ++ rest (poller served.1)
    ∧ omap (due (this served.1) (listenfd served.1)) handled
      ≡ₚ ended (pool_events served.2) ++ in_flight (wp served.1) ++ content (q_abs (jq (wp served.1)))
         ++ pushing (length (workers (wp served.1))) (q_abs (jq (wp served.1))).
Proof.
  split; [vm_compute; reflexivity|].
  apply (broker_events_become_tasks 100 (init 21) demo_results demo_broker served_moves);
    [apply demo_broker_fresh|apply demo_broker_starts|apply served_runs].
Defined.

Lemma served_quiet : Forall (λ m, ¬ unregisters m) served_moves.
Proof. repeat (constructor; [intros H; vm_compute in H; done|]). constructor. Qed.

Lemma hi_ok : publish_ok (bs "hi").
Proof. split_and!; [by apply no_nul_dec; vm_compute|vm_compute; set_solver|vm_compute; lia]. Qed.
Lemma served_alone : alone 3 served.1.
Proof. apply idle_but_alone; vm_compute; reflexivity. Qed.

Lemma nothing_cached_witness :
  (relations (mqs served.1) = {[ bs "10.0.0.1" := [bs "10.0.0.2"] ]} ∧ dom (heap served.1) = {[ 4096 ]})
  ∧ (∀ x l, cached_msg (mqs served.1) !! x = Some l → l = [])
  ∧ bnext served.1 (Piece 3 0) = Some (Err OutOfBounds).
Proof.
  destruct (nothing_cached 100 (init 21) demo_results demo_broker served_moves served.1 served.2
              demo_broker_starts served_runs served_quiet) as (_ & _ & Hc & Hp).
  split; [split; vm_compute; reflexivity|]. split; [exact Hc|].
  apply (Hp 3%nat 4096 (MqConn 7 4 (bs "10.0.0.1")) (bs "hi") [bs "10.0.0.2"] 0).
  - apply hi_ok.
  - vm_compute; reflexivity.
  - vm_compute; reflexivity.
  - done.
  - vm_compute; reflexivity.
  - apply served_alone.
Defined.

(** The task of a worker that reads twice and then the end of the stream. *)
Definition alone_state : bsys :=
  match brun demo_broker (clients_connect ++ task_begins 7 1) with Some (Ok r) => r.1 | _ => demo_broker end.

Lemma task_alone_is_recv_msg_witness :
  ∃ s' es, brun alone_state (alone_moves 1 [publisher_registers; subscribe_frame] Eof) = Some (Ok (s', es))
    ∧ mqs s' = Mqs {[ bs "10.0.0.1" := [bs "10.0.0.1"] ]} [bs "10.0.0.1"] (fd_addrs (mqs alone_state)) ∅
    ∧ frames s' !! 1%nat = None
    ∧ out alone_state ++ [EpollDel 7; Close 7; Delete (MqConn 7 4 (bs "10.0.0.1"))]
      = out s' ++ [EpollDel 7; Close 7; Delete (MqConn 7 4 (bs "10.0.0.1"))]
    ∧ heap s' = delete 4096 (heap alone_state).
Proof.
  apply (task_alone_is_recv_msg 1 4096 (MqConn 7 4 (bs "10.0.0.1")) Eof [publisher_registers; subscribe_frame]);
    [vm_compute; reflexivity..| | |vm_compute; reflexivity].
  - apply idle_but_alone; vm_compute; reflexivity.
  - repeat constructor; vm_compute; lia.
Defined.
