(* ===== verification/BrokerOrder.v ===== *)
(** * The tasks of the broker commute

    In Broker.v a task works on the maps of the server in one step, from a
    [read] to the next, and two tasks that are there at the same time are a data
    race if one changes what the other touches.  Here it is proved that this is
    fine: what [touched] lists is all that the handling of a message reads and
    changes, so that two pieces that do not race can be made in either order,
    with the same answers, the same maps and the same races with others. *)

From S2P Require Import Prelude Sys JobQueue WorkerPool Poller Buffer MqDef MqClient MqServer Net Broker.
Open Scope Z_scope.

(** ** The containers of a server *)

Definition has (c : container) (l : list container) : bool := existsb (λ d, bool_decide (c = d)) l.

(** The containers of [l] from [m], the others from [s]. *)
Definition over (l : list container) (m s : message_queue_server) : message_queue_server :=
  Mqs (if has Relations l then relations m else relations s) (if has Publishers l then publishers m else publishers s)
      (if has FdAddrs l then fd_addrs m else fd_addrs s) (if has Cached l then cached_msg m else cached_msg s).
(** [s] and [s'] are the same on [l]. *)
Definition agree (l : list container) (s s' : message_queue_server) : Prop := over l s s' = s'.

Lemma has_spec c l : has c l = true ↔ c ∈ l.
Proof.
  unfold has. rewrite existsb_exists. split.
  - intros (d & Hd & ->%bool_decide_eq_true). by apply list_elem_of_In.
  - intros Hc%list_elem_of_In. exists c. split; [done|]. by apply bool_decide_eq_true.
Qed.

(** ** What the handling of a message touches *)

Lemma relay_over fd b n subs o : ∀ r p r' p' f c,
  relay fd b n subs (Mqs r' p' f c) o
  = ('(m, o) ← relay fd b n subs (Mqs r p f c) o; Ok (Mqs r' p' (fd_addrs m) (cached_msg m), o)).
Proof.
  revert o; induction subs as [|x subs IH]; intros o r p r' p' f c; simpl; [done|].
  destruct (f !! x); destruct (decode_mq_msg b) as [m| |]; simpl; try done.
  - destruct (write_str fd m n); simpl; [|done..]. apply IH.
  - apply IH.
Qed.

Lemma relay_same fd b n subs o : ∀ s m o',
  relay fd b n subs s o = Ok (m, o') → relations m = relations s ∧ publishers m = publishers s ∧ fd_addrs m = fd_addrs s.
Proof.
  revert o; induction subs as [|x subs IH]; intros o s m o' H; simpl in H; [by simplify_eq|].
  destruct (fd_addrs s !! x); destruct (decode_mq_msg b) as [d| |]; simpl in H; try done.
  - destruct (write_str fd d n); simpl in H; [|done..]. apply IH in H as (-> & -> & ->). done.
  - apply IH in H as (-> & -> & ->). done.
Qed.

(** A message 0x1. *)
Lemma publish_touched mc buf n s s' o :
  buf !! 0%nat = Some x01 → agree (touched mc buf n s) s s' →
  touched mc buf n s' = touched mc buf n s
  ∧ handle_msg mc buf n s' o = ('(m, o) ← handle_msg mc buf n s o; Ok (over (touched mc buf n s) m s', o)).
Proof.
  intros Hk. unfold touched, handle_msg, get. rewrite Hk, !bind_ok. rewrite !decide_True by done.
  destruct s as [r p f c], s' as [r' p' f' c'].
  destruct (check_msg_crc buf n) as [[]| |]; [|by intros ?..]. rewrite !bind_ok. cbn [relations].
  intros Ha. assert (r' = r) as -> by by injection Ha.
  destruct (encode_mq_msg buf) as [b| |]; cbn [mbind outcome_bind]; [|done..].
  destruct (decode_mq_msg b) as [d| |]; cbn [mbind outcome_bind]; [|done..]. split; [done|].
  destruct (r !! c_addr mc) as [[|x subs]|] eqn:Hr; [done| |done]. injection Ha as <- <-.
  unfold set_relations. cbn [relations publishers fd_addrs cached_msg]. rewrite (relay_over _ _ _ _ _ (map_touch (c_addr mc) r) p).
  destruct (relay _ _ _ _ (Mqs _ p f c) o) as [[m o']| |] eqn:E; [|done..]. cbn.
  apply relay_same in E as (E & _ & _). unfold over. cbn. by rewrite E.
Qed.

Lemma handle_touched mc buf n s s' o :
  agree (touched mc buf n s) s s' →
  touched mc buf n s' = touched mc buf n s
  ∧ handle_msg mc buf n s' o = ('(m, o) ← handle_msg mc buf n s o; Ok (over (touched mc buf n s) m s', o)).
Proof.
  destruct (buf !! 0%nat) as [k|] eqn:Hk; [|unfold touched, handle_msg, get; by rewrite Hk].
  destruct (decide (k = x01)) as [->|N1]; [by apply publish_touched|]. unfold touched, handle_msg, get.
  rewrite Hk, !bind_ok, !(decide_False (P := k = x01)) by done. destruct s as [r p f c], s' as [r' p' f' c'].
  destruct (decide (k = x02)); [|destruct (decide (k = x04)); [|destruct (decide (k = x08))]].
  - intros [= <- <-]. done.
  - cbn [fd_addrs set_fd_addrs]. intros Ha. assert (f' = f) as ->.
    { revert Ha. destruct (n ← copy_name buf n; cstr n 0); by intros [= ]. }
    destruct (copy_name buf n) as [nm| |]; cbn [mbind outcome_bind] in *; [|done..].
    destruct (cstr nm 0) as [name| |]; cbn [mbind outcome_bind] in *; [|done..]. cbn [fd_addrs].
    destruct (map_insert (c_addr mc) (c_fd mc) f !! name) eqn:Hf; cbn in *.
    + rewrite decide_True in * by eauto. injection Ha as ->. done.
    + rewrite decide_False in * by (by intros []). done.
  - intros [= <- <-]. cbn. split; [done|]. destruct (map_erase_found _ f); cbn; [|done..]. by destruct (map_erase_found _ r).
  - intros _. split; [done|]. destruct (decide (k = x16)); [|done]. by destruct (copy_name buf n).
Qed.

(** Nothing else is changed. *)
Lemma handle_changed mc buf n s o m o' :
  handle_msg mc buf n s o = Ok (m, o') → over (touched mc buf n s) m s = m.
Proof.
  destruct s as [r p f c]. unfold touched, handle_msg, get. destruct (buf !! 0%nat) as [k|]; [|done]. rewrite bind_ok.
  destruct (decide (k = x01)); [|destruct (decide (k = x02)); [|destruct (decide (k = x04)); [|destruct (decide (k = x08))]]].
  - destruct (check_msg_crc buf n) as [[]| |]; [|by intros [= <- _]|done..]. rewrite bind_ok. intros H. ok_inv. cbn [relations] in *.
    destruct (r !! c_addr mc) as [[|x subs]|] eqn:Hr; [by injection H as <- _| |by injection H as <- _].
    apply relay_same in H as (R1 & R2 & R3). destruct m. cbn in *. by subst.
  - by intros [= <- _].
  - intros H. apply bind_ok_inv in H as (nm & Hn & H). apply bind_ok_inv in H as (name & Hc & H). rewrite Hn, bind_ok, Hc.
    cbn [fd_addrs set_fd_addrs] in *. destruct (map_insert (c_addr mc) (c_fd mc) f !! name) eqn:Hf; injection H as <- _.
    + by rewrite decide_True by eauto.
    + by rewrite decide_False by (by intros []).
  - intros H. ok_inv. done.
  - destruct (decide (k = x16)); intros H; ok_inv; by simplify_eq.
Qed.

(** ** Changes that leave something alone *)

Lemma meets_false l1 l2 : meets l1 l2 = false → ∀ c, c ∈ l1 → c ∉ l2.
Proof.
  intros H c H1 H2. unfold meets in H. apply not_true_iff_false in H. apply H. apply existsb_exists.
  exists c. split; [by apply list_elem_of_In|]. by apply bool_decide_eq_true.
Qed.

(** One container of two states. *)
Definition same_on (c : container) (s s' : message_queue_server) : Prop :=
  match c with
  | Relations => relations s = relations s'
  | Publishers => publishers s = publishers s'
  | FdAddrs => fd_addrs s = fd_addrs s'
  | Cached => cached_msg s = cached_msg s'
  end.

Lemma changed_spec c s m : c ∈ changed s m ↔ ¬ same_on c s m.
Proof.
  unfold changed. rewrite !elem_of_app. destruct c; cbn; repeat case_decide; set_solver.
Qed.
Lemma unchanged c s m : c ∉ changed s m → same_on c s m.
Proof. intros H. destruct (decide (c ∈ changed s m)); [done|]. rewrite changed_spec in H. destruct c; cbn in *; by apply dec_stable. Qed.

Lemma server_eq (s s' : message_queue_server) : (∀ c, same_on c s s') → s = s'.
Proof.
  intros H. pose proof (H Relations). pose proof (H Publishers). pose proof (H FdAddrs). pose proof (H Cached).
  destruct s, s'. cbn in *. by subst.
Qed.
Lemma over_in c l m s : c ∈ l → same_on c (over l m s) m.
Proof. intros H%has_spec. by destruct c; cbn; rewrite H. Qed.
Lemma over_out c l m s : c ∉ l → same_on c (over l m s) s.
Proof. intros H. assert (has c l = false) as E by (apply not_true_iff_false; by rewrite has_spec). by destruct c; cbn; rewrite E. Qed.
Lemma same_on_sym c s s' : same_on c s s' → same_on c s' s.
Proof. by destruct c. Qed.
Lemma same_on_trans c s1 s2 s3 : same_on c s1 s2 → same_on c s2 s3 → same_on c s1 s3.
Proof. destruct c; cbn; congruence. Qed.

Lemma agree_spec l s s' : agree l s s' ↔ ∀ c, c ∈ l → same_on c s s'.
Proof.
  unfold agree. split.
  - intros E c Hc. eapply same_on_trans; [apply same_on_sym, (over_in c l s s' Hc)|]. rewrite E. by destruct c.
  - intros H. apply server_eq. intros c. destruct (decide (c ∈ l)) as [Hc|Hc]; [|by apply over_out].
    eapply same_on_trans; [by apply over_in|auto].
Qed.

(** What is not touched is not changed. *)
Lemma no_change l s m : over l m s = m → ∀ c, c ∉ l → same_on c s m.
Proof. intros E c Hc. rewrite <-E. by apply same_on_sym, over_out. Qed.

(** The changes of a piece that is made behind another one. *)
Lemma changed_over l s m s' : over l m s = m → agree l s s' → changed s' (over l m s') = changed s m.
Proof.
  intros Em Ha. assert (∀ c, same_on c s' (over l m s') ↔ same_on c s m) as H.
  { intros c. destruct (decide (c ∈ l)) as [Hc|Hc].
    - rewrite agree_spec in Ha. specialize (Ha _ Hc). pose proof (over_in c l m s' Hc) as Ho.
      split; intros Hs.
      + eapply same_on_trans; [done|]. by eapply same_on_trans.
      + eapply same_on_trans; [by apply same_on_sym|]. eapply same_on_trans; [done|by apply same_on_sym].
    - split; intros _; [by eapply no_change|]. by apply same_on_sym, over_out. }
  pose proof (H Relations). pose proof (H Publishers). pose proof (H FdAddrs). pose proof (H Cached). cbn in *.
  unfold changed. repeat f_equal; by repeat case_decide; tauto.
Qed.

(** Two changes, each outside of what the other one touches, in either order. *)
Lemma over_comm l1 l2 s m1 m2 :
  over l1 m1 s = m1 → over l2 m2 s = m2 → agree l2 s m1 → agree l1 s m2 → over l2 m2 m1 = over l1 m1 m2.
Proof.
  intros E1 E2 A1 A2. apply server_eq. intros c. rewrite agree_spec in A1, A2.
  pose proof (no_change _ _ _ E1 c) as N1. pose proof (no_change _ _ _ E2 c) as N2.
  pose proof (over_in c l2 m2 m1). pose proof (over_out c l2 m2 m1). pose proof (over_in c l1 m1 m2). pose proof (over_out c l1 m1 m2).
  specialize (A1 c). specialize (A2 c).
  destruct (decide (c ∈ l1)), (decide (c ∈ l2)); destruct c; cbn in *; intuition congruence.
Qed.

(** ** Pieces *)

Section pieces.
Context {Q : Type} `{!AtomicQueue (A := task) Q}.
Abbreviation bsys := (@bsys Q).
Implicit Types s : bsys.

Lemma piece_touched a fr s s' :
  heap s' = heap s → agree (touches a fr s) (mqs s) (mqs s') →
  touches a fr s' = touches a fr s
  ∧ piece a fr s' = ('(m, o) ← piece a fr s; Ok (over (touches a fr s) m (mqs s'), o)).
Proof.
  intros Hh Ha. unfold touches, piece in *. rewrite Hh. destruct fr as [buf|n buf| |sock addr].
  - split; [done|]. cbn. by destruct (mqs s').
  - destruct (heap s !! a) as [mc|]; [|done]. by apply handle_touched.
  - split; [done|]. cbn. by destruct (mqs s').
  - split; [done|]. unfold agree, over in Ha. cbn in Ha. destruct (mqs s'), (mqs s). cbn in *. by injection Ha as ->.
Qed.

Lemma piece_changed a fr s m o : piece a fr s = Ok (m, o) → over (touches a fr s) m (mqs s) = m.
Proof.
  unfold piece, touches. destruct fr as [buf|n buf| |sock addr]; [intros [= <- _]; by destruct (mqs s)| | |].
  - destruct (heap s !! a) as [mc|]; [|done]. apply handle_changed.
  - intros [= <- _]. by destruct (mqs s).
  - by intros [= <- _].
Qed.

Lemma changes_touched a fr s s' :
  heap s' = heap s → agree (touches a fr s) (mqs s) (mqs s') → changes a fr s' = changes a fr s.
Proof.
  intros Hh Ha. destruct (piece_touched a fr s s' Hh Ha) as [_ Hp]. unfold changes. rewrite Hp.
  destruct (piece a fr s) as [[m o]| |] eqn:E; [|done..]. cbn. apply changed_over; [by eapply piece_changed|done].
Qed.

(** No conflict: neither changes what the other touches. *)
Lemma no_conflict x y s m o :
  conflict x y s = false → piece x.1 x.2 s = Ok (m, o) → agree (touches y.1 y.2 s) (mqs s) m.
Proof.
  intros [H _]%orb_false_iff Hp. unfold changes in H. rewrite Hp in H. apply agree_spec. intros c Hc.
  apply unchanged. intros Hin. by eapply meets_false.
Qed.

Lemma conflict_sym x y s : conflict x y s = conflict y x s.
Proof. apply orb_comm. Qed.

Lemma races_false t x s :
  races t x s = false ↔ ∀ u y, u ≠ t → task_at u s = Some y → conflict x y s = false.
Proof.
  unfold races. split.
  - intros H u y Hu Ht. apply not_true_iff_false. intros Hc. apply not_true_iff_false in H. apply H. apply existsb_exists.
    exists u. split.
    + apply in_seq. split; [lia|]. cbn. unfold task_at in Ht. apply lookup_lt_is_Some.
      destruct (workers (wp s) !! u); [by eexists|done].
    + rewrite Ht, Hc, andb_true_r. by apply negb_true_iff, Nat.eqb_neq.
  - intros H. apply not_true_iff_false. rewrite existsb_exists. intros (u & _ & Hu).
    destruct (task_at u s) as [y|] eqn:Ht; [|done]. apply andb_true_iff in Hu as [Hu Hc].
    apply negb_true_iff, Nat.eqb_neq in Hu. by rewrite (H u y) in Hc.
Qed.

(** ** One message after another *)

(** What a piece of worker [t] for a message leaves. *)
Definition after (t : nat) (buf : bytes) (m : message_queue_server) (o : list io) (s : bsys) : bsys :=
  set_frames (<[t := AtRead buf]> (frames s)) (set_mqs m o s).

Lemma piece_step_message t p s s' a n buf :
  task_at t s = Some (a, GotMsg n buf) → bnext s (Piece t p) = Some (Ok (s', Quiet)) →
  races t (a, GotMsg n buf) s = false
  ∧ ∃ m o, piece a (GotMsg n buf) s = Ok (m, o) ∧ s' = after t buf m o s.
Proof.
  intros Ht H. simpl in H. unfold piece_step in H. rewrite Ht in H. cbn [mbind option_bind fst snd] in H.
  destruct (races t _ s); [done|]. split; [done|]. destruct (piece a _ s) as [[m o]| |]; [|done..].
  exists m, o. split; [done|]. by simplify_eq/=.
Qed.

Lemma piece_step_makes t p s a n buf m o :
  task_at t s = Some (a, GotMsg n buf) → races t (a, GotMsg n buf) s = false → piece a (GotMsg n buf) s = Ok (m, o) →
  bnext s (Piece t p) = Some (Ok (after t buf m o s, Quiet)).
Proof.
  intros Ht Hr Hp. simpl. unfold piece_step. rewrite Ht. cbn [mbind option_bind fst snd]. by rewrite Hr, Hp.
Qed.

Lemma task_at_after t buf m o s a fr u :
  task_at t s = Some (a, fr) →
  task_at u (after t buf m o s) = if decide (u = t) then Some (a, AtRead buf) else task_at u s.
Proof.
  intros Ht. case_decide as Hu; [subst; by eapply (task_at_insert t a _ _ s)|]. by eapply (task_at_frames t u _ s).
Qed.

(** A race-free piece does not change the races of the others. *)
Lemma races_after t u buf m o s a n y :
  task_at t s = Some (a, GotMsg n buf) → races t (a, GotMsg n buf) s = false → piece a (GotMsg n buf) s = Ok (m, o) →
  task_at u s = Some y → u ≠ t → races u y s = false → races u y (after t buf m o s) = false.
Proof.
  intros Ht Hrt Hp Hu Hut Hru. rewrite races_false in *. intros v z Hv. rewrite (task_at_after _ _ _ _ _ _ _ _ Ht).
  assert (∀ w x, w ≠ t → task_at w s = Some x → agree (touches x.1 x.2 s) (mqs s) m) as Hag.
  { intros w x Hw Hx. eapply (no_conflict (a, GotMsg n buf)); [by eapply Hrt|done]. }
  case_decide as Hvt.
  - intros [= <-]. unfold conflict, changes at 2. cbn. rewrite changed_same. cbn. rewrite orb_false_r.
    unfold meets. apply not_true_iff_false. rewrite existsb_exists. intros (c & _ & Hc%bool_decide_eq_true). set_solver.
  - intros Hz. pose proof (Hag _ _ Hut Hu) as Ay. pose proof (Hag _ _ Hvt Hz) as Az. rewrite <-(Hru v z Hv Hz).
    unfold conflict. rewrite !(changes_touched _ _ s (after t buf m o s)) by done.
    by destruct (piece_touched y.1 y.2 s (after t buf m o s) eq_refl Ay) as [-> _],
      (piece_touched z.1 z.2 s (after t buf m o s) eq_refl Az) as [-> _].
Qed.

Definition without_out (s : bsys) : bsys :=
  Bsys (this s) (epfd s) (listenfd s) (regs s) (mqs s) (heap s) (poller s) (wp s) (frames s) [].

(** ** Properties *)

(** C21: the tasks of the broker commute. When two workers have each received a
    message and either could handle it now, without a data race, then each can
    still do so after the other, and the two orders lead to the same state, up
    to the order of the answers that are written: each task writes the same in
    both. No worker gets into a race, or out of one, by the order. *)
Theorem messages_commute t u p p' a b n1 n2 buf1 buf2 s s1 s2 :
  t ≠ u → task_at t s = Some (a, GotMsg n1 buf1) → task_at u s = Some (b, GotMsg n2 buf2) →
  bnext s (Piece t p) = Some (Ok (s1, Quiet)) → bnext s (Piece u p') = Some (Ok (s2, Quiet)) →
  ∃ s12 s21 o1 o2,
    bnext s1 (Piece u p') = Some (Ok (s12, Quiet)) ∧ bnext s2 (Piece t p) = Some (Ok (s21, Quiet))
    ∧ without_out s12 = without_out s21 ∧ out s12 = out s ++ o1 ++ o2 ∧ out s21 = out s ++ o2 ++ o1.
Proof.
  intros Htu Ht Hu H1 H2. apply (piece_step_message _ _ _ _ _ _ _ Ht) in H1 as (R1 & m1 & o1 & P1 & ->).
  apply (piece_step_message _ _ _ _ _ _ _ Hu) in H2 as (R2 & m2 & o2 & P2 & ->).
  assert (conflict (a, GotMsg n1 buf1) (b, GotMsg n2 buf2) s = false) as C12.
  { rewrite races_false in R1. by apply (R1 u). }
  pose proof (no_conflict _ _ _ _ _ C12 P1) as A2. rewrite conflict_sym in C12. pose proof (no_conflict _ _ _ _ _ C12 P2) as A1.
  cbn [fst snd] in A1, A2.
  assert (piece b (GotMsg n2 buf2) (after t buf1 m1 o1 s) = Ok (over (touches b (GotMsg n2 buf2) s) m2 m1, o2)) as Q2.
  { destruct (piece_touched _ _ s (after t buf1 m1 o1 s) eq_refl A2) as [_ ->]. by rewrite P2. }
  assert (piece a (GotMsg n1 buf1) (after u buf2 m2 o2 s) = Ok (over (touches a (GotMsg n1 buf1) s) m1 m2, o1)) as Q1.
  { destruct (piece_touched _ _ s (after u buf2 m2 o2 s) eq_refl A1) as [_ ->]. by rewrite P1. }
  pose proof (over_comm _ _ (mqs s) m1 m2 (piece_changed _ _ _ _ _ P1) (piece_changed _ _ _ _ _ P2) A2 A1) as Hm.
  eexists _, _, o1, o2. split_and!.
  - eapply piece_step_makes; [|by eapply races_after|exact Q2]. by rewrite (task_at_after _ _ _ _ _ _ _ _ Ht), decide_False.
  - eapply piece_step_makes; [|by eapply races_after|exact Q1]. by rewrite (task_at_after _ _ _ _ _ _ _ _ Hu), decide_False.
  - unfold without_out, after. cbn -[over touches]. rewrite Hm. by rewrite insert_insert_ne.
  - unfold after. cbn. by rewrite app_assoc.
  - unfold after. cbn. by rewrite app_assoc.
Qed.
End pieces.

(** ** Witness *)

(** The first client registers as a publisher while the second one subscribes to
    it: one appends to [publishers], the other one adds to [relations], and both
    read [fd_addrs]. *)
Definition two_messages : @bsys (@conf task) :=
  match brun demo_broker (clients_connect ++ task_begins 7 1 ++ task_begins 8 2
                          ++ [Read 1 (Data publisher_registers); Read 2 (Data subscribe_frame)]) with
  | Some (Ok r) => r.1 | _ => demo_broker end.
Definition then_ (t : nat) (s : @bsys (@conf task)) : @bsys (@conf task) :=
  match bnext s (Piece t 0) with Some (Ok (s, _)) => s | _ => s end.
Definition buf_of (t : nat) (s : @bsys (@conf task)) : bytes :=
  match task_at t s with Some (_, GotMsg _ buf) => buf | _ => [] end.

Lemma messages_commute_witness :
  publishers (mqs (then_ 1 two_messages)) = [bs "10.0.0.1"]
  ∧ relations (mqs (then_ 2 two_messages)) = {[ bs "10.0.0.1" := [bs "10.0.0.2"] ]}
  ∧ ∃ s12 s21 o1 o2,
    bnext (then_ 1 two_messages) (Piece 2 0) = Some (Ok (s12, Quiet))
    ∧ bnext (then_ 2 two_messages) (Piece 1 0) = Some (Ok (s21, Quiet))
    ∧ without_out s12 = without_out s21 ∧ out s12 = out two_messages ++ o1 ++ o2
    ∧ out s21 = out two_messages ++ o2 ++ o1.
Proof.
  split; [vm_compute; reflexivity|]. split; [vm_compute; reflexivity|].
  apply (messages_commute 1 2 0 0 4096 8192 2 10 (buf_of 1 two_messages) (buf_of 2 two_messages) two_messages);
    [done|vm_compute; reflexivity..].
Defined.
