(* ===== verification/BrokerAnswers.v ===== *)
(** * To whom the running broker writes

    The broker is there to hand on what publishers send to those who have
    subscribed.  The file proves for the machine of Broker.v, whatever clients,
    poller and workers do, that it answers nobody but publishers. *)

From S2P Require Import Prelude Sys JobQueue WorkerPool Poller MqDef MqClient MqServer Broker.
Open Scope Z_scope.

(** ** One message *)

(** Nothing is written but for a message 0x1 to somebody, and then to its
    sender. *)
Lemma handle_msg_writes mc buf n s s' out fd d :
  handle_msg mc buf n s [] = Ok (s', out) → Write fd d ∈ out →
  fd = c_fd mc ∧ buf !! 0%nat = Some x01 ∧ default [] (relations s !! c_addr mc) ≠ [].
Proof.
  intros H Hin. destruct (handle_msg_effects _ _ _ _ _ _ _ H) as [Hfd _]; [by intros ?? ?%not_elem_of_nil|].
  split; [by eapply Hfd|]. unfold handle_msg, get in H. destruct (buf !! 0%nat) as [k|]; [|done]. rewrite bind_ok in H.
  assert (∀ (s1 : message_queue_server), Ok (s1, []) = Ok (s', out) → False) as Hno.
  { intros s1 [= _ <-]. by apply not_elem_of_nil in Hin. }
  case_decide as Hk; [subst; split; [done|]|exfalso]; ok_inv.
  - destruct (_ : bool); [|exfalso; by eapply Hno]. ok_inv. intros E. rewrite E in H. simpl in H. by eapply Hno.
  - repeat case_decide; ok_inv; try case_match; ok_inv; by eapply Hno.
Qed.

Section answers.
Context {Q : Type} `{!AtomicQueue (A := task) Q}.
Abbreviation bsys := (@bsys Q).
Implicit Types s : bsys.

(** The work of [m] in [s]: a message of connection [mc] in [buf]. *)
Definition handles (s : bsys) (m : bmove) (mc : mq_conn) (buf : bytes) : Prop :=
  ∃ t ptr c n, m = Piece t ptr ∧ task_at t s = Some (c, GotMsg n buf) ∧ heap s !! c = Some mc.

(** Output and maps after a move. *)
Definition answers (s : bsys) (m : bmove) (s' : bsys) : Prop :=
  caches_grow (mqs s) (mqs s')
  ∧ ∃ o, out s' = out s ++ o
    ∧ ∀ fd d, Write fd d ∈ o → ∃ mc buf, handles s m mc buf ∧ fd = c_fd mc ∧ buf !! 0%nat = Some x01
        ∧ default [] (relations (mqs s) !! c_addr mc) ≠ [].

Lemma answers_nothing s m s' : cached_msg (mqs s) = cached_msg (mqs s') → out s' = out s → answers s m s'.
Proof. intros Hm Ho. split; [by apply caches_grow_same|]. exists []. split; [by rewrite app_nil_r|]. by intros fd d ?%not_elem_of_nil. Qed.

Lemma piece_step_answers t ptr s s' : piece_step t ptr s = Some (Ok s') → answers s (Piece t ptr) s'.
Proof.
  intros H. unfold piece_step in H. apply bind_Some in H as ([c fr] & Ht & H). destruct (races _ _ _); [done|].
  destruct fr as [|n buf| |sock addr]; try done; cbn [fst snd] in H.
  - apply (inj Some) in H. apply bind_ok_inv in H as ([m o] & Hp & [= <-]). unfold piece in Hp.
    destruct (heap s !! c) as [mc|] eqn:Hc; [|done].
    split; [by apply (handle_msg_effects _ _ _ _ _ _ _ Hp); intros ?? ?%not_elem_of_nil|].
    exists o. split; [done|]. intros fd d Hin. exists mc, buf. split; [by exists t, ptr, c, n|].
    by eapply handle_msg_writes.
  - destruct (heap s !! ptr); [done|]. apply (inj Some) in H. cbn in H. injection H as <-.
    apply answers_nothing; cbn; [done|by rewrite app_nil_r].
Qed.

Lemma step_answers s m s' e : bnext s m = Some (Ok (s', e)) → answers s m s'.
Proof.
  intros Hn. destruct m as [ready| |m|t r|t peer|t ptr]; simpl in Hn.
  - destruct (poller s) as [[|]|]; try done. case_decide; [|done].
    apply bind_Some in Hn as ([r evs] & _ & [= <- <-]). by apply answers_nothing.
  - apply bind_Some in Hn as ([s1 e1] & H & [= <- <-]). unfold poll_step in H.
    destruct (poller s) as [[|ev evs]|]; try done. case_match; [|by simplify_eq; apply answers_nothing].
    apply bind_Some in H as ([w pe] & _ & [= <- <-]). by apply answers_nothing.
  - apply bind_Some in Hn as ([s1 e1] & H & [= <- <-]). unfold pool_move in H.
    apply bind_Some in H as ([[[w fs] b] pe] & _ & [= <- <-]).
    destruct (poller s); [by apply answers_nothing|]. destruct b; by apply answers_nothing.
  - apply bind_Some in Hn as (x & H & He). destruct x as [s1| |]; simplify_eq/=. unfold read_step in H.
    apply bind_Some in H as ([a fr] & _ & H). repeat (case_match; try done); simplify_eq; try by apply answers_nothing.
    by ok_inv; apply answers_nothing.
  - apply bind_Some in Hn as (x & H & [= <- <-]). unfold accept_step in H.
    apply bind_Some in H as ([a fr] & _ & H). repeat (case_match; try done); simplify_eq; by apply answers_nothing.
  - apply bind_Some in Hn as (x & H & He). destruct x as [s1| |]; simplify_eq/=. by apply piece_step_answers.
Qed.

(** ** Property *)

(** C20: the broker never delivers. Whatever clients, poller and workers do:
    everything that is ever written answers a message 0x1 that a task handles,
    and goes to the descriptor of the connection that the message came by, if
    anybody has subscribed to its address: publications go back to their
    publishers, and a client that has not sent 0x1 is sent nothing. And what is
    in a cache once is in it for ever. *)
Theorem broker_never_delivers a q rs s0 ms s es :
  result_of (init_mq a q) rs = Ok s0 → brun s0 ms = Some (Ok (s, es)) →
  (∀ fd d, Write fd d ∈ out s → ∃ ms1 m ms2 s1 es1 mc buf,
     ms = ms1 ++ m :: ms2 ∧ brun s0 ms1 = Some (Ok (s1, es1)) ∧ handles s1 m mc buf
     ∧ fd = c_fd mc ∧ buf !! 0%nat = Some x01 ∧ default [] (relations (mqs s1) !! c_addr mc) ≠ [])
  ∧ ∀ ms' s' es', brun s ms' = Some (Ok (s', es')) → caches_grow (mqs s) (mqs s').
Proof.
  intros Hs%init_mq_by Hr%machine_run_reach. split.
  - assert (out s0 = []) as H0 by (by destruct Hs as (epfd & lfd & r & ->)). clear Hs.
    induction Hr as [|ms s es m s' e Hr IH Hn]; intros fd d; [rewrite H0; by intros ?%not_elem_of_nil|].
    destruct (step_answers _ _ _ _ Hn) as (_ & o & -> & Ho). intros [Hin|Hin]%elem_of_app.
    + destruct (IH fd d Hin) as (ms1 & m1 & ms2 & s1 & es1 & mc & buf & -> & H).
      exists ms1, m1, (ms2 ++ [m]), s1, es1, mc, buf. by rewrite <-app_assoc.
    + destruct (Ho fd d Hin) as (mc & buf & H). exists ms, m, [], s, es, mc, buf.
      split; [done|]. split; [by apply machine_reach_is_run|done].
  - intros ms' s' es' Hr'%machine_run_reach. clear Hr. induction Hr' as [|ms' s1 es1 m s' e _ IH Hn]; [done|].
    etrans; [exact IH|]. by destruct (step_answers _ _ _ _ Hn).
Qed.
End answers.

(** ** Witness *)

(** The first client registers, the second one subscribes to it; the first one
    sends something, and then publishes. *)
Definition answered_moves : list bmove :=
  clients_connect ++ task_begins 7 1 ++ [Read 1 (Data publisher_registers); Piece 1 0]
  ++ task_begins 8 2 ++ [Read 2 (Data subscribe_frame); Piece 2 0; Read 2 ReadAgain]
  ++ [Read 1 (Data (nth 0 stale_reads [])); Piece 1 0; Read 1 (Data (publish_frame (bs "hi"))); Piece 1 0].
Definition answered : @bsys (@conf task) * list bevent :=
  match brun demo_broker answered_moves with Some (Ok r) => r | _ => (demo_broker, []) end.

Lemma broker_never_delivers_witness :
  let text := bs "hi" ++ [to_char 210; "x"%char] in
  relations (mqs answered.1) = {[ bs "10.0.0.1" := [bs "10.0.0.2"] ]} ∧ out answered.1 = [Write 7 text]
  ∧ ∃ ms1 m ms2 s1 es1 mc buf,
     answered_moves = ms1 ++ m :: ms2 ∧ brun demo_broker ms1 = Some (Ok (s1, es1)) ∧ handles s1 m mc buf
     ∧ 7 = c_fd mc ∧ buf !! 0%nat = Some x01 ∧ default [] (relations (mqs s1) !! c_addr mc) ≠ [].
Proof.
  split; [vm_compute; reflexivity|]. split; [vm_compute; reflexivity|].
  destruct (broker_never_delivers 100 (init 21) demo_results demo_broker answered_moves answered.1 answered.2)
    as [H _]; [apply demo_broker_starts|vm_compute; reflexivity|].
  eapply H. vm_compute. left.
Defined.
