(* ===== verification/Cache.v ===== *)
(** * The cache lookup of the HTTP server: http_server.cpp ([checkCache])

    [checkCache] splays the persistent tree to the hash of the URL and copies
    the data of the node at the root.  The tree is the pointer code of
    SplayHeap.v on its heap; the pointer that [stage::getPersistData] keeps is an
    argument, since nothing sets it again. *)

From S2P Require Import Prelude Log Heap SplayTree SplayHeap SplayRefine HttpRequest.
Open Scope Z_scope.

(** ** Data and operations *)

Record http_struct := Hst { _head : http_head; body : bytes }.     (* char body[1024] *)

Definition hashUrl (url : bytes) : Z := 0.

(** [text] gives the C string behind a data pointer. *)
Definition checkCache (fuel : nat) (text : Z → bytes) (persistent : ptr) (hst : http_struct) :
    HM tree_node http_struct :=
  u ← lift (cstr (url (_head hst)) 0);
  sp ← splaytree_splay fuel persistent (hashUrl u);
  match sp with
  | Some _ =>
      n ← load sp;
      b ← lift (memcpy (body hst) 0 (c_str (text (ndata n))) 0 (Z.of_nat (length (text (ndata n)))));
      mret (Hst (_head hst) b)
  | None =>
      let f_url := bs "/var/www/html/" ++ u in
      if decide (length f_url < 128)%nat then
        lift (log_debug (bs "file " ++ f_url ++ bs " will be response"));;
        mret hst
      else lift (Err OutOfBounds)
  end.

(** ** Subtrees *)

(** [sub] is a subtree of [t]; the rest of its structs is [rest]. *)
Definition part_of (sub t : tree) (rest : list (loc * tree_node)) : Prop :=
  tnodes t ≡ₚ tnodes sub ++ rest ∧ elems sub ⊆ elems t.

(** Every entry is at the root of a subtree, and the root of the whole tree is
    in no other. *)
Lemma subtree_at e t :
  e ∈ elems t →
  ∃ l r rest, part_of (Node l e r) t rest
    ∧ (NoDup (elems t) → ∀ tl e0 tr, t = Node tl e0 tr → e0 ≠ e → e0 ∉ elems (Node l e r)).
Proof.
  induction t as [|tl IHl e0 tr IHr]; intros He; [by apply not_elem_of_nil in He|].
  simpl in He. rewrite elem_of_app, elem_of_cons in He.
  destruct (decide (e = e0)) as [->|Hne].
  { exists tl, tr, []. split; [split; [by rewrite app_nil_r|done]|]. by intros _ ??? [= _ -> _]. }
  assert (∀ sub side, elems sub ⊆ elems side → e0 ∉ elems side → e0 ∉ elems sub) as Hsub by (intros ??? H ?; auto).
  destruct He as [He|[?|He]]; [|done|].
  - destruct (IHl He) as (l & r & rest & [Hp Hin] & _).
    exists l, r, (tn e0 (root tl) (root tr) (tsize tl + tsize tr + 1) :: rest ++ tnodes tr). split.
    + split; [|simpl in *; set_solver]. simpl tnodes at 1. rewrite Hp. solve_Permutation.
    + intros Hnd ??? [= _ -> _] _. apply (Hsub _ tl Hin). simpl in Hnd.
      apply NoDup_app in Hnd as (_ & Hd & _). intros H. apply (Hd _ H). by left.
  - destruct (IHr He) as (l & r & rest & [Hp Hin] & _).
    exists l, r, (tn e0 (root tl) (root tr) (tsize tl + tsize tr + 1) :: rest ++ tnodes tl). split.
    + split; [|simpl in *; set_solver]. simpl tnodes at 1. rewrite Hp. solve_Permutation.
    + intros Hnd ??? [= _ -> _] _. apply (Hsub _ tr Hin). simpl in Hnd.
      apply NoDup_app in Hnd as (_ & _ & [Hd _]%NoDup_cons). done.
Qed.

Lemma tnodes_locs t : (tnodes t).*1 ≡ₚ e_loc <$> elems t.
Proof.
  induction t as [|l IHl e r IHr]; [done|]. simpl. rewrite !fmap_app, IHl, IHr. simpl. by rewrite Permutation_middle.
Qed.

Lemma owns_entries h t F : owns h (tnodes t) F → NoDup (elems t).
Proof. intros [Hn _]. rewrite tnodes_locs in Hn. by apply NoDup_fmap_1 in Hn. Qed.

(** Splaying to a key below all others brings the first entry to the root. *)
Lemma smallest_served t tl e tr :
  sorted (elems t) → Forall (λ a, 0 ≤ e_key a ≤ int_max) (elems t) → splay 0 t = Node tl e tr →
  elems t = e :: elems tr.
Proof.
  intros Hs Hk Es. destruct (splay_cases _ _ _ _ _ Hs Es) as [He Hcase].
  rewrite He in Hk. apply Forall_app in Hk as [Hl Hk]. apply Forall_cons in Hk as [Hke _].
  assert (∀ es, below 0 es → Forall (λ a, 0 ≤ e_key a ≤ int_max) es → es = []) as Hno.
  { intros [|a es] Hb Ha; [done|]. apply Forall_cons in Hb as [Hb _]. apply Forall_cons in Ha as [Ha _].
    simpl in *. lia. }
  rewrite He. destruct Hcase as [(_ & Hb & _)|[(_ & Hb & _)|(? & _)]]; [by rewrite (Hno _ Hb Hl)..|lia].
Qed.

(** ** Properties *)

(** C35: the cache. Its keys are hashes, so not negative. With anything in it,
    every request is answered with the entry of the smallest key, since all URLs
    have the hash 0 and the key that was found is not compared. And the lookup
    loses entries: it moves the root, but the persistent pointer stays where it
    was, so that the next lookup sees the subtree [sub] that hangs there now; if
    the root has moved, the entry that was just served is not in it. *)
Theorem checkCache_loses fuel text h F t :
  owns h (tnodes t) F → t ≠ Leaf → sorted (elems t) → Forall (λ a, 0 ≤ e_key a ≤ int_max) (elems t) →
  tsize t < 2 ^ 31 → (Z.to_nat (tsize t) ≤ fuel)%nat → (∀ d, length (text d) ≤ 1024)%nat →
  ∃ e es sub rest h', elems t = e :: es
    ∧ (∀ hst, is_ok (cstr (url (_head hst)) 0) → length (body hst) = 1024%nat →
       checkCache fuel text (root t) hst h
       = Ok (Hst (_head hst) (text (e_data e) ++ drop (length (text (e_data e))) (body hst)), h'))
    ∧ owns h' (tnodes sub ++ rest) F ∧ root sub = root t
    ∧ elems sub ⊆ elems t ∧ (Some (e_loc e) ≠ root t → e ∉ elems sub).
Proof.
  intros Hh Hne Hso Hk Hsz Hf Htext.
  assert (comparable 0 (elems t)) as Hc.
  { eapply Forall_impl; [exact Hk|]. intros a Ha. unfold in_int, int_min, int_max in *. simpl in *. lia. }
  destruct (splay_ok F fuel 0 t (tnodes t)
    (λ a L', a = root (splay 0 t) ∧ L' ≡ₚ tnodes (splay 0 t)) Hc Hsz (Nat.le_trans _ _ _ (rounds_size 0 t) Hf)) with h
    as (a & h' & L' & E & Hh' & -> & HL'); [done|naive_solver|done|].
  rewrite HL' in Hh'. clear L' HL'.
  destruct (splay_node 0 t Hne) as (tl & e & tr & Es).
  pose proof (smallest_served t tl e tr Hso Hk Es) as Hmin.
  pose proof (splay_elems 0 t) as He. rewrite Es in *.
  destruct t as [|ul u ur]; [done|]. clear Hne.
  assert (u ∈ elems (Node tl e tr)) as Hu by (rewrite He; simpl; rewrite elem_of_app, elem_of_cons; auto).
  destruct (subtree_at u (Node tl e tr) Hu) as (l & r & rest & [Hp Hin] & Hroot).
  exists e, (elems tr), (Node l u r), rest, h'. split_and!; [done|..].
  - intros hst Hu0 Hl. destruct (cstr (url (_head hst)) 0) as [s| |] eqn:Hcs; [|done..].
    assert (h' !! e_loc e = Some (TreeNode (root tl) (root tr) (e_key e) (tsize tl + tsize tr + 1) (e_data e))) as Hld.
    { eapply owns_lookup; [exact Hh'|]. simpl. by left. }
    unfold checkCache. etrans; [by apply hm_bind_ok, lift_ok|].
    etrans; [apply hm_bind_ok; exact E|]. cbn [root].
    etrans; [apply hm_bind_ok, load_ok; exact Hld|]. cbn [ndata].
    etrans; [apply hm_bind_ok, lift_ok, memcpy_ok|].
    + rewrite Hl. by apply Htext.
    + unfold c_str. rewrite length_app. simpl. lia.
    + rewrite take_0, drop_0. unfold c_str. by rewrite take_app_length.
  - by rewrite <-Hp.
  - done.
  - by rewrite <-He.
  - intros Hmoved. apply (Hroot (owns_entries _ _ _ Hh') tl e tr eq_refl). intros ->. done.
Qed.

(** ** Witnesses *)

Definition demo_hst (u : bytes) : http_struct :=
  Hst (set_url (u ++ replicate 60 NUL) http_struct_new) (replicate 1024 NUL).
Definition demo_text (d : Z) : bytes := if d =? 10 then bs "first body" else bs "second body".

(** Two entries, with keys 1 and 3; the root has key 3. *)
Lemma checkCache_loses_witness :
  ∃ sub rest h',
    checkCache 2 demo_text (root demo_tree) (demo_hst (bs "/a")) demo_heap
    = Ok (Hst (_head (demo_hst (bs "/a"))) (bs "first body" ++ replicate 1014 NUL), h')
    ∧ owns h' (tnodes sub ++ rest) ∅ ∧ root sub = Some 5%positive ∧ Entry 4 1 10 ∉ elems sub.
Proof.
  destruct (checkCache_loses 2 demo_text demo_heap ∅ demo_tree) as (e & es & sub & rest & h' & He & H1 & H2 & H3 & _ & H5);
    [apply demo_owns|done|apply demo_sorted|repeat constructor; by vm_compute|by vm_compute|by vm_compute
    |intros d; unfold demo_text; case_match; vm_compute; lia|].
  injection He as <- _. exists sub, rest, h'. split_and!; [|exact H2|exact H3|by apply H5].
  exact (H1 (demo_hst (bs "/a")) I eq_refl).
Defined.
