(* ===== verification/Seda.v ===== *)
(** * The SEDA container and its objects: seda.h, seda.cpp, stage_message.h,
    stage.cpp ([run]), seda_object.h, seda_object.cpp, redis_client.h,
    redis_client.cpp

    Stages and messages are heap objects; a pointer is the number of its
    object, and [new] takes the next number. *)

From S2P Require Import Prelude Log WorkerPool.
Open Scope Z_scope.

(** ** [SEDA] *)

Record SEDA := Seda {
  fresh : nat;                              (* the next object *)
  names : gmap nat bytes;                   (* the stage objects: stage_name *)
  stages : gmap bytes nat;
  stages_v : list nat;
  msg_relat : gmap nat (nat * nat) }.

Definition SEDA_new : SEDA := Seda 0 ∅ ∅ [] ∅.

(** The object is made before the name is looked up. *)
Definition create_stage (stage_name : bytes) (s : SEDA) : outcome (SEDA * option nat) :=
  let sg := fresh s in
  let s := Seda (S sg) (<[sg := stage_name]> (names s)) (stages s) (stages_v s) (msg_relat s) in
  match stages s !! stage_name with
  | Some _ =>
      _ ← log_debug (bs "The stage : " ++ stage_name ++ bs " is already existed");
      Ok (s, None)
  | None => Ok (Seda (fresh s) (names s) (<[stage_name := sg]> (stages s)) (stages_v s ++ [sg]) (msg_relat s), Some sg)
  end.

Definition msgExist2Stages (from to : option nat) (sm : nat) (s : SEDA) : bool :=
  match msg_relat s !! sm with
  | Some (f, t) => negb (bool_decide (Some f = from) && bool_decide (Some t = to))
  | None => true
  end.

(** [map::insert]; NULL pointers are stored like others. *)
Definition addSM (from to : option nat) (sm : nat) (s : SEDA) : SEDA :=
  match msg_relat s !! sm with
  | Some _ => s
  | None => Seda (fresh s) (names s) (stages s) (stages_v s) (<[sm := (default 0 from, default 0 to)%nat]> (msg_relat s))
  end.

(** [sg->get_stage_name()] *)
Definition get_stage_name (sg : option nat) (s : SEDA) : outcome bytes :=
  match sg with
  | None => Err NullDeref
  | Some p => match names s !! p with Some n => Ok n | None => Err UseAfterFree end
  end.

Definition add_msg_edge (from to : option nat) (msg : bytes) (s : SEDA) : outcome (SEDA * bool) :=
  let sm := fresh s in
  let s := Seda (S sm) (names s) (stages s) (stages_v s) (msg_relat s) in
  if msgExist2Stages from to sm s then
    f ← get_stage_name from s;
    t ← get_stage_name to s;
    _ ← log_debug (bs "The msg : " ++ msg ++ bs " is already exsited from the stage : " ++ f
                   ++ bs " to stage : " ++ t);
    Ok (s, false)
  else Ok (addSM from to sm s, true).

(** [stage::run]: [while (true) {}]. *)
Fixpoint stage_run (fuel : nat) : outcome bool :=
  match fuel with O => Timeout | S fuel => stage_run fuel end.

Definition SEDA_run (fuel : nat) (s : SEDA) : outcome bool :=
  let fix loop (v : list nat) : outcome bool :=
    match v with
    | [] => Ok true
    | _ :: v => r ← stage_run fuel; if r : bool then loop v else Ok false
    end in
  loop (stages_v s).

(** A client's calls. *)
Inductive call := CreateStage (name : bytes) | AddMsgEdge (from to : option nat) (msg : bytes).
Fixpoint calls (cs : list call) (s : SEDA) : outcome (SEDA * list bool) :=
  match cs with
  | [] => Ok (s, [])
  | CreateStage name :: cs => '(s, _) ← create_stage name s; calls cs s
  | AddMsgEdge from to msg :: cs =>
      '(s, r) ← add_msg_edge from to msg s; '(s, rs) ← calls cs s; Ok (s, r :: rs)
  end.

(** The stages by name and in order are the same, under different names. *)
Definition seda_wf (s : SEDA) : Prop :=
  msg_relat s = ∅
  ∧ (∀ n p, stages s !! n = Some p → names s !! p = Some n ∧ p ∈ stages_v s)
  ∧ (∀ p, p ∈ stages_v s → ∃ n, names s !! p = Some n ∧ stages s !! n = Some p)
  ∧ NoDup (stages_v s) ∧ (∀ p, is_Some (names s !! p) → (p < fresh s)%nat).

Lemma create_stage_wf name s s' r : seda_wf s → create_stage name s = Ok (s', r) → seda_wf s'.
Proof.
  intros (Hm & H1 & H2 & Hnd & Hf) Hc. unfold create_stage in Hc. cbn [stages] in Hc.
  assert (∀ p, is_Some (names s !! p) → p ≠ fresh s) as Hne by (intros p Hp ->; specialize (Hf _ Hp); lia).
  destruct (stages s !! name) as [q|] eqn:Hq; ok_inv; unfold seda_wf; cbn [names stages stages_v msg_relat fresh].
  - split_and!; [done| | |done|].
    + intros n p Hp. destruct (H1 n p Hp) as [Hn Hin]. split; [|done]. rewrite lookup_insert_ne; [done|].
      intros <-. by apply (Hne (fresh s)).
    + intros p Hp. destruct (H2 p Hp) as (n & Hn & Hs). exists n. split; [|done].
      rewrite lookup_insert_ne; [done|]. intros <-. by apply (Hne (fresh s)).
    + intros p [x Hp]. destruct (decide (p = fresh s)) as [->|Hp']; [lia|].
      rewrite lookup_insert_ne in Hp by done. specialize (Hf p ltac:(eauto)). lia.
  - split_and!; [done| | | |].
    + intros n p Hp. destruct (decide (n = name)) as [->|Hn].
      * rewrite lookup_insert_eq in Hp. injection Hp as <-. rewrite lookup_insert_eq. split; [done|].
        apply elem_of_app. right. by apply list_elem_of_singleton.
      * rewrite lookup_insert_ne in Hp by done. destruct (H1 n p Hp) as [Hnm Hin].
        rewrite lookup_insert_ne by (intros <-; by apply (Hne (fresh s))).
        split; [done|]. apply elem_of_app. by left.
    + intros p [Hp|Hp]%elem_of_app.
      * destruct (H2 p Hp) as (n & Hn & Hs). exists n.
        rewrite lookup_insert_ne by (intros <-; by apply (Hne (fresh s))). split; [done|].
        rewrite lookup_insert_ne; [done|]. intros ->. congruence.
      * apply list_elem_of_singleton in Hp as ->. exists name. by rewrite !lookup_insert_eq.
    + apply NoDup_app. split_and!; [done| |apply NoDup_singleton].
      intros p Hp ->%list_elem_of_singleton. destruct (H2 _ Hp) as (n & Hn & _).
      by apply (Hne (fresh s)).
    + intros p [x Hp]. destruct (decide (p = fresh s)) as [->|Hp']; [lia|].
      rewrite lookup_insert_ne in Hp by done. specialize (Hf p ltac:(eauto)). lia.
Qed.

Lemma add_msg_edge_never from to msg s s' r :
  seda_wf s → add_msg_edge from to msg s = Ok (s', r) → r = false ∧ seda_wf s'.
Proof.
  intros Hw H. pose proof Hw as (Hm & _). unfold add_msg_edge, msgExist2Stages in H. cbn [msg_relat] in H.
  rewrite Hm, lookup_empty in H. ok_inv. split; [done|].
  destruct Hw as (_ & Hn1 & Hn2 & Hnd & Hf). split_and!; try done.
  intros p Hp. cbn in *. specialize (Hf p Hp). lia.
Qed.

Lemma calls_wf cs s s' rs :
  seda_wf s → calls cs s = Ok (s', rs) → seda_wf s' ∧ Forall (eq false) rs.
Proof.
  revert s rs; induction cs as [|[name|from to msg] cs IH]; intros s rs Hw H; cbn [calls] in H.
  - ok_inv. done.
  - apply bind_ok_inv in H as ([s1 r] & H1 & H). eapply IH; [|done]. by eapply create_stage_wf.
  - apply bind_ok_inv in H as ([s1 r] & H1 & H). apply bind_ok_inv in H as ([s2 rs2] & H2 & H).
    apply add_msg_edge_never in H1 as [-> Hw1]; [|done].
    injection H as <- <-. destruct (IH _ _ Hw1 H2). split; [done|]. by constructor.
Qed.

(** ** Properties of [SEDA] *)

(** The container. Whatever stages and edges a client asks for, the map and
    the list of stages stay the same set, without duplicate names; but no edge
    is ever recorded, and every [add_msg_edge] returns false: the test for an
    existing edge has its results the wrong way round. *)
Theorem seda_records_no_edge cs s rs :
  calls cs SEDA_new = Ok (s, rs) →
  msg_relat s = ∅ ∧ Forall (eq false) rs ∧ NoDup (stages_v s)
  ∧ (∀ n p, stages s !! n = Some p ↔ names s !! p = Some n ∧ p ∈ stages_v s).
Proof.
  intros H. apply calls_wf in H as [(Hm & H1 & H2 & Hnd & _) Hr].
  - split_and!; try done. intros n p. split; [apply H1|].
    intros [Hn Hp]. destruct (H2 p Hp) as (n' & Hn' & Hs). congruence.
  - unfold seda_wf, SEDA_new. cbn.
    split_and!; [done|by intros ?? ?%lookup_empty_Some|by intros ? ?%not_elem_of_nil|constructor|].
    by intros p [x Hp%lookup_empty_Some].
Qed.

(** Running the container. [SEDA::run] never returns once there is a stage:
    the first [stage::run] loops for ever, and no other stage is run. *)
Theorem seda_run_never_returns fuel s : stages_v s ≠ [] → SEDA_run fuel s = Timeout.
Proof.
  assert (stage_run fuel = Timeout) as H by (by induction fuel).
  unfold SEDA_run. destruct (stages_v s); [done|]. by rewrite H.
Qed.

(** ** [sedaObject] *)

Record sedaObject := Obj { refcount : Z; deleted : bool }.
Definition sedaObject_new : sedaObject := Obj 0 false.

Definition on_object (o : sedaObject) (k : outcome sedaObject) : outcome sedaObject :=
  if deleted o then Err UseAfterFree else k.
Definition incrRefCount (o : sedaObject) : outcome sedaObject :=
  on_object o (n ← int_of (refcount o + 1); Ok (Obj n false)).
Definition decrRefCount (o : sedaObject) : outcome sedaObject :=
  on_object o
    (if refcount o <=? 0 then Ok o
     else if refcount o =? 1 then Ok (Obj (refcount o) true)
     else Ok (Obj (refcount o - 1) false)).
Definition resetRefcount (o : sedaObject) : outcome sedaObject := on_object o (Ok (Obj 0 false)).

Fixpoint times (n : nat) (f : sedaObject → outcome sedaObject) (o : sedaObject) : outcome sedaObject :=
  match n with O => Ok o | S n => o ← f o; times n f o end.

Lemma incr_times n o :
  deleted o = false → 0 ≤ refcount o → refcount o + Z.of_nat n ≤ int_max →
  times n incrRefCount o = Ok (Obj (refcount o + Z.of_nat n) false).
Proof.
  revert o; induction n as [|n IH]; intros [r d] Hd Hr Hn; cbn in *; subst d.
  - by rewrite Z.add_0_r.
  - unfold incrRefCount, on_object. cbn. rewrite int_of_small, !bind_ok by (unfold int_max in *; lia).
    rewrite IH by (cbn; done || lia). cbn. do 2 f_equal. lia.
Qed.

Lemma decr_times n r :
  Z.of_nat n < r → times n decrRefCount (Obj r false) = Ok (Obj (r - Z.of_nat n) false).
Proof.
  revert r; induction n as [|n IH]; intros r Hr; cbn [times].
  - by rewrite Z.sub_0_r.
  - unfold decrRefCount, on_object. cbn [deleted refcount].
    rewrite (proj2 (Z.leb_gt _ _)), (proj2 (Z.eqb_neq _ _)), bind_ok by lia.
    rewrite IH by lia. do 2 f_equal. lia.
Qed.

(** Reference counts. An object with [n] references lives through [n - 1]
    releases and is deleted by the next one, after which every use is one of a
    dead object; a release of an object without references does nothing. *)
Theorem refcount_lifecycle n :
  (0 < n)%nat → Z.of_nat n ≤ int_max →
  (∀ k, (k < n)%nat →
     (o ← times n incrRefCount sedaObject_new; times k decrRefCount o) = Ok (Obj (Z.of_nat (n - k)) false))
  ∧ (o ← times n incrRefCount sedaObject_new; times n decrRefCount o) = Ok (Obj 1 true)
  ∧ (o ← times n incrRefCount sedaObject_new; times (S n) decrRefCount o) = Err UseAfterFree
  ∧ decrRefCount sedaObject_new = Ok sedaObject_new.
Proof.
  intros Hn Hm. rewrite incr_times by (cbn; done || lia). cbn [refcount sedaObject_new].
  assert (∀ k o, times (S k) decrRefCount o = o ← times k decrRefCount o; decrRefCount o) as Hsnoc.
  { intros k. induction k as [|k IH]; intros o.
    - cbn. by destruct (decrRefCount o).
    - change (times (S (S k)) decrRefCount o) with (o ← decrRefCount o; times (S k) decrRefCount o).
      change (times (S k) decrRefCount o) with (o ← decrRefCount o; times k decrRefCount o).
      destruct (decrRefCount o) as [o'| |]; [|done..]. rewrite !bind_ok. apply IH. }
  assert (times n decrRefCount (Obj (0 + Z.of_nat n) false) = Ok (Obj 1 true)) as Hlast.
  { destruct n as [|n]; [lia|]. rewrite Hsnoc, decr_times, bind_ok by lia.
    replace (0 + Z.of_nat (S n) - Z.of_nat n) with 1 by lia. done. }
  split_and!.
  - intros k Hk. rewrite bind_ok, decr_times by lia. do 2 f_equal. lia.
  - by rewrite bind_ok.
  - by rewrite bind_ok, Hsnoc, Hlast.
  - done.
Qed.

(** ** [redisClient] *)

Inductive handle := Null | Live | Freed.
(** [c], and [ptr] of the base class, which nothing initialises. *)
Record redisClient := Redis { c : cell handle; reply : cell handle }.
Definition redisClient_new : redisClient := Redis Indeterminate Indeterminate.

(** [redisConnect] returns NULL ([None]), a context without an error, or one with
    the error text [errstr]; [redisFree] accepts NULL. *)
Definition redisFree (h : handle) : outcome handle :=
  match h with Null => Ok Null | Live => Ok Freed | Freed => Err UseAfterFree end.
Definition connect (result : option (option bytes)) (r : redisClient) : outcome (redisClient * bool) :=
  match result with
  | Some None => Ok (Redis (Val Live) (reply r), true)
  | Some (Some errstr) =>
      _ ← log_debug (bs "Error: " ++ errstr);
      h ← redisFree Live; Ok (Redis (Val h) (reply r), false)
  | None => h ← redisFree Null; Ok (Redis (Val h) (reply r), false)
  end.
Definition command (result : handle) (r : redisClient) : outcome (redisClient * handle) :=
  h ← read_cell (c r);
  match h with
  | Null => Ok (r, Null)
  | Live => Ok (Redis (c r) (Val result), result)
  | Freed => Err UseAfterFree
  end.
Definition redis_destroy (r : redisClient) : outcome unit :=
  p ← read_cell (reply r); _ ← redisFree p; h ← read_cell (c r); _ ← redisFree h; Ok tt.

(** The life of a redis client. It can be destroyed only after a command
    has been sent over a connection; a connection that failed with a context
    is freed by [connect] (if its error text fits the log line), used by the
    next [command] and freed again by the destructor. *)
Theorem redis_lifecycle result errstr :
  result ≠ Freed → no_nul errstr → (length errstr ≤ 127)%nat →
  ('(r, _) ← connect (Some None) redisClient_new; '(r, _) ← command result r; redis_destroy r) = Ok tt
  ∧ ('(r, _) ← connect (Some None) redisClient_new; redis_destroy r) = Err Uninitialised
  ∧ ('(r, _) ← connect (Some (Some errstr)) redisClient_new; '(r, p) ← command result r; Ok p)
    = Err (if decide (length errstr ≤ 111)%nat then UseAfterFree else OutOfBounds)
  ∧ (∀ p, p ≠ Freed → redis_destroy (Redis (Val Freed) (Val p)) = Err UseAfterFree)
  ∧ ('(r, _) ← connect None redisClient_new; '(r, p) ← command result r; Ok p) = Ok Null.
Proof.
  intros H Hn Hl. split_and!; try done; [by destruct result| |by intros []]. unfold connect.
  assert (no_nul (bs "Error: " ++ errstr)) as Hno by no_nul.
  assert (length (bs "Error: " ++ errstr) = 7 + length errstr)%nat as Hlen by (by rewrite length_app).
  case_decide.
  - by rewrite log_debug_short by (done || lia).
  - by rewrite log_debug_long by (done || lia || unfold int_max; lia).
Qed.

(** ** Witnesses *)

Definition demo_calls : list call :=
  [ CreateStage (bs "a"); CreateStage (bs "b"); CreateStage (bs "a"); AddMsgEdge (Some 0%nat) (Some 1%nat) (bs "m") ].
Definition demo_seda : SEDA := match calls demo_calls SEDA_new with Ok (s, _) => s | _ => SEDA_new end.

Lemma seda_records_no_edge_witness :
  stages_v demo_seda = [0%nat; 1%nat]
  ∧ msg_relat demo_seda = ∅ ∧ Forall (eq false) [false] ∧ NoDup (stages_v demo_seda)
  ∧ (∀ n p, stages demo_seda !! n = Some p ↔ names demo_seda !! p = Some n ∧ p ∈ stages_v demo_seda).
Proof.
  split; [vm_compute; reflexivity|].
  apply (seda_records_no_edge demo_calls demo_seda [false]). vm_compute. reflexivity.
Defined.

Lemma seda_run_never_returns_witness : SEDA_run 10 demo_seda = Timeout.
Proof. apply (seda_run_never_returns 10 demo_seda). vm_compute. discriminate. Defined.

Lemma refcount_lifecycle_witness :
  (o ← times 3 incrRefCount sedaObject_new; times 3 decrRefCount o) = Ok (Obj 1 true).
Proof. apply (refcount_lifecycle 3); [lia|vm_compute; discriminate]. Defined.

Lemma redis_lifecycle_witness :
  ('(r, _) ← connect (Some (Some (bs "timeout"))) redisClient_new; '(r, p) ← command Live r; Ok p)
  = Err UseAfterFree.
Proof.
  apply (redis_lifecycle Live (bs "timeout")); [discriminate|no_nul|simpl; lia].
Defined.
