(* ===== verification/Pipeline.v ===== *)
(** * The main program: main.cpp, struct.h ([test_msg])

    main.cpp forks two processes, each with one stage: the first answers with
    its message, the second asks redis and passes on the message without its
    first byte.  A handler gets the buffer of an element and returns a C string
    in it; [pipeline] is the way of one message through both stages.  What redis
    and ZeroMQ return are arguments. *)

From S2P Require Import Prelude Log WorkerPool Receiver Stage Seda.
Open Scope Z_scope.

(** ** The handlers *)

(** [char name[8], passwd[8]; long begin_time, end_time;]: 32 bytes.  [%s] of an
    array that has no NUL is undefined. *)
Definition sizeof_test_msg : Z := 32.
Definition tm_name (tm : bytes) : bytes := take 8 tm.
Definition tm_passwd (tm : bytes) : bytes := take 8 (drop 8 tm).

Definition lookUpRedis (arg : bytes) : outcome (option bytes) :=
  s ← cstr arg 0;
  _ ← log_debug (bs "main [lookUpRedis] : " ++ s);
  Ok (Some s).

Definition print (arg : bytes) : outcome (option bytes) :=
  s ← cstr arg 0;
  _ ← log_debug (bs "main [print] : " ++ s);
  Ok (Some s).

Definition receiveAndResponse (arg : bytes) : outcome (option bytes) :=
  s ← cstr arg 0;
  _ ← log_debug (bs "main [receiveAndResponse] : " ++ s);
  tm ← memcpy (replicate 32 NUL) 0 arg 0 sizeof_test_msg;
  name ← cstr (tm_name tm) 0;
  passwd ← cstr (tm_passwd tm) 0;
  _ ← log_debug (bs "main [receiveAndResponse] : name=" ++ name ++ bs ",passwd=" ++ passwd ++ [newline]);
  Ok (Some s).

(** [conn] is the result of [redisConnect], [reply] that of [redisCommand]: no
    reply, a reply without a string (nil), or one with.  The persistent data of
    the stage (lines 31-35) has no effect here. *)
Definition searchCache (conn : option (option bytes)) (reply : option (option bytes)) (arg : bytes) :
    outcome (option bytes) :=
  s ← cstr arg 0;
  _ ← log_debug (bs "main [searchCache] : " ++ s);
  '(rc, suc) ← connect conn redisClient_new;
  if negb suc then
    _ ← log_debug (bs "connect 127.0.0.1:" ++ dec 6379 ++ bs " fail");
    Ok None
  else
    '(_, r) ← command (match reply with None => Null | Some _ => Live end) rc;
    match r, reply with
    | Live, Some (Some str) =>
        _ ← log_debug (bs "name : shilei, result : " ++ str);
        res ← cstr arg 1;
        Ok (Some res)
    | _, _ => Err NullDeref
    end.

(** ** The processes *)

Inductive handler := HReceiveAndResponse | HSearchCache.

Record stage_proc := Proc { p_resource : bytes; p_destination : bytes; p_handler : handler }.

Definition stage1 : stage_proc := Proc (bs "tcp://localhost:5666") (bs "tcp://*:5667") HReceiveAndResponse.
Definition stage2 : stage_proc := Proc (bs "tcp://localhost:5667") (bs "tcp://*:5668") HSearchCache.

(** [main]: the stage that a process runs, from what its calls of [fork]
    return. *)
Definition main (fork1 fork2 : Z) : outcome (option stage_proc) :=
  if negb (fork1 =? 0) then Ok (Some stage1)
  else if fork1 <? 0 then Err Aborted
  else if negb (fork2 =? 0) then Ok (Some stage2)
  else if fork2 <? 0 then Err Aborted
  else Ok None.

(** [runStage]: the handler object when [stage::run] is called; [init] has made
    it, [setHandler] comes after it.  [fun] has no argument. *)
Definition runStage (h : handler) : @stage_handler handler unit :=
  setHandler (setFunction (Some h) Function_default) stage_handler_new.

Lemma runStage_fun h : getFunction (sh_fun (runStage h)) = Ok (Some h).
Proof. done. Qed.

Section pipeline.
Context (conn reply : option (option bytes)).
(** The results of the two [zmq_send]s. *)
Context (ret1 ret2 : Z) (eagain1 eagain2 : bool) (err1 err2 : bytes).

Definition call_handler (h : handler) (arg : bytes) : outcome (option bytes) :=
  match h with
  | HReceiveAndResponse => receiveAndResponse arg
  | HSearchCache => searchCache conn reply arg
  end.

Definition first_hop (m : bytes) : outcome (option bytes) :=
  hop call_handler (Z.of_nat (length m)) (recv_buffer m) ret1 eagain1 err1 (runStage (p_handler stage1)).
Definition second_hop (m : bytes) : outcome (option bytes) :=
  hop call_handler (Z.of_nat (length m)) (recv_buffer m) ret2 eagain2 err2 (runStage (p_handler stage2)).

(** A message that is published on port 5666, up to port 5668. *)
Definition pipeline (m : bytes) : outcome (option bytes) :=
  r ← first_hop m;
  match r with None => Ok None | Some m => second_hop m end.

(** ** Lemmas *)

Lemma padded_cstr s n : no_nul s → (length s < n)%nat → cstr (s ++ replicate (n - length s) NUL) 0 = Ok s.
Proof. intros Hs Hl. by pose proof (ie_text_padded s n (Val 0) Hs Hl). Qed.

Lemma take_padded (s : bytes) (k n : nat) : (k ≤ n)%nat →
  take k (s ++ replicate (n - length s) NUL) = take k s ++ replicate (k - length s) NUL.
Proof. intros Hk. rewrite take_app, take_replicate. do 2 f_equal.
  lia. Qed.

(** What [receiveAndResponse] does with a padded text. *)
Lemma receiveAndResponse_text s :
  no_nul s → (length s ≤ 78)%nat →
  receiveAndResponse (s ++ replicate (256 - length s) NUL)
  = if decide (length s ≤ 7)%nat then Ok (Some s) else Err OutOfBounds.
Proof.
  intros Hs Hl. unfold receiveAndResponse. rewrite padded_cstr, bind_ok by (done || lia).
  rewrite (log_debug_short (_ ++ s)), bind_ok; [|no_nul|rewrite length_app; simpl; lia].
  rewrite (memcpy_ok _ 0 _ 0 32), bind_ok
    by (rewrite ?length_app, ?length_replicate; lia).
  rewrite take_0, drop_0, (take_padded s 32 256), drop_ge by (rewrite ?length_replicate; lia).
  rewrite app_nil_r. cbn [app]. unfold tm_name, tm_passwd.
  case_decide as H7.
  - rewrite (take_ge s 32) by lia. rewrite (take_padded s 8 32), (take_ge s 8) by lia.
    rewrite padded_cstr, bind_ok by (done || lia).
    rewrite drop_app_ge, drop_replicate, take_replicate by lia.
    replace (_ `min` _)%nat with 8%nat by lia.
    assert (cstr (replicate 8 NUL) 0 = Ok []) as -> by done. rewrite bind_ok.
    rewrite log_debug_short, bind_ok; [done|no_nul|rewrite !length_app; simpl; lia].
  - rewrite take_app_le, take_take by (rewrite length_take; lia).
    assert (cstr (take (8 `min` 32)%nat s) 0 = Err OutOfBounds) as ->; [|done].
    unfold cstr. rewrite drop_0, no_nul_to_nul; [done|by apply no_nul_take].
Qed.

Lemma searchCache_text s str :
  no_nul s → (length s ≤ 78)%nat → no_nul str → (length str ≤ 94)%nat →
  conn = Some None → reply = Some (Some str) →
  searchCache conn reply (s ++ replicate (256 - length s) NUL) = Ok (Some (drop 1 s)).
Proof.
  intros Hs Hl Hns Hls -> ->. unfold searchCache. rewrite padded_cstr, bind_ok by (done || lia).
  rewrite (log_debug_short (_ ++ s)), bind_ok; [|no_nul|rewrite length_app; simpl; lia].
  cbn [connect]. rewrite bind_ok. cbn [negb].
  change (command Live (Redis (Val Live) (Seda.reply redisClient_new)))
    with (Ok (Redis (Val Live) (Val Live), Live)). rewrite bind_ok.
  rewrite (log_debug_short (_ ++ str)), bind_ok; [|no_nul|rewrite length_app; simpl; lia].
  destruct s as [|c s]; [done|]. cbn [length app] in *.
  assert (no_nul s) as Hn by (unfold no_nul in *; intros ?; apply Hs; by apply elem_of_cons; right).
  unfold cstr. cbn [drop]. rewrite drop_0. replace (256 - S (length s))%nat with (S (254 - length s)) by lia.
  cbn [replicate]. by rewrite to_nul_app.
Qed.

(** Without an answer from redis. *)
Lemma searchCache_fails s :
  no_nul s → (length s ≤ 78)%nat → ¬ (∃ str, conn = Some None ∧ reply = Some (Some str)) →
  (∀ e, conn = Some (Some e) → no_nul e ∧ (length e ≤ 111)%nat) →
  searchCache conn reply (s ++ replicate (256 - length s) NUL)
  = match conn with Some None => Err NullDeref | _ => Ok None end.
Proof.
  intros Hs Hl Hno He. unfold searchCache. rewrite padded_cstr, bind_ok by (done || lia).
  rewrite (log_debug_short (_ ++ s)), bind_ok; [|no_nul|rewrite length_app; simpl; lia].
  destruct conn as [[e|]|]; cbn [connect].
  - destruct (He e eq_refl) as [Hne Hle].
    rewrite (log_debug_short (_ ++ e)); [|no_nul|rewrite length_app; simpl; lia].
    done.
  - destruct reply as [[str|]|]; [|done..]. destruct Hno. eauto.
  - done.
Qed.
End pipeline.

(** ** Properties *)

Section properties.
Context (ret1 ret2 : Z) (eagain1 eagain2 : bool) (err1 err2 : bytes).
Context (Herr1 : err_ok err1) (Herr2 : err_ok err2).

Lemma first_hop_text conn reply m s :
  to_nul (c_str m) = Some s → (length m ≤ 255)%nat → (length s ≤ 78)%nat →
  first_hop conn reply ret1 eagain1 err1 m
  = if decide (length s ≤ 7)%nat then Ok (Some s) else Err OutOfBounds.
Proof using Herr1.
  intros Hm Hl Hs. pose proof (to_nul_spec _ _ Hm) as (Hno & _). unfold first_hop.
  rewrite (hop_short _ m s) by done.
  pose proof (receiveAndResponse_text s Hno Hs) as Hr. case_decide.
  - by apply (handler_answer _ HReceiveAndResponse); (done || lia).
  - unfold handlerFunc, handler_reply, handler_call. cbn [sh_fun sh_ie]. rewrite runStage_fun, bind_ok. cbn [p_handler stage1 call_handler element].
    by rewrite Hr.
Qed.

Lemma second_hop_text conn reply s :
  no_nul s → (length s ≤ 7)%nat →
  second_hop conn reply ret2 eagain2 err2 s
  = handlerFunc (call_handler conn reply) ret2 eagain2 err2
      (Sh (sh_fun (runStage HSearchCache)) true (Val true) true
         (Ie (s ++ replicate (256 - length s) NUL) (Val (Z.of_nat (length s) + 1)))).
Proof using.
  intros Hs Hl. unfold second_hop. by rewrite (hop_short _ s s) by (lia || by apply (to_nul_app s [])).
Qed.

(** C27: the two stages of the main program. A message of at most 255 bytes, of
    which [s] are the bytes before the first NUL ([s] is the name for a
    [test_msg], so that its password and times get lost), reaches the end
    without its first byte, if [s] has at most 7 bytes and redis answers with a
    string; for 8 bytes or more the first handler reads past the end of
    [name]; without a connection to redis the message is dropped, and a reply
    without a string is a null pointer that is read. *)
Theorem pipeline_forwards m s :
  to_nul (c_str m) = Some s → (length m ≤ 255)%nat → (length s ≤ 78)%nat →
  let run conn reply := pipeline conn reply ret1 ret2 eagain1 eagain2 err1 err2 m in
  (∀ str, no_nul str → (length str ≤ 94)%nat → (length s ≤ 7)%nat →
     run (Some None) (Some (Some str)) = Ok (Some (drop 1 s)))
  ∧ ((8 ≤ length s)%nat → ∀ conn reply, run conn reply = Err OutOfBounds)
  ∧ ((length s ≤ 7)%nat → ∀ reply,
       run None reply = Ok None
       ∧ (∀ e, no_nul e → (length e ≤ 111)%nat → run (Some (Some e)) reply = Ok None)
       ∧ run (Some None) None = Err NullDeref ∧ run (Some None) (Some None) = Err NullDeref).
Proof using Herr1 Herr2.
  intros Hm Hl Hs run. pose proof (to_nul_spec _ _ Hm) as (Hno & _).
  assert (∀ conn reply, run conn reply
    = if decide (length s ≤ 7)%nat then second_hop conn reply ret2 eagain2 err2 s else Err OutOfBounds) as Hrun.
  { intros conn reply. unfold run, pipeline. rewrite (first_hop_text _ _ m s) by done. by case_decide. }
  split_and!.
  - intros str Hn Hls H7. rewrite Hrun, decide_True, second_hop_text by done.
    apply (handler_answer _ HSearchCache); [done|done| | |rewrite length_drop; lia].
    + by apply (searchCache_text (Some None) (Some (Some str)) s str).
    + unfold no_nul in *. intros ?%subseteq_drop. done.
  - intros H8 conn reply. by rewrite Hrun, decide_False by lia.
  - intros H7 reply. rewrite !Hrun, !decide_True by done.
    assert (∀ conn reply', ¬ (∃ str, conn = Some None ∧ reply' = Some (Some str)) →
      (∀ e, conn = Some (Some e) → no_nul e ∧ (length e ≤ 111)%nat) →
      second_hop conn reply' ret2 eagain2 err2 s
      = match conn with Some None => Err NullDeref | _ => Ok None end) as Hf.
    { intros conn reply' Hc He. rewrite second_hop_text by done. unfold handlerFunc, handler_reply, handler_call.
      cbn [sh_fun sh_ie]. rewrite runStage_fun, bind_ok. cbn [call_handler element].
      rewrite searchCache_fails by (done || lia). by destruct conn as [[]|]. }
    split_and!.
    + apply Hf; [by intros (? & ? & _)|done].
    + intros e Hn Hle. rewrite Hrun, decide_True by done. apply Hf; [by intros (? & ? & _)|].
      by intros e' [= <-].
    + apply Hf; [by intros (? & _ & ?)|done].
    + apply Hf; [by intros (? & _ & ?)|done].
Qed.

(** What runs after [main] has forked twice: two processes, the second one
    subscribed to the port that the first one publishes on, and one that runs
    no stage. A failed first [fork] goes unnoticed: the test for it comes after
    a test that a negative result passes. *)
Theorem main_topology (child1 child2 : Z) :
  0 < child1 → 0 < child2 →
  main child1 child2 = Ok (Some stage1) ∧ main 0 child2 = Ok (Some stage2) ∧ main 0 0 = Ok None
  ∧ main (-1) child2 = Ok (Some stage1) ∧ main 0 (-1) = Ok (Some stage2)
  ∧ drop 8 (p_destination stage1) = drop 16 (p_resource stage2).
Proof using.
  intros H1 H2. unfold main. rewrite (proj2 (Z.eqb_neq child1 0)), (proj2 (Z.eqb_neq child2 0)) by lia.
  by split_and!.
Qed.
End properties.

(** ** Witnesses *)

(** A [test_msg] of a user with a password. *)
Definition demo_msg : bytes :=
  bs "bob" ++ replicate 5 NUL ++ bs "secret" ++ replicate 2 NUL ++ replicate 16 "001"%char.

Lemma pipeline_forwards_witness :
  pipeline (Some None) (Some (Some (bs "42"))) 3 2 false false (bs "Success") (bs "Success") demo_msg
  = Ok (Some (bs "ob"))
  ∧ pipeline None None 3 2 false false (bs "Success") (bs "Success") demo_msg = Ok None.
Proof.
  assert (err_ok (bs "Success")) as He by (split; [no_nul|simpl; lia]).
  destruct (pipeline_forwards 3 2 false false (bs "Success") (bs "Success") He He demo_msg (bs "bob"))
    as (H1 & _ & H3); [vm_compute; reflexivity|vm_compute; lia|vm_compute; lia|].
  split.
  - exact (H1 (bs "42") ltac:(no_nul) ltac:(vm_compute; lia) ltac:(vm_compute; lia)).
  - destruct (H3 ltac:(vm_compute; lia) None) as [H4 _]. exact H4.
Defined.

Lemma main_topology_witness : main 10 11 = Ok (Some stage1) ∧ main 0 11 = Ok (Some stage2).
Proof. destruct (main_topology 10 11) as (H1 & H2 & _); [lia|lia|]. split; [exact H1|exact H2]. Defined.
