(* ===== verification/StageProcess.v ===== *)
(** * A process of main.cpp, from [runStage] on

    [runStage] as a program of system calls: the log, the stage object with its
    setters, [stage::init], the handler; then [stage::run], which does not
    return. *)

From S2P Require Import Prelude Sys Log WorkerPool Receiver Stage StageSetup Seda Pipeline.
Open Scope Z_scope.

(** ** Operations *)

(** What [runStage] has when it calls [stage::run]. *)
Record process := Process {
  p_stage : stage;
  p_sender : sender;
  p_receives : list bytes;                              (* resources of the receiver *)
  p_tasks : list (@queue_element stage_task unit);      (* in the order of the pushes *)
  p_sh : @stage_handler handler unit }.

Section run_stage.
(** The process, what [zmq_errno] and [zmq_strerror] return. *)
Context (pid errno : Z) (err : bytes).

(** Up to [s.run()]; the results of [LogUtil::init] and of the constructor of
    [Config] are not looked at. *)
Definition runStage_setup (name : bytes) (p : stage_proc) : sys_prog process :=
  LogUtil_init pid true;;
  sys_lift (log_debug (bs "main.cpp : [main] config success"));;
  let s := Stage.setDestination (p_destination p) (setResources [p_resource p] (stage_of name)) in
  '(sd, res, tasks) ← stage_init (resources s) (des s) errno err;
  sys_lift (log_debug (bs "main : [main] stage " ++ name ++ bs " init success"));;
  mret (Process s sd res tasks (runStage (p_handler p))).

(** All of it; [stage::run] gets [fuel]. *)
Definition runStage_all (fuel : nat) (name : bytes) (p : stage_proc) : sys_prog bool :=
  s ← runStage_setup name p; sys_lift (stage_run fuel).

(** The name that [main] gives to the stage. *)
Definition name_of (p : stage_proc) : bytes :=
  match p_handler p with HReceiveAndResponse => bs "receive_response" | HSearchCache => bs "search_cache" end.

(** ** Lemmas *)

(** [LogUtil::init]: the thread of the logger only if the file could be opened. *)
Lemma LogUtil_init_effects fd ret rs :
  0 ≤ pid < 2 ^ 31 →
  LogUtil_init pid true (fd :: if fd =? -1 then rs else ret :: rs)
  = (Open_ (bs "./log/server_" ++ dec pid ++ bs ".log") :: (if fd =? -1 then [] else [PthreadCreate]),
     Ok (Log.init true fd ret, rs)).
Proof.
  intros Hp%dec_length. unfold LogUtil_init, Log.init. generalize dependent (dec pid). intros d Hd.
  replace (bs "./log/server" ++ bs "_" ++ d ++ bs ".log") with (bs "./log/server_" ++ d ++ bs ".log") by done.
  rewrite decide_True by (rewrite !length_app; cbn; lia).
  rewrite (sys_bind_done _ _ _ [] () (fd :: if fd =? -1 then rs else ret :: rs)) by done. rewrite sys_call_bind.
  destruct (fd =? -1); [done|]. by rewrite sys_call_bind.
Qed.

Lemma main_proc fork1 fork2 p :
  main fork1 fork2 = Ok (Some p) →
  no_nul (p_destination p) ∧ (length (p_destination p) ≤ 97)%nat ∧ no_nul (name_of p) ∧ (length (name_of p) ≤ 20)%nat.
Proof.
  unfold main. repeat case_match; intros [= <-]; (split_and!; [no_nul|vm_compute; lia|no_nul|vm_compute; lia]).
Qed.

(** ** Property *)

(** C32: how the processes of main.cpp begin. Whatever [fork] and the system
    answer, a process that has a stage opens its log, starts the logger if it
    could, makes the publisher's socket and binds it; if ZeroMQ gives no context
    or no socket the process aborts, if the address cannot be bound it sleeps
    for three seconds and exits. Otherwise 20 workers are started, the three
    tasks have been pushed, the receiver has the resource, and the handler is
    set only then, after the task that tests it. [runStage] never returns. *)
Theorem main_process_starts fork1 fork2 p fd logger ctx sock bind rs :
  main fork1 fork2 = Ok (Some p) → 0 ≤ pid < 2 ^ 31 → 0 ≤ errno ≤ 999 → no_nul err → (length err ≤ 76)%nat →
  (20 ≤ length rs)%nat →
  let name := name_of p in let des := p_destination p in
  let zmq := ctx :: sock :: bind :: rs in
  let answers := fd :: if fd =? -1 then zmq else logger :: zmq in
  runStage_setup name p answers
  = after (Open_ (bs "./log/server_" ++ dec pid ++ bs ".log") :: if fd =? -1 then [] else [PthreadCreate])
      (if ctx =? 0 then ([ZmqCtxNew], Err Aborted)
       else if sock =? 0 then ([ZmqCtxNew; ZmqSocket true], Err Aborted)
       else if bind =? 0 then
         ([ZmqCtxNew; ZmqSocket true; ZmqBind des] ++ replicate 20 PthreadCreate,
          Ok (Process (Stage name [p_resource p] des Indeterminate (Val (replicate REG_MEM None)))
                (Sd true (Val sock) des) [p_resource p] init_tasks (runStage (p_handler p)), drop 20 rs))
       else ([ZmqCtxNew; ZmqSocket true; ZmqBind des; Sleep 3; Exit (-1)], Err Aborted))
  ∧ ∀ fuel rs b, result_of (runStage_all fuel name p) rs ≠ Ok b.
Proof.
  intros Hp Hpid Hn He Hle Hrs name des zmq answers. destruct (main_proc _ _ _ Hp) as (Hd & Hld & Hna & Hla). split.
  - unfold runStage_setup. rewrite (sys_bind_done _ _ _ _ _ _ (LogUtil_init_effects fd logger zmq Hpid)). f_equal.
    rewrite sys_log by (no_nul || vm_compute; lia). cbn zeta. cbn [resources Stage.des Stage.setDestination setResources stage_of].
    pose proof (stage_init_effects [p_resource p] des errno err ctx sock bind rs Hd Hld Hn He Hle Hrs) as Hi.
    fold des zmq in Hi |- *.
    destruct (ctx =? 0), (sock =? 0), (bind =? 0); try (unfold mbind at 1, sys_bind at 1; by rewrite Hi).
    rewrite (sys_bind_done _ _ _ _ _ _ Hi). cbn beta iota. rewrite sys_log.
    + done.
    + apply no_nul_app; [no_nul|]. apply no_nul_app; [done|no_nul].
    + rewrite !length_app. cbn. fold name in Hla. lia.
  - assert (∀ fuel, stage_run fuel = Timeout) as Ht by (by intros fuel; induction fuel).
    intros fuel rs0 b (s & rs1 & _ & H)%result_of_bind. unfold result_of, sys_lift in H. by rewrite Ht in H.
Qed.
End run_stage.

(** ** Witness *)

(** The first process: its log is descriptor 3. *)
Lemma main_process_starts_witness :
  runStage_setup 4711 0 [] (name_of stage1) stage1 ([3; 0; 1; 2; 0] ++ replicate 20 0)
  = ([Open_ (bs "./log/server_4711.log"); PthreadCreate; ZmqCtxNew; ZmqSocket true; ZmqBind (bs "tcp://*:5667")]
     ++ replicate 20 PthreadCreate,
     Ok (Process (Stage (bs "receive_response") [bs "tcp://localhost:5666"] (bs "tcp://*:5667") Indeterminate
                    (Val (replicate REG_MEM None)))
           (Sd true (Val 2) (bs "tcp://*:5667")) [bs "tcp://localhost:5666"] init_tasks
           (runStage HReceiveAndResponse), [])).
Proof.
  apply (main_process_starts 4711 0 [] 4710 0 stage1 3 0 1 2 0 (replicate 20 0));
    [reflexivity|lia|lia|no_nul|simpl; lia|vm_compute; lia].
Defined.
