(* ===== verification/MainRun.v ===== *)
(** * The two stages of main.cpp, running

    main.cpp forks a process for each of its stages; ZeroMQ carries what the
    first one publishes on port 5667 to the second one.  Here both run as the
    machine of StageRun.v, with the handlers of Pipeline.v.  ZeroMQ is assumed to
    deliver messages in the order of their sending; it may drop some, as a
    publisher does for a subscriber that is not connected yet or too slow. *)

From S2P Require Import Prelude Log JobQueue WorkerPool Receiver Stage StageRun StageHop Seda Pipeline.
Open Scope Z_scope.

(** What a subscriber gets of what the publisher sends. *)
Definition zmq_delivers (sent received : list bytes) : Prop := received `sublist_of` sent.

(** ** One message, whatever [zmq_send] returns *)

Lemma handler_send_text ret eagain err res data :
  no_nul res → (length res ≤ 255)%nat → handler_send ret eagain err (text_element res) = Ok data → data = res.
Proof.
  intros Hno Hl H. unfold handler_send in H.
  destruct (text_element_reads res Hno) as (H1 & H2 & H3); [lia|].
  unfold sendMsg in H. rewrite H1, bind_ok, H2, bind_ok in H. ok_inv. destruct v as [d b].
  assert (d = take (Z.to_nat (Z.of_nat (length res))) (element (text_element res))) as -> by (case_decide; [done|case_match; by ok_inv]).
  rewrite Nat2Z.id, H3 in H. by ok_inv.
Qed.

(** A message of at most 255 bytes with the text [s] in front of its first NUL. *)
Definition named (m s : bytes) : Prop :=
  to_nul (c_str m) = Some s ∧ (length m ≤ 255)%nat ∧ (length s ≤ 78)%nat.

Lemma hop_of_call {F} (call : F → bytes → outcome (option bytes)) h m s o :
  named m s → hop_of (P := unit) call h m o →
  ∃ res, call h (s ++ replicate (256 - length s) NUL) = Ok res
    ∧ (res = None → o = None) ∧ ∀ r, res = Some r → no_nul r → (length r ≤ 255)%nat → o = Some r.
Proof.
  intros (Hm & Hl & Hs) (ret & ea & err & H). rewrite (hop_short _ m s) in H by done.
  unfold handlerFunc, handler_reply, handler_call in H. cbn [ready setHandler sh_fun sh_ie element] in H.
  change (getFunction _) with (Ok (Some h)) in H. rewrite bind_ok in H.
  destruct (call h _) as [[r|]| |] eqn:Hc; simplify_eq/=; eexists; (split; [done|]); [|done].
  split; [done|]. intros r' [= <-] Hno Hlr. rewrite IElement_of_text, !bind_ok in H by (done || lia).
  ok_inv. f_equal. by eapply handler_send_text.
Qed.

Section main_run.
Context (conn reply : option (option bytes)).
Abbreviation call := (call_handler conn reply).

Lemma first_stage ms os names :
  Forall2 (hop_of (P := unit) call HReceiveAndResponse) ms os → Forall2 named ms names →
  os = map Some names ∧ Forall (λ n, no_nul n ∧ (length n ≤ 7)%nat) names.
Proof.
  intros Ho. revert names; induction Ho as [|m o ms os Hm _ IH]; intros ns Hn.
  { inversion Hn; subst. by split. }
  apply Forall2_cons_inv_l in Hn as (s & names & Hs & Hn & ->). destruct (IH _ Hn) as [-> Hall].
  destruct (hop_of_call _ _ _ _ _ Hs Hm) as (res & Hc & _ & Hres). destruct Hs as (Hm' & Hl & Hs).
  pose proof (to_nul_spec _ _ Hm') as (Hno & _). cbn in Hc. rewrite receiveAndResponse_text in Hc by done.
  case_decide; [|done]. ok_inv. rewrite (Hres s) by (done || lia). split; [done|]. by constructor.
Qed.

Lemma second_stage str names os :
  conn = Some None → reply = Some (Some str) → no_nul str → (length str ≤ 94)%nat →
  Forall (λ n, no_nul n ∧ (length n ≤ 7)%nat) names →
  Forall2 (hop_of (P := unit) call HSearchCache) names os → os = map Some (map (drop 1) names).
Proof.
  intros Hc Hr Hs Hl Hn Ho. induction Ho as [|n o names os Hm _ IH]; [done|].
  apply Forall_cons in Hn as [[Hno Hn] Hall]. rewrite IH by done. cbn. f_equal.
  destruct (hop_of_call call HSearchCache n n o) as (res & Hcall & _ & Hres); [|done|].
  { split; [by apply (to_nul_app n [])|lia]. }
  cbn [call_handler] in Hcall. rewrite (searchCache_text _ _ _ str) in Hcall by (done || lia).
  ok_inv. rewrite (Hres (drop 1 n)); [done|done| |rewrite length_drop; lia].
  unfold no_nul in *. by intros ?%subseteq_drop.
Qed.

Lemma omap_id_Some {A} (l : list A) : omap id (map Some l) = l.
Proof. induction l as [|x l IH]; [done|]. cbn. by rewrite IH. Qed.

(** C26: the two stages of main.cpp in their two processes, each under any
    schedule in which its messages come one at a time, joined by a ZeroMQ that
    keeps the order. The first stage sends the names in its messages, all but
    perhaps the last one, and only names of at most 7 bytes; the second one
    sends names without their first byte, in the same order; and if ZeroMQ drops
    nothing and all tasks have ended, it has sent all of them. Redis is taken to
    answer every command with a string. *)
Theorem main_stages_run {Q} `{!AtomicQueue (A := task) Q} (q1 q2 : Q) ms1 s1 es1 ms2 s2 es2 names str :
  let start1 := stage_started (F := handler) (P := unit) (p_handler stage1) q1 in
  let start2 := stage_started (F := handler) (P := unit) (p_handler stage2) q2 in
  fresh_queue 21 q1 → fresh_queue 21 q2 →
  srun call start1 ms1 = Some (Ok (s1, es1)) → slow call start1 ms1 →
  srun call start2 ms2 = Some (Ok (s2, es2)) → slow call start2 ms2 →
  conn = Some None → reply = Some (Some str) → no_nul str → (length str ≤ 94)%nat →
  Forall2 named (delivered ms1) names → zmq_delivers (sent es1) (delivered ms2) →
  sent es1 `prefix_of` names ∧ (length names ≤ S (length (sent es1)))%nat
  ∧ Forall (λ n, (length n ≤ 7)%nat) (sent es1)
  ∧ sent es2 `sublist_of` map (drop 1) (sent es1)
  ∧ (length (received_ es1) = ended_ es1 → length (received_ es2) = ended_ es2 → delivered ms2 = sent es1 →
     sent es2 = map (drop 1) names).
Proof.
  intros start1 start2 Hq1 Hq2 Hr1%machine_run_reach Hs1 Hr2%machine_run_reach Hs2 Hc Hrep Hno Hl Hn Hz.
  destruct (sreach_hops _ _ _ _ _ _ Hq1 Hr1 Hs1) as (done1 & later1 & os1 & Hd1 & Hl1 & Hf1 & Hh1 & Hsent1).
  destruct (sreach_hops _ _ _ _ _ _ Hq2 Hr2 Hs2) as (done2 & later2 & os2 & Hd2 & Hl2 & Hf2 & Hh2 & Hsent2).
  rewrite Hd1 in Hn. apply Forall2_app_inv_l in Hn as (names1 & rest & Hn1 & Hrest & ->).
  destruct (first_stage _ _ _ Hh1 Hn1) as [-> Hshort]. rewrite omap_id_Some in Hsent1. rewrite Hsent1 in *.
  assert (Forall (λ n, no_nul n ∧ (length n ≤ 7)%nat) done2) as Hshort2.
  { rewrite Forall_forall in *. intros n Hin. apply Hshort. eapply elem_of_sublist; [|exact Hz]. rewrite Hd2. apply elem_of_app. by left. }
  rewrite (second_stage _ _ _ Hc Hrep Hno Hl Hshort2 Hh2), omap_id_Some in Hsent2. rewrite Hsent2.
  pose proof (Forall2_length _ _ _ Hrest) as Hlr. split_and!.
  - by exists rest.
  - rewrite length_app. lia.
  - eapply Forall_impl; [exact Hshort|]. by intros n [_ H].
  - apply fmap_sublist. etrans; [|exact Hz]. rewrite Hd2. by apply sublist_inserts_r.
  - intros E1 E2 E. rewrite (Hf1 E1) in *. rewrite (Hf2 E2), app_nil_r in Hd2.
    symmetry in Hlr. apply nil_length_inv in Hlr as ->. by rewrite app_nil_r, <-E, Hd2.
Qed.
End main_run.

(** ** Witnesses *)

(** Two users send a [test_msg] to the first process; the names reach the second. *)
Definition demo_users : list bytes := [demo_msg; bs "eve" ++ replicate 29 NUL].
Definition demo_names : list bytes := [bs "bob"; bs "eve"].
Definition serve_two (m n : bytes) : list smove := demo_boot ++ serves 3 m ++ serves 4 n.
Definition demo_reply : option (option bytes) := Some (Some (bs "42")).
Definition demo_call : handler → bytes → outcome (option bytes) := call_handler (Some None) demo_reply.
Definition demo_start (p : stage_proc) : @ssys handler unit (@conf task) := stage_started (p_handler p) (init 21).
Definition demo_run (p : stage_proc) (ms : list smove) : @ssys handler unit (@conf task) * list sevent :=
  match srun demo_call (demo_start p) ms with Some (Ok r) => r | _ => (demo_start p, []) end.
Definition moves1 : list smove := serve_two demo_msg (bs "eve" ++ replicate 29 NUL).
Definition moves2 : list smove := serve_two (bs "bob") (bs "eve").

Lemma main_stages_run_witness :
  (delivered moves1 = demo_users ∧ sent (demo_run stage1 moves1).2 = demo_names)
  ∧ sent (demo_run stage2 moves2).2 = [bs "ob"; bs "ve"].
Proof.
  split; [vm_compute; done|].
  pose proof (main_stages_run (Some None) demo_reply (init 21) (init 21)
    moves1 (demo_run stage1 moves1).1 (demo_run stage1 moves1).2
    moves2 (demo_run stage2 moves2).1 (demo_run stage2 moves2).2 demo_names (bs "42")) as H. cbv zeta in H.
  destruct H as (_ & _ & _ & _ & H); [apply demo_stage_fresh|apply demo_stage_fresh|vm_compute; reflexivity
    |apply slow_from_slow; vm_compute; reflexivity|vm_compute; reflexivity
    |apply slow_from_slow; vm_compute; reflexivity|reflexivity|reflexivity|no_nul|vm_compute; lia| | |].
  - repeat constructor; vm_compute; lia.
  - assert (delivered moves2 = sent (demo_run stage1 moves1).2) as -> by (vm_compute; done). unfold zmq_delivers. reflexivity.
  - rewrite H; vm_compute; done.
Defined.
