(* ===== verification/Daemon.v ===== *)
(** * main.cpp: [daemonize]

    The function that would turn the process into a daemon; its call in [main]
    is commented out.  [printf]s are left out, and [rlim] is what [getrlimit]
    stores if it succeeds. *)

From S2P Require Import Prelude Sys WorkerPool.
Open Scope Z_scope.

Definition RLIM_INFINITY : Z := 2 ^ 64 - 1.

(** A [fork] of the function: the parent exits, and a failure is printed. *)
Definition fork_child : sys_prog unit :=
  pid ← sys Fork;
  if pid <? 0 then mret () else if negb (pid =? 0) then exit_ 0 else mret ().

(** [for (i = 0; i < n; i++) close(i);] *)
Fixpoint close_all (n : nat) (i : Z) : sys_prog unit :=
  match n with O => mret () | S n => sys_ (Close_ i);; close_all n (i + 1) end.

Definition daemonize (rlim : Z) : sys_prog unit :=
  sys_ (Umask 0);;
  ret ← sys Getrlimit;
  let rlim_max := if ret <? 0 then Indeterminate else Val rlim in
  fork_child;;
  sys_ Setsid;;
  sys_ IgnoreHup;;
  fork_child;;
  sys_ (Chdir (bs "/"));;
  m ← sys_lift (read_cell rlim_max);
  let m := if m =? RLIM_INFINITY then 1024 else m in
  close_all (Z.to_nat (to_int m)) 0;;
  fd0 ← sys (Open_ (bs "/dev/null"));
  fd1 ← sys (Dup 0);
  fd2 ← sys (Dup 0);
  sys_ Openlog;;
  if negb (fd0 =? 0) || negb (fd1 =? 1) || negb (fd2 =? 2) then sys_ Syslog;; exit_ 1
  else sys_ Syslog.

(** ** Lemmas *)

Lemma close_all_ok n i rs :
  (n ≤ length rs)%nat →
  close_all n i rs = ((λ k, Close_ (i + Z.of_nat k)) <$> seq 0 n, Ok ((), drop n rs)).
Proof.
  revert i rs; induction n as [|n IH]; intros i [|r rs] Hl; simpl in Hl; try lia; [done..|].
  cbn [close_all]. rewrite sys_call_bind_, IH by lia. unfold after. cbn [fst snd app seq fmap list_fmap drop].
  rewrite Z.add_0_r, <-fmap_S_seq, <-list_fmap_compose.
  do 2 f_equal. apply list_fmap_ext. intros k x _. unfold compose. f_equal. lia.
Qed.

(** The number of descriptors that the loop closes. *)
Definition closes (rlim : Z) : nat := Z.to_nat (to_int (if rlim =? RLIM_INFINITY then 1024 else rlim)).

(** ** Properties *)

(** The daemon: if both calls of [fork] return 0 and the limit is known, every
    descriptor below the limit is closed, in order, and the process goes on
    exactly if the next three are 0, 1 and 2.  (A failed [fork] lets the
    process go on as it is.) *)
Theorem daemonize_child rlim u s h c closed fd0 fd1 fd2 o l rs :
  length closed = closes rlim →
  daemonize rlim ([u; 0; 0; s; h; 0; c] ++ closed ++ [fd0; fd1; fd2; o; l] ++ rs)
  = ([Umask 0; Getrlimit; Fork; Setsid; IgnoreHup; Fork; Chdir (bs "/")]
     ++ (Close_ ∘ Z.of_nat <$> seq 0 (closes rlim))
     ++ [Open_ (bs "/dev/null"); Dup 0; Dup 0; Openlog; Syslog]
     ++ (if bool_decide (fd0 = 0 ∧ fd1 = 1 ∧ fd2 = 2) then [] else [Exit 1]),
     if bool_decide (fd0 = 0 ∧ fd1 = 1 ∧ fd2 = 2) then Ok ((), rs) else Err Aborted).
Proof.
  intros Hc. unfold daemonize. cbn [app]. assert (∀ rs, fork_child (0 :: rs) = ([Fork], Ok ((), rs))) as Hf by done.
  rewrite sys_call_bind_, sys_call_bind, (sys_bind_done _ _ _ _ _ _ (Hf _)), !sys_call_bind_.
  rewrite (sys_bind_done _ _ _ _ _ _ (Hf _)), sys_call_bind_. cbn [Z.ltb Z.compare read_cell].
  assert (∀ B (k : Z → sys_prog B) rs, (sys_lift (Ok rlim) ≫= k) rs = k rlim rs) as ->.
  { intros B k rs'. unfold sys_lift, mbind, sys_bind. cbn. by destruct (k rlim rs'). }
  fold (closes rlim).
  rewrite (sys_bind_done _ _ _ _ _ _ (close_all_ok (closes rlim) 0 (closed ++ [fd0; fd1; fd2; o; l] ++ rs)
    ltac:(rewrite length_app; lia))).
  rewrite drop_app_length' by done. cbn [app]. rewrite !sys_call_bind, sys_call_bind_.
  destruct (Z.eqb_spec fd0 0), (Z.eqb_spec fd1 1), (Z.eqb_spec fd2 2); cbn [negb orb];
    rewrite ?(bool_decide_eq_true_2 (fd0 = 0 ∧ _)), ?(bool_decide_eq_false_2 (fd0 = 0 ∧ _)) by tauto;
    rewrite ?app_nil_r; reflexivity.
Qed.

(** If [getrlimit] has failed, the loop runs up to a limit without a value. *)
Theorem daemonize_limit_unknown rlim u s h c rs :
  daemonize rlim ([u; -1; 0; s; h; 0; c] ++ rs)
  = ([Umask 0; Getrlimit; Fork; Setsid; IgnoreHup; Fork; Chdir (bs "/")], Err Uninitialised).
Proof. done. Qed.

(** ** Witnesses *)

Lemma daemonize_child_witness :
  daemonize 2 [18; 0; 0; 5; 0; 0; 0; 0; 0; 0; 1; 2; 0; 0]
  = ([Umask 0; Getrlimit; Fork; Setsid; IgnoreHup; Fork; Chdir (bs "/"); Close_ 0; Close_ 1;
      Open_ (bs "/dev/null"); Dup 0; Dup 0; Openlog; Syslog], Ok ((), [])).
Proof. apply (daemonize_child 2 18 5 0 0 [0; 0] 0 1 2 0 0 []). vm_compute. reflexivity. Defined.
