(* ===== verification/Programs.v ===== *)
(** * The test programs that drive the library

    test/src/test_splaytree.cpp, test/src/test_redis_client.cpp and
    test_mq_client.cpp: their [main]s, composed of the functions of the other
    files, with what they print. *)

From S2P Require Import Prelude Sys Log Heap SplayTree SplayHeap SplayRefine MqClient WorkerPool Net Seda StageProcess.
Open Scope Z_scope.

(** ** test_splaytree.cpp *)

(** [data[3]]; a data pointer is an index. *)
Definition splay_data : list Z := [1; 2; 3].

(** What is printed: the size of the root, and the data of the key 1002 if
    there is a tree. *)
Definition test_splaytree (fuel : nat) : HM tree_node (Z * option Z) :=
  root ← splaytree_insert fuel true None 1001 0;
  root ← splaytree_insert fuel true root 1002 1;
  root ← splaytree_insert fuel true root 1003 2;
  n ← load root;
  sp ← splaytree_splay fuel root 1002;
  match sp with
  | None => mret (nsize n, None)
  | Some _ =>
      m ← load sp;
      d ← lift (match splay_data !! Z.to_nat (ndata m) with Some d => Ok d | None => Err OutOfBounds end);
      mret (nsize n, Some d)
  end.

(** ** test_redis_client.cpp *)

(** [rc->decrRefCount()], with the destructor of the derived class if it deletes
    the object. *)
Definition decr_client (o : sedaObject) (rc : redisClient) : outcome sedaObject :=
  o ← decrRefCount o;
  _ ← (if deleted o then redis_destroy rc else Ok tt);
  Ok o.

(** [conn] is the result of [redisConnect]; a reply is NULL, or has its string
    if it has one.  The result of [main], and what it prints as [test:name]. *)
Definition reply_handle (r : option (option bytes)) : handle := match r with None => Null | Some _ => Live end.
Definition test_redis_client (pid : Z) (conn reply1 reply2 : option (option bytes)) : sys_prog (Z * option bytes) :=
  LogUtil_init pid true;;
  o ← sys_lift (incrRefCount sedaObject_new);
  '(rc, suc) ← sys_lift (Seda.connect conn redisClient_new);
  if suc : bool then
    '(rc, _) ← sys_lift (command (reply_handle reply1) rc);
    '(rc, _) ← sys_lift (command (reply_handle reply2) rc);
    str ← sys_lift (match reply2 with
      | None => Err NullDeref
      | Some None => Err NullDeref        (* [printf] of a string that is NULL *)
      | Some (Some str) => Ok str
      end);
    sys_lift (decr_client o rc);;
    mret (0, Some str)
  else sys_lift (decr_client o rc);; mret (-1, None).

(** ** test_mq_client.cpp *)

Section mq_client.
(** The identifiers that [pthread_create] stores for reader and publisher, and
    the results of [write]. *)
Context (reader publisher : Z) (write : bytes → Z).

(** The name of the publisher to subscribe to: the address without the port. *)
Definition publisher_name_of (ser_ip_port : bytes) : outcome bytes :=
  let index := match find_char ser_ip_port ":"%char with Some i => Z.of_nat i | None => size_t (-1) end in
  memcpy (replicate 128 NUL) 0 (c_str ser_ip_port) 0 index.

(** [publish]: [now n] is the text of [asctime] in the n-th round; [i] does not
    change. *)
Fixpoint publish (now : nat → bytes) (fuel n : nat) (i : Z) : sys_prog () :=
  match fuel with
  | O => sys_lift Timeout
  | S fuel =>
      if i <? 100 then
        sys_ (Sleep 1);;
        sys_lift (send write (now n));;
        publish now fuel (S n) i
      else mret ()
  end.

(** [handle_error] ends the process. *)
Definition test_mq_client (argv : list bytes) : sys_prog Z :=
  match argv with
  | _ :: ser_ip_port :: role :: _ =>
      role ← sys_lift (atoi role);
      '(mc, ret) ← Net.connect (mq_client_new ser_ip_port);
      if negb (ret =? 0) then exit_ (-1)
      else
        name ← sys_lift (if role =? 0 then Ok (replicate 128 NUL) else publisher_name_of ser_ip_port);
        '(_, ret) ← sys_lift (register_mq write role name);
        if negb (ret =? 0) then exit_ (-1)
        else
          mc ← client_loop reader mc;
          pid ← (if role =? 0 then ret ← sys PthreadCreate; mret (if ret =? 0 then publisher else 0) else mret 0);
          wait mc;;                                  (* [delete mc] *)
          (if role =? 0 then mret () else sys_ (PthreadJoin pid));;
          mret 0
  | _ => mret (-1)
  end.
End mq_client.

(** ** What they print *)

Lemma owns_nothing (h : gmap loc tree_node) : owns h [] h.
Proof. split_and!; [constructor|by intros p ?%not_elem_of_nil|by rewrite left_id_L by apply _]. Qed.

(** Keys of a tree that is known but for its addresses. *)
Ltac small_tree := apply nonneg_int_comparable; [lia|]; cbn; repeat constructor; cbn; lia.

(** test_splaytree.cpp, on any heap: three nodes, and the data of the key that
    was looked for; the rest of the memory is left alone. *)
Theorem test_splaytree_prints fuel h :
  (3 ≤ fuel)%nat →
  ∃ t h', test_splaytree fuel h = Ok ((3, Some 2), h') ∧ owns h' (tnodes t) h
    ∧ keys (elems t) = [1001; 1002; 1003].
Proof.
  intros Hf.
  assert (hwp (test_splaytree fuel) [] h (λ r L', ∃ t, r = (3, Some 2) ∧ L' ≡ₚ tnodes t ∧ keys (elems t) = [1001; 1002; 1003])) as H.
  { unfold test_splaytree.
    eapply hwp_bind, (insert_ok h fuel 1001 0 Leaf); [by small_tree|done|cbn; lia|done|].
    intros n1 L1 t1 HL1. eapply hwp_bind, (insert_ok h fuel 1002 1 t1); [by small_tree|done| |done|].
    { etrans; [apply rounds_size|]. change (tsize t1) with 1. lia. }
    intros n2 L2 t2 HL2. eapply hwp_bind, (insert_ok h fuel 1003 2 t2); [by small_tree|done| |done|].
    { etrans; [apply rounds_size|]. change (tsize t2) with 2. lia. }
    intros n3 L3 t3 HL3. eapply hwp_perm; [exact HL3|].
    set (t := Node (Node (Node Leaf (Entry n1 1001 0) Leaf) (Entry n2 1002 1) Leaf) (Entry n3 1003 2) Leaf).
    change t3 with t. unfold t. cbn [tnodes root e_loc]. exec. change (Some n3) with (root t).
    eapply (splay_ok h fuel 1002 t); [by small_tree|done| |reflexivity|].
    { etrans; [apply rounds_size|]. change (tsize t) with 3. lia. }
    intros L4 HL4. eapply hwp_perm; [exact HL4|].
    change (splay 1002 t) with (Node (Node Leaf (Entry n1 1001 0) Leaf) (Entry n2 1002 1) (Node Leaf (Entry n3 1003 2) Leaf)).
    cbn [root tnodes]. exec.
    eapply hwp_lift; [reflexivity|]. apply hwp_ret. exists (splay 1002 t). done. }
  destruct (H h (owns_nothing h)) as (r & h' & L' & E & Hh' & t & -> & HL' & Hk). exists t, h'. by rewrite <-HL'.
Qed.

(** test_redis_client.cpp. With a server that answers both commands it prints the
    second answer and ends well, although only the second reply is freed; whatever
    the first command answers, NULL too, nothing is noticed; a second answer
    without a string is printed all the same; and without a server the
    destructor, which [decrRefCount] runs, reads a reply that there never was. *)
Theorem test_redis_client_ends pid fd ret rs reply1 reply2 conn :
  0 ≤ pid < 2 ^ 31 →
  result_of (test_redis_client pid conn reply1 reply2) (fd :: if fd =? -1 then rs else ret :: rs)
  = match conn, reply2 with
    | Some None, Some (Some str) => Ok (0, Some str)
    | Some None, _ => Err NullDeref
    | Some (Some errstr), _ => _ ← log_debug (bs "Error: " ++ errstr); Err Uninitialised
    | None, _ => Err Uninitialised
    end.
Proof.
  intros Hp. unfold result_of, test_redis_client.
  rewrite (sys_bind_done _ _ _ _ _ _ (LogUtil_init_effects pid fd ret rs Hp)). cbn [after snd].
  destruct conn as [[errstr|]|].
  - cbn -[log_debug]. by destruct (log_debug _).
  - by destruct reply1, reply2 as [[str|]|].
  - done.
Qed.

(** The threads that a program joins. *)
Definition joins {A} (P : Z → Prop) (m : sys_prog A) : Prop := ∀ rs p, PthreadJoin p ∈ calls_of m rs → P p.

Section joins.
Context (P : Z → Prop).
Lemma joins_bind {A B} (m : sys_prog A) (k : A → sys_prog B) :
  joins P m → (∀ a rs rs', (m rs).2 = Ok (a, rs') → joins P (k a)) → joins P (m ≫= k).
Proof. intros Hm Hk rs p [H|(a & rs' & Ha & H)]%calls_of_bind; [by eapply Hm|by eapply Hk]. Qed.
Lemma joins_lift {A} (m : outcome A) : joins P (sys_lift m).
Proof. intros rs p H. by apply not_elem_of_nil in H. Qed.
Lemma joins_ret {A} (a : A) : joins P (mret a).
Proof. intros rs p H. by apply not_elem_of_nil in H. Qed.
Lemma joins_exit {A} c : joins P (exit_ c : sys_prog A).
Proof. intros rs p H. by apply list_elem_of_singleton in H. Qed.
Lemma joins_sys c : (∀ p, c = PthreadJoin p → P p) → joins P (sys c).
Proof. intros Hc rs p H. rewrite calls_of_sys in H. apply list_elem_of_singleton in H. by apply Hc. Qed.
Lemma joins_sys_ c : (∀ p, c = PthreadJoin p → P p) → joins P (sys_ c).
Proof. intros Hc. apply joins_bind; [by apply joins_sys|]. intros. apply joins_ret. Qed.
End joins.
#[local] Hint Resolve joins_lift joins_ret joins_exit : core.

Lemma connect_joins P mc : joins P (Net.connect mc).
Proof.
  apply joins_bind; [done|]. intros [[ip port] x] _ _ _. apply joins_bind; [by apply joins_sys|].
  intros fd _ _ _. apply joins_bind; [by apply joins_sys|]. intros c _ _ _. by case_match.
Qed.
Lemma connect_pid mc rs mc' r rs' : (Net.connect mc rs).2 = Ok ((mc', r), rs') → pid mc' = pid mc.
Proof.
  intros H. assert (result_of (Net.connect mc) rs = Ok (mc', r)) as Hr by (unfold result_of; by rewrite H).
  apply result_of_bind in Hr as ([[ip port] x] & rs1 & _ & Hr). apply result_of_bind in Hr as (fd & rs2 & _ & Hr).
  apply result_of_bind in Hr as (c & rs3 & _ & Hr). case_match; by injection Hr as <- <-.
Qed.

(** test_mq_client.cpp. The thread that publishes is never joined: [main] only
    waits for the reader of the client, in the destructor, and then deletes
    the client which the publisher goes on using; with the other role it joins
    the thread 0, which it has never created. *)
Theorem test_mq_client_joins reader publisher write argv :
  joins (λ p, p = reader ∨ p = 0) (test_mq_client reader publisher write argv).
Proof.
  unfold test_mq_client. destruct argv as [|a0 [|ser [|role argv]]]; [done..|].
  apply joins_bind; [auto|]. intros r _ _ _. apply joins_bind; [apply connect_joins|].
  intros [mc ret] rs rs' Hmc%connect_pid. cbn in Hmc. case_match; [auto|]. apply joins_bind; [auto|]. intros name _ _ _.
  apply joins_bind; [auto|]. intros [f ret'] _ _ _. case_match; [auto|]. apply joins_bind.
  { apply joins_bind; [by apply joins_sys|auto]. }
  intros mc' rs1 rs2 Hl. assert (∀ q, pid mc' = Val q → q = reader) as Hq.
  { unfold client_loop in Hl. destruct rs1 as [|x rs1]; [done|]. cbn in Hl. injection Hl as <- _. cbn.
    destruct (x =? 0); [by intros q [= ->]|by rewrite Hmc]. }
  assert (joins (λ p, p = reader ∨ p = 0) (wait mc')) as Hw.
  { apply joins_bind; [auto|]. intros q rs3 rs4 [Hp _]%lift_result. apply joins_sys_. intros p [= ->]. left.
    apply Hq. unfold read_cell in Hp. destruct (pid mc'); by simplify_eq. }
  destruct (r =? 0).
  - apply joins_bind; [apply joins_bind; [by apply joins_sys|auto]|]. intros q _ _ _. apply joins_bind; [auto|].
    intros _ _ _ _. apply joins_bind; auto.
  - apply joins_bind; [auto|]. intros q rs3 rs4 Hq0. injection Hq0 as <- _. apply joins_bind; [auto|]. intros _ _ _ _.
    apply joins_bind; [|auto]. apply joins_sys_. intros p [= <-]. by right.
Qed.

(** The thread that publishes, which is meant to send a hundred messages, never
    returns. *)
Theorem publish_never_returns write now fuel n rs : is_ok (result_of (publish write now fuel n 0) rs) = false.
Proof.
  destruct (result_of (publish write now fuel n 0) rs) as [a| |] eqn:E; [|done..]. exfalso.
  revert n rs E. induction fuel as [|fuel IH]; intros n rs E; [done|]. cbn [publish] in E.
  change (0 <? 100) with true in E. cbn match in E.
  apply result_of_bind in E as (? & rs1 & _ & E). apply result_of_bind in E as (? & rs2 & _ & E). by eapply IH.
Qed.

(** With the role of a publisher and a server that accepts the connection: two
    threads are made, and [main] ends when the reader does. *)
Theorem test_mq_client_publishes reader publisher write prog ip ds fd p2 p3 rs :
  ":"%char ∉ ip → no_nul ip → ds ≠ [] → Forall is_digit ds → digits_value 0 ds ≤ int_max →
  Z.of_nat (length ip) < 2 ^ 31 → write [x02; NUL] = 2 →
  test_mq_client reader publisher write [prog; ip ++ ":"%char :: ds; bs "0"] (fd :: 0 :: 0 :: p2 :: p3 :: rs)
  = ([Socket_; Connect fd (Inet ip (htons (digits_value 0 ds))); PthreadCreate; PthreadCreate; PthreadJoin reader],
     Ok (0, rs)).
Proof.
  intros Hip Hno Hne Hds Hmax Hlen Hw. unfold test_mq_client. 
  rewrite (sys_bind_done _ _ _ [] 0 (fd :: 0 :: 0 :: p2 :: p3 :: rs)) by done.
  destruct (client_finds_broker ip ds fd 0 (0 :: p2 :: p3 :: rs)) as [Hc _]; [done..|]. cbn zeta in Hc.
  rewrite (sys_bind_done _ _ _ _ _ _ Hc). change (negb ((if 0 <? 0 then -1 else 0) =? 0)) with false. cbn match.
  rewrite (sys_bind_done _ _ _ [] (replicate 128 NUL) (0 :: p2 :: p3 :: rs)) by done.
  rewrite (sys_bind_done _ _ _ [] ([x02; NUL], 0) (0 :: p2 :: p3 :: rs)).
  - done.
  - unfold sys_lift, register_mq. by rewrite control_frame_role0, bind_ok, Hw by done.
Qed.
